(* ===== verification/_CoqProject ===== *)
-Q . S2P
Prelude.v
BuildFlags.v
Ring.v
ByteQueue.v
SpscQueue.v
SpmcQueue.v
Memory.v
SpmcConcurrent.v
SpmcMemory.v
SpscConcurrent.v
SpscMemory.v
StringUtil.v
FileSystem.v
FileUtil.v
LogFile.v
Check.v
StackTrace.v
UnwindTrace.v
Diagnostics.v
LogEntry.v
StringRegistry.v
Serializer.v
SinkInterface.v
Sinks.v
StdoutConcurrent.v
BackendWorker.v
BackendConcurrent.v
WorkerMemory.v
InternalLogger.v
LoggerConcurrent.v
Facade.v
EndToEnd.v
Benchmark.v
QueueBench.v
BusyBench.v
SerializerBench.v
LoggerBench.v
StringBench.v
FileBench.v
