(* ===== verification/Prelude.v ===== *)
(** * femtolog: a verification development

    femtolog is an asynchronous logger in C++20. A log call checks its level, writes a 24-byte
    header and the serialized arguments into a buffer of its own, and enqueues the bytes; a worker
    thread dequeues them, formats the text and hands it to sinks. This library translates the
    implementation files under src/src/ into definitions of Rocq and proves what they do, undefined
    behaviour and interleaving included. File names below are relative to src/src/; headers are
    under src/src/include/femtolog/.

    ** How the code is translated

    - [std::size_t], [uint64_t], [uintptr_t], [uint32_t] and [uint16_t] are integers in [Z] with
      their wrap-around written out ([u64], [⊕], [⊖], [u32], [u16]). Memory is a list of bytes; a
      load or store outside of the object ([mem_load], [mem_store]) gives [None]. Throughout, an
      outer [None] is undefined behaviour; errors that the code reports are values of the result.
    - A class is a record of its members, an operation a function from record to record. The words
      of a struct in memory are little-endian, at the offsets of the x86-64 Linux ABI.
    - Template arguments (levels, format strings, argument types, buffering) are arguments.
    - Threads are step relations or step functions over program points; one step is one access to
      what the threads share. The interleaving is sequentially consistent, but for SpscMemory.v,
      SpmcMemory.v and WorkerMemory.v, where loads may be stale and the release and acquire orders
      of the source are what makes the queues and the flags of the worker right.
    - What is not under src/ is a parameter: the fmt library ([fmt_output], [time_text],
      [json_text]), the operating system (the class [FileSystem]), zlib (in the same class), what of
      the program's objects is alive (the class [ProgramMemory], for arguments by reference), the
      allocator ([alloc], and the class [Allocator] in Memory.v), what an Apple header defines, the
      clock, backtrace, dladdr and __cxa_demangle, the order in which the
      compiler evaluates arguments ([eval_order]; with up to four it makes no difference), and the code addresses of function templates
      (the class [CodeImage]). Every witness gives concrete ones.

    ** The files

    Queues.
    - Ring.v: the two-part copies into and out of a power-of-two ring, [next_power_of_2].
    - ByteQueue.v: the interface. [Fifo] is the abstract bounded queue of bytes; the class
      [ByteQueueLaws] is what the logger and the worker rely on.
    - SpscQueue.v: logging/impl/spsc_queue.{h,cc}, every operation. [spsc_wf] is the invariant of
      the members, [spsc_contents] the bytes between the indices; [spsc_refines_fifo] the refinement of
      [Fifo]; [reserve_capacity], the bulk operations; the instance of [ByteQueueLaws].
    - SpscConcurrent.v: enqueue_bytes and dequeue_bytes cut at every shared access:
      linearizability, no data race, wait-freedom, and that the steps in a row are the calls.
    - SpscMemory.v: the same calls and peek_bytes under the memory orders they are written with: the
      histories of the two indices, fences, acquire loads, and races on the bytes of the buffer.
    - SpmcQueue.v: logging/impl/spmc_queue.{h,cc}, every operation; the refinement of [Fifo] for
      one call at a time, and the race of two consumers over tickets.
    - Memory.v: core/base/memory_util.h and the memory that [reserve] and the destructors of the two
      queues ask for and give back, over any [Allocator] that keeps its laws.
    - SpmcConcurrent.v: any number of consumers and one producer, the tickets recorded as they are
      handed out: the good case, in which the bytes of every ticket are there when it is taken.
    - SpmcMemory.v: the same under the memory orders of the source, with what every thread knows of
      the others as a view; the read-modify-writes continue release sequences.

    Data.
    - LogEntry.v: base/log_level.h and base/log_entry.h. StringRegistry.v: base/string_registry.h.
    - Serializer.v: base/serialize_util.h, base/format_util.h, logging/impl/args_serializer.h and
      args_deserializer.h: what is written by copy or by reference is what is read back.

    The logger.
    - SinkInterface.v: sinks/sink_base.h as the class [SinkBase] with its laws.
    - BackendWorker.v: options.h and logging/impl/backend_worker.{h,cc}, one call at a time, over
      any [ByteQueue] and any [SinkBase]. [message] is what a log call means; [text_of] its text;
      [record_of] its bytes in the queue; [deliver_all] what a list of messages does to the sinks.
    - BackendConcurrent.v: [run_loop] interleaved with the thread that enqueues, flushes, starts and
      stops. [inv] is the invariant: the accepted messages are those delivered and those queued.
    - WorkerMemory.v: [run_loop], [flush] and [stop] under the memory orders of their flags, over the
      steps of SpscMemory.v. [machine_inv] is the invariant; [caught_up] is what acquiring a flag
      gives; [boosted] lets a thread that knows more be followed by one of SpscMemory.v.
    - InternalLogger.v: logging/impl/internal_logger.{h,cc} and the log calls of logger.h, over
      any [ByteQueue]: what every branch of a call does.
    - LoggerConcurrent.v: the whole logger while its worker runs, fatal calls included; simulated by
      BackendConcurrent.v, whose theorems carry over.
    - Facade.v: logger.h and femtolog/logger.cc: the loggers of a process and how one is set up.

    Files and sinks.
    - FileSystem.v: POSIX and zlib as the class [FileSystem] with its laws; [MemFs], a file system
      in memory that keeps them, with short reads and writes, for the witnesses.
    - FileUtil.v: core/base/file_util.{h,cc}: paths, lines (scalar and AVX2), files, directories.
    - LogFile.v: how the sinks open a log file and rotate the old one; [format_timestamp].
    - Sinks.v: sinks/file_sink.h, json_lines_sink.h, stdout_sink.h, null_sink.h; the instances of
      [SinkBase] and its laws. A sink holds the state of the file system it alone writes to.
      [holds] is what a sink has been given, [written] what the file has: of every write the front
      that the system took.
    - StdoutConcurrent.v: the mutex of sinks/stdout_sink.h, with many workers on one descriptor, and
      writes that end early.

    Support.
    - BuildFlags.v: build/build_flag.h and component_export.h: the macros of every build, the comma
      trick that selects the annotation of a symbol included, and the three export headers.
    - StringUtil.v: core/base/string_util.{h,cc}.
    - Check.v: core/check.{h,cc}: what the macros expand to.
    - StackTrace.v: core/diagnostics/stack_trace.{h,cc} and stack_trace_entry.{h,cc}, with execinfo.
    - UnwindTrace.v: the collection of a stack trace in the libunwind and Windows builds.
    - Diagnostics.v: signal_handler.cc, terminate_handler.cc and their registration.

    Benchmarks, every one of the project that measures its own code.
    - Benchmark.v: the loop [for (auto _ : state)] of Google Benchmark, with the rules by which the
      other files say what a loop gives whatever the number of its iterations.
    - QueueBench.v, BusyBench.v: logging/impl/spsc_queue_bench.cc and spmc_queue_bench.cc, on one
      thread over SpscQueue.v and SpmcQueue.v, and with a second thread over SpscConcurrent.v and
      SpmcMemory.v.
    - SerializerBench.v, LoggerBench.v: logging/impl/args_serializer_bench.cc,
      args_deserializer_bench.cc, internal_logger_bench.cc, backend_worker_bench.cc and
      bench/femtolog_bench.cc, over Serializer.v and LoggerConcurrent.v.
    - StringBench.v, FileBench.v: core/base/string_util_bench.cc and file_util_bench.cc.

    EndToEnd.v puts the parts together. This file has the notations, [mem_load], [mem_store] and the
    other pieces of memory, little-endian words, and the lemmas and tactics that all of them use.

    ** What is shown

    - The pipeline. [EndToEnd.program_reaches_file]: for every interleaving of the two threads a
      file sink has been given the lines of the first enqueued messages, in order and once each, and
      all of them when a flush returns or the logger is destroyed; once the sink is closed its file
      has them as far as the system took the writes. It rests on [LoggerConcurrent.program_delivers] and
      [program_calls_return], those on BackendConcurrent.v, on [InternalLogger.log_call_effect] for
      a call, on [Serializer.serialize_roundtrip] for the arguments, on the promise of the queue,
      discharged by SpscQueue.v, and on that of the sinks, discharged by Sinks.v. The conditions of
      the group: messages are deliverable ([deliverable]: arguments of their types and no null
      string, a record that fits the dequeue buffer, a text that fits the format buffer and the
      sinks, references to what is alive); the worker is started at most once; the arguments of
      calls with five or more are evaluated from left to right; the run has fewer than 2 ^ 63 steps
      of the user; the memory is sequentially consistent; the sink is its file's only writer. What
      happens without them is in the divergences below.
    - Concurrency of the queues: linearizability, absence of data races and wait-freedom of the
      single-consumer queue, in the memory model of C++ too ([spsc_release_acquire]); order of the
      tickets of the multiple-consumer queue, and the condition under which its memory orders
      suffice ([SpmcMemory.spmc_release_acquire]). In that memory model flush and stop lose no
      record, and the peek of an ordinary turn is the only access of the worker that can be a data
      race ([WorkerMemory.worker_release_acquire]). Lines of several workers do not mix on standard
      output ([stdout_lines_whole]) when all the sinks are of one instance of the template; those of
      two instances do ([instances_mix]).
    - Memory: however a queue is reserved and whatever the allocator answers, each buffer is freed
      once ([buffers_freed_once]).
    - The build: when a symbol is exported ([component_export_annotation]); every set of macros
      either stops the build or gives flags that fit together and name the target
      ([build_flags_consistent]).
    - Invariants of the members: [calls_keep_valid] for every operation of the single-consumer
      queue; [bulk_calls_whole], that its bulk calls never leave half a message.
    - Round trips: escapes, entries, arguments, registered strings, files.
    - Bounds, and where they fail: what of the buffers is long enough under which sizes, and the
      inputs on which the code leaves an array.
    - Termination: flush and stop return, the search for a free file name ends, the queue is
      wait-free. Loops over data are structural recursions.
    - Benchmarks: what every call of a timed loop gives, for any number of iterations
      ([queue_benchmarks_measure], [serializer_benchmarks_measure], [string_benchmarks_measure],
      [line_benchmarks_measure]); and which of them do not measure what they are for: the worker of
      a logger that is started again returns by itself, and when it has before the loop begins the
      queue fills and drops ([restarted_benchmark_drops]).
    - Divergences from what the code means to do are theorems about concrete runs or conditions:
      [restart_flush_hangs], [spmc_ticket_race], [serialize_by_reference], [argument_order],
      [dequeue_buffer_bound], [long_names_overrun], [remove_bracket_stack_bound], [check_outcomes],
      [spsc_peek_race], [spmc_stale_tail], [windows_trace_undefined], [busy_benchmarks_race],
      [char_ptr_benchmarks_read_uninitialised].

    ** Fuel

    Loops that do not recurse on data carry a counter, and what they compute is stated for enough
    of it. [flush_impl] takes one turn for every message in the queue and one more
    ([flush_impl_drains]). The search for a free file name tries at most one name more than there
    are files, since the names differ ([open_log_returns]). The loops of FileUtil.v over lines,
    reads, writes and path components are called with a counter the definitions compute from the
    length of the data, which each turn shortens; a read or write that moves nothing ends its loop.
    The turns of a mask of 32 bits are 32. [run_loop] and the loops that wait for another thread
    are steps without fuel; that they end is [spsc_wait_free] and [program_calls_return].

    ** Not modelled

    - Several writers of one file: every sink has the file system to itself, but for the mutex of
      standard output (StdoutConcurrent.v). The sleeps of the benchmarks: how long a thread takes is
      not a notion of the model.
    - The memory orders of the bulk calls of the queues, which repeat the single ones, and those of
      the flags when a worker is started a second time.
    - The Windows and macOS branches, but for the stack traces and the macros of the build. Everything else is as built for
      x86-64 Linux, with and without AVX2 where that matters, and with the checks of a release build
      unless said otherwise.
    - Google Benchmark, but for its loop, and the benchmarks of other libraries
      (bench/quill_bench.cc, spdlog_bench.cc, format_bench.cc), whose calls are all to code that is
      not part of the source.
    - Tests, CMake and Python files, and third-party code.
    - Messages on [std::cerr] of file_util.cc; [reserve] of strings and vectors. *)

From stdpp Require Export base list strings numbers option relations.
From Stdlib Require Export ZArith Lia Strings.Byte.
From coqutil Require Export Byte Word.LittleEndianList.

#[global] Open Scope Z_scope.

(** ** Bytes and literals *)

Abbreviation bytes := (list Init.Byte.byte).

#[export] Instance byte_eq_dec : EqDecision Init.Byte.byte := Byte.byte_eq_dec.
#[export] Instance byte_inhabited : Inhabited Init.Byte.byte := populate Byte.x00.

(** A C string literal without its terminating NUL. *)
Definition bs (s : string) : bytes := String.list_byte_of_string s.

Definition ch (z : Z) : Init.Byte.byte := byte.of_Z z.

(** Facts about single characters are decided over all 256 of them. *)
Definition all_bytes : list Init.Byte.byte := ch ∘ Z.of_nat <$> seq 0 256.

Lemma all_bytes_complete c : c ∈ all_bytes.
Proof.
  apply list_elem_of_fmap. exists (Z.to_nat (byte.unsigned c)).
  pose proof (byte.unsigned_range c). split; [|apply elem_of_seq; lia].
  unfold compose, ch. rewrite Z2Nat.id by lia. symmetry. apply byte.of_Z_unsigned.
Qed.

Lemma for_all_bytes (p : Init.Byte.byte -> bool) : forallb p all_bytes = true -> forall c, p c = true.
Proof.
  intros H c. rewrite forallb_forall in H. apply H, list_elem_of_In, all_bytes_complete.
Qed.

(** [strlen] of the memory at a [char*]: [None] when no NUL is found inside the object. *)
Fixpoint c_strlen (mem : bytes) : option nat :=
  match mem with
  | [] => None
  | c :: rest => if decide (c = Byte.x00) then Some 0%nat else S <$> c_strlen rest
  end.

(** The signed value of a [char] on the targets the project builds for. *)
Definition char_signed (c : Init.Byte.byte) : Z :=
  let v := byte.unsigned c in if v <? 128 then v else v - 256.

(** ** Fixed-width unsigned arithmetic

    [std::size_t], [uint64_t] and [uintptr_t] are 64 bits wide; every sum and difference of the
    source is written with its wrap-around. *)

Declare Scope size_scope.
Delimit Scope size_scope with size.

Definition u64 (z : Z) : Z := z mod 2 ^ 64.
Definition u32 (z : Z) : Z := z mod 2 ^ 32.
Definition u16 (z : Z) : Z := z mod 2 ^ 16.

Notation "a ⊕ b" := (u64 (a + b)) (at level 50, left associativity) : size_scope.
Notation "a ⊖ b" := (u64 (a - b)) (at level 50, left associativity) : size_scope.
#[global] Open Scope size_scope.

(** [sizeof] of a list of bytes, as the [std::size_t] the code passes around. *)
Definition lenZ {A} (l : list A) : Z := Z.of_nat (length l).

Lemma lenZ_nonneg {A} (l : list A) : 0 <= lenZ l.
Proof. unfold lenZ; lia. Qed.

Lemma lenZ_app {A} (l k : list A) : lenZ (l ++ k) = lenZ l + lenZ k.
Proof. unfold lenZ; rewrite length_app; lia. Qed.

Lemma lenZ_nil {A} : lenZ (@nil A) = 0.
Proof. reflexivity. Qed.

Lemma lenZ_cons {A} (x : A) l : lenZ (x :: l) = 1 + lenZ l.
Proof. unfold lenZ; simpl; lia. Qed.

Lemma lenZ_zero_inv {A} (l : list A) : lenZ l = 0 -> l = [].
Proof. destruct l; [done | unfold lenZ; simpl; lia]. Qed.

Lemma u64_range z : 0 <= u64 z < 2 ^ 64.
Proof. apply Z.mod_pos_bound; lia. Qed.

Lemma u64_small z : 0 <= z < 2 ^ 64 -> u64 z = z.
Proof. apply Z.mod_small. Qed.

Lemma u64_u64 z : u64 (u64 z) = u64 z.
Proof. apply Z.mod_mod; lia. Qed.

Lemma u64_add_l a b : u64 (u64 a + b) = u64 (a + b).
Proof. apply Zplus_mod_idemp_l. Qed.

Lemma u64_add_r a b : u64 (a + u64 b) = u64 (a + b).
Proof. apply Zplus_mod_idemp_r. Qed.

Lemma u64_sub_l a b : u64 (u64 a - b) = u64 (a - b).
Proof. apply Zminus_mod_idemp_l. Qed.

Lemma u64_sub_r a b : u64 (a - u64 b) = u64 (a - b).
Proof. apply Zminus_mod_idemp_r. Qed.

(** A difference of two wrapped counters is the difference of the counters when it fits. *)
Lemma u64_sub_counters a b : 0 <= a - b < 2 ^ 64 -> u64 (u64 a - u64 b) = a - b.
Proof. intros H. rewrite u64_sub_l, u64_sub_r. by apply u64_small. Qed.

(** Moving one end of a distance between two wrapped counters. *)
Lemma u64_dist_advance_l t h n : (t ⊕ n) ⊖ h = (t ⊖ h) ⊕ n.
Proof. rewrite u64_sub_l, u64_add_l. f_equal; lia. Qed.

Lemma u64_dist_advance_r t h n : t ⊖ (h ⊕ n) = (t ⊖ h) ⊖ n.
Proof. rewrite u64_sub_r, u64_sub_l. f_equal; lia. Qed.

(** Reducing a wrapped counter modulo a power of two loses nothing. *)
Lemma u64_mod_pow2 z k : 0 <= k <= 64 -> u64 z mod 2 ^ k = z mod 2 ^ k.
Proof.
  intros Hk. unfold u64. apply Z.mod_mod_divide.
  exists (2 ^ (64 - k)). rewrite <- Z.pow_add_r by lia. f_equal; lia.
Qed.

(** ** Memory

    A C object is a list of bytes; [memcpy] into it or out of it is defined only inside its
    bounds. [None] stands for undefined behaviour. *)

Definition mem_store (buf : bytes) (off : Z) (data : bytes) : option bytes :=
  if decide (0 <= off /\ off + lenZ data <= lenZ buf)
  then Some (list_inserts (Z.to_nat off) data buf) else None.

Definition mem_load (buf : bytes) (off n : Z) : option bytes :=
  if decide (0 <= off /\ 0 <= n /\ off + n <= lenZ buf)
  then Some (take (Z.to_nat n) (drop (Z.to_nat off) buf)) else None.

Lemma mem_store_spec buf off data :
  0 <= off -> off + lenZ data <= lenZ buf ->
  mem_store buf off data = Some (list_inserts (Z.to_nat off) data buf).
Proof. intros. unfold mem_store. rewrite decide_True; auto. Qed.

Lemma mem_store_Some buf off data buf' :
  mem_store buf off data = Some buf' ->
  0 <= off /\ off + lenZ data <= lenZ buf /\ buf' = list_inserts (Z.to_nat off) data buf.
Proof. unfold mem_store. case_decide; intros; simplify_eq. tauto. Qed.

Lemma mem_store_length buf off data buf' :
  mem_store buf off data = Some buf' -> length buf' = length buf.
Proof. intros (_ & _ & ->)%mem_store_Some. apply length_inserts. Qed.

Lemma mem_load_spec buf off n :
  0 <= off -> 0 <= n -> off + n <= lenZ buf ->
  mem_load buf off n = Some (take (Z.to_nat n) (drop (Z.to_nat off) buf)).
Proof. intros. unfold mem_load. rewrite decide_True; auto. Qed.

Lemma mem_load_Some buf off n data :
  mem_load buf off n = Some data ->
  0 <= off /\ 0 <= n /\ off + n <= lenZ buf /\
  data = take (Z.to_nat n) (drop (Z.to_nat off) buf).
Proof. unfold mem_load. case_decide; intros; simplify_eq. tauto. Qed.

Lemma mem_load_length buf off n data :
  mem_load buf off n = Some data -> lenZ data = n.
Proof.
  intros (? & ? & Hb & ->)%mem_load_Some. unfold lenZ in *.
  rewrite length_take, length_drop. lia.
Qed.

Lemma list_inserts_mid {A} (pre old post data : list A) :
  length data = length old ->
  list_inserts (length pre) data (pre ++ old ++ post) = pre ++ data ++ post.
Proof.
  intros Hl. rewrite <- (Nat.add_0_r (length pre)), list_inserts_app_r.
  by rewrite list_inserts_0_r.
Qed.

(** Writing inside the front part of an object. *)
Lemma list_inserts_front {A} i (data a b : list A) :
  (i + length data <= length a)%nat -> list_inserts i data (a ++ b) = list_inserts i data a ++ b.
Proof.
  revert i. induction data as [|x data IH]; intros i Hl; simpl in *; [done|].
  rewrite IH by lia. by rewrite insert_app_l by (rewrite length_inserts; lia).
Qed.

(** Storing over the middle of an object. *)
Lemma mem_store_mid pre old post data off :
  off = lenZ pre -> length data = length old ->
  mem_store (pre ++ old ++ post) off data = Some (pre ++ data ++ post).
Proof.
  intros -> Hl. unfold mem_store, lenZ.
  rewrite decide_True by (rewrite !length_app; lia).
  by rewrite Nat2Z.id, list_inserts_mid.
Qed.

(** What was stored is what is read back, and the rest of the object is unchanged. *)
Lemma mem_load_store_same buf off data buf' :
  mem_store buf off data = Some buf' -> mem_load buf' off (lenZ data) = Some data.
Proof.
  intros Hs. pose proof (mem_store_length _ _ _ _ Hs) as Hl.
  apply mem_store_Some in Hs as (? & Hb & ->). unfold lenZ in *.
  rewrite mem_load_spec by (unfold lenZ; lia). f_equal.
  rewrite Nat2Z.id. apply list_eq; intros i.
  destruct (decide (i < length data)%nat).
  - rewrite lookup_take by lia. rewrite lookup_drop.
    rewrite decide_True by lia.
    rewrite list_lookup_inserts by lia. f_equal; lia.
  - rewrite (lookup_ge_None_2 data) by lia.
    apply lookup_ge_None_2. rewrite length_take. lia.
Qed.

Lemma mem_load_store_other buf off data buf' o n :
  mem_store buf off data = Some buf' ->
  o + n <= off \/ off + lenZ data <= o ->
  mem_load buf' o n = mem_load buf o n.
Proof.
  intros Hs Hd. pose proof (mem_store_length _ _ _ _ Hs) as Hl.
  apply mem_store_Some in Hs as (? & Hb & ->). unfold mem_load, lenZ in *. rewrite Hl.
  case_decide; [|done]. f_equal. apply list_eq; intros i.
  destruct (decide (i < Z.to_nat n)%nat).
  - rewrite !lookup_take, !decide_True by lia. rewrite !lookup_drop.
    destruct Hd; [apply list_lookup_inserts_lt; lia | apply list_lookup_inserts_ge; lia].
  - rewrite !lookup_ge_None_2 by (rewrite length_take; lia). done.
Qed.

(** Loads see the object only up to where they read. *)
Lemma mem_load_app a b off n d :
  mem_load a off n = Some d -> mem_load (a ++ b) off n = Some d.
Proof.
  intros (? & ? & Hb & ->)%mem_load_Some. unfold lenZ in *.
  rewrite mem_load_spec by (rewrite ?lenZ_app; unfold lenZ; lia).
  by rewrite drop_app_le, take_app_le by (rewrite ?length_drop; lia).
Qed.

Lemma mem_load_take k m off n d :
  mem_load m off n = Some d -> off + n <= Z.of_nat k -> mem_load (take k m) off n = Some d.
Proof.
  intros Hl Hk. rewrite <- (take_drop k m) in Hl.
  apply mem_load_Some in Hl as (? & ? & Hb & ->). unfold lenZ in *.
  rewrite length_app, length_take, length_drop in Hb.
  rewrite mem_load_spec by (unfold lenZ; rewrite ?length_take; lia).
  by rewrite drop_app_le, take_app_le by (rewrite ?length_drop, ?length_take; lia).
Qed.

(** The first bytes of an object that starts with them. *)
Lemma mem_load_front a b : mem_load (a ++ b) 0 (lenZ a) = Some a.
Proof.
  apply mem_load_app. rewrite mem_load_spec by (pose proof (lenZ_nonneg a); lia).
  unfold lenZ. by rewrite Nat2Z.id, firstn_all.
Qed.

Lemma mem_load_mid pre d post : mem_load (pre ++ d ++ post) (lenZ pre) (lenZ d) = Some d.
Proof.
  pose proof (lenZ_nonneg pre). pose proof (lenZ_nonneg d). pose proof (lenZ_nonneg post).
  rewrite mem_load_spec by (rewrite ?lenZ_app; lia). unfold lenZ.
  by rewrite !Nat2Z.id, drop_app_length, take_app_length.
Qed.

Lemma mem_load_all a : mem_load a 0 (lenZ a) = Some a.
Proof. rewrite <- (app_nil_r a) at 1. apply mem_load_front. Qed.

(** ** Appending at a pointer *)

(** [std::memcpy(pos, data, size); pos += size]. *)
Definition put_bytes (data : bytes) (st : bytes * Z) : option (bytes * Z) :=
  let '(mem, pos) := st in mem' ← mem_store mem pos data; Some (mem', pos + lenZ data).

(** [out] has been written to the front of an object of [n] bytes. *)
Definition filled (n : Z) (out : bytes) (st : bytes * Z) : Prop :=
  exists rest, st.1 = out ++ rest /\ st.2 = lenZ out /\ lenZ st.1 = n.

Lemma put_bytes_ok n out st d :
  filled n out st -> lenZ out + lenZ d <= n ->
  exists st', put_bytes d st = Some st' /\ filled n (out ++ d) st'.
Proof.
  destruct st as [mem pos]. unfold filled. simpl. intros (rest & -> & -> & Hn) Hd.
  rewrite lenZ_app in Hn. unfold put_bytes.
  rewrite <- (take_drop (length d) rest), mem_store_mid;
    [|done | rewrite length_take; unfold lenZ in *; lia].
  simpl. eexists. split; [done|]. exists (drop (length d) rest). simpl.
  rewrite <- app_assoc, !lenZ_app in *. unfold lenZ in *. rewrite length_drop. split_and!; lia || done.
Qed.

(** ** Little-endian fields *)

Definition store_le (buf : bytes) (off : Z) (n : nat) (v : Z) : option bytes :=
  mem_store buf off (le_split n v).

Definition load_le (buf : bytes) (off : Z) (n : nat) : option Z :=
  le_combine <$> mem_load buf off (Z.of_nat n).

Lemma lenZ_le_split n v : lenZ (le_split n v) = Z.of_nat n.
Proof. unfold lenZ. by rewrite length_le_split. Qed.

Lemma store_le_ok buf off n v :
  0 <= off -> off + Z.of_nat n <= lenZ buf ->
  exists buf', store_le buf off n v = Some buf' /\ length buf' = length buf.
Proof.
  intros H1 H2. unfold store_le. rewrite mem_store_spec by (rewrite ?lenZ_le_split; lia).
  eexists. split; [done | apply length_inserts].
Qed.

Lemma load_le_app a b off n v : load_le a off n = Some v -> load_le (a ++ b) off n = Some v.
Proof.
  unfold load_le. intros H. destruct (mem_load a off _) eqn:E; [|done].
  by rewrite (mem_load_app _ _ _ _ _ E).
Qed.

Lemma load_le_take k m off n v :
  load_le m off n = Some v -> off + Z.of_nat n <= Z.of_nat k -> load_le (take k m) off n = Some v.
Proof.
  unfold load_le. intros H Hk. destruct (mem_load m off _) eqn:E; [|done].
  by rewrite (mem_load_take _ _ _ _ _ E Hk).
Qed.

Lemma load_store_le buf off n v buf' :
  store_le buf off n v = Some buf' ->
  load_le buf' off n = Some (v mod 2 ^ (Z.of_nat n * 8)).
Proof.
  unfold store_le, load_le. intros H. apply mem_load_store_same in H.
  rewrite lenZ_le_split in H. rewrite H. simpl. by rewrite le_combine_split.
Qed.

Lemma load_store_le_other buf off n v buf' o m :
  store_le buf off n v = Some buf' ->
  o + Z.of_nat m <= off \/ off + Z.of_nat n <= o ->
  load_le buf' o m = load_le buf o m.
Proof.
  unfold store_le, load_le. intros H Hd. f_equal.
  eapply mem_load_store_other; [done | by rewrite lenZ_le_split].
Qed.

(** What holds of a list holds of the messages that were picked from it. *)
Lemma sublist_Forall {A} (P : A -> Prop) (l k : list A) : l `sublist_of` k -> Forall P k -> Forall P l.
Proof.
  intros Hs Hk. rewrite Forall_forall in *. intros x Hx. apply Hk. by eapply elem_of_sublist.
Qed.

(** ** Automation *)

(** Opens existentials, conjunctions and equations between constructors. *)
Ltac dest :=
  repeat match goal with
  | H : ex _ |- _ => destruct H
  | H : _ /\ _ |- _ => destruct H
  | H : _ ∧ _ |- _ => destruct H
  | H : (_, _) = (_, _) |- _ => inversion H; clear H
  | H : Some _ = Some _ |- _ => inversion H; clear H
  end; subst.

(** Case analysis on the first [option] bound in a hypothesis that says the whole run is defined. *)
Ltac bind_inv H :=
  repeat first
    [ progress simpl in H
    | match type of H with
      | (?m ≫= _) = Some _ =>
        let x := fresh "x" in let E := fresh "E" in
        destruct m as [x|] eqn:E; [simpl in H | discriminate H]
      | (_ <$> ?m) = Some _ =>
        let x := fresh "x" in let E := fresh "E" in
        destruct m as [x|] eqn:E; [simpl in H | discriminate H]
      end ].

(** Decides a property of single characters by running it on all of them. *)
Ltac by_all_bytes c p :=
  let H := fresh in
  pose proof (for_all_bytes p ltac:(vm_compute; reflexivity) c) as H; cbv beta in H; revert H.

(** [lia] with division and modulo by constants opened. *)
Ltac zmod := Z.div_mod_to_equations; lia.

Create HintDb femto discriminated.
Create Rewrite HintDb femto_size.
#[export] Hint Resolve lenZ_nonneg u64_range mem_store_length mem_load_length : femto.
#[export] Hint Rewrite @lenZ_app @lenZ_nil @lenZ_cons @lenZ_le_split
  u64_u64 u64_add_l u64_add_r u64_sub_l u64_sub_r : femto_size.

(** Writes with [put_bytes] and names the new state. *)
Ltac put_step F :=
  match goal with
  | |- context [put_bytes ?d ?st] =>
    let st' := fresh "st" in let E := fresh "E" in let F' := fresh "F" in
    destruct (put_bytes_ok _ _ _ d F) as (st' & E & F');
    [autorewrite with femto_size in *; lia | rewrite E; simpl; clear E]
  end.
