(* ===== verification/BuildFlags.v ===== *)
(** * The macros of a build

    src/src/include/femtolog/build/build_flag.h and component_export.h: what the preprocessor makes
    of the macros that the compiler, the system and the command line define. None of the macros
    that the two headers define themselves is defined before. *)

From stdpp Require Import strings pretty gmap.
From S2P Require Import Prelude.
Local Open Scope string_scope.
Local Open Scope list_scope.
Local Open Scope Z_scope.

(** ** The preprocessor *)

(** The replacement of an object-like macro: nothing, an integer, or another token; those that the
    two headers look at have no more than one. *)
Inductive body := Empty | Number (n : Z) | Token (s : string).

Abbreviation macros := (gmap string body).

Definition defined (m : macros) (x : string) : bool := bool_decide (is_Some (m !! x)).

Definition any_defined (m : macros) (xs : list string) : bool := existsb (defined m) xs.

(** What the identifier [x] is replaced by: the replacement is scanned again, and a macro in
    [within] is not replaced inside of its own replacement. *)
Fixpoint rescan (fuel : nat) (m : macros) (within : list string) (x : string) : body :=
  match fuel, m !! x with
  | S fuel, Some (Token y) => if bool_decide (y ∈ x :: within) then Token y else rescan fuel m (x :: within) y
  | S _, Some b => b
  | _, _ => Token x
  end.

(** Every turn replaces a macro that was not replaced before. *)
Definition replacement (m : macros) (x : string) : body := rescan (S (size m)) m [] x.

Lemma within_size (m : macros) within :
  NoDup within -> Forall (λ y, y ∈ dom m) within -> (length within <= size m)%nat.
Proof.
  intros Hn Hd. pose proof (size_list_to_set (C := gset string) within Hn) as <-.
  assert (list_to_set within ⊆ dom m) as Hsub.
  { intros y Hy%elem_of_list_to_set. by eapply Forall_forall in Hd. }
  apply subseteq_size in Hsub. by rewrite (size_dom (D := gset string) m) in Hsub.
Qed.

Lemma rescan_fuel m f1 : forall f2 within x,
  NoDup within -> x ∉ within -> Forall (λ y, y ∈ dom m) within ->
  (size m < f1 + length within)%nat -> (size m < f2 + length within)%nat ->
  rescan f1 m within x = rescan f2 m within x.
Proof.
  induction f1 as [|f1 IH]; intros f2 within x Hn Hx Hd H1 H2; pose proof (within_size m within Hn Hd); [lia|].
  destruct f2 as [|f2]; [lia|]. cbn [rescan]. destruct (m !! x) as [[| |y]|] eqn:E; try done.
  case_bool_decide as Hy; [done|]. apply IH; cbn [length]; [by constructor | done | | lia..].
  constructor; [|done]. apply elem_of_dom. by eexists.
Qed.

(** More turns change nothing. *)
Lemma replacement_enough m x n : rescan (S (size m) + n) m [] x = replacement m x.
Proof. apply rescan_fuel; [constructor | apply not_elem_of_nil | constructor | cbn; lia..]. Qed.

(** An identifier in the condition of an [#if]: what is left of it counts as 0, but for [true].
    [None] is a condition that has no operand. *)
Definition value (m : macros) (x : string) : option Z :=
  match replacement m x with
  | Empty => None
  | Number n => Some n
  | Token s => Some (if bool_decide (s = "true") then 1 else 0)
  end.

(** ** Platform *)

Record platform := {
  IS_WINDOWS : bool; IS_UNIX : bool; IS_MAC : bool; IS_IOS : bool; IS_ANDROID : bool;
  IS_LINUX : bool; IS_BSD : bool; IS_CYGWIN : bool; IS_SOLARIS : bool;
}.

Definition no_platform : platform :=
  {| IS_WINDOWS := false; IS_UNIX := false; IS_MAC := false; IS_IOS := false; IS_ANDROID := false;
     IS_LINUX := false; IS_BSD := false; IS_CYGWIN := false; IS_SOLARIS := false |}.

(** [#undef] and [#define] of [FEMTOLOG_IS_UNIX] and one of the others. *)
Definition set_unix (mac ios android linux bsd cygwin solaris : bool) : platform :=
  {| IS_WINDOWS := IS_WINDOWS no_platform; IS_UNIX := true; IS_MAC := mac; IS_IOS := ios;
     IS_ANDROID := android; IS_LINUX := linux; IS_BSD := bsd; IS_CYGWIN := cygwin; IS_SOLARIS := solaris |}.

Definition set_windows : platform :=
  {| IS_WINDOWS := true; IS_UNIX := IS_UNIX no_platform; IS_MAC := IS_MAC no_platform;
     IS_IOS := IS_IOS no_platform; IS_ANDROID := IS_ANDROID no_platform; IS_LINUX := IS_LINUX no_platform;
     IS_BSD := IS_BSD no_platform; IS_CYGWIN := IS_CYGWIN no_platform; IS_SOLARIS := IS_SOLARIS no_platform |}.

Section platform.
(** What [#include <TargetConditionals.h>] adds to the macros. *)
Context (TargetConditionals : macros -> macros).

Definition windows_macros : list string := ["_WIN32"; "_WIN64"; "__WIN32__"].

(** The macros after the first chain of conditions. *)
Definition included (m : macros) : macros :=
  if any_defined m windows_macros then m else if defined m "__APPLE__" then TargetConditionals m else m.

Definition apple (m : macros) : option platform :=
  mac ← value m "TARGET_OS_MAC";
  if negb (mac =? 0) then Some (set_unix true false false false false false false)
  else
    iphone ← value m "TARGET_OS_IPHONE";
    if negb (iphone =? 0) then Some (set_unix false true false false false false false)
    else Some (set_unix true false false false false false false).

(** [None] is an [#error]. *)
Definition detect_platform (m : macros) : option platform :=
  if any_defined m windows_macros then Some set_windows
  else if defined m "__APPLE__" then apple (included m)
  else if any_defined m ["__linux__"; "__linux"; "linux"] then
    if defined m "__ANDROID__" then Some (set_unix false false true false false false false)
    else Some (set_unix false false false true false false false)
  else if any_defined m ["__FreeBSD__"; "__NetBSD__"; "__OpenBSD__"; "__DragonFly__"]
  then Some (set_unix false false false false true false false)
  else if defined m "__CYGWIN__" then Some (set_unix false false false false false true false)
  else if defined m "__sun" && defined m "__SVR4" then Some (set_unix false false false false false false true)
  else None.
End platform.

(** ** Compiler *)

Record compiler := {
  COMPILER_MSVC : bool; COMPILER_GCC : bool; COMPILER_CLANG : bool; COMPILER_INTEL : bool;
  COMPILER_MINGW : bool;
}.

Definition detect_compiler (m : macros) : option compiler :=
  if defined m "_MSC_VER" then
    Some {| COMPILER_MSVC := true; COMPILER_GCC := false; COMPILER_CLANG := false;
            COMPILER_INTEL := false; COMPILER_MINGW := false |}
  else if defined m "__clang__" then
    Some {| COMPILER_MSVC := false; COMPILER_GCC := false; COMPILER_CLANG := true;
            COMPILER_INTEL := false; COMPILER_MINGW := false |}
  else if any_defined m ["__INTEL_COMPILER"; "__ICC"] then
    Some {| COMPILER_MSVC := false; COMPILER_GCC := false; COMPILER_CLANG := false;
            COMPILER_INTEL := true; COMPILER_MINGW := false |}
  else if any_defined m ["__MINGW32__"; "__MINGW64__"] then
    Some {| COMPILER_MSVC := false; COMPILER_GCC := false; COMPILER_CLANG := false;
            COMPILER_INTEL := false; COMPILER_MINGW := true |}
  else if any_defined m ["__GNUC__"; "__GNUG__"] then
    Some {| COMPILER_MSVC := false; COMPILER_GCC := true; COMPILER_CLANG := false;
            COMPILER_INTEL := false; COMPILER_MINGW := false |}
  else None.

(** The arithmetic is done where the macro is used, on the values of the compiler's own macros. *)
Definition version (m : macros) (major minor patch : string) : option Z :=
  a ← value m major; b ← value m minor; c ← value m patch; Some (a * 10000 + b * 100 + c).

Definition compiler_version (c : compiler) (m : macros) : option Z :=
  if COMPILER_MSVC c then value m "_MSC_VER"
  else if COMPILER_GCC c then version m "__GNUC__" "__GNUC_MINOR__" "__GNUC_PATCHLEVEL__"
  else if COMPILER_CLANG c then version m "__clang_major__" "__clang_minor__" "__clang_patchlevel__"
  else if COMPILER_INTEL c then value m "__INTEL_COMPILER"
  else Some 0.

(** ** Architecture *)

Record architecture := {
  ARCH_X64 : bool; ARCH_X86 : bool; ARCH_ARM : bool; ARCH_ARM64 : bool; ARCH_MIPS : bool;
  ARCH_PPC : bool; ARCH_RISCV : bool;
}.

Definition set_arch (x64 x86 arm arm64 mips ppc riscv : bool) : architecture :=
  {| ARCH_X64 := x64; ARCH_X86 := x86; ARCH_ARM := arm; ARCH_ARM64 := arm64; ARCH_MIPS := mips;
     ARCH_PPC := ppc; ARCH_RISCV := riscv |}.

Definition detect_architecture (m : macros) : option architecture :=
  if any_defined m ["__x86_64__"; "_M_X64"; "_M_AMD64"]
  then Some (set_arch true false false false false false false)
  else if any_defined m ["__i386"; "_M_IX86"; "__i386__"]
  then Some (set_arch false true false false false false false)
  else if any_defined m ["__aarch64__"; "_M_ARM64"]
  then Some (set_arch false false false true false false false)
  else if any_defined m ["__arm__"; "_M_ARM"]
  then Some (set_arch false false true false false false false)
  else if any_defined m ["__mips__"; "__mips"; "__MIPS__"]
  then Some (set_arch false false false false true false false)
  else if any_defined m ["__powerpc__"; "__powerpc"; "__ppc__"; "__PPC__"]
  then Some (set_arch false false false false false true false)
  else if defined m "__riscv" then Some (set_arch false false false false false false true)
  else None.

(** Whether [__riscv] is defined or not, the second operand of [&&] is replaced and parsed. *)
Record width := { ARCH_64BIT : bool; ARCH_32BIT : bool }.

Definition detect_width (m : macros) : option width :=
  xlen ← value m "__riscv_xlen";
  if any_defined m ["_WIN64"; "__x86_64__"; "__aarch64__"; "__powerpc64__"; "__mips64"] ||
     (defined m "__riscv" && (xlen =? 64))
  then Some {| ARCH_64BIT := true; ARCH_32BIT := false |}
  else Some {| ARCH_64BIT := false; ARCH_32BIT := true |}.

(** ** Byte order *)

Record byte_order := { IS_BIG_ENDIAN : bool; IS_LITTLE_ENDIAN : bool }.

Definition detect_byte_order (m : macros) : option byte_order :=
  if defined m "__BYTE_ORDER__" then
    order ← value m "__BYTE_ORDER__"; big ← value m "__ORDER_BIG_ENDIAN__";
    if order =? big then Some {| IS_BIG_ENDIAN := true; IS_LITTLE_ENDIAN := false |}
    else
      little ← value m "__ORDER_LITTLE_ENDIAN__";
      if order =? little then Some {| IS_BIG_ENDIAN := false; IS_LITTLE_ENDIAN := true |} else None
  else if any_defined m ["__BIG_ENDIAN__"; "__ARMEB__"; "__THUMBEB__"; "__AARCH64EB__"; "_MIPSEB"; "__MIPSEB";
                         "__MIPSEB__"] then Some {| IS_BIG_ENDIAN := true; IS_LITTLE_ENDIAN := false |}
  else if any_defined m ["__LITTLE_ENDIAN__"; "__ARMEL__"; "__THUMBEL__"; "__AARCH64EL__"; "_MIPSEL"; "__MIPSEL";
                         "__MIPSEL__"] then Some {| IS_BIG_ENDIAN := false; IS_LITTLE_ENDIAN := true |}
  else Some {| IS_BIG_ENDIAN := false; IS_LITTLE_ENDIAN := true |}.

(** ** Configuration *)

Record configuration := { IS_DEBUG : bool; IS_RELEASE : bool }.

Definition detect_configuration (m : macros) : configuration :=
  if defined m "NDEBUG" then {| IS_DEBUG := false; IS_RELEASE := true |}
  else {| IS_DEBUG := true; IS_RELEASE := false |}.

(** ** Attributes *)

(** The replacement of the macros that stand for attributes; a parameter is the text it is given. *)
Record attributes := {
  FORCE_INLINE : string; INLINE : string; NO_INLINE : string; ALIGN : string -> string;
  PACKED_STRUCT : string -> string; LIKELY : string -> string; UNLIKELY : string -> string;
}.

Definition detect_attributes (c : compiler) : attributes :=
  let gnu := COMPILER_GCC c || COMPILER_CLANG c in
  {| FORCE_INLINE :=
       if COMPILER_MSVC c then "__forceinline"
       else if gnu then "inline __attribute__((always_inline))" else "inline";
     INLINE := if COMPILER_MSVC c then "__inline" else "inline";
     NO_INLINE :=
       if COMPILER_MSVC c then "__declspec(noinline)"
       else if gnu then "__attribute__((noinline))" else EmptyString;
     ALIGN x :=
       if COMPILER_MSVC c then "__declspec(align(" +:+ x +:+ "))"
       else if gnu then "__attribute__((aligned(" +:+ x +:+ ")))" else EmptyString;
     PACKED_STRUCT name :=
       if COMPILER_MSVC c then "__pragma(pack(push, 1)) struct " +:+ name +:+ " __pragma(pack(pop))"
       else if gnu then "struct __attribute__((packed)) " +:+ name else "struct " +:+ name;
     LIKELY x := if gnu then "__builtin_expect(!!(" +:+ x +:+ "), 1)" else "(" +:+ x +:+ ")";
     UNLIKELY x := if gnu then "__builtin_expect(!!(" +:+ x +:+ "), 0)" else "(" +:+ x +:+ ")" |}.

(** [FEMTOLOG_XRAY_FN] and [FEMTOLOG_XRAY_FN_LOG]. *)
Definition detect_xray (m : macros) : option (string * string) :=
  enabled ← value m "FEMTOLOG_ENABLE_XRAY";
  if negb (enabled =? 0)
  then Some ("[[clang::xray_always_instrument]]", "[[clang::xray_always_instrument, clang::xray_log_args(1)]]")
  else Some (EmptyString, EmptyString).

(** ** The header *)

Record separators := { DIR_SEPARATOR : byte; PATH_SEPARATOR : byte }.

Definition detect_separators (p : platform) : separators :=
  if IS_WINDOWS p then {| DIR_SEPARATOR := "\"%byte; PATH_SEPARATOR := ";"%byte |}
  else {| DIR_SEPARATOR := "/"%byte; PATH_SEPARATOR := ":"%byte |}.

Record interfaces := {
  USE_WINDOWS_IO : bool; USE_POSIX_IO : bool; USE_WINDOWS_THREADS : bool; USE_POSIX_THREADS : bool;
}.

Definition detect_interfaces (p : platform) : interfaces :=
  if IS_WINDOWS p then
    {| USE_WINDOWS_IO := true; USE_POSIX_IO := false; USE_WINDOWS_THREADS := true; USE_POSIX_THREADS := false |}
  else
    {| USE_WINDOWS_IO := false; USE_POSIX_IO := true; USE_WINDOWS_THREADS := false; USE_POSIX_THREADS := true |}.

Record flags := {
  f_platform : platform; f_compiler : compiler; f_architecture : architecture; f_width : width;
  f_byte_order : byte_order; f_configuration : configuration; XRAY_FN : string; XRAY_FN_LOG : string;
  f_attributes : attributes; f_separators : separators; f_interfaces : interfaces;
}.

Definition build_flags (TargetConditionals : macros -> macros) (m : macros) : option flags :=
  p ← detect_platform TargetConditionals m;
  let m := included TargetConditionals m in
  c ← detect_compiler m;
  a ← detect_architecture m;
  w ← detect_width m;
  o ← detect_byte_order m;
  '(fn, fn_log) ← detect_xray m;
  Some {| f_platform := p; f_compiler := c; f_architecture := a; f_width := w; f_byte_order := o;
          f_configuration := detect_configuration m; XRAY_FN := fn; XRAY_FN_LOG := fn_log;
          f_attributes := detect_attributes c; f_separators := detect_separators p;
          f_interfaces := detect_interfaces p |}.

(** ** Export annotations

    component_export.h computes on tokens: an argument of a macro ends at a comma, and a comma that a
    macro is replaced by counts when the result is handed to the next macro. *)
Inductive token := Comma | Text (s : string).

#[export] Instance token_eq_dec : EqDecision token.
Proof. solve_decision. Defined.

Definition tokens (b : body) : list token :=
  match b with Empty => [] | Number n => [Text (pretty n)] | Token s => [Text s] end.

(** What a name in an argument is replaced by. *)
Definition expand (m : macros) (x : string) : list token := tokens (replacement m x).

(** The arguments of a call; there is at least one. *)
Fixpoint split_args (ts : list token) : list string * list (list string) :=
  match ts with
  | [] => ([], [])
  | Comma :: ts => let '(a, rest) := split_args ts in ([], a :: rest)
  | Text s :: ts => let '(a, rest) := split_args ts in (s :: a, rest)
  end.

(** [prefix ## x ## _]: the ends of [x] are pasted. *)
Fixpoint paste_end (x : list string) : list string :=
  match x with [] => [] | [s] => [s +:+ "_"] | s :: rest => s :: paste_end rest end.

(** [FEMTOLOG_COMPONENT_MACRO_CONDITIONAL_COMMA_##x##_]: for no token, [0] and [1] that is a macro. *)
Definition CONDITIONAL_COMMA_IMPL (x : list string) : list token :=
  match x with
  | [] => []
  | s :: rest =>
    if bool_decide (x = ["1"]) then [Comma] else if bool_decide (x = ["0"]) then []
    else Text <$> paste_end (("FEMTOLOG_COMPONENT_MACRO_CONDITIONAL_COMMA_" +:+ s) :: rest)
  end.

Definition CONDITIONAL_COMMA (args : list token) : list token :=
  CONDITIONAL_COMMA_IMPL (split_args (args ++ [Comma; Text "0"])).1.

Definition SELECT_THIRD_ARGUMENT (args : list token) : list token :=
  Text <$> default [] ((split_args (args ++ [Comma; Text "0"; Comma; Text "0"])).2 !! 1%nat).

Definition MACRO_CONDITIONAL (condition consequent alternate : list token) : list token :=
  SELECT_THIRD_ARGUMENT (CONDITIONAL_COMMA condition ++ Comma :: consequent ++ Comma :: alternate).

Record annotations := {
  EXPORT_ANNOTATION : list token; IMPORT_ANNOTATION : list token; HIDDEN_ANNOTATION : list token;
}.

Definition quoted (s : string) : string := String (Ascii.ascii_of_N 34) s +:+ String (Ascii.ascii_of_N 34) EmptyString.

Definition visibility (v : string) : list token :=
  [Text ("__attribute__((visibility(" +:+ quoted v +:+ ")))")].

Definition detect_annotations (p : platform) (c : compiler) : annotations :=
  if IS_WINDOWS p then
    {| EXPORT_ANNOTATION := [Text "__declspec(dllexport)"]; IMPORT_ANNOTATION := [Text "__declspec(dllimport)"];
       HIDDEN_ANNOTATION := [] |}
  else if COMPILER_GCC c || COMPILER_CLANG c then
    {| EXPORT_ANNOTATION := visibility "default"; IMPORT_ANNOTATION := visibility "default";
       HIDDEN_ANNOTATION := visibility "hidden" |}
  else {| EXPORT_ANNOTATION := []; IMPORT_ANNOTATION := []; HIDDEN_ANNOTATION := [] |}.

Definition is_static (component : string) : string := "FEMTOLOG_IS_" +:+ component +:+ "_STATIC".
Definition is_impl (component : string) : string := "FEMTOLOG_IS_" +:+ component +:+ "_IMPL".

Definition COMPONENT_EXPORT (a : annotations) (m : macros) (component : string) : list token :=
  MACRO_CONDITIONAL (expand m (is_static component)) []
    (MACRO_CONDITIONAL (expand m (is_impl component)) (EXPORT_ANNOTATION a) (IMPORT_ANNOTATION a)).

(** femtolog_export.h, core_export.h and logging_export.h. *)
Definition FEMTOLOG_EXPORT (a : annotations) (m : macros) : list token := COMPONENT_EXPORT a m "FEMTOLOG".
Definition FEMTOLOG_CORE_EXPORT (a : annotations) (m : macros) : list token := COMPONENT_EXPORT a m "FEMTOLOG_CORE".
Definition FEMTOLOG_LOGGING_EXPORT (a : annotations) (m : macros) : list token :=
  COMPONENT_EXPORT a m "FEMTOLOG_LOGGING".

Definition INSIDE_COMPONENT_IMPL (m : macros) (component : string) : list token :=
  MACRO_CONDITIONAL (expand m (is_impl component)) [Text "1"] [Text "0"].

(** ** What the macros are *)

(** How many of the flags are set. *)
Definition set_among (fs : list bool) : nat := length (filter (λ b, b = true) fs).

Definition platforms (p : platform) : list bool :=
  [IS_WINDOWS p; IS_MAC p; IS_IOS p; IS_ANDROID p; IS_LINUX p; IS_BSD p; IS_CYGWIN p; IS_SOLARIS p].

Definition compilers (c : compiler) : list bool :=
  [COMPILER_MSVC c; COMPILER_GCC c; COMPILER_CLANG c; COMPILER_INTEL c; COMPILER_MINGW c].

Definition architectures (a : architecture) : list bool :=
  [ARCH_X64 a; ARCH_X86 a; ARCH_ARM a; ARCH_ARM64 a; ARCH_MIPS a; ARCH_PPC a; ARCH_RISCV a].

Lemma platform_one tc m p :
  detect_platform tc m = Some p -> set_among (platforms p) = 1%nat /\ IS_UNIX p = negb (IS_WINDOWS p).
Proof.
  unfold detect_platform, apple. cbv zeta.
  destruct (any_defined m _); [by intros [= <-]|]. destruct (defined m "__APPLE__").
  - destruct (value _ "TARGET_OS_MAC") as [mac|]; [cbn [mbind option_bind]|done].
    destruct (negb _); [by intros [= <-]|].
    destruct (value _ "TARGET_OS_IPHONE") as [iphone|]; [cbn [mbind option_bind]|done].
    destruct (negb _); by intros [= <-].
  - intros H. repeat case_match; by simplify_eq.
Qed.

Lemma compiler_one m c : detect_compiler m = Some c -> set_among (compilers c) = 1%nat.
Proof. unfold detect_compiler. intros H. repeat case_match; by simplify_eq. Qed.

Lemma architecture_one m a : detect_architecture m = Some a -> set_among (architectures a) = 1%nat.
Proof. unfold detect_architecture. intros H. repeat case_match; by simplify_eq. Qed.

(** The macros one of which each chain of conditions needs. *)
Definition platform_macros : list string :=
  windows_macros ++ ["__APPLE__"; "__linux__"; "__linux"; "linux"; "__FreeBSD__"; "__NetBSD__"; "__OpenBSD__";
    "__DragonFly__"; "__CYGWIN__"].

Definition compiler_macros : list string :=
  ["_MSC_VER"; "__clang__"; "__INTEL_COMPILER"; "__ICC"; "__MINGW32__"; "__MINGW64__"; "__GNUC__"; "__GNUG__"].

Definition architecture_macros : list string :=
  ["__x86_64__"; "_M_X64"; "_M_AMD64"; "__i386"; "_M_IX86"; "__i386__"; "__aarch64__"; "_M_ARM64"; "__arm__";
   "_M_ARM"; "__mips__"; "__mips"; "__MIPS__"; "__powerpc__"; "__powerpc"; "__ppc__"; "__PPC__"; "__riscv"].

(** The macros whose values the conditions compare. *)
Definition operands : list string :=
  ["TARGET_OS_MAC"; "TARGET_OS_IPHONE"; "__riscv_xlen"; "__BYTE_ORDER__"; "__ORDER_BIG_ENDIAN__";
   "__ORDER_LITTLE_ENDIAN__"; "FEMTOLOG_ENABLE_XRAY"].

(** Why the header cannot be compiled. *)
Inductive rejected (m m' : macros) : Prop :=
  | no_platform_macro : any_defined m platform_macros = false -> rejected m m'
  | no_compiler_macro : any_defined m' compiler_macros = false -> rejected m m'
  | no_architecture_macro : any_defined m' architecture_macros = false -> rejected m m'
  | unknown_byte_order : defined m' "__BYTE_ORDER__" = true ->
      value m' "__BYTE_ORDER__" <> value m' "__ORDER_BIG_ENDIAN__" ->
      value m' "__BYTE_ORDER__" <> value m' "__ORDER_LITTLE_ENDIAN__" -> rejected m m'
  | no_operand x : x ∈ operands -> replacement m' x = Empty -> rejected m m'.

(** From a chain of conditions none of which holds. *)
Ltac none_defined :=
  repeat match goal with
  | H : (if ?b then _ else _) = None |- _ => destruct b eqn:?; try discriminate H
  | H : _ || _ = false |- _ => apply orb_false_iff in H as [? ?]
  end; rewrite !orb_false_iff; split_and!.

Lemma operand_missing m m' x : x ∈ operands -> value m' x = None -> rejected m m'.
Proof. intros Hx H. apply (no_operand m m' x Hx). revert H. unfold value. by destruct (replacement m' x). Qed.

Ltac operand := intros _; eapply operand_missing; [|eassumption]; apply (bool_decide_unpack _); reflexivity.

Lemma any_defined_app m xs ys : any_defined m (xs ++ ys) = any_defined m xs || any_defined m ys.
Proof. apply existsb_app. Qed.

Lemma platform_rejected tc m : detect_platform tc m = None -> rejected m (included tc m).
Proof.
  unfold detect_platform, apple. destruct (any_defined m windows_macros) eqn:Hw; [done|].
  destruct (defined m "__APPLE__") eqn:Ha.
  - destruct (value _ "TARGET_OS_MAC") eqn:E1; cbn [mbind option_bind]; [|operand].
    destruct (negb _); [done|].
    destruct (value _ "TARGET_OS_IPHONE") eqn:E2; cbn [mbind option_bind]; [|operand].
    by destruct (negb _).
  - intros H. apply no_platform_macro. unfold platform_macros. rewrite any_defined_app, Hw.
    unfold any_defined in *. cbn [existsb orb] in *. rewrite Ha. cbn [orb]. by none_defined.
Qed.

Lemma compiler_rejected m m' : detect_compiler m' = None -> rejected m m'.
Proof.
  unfold detect_compiler. intros H. apply no_compiler_macro. unfold any_defined, compiler_macros in *.
  cbn [existsb] in *. by none_defined.
Qed.

Lemma architecture_rejected m m' : detect_architecture m' = None -> rejected m m'.
Proof.
  unfold detect_architecture. intros H. apply no_architecture_macro. unfold any_defined, architecture_macros in *.
  cbn [existsb] in *. by none_defined.
Qed.

Lemma byte_order_rejected m m' : detect_byte_order m' = None -> rejected m m'.
Proof.
  unfold detect_byte_order. destruct (defined m' "__BYTE_ORDER__") eqn:Hd; [|by repeat case_match].
  destruct (value m' "__BYTE_ORDER__") as [o|] eqn:Eo; cbn [mbind option_bind]; [|operand].
  destruct (value m' "__ORDER_BIG_ENDIAN__") as [b|] eqn:Eb; cbn [mbind option_bind]; [|operand].
  destruct (Z.eqb_spec o b); [done|].
  destruct (value m' "__ORDER_LITTLE_ENDIAN__") as [l|] eqn:El; cbn [mbind option_bind]; [|operand].
  destruct (Z.eqb_spec o l); [done|]. intros _. apply unknown_byte_order; [done|congruence..].
Qed.

Lemma width_rejected m m' : detect_width m' = None -> rejected m m'.
Proof.
  unfold detect_width. destruct (value _ _) eqn:E; cbn [mbind option_bind]; [by case_match|]. operand.
Qed.

Lemma xray_rejected m m' : detect_xray m' = None -> rejected m m'.
Proof.
  unfold detect_xray. destruct (value _ _) eqn:E; cbn [mbind option_bind]; [by case_match|].
  operand.
Qed.

(** What the rest of the code relies on: one platform, one compiler and one architecture, one flag
    of each pair, and the interfaces and separators of the platform. *)
Record consistent (f : flags) : Prop := {
  one_platform : set_among (platforms (f_platform f)) = 1%nat;
  one_compiler : set_among (compilers (f_compiler f)) = 1%nat;
  one_architecture : set_among (architectures (f_architecture f)) = 1%nat;
  one_width : set_among [ARCH_64BIT (f_width f); ARCH_32BIT (f_width f)] = 1%nat;
  one_byte_order : set_among [IS_BIG_ENDIAN (f_byte_order f); IS_LITTLE_ENDIAN (f_byte_order f)] = 1%nat;
  one_configuration : set_among [IS_DEBUG (f_configuration f); IS_RELEASE (f_configuration f)] = 1%nat;
  unix_or_windows : IS_UNIX (f_platform f) = negb (IS_WINDOWS (f_platform f));
  posix_on_unix : USE_POSIX_IO (f_interfaces f) = IS_UNIX (f_platform f) /\
    USE_POSIX_THREADS (f_interfaces f) = IS_UNIX (f_platform f) /\
    USE_WINDOWS_IO (f_interfaces f) = IS_WINDOWS (f_platform f) /\
    USE_WINDOWS_THREADS (f_interfaces f) = IS_WINDOWS (f_platform f);
  path_separator : f_separators f = if IS_UNIX (f_platform f)
    then {| DIR_SEPARATOR := "/"%byte; PATH_SEPARATOR := ":"%byte |}
    else {| DIR_SEPARATOR := "\"%byte; PATH_SEPARATOR := ";"%byte |};
}.

(** The flags that the library tests are those of the macros that identify a target. *)
Record identified (m m' : macros) (f : flags) : Prop := {
  id_windows : IS_WINDOWS (f_platform f) = any_defined m windows_macros;
  id_android : IS_ANDROID (f_platform f) = true -> defined m "__ANDROID__" = true;
  id_linux : IS_LINUX (f_platform f) = true ->
    defined m "__ANDROID__" = false /\ any_defined m ["__linux__"; "__linux"; "linux"] = true;
  id_msvc : COMPILER_MSVC (f_compiler f) = defined m' "_MSC_VER";
  id_clang : COMPILER_CLANG (f_compiler f) = negb (defined m' "_MSC_VER") && defined m' "__clang__";
  id_gcc : COMPILER_GCC (f_compiler f) = true ->
    defined m' "__clang__" = false /\ any_defined m' ["__GNUC__"; "__GNUG__"] = true;
  id_x64 : ARCH_X64 (f_architecture f) = any_defined m' ["__x86_64__"; "_M_X64"; "_M_AMD64"];
  id_big : defined m' "__BYTE_ORDER__" = true ->
    IS_BIG_ENDIAN (f_byte_order f) = bool_decide (value m' "__BYTE_ORDER__" = value m' "__ORDER_BIG_ENDIAN__");
  id_release : IS_RELEASE (f_configuration f) = defined m' "NDEBUG";
}.

Lemma platform_identified tc m p :
  detect_platform tc m = Some p ->
  IS_WINDOWS p = any_defined m windows_macros /\
  (IS_ANDROID p = true -> defined m "__ANDROID__" = true) /\
  (IS_LINUX p = true -> defined m "__ANDROID__" = false /\ any_defined m ["__linux__"; "__linux"; "linux"] = true).
Proof.
  unfold detect_platform, apple. destruct (any_defined m windows_macros); [by intros [= <-]|].
  destruct (defined m "__APPLE__").
  - destruct (value _ "TARGET_OS_MAC"); cbn [mbind option_bind]; [|done]. destruct (negb _); [by intros [= <-]|].
    destruct (value _ "TARGET_OS_IPHONE"); cbn [mbind option_bind]; [|done]. destruct (negb _); by intros [= <-].
  - intros H. repeat case_match; by simplify_eq.
Qed.

Lemma compiler_identified m c :
  detect_compiler m = Some c ->
  COMPILER_MSVC c = defined m "_MSC_VER" /\
  COMPILER_CLANG c = negb (defined m "_MSC_VER") && defined m "__clang__" /\
  (COMPILER_GCC c = true -> defined m "__clang__" = false /\ any_defined m ["__GNUC__"; "__GNUG__"] = true).
Proof. unfold detect_compiler. intros H. repeat case_match; by simplify_eq. Qed.

Lemma architecture_identified m a :
  detect_architecture m = Some a -> ARCH_X64 a = any_defined m ["__x86_64__"; "_M_X64"; "_M_AMD64"].
Proof. unfold detect_architecture. intros H. repeat case_match; by simplify_eq. Qed.

Lemma byte_order_identified m o :
  detect_byte_order m = Some o ->
  set_among [IS_BIG_ENDIAN o; IS_LITTLE_ENDIAN o] = 1%nat /\
  (defined m "__BYTE_ORDER__" = true ->
   IS_BIG_ENDIAN o = bool_decide (value m "__BYTE_ORDER__" = value m "__ORDER_BIG_ENDIAN__")).
Proof.
  unfold detect_byte_order. destruct (defined m "__BYTE_ORDER__"); [|intros H; by repeat case_match; simplify_eq].
  destruct (value m "__BYTE_ORDER__") as [x|]; cbn [mbind option_bind]; [|done].
  destruct (value m "__ORDER_BIG_ENDIAN__") as [y|]; cbn [mbind option_bind]; [|done].
  destruct (Z.eqb_spec x y) as [->|Hne].
  - intros [= <-]. split; [done|]. intros _. by rewrite bool_decide_true.
  - destruct (value m "__ORDER_LITTLE_ENDIAN__"); cbn [mbind option_bind]; [|done]. case_match; [|done].
    intros [= <-]. split; [done|]. intros _. rewrite bool_decide_false; [done|]. by intros [= ?].
Qed.

(** Whatever macros the compiler and the command line define, build_flag.h either stops with an
    error, and then for one of the reasons of [rejected], or yields flags that fit together and are
    those of the macros that identify the target. *)
Theorem build_flags_consistent tc m :
  match build_flags tc m with
  | Some f => consistent f /\ identified m (included tc m) f
  | None => rejected m (included tc m)
  end.
Proof.
  unfold build_flags. cbv zeta.
  destruct (detect_platform tc m) as [p|] eqn:Ep; cbn [mbind option_bind]; [|by apply platform_rejected].
  destruct (detect_compiler _) as [c|] eqn:Ec; cbn [mbind option_bind]; [|by apply compiler_rejected].
  destruct (detect_architecture _) as [a|] eqn:Ea; cbn [mbind option_bind]; [|by apply architecture_rejected].
  destruct (detect_width _) as [w|] eqn:Ew; cbn [mbind option_bind]; [|by apply width_rejected].
  destruct (detect_byte_order _) as [o|] eqn:Eb; cbn [mbind option_bind]; [|by apply byte_order_rejected].
  destruct (detect_xray _) as [[fn fn_log]|] eqn:Ex; cbn [mbind option_bind]; [|by apply xray_rejected].
  pose proof (platform_identified _ _ _ Ep) as (I1 & I2 & I3). pose proof (compiler_identified _ _ Ec) as (I4 & I5 & I6).
  apply platform_one in Ep as [Hp Hu]. pose proof (architecture_identified _ _ Ea) as I7.
  apply compiler_one in Ec. apply architecture_one in Ea. apply byte_order_identified in Eb as [Hb I8].
  unfold detect_configuration, detect_interfaces, detect_separators. split.
  - split; cbn; rewrite ?Hu; try done; try (by destruct (IS_WINDOWS p)); [|by destruct (defined _ "NDEBUG")].
    unfold detect_width in Ew. destruct (value _ _); cbn [mbind option_bind] in Ew; [|done].
    by case_match; simplify_eq.
  - split; cbn; try done. by destruct (defined _ "NDEBUG").
Qed.

(** ** What the annotations are *)

Lemma split_args_text (xs : list string) rest :
  split_args ((Text <$> xs) ++ rest) = (xs ++ (split_args rest).1, (split_args rest).2).
Proof. induction xs as [|x xs IH]; cbn; [by destruct (split_args rest)|]. by rewrite IH. Qed.

(** The third argument is what it is meant to be when none of the texts has a comma of its own. *)
Lemma select_third (comma : bool) (c : list string) (a b : list string) :
  SELECT_THIRD_ARGUMENT ((if comma then [Comma] else Text <$> c) ++ Comma :: (Text <$> a) ++ Comma :: (Text <$> b)) =
    Text <$> (if comma then a else b).
Proof.
  unfold SELECT_THIRD_ARGUMENT.
  set (end_ := [Comma; Text "0"; Comma; Text "0"]).
  assert (split_args ((Text <$> a) ++ Comma :: (Text <$> b) ++ end_) = (a, [b; ["0"]; ["0"]])) as Hab.
  { rewrite split_args_text. cbn [split_args]. rewrite split_args_text. cbn. by rewrite !app_nil_r. }
  assert (forall pre, (pre ++ Comma :: (Text <$> a) ++ Comma :: (Text <$> b)) ++ end_ =
    pre ++ Comma :: (Text <$> a) ++ Comma :: (Text <$> b) ++ end_) as Hass.
  { intros pre. rewrite <- app_assoc. cbn. by rewrite <- app_assoc. }
  rewrite Hass. destruct comma.
  - cbn [app split_args]. by rewrite Hab.
  - rewrite split_args_text. cbn [split_args]. by rewrite Hab.
Qed.

Lemma expand_text m x : exists xs, expand m x = Text <$> xs.
Proof.
  unfold expand. destruct (replacement m x) as [|n|s]; cbn.
  - by exists [].
  - by exists [pretty n].
  - by exists [s].
Qed.

Lemma conditional_comma_text xs :
  exists c, CONDITIONAL_COMMA (Text <$> xs) = if bool_decide (xs = ["1"]) then [Comma] else Text <$> c.
Proof.
  unfold CONDITIONAL_COMMA. rewrite split_args_text. cbn [split_args fst]. rewrite app_nil_r.
  destruct xs as [|x xs]; [by exists []|]. cbn [CONDITIONAL_COMMA_IMPL]. case_bool_decide; [by exists []|].
  case_bool_decide; [by exists [] | by eexists].
Qed.

Lemma macro_conditional m x (a b : list string) :
  MACRO_CONDITIONAL (expand m x) (Text <$> a) (Text <$> b) =
    Text <$> (if bool_decide (expand m x = [Text "1"]) then a else b).
Proof.
  destruct (expand_text m x) as [xs ->]. unfold MACRO_CONDITIONAL.
  destruct (conditional_comma_text xs) as [c ->].
  assert (bool_decide (Text <$> xs = [Text "1"]) = bool_decide (xs = ["1"])) as ->.
  { apply bool_decide_ext. split; [|by intros ->]. destruct xs as [|y [|? ?]]; try done. by intros [= ->]. }
  pose proof (select_third (bool_decide (xs = ["1"])) c a b) as H. by case_bool_decide.
Qed.

Lemma annotations_text p c : exists e i,
  EXPORT_ANNOTATION (detect_annotations p c) = Text <$> e /\ IMPORT_ANNOTATION (detect_annotations p c) = Text <$> i.
Proof.
  unfold detect_annotations, visibility. repeat case_match; [by eexists [_], [_]..|by exists [], []].
Qed.

Lemma component_export_eq p c m component :
  let a := detect_annotations p c in
  COMPONENT_EXPORT a m component =
    if bool_decide (expand m (is_static component) = [Text "1"]) then []
    else if bool_decide (expand m (is_impl component) = [Text "1"]) then EXPORT_ANNOTATION a
    else IMPORT_ANNOTATION a.
Proof.
  intros a. destruct (annotations_text p c) as (e & i & He & Hi). fold a in He, Hi.
  unfold COMPONENT_EXPORT. rewrite He, Hi, (macro_conditional m (is_impl component) e i).
  pose proof (macro_conditional m (is_static component) []
    (if bool_decide (expand m (is_impl component) = [Text "1"]) then e else i)) as H.
  cbn [fmap list_fmap] in H. rewrite H. by repeat case_bool_decide.
Qed.

(** C37. The comma that selects an annotation. A component is annotated with nothing when its static
    flag expands to the token 1, with the export annotation of the platform when that is anything
    else (0, empty, no macro at all) and its implementation flag expands to 1, and with the import
    annotation otherwise; [FEMTOLOG_INSIDE_COMPONENT_IMPL] is 1 or 0 in the same way. *)
Theorem component_export_annotation p c m component :
  let a := detect_annotations p c in
  COMPONENT_EXPORT a m component =
    (if bool_decide (expand m (is_static component) = [Text "1"]) then []
     else if bool_decide (expand m (is_impl component) = [Text "1"]) then EXPORT_ANNOTATION a
     else IMPORT_ANNOTATION a) /\
  INSIDE_COMPONENT_IMPL m component =
    [Text (if bool_decide (expand m (is_impl component) = [Text "1"]) then "1" else "0")].
Proof.
  intros a. split; [apply component_export_eq|].
  pose proof (macro_conditional m (is_impl component) ["1"] ["0"]) as H. cbn [fmap list_fmap] in H.
  unfold INSIDE_COMPONENT_IMPL. rewrite H. by case_bool_decide.
Qed.

(** The objects of a module are compiled with its implementation flag and without its static flag,
    which only the users of the finished library see: they export even when the library is static. *)
Lemma objects_export p c m component :
  m !! is_impl component = Some (Number 1) -> m !! is_static component = None ->
  COMPONENT_EXPORT (detect_annotations p c) m component = EXPORT_ANNOTATION (detect_annotations p c).
Proof.
  intros Hi Hs. rewrite component_export_eq. unfold expand, replacement. cbn [rescan]. rewrite Hs, Hi.
  rewrite bool_decide_false by done. by rewrite bool_decide_true.
Qed.

(** ** Targets *)

Definition keep (m : macros) : macros := m.

(** GCC on x86-64 Linux, in a release build: what the rest of the library is about. *)
Definition gcc_linux : macros :=
  list_to_map [("__linux__", Number 1); ("__GNUC__", Number 14); ("__GNUC_MINOR__", Number 2);
    ("__GNUC_PATCHLEVEL__", Number 0); ("__x86_64__", Number 1); ("__BYTE_ORDER__", Token "__ORDER_LITTLE_ENDIAN__");
    ("__ORDER_LITTLE_ENDIAN__", Number 1234); ("__ORDER_BIG_ENDIAN__", Number 4321); ("NDEBUG", Empty)].

Lemma gcc_linux_flags : exists f, build_flags keep gcc_linux = Some f /\
  IS_LINUX (f_platform f) = true /\ COMPILER_GCC (f_compiler f) = true /\
  ARCH_X64 (f_architecture f) = true /\ ARCH_64BIT (f_width f) = true /\
  IS_LITTLE_ENDIAN (f_byte_order f) = true /\ IS_RELEASE (f_configuration f) = true /\
  DIR_SEPARATOR (f_separators f) = "/"%byte /\ PATH_SEPARATOR (f_separators f) = ":"%byte /\
  compiler_version (f_compiler f) gcc_linux = Some 140200.
Proof. eexists. split; [vm_compute; reflexivity|]. by vm_compute. Qed.

Lemma flags_platform tc m f : build_flags tc m = Some f -> detect_platform tc m = Some (f_platform f).
Proof.
  unfold build_flags. cbv zeta. destruct (detect_platform tc m) as [p|]; [|done]. cbn [mbind option_bind].
  destruct (detect_compiler _), (detect_architecture _), (detect_width _), (detect_byte_order _), (detect_xray _) as [[]|];
    try done. by intros [= <-].
Qed.

(** TargetConditionals.h defines [TARGET_OS_MAC] to 1 for every Apple system, so that no build is
    ever one for iOS: the test for [TARGET_OS_IPHONE] comes too late. *)
Lemma never_ios tc m f :
  value (tc m) "TARGET_OS_MAC" = Some 1 -> build_flags tc m = Some f -> IS_IOS (f_platform f) = false.
Proof.
  intros Htc H%flags_platform. revert H. generalize (f_platform f) as p. intros p.
  unfold detect_platform, apple, included.
  destruct (any_defined m windows_macros); [by intros [= <-]|]. destruct (defined m "__APPLE__").
  - rewrite Htc. by intros [= <-].
  - intros H. repeat case_match; by simplify_eq.
Qed.

(** The width is called that of a pointer and is that of the registers: the x32 interface, which has
    32-bit pointers, is taken for a 64-bit one. *)
Definition gcc_x32 : macros := <["__ILP32__" := Number 1]> gcc_linux.

Lemma x32_is_64bit : exists f, build_flags keep gcc_x32 = Some f /\ ARCH_64BIT (f_width f) = true.
Proof. eexists. split; [vm_compute; reflexivity | reflexivity]. Qed.
