(* ===== verification/Ring.v ===== *)
(** * Ring buffers

    The two-part [memcpy] both queues use to copy a record into and out of a power-of-two ring
    (src/src/logging/impl/spsc_queue.cc and spmc_queue.cc), and its specification by
    [ring_slice], the bytes of the ring between two positions. The power-of-two rounding of the
    capacity is here too. *)

From S2P Require Import Prelude.

(** ** The copies as the code performs them *)

(** The write of [enqueue_bytes] at index [idx]: one [memcpy] when the record fits before the
    end of the ring, two when it wraps around. *)
Definition ring_copy_in (buf : bytes) (mask idx : Z) (data : bytes) : option bytes :=
  let tail_pos := Z.land idx mask in
  let space_to_end := (u64 (mask + 1)) ⊖ tail_pos in
  if lenZ data <=? space_to_end then mem_store buf tail_pos data
  else
    buf1 ← mem_store buf tail_pos (take (Z.to_nat space_to_end) data);
    mem_store buf1 0 (drop (Z.to_nat space_to_end) data).

(** The read of [dequeue_bytes] and [peek_bytes] at index [idx]. *)
Definition ring_copy_out (buf : bytes) (mask idx data_size : Z) : option bytes :=
  let head_pos := Z.land idx mask in
  let bytes_to_end := (u64 (mask + 1)) ⊖ head_pos in
  if data_size <=? bytes_to_end then mem_load buf head_pos data_size
  else
    d1 ← mem_load buf head_pos bytes_to_end;
    d2 ← mem_load buf 0 (data_size ⊖ bytes_to_end);
    Some (d1 ++ d2).

(** The address of byte [i] of a record at index [idx], in the first [memcpy] or the second. *)
Definition ring_addr (mask idx i : Z) : Z :=
  let pos := Z.land idx mask in
  let to_end := (u64 (mask + 1)) ⊖ pos in
  if i <? to_end then pos + i else i - to_end.

(** [next_power_of_2]: [__builtin_clzll(n - 1)] is [63 - log2 (n - 1)]; shifting a 64-bit one by
    64 or more places is undefined. *)
Definition next_power_of_2 (n : Z) : option Z :=
  if n <=? 1 then Some 2
  else if Z.land n (n ⊖ 1) =? 0 then Some n
  else
    let clz := 63 - Z.log2 (n ⊖ 1) in
    if 64 - clz <? 64 then Some (Z.shiftl 1 (64 - clz)) else None.

(** ** The specification *)

(** The [n] bytes of a ring of capacity [cap] that start at index [h]. *)
Definition ring_slice (buf : bytes) (cap h n : Z) : bytes :=
  (λ i, buf !!! Z.to_nat ((h + i) mod cap)) <$> seqZ 0 n.

Lemma ring_slice_length buf cap h n : 0 <= n -> lenZ (ring_slice buf cap h n) = n.
Proof. intros. unfold lenZ, ring_slice. rewrite length_fmap, length_seqZ. lia. Qed.

Lemma ring_slice_lookup buf cap h n (i : nat) :
  Z.of_nat i < n ->
  ring_slice buf cap h n !! i = Some (buf !!! Z.to_nat ((h + Z.of_nat i) mod cap)).
Proof.
  intros Hi. unfold ring_slice. rewrite list_lookup_fmap.
  rewrite (proj2 (lookup_seqZ 0 n i (Z.of_nat i))) by lia. done.
Qed.

Lemma ring_slice_nil buf cap h n : n <= 0 -> ring_slice buf cap h n = [].
Proof. intros. unfold ring_slice. rewrite seqZ_nil by lia. done. Qed.

(** Two slices that agree position by position are equal. *)
Lemma ring_slice_ext buf buf' cap h h' n :
  (forall i, 0 <= i < n ->
     buf !!! Z.to_nat ((h + i) mod cap) = buf' !!! Z.to_nat ((h' + i) mod cap)) ->
  ring_slice buf cap h n = ring_slice buf' cap h' n.
Proof.
  intros He. unfold ring_slice. apply list_fmap_ext. intros i x Hx.
  apply lookup_seqZ in Hx as [-> ?]. apply He. lia.
Qed.

Lemma ring_slice_app buf cap h n m :
  0 <= n -> 0 <= m ->
  ring_slice buf cap h (n + m) = ring_slice buf cap h n ++ ring_slice buf cap (h + n) m.
Proof.
  intros Hn Hm. unfold ring_slice. rewrite seqZ_app, fmap_app by lia. f_equal.
  replace (0 + n) with (n + 0) by lia. rewrite <- (fmap_add_seqZ n 0 m), <- list_fmap_compose.
  apply list_fmap_ext. intros i x Hx. simpl. do 3 f_equal. lia.
Qed.

(** Slices depend on the position only modulo the capacity. *)
Lemma ring_slice_mod buf cap h h' n :
  h mod cap = h' mod cap -> ring_slice buf cap h n = ring_slice buf cap h' n.
Proof.
  intros He. apply ring_slice_ext. intros i Hi.
  by rewrite <- (Zplus_mod_idemp_l h), He, Zplus_mod_idemp_l.
Qed.

Lemma mod_sub_cases cap t j :
  0 < cap -> 0 <= j < cap ->
  (j - t) mod cap = if t mod cap <=? j then j - t mod cap else j - t mod cap + cap.
Proof.
  intros Hc Hj. pose proof (Z.mod_pos_bound t cap Hc).
  rewrite <- Zminus_mod_idemp_r. destruct (Z.leb_spec (t mod cap) j).
  - apply Z.mod_small; lia.
  - symmetry. apply Z.mod_unique with (-1); lia.
Qed.

(** A slice that does not wrap is a plain piece of the buffer. *)
Lemma slice_of_take buf cap p n :
  0 <= p -> 0 <= n -> p + n <= cap -> cap <= lenZ buf ->
  take (Z.to_nat n) (drop (Z.to_nat p) buf) = ring_slice buf cap p n.
Proof.
  intros Hp Hn Hc Hb. unfold lenZ in *. apply list_eq. intros i.
  destruct (decide (Z.of_nat i < n)).
  - rewrite ring_slice_lookup by done. rewrite lookup_take, decide_True, lookup_drop by lia.
    rewrite Z.mod_small by lia.
    rewrite (list_lookup_lookup_total_lt buf) by lia. do 2 f_equal; lia.
  - rewrite !lookup_ge_None_2; [done | |].
    + pose proof (ring_slice_length buf cap p n Hn). unfold lenZ in *. lia.
    + rewrite length_take. lia.
Qed.

Section ring.
(** The ring has capacity [2 ^ k] and sits inside the allocation [buf]. *)
Context (k : Z) (Hk : 1 <= k <= 63).
Let cap := 2 ^ k.

Lemma ring_cap_bounds : 2 <= cap <= 2 ^ 63.
Proof.
  subst cap. split; [change 2 with (2 ^ 1) at 1 |]; apply Z.pow_le_mono_r; lia.
Qed.

Lemma ring_mask_pos idx : Z.land idx (cap - 1) = idx mod cap.
Proof. subst cap. rewrite <- Z.land_ones, Z.ones_equiv by lia. f_equal; lia. Qed.

Lemma ring_to_end idx : u64 (cap - 1 + 1) ⊖ Z.land idx (cap - 1) = cap - idx mod cap.
Proof.
  pose proof ring_cap_bounds. pose proof (Z.mod_pos_bound idx cap ltac:(lia)).
  rewrite ring_mask_pos, u64_sub_l. rewrite u64_small by lia. lia.
Qed.

Lemma ring_copy_in_spec buf t data :
  cap <= lenZ buf -> lenZ data <= cap ->
  exists buf', ring_copy_in buf (cap - 1) t data = Some buf' /\
    lenZ buf' = lenZ buf /\
    (forall j, 0 <= j < cap ->
       buf' !!! Z.to_nat j =
         if (j - t) mod cap <? lenZ data then data !!! Z.to_nat ((j - t) mod cap)
         else buf !!! Z.to_nat j).
Proof.
  intros Hbuf Hd. pose proof ring_cap_bounds.
  pose proof (Z.mod_pos_bound t cap ltac:(lia)) as Hp.
  unfold ring_copy_in. rewrite ring_to_end, ring_mask_pos. set (p := t mod cap) in *.
  unfold lenZ in *. destruct (Z.leb_spec (Z.of_nat (length data)) (cap - p)).
  - rewrite mem_store_spec by (unfold lenZ; lia).
    eexists; split; [done | split; [by rewrite length_inserts |]]. intros j Hj.
    rewrite mod_sub_cases by lia. fold p. destruct (Z.leb_spec p j).
    + destruct (Z.ltb_spec (j - p) (Z.of_nat (length data))).
      * rewrite list_lookup_total_inserts by lia. f_equal; lia.
      * apply list_lookup_total_inserts_ge; lia.
    + destruct (Z.ltb_spec (j - p + cap) (Z.of_nat (length data))); [lia|].
      apply list_lookup_total_inserts_lt; lia.
  - rewrite mem_store_spec by (unfold lenZ; rewrite ?length_take; lia). simpl.
    rewrite mem_store_spec by (unfold lenZ; rewrite ?length_drop, ?length_inserts; lia).
    eexists; split; [done | split; [by rewrite !length_inserts |]]. intros j Hj.
    rewrite mod_sub_cases by lia. fold p. destruct (Z.leb_spec p j).
    + destruct (Z.ltb_spec (j - p) (Z.of_nat (length data))); [|lia].
      rewrite list_lookup_total_inserts_ge by (rewrite length_drop; lia).
      rewrite list_lookup_total_inserts by (rewrite ?length_take; lia).
      rewrite lookup_total_take, decide_True by lia. f_equal; lia.
    + destruct (Z.ltb_spec (j - p + cap) (Z.of_nat (length data))).
      * rewrite list_lookup_total_inserts
          by (rewrite ?length_drop, ?length_inserts; lia).
        rewrite lookup_total_drop. f_equal; lia.
      * rewrite list_lookup_total_inserts_ge by (rewrite length_drop; lia).
        apply list_lookup_total_inserts_lt; lia.
Qed.

(** Reading returns the slice, for any record no longer than the capacity. *)
Lemma ring_copy_out_spec buf h n :
  cap <= lenZ buf -> 0 <= n <= cap ->
  ring_copy_out buf (cap - 1) h n = Some (ring_slice buf cap h n).
Proof.
  intros Hbuf Hn. pose proof ring_cap_bounds.
  pose proof (Z.mod_pos_bound h cap ltac:(lia)) as Hp.
  unfold ring_copy_out. rewrite ring_to_end, ring_mask_pos. set (p := h mod cap) in *.
  unfold lenZ in *. destruct (Z.leb_spec n (cap - p)).
  - rewrite mem_load_spec by (unfold lenZ; lia). f_equal.
    rewrite (ring_slice_mod _ _ h p) by (unfold p; by rewrite Z.mod_mod by lia).
    apply slice_of_take; unfold lenZ; lia.
  - rewrite (u64_small (n - _)) by lia.
    rewrite !mem_load_spec by (unfold lenZ; lia). simpl. f_equal.
    replace n with ((cap - p) + (n - (cap - p))) at 2 by lia.
    rewrite ring_slice_app by lia. f_equal.
    + rewrite (ring_slice_mod _ _ h p) by (unfold p; by rewrite Z.mod_mod by lia).
      apply slice_of_take; unfold lenZ; lia.
    + rewrite (ring_slice_mod _ _ (h + (cap - p)) 0).
      * apply slice_of_take; unfold lenZ; lia.
      * rewrite Z.mod_0_l by lia. symmetry.
        apply Z.mod_unique with (h / cap + 1); [lia|].
        unfold p. pose proof (Z.div_mod h cap). lia.
Qed.
End ring.

(** ** Slices before and after a write *)

Section ring_write.
Context (k : Z) (Hk : 1 <= k <= 63).
Let cap := 2 ^ k.
Context (buf : bytes) (Hbuf : cap <= lenZ buf).

(** The written record is what a read at the same index sees, and a read of the [n] bytes just
    before it is unaffected as long as record and bytes fit in the ring together. *)
Lemma ring_write_slices t data :
  lenZ data <= cap ->
  exists buf', ring_copy_in buf (cap - 1) t data = Some buf' /\ lenZ buf' = lenZ buf /\
    ring_slice buf' cap t (lenZ data) = data /\
    (forall h n, 0 <= n -> (h + n) mod cap = t mod cap -> n + lenZ data <= cap ->
       ring_slice buf' cap h n = ring_slice buf cap h n).
Proof.
  intros Hd. pose proof (ring_cap_bounds k Hk) as Hcap. pose proof (lenZ_nonneg data).
  destruct (ring_copy_in_spec k Hk buf t data Hbuf Hd) as (buf' & Hin & Hlen & Hj).
  fold cap in Hcap, Hin, Hj. exists buf'. do 2 (split; [done|]). split.
  - apply list_eq. intros i. destruct (decide (i < length data)%nat).
    + rewrite ring_slice_lookup by (unfold lenZ; lia).
      rewrite Hj by (apply Z.mod_pos_bound; lia).
      rewrite Zminus_mod_idemp_l. replace (t + Z.of_nat i - t) with (Z.of_nat i) by lia.
      unfold lenZ in *. rewrite Z.mod_small by lia.
      destruct (Z.ltb_spec (Z.of_nat i) (Z.of_nat (length data))); [|lia].
      rewrite Nat2Z.id, list_lookup_lookup_total_lt by lia. done.
    + rewrite (lookup_ge_None_2 data) by lia. apply lookup_ge_None_2.
      pose proof (ring_slice_length buf' cap t (lenZ data) (lenZ_nonneg _)).
      unfold lenZ in *. lia.
  - intros h n Hn Ht Hfit. apply ring_slice_ext. intros i Hi.
    rewrite Hj by (apply Z.mod_pos_bound; lia). rewrite Zminus_mod_idemp_l.
    rewrite <- Zminus_mod_idemp_r, <- Ht, Zminus_mod_idemp_r.
    replace (h + i - (h + n)) with (i - n) by lia.
    replace ((i - n) mod cap) with (i - n + cap) by (apply Z.mod_unique with (-1); lia).
    destruct (Z.ltb_spec (i - n + cap) (lenZ data)); [lia | done].
Qed.
End ring_write.

Lemma ring_addr_mod k idx i :
  1 <= k <= 63 -> 0 <= i < 2 ^ k -> ring_addr (2 ^ k - 1) idx i = (idx + i) mod 2 ^ k.
Proof.
  intros Hk Hi. pose proof (ring_cap_bounds k Hk).
  pose proof (Z.mod_pos_bound idx (2 ^ k) ltac:(lia)).
  unfold ring_addr. rewrite ring_to_end, ring_mask_pos by done.
  rewrite <- Zplus_mod_idemp_l. destruct (Z.ltb_spec i (2 ^ k - idx mod 2 ^ k)).
  - symmetry. apply Z.mod_small. lia.
  - apply Z.mod_unique with 1; lia.
Qed.

(** ** Rounding the capacity *)

Lemma land_pred_zero n : 2 <= n -> Z.land n (n - 1) = 0 -> n = 2 ^ Z.log2 n.
Proof.
  intros Hn Hl. pose proof (Z.log2_nonneg n).
  destruct (Z.log2_spec n ltac:(lia)) as [Hlo Hhi].
  destruct (Z.eq_dec n (2 ^ Z.log2 n)) as [|Hne]; [done|]. exfalso.
  assert (Hlog : Z.log2 (n - 1) = Z.log2 n) by (apply Z.log2_unique; lia).
  assert (Hb : Z.testbit (Z.land n (n - 1)) (Z.log2 n) = true).
  { rewrite Z.land_spec, Z.bit_log2 by lia. rewrite <- Hlog, Z.bit_log2 by lia. done. }
  rewrite Hl, Z.bits_0 in Hb. done.
Qed.

(** The capacity is a power of two, large enough, and the least such power from 2 on. *)
Lemma next_power_of_2_spec n :
  0 <= n <= 2 ^ 63 ->
  exists k, 1 <= k <= 63 /\ next_power_of_2 n = Some (2 ^ k) /\ n <= 2 ^ k /\
    (forall j, 1 <= j -> n <= 2 ^ j -> k <= j).
Proof.
  intros Hn. unfold next_power_of_2. destruct (Z.leb_spec n 1).
  { exists 1. repeat split; lia. }
  rewrite (u64_small (n - 1)) by lia.
  pose proof (Z.log2_le_mono n (2 ^ 63) ltac:(lia)) as Hl. rewrite Z.log2_pow2 in Hl by lia.
  destruct (Z.eqb_spec (Z.land n (n - 1)) 0) as [H0|H0].
  - apply land_pred_zero in H0; [|lia]. exists (Z.log2 n).
    assert (1 <= Z.log2 n) by (apply (Z.log2_le_mono 2 n); lia).
    split; [lia|]. split; [congruence|]. split; [lia|]. intros j Hj Hle.
    apply Z.pow_le_mono_r_iff with 2; lia.
  - destruct (Z.log2_spec (n - 1) ltac:(lia)) as [Hlo Hhi].
    pose proof (Z.log2_nonneg (n - 1)).
    assert (Hlt : Z.log2 (n - 1) < 63).
    { apply Z.log2_lt_pow2; [lia|]. lia. }
    exists (Z.log2 (n - 1) + 1). destruct (Z.ltb_spec (64 - (63 - Z.log2 (n - 1))) 64); [|lia].
    rewrite Z.shiftl_1_l. replace (64 - (63 - Z.log2 (n - 1))) with (Z.log2 (n - 1) + 1) by lia.
    split; [lia|]. split; [done|]. split; [lia|]. intros j Hj Hle.
    assert (2 ^ Z.log2 (n - 1) < 2 ^ j) as Hp by lia.
    apply Z.pow_lt_mono_r_iff in Hp; lia.
Qed.

(** Above [2 ^ 63] bytes the shift count is 64 and the result undefined. *)
Lemma next_power_of_2_undefined n :
  2 ^ 63 < n < 2 ^ 64 -> next_power_of_2 n = None.
Proof.
  intros Hn. unfold next_power_of_2. destruct (Z.leb_spec n 1); [lia|].
  rewrite (u64_small (n - 1)) by lia. destruct (Z.eqb_spec (Z.land n (n - 1)) 0) as [H0|H0].
  - apply land_pred_zero in H0; [|lia].
    assert (2 ^ 63 < 2 ^ Z.log2 n < 2 ^ 64) as [H1 H2] by lia.
    apply Z.pow_lt_mono_r_iff in H1; [|lia|apply Z.log2_nonneg].
    apply Z.pow_lt_mono_r_iff in H2; lia.
  - replace (Z.log2 (n - 1)) with 63; [done|]. symmetry. apply Z.log2_unique; lia.
Qed.
