(* ===== verification/ByteQueue.v ===== *)
(** * The interface of a byte queue

    What the logging back end relies on: a bounded first-in first-out queue of bytes whose
    operations report a status. [ByteQueueLaws] states the promises; SpscQueue.v and SpmcQueue.v
    discharge them, BackendWorker.v and InternalLogger.v are proved against them. *)

From S2P Require Import Prelude.

(** The status codes, the same five for both queue classes. *)
Inductive QueueStatus := kOk | kUninitialized | kUnderflow | kOverflow | kSizeIsZero.

#[export] Instance QueueStatus_eq_dec : EqDecision QueueStatus.
Proof. solve_decision. Defined.

(** The memory of an object after a call that wrote [out] to its beginning. *)
Definition fill (object out : bytes) : bytes := out ++ drop (length out) object.

(** The operations a client calls; [None] is undefined behaviour, and the abstraction of a queue
    state is its capacity and the bytes waiting in it. *)
Class ByteQueue (Q : Type) := {
  bq_enqueue : Q -> bytes -> option (QueueStatus * Q);
  bq_dequeue : Q -> Z -> option (QueueStatus * bytes * Q);
  bq_peek : Q -> Z -> option (QueueStatus * bytes);
  bq_valid : Q -> Prop;
  bq_capacity : Q -> Z;
  bq_contents : Q -> bytes;
}.

Class ByteQueueLaws (Q : Type) {BQ : ByteQueue Q} : Prop := {
  bq_bounded q : bq_valid q -> lenZ (bq_contents q) <= bq_capacity q < 2 ^ 64;
  bq_enqueue_zero q d :
    bq_valid q -> lenZ d = 0 -> bq_enqueue q d = Some (kSizeIsZero, q);
  bq_enqueue_ok q d :
    bq_valid q -> 0 < lenZ d -> lenZ (bq_contents q) + lenZ d <= bq_capacity q ->
    exists q', bq_enqueue q d = Some (kOk, q') /\ bq_valid q' /\
      bq_contents q' = bq_contents q ++ d /\ bq_capacity q' = bq_capacity q;
  bq_enqueue_full q d :
    bq_valid q -> 0 < lenZ d -> bq_capacity q < lenZ (bq_contents q) + lenZ d ->
    exists q', bq_enqueue q d = Some (kOverflow, q') /\ bq_valid q' /\
      bq_contents q' = bq_contents q /\ bq_capacity q' = bq_capacity q;
  bq_dequeue_ok q n :
    bq_valid q -> 0 < n <= lenZ (bq_contents q) ->
    exists q', bq_dequeue q n = Some (kOk, take (Z.to_nat n) (bq_contents q), q') /\
      bq_valid q' /\ bq_contents q' = drop (Z.to_nat n) (bq_contents q) /\
      bq_capacity q' = bq_capacity q;
  bq_dequeue_short q n :
    bq_valid q -> 0 < n -> lenZ (bq_contents q) < n ->
    exists q', bq_dequeue q n = Some (kUnderflow, [], q') /\ bq_valid q' /\
      bq_contents q' = bq_contents q /\ bq_capacity q' = bq_capacity q;
  bq_peek_ok q n :
    bq_valid q -> 0 < n <= lenZ (bq_contents q) ->
    bq_peek q n = Some (kOk, take (Z.to_nat n) (bq_contents q));
  bq_peek_short q n :
    bq_valid q -> 0 < n -> lenZ (bq_contents q) < n ->
    bq_peek q n = Some (kUnderflow, []);
}.

(** The abstract first-in first-out queue the two implementations refine. *)
Module Fifo.
Record fifo := { cap : Z; content : bytes }.

Definition enqueue (f : fifo) (d : bytes) : QueueStatus * fifo :=
  if lenZ d =? 0 then (kSizeIsZero, f)
  else if cap f <? lenZ (content f) + lenZ d then (kOverflow, f)
  else (kOk, {| cap := cap f; content := content f ++ d |}).

Definition dequeue (f : fifo) (n : Z) : QueueStatus * bytes * fifo :=
  if n =? 0 then (kSizeIsZero, [], f)
  else if lenZ (content f) <? n then (kUnderflow, [], f)
  else (kOk, take (Z.to_nat n) (content f),
        {| cap := cap f; content := drop (Z.to_nat n) (content f) |}).

Inductive op := Enqueue (d : bytes) | Dequeue (n : Z).

Definition step (f : fifo) (o : op) : QueueStatus * bytes * fifo :=
  match o with
  | Enqueue d => let '(s, f') := enqueue f d in (s, [], f')
  | Dequeue n => dequeue f n
  end.

(** The results of a sequence of operations, in order. *)
Fixpoint run (f : fifo) (os : list op) : list (QueueStatus * bytes) * fifo :=
  match os with
  | [] => ([], f)
  | o :: rest =>
    let '(s, out, f') := step f o in
    let '(res, f'') := run f' rest in ((s, out) :: res, f'')
  end.
End Fifo.

(** A sequence of operations on an implementation. *)
Section client.
Context {Q : Type} {BQ : ByteQueue Q}.

Definition bq_step (q : Q) (o : Fifo.op) : option (QueueStatus * bytes * Q) :=
  match o with
  | Fifo.Enqueue d => '(s, q') ← bq_enqueue q d; Some (s, [], q')
  | Fifo.Dequeue n => bq_dequeue q n
  end.

Fixpoint bq_run (q : Q) (os : list Fifo.op) : option (list (QueueStatus * bytes) * Q) :=
  match os with
  | [] => Some ([], q)
  | o :: rest =>
    '(s, out, q') ← bq_step q o;
    '(res, q'') ← bq_run q' rest;
    Some ((s, out) :: res, q'')
  end.

Definition bq_abs (q : Q) : Fifo.fifo :=
  {| Fifo.cap := bq_capacity q; Fifo.content := bq_contents q |}.

(** The size an operation asks for is a [std::size_t], and a dequeue asks for one byte at
    least. *)
Definition op_sized (o : Fifo.op) : Prop :=
  match o with Fifo.Enqueue d => True | Fifo.Dequeue n => 0 < n end.

Context {BQL : ByteQueueLaws Q}.

(** One operation of a lawful queue is the same operation of the abstract queue. *)
Lemma bq_step_refines q o :
  bq_valid q -> op_sized o ->
  exists s out q', bq_step q o = Some (s, out, q') /\ bq_valid q' /\
    Fifo.step (bq_abs q) o = (s, out, bq_abs q').
Proof.
  intros Hv Ho. destruct o as [d|n]; simpl in *; unfold Fifo.enqueue, Fifo.dequeue; simpl.
  - pose proof (lenZ_nonneg d). destruct (Z.eqb_spec (lenZ d) 0) as [H0|H0].
    + rewrite bq_enqueue_zero by done. simpl. by do 3 eexists.
    + destruct (Z.ltb_spec (bq_capacity q) (lenZ (bq_contents q) + lenZ d)).
      * destruct (bq_enqueue_full q d) as (q' & -> & ? & Hc & Hp); [done|lia|lia|].
        simpl. do 3 eexists. split; [done|]. split; [done|]. unfold bq_abs. by rewrite Hc, Hp.
      * destruct (bq_enqueue_ok q d) as (q' & -> & ? & Hc & Hp); [done|lia|lia|].
        simpl. do 3 eexists. split; [done|]. split; [done|]. unfold bq_abs. by rewrite Hc, Hp.
  - destruct (Z.eqb_spec n 0); [lia|].
    destruct (Z.ltb_spec (lenZ (bq_contents q)) n).
    + destruct (bq_dequeue_short q n) as (q' & -> & ? & Hc & Hp); [done|lia|lia|].
      do 3 eexists. split; [done|]. split; [done|]. unfold bq_abs. by rewrite Hc, Hp.
    + destruct (bq_dequeue_ok q n) as (q' & -> & ? & Hc & Hp); [done|lia|].
      do 3 eexists. split; [done|]. split; [done|]. unfold bq_abs. by rewrite Hc, Hp.
Qed.

(** Every sequence of operations is defined and gives the results of the abstract queue. *)
Lemma bq_run_refines os q :
  bq_valid q -> Forall op_sized os ->
  exists res q', bq_run q os = Some (res, q') /\ bq_valid q' /\
    Fifo.run (bq_abs q) os = (res, bq_abs q').
Proof.
  intros Hv Hos. revert q Hv. induction Hos as [|o os Ho Hos IH]; intros q Hv; simpl.
  { eauto. }
  destruct (bq_step_refines q o Hv Ho) as (s & out & q1 & -> & Hv1 & ->). simpl.
  destruct (IH q1 Hv1) as (res & q2 & -> & Hv2 & ->). simpl. eauto.
Qed.
End client.

(** ** Streams of the abstract queue *)

(** The bytes of the enqueues that succeeded and of the dequeues that succeeded. *)
Fixpoint bytes_in (os : list Fifo.op) (res : list (QueueStatus * bytes)) : bytes :=
  match os, res with
  | Fifo.Enqueue d :: os', (kOk, _) :: res' => d ++ bytes_in os' res'
  | _ :: os', _ :: res' => bytes_in os' res'
  | _, _ => []
  end.

Fixpoint bytes_out (os : list Fifo.op) (res : list (QueueStatus * bytes)) : bytes :=
  match os, res with
  | Fifo.Dequeue _ :: os', (kOk, out) :: res' => out ++ bytes_out os' res'
  | _ :: os', _ :: res' => bytes_out os' res'
  | _, _ => []
  end.

(** What went in is what came out followed by what is still waiting. *)
Lemma fifo_stream os f res f' :
  Fifo.run f os = (res, f') ->
  Fifo.content f ++ bytes_in os res = bytes_out os res ++ Fifo.content f'.
Proof.
  revert f res. induction os as [|o os IH]; intros f res; simpl.
  { intros [= <- <-]. by rewrite app_nil_r. }
  destruct (Fifo.step f o) as [[s out] f1] eqn:Es.
  destruct (Fifo.run f1 os) as [res1 f2] eqn:Er. intros [= <- <-].
  specialize (IH _ _ Er). destruct o as [d|n]; simpl in *.
  - unfold Fifo.enqueue in Es. destruct (lenZ d =? 0); [injection Es as <- <- <-; done|].
    destruct (Fifo.cap f <? lenZ (Fifo.content f) + lenZ d); injection Es as <- <- <-; [done|].
    simpl in IH. by rewrite app_assoc, IH.
  - unfold Fifo.dequeue in Es. destruct (n =? 0); [injection Es as <- <- <-; done|].
    destruct (lenZ (Fifo.content f) <? n); injection Es as <- <- <-; [done|].
    simpl in IH. by rewrite <- app_assoc, <- IH, app_assoc, take_drop.
Qed.
