(* ===== verification/SpscQueue.v ===== *)
(** * The single-producer single-consumer queue

    src/src/logging/impl/spsc_queue.cc and src/src/include/femtolog/logging/impl/spsc_queue.h:
    the state of the class, every operation with its guards and cached snapshots, the invariant,
    and the refinement of the abstract byte queue. Operations are modelled one call at a time
    here; SpscConcurrent.v interleaves their atomic steps. *)

From S2P Require Import Prelude Ring ByteQueue.

Definition SpscQueueStatus := QueueStatus.

(** The members of the class. [buffer_] is [None] for a null pointer and otherwise the whole
    allocation; the indices are 64-bit counters that are never reduced by the capacity. *)
Record SpscQueue := {
  buffer_ : option bytes;
  capacity_ : Z;
  mask_ : Z;
  tail_idx_ : Z;
  tail_cached_ : Z;
  head_cached_snapshot_ : Z;
  head_idx_ : Z;
  head_cached_ : Z;
  tail_cached_snapshot_ : Z;
  allocation_size_ : Z;
}.

(** ** Construction *)

(** The constructor and the member initialisers. *)
Definition spsc_new : SpscQueue :=
  {| buffer_ := None; capacity_ := 0; mask_ := 0; tail_idx_ := 0; tail_cached_ := 0;
     head_cached_snapshot_ := 0; head_idx_ := 0; head_cached_ := 0;
     tail_cached_snapshot_ := 0; allocation_size_ := 0 |}.

Definition kCacheSize : Z := 64.

(** [reserve]: [alloc size] is what [aligned_alloc_wrapper] returns, the contents of the new
    allocation or [None] for a null pointer. *)
Definition reserve (alloc : Z -> option bytes) (capacity_bytes : Z) : option SpscQueue :=
  capacity ← next_power_of_2 capacity_bytes;
  let alloc_size := capacity ⊕ kCacheSize in
  match alloc alloc_size with
  | None => Some spsc_new
  | Some new_buffer =>
    Some {| buffer_ := Some new_buffer; capacity_ := capacity; mask_ := capacity ⊖ 1;
            tail_idx_ := 0; tail_cached_ := 0; head_cached_snapshot_ := 0; head_idx_ := 0;
            head_cached_ := 0; tail_cached_snapshot_ := 0; allocation_size_ := alloc_size |}
  end.

(** ** Observers *)

Definition spsc_empty (q : SpscQueue) : bool := head_cached_ q =? tail_idx_ q.
Definition spsc_size (q : SpscQueue) : Z := tail_idx_ q ⊖ head_cached_ q.
Definition spsc_available_space (q : SpscQueue) : Z := capacity_ q ⊖ spsc_size q.

(** ** The producer *)

Definition set_head_snapshot (q : SpscQueue) (h : Z) : SpscQueue :=
  {| buffer_ := buffer_ q; capacity_ := capacity_ q; mask_ := mask_ q; tail_idx_ := tail_idx_ q;
     tail_cached_ := tail_cached_ q; head_cached_snapshot_ := h; head_idx_ := head_idx_ q;
     head_cached_ := head_cached_ q; tail_cached_snapshot_ := tail_cached_snapshot_ q;
     allocation_size_ := allocation_size_ q |}.

(** The space check of [enqueue_bytes] and [enqueue_bulk]: the cached snapshot of the head
    first, the shared index only when that does not suffice. *)
Definition check_space (q : SpscQueue) (size : Z) : bool * SpscQueue :=
  let current_tail := tail_idx_ q in
  let used_space := current_tail ⊖ head_cached_snapshot_ q in
  if capacity_ q ⊖ used_space <? size then
    let current_head := head_idx_ q in
    let q' := set_head_snapshot q current_head in
    let new_used_space := current_tail ⊖ current_head in
    (negb (capacity_ q ⊖ new_used_space <? size), q')
  else (true, q).

(** The new buffer contents and the store of the tail index. *)
Definition publish (q : SpscQueue) (buf : bytes) (new_tail : Z) : SpscQueue :=
  {| buffer_ := Some buf; capacity_ := capacity_ q; mask_ := mask_ q; tail_idx_ := new_tail;
     tail_cached_ := new_tail; head_cached_snapshot_ := head_cached_snapshot_ q;
     head_idx_ := head_idx_ q; head_cached_ := head_cached_ q;
     tail_cached_snapshot_ := tail_cached_snapshot_ q; allocation_size_ := allocation_size_ q |}.

(** [enqueue_bytes(data_ptr, data_size)]; [data] is the object at [data_ptr]. *)
Definition enqueue_bytes (q : SpscQueue) (data : bytes) : option (SpscQueueStatus * SpscQueue) :=
  match buffer_ q with
  | None => Some (kUninitialized, q)
  | Some buffer =>
    let data_size := lenZ data in
    if data_size =? 0 then Some (kSizeIsZero, q)
    else
      let current_tail := tail_idx_ q in
      let '(fits, q1) := check_space q data_size in
      if fits then
        buf ← ring_copy_in buffer (mask_ q1) current_tail data;
        Some (kOk, publish q1 buf (current_tail ⊕ data_size))
      else Some (kOverflow, q1)
  end.

(** The total of the sizes, which the code adds up in a [std::size_t]. *)
Definition total_size_of (sizes : list Z) : Z := fold_left (λ t s, t ⊕ s) sizes 0.

(** The copy loop of [enqueue_bulk]. *)
Fixpoint copy_all_in (buf : bytes) (mask tail offset : Z) (datas : list bytes) : option bytes :=
  match datas with
  | [] => Some buf
  | d :: rest =>
    buf' ← ring_copy_in buf mask (tail ⊕ offset) d;
    copy_all_in buf' mask tail (offset ⊕ lenZ d) rest
  end.

Definition enqueue_bulk (q : SpscQueue) (datas : list bytes) :
    option (SpscQueueStatus * SpscQueue) :=
  match buffer_ q with
  | None => Some (kUninitialized, q)
  | Some buffer =>
    if lenZ datas =? 0 then Some (kSizeIsZero, q)
    else
      let total_size := total_size_of (lenZ <$> datas) in
      if total_size =? 0 then Some (kSizeIsZero, q)
      else
        let current_tail := tail_idx_ q in
        let '(fits, q1) := check_space q total_size in
        if fits then
          buf ← copy_all_in buffer (mask_ q1) current_tail 0 datas;
          Some (kOk, publish q1 buf (current_tail ⊕ total_size))
        else Some (kOverflow, q1)
  end.

(** ** The consumer *)

Definition set_tail_snapshot (q : SpscQueue) (t : Z) : SpscQueue :=
  {| buffer_ := buffer_ q; capacity_ := capacity_ q; mask_ := mask_ q; tail_idx_ := tail_idx_ q;
     tail_cached_ := tail_cached_ q; head_cached_snapshot_ := head_cached_snapshot_ q;
     head_idx_ := head_idx_ q; head_cached_ := head_cached_ q; tail_cached_snapshot_ := t;
     allocation_size_ := allocation_size_ q |}.

(** The availability check of [dequeue_bytes] and [dequeue_bulk]. *)
Definition check_available (q : SpscQueue) (size : Z) : bool * SpscQueue :=
  let current_head := head_idx_ q in
  let available_data := tail_cached_snapshot_ q ⊖ current_head in
  if available_data <? size then
    let current_tail := tail_idx_ q in
    let q' := set_tail_snapshot q current_tail in
    let new_available := current_tail ⊖ current_head in
    (negb (new_available <? size), q')
  else (true, q).

(** The store of the head index. *)
Definition release (q : SpscQueue) (new_head : Z) : SpscQueue :=
  {| buffer_ := buffer_ q; capacity_ := capacity_ q; mask_ := mask_ q; tail_idx_ := tail_idx_ q;
     tail_cached_ := tail_cached_ q; head_cached_snapshot_ := head_cached_snapshot_ q;
     head_idx_ := new_head; head_cached_ := new_head;
     tail_cached_snapshot_ := tail_cached_snapshot_ q; allocation_size_ := allocation_size_ q |}.

(** [dequeue_bytes(data_ptr, data_size)]: the status, the bytes written to [data_ptr] (none
    unless [kOk]) and the new state. *)
Definition dequeue_bytes (q : SpscQueue) (data_size : Z) :
    option (SpscQueueStatus * bytes * SpscQueue) :=
  match buffer_ q with
  | None => Some (kUninitialized, [], q)
  | Some buffer =>
    if data_size =? 0 then Some (kSizeIsZero, [], q)
    else
      let current_head := head_idx_ q in
      let '(avail, q1) := check_available q data_size in
      if avail then
        data ← ring_copy_out buffer (mask_ q1) current_head data_size;
        Some (kOk, data, release q1 (current_head ⊕ data_size))
      else Some (kUnderflow, [], q1)
  end.

(** [peek_bytes] reads the shared indices and changes nothing. *)
Definition peek_bytes (q : SpscQueue) (data_size : Z) : option (SpscQueueStatus * bytes) :=
  match buffer_ q with
  | None => Some (kUninitialized, [])
  | Some buffer =>
    if data_size =? 0 then Some (kSizeIsZero, [])
    else
      let current_head := head_idx_ q in
      let available_data := tail_idx_ q ⊖ current_head in
      if available_data <? data_size then Some (kUnderflow, [])
      else data ← ring_copy_out buffer (mask_ q) current_head data_size; Some (kOk, data)
  end.

(** The overloads for an object: the bytes are those of its representation, and their number is
    [sizeof(T)]. What a call does not write keeps its value. *)
Definition enqueue_object (q : SpscQueue) (object : bytes) : option (SpscQueueStatus * SpscQueue) :=
  enqueue_bytes q object.

Definition dequeue_object (q : SpscQueue) (object : bytes) : option (SpscQueueStatus * bytes * SpscQueue) :=
  '(status, out, q') ← dequeue_bytes q (lenZ object); Some (status, fill object out, q').

Definition peek_object (q : SpscQueue) (object : bytes) : option (SpscQueueStatus * bytes) :=
  '(status, out) ← peek_bytes q (lenZ object); Some (status, fill object out).

(** The copy loop of [dequeue_bulk]. *)
Fixpoint copy_all_out (buf : bytes) (mask head offset : Z) (sizes : list Z) :
    option (list bytes) :=
  match sizes with
  | [] => Some []
  | n :: rest =>
    d ← ring_copy_out buf mask (head ⊕ offset) n;
    ds ← copy_all_out buf mask head (offset ⊕ n) rest;
    Some (d :: ds)
  end.

Definition dequeue_bulk (q : SpscQueue) (sizes : list Z) :
    option (SpscQueueStatus * list bytes * SpscQueue) :=
  match buffer_ q with
  | None => Some (kUninitialized, [], q)
  | Some buffer =>
    if lenZ sizes =? 0 then Some (kSizeIsZero, [], q)
    else
      let total_size := total_size_of sizes in
      if total_size =? 0 then Some (kSizeIsZero, [], q)
      else
        let current_head := head_idx_ q in
        let '(avail, q1) := check_available q total_size in
        if avail then
          datas ← copy_all_out buffer (mask_ q1) current_head 0 sizes;
          Some (kOk, datas, release q1 (current_head ⊕ total_size))
        else Some (kUnderflow, [], q1)
  end.

(** ** The invariant *)

(** The queue holds a ring of capacity [2 ^ k] in the allocation [buf]: at most [capacity_]
    bytes are waiting, the producer's snapshot of the head lags behind the head but never lets the
    producer see more than [capacity_] bytes in use, and the consumer's snapshot of the tail lags
    behind the tail. All distances are distances of wrapped counters. *)
Record spsc_wf (k : Z) (buf : bytes) (q : SpscQueue) : Prop := {
  wf_k : 1 <= k <= 63;
  wf_buffer : buffer_ q = Some buf;
  wf_alloc : 2 ^ k <= lenZ buf;
  wf_capacity : capacity_ q = 2 ^ k;
  wf_mask : mask_ q = 2 ^ k - 1;
  wf_head_snapshot :
    tail_idx_ q ⊖ head_idx_ q <= tail_idx_ q ⊖ head_cached_snapshot_ q <= 2 ^ k;
  wf_tail_snapshot : tail_cached_snapshot_ q ⊖ head_idx_ q <= tail_idx_ q ⊖ head_idx_ q;
  wf_head_cached : head_cached_ q = head_idx_ q;
  wf_tail_cached : tail_cached_ q = tail_idx_ q;
}.

Definition spsc_valid (q : SpscQueue) : Prop := exists k buf, spsc_wf k buf q.

(** The bytes waiting in the queue, oldest first. *)
Definition spsc_contents (q : SpscQueue) : bytes :=
  match buffer_ q with
  | None => []
  | Some buf => ring_slice buf (capacity_ q) (head_idx_ q) (tail_idx_ q ⊖ head_idx_ q)
  end.

#[export] Instance spsc_byte_queue : ByteQueue SpscQueue := {
  bq_enqueue := enqueue_bytes;
  bq_dequeue := dequeue_bytes;
  bq_peek := peek_bytes;
  bq_valid := spsc_valid;
  bq_capacity := capacity_;
  bq_contents := spsc_contents;
}.

Section facts.
Context (k : Z) (buf : bytes) (q : SpscQueue) (W : spsc_wf k buf q).
Let used := tail_idx_ q ⊖ head_idx_ q.

Lemma wf_bounds : 0 <= used <= 2 ^ k /\ 2 <= 2 ^ k <= 2 ^ 63.
Proof.
  destruct W. subst used. pose proof (ring_cap_bounds k ltac:(lia)).
  pose proof (u64_range (tail_idx_ q - head_idx_ q)). lia.
Qed.

Lemma wf_contents : spsc_contents q = ring_slice buf (2 ^ k) (head_idx_ q) used.
Proof. destruct W as [_ Hb _ Hc]. unfold spsc_contents. by rewrite Hb, Hc. Qed.

Lemma wf_contents_length : lenZ (spsc_contents q) = used.
Proof. rewrite wf_contents. apply ring_slice_length. pose proof wf_bounds; lia. Qed.

(** The slot after the waiting bytes is the tail's. *)
Lemma wf_slots : (head_idx_ q + used) mod 2 ^ k = tail_idx_ q mod 2 ^ k.
Proof.
  destruct W. subst used. rewrite <- Zplus_mod_idemp_r, u64_mod_pow2 by lia.
  rewrite Zplus_mod_idemp_r. f_equal; lia.
Qed.

Lemma check_space_spec size :
  0 < size ->
  let '(fits, q1) := check_space q size in
  spsc_wf k buf q1 /\ spsc_contents q1 = spsc_contents q /\ tail_idx_ q1 = tail_idx_ q /\
  (fits = true /\ used + size <= 2 ^ k /\
     (tail_idx_ q1 ⊖ head_cached_snapshot_ q1) + size <= 2 ^ k \/
   fits = false /\ 2 ^ k < used + size).
Proof.
  intros Hs. pose proof wf_bounds as [Hu Hc]. destruct W. unfold check_space. subst used.
  pose proof (u64_range (tail_idx_ q - head_cached_snapshot_ q)).
  rewrite wf_capacity0, !(u64_small (2 ^ k - _)) by lia.
  destruct (Z.ltb_spec (2 ^ k - (tail_idx_ q ⊖ head_cached_snapshot_ q)) size).
  - split; [|split; [done|split; [done|]]].
    + by constructor; simpl; try lia.
    + simpl. destruct (Z.ltb_spec (2 ^ k - (tail_idx_ q ⊖ head_idx_ q)) size); simpl; lia.
  - split; [by constructor | split; [done | split; [done|]]]. left; lia.
Qed.

Lemma check_available_spec size :
  0 < size ->
  let '(avail, q1) := check_available q size in
  spsc_wf k buf q1 /\ spsc_contents q1 = spsc_contents q /\ head_idx_ q1 = head_idx_ q /\
  tail_idx_ q1 = tail_idx_ q /\
  (avail = true /\ size <= used /\ size <= tail_cached_snapshot_ q1 ⊖ head_idx_ q1 \/
   avail = false /\ used < size).
Proof.
  intros Hs. pose proof wf_bounds as [Hu Hc]. destruct W. unfold check_available. subst used.
  destruct (Z.ltb_spec (tail_cached_snapshot_ q ⊖ head_idx_ q) size).
  - split; [|split; [done|split; [done|split; [done|]]]].
    + by constructor; simpl; try lia.
    + simpl. destruct (Z.ltb_spec (tail_idx_ q ⊖ head_idx_ q) size); simpl; lia.
  - split; [by constructor | split; [done | split; [done | split; [done|]]]]. left; lia.
Qed.

(** Publishing a ring whose slots hold [data] after the waiting bytes. *)
Lemma publish_spec buf' data :
  lenZ buf' = lenZ buf ->
  (tail_idx_ q ⊖ head_cached_snapshot_ q) + lenZ data <= 2 ^ k ->
  ring_slice buf' (2 ^ k) (tail_idx_ q) (lenZ data) = data ->
  ring_slice buf' (2 ^ k) (head_idx_ q) used = ring_slice buf (2 ^ k) (head_idx_ q) used ->
  let q' := publish q buf' (tail_idx_ q ⊕ lenZ data) in
  spsc_wf k buf' q' /\ spsc_contents q' = spsc_contents q ++ data.
Proof.
  intros Hlen Hfit Hnew Hold. pose proof wf_bounds as [Hu Hc].
  pose proof (lenZ_nonneg data). pose proof wf_slots as Hslot.
  pose proof wf_contents as Hcont. destruct W. subst used. simpl.
  assert (Hused : (tail_idx_ q ⊕ lenZ data) ⊖ head_idx_ q =
                  (tail_idx_ q ⊖ head_idx_ q) + lenZ data)
    by (rewrite u64_dist_advance_l; apply u64_small; lia).
  split.
  - constructor; simpl; try done; try lia; rewrite ?Hused.
    rewrite u64_dist_advance_l, (u64_small (_ + lenZ data)) by lia. lia.
  - rewrite Hcont. unfold spsc_contents. simpl. rewrite wf_capacity0, Hused.
    rewrite ring_slice_app by lia. f_equal; [done|].
    by rewrite (ring_slice_mod _ _ _ (tail_idx_ q)).
Qed.

Lemma release_spec n :
  0 < n <= used -> n <= tail_cached_snapshot_ q ⊖ head_idx_ q ->
  let q' := release q (head_idx_ q ⊕ n) in
  spsc_wf k buf q' /\ spsc_contents q' = drop (Z.to_nat n) (spsc_contents q).
Proof.
  intros Hn Hts. pose proof wf_bounds as [Hu Hc]. pose proof wf_contents as Hcont.
  destruct W. subst used. simpl.
  assert (Hused : tail_idx_ q ⊖ (head_idx_ q ⊕ n) = (tail_idx_ q ⊖ head_idx_ q) - n)
    by (rewrite u64_dist_advance_r; apply u64_small; lia).
  split.
  - constructor; simpl; try done; try lia; rewrite ?Hused; try lia.
    rewrite u64_dist_advance_r, u64_small by lia. lia.
  - rewrite Hcont. unfold spsc_contents. simpl. rewrite wf_buffer0, wf_capacity0, Hused.
    replace (tail_idx_ q ⊖ head_idx_ q) with (n + ((tail_idx_ q ⊖ head_idx_ q) - n))
      at 2 by lia.
    rewrite ring_slice_app by lia.
    rewrite drop_app_length'.
    + apply ring_slice_mod. apply u64_mod_pow2. lia.
    + pose proof (ring_slice_length buf (2 ^ k) (head_idx_ q) n ltac:(lia)).
      unfold lenZ in *. lia.
Qed.

(** What [ring_copy_out] reads at the head is the front of the waiting bytes. *)
Lemma copy_out_front n :
  0 <= n <= used ->
  ring_copy_out buf (mask_ q) (head_idx_ q) n = Some (take (Z.to_nat n) (spsc_contents q)).
Proof.
  intros Hn. pose proof wf_bounds as [Hu Hc]. rewrite wf_contents. destruct W.
  rewrite wf_mask0, ring_copy_out_spec by lia. f_equal.
  replace used with (n + (used - n)) by lia. rewrite ring_slice_app by lia.
  rewrite take_app_length'; [done|].
  pose proof (ring_slice_length buf (2 ^ k) (head_idx_ q) n ltac:(lia)).
  unfold lenZ in *. lia.
Qed.
End facts.

(** ** The operations refine the byte queue *)

Lemma enqueue_bytes_spec q data :
  spsc_valid q -> 0 < lenZ data ->
  exists q', spsc_valid q' /\ capacity_ q' = capacity_ q /\
    if decide (lenZ (spsc_contents q) + lenZ data <= capacity_ q)
    then enqueue_bytes q data = Some (kOk, q') /\ spsc_contents q' = spsc_contents q ++ data
    else enqueue_bytes q data = Some (kOverflow, q') /\ spsc_contents q' = spsc_contents q.
Proof.
  intros (k & buf & W) Hd. rewrite (wf_contents_length k buf q W).
  pose proof (check_space_spec k buf q W (lenZ data) Hd) as Hcs.
  pose proof (wf_bounds k buf q W) as [Hu Hc].
  unfold enqueue_bytes. rewrite (wf_buffer _ _ _ W).
  destruct (Z.eqb_spec (lenZ data) 0); [lia|].
  destruct (check_space q (lenZ data)) as [fits q1]. destruct Hcs as (W1 & Hc1 & Ht & Hf).
  rewrite (wf_capacity _ _ _ W). destruct Hf as [(-> & Hfit & Hsnap)|(-> & Hfull)].
  - case_decide; [|lia]. rewrite <- Ht.
    assert (Hu1 : tail_idx_ q1 ⊖ head_idx_ q1 = tail_idx_ q ⊖ head_idx_ q).
    { rewrite <- (wf_contents_length k buf q1 W1), Hc1. apply (wf_contents_length k buf q W). }
    destruct (ring_write_slices k ltac:(apply W) buf ltac:(apply W) (tail_idx_ q1) data)
      as (buf' & Hin & Hlen & Hnew & Hold); [lia|].
    rewrite (wf_mask _ _ _ W1), Hin. simpl.
    destruct (publish_spec k buf q1 W1 buf' data Hlen Hsnap Hnew) as [W' Hc'].
    { apply Hold; [lia | apply (wf_slots k buf q1 W1) | lia]. }
    eexists. split; [by eexists _, _|]. split; [by apply W1|]. by rewrite Hc', Hc1.
  - case_decide; [lia|]. exists q1. split; [by eexists _, _|].
    split; [by apply W1|]. done.
Qed.

Lemma dequeue_bytes_spec q n :
  spsc_valid q -> 0 < n ->
  exists q', spsc_valid q' /\ capacity_ q' = capacity_ q /\
    if decide (n <= lenZ (spsc_contents q))
    then dequeue_bytes q n = Some (kOk, take (Z.to_nat n) (spsc_contents q), q') /\
         spsc_contents q' = drop (Z.to_nat n) (spsc_contents q)
    else dequeue_bytes q n = Some (kUnderflow, [], q') /\ spsc_contents q' = spsc_contents q.
Proof.
  intros (k & buf & W) Hn. rewrite (wf_contents_length k buf q W).
  pose proof (check_available_spec k buf q W n Hn) as Hca.
  unfold dequeue_bytes. rewrite (wf_buffer _ _ _ W). destruct (Z.eqb_spec n 0); [lia|].
  destruct (check_available q n) as [avail q1].
  destruct Hca as (W1 & Hc1 & Hh & Ht & [(-> & Hav & Hts)|(-> & Hshort)]).
  - case_decide; [|lia]. rewrite <- Hh, <- Hc1.
    rewrite (copy_out_front k buf q1 W1) by (rewrite Hh, Ht; lia). simpl.
    destruct (release_spec k buf q1 W1 n) as [W' Hc']; [rewrite Hh, Ht; lia | done |].
    eexists. split; [by eexists _, _|].
    split; [by rewrite (wf_capacity _ _ _ W'), (wf_capacity _ _ _ W)|]. done.
  - case_decide; [lia|]. exists q1. split; [by eexists _, _|].
    split; [by rewrite (wf_capacity _ _ _ W1), (wf_capacity _ _ _ W)|]. done.
Qed.

Lemma peek_bytes_spec q n :
  spsc_valid q -> 0 < n ->
  peek_bytes q n =
    if decide (n <= lenZ (spsc_contents q))
    then Some (kOk, take (Z.to_nat n) (spsc_contents q)) else Some (kUnderflow, []).
Proof.
  intros (k & buf & W) Hn. rewrite (wf_contents_length k buf q W).
  unfold peek_bytes. rewrite (wf_buffer _ _ _ W). destruct (Z.eqb_spec n 0); [lia|].
  destruct (Z.ltb_spec (tail_idx_ q ⊖ head_idx_ q) n).
  - by rewrite decide_False by lia.
  - rewrite decide_True by lia. by rewrite (copy_out_front k buf q W) by lia.
Qed.

#[export] Instance spsc_byte_queue_laws : ByteQueueLaws SpscQueue.
Proof.
  split; simpl.
  - intros q (k & buf & W). rewrite (wf_contents_length k buf q W), (wf_capacity _ _ _ W).
    pose proof (wf_bounds k buf q W). lia.
  - intros q d (k & buf & W) Hd. unfold enqueue_bytes. by rewrite (wf_buffer _ _ _ W), Hd.
  - intros q d Hv Hd Hfit. destruct (enqueue_bytes_spec q d Hv Hd) as (q' & ? & ? & H). simpl in *.
    rewrite decide_True in H by lia. destruct H. by exists q'.
  - intros q d Hv Hd Hfull. destruct (enqueue_bytes_spec q d Hv Hd) as (q' & ? & ? & H). simpl in *.
    rewrite decide_False in H by lia. destruct H. by exists q'.
  - intros q n Hv Hn. destruct (dequeue_bytes_spec q n Hv ltac:(lia)) as (q' & ? & ? & H).
    rewrite decide_True in H by lia. destruct H. by exists q'.
  - intros q n Hv Hn Hs. destruct (dequeue_bytes_spec q n Hv Hn) as (q' & ? & ? & H).
    rewrite decide_False in H by lia. destruct H. by exists q'.
  - intros q n Hv Hn. rewrite peek_bytes_spec by (done || lia). by rewrite decide_True by lia.
  - intros q n Hv Hn Hs. rewrite peek_bytes_spec by done. by rewrite decide_False by lia.
Qed.

(** ** Bulk operations *)

Lemma total_size_of_sum sizes t :
  0 <= t -> Forall (λ s, 0 <= s) sizes -> t + foldr Z.add 0 sizes < 2 ^ 64 ->
  fold_left (λ t s, t ⊕ s) sizes t = t + foldr Z.add 0 sizes.
Proof.
  intros Ht Hs. revert t Ht. induction Hs as [|s sizes H0 Hs IH]; intros t Ht Hb; simpl in *.
  { lia. }
  assert (0 <= foldr Z.add 0 sizes) by (clear -Hs; induction Hs; simpl; lia).
  rewrite u64_small by lia. rewrite IH by lia. lia.
Qed.

Lemma sum_sizes_concat (datas : list bytes) :
  foldr Z.add 0 (lenZ <$> datas) = lenZ (concat datas).
Proof. induction datas as [|d l IH]; [done|]. csimpl. by rewrite IH, lenZ_app. Qed.

Lemma total_size_of_concat (datas : list bytes) :
  lenZ (concat datas) < 2 ^ 64 -> total_size_of (lenZ <$> datas) = lenZ (concat datas).
Proof.
  intros Hb. unfold total_size_of.
  rewrite total_size_of_sum; rewrite ?sum_sizes_concat; try lia.
  apply Forall_fmap, Forall_true. intros d. apply lenZ_nonneg.
Qed.

(** The copy loop writes the records one after the other. *)
Lemma copy_all_in_spec k datas :
  1 <= k <= 63 ->
  forall buf tail offset,
  2 ^ k <= lenZ buf -> lenZ (concat datas) <= 2 ^ k ->
  exists buf', copy_all_in buf (2 ^ k - 1) tail offset datas = Some buf' /\
    lenZ buf' = lenZ buf /\
    ring_slice buf' (2 ^ k) (tail + offset) (lenZ (concat datas)) = concat datas /\
    (forall h n, 0 <= n -> (h + n) mod 2 ^ k = (tail + offset) mod 2 ^ k ->
       n + lenZ (concat datas) <= 2 ^ k ->
       ring_slice buf' (2 ^ k) h n = ring_slice buf (2 ^ k) h n).
Proof.
  intros Hk. pose proof (ring_cap_bounds k Hk) as Hc.
  induction datas as [|d rest IH]; intros buf tail offset Hbuf Hlen; simpl.
  { exists buf. rewrite lenZ_nil. by rewrite ring_slice_nil by lia. }
  rewrite concat_cons, lenZ_app in Hlen.
  pose proof (lenZ_nonneg d) as Hd0. pose proof (lenZ_nonneg (concat rest)) as Hr0.
  set (t := tail ⊕ offset).
  assert (Ht : t mod 2 ^ k = (tail + offset) mod 2 ^ k) by (apply u64_mod_pow2; lia).
  destruct (ring_write_slices k Hk buf Hbuf t d) as (b1 & Hin & Hl1 & Hnew & Hold); [lia|].
  rewrite Hin. simpl.
  destruct (IH b1 tail (offset ⊕ lenZ d)) as (b2 & Hrest & Hl2 & Hnew2 & Hold2); [lia|lia|].
  assert (Ht2 : (tail + (offset ⊕ lenZ d)) mod 2 ^ k = (t + lenZ d) mod 2 ^ k).
  { rewrite <- Zplus_mod_idemp_r, u64_mod_pow2, Zplus_mod_idemp_r by lia.
    rewrite <- (Zplus_mod_idemp_l t), Ht, Zplus_mod_idemp_l. f_equal; lia. }
  exists b2. split; [done|]. split; [lia|]. rewrite lenZ_app. split.
  - rewrite ring_slice_app by lia. f_equal.
    + rewrite (ring_slice_mod _ _ _ t) by done. rewrite <- Hnew at 2.
      apply Hold2; [lia | by rewrite Ht2 | lia].
    + rewrite <- Hnew2 at 2. apply ring_slice_mod.
      rewrite Ht2, <- (Zplus_mod_idemp_l t), Ht, Zplus_mod_idemp_l. done.
  - intros h n Hn Hslot Hfit.
    assert (Hwide : ring_slice b2 (2 ^ k) h (n + lenZ d) = ring_slice b1 (2 ^ k) h (n + lenZ d)).
    { apply Hold2; [lia | | lia].
      rewrite Ht2, Z.add_assoc, <- (Zplus_mod_idemp_l (h + n)), Hslot, <- Ht.
      by rewrite Zplus_mod_idemp_l. }
    rewrite !ring_slice_app in Hwide by lia.
    apply app_inj_1 in Hwide as [-> _].
    + apply Hold; [done | by rewrite Hslot | lia].
    + pose proof (ring_slice_length b1 (2 ^ k) h n Hn).
      pose proof (ring_slice_length b2 (2 ^ k) h n Hn). unfold lenZ in *. lia.
Qed.

(** Reading records of the given sizes splits the front of the waiting bytes. *)
Lemma copy_all_out_spec k buf sizes :
  1 <= k <= 63 -> 2 ^ k <= lenZ buf -> Forall (λ s, 0 <= s) sizes ->
  forall head offset, foldr Z.add 0 sizes <= 2 ^ k ->
  exists datas, copy_all_out buf (2 ^ k - 1) head offset sizes = Some datas /\
    lenZ <$> datas = sizes /\
    concat datas = ring_slice buf (2 ^ k) (head + offset) (foldr Z.add 0 sizes).
Proof.
  intros Hk Hbuf Hs. pose proof (ring_cap_bounds k Hk) as Hc.
  induction Hs as [|s sizes H0 Hs IH]; intros head offset Hb; simpl in *.
  { exists []. by rewrite ring_slice_nil. }
  assert (0 <= foldr Z.add 0 sizes) by (clear -Hs; induction Hs; simpl; lia).
  rewrite ring_copy_out_spec by lia. simpl.
  destruct (IH head (offset ⊕ s)) as (ds & Hds & Hsz & Hcat); [lia|].
  rewrite Hds. simpl. eexists. split; [done|]. csimpl.
  rewrite ring_slice_length by done. rewrite Hsz, Hcat, ring_slice_app by done.
  split; [done|]. f_equal; apply ring_slice_mod.
  - apply u64_mod_pow2; lia.
  - rewrite <- Zplus_mod_idemp_r, u64_mod_pow2, Zplus_mod_idemp_r by lia. f_equal; lia.
Qed.

Lemma sum_sizes_nonneg sizes : Forall (λ s, 0 <= s) sizes -> 0 <= foldr Z.add 0 sizes.
Proof. induction 1; simpl; lia. Qed.

(** [enqueue_bulk] is one [enqueue_bytes] of the concatenated records: it stores all of them
    in order when they fit and otherwise reports [kOverflow] and stores none. *)
Theorem enqueue_bulk_all_or_nothing q datas :
  spsc_valid q -> 0 < lenZ (concat datas) < 2 ^ 64 ->
  exists q', spsc_valid q' /\ capacity_ q' = capacity_ q /\
    if decide (lenZ (spsc_contents q) + lenZ (concat datas) <= capacity_ q)
    then enqueue_bulk q datas = Some (kOk, q') /\
         spsc_contents q' = spsc_contents q ++ concat datas
    else enqueue_bulk q datas = Some (kOverflow, q') /\ spsc_contents q' = spsc_contents q.
Proof.
  intros (k & buf & W) Hd. rewrite (wf_contents_length k buf q W).
  set (data := concat datas) in *.
  pose proof (check_space_spec k buf q W (lenZ data) ltac:(lia)) as Hcs.
  pose proof (wf_bounds k buf q W) as [Hu Hc].
  unfold enqueue_bulk. rewrite (wf_buffer _ _ _ W).
  assert (lenZ datas <> 0).
  { intros H0%lenZ_zero_inv. subst datas. subst data. simpl in Hd. unfold lenZ in Hd.
    simpl in Hd. lia. }
  destruct (Z.eqb_spec (lenZ datas) 0); [done|].
  rewrite total_size_of_concat by (subst data; lia). fold data.
  destruct (Z.eqb_spec (lenZ data) 0); [lia|].
  destruct (check_space q (lenZ data)) as [fits q1]. destruct Hcs as (W1 & Hc1 & Ht & Hf).
  rewrite (wf_capacity _ _ _ W). destruct Hf as [(-> & Hfit & Hsnap)|(-> & Hfull)].
  - case_decide; [|lia]. rewrite <- Ht.
    assert (Hu1 : tail_idx_ q1 ⊖ head_idx_ q1 = tail_idx_ q ⊖ head_idx_ q).
    { rewrite <- (wf_contents_length k buf q1 W1), Hc1. apply (wf_contents_length k buf q W). }
    destruct (copy_all_in_spec k datas ltac:(apply W) buf (tail_idx_ q1) 0)
      as (buf' & Hin & Hlen & Hnew & Hold); [apply W | subst data; lia |].
    rewrite (wf_mask _ _ _ W1), Hin. simpl. rewrite Z.add_0_r in Hnew, Hold.
    destruct (publish_spec k buf q1 W1 buf' data Hlen Hsnap Hnew) as [W' Hc'].
    { apply Hold; [lia | apply (wf_slots k buf q1 W1) | subst data; lia]. }
    eexists. split; [by eexists _, _|]. split; [by apply W1|]. by rewrite Hc', Hc1.
  - case_decide; [lia|]. exists q1. split; [by eexists _, _|].
    split; [by apply W1|]. done.
Qed.

(** [dequeue_bulk] hands out the front of the queue cut into records of the sizes asked for
    when that many bytes are waiting, and otherwise reports [kUnderflow] and takes none. *)
Theorem dequeue_bulk_cuts_front q sizes :
  spsc_valid q -> Forall (λ s, 0 <= s) sizes -> 0 < foldr Z.add 0 sizes < 2 ^ 64 ->
  let total := foldr Z.add 0 sizes in
  exists q', spsc_valid q' /\ capacity_ q' = capacity_ q /\
    if decide (total <= lenZ (spsc_contents q))
    then exists datas, dequeue_bulk q sizes = Some (kOk, datas, q') /\
         lenZ <$> datas = sizes /\ concat datas = take (Z.to_nat total) (spsc_contents q) /\
         spsc_contents q' = drop (Z.to_nat total) (spsc_contents q)
    else dequeue_bulk q sizes = Some (kUnderflow, [], q') /\ spsc_contents q' = spsc_contents q.
Proof.
  intros (k & buf & W) Hs Hn total. rewrite (wf_contents_length k buf q W).
  pose proof (check_available_spec k buf q W total ltac:(lia)) as Hca.
  unfold dequeue_bulk. rewrite (wf_buffer _ _ _ W).
  destruct (Z.eqb_spec (lenZ sizes) 0) as [H0|_].
  { apply lenZ_zero_inv in H0. subst sizes. simpl in Hn. lia. }
  assert (Ht : total_size_of sizes = total) by (apply (total_size_of_sum sizes 0); try done; lia).
  rewrite Ht. destruct (Z.eqb_spec total 0); [lia|].
  destruct (check_available q total) as [avail q1].
  destruct Hca as (W1 & Hc1 & Hh & Htl & [(-> & Hav & Hts)|(-> & Hshort)]).
  - case_decide; [|lia]. rewrite <- Hh, <- Hc1.
    pose proof (wf_bounds k buf q W) as [Hu Hc].
    destruct (copy_all_out_spec k buf sizes ltac:(apply W) ltac:(apply W) Hs (head_idx_ q1) 0)
      as (ds & Hout & Hsz & Hcat); [lia|].
    rewrite (wf_mask _ _ _ W1), Hout. simpl.
    destruct (release_spec k buf q1 W1 total) as [W' Hc']; [rewrite Hh, Htl; lia | done |].
    eexists. split; [by eexists _, _|].
    split; [by rewrite (wf_capacity _ _ _ W'), (wf_capacity _ _ _ W)|].
    exists ds. split; [done|]. split; [done|]. split; [|done].
    pose proof (copy_out_front k buf q1 W1 total ltac:(rewrite Hh, Htl; lia)) as Hf.
    rewrite (wf_mask _ _ _ W1), ring_copy_out_spec in Hf by (try apply W; lia).
    injection Hf as <-. rewrite Hcat. f_equal. lia.
  - case_decide; [lia|]. exists q1. split; [by eexists _, _|].
    split; [by rewrite (wf_capacity _ _ _ W1), (wf_capacity _ _ _ W)|]. done.
Qed.

(** ** Reservation *)

(** An allocator that returns the size asked for. *)
Definition alloc_sized (alloc : Z -> option bytes) : Prop :=
  forall n buf, 0 <= n -> alloc n = Some buf -> lenZ buf = n.

(** Zeroed memory, which the witnesses allocate. *)
Definition zero_alloc (n : Z) : option bytes := Some (replicate (Z.to_nat n) Byte.x00).

Lemma zero_alloc_sized : alloc_sized zero_alloc.
Proof. intros n buf Hn [= <-]. unfold lenZ. rewrite length_replicate. lia. Qed.

Lemma reserve_valid alloc n q :
  alloc_sized alloc -> 0 <= n <= 2 ^ 63 -> reserve alloc n = Some q ->
  buffer_ q = None \/
  (spsc_valid q /\ spsc_contents q = [] /\ n <= capacity_ q /\
   forall j, 1 <= j -> n <= 2 ^ j -> capacity_ q <= 2 ^ j).
Proof.
  intros Ha Hn. destruct (next_power_of_2_spec n Hn) as (k & Hk & Hp & Hle & Hmin).
  unfold reserve. rewrite Hp. simpl. pose proof (ring_cap_bounds k Hk).
  destruct (alloc (2 ^ k ⊕ kCacheSize)) as [buf|] eqn:Hal; intros [= <-]; [right|by left].
  apply Ha in Hal; [|apply u64_range]. unfold kCacheSize in Hal. rewrite u64_small in Hal by lia.
  assert (W : spsc_wf k buf {| buffer_ := Some buf; capacity_ := 2 ^ k; mask_ := 2 ^ k ⊖ 1;
    tail_idx_ := 0; tail_cached_ := 0; head_cached_snapshot_ := 0; head_idx_ := 0;
    head_cached_ := 0; tail_cached_snapshot_ := 0; allocation_size_ := 2 ^ k ⊕ kCacheSize |}).
  { constructor; simpl; try done; try lia.
    - apply u64_small; lia.
    - rewrite Z.sub_diag, u64_small by lia. lia. }
  split; [by eexists _, _|]. split; [|split; [done|]].
  - apply lenZ_zero_inv. rewrite (wf_contents_length k buf _ W). done.
  - intros j Hj Hnj. apply Z.pow_le_mono_r; [lia|]. by apply Hmin.
Qed.

(** The producer's view of the size never exceeds the capacity, and [empty] is exactly the
    absence of waiting bytes. *)
Lemma spsc_observers q :
  spsc_valid q -> 0 <= tail_idx_ q < 2 ^ 64 -> 0 <= head_idx_ q < 2 ^ 64 ->
  spsc_size q = lenZ (spsc_contents q) /\
  spsc_available_space q = capacity_ q - lenZ (spsc_contents q) /\
  (spsc_empty q = true <-> spsc_contents q = []).
Proof.
  intros (k & buf & W) Ht Hh. pose proof (wf_bounds k buf q W) as [Hu Hc].
  unfold spsc_available_space, spsc_size, spsc_empty.
  rewrite (wf_contents_length k buf q W), (wf_head_cached _ _ _ W).
  rewrite (wf_capacity _ _ _ W). split; [done|]. split; [apply u64_small; lia|].
  rewrite Z.eqb_eq. split.
  - intros He. apply lenZ_zero_inv. rewrite (wf_contents_length k buf q W), He, Z.sub_diag. done.
  - intros He. apply (f_equal lenZ) in He. rewrite (wf_contents_length k buf q W) in He.
    change (lenZ (@nil Init.Byte.byte)) with 0 in He. unfold u64 in He.
    apply Z.mod_divide in He as [c He]; [|lia]. nia.
Qed.

(** ** Every call *)

Inductive queue_call :=
  | CallEnqueue (data : bytes)
  | CallDequeue (size : Z)
  | CallPeek (size : Z)
  | CallEnqueueBulk (datas : list bytes)
  | CallDequeueBulk (sizes : list Z).

Definition queue_run (q : SpscQueue) (c : queue_call) : option (SpscQueueStatus * SpscQueue) :=
  match c with
  | CallEnqueue data => enqueue_bytes q data
  | CallDequeue size => '(status, _, q') ← dequeue_bytes q size; Some (status, q')
  | CallPeek size => '(status, _) ← peek_bytes q size; Some (status, q)
  | CallEnqueueBulk datas => enqueue_bulk q datas
  | CallDequeueBulk sizes => '(status, _, q') ← dequeue_bulk q sizes; Some (status, q')
  end.

(** Sizes are of objects in memory; their sum does not overflow. *)
Definition queue_call_sized (c : queue_call) : Prop :=
  match c with
  | CallEnqueue _ => True
  | CallDequeue size | CallPeek size => 0 <= size
  | CallEnqueueBulk datas => lenZ (concat datas) < 2 ^ 64
  | CallDequeueBulk sizes => Forall (λ s, 0 <= s) sizes /\ foldr Z.add 0 sizes < 2 ^ 64
  end.

(** A call that asks for nothing does nothing. *)
Lemma zero_sized_calls q :
  spsc_valid q -> enqueue_bytes q [] = Some (kSizeIsZero, q) /\ dequeue_bytes q 0 = Some (kSizeIsZero, [], q) /\
  peek_bytes q 0 = Some (kSizeIsZero, []) /\
  (forall datas, lenZ (concat datas) = 0 -> enqueue_bulk q datas = Some (kSizeIsZero, q)) /\
  (forall sizes, Forall (λ s, 0 <= s) sizes -> foldr Z.add 0 sizes = 0 ->
     dequeue_bulk q sizes = Some (kSizeIsZero, [], q)).
Proof.
  intros (k & buf & W). unfold enqueue_bytes, dequeue_bytes, peek_bytes, enqueue_bulk, dequeue_bulk.
  rewrite (wf_buffer _ _ _ W). split_and!; [done | done | done | |].
  - intros datas H0. destruct (Z.eqb_spec (lenZ datas) 0); [done|].
    rewrite total_size_of_concat by lia. by rewrite H0.
  - intros sizes Hs H0. destruct (Z.eqb_spec (lenZ sizes) 0); [done|].
    assert (total_size_of sizes = 0 + foldr Z.add 0 sizes) as -> by (apply total_size_of_sum; done || lia).
    by rewrite H0.
Qed.

(** ** Properties *)

(** C10. Any sequence of [enqueue_bytes] and [dequeue_bytes] calls on a reserved queue is free of
    undefined behaviour and returns exactly the statuses and bytes of the abstract bounded
    first-in first-out queue, wrap-around of the ring and of the 64-bit indices included. *)
Theorem spsc_refines_fifo alloc n q os :
  alloc_sized alloc -> 0 <= n <= 2 ^ 63 -> reserve alloc n = Some q -> buffer_ q <> None ->
  Forall op_sized os ->
  exists res q', bq_run q os = Some (res, q') /\
    Fifo.run {| Fifo.cap := capacity_ q; Fifo.content := [] |} os = (res, bq_abs q').
Proof.
  intros Ha Hn Hr Hb Hos.
  destruct (reserve_valid alloc n q Ha Hn Hr) as [?|(Hv & Hc & _)]; [done|].
  destruct (bq_run_refines (BQ := spsc_byte_queue) os q Hv Hos) as (res & q' & Hrun & _ & Hf).
  exists res, q'. split; [done|]. rewrite <- Hf. unfold bq_abs. simpl. by rewrite Hc.
Qed.

Lemma spsc_refines_fifo_witness :
  exists q res q',
    bq_run q [Fifo.Enqueue (bs "abc"); Fifo.Dequeue 2; Fifo.Enqueue (bs "def");
              Fifo.Enqueue (bs "g"); Fifo.Dequeue 5] = Some (res, q') /\
    Fifo.run {| Fifo.cap := capacity_ q; Fifo.content := [] |}
      [Fifo.Enqueue (bs "abc"); Fifo.Dequeue 2; Fifo.Enqueue (bs "def");
       Fifo.Enqueue (bs "g"); Fifo.Dequeue 5] = (res, bq_abs q').
Proof.
  eexists. apply (spsc_refines_fifo zero_alloc 4).
  - apply zero_alloc_sized.
  - lia.
  - vm_compute. reflexivity.
  - simpl. discriminate.
  - repeat constructor.
Defined.

(** A queue without a buffer refuses every operation and stays as it is. *)
Definition refuses_all (q : SpscQueue) : Prop :=
  (forall data, enqueue_bytes q data = Some (kUninitialized, q)) /\
  (forall datas, enqueue_bulk q datas = Some (kUninitialized, q)) /\
  (forall n, dequeue_bytes q n = Some (kUninitialized, [], q)) /\
  (forall sizes, dequeue_bulk q sizes = Some (kUninitialized, [], q)) /\
  (forall n, peek_bytes q n = Some (kUninitialized, [])) /\
  (forall object, enqueue_object q object = Some (kUninitialized, q)) /\
  (forall object, dequeue_object q object = Some (kUninitialized, object, q)) /\
  (forall object, peek_object q object = Some (kUninitialized, object)).

Lemma uninitialised_refuses q : buffer_ q = None -> refuses_all q.
Proof.
  intros Hb. unfold refuses_all, enqueue_object, dequeue_object, peek_object, enqueue_bytes, enqueue_bulk,
    dequeue_bytes, dequeue_bulk, peek_bytes. rewrite Hb. split_and!; try done.
Qed.

(** C33. [reserve] asks for a capacity that is the least power of two, from 2 on, of at least the
    size wanted, and a cache line behind it. When the allocation succeeds the queue uses exactly
    that memory, is in order, holds no bytes and has that capacity; when it fails the queue is as
    it was made, and each of the eight operations, a peek included, reports [kUninitialized] and
    changes nothing. *)
Theorem reserve_capacity alloc n :
  alloc_sized alloc -> 0 <= n <= 2 ^ 63 ->
  exists k, 1 <= k /\ n <= 2 ^ k /\ (forall j, 1 <= j -> n <= 2 ^ j -> k <= j) /\
    (forall new_buffer, alloc (2 ^ k + kCacheSize) = Some new_buffer ->
      exists q, reserve alloc n = Some q /\ buffer_ q = Some new_buffer /\ spsc_valid q /\
        spsc_contents q = [] /\ capacity_ q = 2 ^ k /\ allocation_size_ q = 2 ^ k + kCacheSize) /\
    (alloc (2 ^ k + kCacheSize) = None -> reserve alloc n = Some spsc_new /\ refuses_all spsc_new).
Proof.
  intros Ha Hn. destruct (next_power_of_2_spec n Hn) as (k & Hk & Hp & Hle & Hmin).
  exists k. split; [lia|]. split; [done|]. split; [done|].
  pose proof (ring_cap_bounds k Hk) as Hc.
  assert (2 ^ k ⊕ kCacheSize = 2 ^ k + kCacheSize) as E by (apply u64_small; unfold kCacheSize; lia).
  split.
  - intros buf Hal. destruct (reserve alloc n) as [q|] eqn:Hq.
    2: { unfold reserve in Hq. rewrite Hp in Hq. cbn [mbind option_bind] in Hq. by case_match. }
    exists q. split; [done|]. destruct (reserve_valid alloc n q Ha Hn Hq) as [Hb|(Hv & Hcont & _)].
    all: unfold reserve in Hq; rewrite Hp in Hq; cbn [mbind option_bind] in Hq; rewrite E, Hal in Hq.
    all: by injection Hq as <-.
  - intros Hal. unfold reserve. rewrite Hp. cbn [mbind option_bind]. rewrite E, Hal.
    split; [done | by apply uninitialised_refuses].
Qed.

(** 100 bytes, with an allocator that has them, and with one that has nothing. *)
Lemma reserve_capacity_witness :
  (exists q, reserve zero_alloc 100 = Some q /\ capacity_ q = 128) /\
  reserve (λ _, None) 100 = Some spsc_new.
Proof.
  split.
  - destruct (reserve_capacity zero_alloc 100 zero_alloc_sized ltac:(lia)) as (k & Hk & Hle & Hmin & H & _).
    destruct (H _ eq_refl) as (q & Hq & _).
    exists q. split; [exact Hq|]. vm_compute in Hq. injection Hq as <-. reflexivity.
  - destruct (reserve_capacity (λ _, None) 100 ltac:(done) ltac:(lia)) as (k & _ & _ & _ & _ & H).
    apply (H eq_refl).
Defined.

(** A ring of four bytes whose counters are about to wrap around 2 ^ 64, with one byte waiting. *)
Definition near_wrap : SpscQueue :=
  {| buffer_ := Some (bs "wxyz"); capacity_ := 4; mask_ := 3; tail_idx_ := 2 ^ 64 - 1;
     tail_cached_ := 2 ^ 64 - 1; head_cached_snapshot_ := 2 ^ 64 - 3; head_idx_ := 2 ^ 64 - 2;
     head_cached_ := 2 ^ 64 - 2; tail_cached_snapshot_ := 2 ^ 64 - 2; allocation_size_ := 4 |}.

Lemma near_wrap_valid : spsc_valid near_wrap.
Proof.
  exists 2, (bs "wxyz").
  constructor; try reflexivity; try (split; vm_compute; discriminate); vm_compute; discriminate.
Qed.

(** C40. A bulk call moves all of its records or none. [enqueue_bulk] appends the records in order, or
    reports [kOverflow]; [dequeue_bulk] cuts the front of the queue into records of the sizes asked
    for, or reports [kUnderflow]; a call that fails leaves the bytes in the queue as they are. *)
Theorem bulk_calls_whole q datas sizes :
  spsc_valid q -> 0 < lenZ (concat datas) < 2 ^ 64 ->
  Forall (λ s, 0 <= s) sizes -> 0 < foldr Z.add 0 sizes < 2 ^ 64 ->
  (exists q', spsc_valid q' /\ capacity_ q' = capacity_ q /\
     if decide (lenZ (spsc_contents q) + lenZ (concat datas) <= capacity_ q)
     then enqueue_bulk q datas = Some (kOk, q') /\ spsc_contents q' = spsc_contents q ++ concat datas
     else enqueue_bulk q datas = Some (kOverflow, q') /\ spsc_contents q' = spsc_contents q) /\
  let total := foldr Z.add 0 sizes in
  exists q', spsc_valid q' /\ capacity_ q' = capacity_ q /\
    if decide (total <= lenZ (spsc_contents q))
    then exists records, dequeue_bulk q sizes = Some (kOk, records, q') /\
         lenZ <$> records = sizes /\ concat records = take (Z.to_nat total) (spsc_contents q) /\
         spsc_contents q' = drop (Z.to_nat total) (spsc_contents q)
    else dequeue_bulk q sizes = Some (kUnderflow, [], q') /\ spsc_contents q' = spsc_contents q.
Proof.
  intros Hv Hd Hs Hn. split; [by apply enqueue_bulk_all_or_nothing | by apply dequeue_bulk_cuts_front].
Qed.

(** C15. The invariant of the class. Every call on a valid queue, of any size down to zero, is defined,
    leaves a valid queue of the same capacity with no more bytes in it than that, reports that it is
    initialised, and when it does not report success the bytes in the queue are what they were. *)
Theorem calls_keep_valid q c :
  spsc_valid q -> queue_call_sized c ->
  exists status q', queue_run q c = Some (status, q') /\ spsc_valid q' /\ capacity_ q' = capacity_ q /\
    lenZ (spsc_contents q') <= capacity_ q' /\ status <> kUninitialized /\
    (status <> kOk -> spsc_contents q' = spsc_contents q).
Proof.
  intros Hv Hc. destruct (zero_sized_calls q Hv) as (E0 & D0 & P0 & EB0 & DB0).
  assert (forall status q', spsc_valid q' -> capacity_ q' = capacity_ q -> status <> kUninitialized ->
    (status <> kOk -> spsc_contents q' = spsc_contents q) ->
    exists st q'', Some (status, q') = Some (st, q'') /\ spsc_valid q'' /\ capacity_ q'' = capacity_ q /\
      lenZ (spsc_contents q'') <= capacity_ q'' /\ st <> kUninitialized /\
      (st <> kOk -> spsc_contents q'' = spsc_contents q)) as Hdone.
  { intros st q' Hv' Hcap Hst Hsame. exists st, q'. split_and!; try done.
    destruct Hv' as (k & buf & W). rewrite (wf_contents_length k buf q' W), (wf_capacity _ _ _ W).
    apply (wf_bounds k buf q' W). }
  destruct c as [data|n|n|datas|sizes]; cbn [queue_run queue_call_sized] in *.
  - destruct (decide (lenZ data = 0)) as [Hz|Hz].
    { apply lenZ_zero_inv in Hz as ->. rewrite E0. by apply Hdone. }
    pose proof (lenZ_nonneg data). destruct (enqueue_bytes_spec q data Hv ltac:(lia)) as (q' & Hv' & Hcap & Hq).
    case_decide; destruct Hq as [-> Hq]; by apply Hdone.
  - destruct (decide (n = 0)) as [->|Hz]; [rewrite D0; by apply Hdone|].
    destruct (dequeue_bytes_spec q n Hv ltac:(lia)) as (q' & Hv' & Hcap & Hq).
    case_decide; destruct Hq as [-> Hq]; by apply Hdone.
  - destruct (decide (n = 0)) as [->|Hz]; [rewrite P0; by apply Hdone|].
    rewrite (peek_bytes_spec q n Hv) by lia. case_decide; by apply Hdone.
  - destruct (decide (lenZ (concat datas) = 0)) as [Hz|Hz]; [rewrite (EB0 _ Hz); by apply Hdone|].
    pose proof (lenZ_nonneg (concat datas)).
    destruct (enqueue_bulk_all_or_nothing q datas Hv ltac:(lia)) as (q' & Hv' & Hcap & Hq).
    case_decide; destruct Hq as [-> Hq]; by apply Hdone.
  - destruct Hc as [Hs Hlt]. assert (0 <= foldr Z.add 0 sizes) as Hn by (clear - Hs; induction Hs; simpl; lia).
    destruct (decide (foldr Z.add 0 sizes = 0)) as [Hz|Hz]; [rewrite (DB0 _ Hs Hz); by apply Hdone|].
    destruct (dequeue_bulk_cuts_front q sizes Hv Hs ltac:(lia)) as (q' & Hv' & Hcap & Hq).
    case_decide; [destruct Hq as (ds & -> & _ & _ & Hq) | destruct Hq as [-> Hq]]; by apply Hdone.
Qed.

Lemma enqueue_bulk_all_or_nothing_witness :
  exists q', enqueue_bulk near_wrap [bs "1"; bs ""; bs "23"] = Some (kOk, q') /\
    spsc_contents q' = bs "y123".
Proof.
  destruct (enqueue_bulk_all_or_nothing near_wrap [bs "1"; bs ""; bs "23"] near_wrap_valid
    ltac:(vm_compute; split; reflexivity)) as (q' & _ & _ & H).
  exists q'. rewrite decide_True in H by (vm_compute; discriminate). exact H.
Defined.

Lemma dequeue_bulk_cuts_front_witness :
  exists q', dequeue_bulk near_wrap [0; 1] = Some (kOk, [[]; bs "y"], q') /\
    spsc_contents q' = [].
Proof.
  destruct (dequeue_bulk_cuts_front near_wrap [0; 1] near_wrap_valid
    ltac:(repeat constructor; lia) ltac:(simpl; lia)) as (q' & _ & _ & H).
  rewrite decide_True in H by (vm_compute; discriminate).
  destruct H as (ds & Hd & _ & _ & Hc). exists q'. split; [|exact Hc].
  vm_compute in Hd |- *. injection Hd as <- <-. reflexivity.
Defined.

Lemma bulk_calls_whole_witness :
  (exists q', enqueue_bulk near_wrap [bs "1"; bs ""; bs "23"] = Some (kOk, q') /\ spsc_contents q' = bs "y123") /\
  exists records q', dequeue_bulk near_wrap [0; 1] = Some (kOk, records, q') /\ lenZ <$> records = [0; 1].
Proof.
  destruct (bulk_calls_whole near_wrap [bs "1"; bs ""; bs "23"] [0; 1] near_wrap_valid
    ltac:(vm_compute; split; reflexivity) ltac:(repeat constructor; lia) ltac:(simpl; lia))
    as [(q' & _ & _ & H) (q'' & _ & _ & H'')].
  rewrite decide_True in H by (vm_compute; discriminate). rewrite decide_True in H'' by (vm_compute; discriminate).
  split; [by exists q'|]. destruct H'' as (ds & Hd & Hl & _). by exists ds, q''.
Defined.

Lemma calls_keep_valid_witness :
  exists status q', queue_run near_wrap (CallDequeueBulk [2]) = Some (status, q') /\ spsc_valid q' /\
    status = kUnderflow.
Proof.
  destruct (calls_keep_valid near_wrap (CallDequeueBulk [2]) near_wrap_valid) as (st & q' & Hr & Hv & _).
  - split; [repeat constructor; lia | reflexivity].
  - exists st, q'. split; [exact Hr|]. split; [exact Hv|]. vm_compute in Hr. by injection Hr as <- _.
Defined.
