(* ===== verification/SpmcQueue.v ===== *)
(** * The single-producer multiple-consumer queue

    src/src/logging/impl/spmc_queue.cc and src/src/include/femtolog/logging/impl/spmc_queue.h: the
    state of the class, its operations one call at a time, the refinement of the abstract byte
    queue, and the atomic steps of consumers that run at the same time. The loops that copy several
    records and the sum of their sizes are those of SpscQueue.v. *)

From S2P Require Import Prelude Ring ByteQueue SpscQueue.

Definition SpmcQueueStatus := QueueStatus.

(** [head_idx_] counts the bytes consumers have taken a ticket for, [commit_idx_] those they have
    finished with. *)
Record SpmcQueue := {
  buffer_ : option bytes;
  capacity_ : Z;
  mask_ : Z;
  tail_idx_ : Z;
  head_idx_ : Z;
  commit_idx_ : Z;
  allocation_size_ : Z;
}.

Definition spmc_new : SpmcQueue :=
  {| buffer_ := None; capacity_ := 0; mask_ := 0; tail_idx_ := 0; head_idx_ := 0;
     commit_idx_ := 0; allocation_size_ := 0 |}.

Definition spmc_next_power_of_2 (n : Z) : option Z := next_power_of_2 n.

Definition spmc_reserve (alloc : Z -> option bytes) (capacity_bytes : Z) : option SpmcQueue :=
  capacity ← spmc_next_power_of_2 capacity_bytes;
  let alloc_size := capacity ⊕ kCacheSize in
  match alloc alloc_size with
  | None => Some spmc_new
  | Some new_buffer =>
    Some {| buffer_ := Some new_buffer; capacity_ := capacity; mask_ := capacity ⊖ 1;
            tail_idx_ := 0; head_idx_ := 0; commit_idx_ := 0; allocation_size_ := alloc_size |}
  end.

Definition spmc_empty (q : SpmcQueue) : bool := head_idx_ q =? tail_idx_ q.
Definition spmc_size (q : SpmcQueue) : Z := tail_idx_ q ⊖ head_idx_ q.
Definition spmc_available_space (q : SpmcQueue) : Z := capacity_ q ⊖ spmc_size q.

(** Stores into the members. *)
Definition set_tail (q : SpmcQueue) (buf : bytes) (tail : Z) : SpmcQueue :=
  {| buffer_ := Some buf; capacity_ := capacity_ q; mask_ := mask_ q; tail_idx_ := tail;
     head_idx_ := head_idx_ q; commit_idx_ := commit_idx_ q; allocation_size_ := allocation_size_ q |}.

Definition set_indices (q : SpmcQueue) (head commit : Z) : SpmcQueue :=
  {| buffer_ := buffer_ q; capacity_ := capacity_ q; mask_ := mask_ q; tail_idx_ := tail_idx_ q;
     head_idx_ := head; commit_idx_ := commit; allocation_size_ := allocation_size_ q |}.

(** ** The producer *)

(** [capacity_ - used_space < size], against the bytes not yet committed. *)
Definition no_space (q : SpmcQueue) (size : Z) : bool :=
  let used_space := tail_idx_ q ⊖ commit_idx_ q in capacity_ q ⊖ used_space <? size.

Definition spmc_enqueue_bytes (q : SpmcQueue) (data : bytes) : option (SpmcQueueStatus * SpmcQueue) :=
  match buffer_ q with
  | None => Some (kUninitialized, q)
  | Some buffer =>
    let data_size := lenZ data in
    if data_size =? 0 then Some (kSizeIsZero, q)
    else if no_space q data_size then Some (kOverflow, q)
    else
      buf ← ring_copy_in buffer (mask_ q) (tail_idx_ q) data;
      Some (kOk, set_tail q buf (tail_idx_ q ⊕ data_size))
  end.

Definition spmc_enqueue_bulk (q : SpmcQueue) (datas : list bytes) :
    option (SpmcQueueStatus * SpmcQueue) :=
  match buffer_ q with
  | None => Some (kUninitialized, q)
  | Some buffer =>
    if lenZ datas =? 0 then Some (kSizeIsZero, q)
    else
      let total_size := total_size_of (lenZ <$> datas) in
      if total_size =? 0 then Some (kSizeIsZero, q)
      else if no_space q total_size then Some (kOverflow, q)
      else
        buf ← copy_all_in buffer (mask_ q) (tail_idx_ q) 0 datas;
        Some (kOk, set_tail q buf (tail_idx_ q ⊕ total_size))
  end.

(** ** A consumer, by atomic steps

    Each constructor is a point between two accesses to the shared indices; [read] is the copy of
    [dequeue_bytes] or of [dequeue_bulk] from a ticket on. *)
Inductive consumer_pc :=
  | CStart (size : Z)
  | CTicket (size ticket : Z)
  | CRewind (size : Z)
  | CCopy (size ticket : Z)
  | CCommit (size ticket : Z) (out : list bytes)
  | CReturn (status : SpmcQueueStatus) (out : list bytes).

(** One step. [compare_exchange_weak] may fail spuriously, but then changes nothing and is tried
    again, like a failure for the value. *)
Definition consumer_step (read : bytes -> Z -> option (list bytes)) (q : SpmcQueue)
    (pc : consumer_pc) : option (SpmcQueue * consumer_pc) :=
  match pc with
  | CStart size =>
    let ticket := head_idx_ q in
    Some (set_indices q (head_idx_ q ⊕ size) (commit_idx_ q), CTicket size ticket)
  | CTicket size ticket =>
    if tail_idx_ q ⊖ ticket <? size then Some (q, CRewind size) else Some (q, CCopy size ticket)
  | CRewind size =>
    Some (set_indices q (head_idx_ q ⊖ size) (commit_idx_ q), CReturn kUnderflow [])
  | CCopy size ticket =>
    buffer ← buffer_ q; out ← read buffer ticket; Some (q, CCommit size ticket out)
  | CCommit size ticket out =>
    if commit_idx_ q =? ticket
    then Some (set_indices q (head_idx_ q) (ticket ⊕ size), CReturn kOk out)
    else Some (q, CCommit size ticket out)
  | CReturn status out => Some (q, CReturn status out)
  end.

(** A call that runs alone: four steps when it gets what it asks for. [None] is undefined behaviour
    or a wait without an end. *)
Fixpoint consumer_run (read : bytes -> Z -> option (list bytes)) (q : SpmcQueue) (pc : consumer_pc)
    (fuel : nat) : option (SpmcQueueStatus * list bytes * SpmcQueue) :=
  match pc with
  | CReturn status out => Some (status, out, q)
  | _ =>
    match fuel with
    | O => None
    | S fuel' => '(q', pc') ← consumer_step read q pc; consumer_run read q' pc' fuel'
    end
  end.

Definition read_one (q : SpmcQueue) (size : Z) (buffer : bytes) (ticket : Z) : option (list bytes) :=
  d ← ring_copy_out buffer (mask_ q) ticket size; Some [d].

Definition read_many (q : SpmcQueue) (sizes : list Z) (buffer : bytes) (ticket : Z) :
    option (list bytes) :=
  copy_all_out buffer (mask_ q) ticket 0 sizes.

Definition spmc_dequeue_bytes (q : SpmcQueue) (data_size : Z) :
    option (SpmcQueueStatus * bytes * SpmcQueue) :=
  match buffer_ q with
  | None => Some (kUninitialized, [], q)
  | Some _ =>
    if data_size =? 0 then Some (kSizeIsZero, [], q)
    else
      '(status, out, q') ← consumer_run (read_one q data_size) q (CStart data_size) 4;
      Some (status, concat out, q')
  end.

Definition spmc_dequeue_bulk (q : SpmcQueue) (sizes : list Z) :
    option (SpmcQueueStatus * list bytes * SpmcQueue) :=
  match buffer_ q with
  | None => Some (kUninitialized, [], q)
  | Some _ =>
    if lenZ sizes =? 0 then Some (kSizeIsZero, [], q)
    else
      let total_size := total_size_of sizes in
      if total_size =? 0 then Some (kSizeIsZero, [], q)
      else consumer_run (read_many q sizes) q (CStart total_size) 4
  end.

(** [peek_bytes] looks from the commit index on. *)
Definition spmc_peek_bytes (q : SpmcQueue) (data_size : Z) : option (SpmcQueueStatus * bytes) :=
  match buffer_ q with
  | None => Some (kUninitialized, [])
  | Some buffer =>
    if data_size =? 0 then Some (kSizeIsZero, [])
    else if tail_idx_ q ⊖ commit_idx_ q <? data_size then Some (kUnderflow, [])
    else data ← ring_copy_out buffer (mask_ q) (commit_idx_ q) data_size; Some (kOk, data)
  end.

(** The overloads for an object. *)
Definition spmc_enqueue_object (q : SpmcQueue) (object : bytes) : option (SpmcQueueStatus * SpmcQueue) :=
  spmc_enqueue_bytes q object.

Definition spmc_dequeue_object (q : SpmcQueue) (object : bytes) :
    option (SpmcQueueStatus * bytes * SpmcQueue) :=
  '(status, out, q') ← spmc_dequeue_bytes q (lenZ object); Some (status, fill object out, q').

Definition spmc_peek_object (q : SpmcQueue) (object : bytes) : option (SpmcQueueStatus * bytes) :=
  '(status, out) ← spmc_peek_bytes q (lenZ object); Some (status, fill object out).

(** ** Consumers at the same time *)

(** Every consumer asks for one record; the schedule names the one that takes the next step. *)
Fixpoint race (q : SpmcQueue) (pcs : list (Z * consumer_pc)) (schedule : list nat) :
    option (SpmcQueue * list (Z * consumer_pc)) :=
  match schedule with
  | [] => Some (q, pcs)
  | i :: rest =>
    '(size, pc) ← pcs !! i;
    '(q', pc') ← consumer_step (read_one q size) q pc;
    race q' (<[i := (size, pc')]> pcs) rest
  end.

(** ** The invariant between calls *)

Record spmc_wf (k : Z) (buf : bytes) (q : SpmcQueue) : Prop := {
  mwf_k : 1 <= k <= 63;
  mwf_buffer : buffer_ q = Some buf;
  mwf_alloc : 2 ^ k <= lenZ buf;
  mwf_capacity : capacity_ q = 2 ^ k;
  mwf_mask : mask_ q = 2 ^ k - 1;
  mwf_used : tail_idx_ q ⊖ head_idx_ q <= 2 ^ k;
  mwf_head : 0 <= head_idx_ q < 2 ^ 64;
  mwf_tail : 0 <= tail_idx_ q < 2 ^ 64;
  mwf_commit : commit_idx_ q = head_idx_ q;
}.

Definition spmc_valid (q : SpmcQueue) : Prop := exists k buf, spmc_wf k buf q.

(** The bytes waiting in the queue, oldest first. *)
Definition spmc_contents (q : SpmcQueue) : bytes :=
  match buffer_ q with
  | None => []
  | Some buf => ring_slice buf (capacity_ q) (head_idx_ q) (tail_idx_ q ⊖ head_idx_ q)
  end.

#[export] Instance spmc_byte_queue : ByteQueue SpmcQueue := {
  bq_enqueue := spmc_enqueue_bytes;
  bq_dequeue := spmc_dequeue_bytes;
  bq_peek := spmc_peek_bytes;
  bq_valid := spmc_valid;
  bq_capacity := capacity_;
  bq_contents := spmc_contents;
}.

Section facts.
Context (k : Z) (buf : bytes) (q : SpmcQueue) (W : spmc_wf k buf q).
Let used := tail_idx_ q ⊖ head_idx_ q.

Lemma spmc_bounds : 0 <= used <= 2 ^ k /\ 2 <= 2 ^ k <= 2 ^ 63.
Proof.
  destruct W. subst used. pose proof (ring_cap_bounds k ltac:(lia)).
  pose proof (u64_range (tail_idx_ q - head_idx_ q)). lia.
Qed.

Lemma spmc_contents_eq : spmc_contents q = ring_slice buf (2 ^ k) (head_idx_ q) used.
Proof. destruct W as [_ Hb _ Hc]. unfold spmc_contents. by rewrite Hb, Hc. Qed.

Lemma spmc_contents_length : lenZ (spmc_contents q) = used.
Proof. rewrite spmc_contents_eq. apply ring_slice_length. pose proof spmc_bounds; lia. Qed.

Lemma no_space_spec size : 0 < size -> no_space q size = (2 ^ k <? used + size).
Proof.
  intros Hs. pose proof spmc_bounds as [Hu Hc]. destruct W. unfold no_space. subst used.
  rewrite mwf_capacity0, mwf_commit0, (u64_small (2 ^ k - _)) by lia.
  destruct (Z.ltb_spec (2 ^ k - (tail_idx_ q ⊖ head_idx_ q)) size),
    (Z.ltb_spec (2 ^ k) ((tail_idx_ q ⊖ head_idx_ q) + size)); lia.
Qed.

(** Storing the tail behind a ring that holds [data] after the waiting bytes. *)
Lemma set_tail_spec buf' data :
  lenZ buf' = lenZ buf -> used + lenZ data <= 2 ^ k ->
  ring_slice buf' (2 ^ k) (tail_idx_ q) (lenZ data) = data ->
  (forall h n, 0 <= n -> (h + n) mod 2 ^ k = tail_idx_ q mod 2 ^ k -> n + lenZ data <= 2 ^ k ->
     ring_slice buf' (2 ^ k) h n = ring_slice buf (2 ^ k) h n) ->
  let q' := set_tail q buf' (tail_idx_ q ⊕ lenZ data) in
  spmc_valid q' /\ capacity_ q' = capacity_ q /\ spmc_contents q' = spmc_contents q ++ data.
Proof.
  intros Hlen Hfit Hnew Hold. pose proof spmc_bounds as [Hu Hc].
  pose proof (lenZ_nonneg data). pose proof spmc_contents_eq as Hcont. destruct W.
  assert (Hslot : (head_idx_ q + used) mod 2 ^ k = tail_idx_ q mod 2 ^ k).
  { subst used. rewrite <- Zplus_mod_idemp_r, u64_mod_pow2 by lia.
    rewrite Zplus_mod_idemp_r. f_equal; lia. }
  assert (Hused : (tail_idx_ q ⊕ lenZ data) ⊖ head_idx_ q = used + lenZ data)
    by (rewrite u64_dist_advance_l; apply u64_small; subst used; lia).
  split; [|split; [done|]].
  - exists k, buf'. constructor; simpl; try done; try apply u64_range; rewrite ?Hused; lia.
  - rewrite Hcont. unfold spmc_contents. simpl. rewrite mwf_capacity0, Hused, ring_slice_app by lia.
    f_equal; [apply Hold; lia || done|]. by rewrite (ring_slice_mod _ _ _ (tail_idx_ q)).
Qed.

(** A consumer that runs alone: it takes the front of the queue, or leaves the queue as it was. *)
Lemma consumer_run_spec (read : bytes -> Z -> option (list bytes)) size :
  0 < size ->
  (size <= used -> exists out, read buf (head_idx_ q) = Some out) ->
  exists q' out, consumer_run read q (CStart size) 4 =
      Some (if decide (size <= used) then kOk else kUnderflow, out, q') /\
    spmc_valid q' /\ capacity_ q' = capacity_ q /\
    if decide (size <= used)
    then read buf (head_idx_ q) = Some out /\
      spmc_contents q' = drop (Z.to_nat size) (spmc_contents q)
    else out = [] /\ spmc_contents q' = spmc_contents q.
Proof.
  intros Hs Hread. pose proof spmc_bounds as [Hu Hc]. pose proof spmc_contents_eq as Hcont.
  pose proof W as []. cbn [consumer_run consumer_step mbind option_bind set_indices tail_idx_ head_idx_
    buffer_ commit_idx_]. fold used. case_decide as Hle.
  - rewrite (proj2 (Z.ltb_ge _ _)) by done.
    cbn [consumer_run consumer_step mbind option_bind set_indices tail_idx_ head_idx_ buffer_ commit_idx_].
    rewrite mwf_buffer0. destruct (Hread Hle) as [out Hout].
    cbn [consumer_run consumer_step mbind option_bind set_indices tail_idx_ head_idx_ buffer_ commit_idx_].
    rewrite Hout. cbn [consumer_run consumer_step mbind option_bind set_indices tail_idx_ head_idx_ buffer_
      commit_idx_]. rewrite mwf_commit0, Z.eqb_refl. cbn [mbind option_bind consumer_run].
    assert (Hused : tail_idx_ q ⊖ (head_idx_ q ⊕ size) = used - size)
      by (rewrite u64_dist_advance_r; apply u64_small; subst used; lia).
    eexists _, out. split; [done|]. split; [|split; [done|split; [done|]]].
    + exists k, buf. constructor; simpl; try done; try apply u64_range; rewrite ?Hused; lia.
    + rewrite Hcont. unfold spmc_contents. simpl. rewrite mwf_buffer0, mwf_capacity0, Hused.
      replace used with (size + (used - size)) at 2 by lia. rewrite ring_slice_app by lia.
      rewrite drop_app_length'; [apply ring_slice_mod, u64_mod_pow2; lia|].
      pose proof (ring_slice_length buf (2 ^ k) (head_idx_ q) size ltac:(lia)). unfold lenZ in *. lia.
  - rewrite (proj2 (Z.ltb_lt _ _)) by lia.
    cbn [consumer_run consumer_step mbind option_bind set_indices tail_idx_ head_idx_ buffer_ commit_idx_].
    rewrite u64_sub_l, Z.add_simpl_r, (u64_small (head_idx_ q)) by done.
    assert (set_indices (set_indices q (head_idx_ q ⊕ size) (commit_idx_ q)) (head_idx_ q)
      (commit_idx_ q) = q) as -> by (by destruct q).
    exists q, []. split_and!; done || by exists k, buf.
Qed.

Lemma spmc_copy_out n :
  0 <= n <= used -> ring_copy_out buf (mask_ q) (head_idx_ q) n =
    Some (take (Z.to_nat n) (spmc_contents q)).
Proof.
  intros Hn. pose proof spmc_bounds as [Hu Hc]. rewrite spmc_contents_eq. destruct W.
  rewrite mwf_mask0, ring_copy_out_spec by lia. f_equal.
  replace used with (n + (used - n)) by lia. rewrite ring_slice_app by lia.
  rewrite take_app_length'; [done|].
  pose proof (ring_slice_length buf (2 ^ k) (head_idx_ q) n ltac:(lia)). unfold lenZ in *. lia.
Qed.
End facts.

(** ** The operations refine the byte queue *)

Lemma spmc_enqueue_spec q data :
  spmc_valid q -> 0 < lenZ data ->
  exists q', spmc_valid q' /\ capacity_ q' = capacity_ q /\
    if decide (lenZ (spmc_contents q) + lenZ data <= capacity_ q)
    then spmc_enqueue_bytes q data = Some (kOk, q') /\ spmc_contents q' = spmc_contents q ++ data
    else spmc_enqueue_bytes q data = Some (kOverflow, q') /\ spmc_contents q' = spmc_contents q.
Proof.
  intros (k & buf & W) Hd. rewrite (spmc_contents_length k buf q W), (mwf_capacity _ _ _ W).
  pose proof (spmc_bounds k buf q W) as [Hu Hc].
  unfold spmc_enqueue_bytes. rewrite (mwf_buffer _ _ _ W).
  rewrite (proj2 (Z.eqb_neq _ _)), (no_space_spec k buf q W) by lia. case_decide.
  - rewrite (proj2 (Z.ltb_ge _ _)), (mwf_mask _ _ _ W) by lia.
    destruct (ring_write_slices k ltac:(apply W) buf ltac:(apply W) (tail_idx_ q) data)
      as (buf' & -> & Hlen & Hnew & Hold); [lia|]. cbn [mbind option_bind].
    destruct (set_tail_spec k buf q W buf' data Hlen) as (Hv & Hp & Hcont); [lia | done..|].
    eexists. split; [exact Hv|]. rewrite <- (mwf_capacity _ _ _ W). by split.
  - rewrite (proj2 (Z.ltb_lt _ _)) by lia. exists q. split; [by exists k, buf|].
    by rewrite (mwf_capacity _ _ _ W).
Qed.

Lemma spmc_dequeue_spec q n :
  spmc_valid q -> 0 < n ->
  exists q', spmc_valid q' /\ capacity_ q' = capacity_ q /\
    if decide (n <= lenZ (spmc_contents q))
    then spmc_dequeue_bytes q n = Some (kOk, take (Z.to_nat n) (spmc_contents q), q') /\
         spmc_contents q' = drop (Z.to_nat n) (spmc_contents q)
    else spmc_dequeue_bytes q n = Some (kUnderflow, [], q') /\ spmc_contents q' = spmc_contents q.
Proof.
  intros (k & buf & W) Hn. rewrite (spmc_contents_length k buf q W).
  unfold spmc_dequeue_bytes. rewrite (mwf_buffer _ _ _ W), (proj2 (Z.eqb_neq _ _)) by lia.
  pose proof (spmc_bounds k buf q W).
  assert (forall m, 0 <= m <= tail_idx_ q ⊖ head_idx_ q -> read_one q m buf (head_idx_ q) =
    Some [take (Z.to_nat m) (spmc_contents q)]) as Hread.
  { intros m Hm. unfold read_one. by rewrite (spmc_copy_out k buf q W) by done. }
  destruct (consumer_run_spec k buf q W (read_one q n) n Hn) as (q' & out & -> & Hv & Hp & H').
  { intros Hle. eexists. apply Hread. lia. }
  exists q'. split; [done|]. split; [done|]. cbn [mbind option_bind]. case_decide.
  - destruct H' as [Ho Hc]. rewrite Hread in Ho by lia. injection Ho as <-. simpl.
    by rewrite app_nil_r.
  - by destruct H' as [-> Hc].
Qed.

Lemma spmc_peek_spec q n :
  spmc_valid q -> 0 < n ->
  spmc_peek_bytes q n =
    if decide (n <= lenZ (spmc_contents q))
    then Some (kOk, take (Z.to_nat n) (spmc_contents q)) else Some (kUnderflow, []).
Proof.
  intros (k & buf & W) Hn. rewrite (spmc_contents_length k buf q W).
  unfold spmc_peek_bytes. rewrite (mwf_buffer _ _ _ W), (proj2 (Z.eqb_neq _ _)) by lia.
  rewrite (mwf_commit _ _ _ W). destruct (Z.ltb_spec (tail_idx_ q ⊖ head_idx_ q) n).
  - by rewrite decide_False by lia.
  - rewrite decide_True by lia. by rewrite (spmc_copy_out k buf q W) by lia.
Qed.

#[export] Instance spmc_byte_queue_laws : ByteQueueLaws SpmcQueue.
Proof.
  split; simpl.
  - intros q (k & buf & W). rewrite (spmc_contents_length k buf q W), (mwf_capacity _ _ _ W).
    pose proof (spmc_bounds k buf q W). lia.
  - intros q d (k & buf & W) Hd. unfold spmc_enqueue_bytes. by rewrite (mwf_buffer _ _ _ W), Hd.
  - intros q d Hv Hd Hfit. destruct (spmc_enqueue_spec q d Hv Hd) as (q' & ? & ? & H'). simpl in *.
    rewrite decide_True in H' by lia. destruct H'. by exists q'.
  - intros q d Hv Hd Hfull. destruct (spmc_enqueue_spec q d Hv Hd) as (q' & ? & ? & H'). simpl in *.
    rewrite decide_False in H' by lia. destruct H'. by exists q'.
  - intros q n Hv Hn. destruct (spmc_dequeue_spec q n Hv ltac:(lia)) as (q' & ? & ? & H').
    rewrite decide_True in H' by lia. destruct H'. by exists q'.
  - intros q n Hv Hn Hs. destruct (spmc_dequeue_spec q n Hv Hn) as (q' & ? & ? & H').
    rewrite decide_False in H' by lia. destruct H'. by exists q'.
  - intros q n Hv Hn. rewrite spmc_peek_spec by (done || lia). by rewrite decide_True by lia.
  - intros q n Hv Hn Hs. rewrite spmc_peek_spec by done. by rewrite decide_False by lia.
Qed.

(** ** Bulk operations *)

(** [enqueue_bulk] stores all the records or none. *)
Lemma spmc_enqueue_bulk_spec q datas :
  spmc_valid q -> 0 < lenZ (concat datas) < 2 ^ 64 ->
  exists q', spmc_valid q' /\ capacity_ q' = capacity_ q /\
    if decide (lenZ (spmc_contents q) + lenZ (concat datas) <= capacity_ q)
    then spmc_enqueue_bulk q datas = Some (kOk, q') /\
         spmc_contents q' = spmc_contents q ++ concat datas
    else spmc_enqueue_bulk q datas = Some (kOverflow, q') /\ spmc_contents q' = spmc_contents q.
Proof.
  intros (k & buf & W) Hd. rewrite (spmc_contents_length k buf q W), (mwf_capacity _ _ _ W).
  pose proof (spmc_bounds k buf q W) as [Hu Hc].
  unfold spmc_enqueue_bulk. rewrite (mwf_buffer _ _ _ W).
  destruct (Z.eqb_spec (lenZ datas) 0) as [H0|_].
  { apply lenZ_zero_inv in H0. subst datas. unfold lenZ in Hd. simpl in Hd. lia. }
  rewrite total_size_of_concat, (proj2 (Z.eqb_neq _ _)), (no_space_spec k buf q W) by lia.
  case_decide.
  - rewrite (proj2 (Z.ltb_ge _ _)), (mwf_mask _ _ _ W) by lia.
    destruct (copy_all_in_spec k datas ltac:(apply W) buf (tail_idx_ q) 0)
      as (buf' & -> & Hlen & Hnew & Hold); [apply W | lia |]. cbn [mbind option_bind].
    rewrite Z.add_0_r in Hnew, Hold.
    destruct (set_tail_spec k buf q W buf' (concat datas) Hlen) as (Hv & Hp & Hcont); [lia | done..|].
    eexists. split; [exact Hv|]. rewrite <- (mwf_capacity _ _ _ W). by split.
  - rewrite (proj2 (Z.ltb_lt _ _)) by lia. exists q. split; [by exists k, buf|].
    by rewrite (mwf_capacity _ _ _ W).
Qed.

(** [dequeue_bulk] cuts the front of the queue into records, or takes none. *)
Lemma spmc_dequeue_bulk_spec q sizes :
  spmc_valid q -> Forall (λ s, 0 <= s) sizes -> 0 < foldr Z.add 0 sizes < 2 ^ 64 ->
  let total := foldr Z.add 0 sizes in
  exists q', spmc_valid q' /\ capacity_ q' = capacity_ q /\
    if decide (total <= lenZ (spmc_contents q))
    then exists datas, spmc_dequeue_bulk q sizes = Some (kOk, datas, q') /\
         lenZ <$> datas = sizes /\ concat datas = take (Z.to_nat total) (spmc_contents q) /\
         spmc_contents q' = drop (Z.to_nat total) (spmc_contents q)
    else spmc_dequeue_bulk q sizes = Some (kUnderflow, [], q') /\ spmc_contents q' = spmc_contents q.
Proof.
  intros (k & buf & W) Hs Hn total. rewrite (spmc_contents_length k buf q W).
  pose proof (spmc_bounds k buf q W) as [Hu Hc].
  unfold spmc_dequeue_bulk. rewrite (mwf_buffer _ _ _ W).
  destruct (Z.eqb_spec (lenZ sizes) 0) as [H0|_].
  { apply lenZ_zero_inv in H0. subst sizes. simpl in Hn. lia. }
  assert (Ht : total_size_of sizes = total) by (apply (total_size_of_sum sizes 0); try done; lia).
  rewrite Ht, (proj2 (Z.eqb_neq _ _)) by lia.
  assert (total <= 2 ^ k -> exists out, read_many q sizes buf (head_idx_ q) = Some out /\
    lenZ <$> out = sizes /\ concat out = ring_slice buf (2 ^ k) (head_idx_ q) total) as Hread.
  { intros Hle. unfold read_many. rewrite (mwf_mask _ _ _ W).
    destruct (copy_all_out_spec k buf sizes ltac:(apply W) ltac:(apply W) Hs (head_idx_ q) 0)
      as (ds & Hds & Hsz & Hcat); [done|]. rewrite Z.add_0_r in Hcat. eauto. }
  destruct (consumer_run_spec k buf q W (read_many q sizes) total) as (q' & out & -> & Hv & Hp & H');
    [lia | intros Hle; destruct Hread as (out & ? & _); [lia | eauto] |].
  exists q'. split; [done|]. split; [done|]. case_decide; [|by destruct H' as [-> ?]].
  destruct H' as [Ho Hcont]. destruct Hread as (out' & Ho' & Hsz & Hcat); [lia|].
  rewrite Ho in Ho'. injection Ho' as <-. exists out. split_and!; try done.
  pose proof (spmc_copy_out k buf q W total ltac:(lia)) as Hf.
  rewrite (mwf_mask _ _ _ W), ring_copy_out_spec in Hf by (try apply W; lia). by injection Hf as <-.
Qed.

(** ** Reservation *)

Lemma spmc_reserve_valid alloc n q :
  alloc_sized alloc -> 0 <= n <= 2 ^ 63 -> spmc_reserve alloc n = Some q ->
  buffer_ q = None \/ (spmc_valid q /\ spmc_contents q = [] /\ n <= capacity_ q).
Proof.
  intros Ha Hn. destruct (next_power_of_2_spec n Hn) as (k & Hk & Hp & Hle & Hmin).
  unfold spmc_reserve, spmc_next_power_of_2. rewrite Hp. simpl. pose proof (ring_cap_bounds k Hk).
  destruct (alloc (2 ^ k ⊕ kCacheSize)) as [buf|] eqn:Hal; intros [= <-]; [right|by left].
  apply Ha in Hal; [|apply u64_range]. unfold kCacheSize in Hal. rewrite u64_small in Hal by lia.
  assert (W : spmc_wf k buf {| buffer_ := Some buf; capacity_ := 2 ^ k; mask_ := 2 ^ k ⊖ 1;
    tail_idx_ := 0; head_idx_ := 0; commit_idx_ := 0; allocation_size_ := 2 ^ k ⊕ kCacheSize |}).
  { constructor; simpl; try done; try lia.
    - apply u64_small; lia.
    - rewrite Z.sub_diag, u64_small by lia. lia. }
  split; [by eexists _, _|]. split; [|done].
  apply lenZ_zero_inv. rewrite (spmc_contents_length k buf _ W). done.
Qed.

(** ** Properties *)

(** C14. One call at a time, the queue is the abstract bounded first-in first-out queue: any
    sequence of [enqueue_bytes] and [dequeue_bytes] calls on a reserved queue is free of undefined
    behaviour, no call waits for ever, and statuses and bytes are those of the abstract queue. *)
Theorem spmc_refines_fifo alloc n q os :
  alloc_sized alloc -> 0 <= n <= 2 ^ 63 -> spmc_reserve alloc n = Some q -> buffer_ q <> None ->
  Forall op_sized os ->
  exists res q', bq_run (BQ := spmc_byte_queue) q os = Some (res, q') /\
    Fifo.run {| Fifo.cap := capacity_ q; Fifo.content := [] |} os =
      (res, bq_abs (BQ := spmc_byte_queue) q').
Proof.
  intros Ha Hn Hr Hb Hos.
  destruct (spmc_reserve_valid alloc n q Ha Hn Hr) as [?|(Hv & Hc & _)]; [done|].
  destruct (bq_run_refines (BQ := spmc_byte_queue) os q Hv Hos) as (res & q' & Hrun & _ & Hf).
  exists res, q'. split; [done|]. rewrite <- Hf. unfold bq_abs. simpl. by rewrite Hc.
Qed.

Lemma spmc_refines_fifo_witness :
  exists q res q',
    bq_run (BQ := spmc_byte_queue) q
      [Fifo.Enqueue (bs "abc"); Fifo.Dequeue 2; Fifo.Enqueue (bs "def"); Fifo.Dequeue 9] = Some (res, q') /\
    Fifo.run {| Fifo.cap := capacity_ q; Fifo.content := [] |}
      [Fifo.Enqueue (bs "abc"); Fifo.Dequeue 2; Fifo.Enqueue (bs "def"); Fifo.Dequeue 9] =
      (res, bq_abs (BQ := spmc_byte_queue) q').
Proof.
  eexists. apply (spmc_refines_fifo zero_alloc 4).
  - apply zero_alloc_sized.
  - lia.
  - vm_compute. reflexivity.
  - simpl. discriminate.
  - repeat constructor.
Defined.

(** A wrapped counter that moves by less than a full turn is not where it was. *)
Lemma u64_add_moves h a : 0 <= h < 2 ^ 64 -> 0 < a < 2 ^ 64 -> h ⊕ a <> h.
Proof.
  intros Hh Ha E. destruct (decide (h + a < 2 ^ 64)).
  - rewrite u64_small in E by lia. lia.
  - assert (h ⊕ a = h + a - 2 ^ 64); [|lia]. symmetry. apply Z.mod_unique with 1; lia.
Qed.

(** Nobody moves when everybody has returned or waits for another ticket than the commit index. *)
Definition stuck (q : SpmcQueue) (pc : consumer_pc) : Prop :=
  match pc with
  | CReturn _ _ => True
  | CCommit _ ticket _ => commit_idx_ q <> ticket
  | _ => False
  end.

Lemma race_stuck q pcs schedule :
  Forall (fun p => stuck q p.2) pcs -> Forall (fun i => i < length pcs)%nat schedule ->
  race q pcs schedule = Some (q, pcs).
Proof.
  intros Hpcs. induction 1 as [|i schedule Hi _ IH]; [done|]. cbn [race].
  destruct (pcs !! i) as [[size pc]|] eqn:E; [|by apply lookup_ge_None in E; lia].
  rewrite Forall_lookup in Hpcs. specialize (Hpcs i _ E). simpl in Hpcs.
  assert (consumer_step (read_one q size) q pc = Some (q, pc)) as Hstep.
  { destruct pc; simpl in *; try done. by rewrite (proj2 (Z.eqb_neq _ _)). }
  cbn [mbind option_bind]. rewrite Hstep. cbn [mbind option_bind]. by rewrite list_insert_id.
Qed.

(** Runs the steps of a race up to the next comparison. *)
Ltac race_steps :=
  cbn [race lookup list_lookup insert list_insert mbind option_bind consumer_step set_indices
    tail_idx_ head_idx_ buffer_ commit_idx_ capacity_ mask_].

(** C35. Two consumers at once can break the queue. When one asks for more than is waiting, its
    ticket moves the head past the tail until it rewinds; a second consumer that takes its ticket in
    between sees [tail - ticket] wrap around, takes it for enough, and copies bytes that were never
    enqueued. It then waits for the commit index to reach its ticket; the first consumer returns
    without committing, so the second waits for ever, and so does a third that comes after the
    rewinding and finds the bytes it asked for. *)
Theorem spmc_ticket_race q a b c :
  spmc_valid q -> lenZ (spmc_contents q) < a < 2 ^ 64 -> 0 < b -> 0 < c ->
  a - lenZ (spmc_contents q) + b <= 2 ^ 64 -> b + c <= lenZ (spmc_contents q) ->
  let beyond := ring_slice (default [] (buffer_ q)) (capacity_ q) (head_idx_ q ⊕ a) b in
  exists q2 out,
    let final := [(a, CReturn kUnderflow []); (b, CCommit b (head_idx_ q ⊕ a) [beyond]);
      (c, CCommit c (head_idx_ q ⊕ b) out)] in
    race q [(a, CStart a); (b, CStart b); (c, CStart c)] [0; 1; 0; 1; 1; 0; 2; 2; 2]%nat =
      Some (q2, final) /\
    forall schedule, Forall (fun i => i < 3)%nat schedule -> race q2 final schedule = Some (q2, final).
Proof.
  intros (k & buf & W). rewrite (spmc_contents_length k buf q W). intros Ha Hb Hc Hab Hbc beyond.
  pose proof (spmc_bounds k buf q W) as [Hu Hcap]. pose proof W as [Hk Hbuf Halloc Hcp Hm Hused Hh _ Hcm].
  set (used := tail_idx_ q ⊖ head_idx_ q) in *.
  assert ((tail_idx_ q ⊖ head_idx_ q <? a) = true) as Ea by (apply Z.ltb_lt; fold used; lia).
  assert ((tail_idx_ q ⊖ (head_idx_ q ⊕ a) <? b) = false) as Eb.
  { rewrite u64_dist_advance_r. fold used. apply Z.ltb_ge.
    replace (used ⊖ a) with (used - a + 2 ^ 64); [lia|]. apply Z.mod_unique with (-1); lia. }
  assert ((head_idx_ q ⊕ a ⊕ b) ⊖ a = head_idx_ q ⊕ b) as Eh.
  { rewrite u64_add_l, u64_sub_l. f_equal. lia. }
  assert ((tail_idx_ q ⊖ (head_idx_ q ⊕ b) <? c) = false) as Ec.
  { rewrite u64_dist_advance_r. fold used. apply Z.ltb_ge. rewrite u64_small by lia. lia. }
  assert (forall q' h n, mask_ q' = mask_ q -> 0 <= n <= 2 ^ k ->
    read_one q' n buf h = Some [ring_slice buf (2 ^ k) h n]) as Hr.
  { intros q' h n E Hn. unfold read_one. by rewrite E, Hm, ring_copy_out_spec by done. }
  subst beyond. rewrite Hbuf, Hcp. cbn [default from_option id].
  eexists (set_indices q _ (commit_idx_ q)), _. cbn zeta. split.
  - race_steps. rewrite Ea. race_steps. rewrite Eb. race_steps. rewrite Hbuf. race_steps.
    rewrite Hr by (done || lia). race_steps. rewrite Eh. race_steps. rewrite Ec. race_steps.
    rewrite Hbuf. race_steps. rewrite Hr by (done || lia). race_steps. reflexivity.
  - intros schedule Hs. apply race_stuck; [|done].
    repeat constructor; simpl; rewrite Hcm; apply not_eq_sym, u64_add_moves; lia.
Qed.

(** Two of four bytes are waiting. *)
Definition two_waiting : SpmcQueue :=
  {| buffer_ := Some (bs "wxyz"); capacity_ := 4; mask_ := 3; tail_idx_ := 2; head_idx_ := 0;
     commit_idx_ := 0; allocation_size_ := 4 |}.

Lemma two_waiting_valid : spmc_valid two_waiting.
Proof.
  exists 2, (bs "wxyz").
  constructor; try reflexivity; try (split; vm_compute; discriminate); try (vm_compute; discriminate).
  all: split; vm_compute; [discriminate | reflexivity].
Qed.

Lemma spmc_ticket_race_witness :
  exists q2 out, race two_waiting [(3, CStart 3); (1, CStart 1); (1, CStart 1)]
      [0; 1; 0; 1; 1; 0; 2; 2; 2]%nat =
    Some (q2, [(3, CReturn kUnderflow []); (1, CCommit 1 3 [bs "z"]); (1, CCommit 1 1 out)]) /\
    lenZ (spmc_contents two_waiting) = 2.
Proof.
  destruct (spmc_ticket_race two_waiting 3 1 1 two_waiting_valid) as (q2 & out & H & _).
  - vm_compute. split; reflexivity.
  - lia.
  - lia.
  - vm_compute. discriminate.
  - vm_compute. discriminate.
  - exists q2, out. split; [exact H | reflexivity].
Defined.
