(* ===== verification/Memory.v ===== *)
(** * The memory of a queue

    src/src/include/femtolog/core/base/memory_util.h, and what [reserve] and the destructors of the
    two queues do with the memory they get. The allocator of the system is the class [Allocator],
    with the documented behaviour of [posix_memalign] and [free] as its laws. *)

From stdpp Require Import gmap.
From S2P Require Import Prelude Ring ByteQueue SpscQueue SpmcQueue.

(** ** The allocator *)

(** [posix_memalign] gives its return code, the pointer it stores and the heap after it; [free] is
    [None] where it is undefined. [live] has the blocks that are in use with their sizes, and [block]
    the bytes of a block, which are not initialised. *)
Class Allocator (H : Type) := {
  posix_memalign : H -> Z -> Z -> Z * Z * H;
  free : H -> Z -> option H;
  live : H -> gmap Z Z;
  block : H -> Z -> Z -> bytes;
}.

Definition valid_alignment (a : Z) : Prop := exists k, 3 <= k /\ a = 2 ^ k.

(** The [n] bytes at [p] are no block's. *)
Definition apart (m : gmap Z Z) (p n : Z) : Prop :=
  m !! p = None /\ forall p' n', m !! p' = Some n' -> p + n <= p' \/ p' + n' <= p.

Class AllocatorLaws (H : Type) {A : Allocator H} : Prop := {
  memalign_fails h a n rc p h' : posix_memalign h a n = (rc, p, h') -> rc <> 0 -> live h' = live h;
  memalign_bad_alignment h a n rc p h' :
    posix_memalign h a n = (rc, p, h') -> ~ valid_alignment a -> rc <> 0;
  memalign_gives h a n p h' : posix_memalign h a n = (0, p, h') -> 0 < n ->
    p <> 0 /\ apart (live h) p n /\ p mod a = 0 /\ live h' = <[p := n]> (live h);
  free_null h : free h 0 = Some h;
  free_live h p n : p <> 0 -> live h !! p = Some n ->
    exists h', free h p = Some h' /\ live h' = delete p (live h);
  block_size h p n : 0 <= n -> lenZ (block h p n) = n;
}.

(** ** A queue and its memory

    [buffer] and [deleter] are the members [buffer_] and [buffer_deleter_] as pointers. *)
Record owned (Q : Type) := { queue : Q; buffer : Z; deleter : Z }.
Arguments queue {Q}. Arguments buffer {Q}. Arguments deleter {Q}. Arguments Build_owned {Q}.

Section memory.
Context {H : Type} {A : Allocator H}.

(** [nullptr] is 0. *)
Definition aligned_alloc_wrapper (h : H) (alignment size : Z) : Z * H :=
  let '(rc, ptr, h') := posix_memalign h alignment size in
  if negb (rc =? 0) then (0, h') else (ptr, h').

Definition aligned_free_wrapper (h : H) (ptr : Z) : option H := free h ptr.

(** [AlignedDeleter::operator()]. *)
Definition aligned_deleter (h : H) (ptr : Z) : option H := aligned_free_wrapper h ptr.

(** [reset] and the destructor of a [std::unique_ptr] with this deleter. *)
Definition unique_reset (h : H) (held ptr : Z) : option (Z * H) :=
  if held =? 0 then Some (ptr, h) else h' ← aligned_deleter h held; Some (ptr, h').

(** What [reserve] of either queue makes of its members is [reserve_members]; it takes the block it
    is given, or none. *)
Definition reserve_owned {Q : Type} (reserve_members : (Z -> option bytes) -> Z -> option Q)
    (h : H) (o : owned Q) (capacity_bytes : Z) : option (owned Q * H) :=
  capacity ← next_power_of_2 capacity_bytes;
  let alloc_size := capacity ⊕ kCacheSize in
  let '(new_buffer, h1) := aligned_alloc_wrapper h kCacheSize alloc_size in
  if new_buffer =? 0 then
    '(d, h2) ← unique_reset h1 (deleter o) 0;
    q ← reserve_members (λ _, None) capacity_bytes;
    Some (Build_owned q 0 d, h2)
  else
    '(d, h2) ← unique_reset h1 (deleter o) new_buffer;
    q ← reserve_members (λ n, Some (block h1 new_buffer n)) capacity_bytes;
    Some (Build_owned q new_buffer d, h2).

Definition new_owned {Q : Type} (q : Q) : owned Q := Build_owned q 0 0.

Definition destroy {Q : Type} (h : H) (o : owned Q) : option H := snd <$> unique_reset h (deleter o) 0.

(** Any number of calls of [reserve]. *)
Fixpoint reserve_all {Q : Type} (reserve_members : (Z -> option bytes) -> Z -> option Q)
    (h : H) (o : owned Q) (sizes : list Z) : option (owned Q * H) :=
  match sizes with
  | [] => Some (o, h)
  | n :: rest => '(o', h') ← reserve_owned reserve_members h o n; reserve_all reserve_members h' o' rest
  end.

(** ** Ownership *)

Context {AL : AllocatorLaws H}.

(** The queue holds its buffer, a block of [n] bytes, and nothing else; [others] is what the rest of
    the program holds. *)
Definition holding (others : gmap Z Z) (p n : Z) : gmap Z Z :=
  if decide (p = 0) then others else <[p := n]> others.

Record owns {Q : Type} (others : gmap Z Z) (h : H) (o : owned Q) (n : Z) : Prop := {
  owns_buffer : buffer o = deleter o;
  owns_live : live h = holding others (buffer o) n;
  owns_apart : buffer o <> 0 -> apart others (buffer o) n;
  owns_aligned : buffer o mod kCacheSize = 0;
}.

Lemma alignment_valid : valid_alignment kCacheSize.
Proof. exists 6. split; [lia | reflexivity]. Qed.

(** What is held is freed once. *)
Lemma unique_reset_owned h others held n p :
  live h = holding others held n -> (held <> 0 -> others !! held = None) ->
  exists h', unique_reset h held p = Some (p, h') /\ live h' = others.
Proof.
  unfold holding. intros Hl Hn. unfold unique_reset. case_decide as Hd.
  - subst. exists h. by split.
  - rewrite (proj2 (Z.eqb_neq _ _)) by done.
    destruct (free_live h held n Hd) as (h' & Hf & Hl'); [by rewrite Hl, lookup_insert_eq|].
    unfold aligned_deleter, aligned_free_wrapper. rewrite Hf. exists h'. split; [done|].
    rewrite Hl', Hl, delete_insert_id; auto.
Qed.

Lemma destroy_owned {Q : Type} others h (o : owned Q) n :
  owns others h o n -> exists h', destroy h o = Some h' /\ live h' = others.
Proof.
  intros [Hb Hl Hn _]. rewrite Hb in *. unfold destroy.
  destruct (unique_reset_owned h others (deleter o) n 0 Hl) as (h' & -> & ?); [by intros [? _]%Hn | by exists h'].
Qed.

(** The two ways [aligned_alloc_wrapper] can end. *)
Lemma alloc_wrapper_ok h n p h' :
  0 < n -> aligned_alloc_wrapper h kCacheSize n = (p, h') ->
  p = 0 /\ live h' = live h \/
  p <> 0 /\ apart (live h) p n /\ p mod kCacheSize = 0 /\ live h' = <[p := n]> (live h).
Proof.
  intros Hn. unfold aligned_alloc_wrapper. destruct (posix_memalign h kCacheSize n) as [[rc q] h1] eqn:E.
  destruct (Z.eqb_spec rc 0) as [->|Hrc]; cbn; intros [= <- <-].
  - right. by apply (memalign_gives h kCacheSize n).
  - left. split; [done|]. by eapply memalign_fails.
Qed.

(** What is apart from all that is held is apart from the others, and leaves what is held apart. *)
Lemma apart_holding others held n p m :
  0 < n -> 0 < m -> (held <> 0 -> apart others held n) -> apart (holding others held n) p m ->
  apart others p m /\ <[p := m]> (holding others held n) = holding (<[p := m]> others) held n /\
  (held <> 0 -> <[p := m]> others !! held = None).
Proof.
  intros Hn Hm Hh. unfold holding. case_decide as Hd; [done|]. destruct (Hh Hd) as [Hnone _].
  intros [Hp Ha]. apply lookup_insert_None in Hp as [Hp Hne]. split_and!.
  - split; [done|]. intros q k Hq. apply (Ha q k). rewrite lookup_insert_ne; [done|]. intros ->. congruence.
  - by apply insert_insert_ne.
  - intros _. by rewrite lookup_insert_ne.
Qed.

(** What [reserve] leaves of the members, and of the memory: none, or a block of the right size. *)
Definition reserved {Q : Type} (reserve_members : (Z -> option bytes) -> Z -> option Q) n (others : gmap Z Z)
    (h : H) (o : owned Q) : Prop :=
  exists cap, next_power_of_2 n = Some cap /\ 2 <= cap <= 2 ^ 63 /\ owns others h o (cap + kCacheSize) /\
    (buffer o = 0 /\ reserve_members (λ _, None) n = Some (queue o) \/
     buffer o <> 0 /\ exists h1, reserve_members (λ m, Some (block h1 (buffer o) m)) n = Some (queue o)).

Lemma reserve_owned_ok {Q : Type} reserve_members others h (o : owned Q) size n :
  owns others h o size -> 0 < size -> 0 <= n <= 2 ^ 63 ->
  (forall alloc, exists q, reserve_members alloc n = Some q) ->
  exists o' h', reserve_owned reserve_members h o n = Some (o', h') /\ reserved reserve_members n others h' o'.
Proof.
  intros [Hb Hl Hn Ha] Hpos0 Hsz Htotal. unfold reserve_owned, reserved.
  destruct (next_power_of_2_spec n Hsz) as (k & Hk & -> & _). cbn [mbind option_bind].
  pose proof (ring_cap_bounds k Hk) as Hc. rewrite u64_small by (unfold kCacheSize; lia).
  set (sz := 2 ^ k + kCacheSize). assert (0 < sz) as Hpos by (unfold sz, kCacheSize; lia).
  destruct (aligned_alloc_wrapper h kCacheSize sz) as [p h1] eqn:E. rewrite Hb in *.
  destruct (alloc_wrapper_ok _ _ _ _ Hpos E) as [[-> Hl1]|(Hp & Hfresh & Hal & Hl1)].
  - destruct (unique_reset_owned h1 others (deleter o) size 0) as (h2 & -> & Hl2);
      [by rewrite Hl1 | by intros [? _]%Hn |].
    destruct (Htotal (λ _, None)) as [q Hq]. rewrite Hq. cbn. eexists _, h2. split; [done|].
    exists (2 ^ k). split_and!; [done | lia | lia | by constructor | by left].
  - rewrite (proj2 (Z.eqb_neq _ _)) by done. rewrite Hl in Hfresh, Hl1.
    destruct (apart_holding _ _ _ _ _ Hpos0 Hpos Hn Hfresh) as (Hap & Hsw & Hno). rewrite Hsw in Hl1.
    destruct (unique_reset_owned h1 (<[p := sz]> others) (deleter o) size p Hl1 Hno) as (h2 & -> & Hl2).
    destruct (Htotal (λ m, Some (block h1 p m))) as [q Hq]. cbn [mbind option_bind]. rewrite Hq. cbn.
    eexists _, h2. split; [done|]. exists (2 ^ k). split_and!; [done | lia | lia | | right; split; [done | by exists h1]].
    constructor; cbn; try done. unfold holding. by rewrite decide_False.
Qed.

Lemma reserve_all_ok {Q : Type} reserve_members others n sizes : forall h (o : owned Q) size,
  owns others h o size -> 0 < size -> Forall (λ m, 0 <= m <= 2 ^ 63) (sizes ++ [n]) ->
  (forall alloc m, 0 <= m <= 2 ^ 63 -> exists q, reserve_members alloc m = Some q) ->
  exists o' h', reserve_all reserve_members h o (sizes ++ [n]) = Some (o', h') /\
    reserved reserve_members n others h' o'.
Proof.
  induction sizes as [|m sizes IH]; intros h o size Ho Hs0 Hs Ht; cbn [app reserve_all];
    inversion_clear Hs as [|? ? Hm Hs'];
    destruct (reserve_owned_ok reserve_members others h o size _ Ho Hs0 Hm) as (o' & h' & -> & Hr);
    [by intros; apply Ht | | by intros; apply Ht |]; cbn [mbind option_bind].
  - by exists o', h'.
  - destruct Hr as (cap & _ & Hc & Ho' & _). apply (IH h' o' (cap + kCacheSize)); try done. unfold kCacheSize. lia.
Qed.

(** What a queue holds, [h] being the heap before it was made and [h1] the heap now. *)
Definition holds {Q : Type} (size : Q -> Z) (valid : Q -> Prop) (h h1 : H) (o : owned Q) : Prop :=
  buffer o = 0 /\ live h1 = live h \/
  buffer o <> 0 /\ apart (live h) (buffer o) (size (queue o)) /\ buffer o mod kCacheSize = 0 /\
    live h1 = <[buffer o := size (queue o)]> (live h) /\ valid (queue o).

Lemma reserve_total alloc n : 0 <= n <= 2 ^ 63 -> exists q, reserve alloc n = Some q.
Proof.
  intros Hn. destruct (next_power_of_2_spec n Hn) as (k & _ & E & _). unfold reserve. rewrite E. cbn [mbind option_bind].
  case_match; by eexists.
Qed.

Lemma spmc_reserve_total alloc n : 0 <= n <= 2 ^ 63 -> exists q, spmc_reserve alloc n = Some q.
Proof.
  intros Hn. destruct (next_power_of_2_spec n Hn) as (k & _ & E & _). unfold spmc_reserve, spmc_next_power_of_2. rewrite E. cbn [mbind option_bind].
  case_match; by eexists.
Qed.

Lemma block_alloc_sized h p : alloc_sized (λ m, Some (block h p m)).
Proof. intros m b Hm [= <-]. by apply block_size. Qed.

Lemma new_owns {Q : Type} h (q : Q) : owns (live h) h (new_owned q) 1.
Proof. by constructor. Qed.

(** The size of the block is the one the queue keeps. *)
Lemma reserve_size alloc n q :
  reserve alloc n = Some q -> SpscQueue.buffer_ q <> None ->
  next_power_of_2 n = Some (SpscQueue.capacity_ q) /\
  SpscQueue.allocation_size_ q = SpscQueue.capacity_ q ⊕ kCacheSize.
Proof. unfold reserve. intros Hr Hb. bind_inv Hr. case_match; by simplify_eq/=. Qed.

Lemma spmc_reserve_size alloc n q :
  spmc_reserve alloc n = Some q -> buffer_ q <> None ->
  next_power_of_2 n = Some (capacity_ q) /\ allocation_size_ q = capacity_ q ⊕ kCacheSize.
Proof. unfold spmc_reserve, spmc_next_power_of_2. intros Hr Hb. bind_inv Hr. case_match; by simplify_eq/=. Qed.

Lemma spsc_valid_buffer q : spsc_valid q -> SpscQueue.buffer_ q <> None.
Proof. intros (k & buf & W). by rewrite (wf_buffer _ _ _ W). Qed.

Lemma spmc_valid_buffer q : spmc_valid q -> buffer_ q <> None.
Proof. intros (k & buf & W). by rewrite (mwf_buffer _ _ _ W). Qed.

Lemma reserved_holds {Q : Type} reserve_members size (valid : Q -> Prop) h h1 o n :
  reserved reserve_members n (live h) h1 o ->
  (forall h0 cap, next_power_of_2 n = Some cap -> 2 <= cap <= 2 ^ 63 ->
     reserve_members (λ m, Some (block h0 (buffer o) m)) n = Some (queue o) ->
     size (queue o) = cap + kCacheSize /\ valid (queue o)) ->
  holds size valid h h1 o.
Proof.
  intros (cap & Hn & Hc & [_ Hl Ha Hal] & Hq) Hv. unfold holds, holding in *. destruct Hq as [[Hb _]|[Hb [h0 Hq]]].
  - left. by rewrite decide_True in Hl.
  - right. destruct (Hv h0 cap Hn Hc Hq) as [-> ?]. rewrite decide_False in Hl by done. auto.
Qed.

(** C17. The memory of the queues. However often [reserve] is called, whether the allocator gives the
    memory or not: the old buffer is freed once, the size asked for does not wrap around, the queue
    holds exactly the buffer it uses, aligned to a cache line, with a cache line more than its
    capacity and apart from what was allocated before, and its destructor leaves the heap as it was. *)
Theorem buffers_freed_once h sizes n :
  Forall (λ m, 0 <= m <= 2 ^ 63) (sizes ++ [n]) ->
  (exists o h1 h2, reserve_all reserve h (new_owned spsc_new) (sizes ++ [n]) = Some (o, h1) /\
     holds (λ q, SpscQueue.capacity_ q + kCacheSize)
       (λ q, spsc_valid q /\ spsc_contents q = [] /\ n <= SpscQueue.capacity_ q /\
             SpscQueue.allocation_size_ q = SpscQueue.capacity_ q + kCacheSize) h h1 o /\
     destroy h1 o = Some h2 /\ live h2 = live h) /\
  (exists o h1 h2, reserve_all spmc_reserve h (new_owned spmc_new) (sizes ++ [n]) = Some (o, h1) /\
     holds (λ q, capacity_ q + kCacheSize)
       (λ q, spmc_valid q /\ spmc_contents q = [] /\ n <= capacity_ q /\
             allocation_size_ q = capacity_ q + kCacheSize) h h1 o /\
     destroy h1 o = Some h2 /\ live h2 = live h).
Proof.
  intros Hs. assert (0 <= n <= 2 ^ 63) as Hn by (apply Forall_app in Hs as [_ Hs]; by inversion_clear Hs).
  split.
  - destruct (reserve_all_ok reserve (live h) n sizes h (new_owned spsc_new) 1) as (o & h1 & Hr & Ho);
      [apply new_owns | done | done | apply reserve_total |].
    destruct (Ho) as (cap & _ & _ & Hw & _). destruct (destroy_owned _ _ _ _ Hw) as (h2 & Hd & Hl).
    exists o, h1, h2. split_and!; [done| |done..]. apply (reserved_holds _ _ _ _ _ _ _ Ho).
    intros h0 c Hc Hb Hq. destruct (reserve_valid _ n _ (block_alloc_sized h0 (buffer o)) Hn Hq) as [Hnone|(? & ? & ? & _)].
    + exfalso. unfold reserve in Hq. bind_inv Hq. injection Hq as Hq. by rewrite <- Hq in Hnone.
    + destruct (reserve_size _ n _ Hq) as [Hcap Hsz]; [by apply spsc_valid_buffer|].
      rewrite Hc in Hcap. injection Hcap as Hcap. cbn beta. rewrite Hsz, <- Hcap, u64_small by (unfold kCacheSize; lia).
      rewrite Hcap. by split_and!.
  - destruct (reserve_all_ok spmc_reserve (live h) n sizes h (new_owned spmc_new) 1) as (o & h1 & Hr & Ho);
      [apply new_owns | done | done | apply spmc_reserve_total |].
    destruct (Ho) as (cap & _ & _ & Hw & _). destruct (destroy_owned _ _ _ _ Hw) as (h2 & Hd & Hl).
    exists o, h1, h2. split_and!; [done| |done..]. apply (reserved_holds _ _ _ _ _ _ _ Ho).
    intros h0 c Hc Hb Hq. destruct (spmc_reserve_valid _ n _ (block_alloc_sized h0 (buffer o)) Hn Hq) as [Hnone|(? & ? & ?)].
    + exfalso. unfold spmc_reserve, spmc_next_power_of_2 in Hq. bind_inv Hq. injection Hq as Hq. by rewrite <- Hq in Hnone.
    + destruct (spmc_reserve_size _ n _ Hq) as [Hcap Hsz]; [by apply spmc_valid_buffer|].
      rewrite Hc in Hcap. injection Hcap as Hcap. cbn beta. rewrite Hsz, <- Hcap, u64_small by (unfold kCacheSize; lia).
      rewrite Hcap. by split_and!.
Qed.
End memory.

(** ** A heap *)

(** The blocks in use, and how many more it gives; a new block is beyond the others. *)
Record Blocks := { used : gmap Z Z; left : nat }.

Definition top (m : gmap Z Z) : Z := map_fold (λ p n t, Z.max (p + Z.max 0 n) t) 0 m.

Definition beyond (m : gmap Z Z) (a : Z) : Z := (top m / a + 1) * a.

#[export] Instance blocks_allocator : Allocator Blocks := {
  posix_memalign h a n :=
    match left h with
    | S l =>
      if bool_decide (a ∈ [8; 16; 32; 64; 128])
      then (0, beyond (used h) a, {| used := <[beyond (used h) a := n]> (used h); left := l |}) else (22, 0, h)
    | O => (12, 0, h)
    end;
  free h p :=
    if p =? 0 then Some h
    else match used h !! p with Some _ => Some {| used := delete p (used h); left := left h |} | None => None end;
  live h := used h;
  block _ _ n := replicate (Z.to_nat n) Byte.x00;
}.

Lemma top_spec m : 0 <= top m /\ forall p n, m !! p = Some n -> p + Z.max 0 n <= top m.
Proof.
  unfold top. apply (map_fold_weak_ind (λ t m, 0 <= t /\ forall p n, m !! p = Some n -> p + Z.max 0 n <= t)).
  - split; [lia|]. intros p n H. by rewrite lookup_empty in H.
  - intros p n m' t Hp [H0 IH]. split; [lia|]. intros q k Hq.
    apply lookup_insert_Some in Hq as [[<- <-]|[_ Hq%IH]]; lia.
Qed.

Lemma beyond_apart m a n : 0 < a -> beyond m a <> 0 /\ apart m (beyond m a) n /\ beyond m a mod a = 0.
Proof.
  intros Ha. destruct (top_spec m) as [H0 Ht].
  assert (top m < beyond m a) as Hlt.
  { unfold beyond. pose proof (Z.div_mod (top m) a ltac:(lia)). pose proof (Z.mod_pos_bound (top m) a Ha). nia. }
  split_and!; [lia| |unfold beyond; apply Z.mod_mul; lia]. split.
  - destruct (m !! beyond m a) as [k|] eqn:E; [|done]. apply Ht in E. lia.
  - intros q k Hq%Ht. lia.
Qed.

#[export] Instance blocks_laws : AllocatorLaws Blocks.
Proof.
  split; unfold posix_memalign, free, live, block; cbn.
  - intros h a n rc p h'. destruct (left h); [by intros [= <- <- <-]|]. case_bool_decide; by intros [= <- <- <-].
  - intros h a n rc p h'. destruct (left h); [by intros [= <- <- <-]|].
    case_bool_decide as Ha; intros [= <- <- <-]; [|done]. intros []. rewrite !elem_of_cons, elem_of_nil in Ha.
    destruct Ha as [->|[->|[->|[->|[->|[]]]]]]; [exists 3|exists 4|exists 5|exists 6|exists 7]; done.
  - intros h a n p h'. destruct (left h); [done|]. case_bool_decide as Ha; [|done]. intros [= <- <-] _.
    assert (0 < a) as Hpos by (rewrite !elem_of_cons, elem_of_nil in Ha; lia).
    destruct (beyond_apart (used h) a n Hpos) as (? & ? & ?). auto.
  - done.
  - intros h p n Hz Hp. rewrite (proj2 (Z.eqb_neq _ _)), Hp by done. by eexists.
  - intros _ _ n Hn. unfold lenZ. rewrite length_replicate. lia.
Qed.

(** The second buffer replaces the first, and a third is not to be had. *)
Lemma buffers_freed_once_witness :
  exists o h1 h2,
    reserve_all reserve {| used := {[4096 := 100]}; left := 2 |} (new_owned spsc_new) [100; 1000] = Some (o, h1) /\
    buffer o = 4480 /\ used h1 = {[4096 := 100; 4480 := 1088]} /\ destroy h1 o = Some h2 /\
    used h2 = {[4096 := 100]}.
Proof.
  destruct (buffers_freed_once {| used := {[4096 := 100]}; left := 2 |} [100] 1000) as [(o & h1 & h2 & Hr & _ & Hd & Hl) _].
  - repeat constructor; discriminate.
  - exists o, h1, h2. vm_compute in Hr. injection Hr as <- <-. split; [vm_compute; reflexivity|].
    split; [vm_compute; reflexivity|]. split; [vm_compute; reflexivity|]. split; [exact Hd | exact Hl].
Defined.
