(* ===== verification/SpmcConcurrent.v ===== *)
(** * Several consumers of the multiple-consumer queue

    The atomic steps of SpmcQueue.v, by any number of consumers and a producer whose calls of
    [enqueue_bytes] come in between (src/src/logging/impl/spmc_queue.cc). [spmc_ticket_race] shows
    what goes wrong when a consumer asks for more than is there; here every consumer takes its
    ticket when as much as it asks for is in the queue. A consumer is one call: a thread that calls
    again is another consumer of the list. *)

From S2P Require Import Prelude Ring ByteQueue SpscQueue SpmcQueue.

(** [s_stream] is a record of all bytes that were ever put into the queue. *)
Record spmc_system := {
  s_queue : SpmcQueue;
  s_consumers : list (Z * consumer_pc);
  s_stream : bytes;
}.

Inductive label := Produce (data : bytes) | Consume (i : nat).

Definition produce (s : spmc_system) (data : bytes) : option spmc_system :=
  '(status, q) ← spmc_enqueue_bytes (s_queue s) data;
  Some {| s_queue := q; s_consumers := s_consumers s;
          s_stream := if decide (status = kOk) then s_stream s ++ data else s_stream s |}.

Definition consume (s : spmc_system) (i : nat) : option spmc_system :=
  '(size, pc) ← s_consumers s !! i;
  '(q, pc') ← consumer_step (read_one (s_queue s) size) (s_queue s) pc;
  Some {| s_queue := q; s_consumers := <[i := (size, pc')]> (s_consumers s); s_stream := s_stream s |}.

Definition spmc_step (s : spmc_system) (l : label) : option spmc_system :=
  match l with Produce data => produce s data | Consume i => consume s i end.

(** A consumer takes its ticket when its bytes are there. *)
Definition backed (s : spmc_system) (l : label) : Prop :=
  match l with
  | Produce _ => True
  | Consume i => forall size,
    s_consumers s !! i = Some (size, CStart size) -> size <= tail_idx_ (s_queue s) ⊖ head_idx_ (s_queue s)
  end.

(** The ticket a step hands out: the value its [fetch_add] of the head returns. *)
Definition ticket_of (s : spmc_system) (l : label) : list (nat * Z) :=
  match l with
  | Produce _ => []
  | Consume i =>
    match s_consumers s !! i with Some (_, CStart _) => [(i, head_idx_ (s_queue s))] | _ => [] end
  end.

(** A run, with the tickets in the order they were handed out. *)
Inductive spmc_run : spmc_system -> list (nat * Z) -> spmc_system -> Prop :=
  | run_refl s : spmc_run s [] s
  | run_step s1 ts s2 s3 l :
    spmc_run s1 ts s2 -> backed s2 l -> spmc_step s2 l = Some s3 ->
    spmc_run s1 (ts ++ ticket_of s2 l) s3.

(** Steps of one consumer in a row. *)
Fixpoint consume_times (s : spmc_system) (i n : nat) : option spmc_system :=
  match n with O => Some s | S n' => s' ← consume s i; consume_times s' i n' end.

(** ** The invariant

    [ord] lists the consumers that have a ticket, in the order of the tickets; the first [nd] of
    them have returned. [off p] is where the ticket of the [p]-th begins in the stream. *)

Definition sum_of (sizes : list Z) : Z := foldr Z.add 0 sizes.

Lemma sum_of_app a b : sum_of (a ++ b) = sum_of a + sum_of b.
Proof. unfold sum_of. induction a as [|x a IH]; simpl; [lia|]. rewrite IH. lia. Qed.

Lemma sum_of_nonneg l : Forall (fun x => 0 < x) l -> 0 <= sum_of l.
Proof. induction 1; simpl; lia. Qed.

Definition piece (stream : bytes) (o n : Z) : bytes := take (Z.to_nat n) (drop (Z.to_nat o) stream).

Lemma piece_app stream more o n :
  0 <= o -> 0 <= n -> o + n <= lenZ stream -> piece (stream ++ more) o n = piece stream o n.
Proof.
  intros. unfold piece, lenZ in *. rewrite drop_app_le by lia.
  by rewrite take_app_le by (rewrite length_drop; lia).
Qed.

Section invariant.
Context (k h0 : Z) (sz : nat -> Z) (Hsz : forall i, 0 < sz i).

Definition off (ord : list nat) (p : nat) : Z := sum_of (sz <$> take p ord).

Lemma off_S ord p i : ord !! p = Some i -> off ord (S p) = off ord p + sz i.
Proof.
  intros Hp. unfold off. rewrite (take_S_r _ _ i) by done. rewrite fmap_app, sum_of_app.
  cbn. lia.
Qed.

Lemma off_mono ord p p' : (p <= p')%nat -> 0 <= off ord p <= off ord p'.
Proof.
  intros Hle. unfold off. replace (take p' ord) with (take p ord ++ take (p' - p) (drop p ord)).
  - rewrite fmap_app, sum_of_app.
    assert (forall l, 0 <= sum_of (sz <$> l)) as Hn.
    { intros l. apply sum_of_nonneg, Forall_fmap, Forall_true. intros i. apply Hsz. }
    specialize (Hn (take p ord)) as H1. specialize (Hn (take (p' - p) (drop p ord))). lia.
  - rewrite take_take_drop. f_equal. lia.
Qed.

Lemma off_app ord i p : (p <= length ord)%nat -> off (ord ++ [i]) p = off ord p.
Proof. intros. unfold off. by rewrite take_app_le. Qed.

(** Where the consumer with the [p]-th ticket can be, while its ticket is [o] bytes in. *)
Definition placed (stream : bytes) (o size : Z) (returned : bool) (pc : consumer_pc) : Prop :=
  let ticket := u64 (h0 + o) in
  if returned then pc = CReturn kOk [piece stream o size]
  else pc = CTicket size ticket \/ pc = CCopy size ticket \/
       pc = CCommit size ticket [piece stream o size].

Record spmc_inv (buf : bytes) (ord : list nat) (nd : nat) (s : spmc_system) : Prop := {
  iv_k : 1 <= k <= 63;
  iv_buffer : buffer_ (s_queue s) = Some buf;
  iv_alloc : 2 ^ k <= lenZ buf;
  iv_capacity : capacity_ (s_queue s) = 2 ^ k;
  iv_mask : mask_ (s_queue s) = 2 ^ k - 1;
  iv_nodup : NoDup ord;
  iv_nd : (nd <= length ord)%nat;
  iv_head : head_idx_ (s_queue s) = u64 (h0 + off ord (length ord));
  iv_commit : commit_idx_ (s_queue s) = u64 (h0 + off ord nd);
  iv_tail : tail_idx_ (s_queue s) = u64 (h0 + lenZ (s_stream s));
  iv_taken : off ord (length ord) <= lenZ (s_stream s);
  iv_used : lenZ (s_stream s) - off ord nd <= 2 ^ k;
  iv_ring : ring_slice buf (2 ^ k) (h0 + off ord nd) (lenZ (s_stream s) - off ord nd) =
    drop (Z.to_nat (off ord nd)) (s_stream s);
  iv_started : forall i, i ∈ ord -> (i < length (s_consumers s))%nat;
  iv_pcs : forall i size pc, s_consumers s !! i = Some (size, pc) -> size = sz i /\
    ((i ∉ ord) /\ pc = CStart size \/
     exists p, ord !! p = Some i /\ placed (s_stream s) (off ord p) size (bool_decide (p < nd)%nat) pc);
}.

Section facts.
Context (buf : bytes) (ord : list nat) (nd : nat) (s : spmc_system) (I : spmc_inv buf ord nd s).

Lemma iv_bounds : 2 <= 2 ^ k <= 2 ^ 63.
Proof. apply (ring_cap_bounds k). apply I. Qed.

(** The bytes of an outstanding ticket are there and have not been overwritten. *)
Lemma iv_piece p i :
  ord !! p = Some i -> (nd <= p)%nat ->
  0 <= off ord nd <= off ord p /\ off ord p + sz i <= lenZ (s_stream s) /\
  lenZ (s_stream s) - off ord p <= 2 ^ k /\
  ring_slice buf (2 ^ k) (u64 (h0 + off ord p)) (sz i) = piece (s_stream s) (off ord p) (sz i).
Proof.
  intros Hp Hnd. pose proof iv_bounds as Hc. pose proof (Hsz i).
  pose proof (off_mono ord nd p Hnd) as Hm. pose proof (lookup_lt_Some _ _ _ Hp) as Hlt.
  pose proof (off_mono ord (S p) (length ord) ltac:(lia)) as Hm2.
  rewrite (off_S _ _ _ Hp) in Hm2. pose proof (iv_taken _ _ _ _ I). pose proof (iv_used _ _ _ _ I).
  split; [done|]. split; [lia|]. split; [lia|].
  rewrite (ring_slice_mod _ _ _ (h0 + off ord nd + (off ord p - off ord nd))).
  2: { rewrite u64_mod_pow2 by (pose proof (iv_k _ _ _ _ I); lia). f_equal. lia. }
  pose proof (iv_ring _ _ _ _ I) as Hr.
  set (a := off ord p - off ord nd) in *. set (n := lenZ (s_stream s) - off ord nd) in *.
  replace n with (a + (sz i + (n - a - sz i))) in Hr by lia.
  rewrite !ring_slice_app in Hr by lia. unfold piece.
  replace (Z.to_nat (off ord p)) with (Z.to_nat (off ord nd) + Z.to_nat a)%nat by lia.
  rewrite <- drop_drop, <- Hr.
  rewrite drop_app_length'; [|pose proof (ring_slice_length buf (2 ^ k) (h0 + off ord nd) a); unfold lenZ in *; lia].
  rewrite take_app_length'; [done|].
  pose proof (ring_slice_length buf (2 ^ k) (h0 + off ord nd + a) (sz i)). unfold lenZ in *. lia.
Qed.

Lemma iv_total_nonneg : 0 <= off ord nd <= lenZ (s_stream s).
Proof.
  pose proof (off_mono ord nd (length ord) (iv_nd _ _ _ _ I)). pose proof (iv_taken _ _ _ _ I). lia.
Qed.

(** The producer's view of the space that is left. *)
Lemma iv_no_space n :
  0 < n -> no_space (s_queue s) n = (2 ^ k <? lenZ (s_stream s) - off ord nd + n).
Proof.
  intros Hn. pose proof iv_bounds as Hc. pose proof (iv_used _ _ _ _ I). pose proof iv_total_nonneg.
  unfold no_space. rewrite (iv_tail _ _ _ _ I), (iv_commit _ _ _ _ I), (iv_capacity _ _ _ _ I).
  rewrite (u64_sub_counters (h0 + lenZ (s_stream s)) (h0 + off ord nd)) by lia.
  replace (h0 + lenZ (s_stream s) - (h0 + off ord nd)) with (lenZ (s_stream s) - off ord nd) by lia.
  rewrite u64_small by lia.
  destruct (Z.ltb_spec (2 ^ k - (lenZ (s_stream s) - off ord nd)) n),
    (Z.ltb_spec (2 ^ k) (lenZ (s_stream s) - off ord nd + n)); lia.
Qed.

(** A longer stream places everybody where they were. *)
Lemma placed_app more p i returned pc :
  ord !! p = Some i -> placed (s_stream s) (off ord p) (sz i) returned pc ->
  placed (s_stream s ++ more) (off ord p) (sz i) returned pc.
Proof.
  intros Hp. unfold placed. pose proof (lookup_lt_Some _ _ _ Hp). pose proof (Hsz i).
  pose proof (off_mono ord p (S p) ltac:(lia)).
  pose proof (off_mono ord (S p) (length ord) ltac:(lia)). rewrite (off_S _ _ _ Hp) in *.
  pose proof (iv_taken _ _ _ _ I). by rewrite piece_app by lia.
Qed.

(** *** The producer *)
Lemma produce_inv data :
  exists s' buf', produce s data = Some s' /\ spmc_inv buf' ord nd s' /\
    s_consumers s' = s_consumers s /\ exists more, s_stream s' = s_stream s ++ more.
Proof.
  unfold produce, spmc_enqueue_bytes. rewrite (iv_buffer _ _ _ _ I).
  pose proof (lenZ_nonneg data). destruct (Z.eqb_spec (lenZ data) 0) as [H0|H0].
  { cbn [mbind option_bind]. rewrite decide_False by done. eexists _, buf. split; [done|].
    split; [by destruct I; constructor|]. split; [done|]. exists []. simpl. by rewrite app_nil_r. }
  rewrite iv_no_space by lia. pose proof iv_bounds as Hc. pose proof iv_total_nonneg as Ht.
  destruct (Z.ltb_spec (2 ^ k) (lenZ (s_stream s) - off ord nd + lenZ data)) as [Hfull|Hfit].
  { cbn [mbind option_bind]. rewrite decide_False by done. eexists _, buf. split; [done|].
    split; [by destruct I; constructor|]. split; [done|]. exists []. simpl. by rewrite app_nil_r. }
  rewrite (iv_mask _ _ _ _ I).
  destruct (ring_write_slices k ltac:(apply I) buf ltac:(apply I) (tail_idx_ (s_queue s)) data)
    as (buf' & -> & Hlen & Hnew & Hold); [lia|].
  cbn [mbind option_bind]. rewrite decide_True by done. eexists _, buf'. split; [done|].
  split; [|split; [done | by exists data]].
  assert (forall x, (h0 + x) mod 2 ^ k = u64 (h0 + x) mod 2 ^ k) as Hmod.
  { intros x. rewrite u64_mod_pow2 by (pose proof (iv_k _ _ _ _ I); lia). done. }
  pose proof I as []. constructor; simpl; rewrite ?lenZ_app; try done; try lia.
  - rewrite iv_tail0, u64_add_l. f_equal. lia.
  - replace (lenZ (s_stream s) + lenZ data - off ord nd) with
      (lenZ (s_stream s) - off ord nd + lenZ data) by lia.
    rewrite ring_slice_app, drop_app_le by (unfold lenZ in *; lia). f_equal.
    + rewrite Hold; [done | lia | | lia]. rewrite iv_tail0, <- Hmod. f_equal. lia.
    + rewrite (ring_slice_mod _ _ _ (tail_idx_ (s_queue s))); [done|].
      rewrite iv_tail0, <- Hmod. f_equal. lia.
  - intros i size pc Hi. destruct (iv_pcs0 i size pc Hi) as [-> [[? ?]|(p & Hp & Hpl)]];
      (split; [done|]); [by left|]. right. exists p. split; [done|]. by apply placed_app.
Qed.

(** *** A consumer *)

(** The consumer at [i] moves to [pc'], the queue to [q'], with the same data. *)
Definition moved (i : nat) (q' : SpmcQueue) (size : Z) (pc' : consumer_pc) : spmc_system :=
  {| s_queue := q'; s_consumers := <[i := (size, pc')]> (s_consumers s); s_stream := s_stream s |}.

(** Where the others are stays as it was. *)
Lemma moved_pcs i size pc' (P : nat -> Z -> consumer_pc -> Prop) q' :
  P i size pc' -> (forall j sz_j pc, j <> i -> s_consumers s !! j = Some (sz_j, pc) -> P j sz_j pc) ->
  forall j sz_j pc, s_consumers (moved i q' size pc') !! j = Some (sz_j, pc) -> P j sz_j pc.
Proof.
  intros Hi Hj j sz_j pc. simpl. destruct (decide (j = i)) as [->|Hne].
  - rewrite list_lookup_insert_Some. intros [(_ & [= <- <-] & _)|(? & _)]; done.
  - rewrite list_lookup_insert_ne by done. by apply Hj.
Qed.

Lemma start_inv i size :
  s_consumers s !! i = Some (size, CStart size) ->
  size <= tail_idx_ (s_queue s) ⊖ head_idx_ (s_queue s) ->
  exists s', consume s i = Some s' /\ spmc_inv buf (ord ++ [i]) nd s' /\
    s_consumers s' = <[i := (size, CTicket size (head_idx_ (s_queue s)))]> (s_consumers s) /\
    s_stream s' = s_stream s.
Proof.
  intros Hi Hb. destruct (iv_pcs _ _ _ _ I i _ _ Hi) as [-> [[Hni _]|(p & _ & Hpl)]].
  2: { exfalso. unfold placed in Hpl. destruct (bool_decide _); [done|]. naive_solver. }
  unfold consume. rewrite Hi. cbn [mbind option_bind consumer_step]. eexists. split; [done|].
  split; [|done]. pose proof iv_bounds as Hc. pose proof (Hsz i).
  pose proof (iv_used _ _ _ _ I) as Hu. pose proof iv_total_nonneg as Ht.
  pose proof (off_mono ord nd (length ord) (iv_nd _ _ _ _ I)) as Hm.
  rewrite (iv_tail _ _ _ _ I), (iv_head _ _ _ _ I), u64_sub_counters in Hb
    by (pose proof (iv_taken _ _ _ _ I); lia).
  assert (off (ord ++ [i]) (S (length ord)) = off ord (length ord) + sz i) as Hlast.
  { rewrite (off_S _ _ i) by (by rewrite lookup_app_r, Nat.sub_diag by lia).
    by rewrite off_app by lia. }
  assert (length (ord ++ [i]) = S (length ord)) as Hlen by (rewrite length_app; simpl; lia).
  pose proof I as []. constructor; simpl; try done; rewrite ?Hlen, ?Hlast, ?off_app by lia; try done; try lia.
  - apply NoDup_app. split; [done|]. split; [|apply NoDup_singleton].
    intros x Hx ->%list_elem_of_singleton. done.
  - rewrite iv_head0, u64_add_l. f_equal. lia.
  - intros j. rewrite length_insert, elem_of_app, list_elem_of_singleton.
    intros [?| ->]; [by apply iv_started0|]. by apply lookup_lt_Some in Hi.
  - apply (moved_pcs i (sz i) _ (fun j size pc => size = sz j /\
      ((j ∉ ord ++ [i]) /\ pc = CStart size \/ exists p, (ord ++ [i]) !! p = Some j /\
        placed (s_stream s) (off (ord ++ [i]) p) size (bool_decide (p < nd)%nat) pc))
      (s_queue s)).
    + split; [done|]. right. exists (length ord). rewrite off_app by lia. split.
      * by rewrite lookup_app_r, Nat.sub_diag by lia.
      * rewrite bool_decide_false by lia. left. by rewrite iv_head0.
    + intros j sj pc Hne Hj. destruct (iv_pcs0 j sj pc Hj) as [-> [[? ?]|(p & Hp & Hpl)]];
        (split; [done|]).
      * left. split; [|done]. rewrite elem_of_app, list_elem_of_singleton. naive_solver.
      * right. exists p. pose proof (lookup_lt_Some _ _ _ Hp). rewrite off_app by lia.
        split; [by apply lookup_app_l_Some | done].
Qed.

(** A consumer that has its ticket and does not commit changes only where it is. *)
Lemma local_inv p i pc' :
  ord !! p = Some i -> placed (s_stream s) (off ord p) (sz i) (bool_decide (p < nd)%nat) pc' ->
  spmc_inv buf ord nd (moved i (s_queue s) (sz i) pc').
Proof.
  intros Hp Hpl. pose proof I as []. constructor; simpl; try done.
  - intros j Hj. rewrite length_insert. by apply iv_started0.
  - apply (moved_pcs i (sz i) pc' (fun j size pc => size = sz j /\
      ((j ∉ ord) /\ pc = CStart size \/ exists p, ord !! p = Some j /\
        placed (s_stream s) (off ord p) size (bool_decide (p < nd)%nat) pc)) (s_queue s)).
    + split; [done|]. right. by exists p.
    + intros j sj pc _ Hj. by apply iv_pcs0.
Qed.

(** The commit of the first consumer that has not returned. *)
Lemma commit_inv i out :
  ord !! nd = Some i -> out = [piece (s_stream s) (off ord nd) (sz i)] ->
  spmc_inv buf ord (S nd) (moved i
    (set_indices (s_queue s) (head_idx_ (s_queue s)) (u64 (h0 + off ord nd) ⊕ sz i)) (sz i)
    (CReturn kOk out)).
Proof.
  intros Hp ->. pose proof (lookup_lt_Some _ _ _ Hp) as Hlt. pose proof (Hsz i).
  pose proof (off_S _ _ _ Hp) as HS. pose proof (off_mono ord (S nd) (length ord) ltac:(lia)) as Hm.
  pose proof (off_mono ord nd (S nd) ltac:(lia)). pose proof iv_bounds.
  pose proof I as []. constructor; simpl; try done; rewrite ?HS; try lia.
  - rewrite u64_add_l. f_equal. lia.
  - rewrite HS in Hm.
    replace (lenZ (s_stream s) - off ord nd) with
      (sz i + (lenZ (s_stream s) - (off ord nd + sz i))) in iv_ring0 by lia.
    rewrite ring_slice_app in iv_ring0 by lia.
    rewrite Z.add_assoc. apply (f_equal (drop (Z.to_nat (sz i)))) in iv_ring0.
    rewrite drop_drop, drop_app_length' in iv_ring0.
    + rewrite iv_ring0. f_equal. lia.
    + pose proof (ring_slice_length buf (2 ^ k) (h0 + off ord nd) (sz i)). unfold lenZ in *. lia.
  - intros j Hj. rewrite length_insert. by apply iv_started0.
  - apply (moved_pcs i (sz i) _ (fun j size pc => size = sz j /\
      ((j ∉ ord) /\ pc = CStart size \/ exists p, ord !! p = Some j /\
        placed (s_stream s) (off ord p) size (bool_decide (p < S nd)%nat) pc)) (s_queue s)).
    + split; [done|]. right. exists nd. split; [done|]. by rewrite bool_decide_true by lia.
    + intros j sj pc Hne Hj. destruct (iv_pcs0 j sj pc Hj) as [-> [[? ?]|(p & Hpj & Hpl)]];
        (split; [done|]); [by left|]. right. exists p. split; [done|].
      assert (p <> nd) by (intros ->; congruence).
      assert (bool_decide (p < S nd)%nat = bool_decide (p < nd)%nat) as ->
        by (apply bool_decide_ext; lia). done.
Qed.

(** The commit index has the value of a ticket only when the ticket is the first outstanding one. *)
Lemma commit_is_first p i :
  ord !! p = Some i -> (nd <= p)%nat ->
  commit_idx_ (s_queue s) = u64 (h0 + off ord p) -> p = nd.
Proof.
  intros Hp Hnd E. pose proof (lookup_lt_Some _ _ _ Hp). pose proof iv_bounds.
  destruct (iv_piece p i Hp Hnd) as (Hm & Hle & _).
  pose proof (iv_used _ _ _ _ I). pose proof (Hsz i).
  rewrite (iv_commit _ _ _ _ I) in E. unfold u64 in E.
  destruct (decide (p = nd)) as [|Hne]; [done|]. exfalso.
  destruct (ord !! nd) as [j|] eqn:Ej; [|apply lookup_ge_None in Ej; lia].
  pose proof (off_mono ord (S nd) p ltac:(lia)) as Hlt. rewrite (off_S _ _ _ Ej) in Hlt.
  pose proof (Hsz j).
  assert ((off ord p - off ord nd) mod 2 ^ 64 = 0) as Hz.
  { replace (off ord p - off ord nd) with ((h0 + off ord p) - (h0 + off ord nd)) by lia.
    rewrite Zminus_mod, E, Z.sub_diag. done. }
  rewrite Z.mod_small in Hz by lia. lia.
Qed.

(** One step of a consumer that has its ticket. *)
Lemma consume_inv p i pc :
  ord !! p = Some i -> s_consumers s !! i = Some (sz i, pc) ->
  placed (s_stream s) (off ord p) (sz i) (bool_decide (p < nd)%nat) pc ->
  exists s', consume s i = Some s' /\ s_stream s' = s_stream s /\
    (spmc_inv buf ord nd s' /\ (p = nd -> exists pc', s_consumers s' = <[i := (sz i, pc')]> (s_consumers s) /\
        (pc = CTicket (sz i) (u64 (h0 + off ord p)) /\ pc' = CCopy (sz i) (u64 (h0 + off ord p)) \/
         pc = CCopy (sz i) (u64 (h0 + off ord p)) /\
           pc' = CCommit (sz i) (u64 (h0 + off ord p)) [piece (s_stream s) (off ord p) (sz i)])) \/
     p = nd /\ (exists out, pc = CCommit (sz i) (u64 (h0 + off ord p)) out) /\ spmc_inv buf ord (S nd) s' /\
       s_consumers s' = <[i := (sz i, CReturn kOk [piece (s_stream s) (off ord p) (sz i)])]> (s_consumers s)).
Proof.
  intros Hp Hi Hpl. unfold consume. rewrite Hi. cbn [mbind option_bind].
  case_bool_decide as Hd; unfold placed in Hpl.
  - subst pc. cbn [consumer_step mbind option_bind]. eexists. split; [done|]. split; [done|]. left.
    split; [|lia]. apply (local_inv p); [done|]. by rewrite bool_decide_true.
  - assert (nd <= p)%nat as Hnd by lia. pose proof iv_bounds as Hc. pose proof (Hsz i) as Hs0.
    destruct (iv_piece p i Hp Hnd) as (Hm & Hle & Hcap & Hring).
    destruct Hpl as [->|[->| ->]]; cbn [consumer_step mbind option_bind].
    + rewrite (iv_tail _ _ _ _ I), u64_sub_counters by lia.
      rewrite (proj2 (Z.ltb_ge _ _)) by lia. cbn [mbind option_bind].
      eexists. split; [done|]. split; [done|]. left. split.
      * apply (local_inv p); [done|]. rewrite bool_decide_false by lia. right; by left.
      * intros ->. eexists. split; [done|]. by left.
    + rewrite (iv_buffer _ _ _ _ I). cbn [mbind option_bind]. unfold read_one at 1.
      rewrite (iv_mask _ _ _ _ I), ring_copy_out_spec, Hring by (try apply I; lia).
      cbn [mbind option_bind]. eexists. split; [done|]. split; [done|]. left. split.
      * apply (local_inv p); [done|]. rewrite bool_decide_false by lia. by do 2 right.
      * intros ->. eexists. split; [done|]. by right.
    + destruct (Z.eqb_spec (commit_idx_ (s_queue s)) (u64 (h0 + off ord p))) as [E|E];
        cbn [mbind option_bind]; (eexists; split; [done|]; split; [done|]).
      * right. pose proof (commit_is_first p i Hp Hnd E) as ->.
        split; [done|]. split; [by eexists|]. split; [|done]. by apply commit_inv.
      * left. split.
        -- apply (local_inv p); [done|]. rewrite bool_decide_false by lia. by do 2 right.
        -- intros ->. by rewrite (iv_commit _ _ _ _ I) in E.
Qed.

End facts.

(** *** Any step *)
Lemma step_inv buf ord nd s l :
  spmc_inv buf ord nd s -> backed s l ->
  (match l with Consume i => (i < length (s_consumers s))%nat | _ => True end) ->
  exists s' buf' nd', spmc_step s l = Some s' /\ spmc_inv buf' (ord ++ (ticket_of s l).*1) nd' s' /\
    (forall i t, ticket_of s l = [(i, t)] -> t = u64 (h0 + off ord (length ord))) /\
    length (s_consumers s') = length (s_consumers s) /\
    exists more, s_stream s' = s_stream s ++ more.
Proof.
  intros I Hb Hl. destruct l as [data|i]; cbn [spmc_step].
  - destruct (produce_inv buf ord nd s I data) as (s' & buf' & ? & ? & Hcs & ?).
    exists s', buf', nd. cbn. by rewrite app_nil_r, Hcs.
  - destruct (s_consumers s !! i) as [[size pc]|] eqn:Hi; [|by apply lookup_ge_None in Hi; lia].
    destruct (iv_pcs _ _ _ _ I i size pc Hi) as [-> [[Hni ->]|(p & Hp & Hpl)]].
    + destruct (start_inv buf ord nd s I i (sz i) Hi (Hb _ Hi)) as (s' & ? & ? & Hcs & Hst).
      exists s', buf, nd. unfold ticket_of. rewrite Hi, Hcs, Hst, length_insert.
      split_and!; try done; [|exists []; by rewrite app_nil_r].
      intros j t [= <- <-]. apply (iv_head _ _ _ _ I).
    + destruct (consume_inv buf ord nd s I p i pc Hp Hi Hpl) as (s' & Hc & Hst & Hs').
      assert (length (s_consumers s') = length (s_consumers s)) as Hlen.
      { unfold consume in Hc. rewrite Hi in Hc. cbn [mbind option_bind] in Hc.
        destruct (consumer_step _ _ _) as [[q' pc']|]; [|done]. injection Hc as <-. simpl.
        apply length_insert. }
      assert (ticket_of s (Consume i) = []) as ->.
      { unfold ticket_of. rewrite Hi. unfold placed in Hpl. case_bool_decide; naive_solver. }
      destruct Hs' as [[? _]|(-> & _ & ? & _)]; [exists s', buf, nd | exists s', buf, (S nd)];
        (cbn [fmap list_fmap]; rewrite app_nil_r; split_and!; try done; exists []; by rewrite app_nil_r).
Qed.
(** *** Progress: the consumer whose ticket is due finishes by itself. *)
Lemma due_finishes m buf ord nd s i pc :
  spmc_inv buf ord nd s -> ord !! nd = Some i -> s_consumers s !! i = Some (sz i, pc) ->
  (match m with
   | 1%nat => exists out, pc = CCommit (sz i) (u64 (h0 + off ord nd)) out
   | 2%nat => pc = CCopy (sz i) (u64 (h0 + off ord nd))
   | 3%nat => pc = CTicket (sz i) (u64 (h0 + off ord nd))
   | _ => False end) ->
  exists s' out, consume_times s i m = Some s' /\ s_consumers s' !! i = Some (sz i, CReturn kOk out).
Proof.
  revert s pc. induction m as [|m IH]; [done|]. intros s pc I Hp Hi Hm. cbn [consume_times].
  assert (placed (s_stream s) (off ord nd) (sz i) (bool_decide (nd < nd)%nat) pc) as Hpl.
  { destruct (iv_pcs _ _ _ _ I i _ _ Hi) as [_ [[Hni _]|(p & Hpi & Hpl)]].
    - destruct Hni. by eapply list_elem_of_lookup_2.
    - by assert (p = nd) as -> by (by eapply (NoDup_lookup _ _ _ _ (iv_nodup _ _ _ _ I))). }
  destruct (consume_inv buf ord nd s I nd i pc Hp Hi Hpl) as (s' & Hc & Hst & Hs').
  rewrite Hc. cbn [mbind option_bind].
  pose proof (lookup_lt_Some _ _ _ Hi) as Hlt.
  destruct Hs' as [[I' Hloc]|(_ & [out ->] & _ & Hcs)].
  - destruct (Hloc eq_refl) as (pc' & Hcs & Hpc).
    assert (s_consumers s' !! i = Some (sz i, pc')) as Hi' by (by rewrite Hcs, list_lookup_insert_eq).
    apply (IH s' pc' I' Hp Hi').
    destruct Hpc as [[-> ->]|[-> ->]], m as [|[|[|m]]]; try done; try (by destruct Hm); by eexists.
  - destruct m as [|[|[|m]]]; try done.
    exists s'. eexists. split; [done|]. by rewrite Hcs, list_lookup_insert_eq.
Qed.

Lemma next_returns buf ord nd s :
  spmc_inv buf ord nd s -> (nd < length ord)%nat ->
  exists i m s' size out, ord !! nd = Some i /\ (m <= 3)%nat /\ consume_times s i m = Some s' /\
    s_consumers s' !! i = Some (size, CReturn kOk out).
Proof.
  intros I Hnd. destruct (lookup_lt_is_Some_2 _ _ Hnd) as [i Hi].
  assert (i < length (s_consumers s))%nat as Hil
    by (apply (iv_started _ _ _ _ I); by eapply list_elem_of_lookup_2).
  destruct (lookup_lt_is_Some_2 _ _ Hil) as [[size pc'] Hpc].
  destruct (iv_pcs _ _ _ _ I i _ _ Hpc) as [-> [[Hni _]|(p' & Hp' & Hpl')]].
  { destruct Hni. by eapply list_elem_of_lookup_2. }
  assert (p' = nd) as -> by (by eapply (NoDup_lookup _ _ _ _ (iv_nodup _ _ _ _ I))).
  rewrite bool_decide_false in Hpl' by lia.
  assert (exists m, (m <= 3)%nat /\ exists s' out, consume_times s i m = Some s' /\
    s_consumers s' !! i = Some (sz i, CReturn kOk out)) as (m & Hm & s' & out & Hc & Hr).
  { destruct Hpl' as [->|[->| ->]]; [exists 3%nat | exists 2%nat | exists 1%nat]; (split; [lia|]);
      eapply due_finishes; eauto. }
  by exists i, m, s', (sz i), out.
Qed.

(** The consumers that have returned got the beginning of the stream, cut in the order of their
    tickets. *)
Lemma returned_pieces buf ord nd s n :
  spmc_inv buf ord nd s -> (n <= nd)%nat ->
  exists outs, Forall2 (fun i out => s_consumers s !! i = Some (sz i, CReturn kOk [out]) /\
      lenZ out = sz i) (take n ord) outs /\
    concat outs = take (Z.to_nat (off ord n)) (s_stream s).
Proof.
  intros I. induction n as [|n IH]; intros Hn.
  { exists []. split; [constructor | done]. }
  destruct IH as (outs & Houts & Hcat); [lia|].
  destruct (ord !! n) as [i|] eqn:Hp; [|apply lookup_ge_None in Hp; pose proof (iv_nd _ _ _ _ I); lia].
  assert (i < length (s_consumers s))%nat as Hlt by (apply (iv_started _ _ _ _ I); by eapply list_elem_of_lookup_2).
  destruct (lookup_lt_is_Some_2 _ _ Hlt) as [[size pc] Hi].
  destruct (iv_pcs _ _ _ _ I i _ _ Hi) as [-> [[Hni _]|(p & Hpi & Hpl)]].
  { destruct Hni. by eapply list_elem_of_lookup_2. }
  assert (p = n) as -> by (by eapply (NoDup_lookup _ _ _ _ (iv_nodup _ _ _ _ I))).
  rewrite bool_decide_true in Hpl by lia. simpl in Hpl. subst pc.
  pose proof (off_S _ _ _ Hp) as HS. pose proof (Hsz i).
  pose proof (off_mono ord n (S n) ltac:(lia)).
  pose proof (iv_nd _ _ _ _ I). pose proof (off_mono ord (S n) (length ord) ltac:(lia)).
  pose proof (iv_taken _ _ _ _ I).
  exists (outs ++ [piece (s_stream s) (off ord n) (sz i)]). rewrite (take_S_r _ _ i) by done. split.
  - apply Forall2_app; [done|]. constructor; [|constructor]. split; [done|].
    unfold piece, lenZ in *. rewrite length_take, length_drop. lia.
  - rewrite concat_app, Hcat. cbn [concat]. rewrite app_nil_r, HS. unfold piece.
    rewrite Z2Nat.inj_add by lia. apply take_take_drop.
Qed.
End invariant.

(** ** The start *)

(** The queue [q], and a consumer for each of the sizes. *)
Definition spmc_start (q : SpmcQueue) (sizes : list Z) : spmc_system :=
  {| s_queue := q; s_consumers := (fun n => (n, CStart n)) <$> sizes; s_stream := spmc_contents q |}.

Definition size_of (sizes : list Z) (i : nat) : Z := default 1 (sizes !! i).

Lemma size_of_pos sizes i : Forall (fun n => 0 < n) sizes -> 0 < size_of sizes i.
Proof.
  intros H. unfold size_of. destruct (sizes !! i) as [n|] eqn:E; simpl; [|lia].
  rewrite Forall_lookup in H. by apply H in E.
Qed.

Lemma start_invariant q sizes k buf :
  spmc_wf k buf q -> spmc_inv k (head_idx_ q) (size_of sizes) buf [] 0 (spmc_start q sizes).
Proof.
  intros W. pose proof (spmc_contents_length k buf q W) as Hl. pose proof (spmc_bounds k buf q W) as [Hu Hc].
  pose proof W as []. constructor; simpl; try done; unfold off; simpl; rewrite ?Z.add_0_r, ?Z.sub_0_r.
  - constructor.
  - by rewrite u64_small.
  - by rewrite mwf_commit, u64_small.
  - rewrite Hl, u64_add_r. replace (head_idx_ q + (tail_idx_ q - head_idx_ q)) with (tail_idx_ q) by lia.
    by rewrite u64_small.
  - unfold off. simpl. lia.
  - lia.
  - rewrite drop_0, Hl. symmetry. apply (spmc_contents_eq k buf q W).
  - intros i Hi. by apply not_elem_of_nil in Hi.
  - intros i size pc. rewrite list_lookup_fmap. destruct (sizes !! i) as [n|] eqn:E; [|done].
    intros [= <- <-]. unfold size_of. rewrite E. split; [done|]. left. split; [apply not_elem_of_nil | done].
Qed.

(** Every state of a run has the invariant, with the stream of the start in front. *)
Lemma run_invariant q sizes ts s k buf :
  spmc_wf k buf q -> Forall (fun n => 0 < n) sizes -> spmc_run (spmc_start q sizes) ts s ->
  length (s_consumers s) = length sizes /\
  (exists more, s_stream s = spmc_contents q ++ more) /\
  (forall p i t, ts !! p = Some (i, t) -> t = u64 (head_idx_ q + off (size_of sizes) ts.*1 p)) /\
  exists buf' nd, spmc_inv k (head_idx_ q) (size_of sizes) buf' ts.*1 nd s.
Proof.
  intros W Hs Hrun. remember (spmc_start q sizes) as s0 eqn:E. revert E.
  induction Hrun as [s|s1 ts s2 s3 l Hrun IH Hb Hstep]; intros ->.
  - split; [simpl; apply length_fmap|]. split; [exists []; by rewrite app_nil_r|]. split; [done|].
    exists buf, 0%nat. by apply start_invariant.
  - destruct (IH eq_refl) as (Hlen & [more Hmore] & Htk & buf' & nd & I).
    destruct (step_inv k (head_idx_ q) (size_of sizes) (fun i => size_of_pos sizes i Hs) buf' ts.*1 nd s2 l I Hb)
      as (s' & buf2 & nd2 & Hs' & I2 & Ht2 & Hlen2 & [more2 Hmore2]).
    { destruct l as [data|i]; [done|]. cbn [spmc_step] in Hstep. unfold consume in Hstep.
      destruct (s_consumers s2 !! i) eqn:Ei; [|done]. by apply lookup_lt_Some in Ei. }
    rewrite Hstep in Hs'. injection Hs' as <-. rewrite fmap_app. split; [congruence|].
    split; [exists (more ++ more2); by rewrite Hmore2, Hmore, app_assoc|]. split; [|by exists buf2, nd2].
    intros p i t [Hp|[Hle Hp]]%lookup_app_Some.
    + rewrite (Htk _ _ _ Hp). unfold off. by rewrite take_app_le
        by (rewrite length_fmap; apply lookup_lt_Some in Hp; lia).
    + destruct (ticket_of s2 l) as [|[j t'] [|]] eqn:El; [done| |by destruct l; unfold ticket_of in El; repeat case_match].
      destruct (p - length ts)%nat eqn:Ep; [|done]. injection Hp as -> ->.
      rewrite (Ht2 _ _ eq_refl), length_fmap. do 2 f_equal. unfold off.
      rewrite take_app_le by (rewrite length_fmap; lia). do 3 f_equal. lia.
Qed.

(** Has taken its ticket and has not returned. *)
Definition outstanding (pc : consumer_pc) : Prop :=
  match pc with CStart _ | CReturn _ _ => False | _ => True end.


(** ** Witness *)

(** A run that is checked as it goes. *)
Definition backed_b (s : spmc_system) (l : label) : bool :=
  match l with
  | Produce _ => true
  | Consume i =>
    match s_consumers s !! i with
    | Some (size, CStart _) => size <=? tail_idx_ (s_queue s) ⊖ head_idx_ (s_queue s)
    | _ => true
    end
  end.

Fixpoint run_labels (s : spmc_system) (ts : list (nat * Z)) (ls : list label) :
    option (list (nat * Z) * spmc_system) :=
  match ls with
  | [] => Some (ts, s)
  | l :: rest => if backed_b s l then s' ← spmc_step s l; run_labels s' (ts ++ ticket_of s l) rest else None
  end.

Lemma run_labels_run s0 ts s ls ts' s' :
  spmc_run s0 ts s -> run_labels s ts ls = Some (ts', s') -> spmc_run s0 ts' s'.
Proof.
  revert ts s. induction ls as [|l ls IH]; intros ts s Hrun; cbn [run_labels]; [by intros [= <- <-]|].
  destruct (backed_b s l) eqn:Hb; [|done]. destruct (spmc_step s l) as [s1|] eqn:E; [|done].
  cbn [mbind option_bind]. apply IH. eapply run_step; [exact Hrun | | exact E].
  destruct l as [data|i]; [done|]. intros size Hi. simpl in Hb. rewrite Hi in Hb. lia.
Qed.

(** Two consumers of one byte each, one more byte enqueued in between: the first consumer has
    returned, the second has its ticket. *)
Definition example_labels : list label :=
  [Consume 0; Consume 1; Produce (bs "!"); Consume 0; Consume 0; Consume 0; Consume 1].

