(* ===== verification/SpmcMemory.v ===== *)
(** * The multiple-consumer queue in the memory model of C++

    [enqueue_bytes] and [dequeue_bytes] of src/src/logging/impl/spmc_queue.cc with the memory orders
    they are written with. [tail_idx_] and [commit_idx_] keep every value ever stored in them,
    oldest first, and a load may give any that is not older than what its thread knows of already.
    A read-modify-write reads the newest value, and what it stores carries on what the value it
    replaces carried (a release sequence). The bytes of the buffer are plain objects: to read or
    write one that another thread wrote, or to write one that another thread read, without that
    access being known, is a data race and undefined ([None]).

    A thread copies in one step: between two of its synchronizing accesses the order of its plain
    ones does not change what is known when. *)

From stdpp Require Import gmap.
From S2P Require Import Prelude Ring ByteQueue SpscQueue SpmcQueue SpmcConcurrent.

(** ** The memory *)

(** What is known to a thread: how many writes of the producer, which store of [tail_idx_] it has
    seen, and which calls have copied their bytes out. *)
Record view := { writes : Z; tail_seen : nat; reads : gset nat }.

Definition view_join (u v : view) : view :=
  {| writes := Z.max (writes u) (writes v); tail_seen := Nat.max (tail_seen u) (tail_seen v);
     reads := reads u ∪ reads v |}.

Definition fresh_view : view := {| writes := 0; tail_seen := 0; reads := ∅ |}.

(** A value of an index, with what the thread that stored it knew at its release. *)
Record message := { value : Z; carried : view }.

(** The producer inside [enqueue_bytes]: before the load of [commit_idx_], before the copy, and before
    the fence and the store of [tail_idx_]. *)
Inductive producer_pc := PIdle | PStart (data : bytes) | PCopy (data : bytes) | PStore (data : bytes).

(** A call of [dequeue_bytes]. [c_first] is the number of bytes that tickets were taken for before
    its own, which [head_idx_] has modulo 2 to the 64. *)
Record call := { c_size : Z; c_first : Z; c_pc : consumer_pc; c_view : view }.

(** [written] has the addresses of the producer's writes in their order, [fetched] those that calls
    have read. [head_view] is what the newest value of [head_idx_] carries: no thread loads an older
    one. [stream] and [asked] are records: the bytes that were copied in and the total of the
    tickets. *)
Record weak := {
  wq : SpmcQueue;
  tails : list message; commits : list message; head_view : view;
  written : list Z; fetched : list (nat * Z);
  wp : producer_pc; producer_view : view; commit_seen : nat;
  calls : list call;
  stream : bytes; asked : Z;
}.

(** The addresses of [n] bytes from an index on. *)
Definition addresses (q : SpmcQueue) (idx n : Z) : list Z := ring_addr (mask_ q) idx <$> seqZ 0 n.

(** Every write to these bytes is known. *)
Definition writes_known (written : list Z) (v : view) (addrs : list Z) : bool :=
  bool_decide (Forall (λ a, a ∉ addrs) (drop (Z.to_nat (writes v)) written)).

(** Every read of these bytes is known. *)
Definition reads_known (fetched : list (nat * Z)) (v : view) (addrs : list Z) : bool :=
  bool_decide (Forall (λ p, p.2 ∈ addrs -> p.1 ∈ reads v) fetched).

(** ** The steps *)

Definition see_tail (q : SpmcQueue) (t : Z) : SpmcQueue :=
  {| buffer_ := buffer_ q; capacity_ := capacity_ q; mask_ := mask_ q; tail_idx_ := t;
     head_idx_ := head_idx_ q; commit_idx_ := commit_idx_ q; allocation_size_ := allocation_size_ q |}.

Definition see_commit (q : SpmcQueue) (c : Z) : SpmcQueue :=
  {| buffer_ := buffer_ q; capacity_ := capacity_ q; mask_ := mask_ q; tail_idx_ := tail_idx_ q;
     head_idx_ := head_idx_ q; commit_idx_ := c; allocation_size_ := allocation_size_ q |}.

Definition put_producer (s : weak) (q : SpmcQueue) (tails' : list message) (written' : list Z)
    (pc : producer_pc) (v : view) (seen : nat) (stream' : bytes) : weak :=
  {| wq := q; tails := tails'; commits := commits s; head_view := head_view s; written := written';
     fetched := fetched s; wp := pc; producer_view := v; commit_seen := seen; calls := calls s;
     stream := stream'; asked := asked s |}.

Definition put_call (s : weak) (i : nat) (c : call) (q : SpmcQueue) (commits' : list message)
    (head : view) (fetched' : list (nat * Z)) (asked' : Z) : weak :=
  {| wq := q; tails := tails s; commits := commits'; head_view := head; written := written s;
     fetched := fetched'; wp := wp s; producer_view := producer_view s; commit_seen := commit_seen s;
     calls := <[i := c]> (calls s); stream := stream s; asked := asked' |}.

(** The next step of [enqueue_bytes]; [j] is the store that the load of [commit_idx_] reads. *)
Definition weak_producer (s : weak) (j : nat) : option weak :=
  let q := wq s in
  match wp s with
  | PIdle => None
  | PStart data =>
    m ← commits s !! j;
    let known := view_join (producer_view s) (carried m) in
    Some (put_producer s q (tails s) (written s)
      (if no_space (see_commit q (value m)) (lenZ data) then PIdle else PCopy data) known j (stream s))
  | PCopy data =>
    let v := producer_view s in
    let addrs := addresses q (tail_idx_ q) (lenZ data) in
    if reads_known (fetched s) v addrs then
      buffer ← buffer_ q;
      buf ← ring_copy_in buffer (mask_ q) (tail_idx_ q) data;
      Some (put_producer s (set_tail q buf (tail_idx_ q)) (tails s) (written s ++ addrs) (PStore data)
        {| writes := writes v + lenZ data; tail_seen := tail_seen v; reads := reads v |}
        (commit_seen s) (stream s ++ data))
    else None
  | PStore data =>
    buffer ← buffer_ q;
    let tail := tail_idx_ q ⊕ lenZ data in
    let v := {| writes := writes (producer_view s); tail_seen := length (tails s); reads := reads (producer_view s) |} in
    Some (put_producer s (set_tail q buffer tail) (tails s ++ [{| value := tail; carried := v |}])
      (written s) PIdle v (commit_seen s) (stream s))
  end.

Definition move (c : call) (first : Z) (pc : consumer_pc) (v : view) : call :=
  {| c_size := c_size c; c_first := first; c_pc := pc; c_view := v |}.

(** The next step of a [dequeue_bytes]; [j] is the store that the load of [tail_idx_] reads. *)
Definition weak_consumer (s : weak) (i j : nat) : option weak :=
  c ← calls s !! i;
  let q := wq s in let v := c_view c in
  let read := read_one q (c_size c) in
  match c_pc c with
  | CStart size =>
    '(q', pc) ← consumer_step read q (c_pc c);
    let known := view_join v (head_view s) in
    Some (put_call s i (move c (asked s) pc known) q' (commits s) known (fetched s) (asked s + size))
  | CTicket size ticket =>
    m ← tails s !! j;
    '(_, pc) ← consumer_step read (see_tail q (value m)) (c_pc c);
    Some (put_call s i (move c (c_first c) pc (view_join v (carried m))) q (commits s) (head_view s)
      (fetched s) (asked s))
  | CRewind size =>
    '(q', pc) ← consumer_step read q (c_pc c);
    Some (put_call s i (move c (c_first c) pc v) q' (commits s) (view_join v (head_view s)) (fetched s)
      (asked s - size))
  | CCopy size ticket =>
    let addrs := addresses q ticket size in
    if writes_known (written s) v addrs then
      '(q', pc) ← consumer_step read q (c_pc c);
      Some (put_call s i
        (move c (c_first c) pc {| writes := writes v; tail_seen := tail_seen v; reads := {[i]} ∪ reads v |})
        q' (commits s) (head_view s) (fetched s ++ (pair i <$> addrs)) (asked s))
    else None
  | CCommit size ticket out =>
    newest ← last (commits s);
    '(q', pc) ← consumer_step read q (c_pc c);
    Some (put_call s i (move c (c_first c) pc v) q'
      (match pc with
       | CReturn _ _ => commits s ++ [{| value := commit_idx_ q'; carried := view_join v (carried newest) |}]
       | _ => commits s
       end) (head_view s) (fetched s) (asked s))
  | CReturn _ _ => None
  end.

(** A call begins in a new thread, or in one that an earlier call has returned to. *)
Definition begin_call (s : weak) (after : option nat) (size : Z) : option weak :=
  v ← match after with None => Some fresh_view | Some i => c_view <$> calls s !! i end;
  Some {| wq := wq s; tails := tails s; commits := commits s; head_view := head_view s;
          written := written s; fetched := fetched s; wp := wp s; producer_view := producer_view s;
          commit_seen := commit_seen s;
          calls := calls s ++ [{| c_size := size; c_first := 0; c_pc := CStart size; c_view := v |}];
          stream := stream s; asked := asked s |}.

Inductive label :=
  | Enqueue (data : bytes) | Producer (j : nat) | Dequeue (after : option nat) (size : Z) | Consumer (i j : nat).

Definition weak_step (s : weak) (l : label) : option weak :=
  match l with
  | Enqueue data =>
    Some (put_producer s (wq s) (tails s) (written s) (PStart data) (producer_view s) (commit_seen s) (stream s))
  | Producer j => weak_producer s j
  | Dequeue after size => begin_call s after size
  | Consumer i j => weak_consumer s i j
  end.

Definition returned (pc : consumer_pc) : bool := match pc with CReturn _ _ => true | _ => false end.

(** What the memory model and the threads allow. *)
Definition allowed (s : weak) (l : label) : Prop :=
  match l with
  | Enqueue data => wp s = PIdle /\ 0 < lenZ data
  | Producer j => wp s <> PIdle /\ (commit_seen s <= j < length (commits s))%nat
  | Dequeue after size => 0 < size < 2 ^ 64 /\
    match after with None => True | Some i => exists c, calls s !! i = Some c /\ returned (c_pc c) = true end
  | Consumer i j => exists c, calls s !! i = Some c /\ returned (c_pc c) = false /\
    (tail_seen (c_view c) <= j < length (tails s))%nat
  end.

(** The tail that a call loads after it has its ticket is not older than the bytes of the ticket. *)
Definition covered (s : weak) (l : label) : Prop :=
  match l with
  | Consumer i j => forall c size ticket m, calls s !! i = Some c -> c_pc c = CTicket size ticket ->
    tails s !! j = Some m -> c_first c + size <= writes (carried m)
  | _ => True
  end.

Inductive weak_run : weak -> weak -> Prop :=
  | weak_refl s : weak_run s s
  | weak_more s1 s2 s3 l :
    weak_run s1 s2 -> allowed s2 l -> covered s2 l -> weak_step s2 l = Some s3 -> weak_run s1 s3.

(** A queue as [reserve] leaves it, known to every thread. *)
Definition weak_start (q : SpmcQueue) : weak :=
  {| wq := q; tails := [{| value := tail_idx_ q; carried := fresh_view |}];
     commits := [{| value := commit_idx_ q; carried := fresh_view |}]; head_view := fresh_view;
     written := []; fetched := []; wp := PIdle; producer_view := fresh_view; commit_seen := 0;
     calls := []; stream := []; asked := 0 |}.

(** ** Rings *)

Lemma mod_apart cap x y : 0 < x - y < cap -> x mod cap <> y mod cap.
Proof.
  intros H E. assert ((x - y) mod cap = 0) as H0 by (by rewrite Zminus_mod, E, Z.sub_diag, Zmod_0_l).
  rewrite Z.mod_small in H0; lia.
Qed.

(** From a later index on, the ring holds a later part of the stream. *)
Lemma ring_later buf cap c f stream :
  0 <= c <= f -> f <= lenZ stream ->
  ring_slice buf cap c (lenZ stream - c) = drop (Z.to_nat c) stream ->
  ring_slice buf cap f (lenZ stream - f) = drop (Z.to_nat f) stream.
Proof.
  intros Hc Hf Hr. replace (lenZ stream - c) with ((f - c) + (lenZ stream - f)) in Hr by lia.
  rewrite ring_slice_app in Hr by lia. apply (f_equal (drop (Z.to_nat (f - c)))) in Hr.
  pose proof (ring_slice_length buf cap c (f - c) ltac:(lia)) as Hl.
  rewrite drop_drop, drop_app_length' in Hr by (unfold lenZ in *; lia).
  replace (c + (f - c)) with f in Hr by lia. rewrite Hr. f_equal. lia.
Qed.

Lemma ring_piece buf cap c f n stream :
  0 <= c <= f -> 0 <= n -> f + n <= lenZ stream ->
  ring_slice buf cap c (lenZ stream - c) = drop (Z.to_nat c) stream ->
  ring_slice buf cap f n = piece stream f n.
Proof.
  intros Hc Hn Hf Hr. apply (ring_later _ _ _ f) in Hr; [|lia..].
  replace (lenZ stream - f) with (n + (lenZ stream - f - n)) in Hr by lia.
  rewrite ring_slice_app in Hr by lia. unfold piece. rewrite <- Hr.
  pose proof (ring_slice_length buf cap f n Hn). rewrite take_app_length'; [done|]. unfold lenZ in *. lia.
Qed.

(** ** Tickets *)

Definition ticket_of (c : call) : option (Z * Z) :=
  match c_pc c with CStart _ => None | _ => Some (c_first c, c_size c) end.

Definition ticket (cs : list call) (i : nat) : option (Z * Z) := cs !! i ≫= ticket_of.

(** The calls whose tickets end by [c] are in [R]; no ticket lies across [c]. *)
Definition freed (cs : list call) (c : Z) (R : gset nat) : Prop :=
  forall i f n, ticket cs i = Some (f, n) -> f + n <= c /\ i ∈ R \/ c <= f.

Lemma freed_mono cs c R R' : R ⊆ R' -> freed cs c R -> freed cs c R'.
Proof. intros HR Hf i f n Hi. destruct (Hf i f n Hi) as [[? ?]|?]; [left; split; [done | set_solver]|by right]. Qed.

Definition disjoint_tickets (cs : list call) : Prop :=
  forall i j f n f' n', i <> j -> ticket cs i = Some (f, n) -> ticket cs j = Some (f', n') ->
    f + n <= f' \/ f' + n' <= f.

(** A call that has its ticket moves on. *)
Lemma ticket_move cs i c pc v :
  cs !! i = Some c -> ticket_of c <> None -> ticket_of (move c (c_first c) pc v) <> None ->
  forall j, ticket (<[i := move c (c_first c) pc v]> cs) j = ticket cs j.
Proof.
  intros Hi Hc Hm j. unfold ticket. destruct (decide (j = i)) as [->|Hne].
  - rewrite list_lookup_insert_eq by (by eapply lookup_lt_Some). rewrite Hi. cbn.
    unfold ticket_of in *. cbn in *. by destruct pc, (c_pc c).
  - by rewrite list_lookup_insert_ne.
Qed.

(** A new ticket. *)
Lemma ticket_new cs i c f n pc v j p :
  cs !! i = Some c -> ticket_of c = None -> c_size c = n ->
  ticket (<[i := move c f pc v]> cs) j = Some p -> j = i /\ p = (f, n) \/ j <> i /\ ticket cs j = Some p.
Proof.
  intros Hi Hc Hn. unfold ticket. destruct (decide (j = i)) as [->|Hne].
  - rewrite list_lookup_insert_eq by (by eapply lookup_lt_Some). cbn. unfold ticket_of. cbn.
    rewrite Hn. destruct pc; intros [= <-]; by left.
  - rewrite list_lookup_insert_ne by done. by right.
Qed.

(** ** The invariant *)

(** What is known is not newer than the store that it comes with. *)
Definition view_ok (ts : list message) (v : view) : Prop :=
  exists m, ts !! tail_seen v = Some m /\ writes v <= writes (carried m).

Definition planned (pc : producer_pc) : Z := match pc with PCopy d | PStore d => lenZ d | _ => 0 end.
Definition pending (pc : producer_pc) : Z := match pc with PStore d => lenZ d | _ => 0 end.

(** Where a call can be, [c] being the commit index, [p] the tail and [asked] the tickets. *)
Definition call_ok (c p asked : Z) (stream : bytes) (i : nat) (x : call) : Prop :=
  0 < c_size x < 2 ^ 64 /\
  match c_pc x with
  | CStart n => n = c_size x
  | CRewind _ => False
  | CTicket n t => n = c_size x /\ t = u64 (c_first x) /\ c <= c_first x /\ c_first x + n <= asked
  | CCopy n t => n = c_size x /\ t = u64 (c_first x) /\ c <= c_first x /\ c_first x + n <= asked /\
      c_first x + n <= writes (c_view x)
  | CCommit n t out => n = c_size x /\ t = u64 (c_first x) /\ c <= c_first x /\ c_first x + n <= asked /\
      c_first x + n <= p /\ i ∈ reads (c_view x) /\ out = [piece stream (c_first x) n]
  | CReturn st out => st = kOk /\ 0 <= c_first x /\ c_first x + c_size x <= c /\
      out = [piece stream (c_first x) (c_size x)]
  end.

Definition copied (pc : consumer_pc) : Prop := match pc with CCommit _ _ _ | CReturn _ _ => True | _ => False end.

(** [P] and [C] are the tail and the commit index before they wrap around, [cs] the commits so. *)
Record weak_inv (k : Z) (buf : bytes) (P C : Z) (cs : list Z) (s : weak) : Prop := {
  wi_k : 1 <= k <= 63;
  wi_buffer : buffer_ (wq s) = Some buf;
  wi_alloc : 2 ^ k <= lenZ buf;
  wi_capacity : capacity_ (wq s) = 2 ^ k;
  wi_mask : mask_ (wq s) = 2 ^ k - 1;
  wi_tail : tail_idx_ (wq s) = u64 P;
  wi_commit : commit_idx_ (wq s) = u64 C;
  wi_head : head_idx_ (wq s) = u64 (asked s);
  wi_stream : lenZ (stream s) = P + pending (wp s);
  wi_data : match wp s with PIdle => True | PStart d | PCopy d | PStore d => 0 < lenZ d end;
  wi_order : 0 <= C <= P /\ C <= asked s;
  wi_ring : ring_slice buf (2 ^ k) C (lenZ (stream s) - C) = drop (Z.to_nat C) (stream s);
  wi_written : written s = (λ x, x mod 2 ^ k) <$> seqZ 0 (lenZ (stream s));
  wi_producer : writes (producer_view s) = lenZ (stream s);
  wi_tails : forall j m, tails s !! j = Some m -> value m = u64 (writes (carried m)) /\
    tail_seen (carried m) = j /\ 0 <= writes (carried m) <= P;
  wi_tails_sorted : forall i j m m', (i <= j)%nat -> tails s !! i = Some m -> tails s !! j = Some m' ->
    writes (carried m) <= writes (carried m');
  wi_commits : Forall2 (λ c m, value m = u64 c /\ writes (carried m) <= P /\
    freed (calls s) c (reads (carried m))) cs (commits s);
  wi_sorted : forall i j c c', (i <= j)%nat -> cs !! i = Some c -> cs !! j = Some c' -> 0 <= c <= c';
  wi_last : last cs = Some C;
  wi_seen : exists c, cs !! commit_seen s = Some c /\ P + planned (wp s) <= c + 2 ^ k /\
    freed (calls s) c (reads (producer_view s));
  wi_head_view : view_ok (tails s) (head_view s);
  wi_calls : forall i x, calls s !! i = Some x -> view_ok (tails s) (c_view x) /\
    call_ok C P (asked s) (stream s) i x;
  wi_disjoint : disjoint_tickets (calls s);
  wi_fetched : forall i a, (i, a) ∈ fetched s -> exists x y, calls s !! i = Some x /\ copied (c_pc x) /\
    c_first x <= y < c_first x + c_size x /\ a = y mod 2 ^ k;
}.

Lemma addresses_eq k q X n :
  mask_ q = 2 ^ k - 1 -> 1 <= k <= 63 -> 0 <= n <= 2 ^ k ->
  addresses q (u64 X) n = (λ x, x mod 2 ^ k) <$> seqZ X n.
Proof.
  intros Hm Hk Hn. unfold addresses. rewrite Hm. rewrite <- (Z.add_0_r X) at 2.
  rewrite <- fmap_add_seqZ, <- list_fmap_compose. apply list_fmap_ext. intros i x Hx.
  apply list_elem_of_lookup_2, elem_of_seqZ in Hx. cbn. rewrite ring_addr_mod by lia.
  by rewrite <- Zplus_mod_idemp_l, u64_mod_pow2, Zplus_mod_idemp_l by lia.
Qed.

Lemma view_ok_join ts u v : view_ok ts u -> view_ok ts v ->
  (forall i j m m', (i <= j)%nat -> ts !! i = Some m -> ts !! j = Some m' -> writes (carried m) <= writes (carried m')) ->
  view_ok ts (view_join u v).
Proof.
  intros (m & Hm & Hu) (m' & Hm' & Hv) Hs. unfold view_ok, view_join. cbn.
  destruct (Nat.max_spec (tail_seen u) (tail_seen v)) as [[Hlt ->]|[Hle ->]].
  - exists m'. split; [done|]. pose proof (Hs _ _ _ _ (Nat.lt_le_incl _ _ Hlt) Hm Hm'). lia.
  - exists m. split; [done|]. pose proof (Hs _ _ _ _ Hle Hm' Hm). lia.
Qed.

Lemma view_ok_more ts more v : view_ok ts v -> view_ok (ts ++ more) v.
Proof. intros (m & Hm & ?). exists m. split; [by apply lookup_app_l_Some | done]. Qed.

Lemma call_ok_more c p p' asked stream more i x :
  c <= p -> p <= p' -> p <= lenZ stream -> 0 <= c -> call_ok c p asked stream i x ->
  call_ok c p' asked (stream ++ more) i x.
Proof.
  intros Hc Hp Hl H0 [Hs Hx]. split; [done|]. destruct (c_pc x); try done.
  - destruct Hx as (-> & ? & ? & ? & ? & ? & ->). split_and!; try done; [lia|]. by rewrite piece_app by lia.
  - destruct Hx as (? & ? & ? & ->). split_and!; try done. by rewrite piece_app by lia.
Qed.

Lemma call_ok_asked c p asked asked' stream i x :
  asked <= asked' -> call_ok c p asked stream i x -> call_ok c p asked' stream i x.
Proof. intros Ha [Hs Hx]. split; [done|]. destruct (c_pc x); intuition lia. Qed.

Arguments wi_k {_ _ _ _ _ _}. Arguments wi_order {_ _ _ _ _ _}. Arguments wi_calls {_ _ _ _ _ _}.
Arguments wi_seen {_ _ _ _ _ _}. Arguments wi_stream {_ _ _ _ _ _}.

Section facts.
Context (k : Z) (buf : bytes) (P C : Z) (cs : list Z) (s : weak) (I : weak_inv k buf P C cs s).

Lemma wi_cap : 2 <= 2 ^ k <= 2 ^ 63.
Proof. apply ring_cap_bounds, (wi_k I). Qed.

Lemma wi_commit_le j c : cs !! j = Some c -> 0 <= c <= C.
Proof.
  intros Hj. pose proof (wi_last _ _ _ _ _ _ I) as Hl. rewrite last_lookup in Hl.
  eapply (wi_sorted _ _ _ _ _ _ I j); [|done..]. apply lookup_lt_Some in Hj. lia.
Qed.

(** Everything that is planned fits behind the commit index. *)
Lemma wi_used : P + planned (wp s) <= C + 2 ^ k /\ P <= lenZ (stream s) <= P + planned (wp s).
Proof.
  destruct (wi_seen I) as (c & Hc & Hp & _). pose proof (wi_commit_le _ _ Hc). split; [lia|].
  rewrite (wi_stream I). destruct (wp s) as [|d|d|d]; cbn; [lia | pose proof (lenZ_nonneg d); lia..].
Qed.

Lemma wi_ticket i f n : ticket (calls s) i = Some (f, n) -> 0 <= f /\ 0 < n /\ f + n <= asked s.
Proof.
  unfold ticket. destruct (calls s !! i) as [x|] eqn:Hi; [|done]. cbn. unfold ticket_of.
  destruct (wi_calls I i x Hi) as [_ [Hs Hx]]. pose proof (wi_order I).
  destruct (c_pc x); intros [= <- <-]; intuition lia.
Qed.

(** *** The producer *)

Lemma producer_loads_commit d j :
  wp s = PStart d -> (commit_seen s <= j < length (commits s))%nat ->
  exists s', weak_producer s j = Some s' /\ weak_inv k buf P C cs s'.
Proof.
  intros Hpc [Hj Hlen]. destruct (lookup_lt_is_Some_2 _ _ Hlen) as [m Hm].
  unfold weak_producer. rewrite Hpc, Hm. cbn [mbind option_bind]. eexists. split; [done|].
  pose proof wi_cap. pose proof wi_used as [Hu1 Hu2]. pose proof (wi_order I) as Ho.
  destruct (Forall2_lookup_r _ _ _ _ _ (wi_commits _ _ _ _ _ _ I) Hm) as (c & Hc & Hv & Hw & Hf).
  destruct (wi_seen I) as (c0 & Hc0 & Hp0 & Hf0). rewrite Hpc in *. cbn in Hu1, Hu2, Hp0.
  pose proof (wi_sorted _ _ _ _ _ _ I _ _ _ _ Hj Hc0 Hc) as Hcc. pose proof (wi_commit_le _ _ Hc).
  assert (no_space (see_commit (wq s) (value m)) (lenZ d) = (2 ^ k - (P - c) <? lenZ d)) as ->.
  { unfold no_space. cbn. rewrite (wi_tail _ _ _ _ _ _ I), Hv, (wi_capacity _ _ _ _ _ _ I).
    rewrite u64_sub_counters by lia. by rewrite u64_small by lia. }
  assert (forall pc, pending pc = 0 -> P + planned pc <= c + 2 ^ k ->
    (match pc with PIdle => True | PStart d | PCopy d | PStore d => 0 < lenZ d end) ->
    weak_inv k buf P C cs (put_producer s (wq s) (tails s) (written s) pc
      (view_join (producer_view s) (carried m)) j (stream s))) as Hinv.
  { intros pc Hpend Hplan Hdata. pose proof (wi_stream I) as Hst. rewrite Hpc in Hst.
    destruct I. constructor; try done; cbn; rewrite ?Hpend.
    - lia.
    - lia.
    - exists c. split_and!; [done | lia |]. eapply freed_mono; [|exact Hf]. cbn. set_solver. }
  pose proof (wi_data _ _ _ _ _ _ I) as Hd. rewrite Hpc in Hd.
  destruct (Z.ltb_spec (2 ^ k - (P - c)) (lenZ d)); apply Hinv; cbn; try done; lia.
Qed.

(** The tickets whose bytes were copied end by the tail. *)
Lemma wi_copied i x : calls s !! i = Some x -> copied (c_pc x) ->
  ticket (calls s) i = Some (c_first x, c_size x) /\ 0 <= c_first x /\ c_first x + c_size x <= P.
Proof.
  intros Hi Hx. pose proof (wi_order I). destruct (wi_calls I i x Hi) as [_ [Hs Hok]].
  unfold ticket, ticket_of. rewrite Hi. cbn. destruct (c_pc x); try done; intuition lia.
Qed.

(** The bytes that the producer writes next were read by calls it knows of. *)
Lemma wi_reads_known d : wp s = PCopy d ->
  reads_known (fetched s) (producer_view s) (addresses (wq s) (tail_idx_ (wq s)) (lenZ d)) = true.
Proof.
  intros Hpc. pose proof wi_cap. pose proof wi_used as [Hu _]. rewrite Hpc in Hu. cbn in Hu.
  destruct (wi_seen I) as (c & Hc & Hp & Hf). rewrite Hpc in Hp. cbn in Hp.
  pose proof (wi_order I). pose proof (wi_commit_le _ _ Hc). pose proof (lenZ_nonneg d).
  rewrite (wi_tail _ _ _ _ _ _ I), (addresses_eq k) by (try apply I; lia).
  apply bool_decide_eq_true, Forall_forall. intros [i a] Hin Ha. cbn in *.
  destruct (wi_fetched _ _ _ _ _ _ I i a Hin) as (x & y & Hi & Hx & Hy & ->).
  destruct (wi_copied i x Hi Hx) as (Ht & Hx0 & Hle).
  destruct (Hf _ _ _ Ht) as [[_ ?]|Hlate]; [done|].
  apply list_elem_of_fmap in Ha as (x' & E & Hx'%elem_of_seqZ).
  destruct (mod_apart (2 ^ k) x' y); [lia | done].
Qed.

Lemma producer_copies d j :
  wp s = PCopy d -> exists s' buf', weak_producer s j = Some s' /\ weak_inv k buf' P C cs s'.
Proof.
  intros Hpc. pose proof wi_cap as Hcap. pose proof wi_used as [Hu1 Hu2].
  pose proof (wi_data _ _ _ _ _ _ I) as Hd. pose proof (wi_order I) as Ho.
  pose proof (wi_stream I) as Hst. pose proof (wi_seen I) as Hse. rewrite Hpc in *. cbn in Hu1, Hu2, Hst, Hse, Hd.
  unfold weak_producer. rewrite Hpc, wi_reads_known, (wi_buffer _ _ _ _ _ _ I) by done.
  cbn [mbind option_bind]. rewrite (wi_mask _ _ _ _ _ _ I).
  destruct (ring_write_slices k ltac:(apply I) buf ltac:(apply I) (tail_idx_ (wq s)) d)
    as (buf' & -> & Hlen & Hnew & Hold); [lia|].
  cbn [mbind option_bind]. eexists _, buf'. split; [done|].
  assert (forall x, u64 x mod 2 ^ k = x mod 2 ^ k) as Hmod
    by (intros x; rewrite u64_mod_pow2 by (pose proof (wi_k I); lia); done).
  pose proof I as []. constructor; cbn; rewrite ?lenZ_app; try done; try lia.
  - replace (lenZ (stream s) + lenZ d - C) with (lenZ (stream s) - C + lenZ d) by lia.
    rewrite ring_slice_app, drop_app_le by (unfold lenZ in *; lia). f_equal.
    + rewrite Hold; [done | lia | | lia]. rewrite wi_tail0, Hmod. f_equal. lia.
    + rewrite (ring_slice_mod _ _ _ (tail_idx_ (wq s))); [done|]. rewrite wi_tail0, Hmod. f_equal. lia.
  - rewrite wi_tail0, (addresses_eq k), wi_written0, <- fmap_app by (try done; lia). f_equal.
    replace P with (0 + lenZ (stream s)) by lia. rewrite <- seqZ_app by lia. done.
  - intros i x Hi. destruct (wi_calls0 i x Hi) as [Hv Hx]. split; [done|].
    eapply call_ok_more, Hx; lia.
Qed.

Lemma producer_publishes d j :
  wp s = PStore d -> exists s', weak_producer s j = Some s' /\ weak_inv k buf (P + lenZ d) C cs s'.
Proof.
  intros Hpc. unfold weak_producer. rewrite Hpc, (wi_buffer _ _ _ _ _ _ I). cbn [mbind option_bind].
  eexists. split; [done|]. pose proof wi_used as [Hu1 Hu2].
  pose proof (wi_data _ _ _ _ _ _ I) as Hd. pose proof (wi_order I) as Ho.
  pose proof (wi_stream I) as Hst. pose proof (wi_seen I) as Hse. rewrite Hpc in *. cbn in Hu1, Hu2, Hst, Hse, Hd.
  pose proof I as [].
  assert (forall j m v, (tails s ++ [{| value := tail_idx_ (wq s) ⊕ lenZ d; carried := v |}]) !! j = Some m ->
    tails s !! j = Some m \/ j = length (tails s) /\ m = {| value := tail_idx_ (wq s) ⊕ lenZ d; carried := v |}) as Hin.
  { intros i m v [Hi|[Hl Hi]]%lookup_app_Some; [by left|right].
    destruct (i - length (tails s))%nat as [|n] eqn:Hn; [|by destruct n]. injection Hi as <-. split; [lia|done]. }
  constructor; cbn; try done; try lia.
  - by rewrite wi_tail0, u64_add_l.
  - intros i m [Hi| [-> ->]]%Hin; cbn.
    + destruct (wi_tails0 i m Hi) as (? & ? & ?). split_and!; try done; lia.
    + rewrite wi_producer0, wi_tail0, u64_add_l. split_and!; try done; [f_equal; lia | lia..].
  - intros i i' m m' Hle [Hi|[-> ->]]%Hin [Hi'|[-> ->]]%Hin; cbn.
    + by apply (wi_tails_sorted0 i i').
    + apply wi_tails0 in Hi. lia.
    + apply lookup_lt_Some in Hi'. lia.
    + done.
  - eapply Forall2_impl; [exact wi_commits0|]. intros c m (? & ? & ?). split_and!; try done. lia.
  - destruct Hse as (c & ? & ? & ?). exists c. split_and!; try done. lia.
  - by apply view_ok_more.
  - intros i x Hi. destruct (wi_calls0 i x Hi) as [Hv Hx]. split; [by apply view_ok_more|].
    rewrite <- (app_nil_r (stream s)). eapply call_ok_more, Hx; lia.
Qed.

(** *** A call *)

(** A call that has its ticket moves on without a store to an index. *)
Lemma wi_move i x pc v fetched' :
  calls s !! i = Some x -> ticket_of x <> None -> ticket_of (move x (c_first x) pc v) <> None ->
  view_ok (tails s) v -> call_ok C P (asked s) (stream s) i (move x (c_first x) pc v) ->
  (copied (c_pc x) -> copied pc) ->
  (forall j a, (j, a) ∈ fetched' -> (j, a) ∈ fetched s \/
     j = i /\ copied pc /\ exists y, c_first x <= y < c_first x + c_size x /\ a = y mod 2 ^ k) ->
  weak_inv k buf P C cs
    (put_call s i (move x (c_first x) pc v) (wq s) (commits s) (head_view s) fetched' (asked s)).
Proof.
  intros Hi Hx Hm Hv Hok Hcop Hfet. pose proof (ticket_move _ _ _ _ _ Hi Hx Hm) as Ht.
  pose proof (lookup_lt_Some _ _ _ Hi) as Hlt.
  assert (forall c R, freed (calls s) c R -> freed (<[i := move x (c_first x) pc v]> (calls s)) c R) as Hfr.
  { intros c R Hf j f n. rewrite Ht. apply Hf. }
  pose proof I as []. constructor; cbn; try done.
  - eapply Forall2_impl; [exact wi_commits0|]. intros c m (? & ? & ?). split_and!; try done. by apply Hfr.
  - destruct wi_seen0 as (c & ? & ? & ?). exists c. split_and!; try done. by apply Hfr.
  - intros j y. rewrite list_lookup_insert. case_decide as Hd; [|by apply wi_calls0].
    intros [= <-]. destruct Hd as [<- _]. done.
  - intros j j' f n f' n'. rewrite !Ht. apply wi_disjoint0.
  - intros j a Hin. destruct (Hfet j a Hin) as [Hold|(-> & Hc & y & Hy & ->)].
    + destruct (wi_fetched0 j a Hold) as (z & y & Hz & Hc & Hy). rewrite list_lookup_insert. case_decide as Hd.
      * destruct Hd as [-> _]. rewrite Hi in Hz. injection Hz as <-.
        eexists _, y. split; [done|]. split; [by apply Hcop | done].
      * by exists z, y.
    + rewrite list_lookup_insert_eq by done. by eexists _, y.
Qed.

Lemma wi_commits_impl (Q : Z -> message -> Prop) :
  (forall c m, 0 <= c <= C -> value m = u64 c /\ writes (carried m) <= P /\
     freed (calls s) c (reads (carried m)) -> Q c m) -> Forall2 Q cs (commits s).
Proof.
  intros HQ. pose proof (wi_commits _ _ _ _ _ _ I) as Hf. apply Forall2_same_length_lookup in Hf as [Hl Hf].
  apply Forall2_same_length_lookup. split; [done|]. intros j c m Hc Hm. apply HQ; [|by apply (Hf j)].
  by eapply wi_commit_le.
Qed.

Lemma call_takes_ticket i j0 x n :
  calls s !! i = Some x -> c_pc x = CStart n ->
  exists s', weak_consumer s i j0 = Some s' /\ weak_inv k buf P C cs s'.
Proof.
  intros Hi Hpc. unfold weak_consumer. rewrite Hi. cbn [mbind option_bind]. rewrite Hpc.
  cbn [mbind option_bind consumer_step]. eexists. split; [done|].
  destruct (wi_calls I i x Hi) as [Hv [Hs Hn]]. rewrite Hpc in Hn. subst n.
  pose proof (wi_order I) as Ho. pose proof (lookup_lt_Some _ _ _ Hi) as Hlt.
  assert (ticket_of x = None) as Hnone by (unfold ticket_of; by rewrite Hpc).
  set (pc := CTicket (c_size x) (head_idx_ (wq s))). set (v := view_join (c_view x) (head_view s)).
  pose proof (fun j p => ticket_new (calls s) i x (asked s) (c_size x) pc v j p Hi Hnone eq_refl) as Ht.
  assert (forall c R, c <= C -> freed (calls s) c R -> freed (<[i := move x (asked s) pc v]> (calls s)) c R) as Hfr.
  { intros c R Hc Hf j f n [[-> [= -> ->]]|[_ Hj]]%Ht; [right; lia | by apply (Hf j)]. }
  assert (view_ok (tails s) v) as Hvj by (apply view_ok_join; [done | apply I | apply I]).
  pose proof I as []. constructor; cbn; try done; try lia.
  - by rewrite wi_head0, u64_add_l.
  - apply wi_commits_impl. intros c m Hc (? & ? & ?). split_and!; try done. apply Hfr; [lia|done].
  - destruct wi_seen0 as (c & Hc & ? & ?). pose proof (wi_commit_le _ _ Hc).
    exists c. split_and!; try done. apply Hfr; [lia|done].
  - intros j y. rewrite list_lookup_insert. case_decide as Hd.
    + intros [= <-]. split; [done|]. split; [done|]. cbn. split_and!; try done; lia.
    + intros Hy. destruct (wi_calls0 j y Hy) as [? ?]. split; [done|]. eapply call_ok_asked; [|done]. lia.
  - intros j j' f n f' n' Hne [[-> [= -> ->]]|[Hj Ej]]%Ht [[-> [= -> ->]]|[Hj' Ej']]%Ht; [done| | |].
    + apply wi_ticket in Ej'. lia.
    + apply wi_ticket in Ej. lia.
    + by apply (wi_disjoint0 j j').
  - intros j a Hin. destruct (wi_fetched0 j a Hin) as (z & y & Hz & Hc & Hy). exists z, y.
    rewrite list_lookup_insert_ne; [done|]. intros <-. rewrite Hi in Hz. injection Hz as <-. by rewrite Hpc in Hc.
Qed.

(** What the load of the tail leads to. [w] is the tail it gives, before it wraps around. *)
Lemma call_loads_tail i j x n t m :
  calls s !! i = Some x -> c_pc x = CTicket n t -> tails s !! j = Some m ->
  let w := writes (carried m) in
  weak_consumer s i j = Some (put_call s i
    (move x (c_first x) (if u64 (w - c_first x) <? n then CRewind n else CCopy n t)
      (view_join (c_view x) (carried m)))
    (wq s) (commits s) (head_view s) (fetched s) (asked s)).
Proof.
  intros Hi Hpc Hm w. unfold weak_consumer. rewrite Hi. cbn [mbind option_bind]. rewrite Hpc, Hm.
  cbn [mbind option_bind consumer_step see_tail tail_idx_].
  destruct (wi_calls I i x Hi) as [_ [_ Hx]]. rewrite Hpc in Hx. destruct Hx as (-> & -> & _).
  destruct (wi_tails _ _ _ _ _ _ I j m Hm) as (-> & _).
  subst w. rewrite u64_sub_l, u64_sub_r. by destruct (_ <? _).
Qed.

Lemma view_ok_load j m u :
  view_ok (tails s) u -> (tail_seen u <= j)%nat -> tails s !! j = Some m ->
  view_ok (tails s) (view_join u (carried m)) /\ writes (view_join u (carried m)) = writes (carried m).
Proof.
  intros Hu Hj Hm. split.
  - apply view_ok_join; [done | | apply I]. destruct (wi_tails _ _ _ _ _ _ I j m Hm) as (_ & Hs & _).
    exists m. by rewrite Hs.
  - destruct Hu as (m' & Hm' & Hle). pose proof (wi_tails_sorted _ _ _ _ _ _ I _ _ _ _ Hj Hm' Hm). cbn. lia.
Qed.

Lemma covered_load_ok i j x n t m :
  calls s !! i = Some x -> c_pc x = CTicket n t -> (tail_seen (c_view x) <= j)%nat -> tails s !! j = Some m ->
  c_first x + n <= writes (carried m) ->
  exists s', weak_consumer s i j = Some s' /\ weak_inv k buf P C cs s' /\
    exists v, calls s' !! i = Some (move x (c_first x) (CCopy n t) v).
Proof.
  intros Hi Hpc Hj Hm Hcov. rewrite (call_loads_tail i j x n t m Hi Hpc Hm).
  pose proof wi_cap. pose proof wi_used as [Hu _]. pose proof (wi_order I).
  destruct (wi_calls I i x Hi) as [Hv [Hs Hx]]. rewrite Hpc in Hx. destruct Hx as (-> & -> & HC & Ha).
  destruct (wi_tails _ _ _ _ _ _ I j m Hm) as (_ & _ & Hw).
  destruct (view_ok_load j m (c_view x) Hv Hj Hm) as [Hv' Hw'].
  assert (0 <= planned (wp s)) by (destruct (wp s); cbn; try lia; apply lenZ_nonneg).
  rewrite u64_small, (proj2 (Z.ltb_ge _ _)) by lia. eexists. split; [done|]. split.
  - apply wi_move; try done; [| |by rewrite Hpc | by left].
    + unfold ticket_of. by rewrite Hpc.
    + split; [done|]. cbn -[view_join]. rewrite Hw'. split_and!; try done; lia.
  - eexists. cbn. by rewrite list_lookup_insert_eq by (by eapply lookup_lt_Some).
Qed.

(** The call knows every write to the bytes of its ticket when what it knows of covers them. *)
Lemma wi_writes_known x f n :
  C <= f -> 0 < n -> f + n <= writes (c_view x) -> view_ok (tails s) (c_view x) ->
  writes_known (written s) (c_view x) (addresses (wq s) (u64 f) n) = true.
Proof.
  intros Hf Hn Hw (m & Hm & Hv). pose proof wi_cap. pose proof wi_used as [Hu Hl]. pose proof (wi_order I).
  destruct (wi_tails _ _ _ _ _ _ I _ m Hm) as (_ & _ & HP).
  rewrite (wi_written _ _ _ _ _ _ I), (addresses_eq k) by (try apply I; lia).
  apply bool_decide_eq_true, Forall_forall. intros a Ha Hin.
  rewrite <- fmap_drop in Ha. apply list_elem_of_fmap in Ha as (z & -> & Hz), Hin as (y & E & Hy%elem_of_seqZ).
  apply list_elem_of_lookup in Hz as (p & Hp). rewrite lookup_drop in Hp.
  apply lookup_seqZ in Hp as [-> Hp]. destruct (mod_apart (2 ^ k) (0 + Z.of_nat (Z.to_nat (writes (c_view x)) + p)) y); [lia | done].
Qed.

Lemma call_copies i j x n t :
  calls s !! i = Some x -> c_pc x = CCopy n t ->
  exists s', weak_consumer s i j = Some s' /\ weak_inv k buf P C cs s'.
Proof.
  intros Hi Hpc. unfold weak_consumer. rewrite Hi. cbn [mbind option_bind]. rewrite Hpc.
  destruct (wi_calls I i x Hi) as [Hv [Hs Hx]]. rewrite Hpc in Hx. destruct Hx as (-> & -> & HC & Ha & Hw).
  pose proof wi_cap. pose proof wi_used as [Hu Hl]. pose proof (wi_order I).
  assert (c_first x + c_size x <= P) as HP.
  { destruct Hv as (m & Hm & ?). apply (wi_tails _ _ _ _ _ _ I) in Hm. lia. }
  rewrite wi_writes_known by (try done; lia). cbn [consumer_step].
  rewrite (wi_buffer _ _ _ _ _ _ I). cbn [mbind option_bind]. unfold read_one at 1.
  rewrite (wi_mask _ _ _ _ _ _ I), (ring_copy_out_spec k) by (try apply I; lia). cbn [mbind option_bind].
  rewrite (ring_slice_mod _ _ _ (c_first x)) by (by rewrite u64_mod_pow2 by (pose proof (wi_k I); lia)).
  rewrite (ring_piece buf (2 ^ k) C (c_first x) (c_size x) (stream s)) by (try apply I; lia).
  eexists. split; [done|]. apply wi_move; try done.
  - unfold ticket_of. by rewrite Hpc.
  - split; [done|]. cbn. split_and!; try done. set_solver.
  - intros i' a [?|Hin]%elem_of_app; [by left|right]. apply list_elem_of_fmap in Hin as (a' & [= -> ->] & Hin).
    split; [done|]. split; [done|]. rewrite (addresses_eq k) in Hin by (try apply I; lia).
    apply list_elem_of_fmap in Hin as (y & -> & Hy%elem_of_seqZ). exists y. split; [lia|done].
Qed.

(** The call whose turn it is gives its bytes back. *)
Lemma wi_give_back i x t v newest :
  calls s !! i = Some x -> c_pc x = CCommit (c_size x) t [piece (stream s) (c_first x) (c_size x)] ->
  c_first x = C -> i ∈ reads (c_view x) -> C + c_size x <= P -> last (commits s) = Some newest ->
  let q := set_indices (wq s) (head_idx_ (wq s)) (u64 (c_first x) ⊕ c_size x) in
  let pc := CReturn kOk [piece (stream s) (c_first x) (c_size x)] in
  v = view_join (c_view x) (carried newest) ->
  weak_inv k buf P (C + c_size x) (cs ++ [C + c_size x])
    (put_call s i (move x (c_first x) pc (c_view x)) q
       (commits s ++ [{| value := u64 (c_first x) ⊕ c_size x; carried := v |}]) (head_view s) (fetched s) (asked s)).
Proof.
  intros Hi Hpc Hf HR HP Hlast q pc ->. destruct (wi_calls I i x Hi) as [Hv [Hs Hx]]. rewrite Hpc in Hx.
  pose proof wi_cap. pose proof wi_used as [Hu Hl]. pose proof (wi_order I).
  pose proof (lookup_lt_Some _ _ _ Hi) as Hlt.
  assert (ticket (calls s) i = Some (C, c_size x)) as Hti.
  { unfold ticket, ticket_of. rewrite Hi. cbn. by rewrite Hpc, Hf. }
  assert (forall j, ticket (<[i := move x (c_first x) pc (c_view x)]> (calls s)) j = ticket (calls s) j) as Ht.
  { apply ticket_move; [done | | done]. unfold ticket_of. by rewrite Hpc. }
  assert (forall c R, freed (calls s) c R -> freed (<[i := move x (c_first x) pc (c_view x)]> (calls s)) c R) as Hfr.
  { intros c R Hfc j f n. rewrite Ht. apply Hfc. }
  assert (forall j f n, j <> i -> ticket (calls s) j = Some (f, n) -> f + n <= C \/ C + c_size x <= f) as Hother.
  { intros j f n Hne Hj. destruct (wi_disjoint _ _ _ _ _ _ I _ _ _ _ _ _ Hne Hj Hti); lia. }
  pose proof I as []. constructor; cbn; try done; try lia.
  - by rewrite Hf, u64_add_l.
  - apply (ring_later _ _ C); [lia..|done].
  - apply Forall2_app.
    + apply wi_commits_impl. intros c m Hc (? & ? & ?). split_and!; try done. by apply Hfr.
    + constructor; [|constructor]. cbn. split; [by rewrite Hf, u64_add_l|].
      apply Forall2_last in wi_commits0. rewrite wi_last0, Hlast in wi_commits0.
      inversion_clear wi_commits0 as [? ? (_ & Hw & Hfn)|]. split.
      * destruct Hv as (m & Hm & ?). apply wi_tails0 in Hm. lia.
      * intros j f n. rewrite Ht. intros Hj. destruct (decide (j = i)) as [->|Hne].
        -- rewrite Hti in Hj. injection Hj as <- <-. left. split; [lia|set_solver].
        -- pose proof (wi_ticket j f n Hj). destruct (Hother j f n Hne Hj); [|by right].
           destruct (Hfn j f n Hj) as [[? ?]|?]; [left; split; [lia|set_solver] | lia].
  - intros j j' c c' Hle Hc Hc'. apply lookup_app_Some in Hc as [Hc|[Hl1 Hc]], Hc' as [?|[Hl2 Hc']].
    + by apply (wi_sorted0 j j').
    + apply list_lookup_singleton_Some in Hc' as [_ <-]. apply wi_commit_le in Hc. lia.
    + pose proof (lookup_lt_Some cs j' c' ltac:(done)). lia.
    + apply list_lookup_singleton_Some in Hc as [_ <-], Hc' as [_ <-]. lia.
  - by rewrite last_snoc.
  - destruct wi_seen0 as (c & ? & ? & ?). exists c. split_and!; [by apply lookup_app_l_Some | done |]. by apply Hfr.
  - intros j y. rewrite list_lookup_insert. case_decide as Hd.
    + destruct Hd as [<- _]. intros [= <-]. split; [done|]. split; [done|]. cbn. split_and!; try done; lia.
    + intros Hy. destruct (wi_calls0 j y Hy) as [Hvy [Hsy Hoy]]. split; [done|]. split; [done|].
      pose proof (Hother j (c_first y) (c_size y) ltac:(intros ->; by destruct Hd)) as Hoj.
      unfold ticket, ticket_of in Hoj. rewrite Hy in Hoj. cbn in Hoj.
      destruct (c_pc y); try done; try specialize (Hoj eq_refl); intuition (subst; try done; lia).
  - intros j j' f n f' n'. rewrite !Ht. apply wi_disjoint0.
  - intros j a Hin. destruct (wi_fetched0 j a Hin) as (z & y & Hz & Hc & Hy).
    rewrite list_lookup_insert. case_decide as Hd; [|by exists z, y].
    destruct Hd as [-> _]. rewrite Hi in Hz. injection Hz as <-. by eexists _, y.
Qed.

(** The commit, which waits until the tickets before it have been given back. *)
Lemma call_commits i j x n t out :
  calls s !! i = Some x -> c_pc x = CCommit n t out ->
  exists s' C' cs', weak_consumer s i j = Some s' /\ weak_inv k buf P C' cs' s'.
Proof.
  intros Hi Hpc. unfold weak_consumer. rewrite Hi. cbn [mbind option_bind]. rewrite Hpc.
  destruct (wi_calls I i x Hi) as [Hv [Hs Hx]]. rewrite Hpc in Hx.
  destruct Hx as (-> & -> & HC & Ha & HP & HR & ->).
  pose proof wi_cap. pose proof wi_used as [Hu Hl]. pose proof (wi_order I).
  destruct (last (commits s)) as [newest|] eqn:Hlast.
  2: { apply last_None in Hlast. pose proof (wi_commits _ _ _ _ _ _ I) as Hf. rewrite Hlast in Hf.
       apply Forall2_nil_inv_r in Hf. pose proof (wi_last _ _ _ _ _ _ I) as Hl'. by rewrite Hf in Hl'. }
  cbn [mbind option_bind consumer_step]. destruct (Z.eqb_spec (commit_idx_ (wq s)) (u64 (c_first x))) as [E|E].
  - assert (c_first x = C) as Hfirst.
    { rewrite (wi_commit _ _ _ _ _ _ I) in E. apply (f_equal (λ z, z ⊖ u64 C)) in E.
      rewrite !u64_sub_counters in E by lia. lia. }
    cbn [mbind option_bind]. eexists _, (C + c_size x), (cs ++ [C + c_size x]). split; [done|].
    eapply (wi_give_back i x); try done; lia.
  - cbn [mbind option_bind]. eexists _, C, cs. split; [done|].
    eapply wi_move; try done; [|by left]. unfold ticket_of. by rewrite Hpc.
Qed.

(** *** Calls that begin *)

Lemma enqueue_begins d :
  wp s = PIdle -> 0 < lenZ d ->
  weak_inv k buf P C cs
    (put_producer s (wq s) (tails s) (written s) (PStart d) (producer_view s) (commit_seen s) (stream s)).
Proof. intros Hpc Hd. pose proof I as []. rewrite Hpc in *. by constructor. Qed.

Lemma dequeue_begins after n :
  0 < n < 2 ^ 64 -> (match after with None => True | Some i => exists x, calls s !! i = Some x end) ->
  exists s', begin_call s after n = Some s' /\ weak_inv k buf P C cs s'.
Proof.
  intros Hn Hafter. unfold begin_call.
  assert (exists v, match after with None => Some fresh_view | Some i => c_view <$> calls s !! i end = Some v /\
    view_ok (tails s) v) as (v & -> & Hv).
  { destruct after as [i|].
    - destruct Hafter as [x Hx]. rewrite Hx. eexists. split; [done|]. by apply (wi_calls I i x).
    - eexists. split; [done|]. destruct (wi_head_view _ _ _ _ _ _ I) as (m & Hm & _).
      pose proof (lookup_lt_Some _ _ _ Hm). destruct (lookup_lt_is_Some_2 (tails s) 0) as [m0 Hm0]; [lia|].
      exists m0. split; [done|]. by apply (wi_tails _ _ _ _ _ _ I 0). }
  cbn [mbind option_bind]. eexists. split; [done|].
  set (x := {| c_size := n; c_first := 0; c_pc := CStart n; c_view := v |}).
  assert (forall j, ticket (calls s ++ [x]) j = ticket (calls s) j) as Ht.
  { intros j. unfold ticket. destruct (decide (j < length (calls s))%nat).
    - by rewrite lookup_app_l.
    - rewrite (lookup_ge_None_2 (calls s)) by lia. destruct ((calls s ++ [x]) !! j) as [y|] eqn:Hy; [|done].
      apply lookup_app_Some in Hy as [?%lookup_lt_Some|[_ [_ <-]%list_lookup_singleton_Some]]; [lia|done]. }
  assert (forall c R, freed (calls s) c R -> freed (calls s ++ [x]) c R) as Hfr.
  { intros c R Hf j f m. rewrite Ht. apply Hf. }
  pose proof I as []. constructor; cbn; try done.
  - apply wi_commits_impl. intros c m Hc (? & ? & ?). split_and!; try done. by apply Hfr.
  - destruct wi_seen0 as (c & ? & ? & ?). exists c. split_and!; try done. by apply Hfr.
  - intros j y [Hy|[_ [_ <-]%list_lookup_singleton_Some]]%lookup_app_Some; [by apply wi_calls0|].
    split; [done|]. by split.
  - intros j j' f m f' m'. rewrite !Ht. apply wi_disjoint0.
  - intros j a Hin. destruct (wi_fetched0 j a Hin) as (y & z & Hy & ?). exists y, z.
    split; [by apply lookup_app_l_Some | done].
Qed.

(** *** Any step *)

Lemma any_step_ok l :
  allowed s l -> covered s l ->
  exists s' buf' P' C' cs', weak_step s l = Some s' /\ weak_inv k buf' P' C' cs' s'.
Proof.
  intros Ha Hcov. destruct l as [d|j|after n|i j]; cbn [weak_step].
  - eexists _, buf, P, C, cs. split; [done|]. destruct Ha. by apply enqueue_begins.
  - destruct Ha as [Hpc Hj]. destruct (wp s) as [|d|d|d] eqn:Ep; [done|..].
    + destruct (producer_loads_commit d j Ep Hj) as (s' & ? & ?). by exists s', buf, P, C, cs.
    + destruct (producer_copies d j Ep) as (s' & buf' & ? & ?). by exists s', buf', P, C, cs.
    + destruct (producer_publishes d j Ep) as (s' & ? & ?). by exists s', buf, (P + lenZ d), C, cs.
  - destruct Ha as [Hn Ha]. destruct (dequeue_begins after n Hn) as (s' & ? & ?).
    { destruct after; [|done]. destruct Ha as (x & Hx & _). by exists x. }
    by exists s', buf, P, C, cs.
  - destruct Ha as (x & Hi & Hr & Hj & Hlt).
    pose proof (wi_calls I i x Hi) as [_ [_ Hx]]. destruct (c_pc x) as [n|n t|n|n t|n t out|st out] eqn:Epc; try done.
    + destruct (call_takes_ticket i j x n Hi Epc) as (s' & ? & ?). by exists s', buf, P, C, cs.
    + destruct (lookup_lt_is_Some_2 _ _ Hlt) as [m Hm].
      destruct (covered_load_ok i j x n t m Hi Epc Hj Hm (Hcov _ _ _ _ Hi Epc Hm)) as (s' & ? & ? & _).
      by exists s', buf, P, C, cs.
    + destruct (call_copies i j x n t Hi Epc) as (s' & ? & ?). by exists s', buf, P, C, cs.
    + destruct (call_commits i j x n t out Hi Epc) as (s' & C' & cs' & ? & ?). by exists s', buf, P, C', cs'.
Qed.
End facts.

Definition weak_ok (s : weak) : Prop := exists k buf P C cs, weak_inv k buf P C cs s.

Lemma start_queue_ok alloc n q :
  alloc_sized alloc -> 0 <= n <= 2 ^ 63 -> spmc_reserve alloc n = Some q -> buffer_ q <> None ->
  weak_ok (weak_start q).
Proof.
  intros Ha Hn Hr Hb. destruct (spmc_reserve_valid alloc n q Ha Hn Hr) as [?|((k & buf & W) & _)]; [done|].
  assert (tail_idx_ q = 0 /\ head_idx_ q = 0 /\ commit_idx_ q = 0) as (Ht & Hh & Hc).
  { unfold spmc_reserve, spmc_next_power_of_2 in Hr. bind_inv Hr. case_match; by simplify_eq/=. }
  pose proof W as []. pose proof (ring_cap_bounds k mwf_k).
  assert (view_ok [{| value := tail_idx_ q; carried := fresh_view |}] fresh_view) as Hv by (by eexists).
  rewrite Ht in Hv. exists k, buf, 0, 0, [0]. constructor; cbn; rewrite ?Ht, ?Hh, ?Hc; try done.
  - intros [|j] m Hm; [|by destruct j]. by injection Hm as <-.
  - intros [|i] [|j] m m' _ Hm Hm'; try (by destruct i); try (by destruct j). injection Hm as <-. by injection Hm' as <-.
  - by constructor.
  - intros [|i] [|j] c c' _ Hi Hj; try (by destruct i); try (by destruct j). by simplify_eq/=.
  - exists 0. split_and!; [done | lia | done].
  - intros i a Hin. by apply not_elem_of_nil in Hin.
Qed.

Lemma reachable_ok s s' : weak_ok s -> weak_run s s' -> weak_ok s'.
Proof.
  intros Hok Hr. induction Hr as [s|s1 s2 s3 l Hr IH Ha Hc Hs]; [done|].
  destruct (IH Hok) as (k & buf & P & C & cs & I).
  destruct (any_step_ok k buf P C cs s2 I l Ha Hc) as (s' & buf' & P' & C' & cs' & Hs' & I').
  rewrite Hs in Hs'. injection Hs' as <-. by exists k, buf', P', C', cs'.
Qed.

(** A write that is in the buffer and newer than what is known. *)
Lemma stale_writes_unknown k buf P C cs s v f n :
  weak_inv k buf P C cs s -> 0 < n -> 0 <= writes v -> writes v <= f < lenZ (stream s) ->
  writes_known (written s) v (addresses (wq s) (u64 f) n) = false.
Proof.
  intros I Hn Hv Hf. apply bool_decide_eq_false. rewrite Forall_forall. intros Hall.
  pose proof (ring_cap_bounds k (wi_k I)). apply (Hall (f mod 2 ^ k)).
  - rewrite (wi_written _ _ _ _ _ _ I), <- fmap_drop. apply list_elem_of_fmap. exists f. split; [done|].
    apply list_elem_of_lookup. exists (Z.to_nat (f - writes v)). rewrite lookup_drop.
    apply lookup_seqZ. lia.
  - unfold addresses. apply list_elem_of_fmap. exists 0. split; [|apply elem_of_seqZ; lia].
    rewrite (wi_mask _ _ _ _ _ _ I), ring_addr_mod by (try apply I; lia).
    by rewrite Z.add_0_r, u64_mod_pow2 by (pose proof (wi_k I); lia).
Qed.

(** ** Properties *)

Section properties.
Context (alloc : Z -> option bytes) (n : Z) (q : SpmcQueue).
Context (Ha : alloc_sized alloc) (Hn : 0 <= n <= 2 ^ 63) (Hr : spmc_reserve alloc n = Some q)
        (Hb : buffer_ q <> None).

(** C13. The memory orders of the multiple-consumer queue suffice as long as no call loads a tail older
    than the bytes of its ticket. Then, whatever old values the other loads give, there is no data
    race and no other undefined step; every call that has returned succeeded, with the bytes of the
    stream its ticket stands for; no two calls got the same byte. *)
Theorem spmc_release_acquire s :
  weak_run (weak_start q) s ->
  (forall l, allowed s l -> covered s l -> weak_step s l <> None) /\
  (forall i c status out, calls s !! i = Some c -> c_pc c = CReturn status out ->
     status = kOk /\ out = [piece (stream s) (c_first c) (c_size c)] /\
     0 <= c_first c /\ c_first c + c_size c <= lenZ (stream s)) /\
  (forall i j c d, i <> j -> calls s !! i = Some c -> calls s !! j = Some d ->
     returned (c_pc c) = true -> returned (c_pc d) = true ->
     c_first c + c_size c <= c_first d \/ c_first d + c_size d <= c_first c).
Proof.
  intros Hrun. destruct (reachable_ok _ _ (start_queue_ok alloc n q Ha Hn Hr Hb) Hrun) as (k & buf & P & C & cs & I).
  split; [|split].
  - intros l Hl Hc. destruct (any_step_ok k buf P C cs s I l Hl Hc) as (s' & _ & _ & _ & _ & -> & _). done.
  - intros i c st out Hi Hpc. destruct (wi_copied k buf P C cs s I i c Hi) as (_ & H0 & Hle); [by rewrite Hpc|].
    destruct (wi_calls I i c Hi) as [_ [_ Hc]]. rewrite Hpc in Hc. destruct Hc as (-> & _ & _ & ->).
    pose proof (wi_used k buf P C cs s I) as [_ Hl]. split_and!; try done. lia.
  - intros i j c d Hne Hi Hj Hci Hdj. eapply (wi_disjoint _ _ _ _ _ _ I i j); [done|..].
    + apply (wi_copied k buf P C cs s I i c Hi). by destruct (c_pc c).
    + apply (wi_copied k buf P C cs s I j d Hj). by destruct (c_pc d).
Qed.

(** C21. What becomes of a call is decided by the tail it loads, and nothing but that load orders it
    after the bytes: [head_idx_] hands on what the callers knew before they loaded the tail. A tail
    that covers the ticket leads to a copy without a race. One that ends inside of the ticket gives
    the ticket back. But one that is older than the ticket makes [tail - ticket] wrap around: the
    call copies bytes whose writes it does not know of, which is a data race, even if all of them
    were in the queue when it took its ticket. *)
Theorem spmc_stale_tail s i j c size ticket m :
  weak_run (weak_start q) s -> calls s !! i = Some c -> c_pc c = CTicket size ticket ->
  (tail_seen (c_view c) <= j)%nat -> tails s !! j = Some m ->
  let tail := writes (carried m) in
  exists s' v, weak_step s (Consumer i j) = Some s' /\
    (c_first c + size <= tail -> calls s' !! i = Some (move c (c_first c) (CCopy size ticket) v) /\
       forall j', weak_step s' (Consumer i j') <> None) /\
    (c_first c <= tail < c_first c + size -> calls s' !! i = Some (move c (c_first c) (CRewind size) v)) /\
    (tail < c_first c < lenZ (stream s) -> c_first c + size <= tail + 2 ^ 64 ->
       calls s' !! i = Some (move c (c_first c) (CCopy size ticket) v) /\
       forall j', weak_step s' (Consumer i j') = None).
Proof.
  intros Hrun Hi Hpc Hj Hm tail.
  destruct (reachable_ok _ _ (start_queue_ok alloc n q Ha Hn Hr Hb) Hrun) as (k & buf & P & C & cs & I).
  pose proof (call_loads_tail k buf P C cs s I i j c size ticket m Hi Hpc Hm) as Hstep. cbn [weak_step].
  pose proof (lookup_lt_Some _ _ _ Hi) as Hlt.
  destruct (wi_calls I i c Hi) as [Hv [Hs Hx]]. rewrite Hpc in Hx. destruct Hx as (-> & -> & HC & Hask).
  destruct (view_ok_load k buf P C cs s I j m (c_view c) Hv Hj Hm) as [_ Hw].
  destruct (wi_tails _ _ _ _ _ _ I j m Hm) as (_ & _ & Htail). fold tail in Hstep, Htail, Hw.
  eexists _, _. split; [exact Hstep|]. cbn [calls put_call]. rewrite list_lookup_insert_eq by done. split_and!.
  - intros Hcov. destruct (covered_load_ok k buf P C cs s I i j c _ _ m Hi Hpc Hj Hm Hcov) as (s1 & Hs1 & I1 & v & Hv1).
    rewrite Hstep in Hs1. injection Hs1 as <-. cbn [calls put_call] in Hv1.
    rewrite list_lookup_insert_eq in Hv1 by done. injection Hv1 as Hpc1 _. rewrite Hpc1 in I1 |- *. split; [done|].
    intros j'. edestruct (call_copies k buf P C cs _ I1 i j') as (s2 & -> & _);
      [cbn; by rewrite list_lookup_insert_eq | reflexivity | done].
  - intros Hin. rewrite u64_small, (proj2 (Z.ltb_lt _ _)) by lia. done.
  - intros Hold Hwrap. assert (u64 (tail - c_first c) = tail - c_first c + 2 ^ 64) as ->
      by (unfold u64; symmetry; apply Z.mod_unique with (-1); lia).
    rewrite (proj2 (Z.ltb_ge _ _)) by lia. split; [done|]. intros j'. unfold weak_consumer. cbn [calls put_call].
    rewrite list_lookup_insert_eq by done. cbn [mbind option_bind c_pc move wq written c_view put_call].
    by rewrite (stale_writes_unknown k buf P C cs s _ _ _ I) by (rewrite ?Hw; lia).
Qed.
End properties.

(** ** Examples *)

Definition allowed_b (s : weak) (l : label) : bool :=
  match l with
  | Enqueue data => match wp s with PIdle => 0 <? lenZ data | _ => false end
  | Producer j =>
    match wp s with PIdle => false | _ => (commit_seen s <=? j)%nat && (j <? length (commits s))%nat end
  | Dequeue after size => (0 <? size) && (size <? 2 ^ 64) &&
    match after with None => true | Some i => default false (returned ∘ c_pc <$> calls s !! i) end
  | Consumer i j =>
    match calls s !! i with
    | Some c => negb (returned (c_pc c)) && (tail_seen (c_view c) <=? j)%nat && (j <? length (tails s))%nat
    | None => false
    end
  end.

Definition covered_b (s : weak) (l : label) : bool :=
  match l with
  | Consumer i j =>
    match calls s !! i, tails s !! j with
    | Some c, Some m =>
      match c_pc c with CTicket size _ => c_first c + size <=? writes (carried m) | _ => true end
    | _, _ => true
    end
  | _ => true
  end.

Lemma allowed_b_ok s l : allowed_b s l = true -> allowed s l.
Proof.
  destruct l as [d|j|after n|i j]; cbn [allowed_b allowed].
  - destruct (wp s); [|done..]. cbv iota. intros H. split; [done|lia].
  - destruct (wp s); [done|..]; (cbv iota; intros [H1 H2]%andb_true_iff; apply Nat.leb_le in H1; apply Nat.ltb_lt in H2; by split).
  - intros [Hn Ha]%andb_true_iff. split; [lia|]. destruct after as [i|]; [|done].
    destruct (calls s !! i) as [c|]; [|done]. by exists c.
  - destruct (calls s !! i) as [c|]; [|done]. intros [[H0 H1]%andb_true_iff H2]%andb_true_iff.
    apply Nat.leb_le in H1. apply Nat.ltb_lt in H2. exists c. by destruct (returned (c_pc c)).
Qed.

Lemma covered_b_ok s l : covered_b s l = true -> covered s l.
Proof. destruct l as [d|j|after n|i j]; try done. cbn [covered_b covered]. intros H c n t m Hi Hpc Hm. rewrite Hi, Hm, Hpc in H. lia. Qed.

(** A run that is checked as it goes. *)
Fixpoint run_checked (s : weak) (ls : list label) : option weak :=
  match ls with
  | [] => Some s
  | l :: rest => if allowed_b s l && covered_b s l then s' ← weak_step s l; run_checked s' rest else None
  end.

Lemma run_checked_run s0 s ls s' : weak_run s0 s -> run_checked s ls = Some s' -> weak_run s0 s'.
Proof.
  revert s. induction ls as [|l ls IH]; intros s Hr; cbn [run_checked]; [by intros [= <-]|].
  destruct (allowed_b s l && covered_b s l) eqn:E; [|done]. apply andb_true_iff in E as [Ha Hc].
  destruct (weak_step s l) as [s1|] eqn:Es; [|done]. cbn [mbind option_bind]. apply IH.
  eapply weak_more; eauto using allowed_b_ok, covered_b_ok.
Qed.

Definition small_queue : SpmcQueue := default spmc_new (spmc_reserve zero_alloc 4).

(** Two bytes go in, and two calls take their tickets for a byte each. *)
Definition two_tickets : list label :=
  [Enqueue (bs "wx"); Producer 0; Producer 0; Producer 0; Dequeue None 1; Dequeue None 1; Consumer 0 0; Consumer 1 0].

(** Both see the new tail; the second copies and then waits for the first. The producer loads the
    commit of the first only, and writes over its byte. *)
Definition both_return : list label :=
  [Consumer 1 1; Consumer 1 1; Consumer 1 1; Consumer 0 1; Consumer 0 1; Consumer 0 1; Consumer 1 1;
   Enqueue (bs "yz!"); Producer 1; Producer 1; Producer 1].

Lemma spmc_release_acquire_witness : exists s,
  run_checked (weak_start small_queue) (two_tickets ++ both_return) = Some s /\ stream s = bs "wxyz!" /\
  (c_pc <$> calls s) = [CReturn kOk [bs "w"]; CReturn kOk [bs "x"]] /\
  (forall l, allowed s l -> covered s l -> weak_step s l <> None).
Proof.
  eexists. split; [vm_compute; reflexivity|]. split; [reflexivity|]. split; [reflexivity|].
  eapply (spmc_release_acquire zero_alloc 4 small_queue zero_alloc_sized ltac:(lia) ltac:(reflexivity) ltac:(discriminate)).
  eapply (run_checked_run _ _ (two_tickets ++ both_return)); [apply weak_refl | vm_compute; reflexivity].
Defined.

(** The second call loads the tail of the empty queue, which is older than its ticket. *)
Lemma spmc_stale_tail_witness : exists s,
  run_checked (weak_start small_queue) two_tickets = Some s /\ exists s', weak_step s (Consumer 1 0) = Some s' /\
  (forall j, weak_step s' (Consumer 1 j) = None).
Proof.
  eexists. split; [vm_compute; reflexivity|].
  match goal with |- exists _, weak_step ?s _ = _ /\ _ =>
    edestruct (spmc_stale_tail zero_alloc 4 small_queue zero_alloc_sized ltac:(lia) ltac:(reflexivity)
      ltac:(discriminate) s 1 0) as (s' & v & Hs & _ & _ & Hstale) end;
    [eapply (run_checked_run _ _ two_tickets); [apply weak_refl | vm_compute; reflexivity]
    | reflexivity | reflexivity | vm_compute; lia | reflexivity|].
  exists s'. split; [exact Hs|]. apply Hstale; vm_compute; repeat split; discriminate.
Defined.
