(* ===== verification/SpscConcurrent.v ===== *)
(** * The single-producer single-consumer queue under interleaving

    [enqueue_bytes] and [dequeue_bytes] of src/src/logging/impl/spsc_queue.cc cut at every access
    to memory the two threads share: the loads and stores of [head_idx_] and [tail_idx_] and each
    byte the [memcpy]s move. Producer and consumer take these steps in any order. The model is
    sequentially consistent: the release fence before each index store and the acquire load on the
    other side are what lets a step be read in program order. *)

From S2P Require Import Prelude Ring ByteQueue SpscQueue.

(** ** The steps *)

(** Where the producer is inside [enqueue_bytes]. *)
Inductive producer_pc :=
  | PIdle
  | PStart (data : bytes)                          (* entered, buffer and size tested *)
  | PReload (data : bytes) (current_tail : Z)      (* the snapshot did not suffice *)
  | PCopy (data : bytes) (current_tail i : Z).     (* [i] bytes copied *)

(** Where the consumer is inside [dequeue_bytes]. *)
Inductive consumer_pc :=
  | CIdle
  | CStart (data_size : Z)
  | CReload (data_size current_head : Z)
  | CCopy (data_size current_head i : Z) (out : bytes).

(** What a step shows: nothing, or the return of a call with its result. *)
Inductive event :=
  | Tau
  | Return (o : Fifo.op) (s : QueueStatus) (out : bytes).

Definition set_buffer (q : SpscQueue) (buf : bytes) : SpscQueue :=
  {| buffer_ := Some buf; capacity_ := capacity_ q; mask_ := mask_ q; tail_idx_ := tail_idx_ q;
     tail_cached_ := tail_cached_ q; head_cached_snapshot_ := head_cached_snapshot_ q;
     head_idx_ := head_idx_ q; head_cached_ := head_cached_ q;
     tail_cached_snapshot_ := tail_cached_snapshot_ q; allocation_size_ := allocation_size_ q |}.

(** One step of the producer; [None] when it is idle or when the step is undefined. *)
Definition producer_step (q : SpscQueue) (pc : producer_pc) :
    option (event * SpscQueue * producer_pc) :=
  match pc with
  | PIdle => None
  | PStart data =>
    let current_tail := tail_idx_ q in
    let used_space := current_tail ⊖ head_cached_snapshot_ q in
    if capacity_ q ⊖ used_space <? lenZ data
    then Some (Tau, q, PReload data current_tail)
    else Some (Tau, q, PCopy data current_tail 0)
  | PReload data current_tail =>
    let current_head := head_idx_ q in
    let q' := set_head_snapshot q current_head in
    let new_used_space := current_tail ⊖ current_head in
    if capacity_ q ⊖ new_used_space <? lenZ data
    then Some (Return (Fifo.Enqueue data) kOverflow [], q', PIdle)
    else Some (Tau, q', PCopy data current_tail 0)
  | PCopy data current_tail i =>
    buf ← buffer_ q;
    if i <? lenZ data then
      b ← data !! Z.to_nat i;
      buf' ← mem_store buf (ring_addr (mask_ q) current_tail i) [b];
      Some (Tau, set_buffer q buf', PCopy data current_tail (i + 1))
    else Some (Return (Fifo.Enqueue data) kOk [],
               publish q buf (current_tail ⊕ lenZ data), PIdle)
  end.

Definition consumer_step (q : SpscQueue) (pc : consumer_pc) :
    option (event * SpscQueue * consumer_pc) :=
  match pc with
  | CIdle => None
  | CStart data_size =>
    let current_head := head_idx_ q in
    let available_data := tail_cached_snapshot_ q ⊖ current_head in
    if available_data <? data_size
    then Some (Tau, q, CReload data_size current_head)
    else Some (Tau, q, CCopy data_size current_head 0 [])
  | CReload data_size current_head =>
    let current_tail := tail_idx_ q in
    let q' := set_tail_snapshot q current_tail in
    let new_available := current_tail ⊖ current_head in
    if new_available <? data_size
    then Some (Return (Fifo.Dequeue data_size) kUnderflow [], q', CIdle)
    else Some (Tau, q', CCopy data_size current_head 0 [])
  | CCopy data_size current_head i out =>
    buf ← buffer_ q;
    if i <? data_size then
      b ← mem_load buf (ring_addr (mask_ q) current_head i) 1;
      Some (Tau, q, CCopy data_size current_head (i + 1) (out ++ b))
    else Some (Return (Fifo.Dequeue data_size) kOk out,
               release q (current_head ⊕ data_size), CIdle)
  end.

Record config := { queue : SpscQueue; producer : producer_pc; consumer : consumer_pc }.

(** The two threads: either may begin a call when it is idle, or take its next step. *)
Inductive step : config -> event -> config -> Prop :=
  | step_call_enqueue q c data :
      0 < lenZ data ->
      step {| queue := q; producer := PIdle; consumer := c |} Tau
           {| queue := q; producer := PStart data; consumer := c |}
  | step_producer q p c e q' p' :
      producer_step q p = Some (e, q', p') ->
      step {| queue := q; producer := p; consumer := c |} e
           {| queue := q'; producer := p'; consumer := c |}
  | step_call_dequeue q p data_size :
      0 < data_size ->
      step {| queue := q; producer := p; consumer := CIdle |} Tau
           {| queue := q; producer := p; consumer := CStart data_size |}
  | step_consumer q p c e q' c' :
      consumer_step q c = Some (e, q', c') ->
      step {| queue := q; producer := p; consumer := c |} e
           {| queue := q'; producer := p; consumer := c' |}.

(** An execution and the calls that returned in it, in order of return. *)
Inductive exec : config -> list event -> config -> Prop :=
  | exec_nil c : exec c [] c
  | exec_tau c c' c'' l : step c Tau c' -> exec c' l c'' -> exec c l c''
  | exec_return c c' c'' o s out l :
      step c (Return o s out) c' -> exec c' l c'' -> exec c (Return o s out :: l) c''.

(** ** The invariant *)

Definition producer_inv (k : Z) (buf : bytes) (q : SpscQueue) (pc : producer_pc) : Prop :=
  match pc with
  | PIdle => True
  | PStart data => 0 < lenZ data
  | PReload data t => 0 < lenZ data /\ t = tail_idx_ q
  | PCopy data t i =>
    0 < lenZ data /\ t = tail_idx_ q /\ 0 <= i <= lenZ data /\
    (tail_idx_ q ⊖ head_cached_snapshot_ q) + lenZ data <= 2 ^ k /\
    ring_slice buf (2 ^ k) t i = take (Z.to_nat i) data
  end.

Definition consumer_inv (q : SpscQueue) (pc : consumer_pc) : Prop :=
  match pc with
  | CIdle => True
  | CStart n => 0 < n
  | CReload n h => 0 < n /\ h = head_idx_ q
  | CCopy n h i out =>
    0 < n /\ h = head_idx_ q /\ 0 <= i <= n /\
    n <= tail_cached_snapshot_ q ⊖ head_idx_ q /\
    out = take (Z.to_nat i) (spsc_contents q)
  end.

Definition config_inv (c : config) : Prop :=
  exists k buf, spsc_wf k buf (queue c) /\
    producer_inv k buf (queue c) (producer c) /\ consumer_inv (queue c) (consumer c).

Definition abs (c : config) : Fifo.fifo := bq_abs (queue c).

(** What an event means for the abstract queue. *)
Definition event_spec (f : Fifo.fifo) (e : event) (f' : Fifo.fifo) : Prop :=
  match e with
  | Tau => f' = f
  | Return o s out => Fifo.step f o = (s, out, f')
  end.

(** The addresses the next step of each thread touches in the buffer. *)
Definition producer_writes (q : SpscQueue) (pc : producer_pc) : option Z :=
  match pc with
  | PCopy data t i => if i <? lenZ data then Some (ring_addr (mask_ q) t i) else None
  | _ => None
  end.

Definition consumer_reads (q : SpscQueue) (pc : consumer_pc) : option Z :=
  match pc with
  | CCopy n h i _ => if i <? n then Some (ring_addr (mask_ q) h i) else None
  | _ => None
  end.

(** ** Single steps *)

(** Storing one byte of a record is a ring write of that byte. *)
Lemma store_byte k buf t i b :
  1 <= k <= 63 -> 0 <= i < 2 ^ k ->
  mem_store buf (ring_addr (2 ^ k - 1) t i) [b] = ring_copy_in buf (2 ^ k - 1) (t + i) [b].
Proof.
  intros Hk Hi. pose proof (ring_cap_bounds k Hk).
  pose proof (Z.mod_pos_bound (t + i) (2 ^ k) ltac:(lia)).
  rewrite ring_addr_mod by done. unfold ring_copy_in.
  rewrite ring_to_end, ring_mask_pos by done. change (lenZ [b]) with 1.
  by destruct (Z.leb_spec 1 (2 ^ k - (t + i) mod 2 ^ k)); [|lia].
Qed.

Section steps.
Context (k : Z) (buf : bytes) (q : SpscQueue) (W : spsc_wf k buf q).

(** One byte of a record is copied: the record grows by it, the waiting bytes stay. *)
Lemma copy_byte data i :
  0 <= i < lenZ data ->
  (tail_idx_ q ⊖ head_cached_snapshot_ q) + lenZ data <= 2 ^ k ->
  ring_slice buf (2 ^ k) (tail_idx_ q) i = take (Z.to_nat i) data ->
  exists b buf', data !! Z.to_nat i = Some b /\
    mem_store buf (ring_addr (mask_ q) (tail_idx_ q) i) [b] = Some buf' /\
    spsc_wf k buf' (set_buffer q buf') /\
    spsc_contents (set_buffer q buf') = spsc_contents q /\
    ring_slice buf' (2 ^ k) (tail_idx_ q) (i + 1) = take (Z.to_nat (i + 1)) data.
Proof.
  intros Hi Hfit Hdone. pose proof (wf_bounds k buf q W) as [Hu Hc].
  pose proof (wf_slots k buf q W) as Hslot. pose proof (wf_contents k buf q W) as Hcont.
  pose proof (wf_head_snapshot _ _ _ W) as Hsn.
  destruct (lookup_lt_is_Some_2 data (Z.to_nat i)) as [b Hb]; [unfold lenZ in *; lia|].
  exists b. rewrite (wf_mask _ _ _ W), store_byte by (try apply W; lia).
  destruct (ring_write_slices k ltac:(apply W) buf ltac:(apply W) (tail_idx_ q + i) [b])
    as (buf' & Hin & Hlen & Hnew & Hold); [change (lenZ [b]) with 1; lia|].
  change (lenZ [b]) with 1 in *. exists buf'. do 2 (split; [done|]).
  destruct W. set (used := tail_idx_ q ⊖ head_idx_ q) in *.
  assert (Hwide : ring_slice buf' (2 ^ k) (head_idx_ q) (used + i) =
                  ring_slice buf (2 ^ k) (head_idx_ q) (used + i)).
  { apply Hold; [lia | | lia].
    by rewrite Z.add_assoc, <- Zplus_mod_idemp_l, Hslot, Zplus_mod_idemp_l. }
  rewrite !ring_slice_app in Hwide by lia.
  apply app_inj_1 in Hwide as [Hpre Hsuf].
  2: { pose proof (ring_slice_length buf (2 ^ k) (head_idx_ q) used ltac:(lia)).
       pose proof (ring_slice_length buf' (2 ^ k) (head_idx_ q) used ltac:(lia)).
       unfold lenZ in *. lia. }
  split; [by constructor; simpl; try lia|]. split.
  - rewrite Hcont, <- Hpre. unfold spsc_contents. simpl. by rewrite wf_capacity.
  - rewrite ring_slice_app by lia. rewrite Hnew.
    rewrite (ring_slice_mod _ _ _ (head_idx_ q + used)) by done. rewrite Hsuf.
    rewrite (ring_slice_mod _ _ _ (tail_idx_ q)) by done. rewrite Hdone.
    replace (Z.to_nat (i + 1)) with (S (Z.to_nat i)) by lia. by rewrite (take_S_r _ _ b).
Qed.

(** The consumer reads one more of the waiting bytes. *)
Lemma read_byte n i :
  0 <= i < n -> n <= tail_cached_snapshot_ q ⊖ head_idx_ q ->
  exists b, mem_load buf (ring_addr (mask_ q) (head_idx_ q) i) 1 = Some [b] /\
    take (Z.to_nat (i + 1)) (spsc_contents q) = take (Z.to_nat i) (spsc_contents q) ++ [b].
Proof.
  intros Hi Hn. pose proof (wf_bounds k buf q W) as [Hu Hc].
  pose proof (wf_contents k buf q W) as Hcont.
  pose proof (wf_tail_snapshot _ _ _ W) as Hts.
  rewrite (wf_mask _ _ _ W), ring_addr_mod by (try apply W; lia).
  set (a := (head_idx_ q + i) mod 2 ^ k).
  pose proof (Z.mod_pos_bound (head_idx_ q + i) (2 ^ k) ltac:(lia)) as Ha. fold a in Ha.
  pose proof (wf_alloc _ _ _ W). exists (buf !!! Z.to_nat a). split.
  - rewrite mem_load_spec by lia. f_equal. change (Z.to_nat 1) with 1%nat.
    rewrite (take_S_r _ 0 (buf !!! Z.to_nat a)); [by rewrite take_0|].
    rewrite lookup_drop, list_lookup_lookup_total_lt; [do 2 f_equal; lia | unfold lenZ in *; lia].
  - replace (Z.to_nat (i + 1)) with (S (Z.to_nat i)) by lia.
    apply take_S_r. rewrite Hcont, ring_slice_lookup by lia.
    rewrite Z2Nat.id by lia. done.
Qed.

Lemma set_head_snapshot_wf : spsc_wf k buf (set_head_snapshot q (head_idx_ q)).
Proof. pose proof (wf_bounds k buf q W). destruct W. by constructor; simpl; try lia. Qed.

Lemma set_tail_snapshot_wf : spsc_wf k buf (set_tail_snapshot q (tail_idx_ q)).
Proof. pose proof (wf_bounds k buf q W). destruct W. by constructor; simpl; try lia. Qed.

(** A producer step is defined, keeps the invariant of both threads and is the atomic
    operation of the abstract queue when the call returns. *)
Lemma producer_step_ok pc c :
  pc <> PIdle -> producer_inv k buf q pc -> consumer_inv q c ->
  exists e q' pc' buf', producer_step q pc = Some (e, q', pc') /\
    spsc_wf k buf' q' /\ producer_inv k buf' q' pc' /\ consumer_inv q' c /\
    event_spec (bq_abs q) e (bq_abs q').
Proof.
  intros Hpc HP HC. pose proof (wf_bounds k buf q W) as [Hu Hc].
  pose proof (wf_contents_length k buf q W) as Hlen.
  pose proof (wf_capacity _ _ _ W) as Hcap. pose proof (wf_head_snapshot _ _ _ W) as Hsnap.
  pose proof (u64_range (tail_idx_ q - head_cached_snapshot_ q)).
  destruct pc as [|data|data t|data t i]; simpl in *; [done| | |].
  - rewrite Hcap, (u64_small (2 ^ k - _)) by lia.
    destruct (Z.ltb_spec (2 ^ k - (tail_idx_ q ⊖ head_cached_snapshot_ q)) (lenZ data));
      do 4 eexists; (split; [done|]); (split; [done|]); simpl; [done|].
    split; [|done]. repeat (split; [done || lia|]). by rewrite ring_slice_nil, take_0 by lia.
  - destruct HP as [Hd ->]. rewrite Hcap, (u64_small (2 ^ k - _)) by lia.
    destruct (Z.ltb_spec (2 ^ k - (tail_idx_ q ⊖ head_idx_ q)) (lenZ data));
      do 4 eexists; (split; [done|]); (split; [apply set_head_snapshot_wf|]); simpl.
    + split; [done|]. split; [done|]. unfold Fifo.enqueue. simpl.
      destruct (Z.eqb_spec (lenZ data) 0); [lia|].
      rewrite Hcap. by destruct (Z.ltb_spec (2 ^ k) (lenZ (spsc_contents q) + lenZ data)); [|lia].
    + split; [|done]. repeat (split; [done || lia|]). by rewrite ring_slice_nil, take_0 by lia.
  - destruct HP as (Hd & -> & Hi & Hfit & Hdone). rewrite (wf_buffer _ _ _ W). simpl.
    destruct (Z.ltb_spec i (lenZ data)) as [Hlt|Hge].
    + destruct (copy_byte data i ltac:(lia) Hfit Hdone)
        as (b & buf' & Hb & Hst & W' & Hcont & Hdone'). rewrite Hb. simpl. rewrite Hst. simpl.
      do 4 eexists. split; [done|]. split; [done|]. simpl.
      split; [repeat (split; [done || lia|]); done|]. split.
      * destruct c; simpl in *; try done. by rewrite Hcont.
      * unfold bq_abs. simpl. by rewrite Hcont.
    + assert (i = lenZ data) as -> by lia. unfold lenZ in Hdone at 2.
      rewrite Nat2Z.id, firstn_all in Hdone.
      destruct (publish_spec k buf q W buf data) as [W' Hcont]; try done.
      do 4 eexists. split; [done|]. split; [done|]. split; [done|]. split.
      * destruct c as [|n|n h|n h j out]; simpl in HC |- *; try done.
        destruct HC as (Hn & -> & Hj & Hts & ->). repeat (split; [done || lia|]).
        rewrite Hcont, take_app_le; [done|].
        pose proof (wf_tail_snapshot _ _ _ W). unfold lenZ in Hlen. lia.
      * simpl. unfold Fifo.enqueue, bq_abs. simpl. rewrite Hcont, Hcap.
        destruct (Z.eqb_spec (lenZ data) 0); [lia|].
        by destruct (Z.ltb_spec (2 ^ k) (lenZ (spsc_contents q) + lenZ data)); [lia|].
Qed.

Lemma consumer_step_ok pc p :
  pc <> CIdle -> consumer_inv q pc -> producer_inv k buf q p ->
  exists e q' pc', consumer_step q pc = Some (e, q', pc') /\
    spsc_wf k buf q' /\ consumer_inv q' pc' /\ producer_inv k buf q' p /\
    event_spec (bq_abs q) e (bq_abs q').
Proof.
  intros Hpc HC HP. pose proof (wf_bounds k buf q W) as [Hu Hc].
  pose proof (wf_contents_length k buf q W) as Hlen.
  pose proof (wf_tail_snapshot _ _ _ W) as Hts0.
  destruct pc as [|n|n h|n h i out]; simpl in *; [done| | |].
  - destruct (Z.ltb_spec (tail_cached_snapshot_ q ⊖ head_idx_ q) n);
      do 3 eexists; (split; [done|]); (split; [done|]); simpl; [done|].
    split; [|done]. repeat (split; [done || lia|]). done.
  - destruct HC as [Hn ->]. destruct (Z.ltb_spec (tail_idx_ q ⊖ head_idx_ q) n);
      do 3 eexists; (split; [done|]); (split; [apply set_tail_snapshot_wf|]); simpl.
    + split; [done|]. split; [done|]. unfold Fifo.dequeue. simpl.
      destruct (Z.eqb_spec n 0); [lia|].
      by destruct (Z.ltb_spec (lenZ (spsc_contents q)) n); [|lia].
    + split; [|done]. repeat (split; [done || lia|]). done.
  - destruct HC as (Hn & -> & Hi & Hts & ->). rewrite (wf_buffer _ _ _ W). simpl.
    destruct (Z.ltb_spec i n) as [Hlt|Hge].
    + destruct (read_byte n i ltac:(lia) Hts) as (b & -> & Htake). simpl.
      do 3 eexists. split; [done|]. split; [done|]. simpl.
      split; [repeat (split; [done || lia|]); by rewrite Htake | done].
    + assert (i = n) as -> by lia.
      destruct (release_spec k buf q W n) as [W' Hcont]; [lia | done |].
      do 3 eexists. split; [done|]. split; [done|]. split; [done|]. split.
      * destruct p; simpl in *; done.
      * simpl. unfold Fifo.dequeue, bq_abs. simpl. rewrite Hcont.
        destruct (Z.eqb_spec n 0); [lia|].
        by destruct (Z.ltb_spec (lenZ (spsc_contents q)) n); [lia|].
Qed.
End steps.

(** ** Executions *)

Lemma step_ok c e c' :
  config_inv c -> step c e c' -> config_inv c' /\ event_spec (abs c) e (abs c').
Proof.
  intros (k & buf & W & HP & HC) Hstep. unfold config_inv, abs.
  destruct Hstep as [q c data Hd|q p c e q' p' Hs|q p n Hn|q p c e q' c' Hs]; simpl in *.
  - split; [|done]. by exists k, buf.
  - assert (p <> PIdle) by (by intros ->).
    destruct (producer_step_ok k buf q W p c) as (? & ? & ? & buf' & Hs' & ? & ? & ? & ?);
      try done. rewrite Hs in Hs'. injection Hs' as <- <- <-. split; [by exists k, buf'|done].
  - split; [|done]. by exists k, buf.
  - assert (c <> CIdle) by (by intros ->).
    destruct (consumer_step_ok k buf q W c p) as (? & ? & ? & Hs' & ? & ? & ? & ?); try done.
    rewrite Hs in Hs'. injection Hs' as <- <- <-. split; [by exists k, buf|done].
Qed.

(** The operations that returned in an execution and their results. *)
Definition returned_ops (l : list event) : list Fifo.op :=
  omap (λ e, match e with Return o _ _ => Some o | Tau => None end) l.
Definition returned_results (l : list event) : list (QueueStatus * bytes) :=
  omap (λ e, match e with Return _ s out => Some (s, out) | Tau => None end) l.

(** The operations take effect one at a time in the order in which they return. *)
Lemma exec_linearizes c l c' :
  config_inv c -> exec c l c' ->
  config_inv c' /\ Fifo.run (abs c) (returned_ops l) = (returned_results l, abs c').
Proof.
  intros HI Hx. induction Hx as [c|c c1 c2 l Hs Hx IH|c c1 c2 o s out l Hs Hx IH].
  - done.
  - destruct (step_ok _ _ _ HI Hs) as [HI1 He]. simpl in He.
    destruct (IH HI1) as [HI2 Hr]. split; [done|]. by rewrite <- He.
  - destruct (step_ok _ _ _ HI Hs) as [HI1 He]. simpl in He.
    destruct (IH HI1) as [HI2 Hr]. split; [done|]. unfold returned_ops, returned_results.
    csimpl. rewrite He. unfold returned_ops, returned_results in Hr. by rewrite Hr.
Qed.

(** A freshly reserved queue with both threads outside. *)
Lemma idle_inv q : spsc_valid q -> config_inv {| queue := q; producer := PIdle; consumer := CIdle |}.
Proof. intros (k & buf & W). by exists k, buf. Qed.

(** Where the buffer is being written and where it is being read never meet. *)
Lemma inv_race_free c a b :
  config_inv c -> producer_writes (queue c) (producer c) = Some a ->
  consumer_reads (queue c) (consumer c) = Some b -> a <> b.
Proof.
  intros (k & buf & W & HP & HC) Ha Hb. destruct c as [q p c]. simpl in *.
  pose proof (wf_bounds k buf q W) as [Hu Hc]. pose proof (wf_slots k buf q W) as Hslot.
  destruct p as [| | |data t i]; try done. destruct c as [| | |n h j out]; try done. simpl in *.
  destruct (Z.ltb_spec i (lenZ data)); [|done]. destruct (Z.ltb_spec j n); [|done].
  destruct HP as (_ & -> & Hi & Hfit & _). destruct HC as (Hn & -> & Hj & Hts & _).
  pose proof (wf_head_snapshot _ _ _ W). pose proof (wf_tail_snapshot _ _ _ W).
  rewrite (wf_mask _ _ _ W), ring_addr_mod in Ha by (try apply W; lia).
  rewrite (wf_mask _ _ _ W), ring_addr_mod in Hb by (try apply W; lia).
  injection Ha as <-. injection Hb as <-. intros Heq.
  set (used := tail_idx_ q ⊖ head_idx_ q) in *.
  rewrite <- (Zplus_mod_idemp_l (tail_idx_ q)), <- Hslot, Zplus_mod_idemp_l in Heq.
  assert (Hd : (used + i - j) mod 2 ^ k = 0).
  { replace (used + i - j) with (head_idx_ q + used + i - (head_idx_ q + j)) by lia.
    rewrite Zminus_mod, Heq, Z.sub_diag. apply Z.mod_0_l. lia. }
  rewrite Z.mod_small in Hd by lia. lia.
Qed.

(** ** Both calls are wait-free *)

(** An upper bound on the steps a call still takes. *)
Definition producer_measure (pc : producer_pc) : Z :=
  match pc with
  | PIdle => 0
  | PStart data => lenZ data + 3
  | PReload data _ => lenZ data + 2
  | PCopy data _ i => lenZ data - i + 1
  end.

Definition consumer_measure (pc : consumer_pc) : Z :=
  match pc with
  | CIdle => 0
  | CStart n => n + 3
  | CReload n _ => n + 2
  | CCopy n _ i _ => n - i + 1
  end.

(** ** Without interference the steps are the sequential functions *)

Fixpoint producer_run (fuel : nat) (q : SpscQueue) (pc : producer_pc) :
    option (QueueStatus * SpscQueue) :=
  match fuel with
  | O => None
  | S fuel =>
    '(e, q', pc') ← producer_step q pc;
    match e with Return _ s _ => Some (s, q') | Tau => producer_run fuel q' pc' end
  end.

Fixpoint consumer_run (fuel : nat) (q : SpscQueue) (pc : consumer_pc) :
    option (QueueStatus * bytes * SpscQueue) :=
  match fuel with
  | O => None
  | S fuel =>
    '(e, q', pc') ← consumer_step q pc;
    match e with Return _ s out => Some (s, out, q') | Tau => consumer_run fuel q' pc' end
  end.

(** Extending a ring write by one byte. *)
Lemma ring_copy_in_snoc k buf t d b buf1 :
  1 <= k <= 63 -> 2 ^ k <= lenZ buf -> lenZ d < 2 ^ k ->
  ring_copy_in buf (2 ^ k - 1) t d = Some buf1 ->
  mem_store buf1 (ring_addr (2 ^ k - 1) t (lenZ d)) [b] =
  ring_copy_in buf (2 ^ k - 1) t (d ++ [b]).
Proof.
  intros Hk Hbuf Hd. pose proof (ring_cap_bounds k Hk). pose proof (lenZ_nonneg d).
  pose proof (Z.mod_pos_bound t (2 ^ k) ltac:(lia)) as Hp.
  unfold ring_copy_in, ring_addr. rewrite ring_to_end, ring_mask_pos by done.
  set (p := t mod 2 ^ k) in *. rewrite lenZ_app. change (lenZ [b]) with 1. unfold lenZ in *.
  destruct (Z.leb_spec (Z.of_nat (length d)) (2 ^ k - p)) as [Hone|Htwo].
  - rewrite mem_store_spec by (unfold lenZ; lia). intros [= <-].
    destruct (Z.leb_spec (Z.of_nat (length d) + 1) (2 ^ k - p)).
    + destruct (Z.ltb_spec (Z.of_nat (length d)) (2 ^ k - p)); [|lia].
      rewrite !mem_store_spec by (unfold lenZ; rewrite ?length_inserts, ?length_app; simpl; lia).
      f_equal. rewrite list_inserts_app_l. f_equal. lia.
    + destruct (Z.ltb_spec (Z.of_nat (length d)) (2 ^ k - p)); [lia|].
      rewrite take_app_length', drop_app_length' by lia.
      rewrite !mem_store_spec by (unfold lenZ; rewrite ?length_inserts; simpl; lia). simpl.
      rewrite mem_store_spec by (unfold lenZ; rewrite ?length_inserts; simpl; lia).
      replace (Z.of_nat (length d) - (2 ^ k - p)) with 0 by lia. done.
  - destruct (Z.leb_spec (Z.of_nat (length d) + 1) (2 ^ k - p)); [lia|].
    destruct (Z.ltb_spec (Z.of_nat (length d)) (2 ^ k - p)); [lia|].
    rewrite take_app_le, drop_app_le by lia.
    rewrite mem_store_spec by (unfold lenZ; rewrite ?length_take; lia). simpl.
    rewrite mem_store_spec by (unfold lenZ; rewrite ?length_drop, ?length_inserts; lia).
    intros [= <-].
    rewrite !mem_store_spec
      by (unfold lenZ; rewrite ?length_app, ?length_drop, ?length_inserts; simpl; lia).
    f_equal. rewrite list_inserts_app_l. f_equal. rewrite length_drop. lia.
Qed.

(** The copy loop, from byte [i] on, ends with the ring write of the whole record. *)
Lemma producer_run_copy k data t :
  1 <= k <= 63 -> lenZ data <= 2 ^ k ->
  forall m q buf0 buf i, (m + i = length data)%nat -> 2 ^ k <= lenZ buf0 ->
  buffer_ q = Some buf -> mask_ q = 2 ^ k - 1 ->
  ring_copy_in buf0 (2 ^ k - 1) t (take i data) = Some buf ->
  exists buf', ring_copy_in buf0 (2 ^ k - 1) t data = Some buf' /\
    producer_run (m + 1) q (PCopy data t (Z.of_nat i)) =
      Some (kOk, publish q buf' (t ⊕ lenZ data)).
Proof.
  intros Hk Hd. induction m as [|m IH]; intros q buf0 buf i Hi Hb0 Hb Hm Hin; simpl;
    rewrite Hb; simpl.
  - destruct (Z.ltb_spec (Z.of_nat i) (lenZ data)); [unfold lenZ in *; lia|]. simpl.
    rewrite take_ge in Hin by lia. eauto.
  - destruct (Z.ltb_spec (Z.of_nat i) (lenZ data)); [|unfold lenZ in *; lia].
    destruct (lookup_lt_is_Some_2 data i ltac:(lia)) as [b Hlk].
    rewrite Nat2Z.id, Hlk. simpl. rewrite Hm.
    assert (Hlen : lenZ (take i data) = Z.of_nat i) by (unfold lenZ; rewrite length_take; lia).
    rewrite <- Hlen, (ring_copy_in_snoc k buf0 t (take i data) b buf) by (done || lia).
    rewrite Hlen, <- (take_S_r data i b) by done.
    destruct (ring_copy_in_spec k Hk buf0 t (take (S i) data)) as (buf1 & Hin1 & _); [done| |].
    { unfold lenZ in *. rewrite length_take. lia. }
    rewrite Hin1. simpl. replace (Z.of_nat i + 1) with (Z.of_nat (S i)) by lia.
    destruct (IH (set_buffer q buf1) buf0 buf1 (S i)) as (buf' & Hfull & Hrun); try done; [lia|].
    exists buf'. split; [done|]. rewrite Hrun. done.
Qed.

Lemma producer_run_step fuel q pc q' pc' :
  producer_step q pc = Some (Tau, q', pc') -> producer_run (S fuel) q pc = producer_run fuel q' pc'.
Proof. intros H. simpl. by rewrite H. Qed.

Lemma producer_run_done fuel q pc o s out q' pc' :
  producer_step q pc = Some (Return o s out, q', pc') -> producer_run (S fuel) q pc = Some (s, q').
Proof. intros H. simpl. by rewrite H. Qed.

(** From a position of the copy with the space check done. *)
Lemma producer_run_copy0 k q buf data :
  spsc_wf k buf q -> 0 < lenZ data <= 2 ^ k ->
  exists buf', ring_copy_in buf (mask_ q) (tail_idx_ q) data = Some buf' /\
    producer_run (length data + 1) q (PCopy data (tail_idx_ q) 0) =
      Some (kOk, publish q buf' (tail_idx_ q ⊕ lenZ data)).
Proof.
  intros W Hd. rewrite (wf_mask _ _ _ W).
  apply (producer_run_copy k data (tail_idx_ q)) with (q := q) (buf := buf) (i := 0%nat);
    try apply W; try lia.
  rewrite take_0. pose proof (ring_cap_bounds k ltac:(apply W)). pose proof (wf_alloc _ _ _ W).
  pose proof (Z.mod_pos_bound (tail_idx_ q) (2 ^ k) ltac:(lia)).
  unfold ring_copy_in. rewrite ring_to_end, ring_mask_pos by apply W. rewrite lenZ_nil.
  destruct (Z.leb_spec 0 (2 ^ k - tail_idx_ q mod 2 ^ k)); [|lia].
  rewrite mem_store_spec by (rewrite ?lenZ_nil; lia). done.
Qed.

Lemma producer_run_mono fuel fuel' q pc r :
  (fuel <= fuel')%nat -> producer_run fuel q pc = Some r -> producer_run fuel' q pc = Some r.
Proof.
  revert fuel' q pc. induction fuel as [|fuel IH]; intros fuel' q pc Hle; [done|].
  destruct fuel' as [|fuel']; [lia|]. simpl.
  destruct (producer_step q pc) as [[[[|o s out] q'] pc']|]; simpl; [|done|done].
  apply IH. lia.
Qed.

(** The steps of the producer, run alone, are [enqueue_bytes]. *)
Lemma enqueue_run q data fuel :
  spsc_valid q -> 0 < lenZ data -> (length data + 3 <= fuel)%nat ->
  producer_run fuel q (PStart data) = enqueue_bytes q data.
Proof.
  intros (k & buf & W) Hd Hfuel.
  destruct (enqueue_bytes_spec q data ltac:(by eexists _, _) Hd) as (q' & _ & _ & Hspec).
  assert (Hdef : exists r, enqueue_bytes q data = Some r)
    by (case_decide; destruct Hspec as [-> _]; eauto).
  destruct Hdef as [r Hr]. rewrite Hr. clear Hspec.
  pose proof (check_space_spec k buf q W (lenZ data) Hd) as Hcs.
  unfold enqueue_bytes in Hr. rewrite (wf_buffer _ _ _ W) in Hr.
  destruct (Z.eqb_spec (lenZ data) 0); [lia|].
  apply (producer_run_mono (S (S (length data + 1)))); [lia|].
  unfold check_space in Hcs, Hr.
  destruct (capacity_ q ⊖ (tail_idx_ q ⊖ head_cached_snapshot_ q) <? lenZ data) eqn:Hs.
  - erewrite producer_run_step by (simpl; by rewrite Hs).
    destruct (capacity_ q ⊖ (tail_idx_ q ⊖ head_idx_ q) <? lenZ data) eqn:Hr2.
    { erewrite producer_run_done by (simpl; by rewrite Hr2). done. }
    erewrite producer_run_step by (simpl; by rewrite Hr2).
    destruct Hcs as (W1 & _ & _ & [(_ & _ & Hfit)|[? _]]); [|done].
    destruct (producer_run_copy0 k _ buf data W1) as (buf' & Hin & Hrun).
    { pose proof (u64_range (tail_idx_ q - head_idx_ q)). simpl in Hfit. lia. }
    simpl in Hin, Hr. rewrite Hin in Hr. simpl in Hr.
    etransitivity; [apply Hrun | exact Hr].
  - erewrite producer_run_step by (simpl; by rewrite Hs).
    destruct Hcs as (_ & _ & _ & [(_ & _ & Hfit)|[? _]]); [|done].
    destruct (producer_run_copy0 k q buf data W) as (buf' & Hin & Hrun).
    { pose proof (u64_range (tail_idx_ q - head_cached_snapshot_ q)). lia. }
    rewrite Hin in Hr. simpl in Hr. apply (producer_run_mono (length data + 1)); [lia|].
    etransitivity; [apply Hrun | exact Hr].
Qed.

(** The read loop of the consumer, from byte [i] on. *)
Lemma consumer_run_copy k buf q n :
  spsc_wf k buf q -> 0 < n <= tail_cached_snapshot_ q ⊖ head_idx_ q ->
  forall m i, 0 <= i -> Z.of_nat m + i = n ->
  consumer_run (m + 1) q (CCopy n (head_idx_ q) i (take (Z.to_nat i) (spsc_contents q))) =
    Some (kOk, take (Z.to_nat n) (spsc_contents q), release q (head_idx_ q ⊕ n)).
Proof.
  intros W Hn. induction m as [|m IH]; intros i H0 Hi; simpl; rewrite (wf_buffer _ _ _ W); simpl.
  - destruct (Z.ltb_spec i n); [lia|]. by replace i with n by lia.
  - destruct (Z.ltb_spec i n); [|lia].
    destruct (read_byte k buf q W n i ltac:(lia) ltac:(lia)) as (b & -> & Htake). simpl.
    rewrite <- Htake. apply IH; lia.
Qed.

Lemma consumer_run_mono fuel fuel' q pc r :
  (fuel <= fuel')%nat -> consumer_run fuel q pc = Some r -> consumer_run fuel' q pc = Some r.
Proof.
  revert fuel' q pc. induction fuel as [|fuel IH]; intros fuel' q pc Hle; [done|].
  destruct fuel' as [|fuel']; [lia|]. simpl.
  destruct (consumer_step q pc) as [[[[|o s out] q'] pc']|]; simpl; [|done|done].
  apply IH. lia.
Qed.

Lemma consumer_run_step fuel q pc q' pc' :
  consumer_step q pc = Some (Tau, q', pc') -> consumer_run (S fuel) q pc = consumer_run fuel q' pc'.
Proof. intros H. simpl. by rewrite H. Qed.

(** The steps of the consumer, run alone, are [dequeue_bytes]. *)
Lemma dequeue_run q n fuel :
  spsc_valid q -> 0 < n -> (Z.to_nat n + 3 <= fuel)%nat ->
  consumer_run fuel q (CStart n) = dequeue_bytes q n.
Proof.
  intros (k & buf & W) Hn Hfuel.
  pose proof (check_available_spec k buf q W n Hn) as Hca.
  unfold dequeue_bytes. rewrite (wf_buffer _ _ _ W). destruct (Z.eqb_spec n 0); [lia|].
  destruct fuel as [|[|fuel]]; [lia|lia|].
  unfold check_available in *.
  destruct (tail_cached_snapshot_ q ⊖ head_idx_ q <? n) eqn:Hs.
  - erewrite consumer_run_step by (simpl; by rewrite Hs).
    destruct (tail_idx_ q ⊖ head_idx_ q <? n) eqn:Hr2.
    { simpl. by rewrite Hr2. }
    erewrite consumer_run_step by (simpl; by rewrite Hr2).
    destruct Hca as (W1 & _ & _ & _ & [(_ & Hav & Hts)|[? _]]); [|done].
    unfold negb. cbv beta iota zeta. change (mask_ (set_tail_snapshot q (tail_idx_ q))) with (mask_ q).
    rewrite (copy_out_front k buf q W n) by lia. cbn [mbind option_bind].
    apply (consumer_run_mono (Z.to_nat n + 1)); [lia|].
    apply (consumer_run_copy k buf _ n W1 ltac:(simpl in *; lia) (Z.to_nat n) 0); lia.
  - erewrite consumer_run_step by (simpl; by rewrite Hs).
    destruct Hca as (_ & _ & _ & _ & [(_ & Hav & Hts)|[? _]]); [|done].
    cbv beta iota zeta. rewrite (copy_out_front k buf q W n) by lia. cbn [mbind option_bind].
    apply (consumer_run_mono (Z.to_nat n + 1)); [lia|].
    apply (consumer_run_copy k buf q n W ltac:(lia) (Z.to_nat n) 0); lia.
Qed.

(** Every step of a call brings it closer to its return, whatever the other thread did. *)
Lemma producer_step_measure k buf q pc e q' pc' :
  producer_inv k buf q pc -> producer_step q pc = Some (e, q', pc') ->
  0 <= producer_measure pc' < producer_measure pc.
Proof.
  destruct pc as [|data|data t|data t i]; simpl; [done| | |]; pose proof (lenZ_nonneg data).
  - case_match; intros ? [= <- <- <-]; simpl; lia.
  - case_match; intros ? [= <- <- <-]; simpl; lia.
  - intros (_ & _ & ? & _) Hs. destruct (buffer_ q); simpl in Hs; [|done].
    destruct (Z.ltb_spec i (lenZ data)); bind_inv Hs; simplify_eq; simpl; lia.
Qed.

Lemma consumer_step_measure q pc e q' pc' :
  consumer_inv q pc -> consumer_step q pc = Some (e, q', pc') ->
  0 <= consumer_measure pc' < consumer_measure pc.
Proof.
  destruct pc as [|n|n h|n h i out]; simpl; [done| | |].
  - case_match; intros ? [= <- <- <-]; simpl; lia.
  - case_match; intros ? [= <- <- <-]; simpl; lia.
  - intros (_ & _ & ? & _) Hs. destruct (buffer_ q); simpl in Hs; [|done].
    destruct (Z.ltb_spec i n); bind_inv Hs; simplify_eq; simpl; lia.
Qed.

(** ** Properties *)

(** C6. In every interleaving of one producer and one consumer the calls behave as if each took
    effect atomically in the order of return: the results are those of the abstract queue, and the
    bytes dequeued so far followed by the bytes waiting are the bytes enqueued so far, with none
    lost, repeated, reordered or torn. *)
Theorem spsc_linearizable q l c :
  spsc_valid q -> exec {| queue := q; producer := PIdle; consumer := CIdle |} l c ->
  Fifo.run (bq_abs q) (returned_ops l) = (returned_results l, abs c) /\
  spsc_contents q ++ bytes_in (returned_ops l) (returned_results l) =
    bytes_out (returned_ops l) (returned_results l) ++ spsc_contents (queue c).
Proof.
  intros Hv Hx. destruct (exec_linearizes _ _ _ (idle_inv q Hv) Hx) as [_ Hrun].
  split; [exact Hrun|]. exact (fifo_stream _ _ _ _ Hrun).
Qed.

(** No interleaving lets the producer write a byte of the buffer in the same instant in which
    the consumer reads it. *)
Theorem spsc_no_data_race q l c a b :
  spsc_valid q -> exec {| queue := q; producer := PIdle; consumer := CIdle |} l c ->
  producer_writes (queue c) (producer c) = Some a ->
  consumer_reads (queue c) (consumer c) = Some b -> a <> b.
Proof.
  intros Hv Hx. apply inv_race_free. by destruct (exec_linearizes _ _ _ (idle_inv q Hv) Hx).
Qed.

(** C32. Both calls are wait-free and never undefined: in every reachable state a thread inside a
    call can take its next step, whatever the other thread does, and each of its steps lowers a
    bound on the steps left that starts at the record size plus three. *)
Theorem spsc_wait_free q l c :
  spsc_valid q -> exec {| queue := q; producer := PIdle; consumer := CIdle |} l c ->
  (producer c <> PIdle -> exists e q' p', producer_step (queue c) (producer c) = Some (e, q', p') /\
     0 <= producer_measure p' < producer_measure (producer c)) /\
  (consumer c <> CIdle -> exists e q' c', consumer_step (queue c) (consumer c) = Some (e, q', c') /\
     0 <= consumer_measure c' < consumer_measure (consumer c)).
Proof.
  intros Hv Hx. destruct (exec_linearizes _ _ _ (idle_inv q Hv) Hx) as [HI _].
  destruct c as [q1 p c]. destruct HI as (k & buf & W & HP & HC). simpl in *. split; intros Hb.
  - destruct (producer_step_ok k buf q1 W p c Hb HP HC) as (e & q' & p' & _ & Hs & _).
    exists e, q', p'. split; [done|]. by eapply producer_step_measure.
  - destruct (consumer_step_ok k buf q1 W c p Hb HC HP) as (e & q' & c' & Hs & _).
    exists e, q', c'. split; [done|]. by eapply consumer_step_measure.
Qed.

(** The atomic steps are the steps of the functions: run without interference they compute
    [enqueue_bytes] and [dequeue_bytes], state and result. *)
Theorem spsc_steps_are_calls q data n fuel :
  spsc_valid q -> 0 < lenZ data -> 0 < n ->
  (length data + Z.to_nat n + 3 <= fuel)%nat ->
  producer_run fuel q (PStart data) = enqueue_bytes q data /\
  consumer_run fuel q (CStart n) = dequeue_bytes q n.
Proof. intros. split; [apply enqueue_run | apply dequeue_run]; done || lia. Qed.

(** One step of the named thread in an execution built for a witness. *)
Ltac run_step thread :=
  first
    [ eapply exec_return; [eapply thread; vm_compute; reflexivity|]
    | eapply exec_tau; [eapply thread; vm_compute; reflexivity|] ].

Lemma spsc_linearizable_witness :
  exists l c, returned_ops l = [Fifo.Enqueue (bs "ab"); Fifo.Dequeue 1] /\
    Fifo.run (bq_abs near_wrap) (returned_ops l) = (returned_results l, abs c) /\
    spsc_contents near_wrap ++ bytes_in (returned_ops l) (returned_results l) =
      bytes_out (returned_ops l) (returned_results l) ++ spsc_contents (queue c).
Proof.
  eexists _, _. split; [|apply spsc_linearizable; [exact near_wrap_valid|]].
  2: { eapply exec_tau; [apply (step_call_enqueue _ _ (bs "ab")); reflexivity|].
       eapply exec_tau; [apply (step_call_dequeue _ _ 1); reflexivity|].
       run_step step_producer. run_step step_consumer. run_step step_producer.
       run_step step_consumer. run_step step_producer. run_step step_consumer.
       run_step step_producer. run_step step_consumer. apply exec_nil. }
  reflexivity.
Defined.

(** Producer and consumer both in the middle of their copies. *)
Definition mid_copy : config :=
  {| queue := set_tail_snapshot near_wrap (2 ^ 64 - 1);
     producer := PCopy (bs "ab") (2 ^ 64 - 1) 0; consumer := CCopy 1 (2 ^ 64 - 2) 0 [] |}.

Lemma mid_copy_reachable :
  exec {| queue := near_wrap; producer := PIdle; consumer := CIdle |} [] mid_copy.
Proof.
  eapply exec_tau; [apply (step_call_enqueue _ _ (bs "ab")); reflexivity|].
  eapply exec_tau; [apply (step_call_dequeue _ _ 1); reflexivity|].
  run_step step_producer. run_step step_consumer. run_step step_consumer. apply exec_nil.
Qed.

Lemma spsc_no_data_race_witness :
  producer_writes (queue mid_copy) (producer mid_copy) = Some 3 /\
  consumer_reads (queue mid_copy) (consumer mid_copy) = Some 2 /\ 3 <> 2.
Proof.
  assert (Hw : producer_writes (queue mid_copy) (producer mid_copy) = Some 3) by reflexivity.
  assert (Hr : consumer_reads (queue mid_copy) (consumer mid_copy) = Some 2) by reflexivity.
  split; [exact Hw|]. split; [exact Hr|].
  exact (spsc_no_data_race near_wrap [] mid_copy 3 2 near_wrap_valid mid_copy_reachable Hw Hr).
Defined.

Lemma spsc_wait_free_witness :
  exists e q' p', producer_step (queue mid_copy) (producer mid_copy) = Some (e, q', p') /\
    0 <= producer_measure p' < 3.
Proof.
  apply (spsc_wait_free near_wrap [] mid_copy near_wrap_valid mid_copy_reachable). discriminate.
Defined.

Lemma spsc_steps_are_calls_witness :
  producer_run 10 near_wrap (PStart (bs "ab")) = enqueue_bytes near_wrap (bs "ab") /\
  consumer_run 10 near_wrap (CStart 1) = dequeue_bytes near_wrap 1.
Proof.
  apply spsc_steps_are_calls; [exact near_wrap_valid | reflexivity | reflexivity |].
  vm_compute. lia.
Defined.
