(* ===== verification/SpscMemory.v ===== *)
(** * The single-producer single-consumer queue in the memory model of C++

    [enqueue_bytes], [dequeue_bytes] and [peek_bytes] of src/src/logging/impl/spsc_queue.cc with the
    memory orders they are written with. An index keeps every value ever stored in it, oldest
    first; a load by the other thread may give any of them that is not older than what that thread
    has read from it before. A store carries the accesses its thread made before its last release
    fence, and only an acquire load of it makes them known to the reader. The bytes of the buffer
    are plain objects: to read one that the other thread wrote, or to write one that it read,
    without that access being known, is a data race and undefined ([None]).

    In the source every store of an index follows a release fence and the calls acquire, so that no
    load reads from a store that comes later in the execution: that order of steps loses nothing. *)

From S2P Require Import Prelude Ring ByteQueue SpscQueue SpscConcurrent.

(** ** The memory *)

(** One value of an index in its modification order, with how many accesses of the buffer the
    storing thread had made before its last release fence. *)
Record message := { value : Z; clock : nat }.

(** What a thread has done and knows: its accesses of the buffer, those before its last release
    fence, how many of the other thread's happened before its next step, and the position of the
    newest store of the other thread's index that it has read. *)
Record thread := { accesses : nat; fenced : nat; knows : nat; seen : nat }.

(** [head_idx_] and [tail_idx_] of [queue] are the newest of [heads] and [tails]. [written] and
    [fetched] have, for every byte of the ring, the number of the last access of the producer and of
    the consumer to it, or 0. *)
Record weak := {
  wq : SpscQueue;
  heads : list message; tails : list message;
  written : list nat; fetched : list nat;
  producer_thread : thread; consumer_thread : thread;
  wp : producer_pc; wc : consumer_pc;
}.

(** [std::atomic_thread_fence(std::memory_order_release)]. *)
Definition release_fence (t : thread) : thread :=
  {| accesses := accesses t; fenced := accesses t; knows := knows t; seen := seen t |}.

(** [store(v, std::memory_order_relaxed)]. *)
Definition store_relaxed (t : thread) (order : list message) (v : Z) : list message :=
  order ++ [{| value := v; clock := fenced t |}].

(** Coherence: the [j]-th store may be what a load of the other thread's index reads. *)
Definition may_read (order : list message) (t : thread) (j : nat) : Prop :=
  (seen t <= j < length order)%nat.

(** [load(std::memory_order_acquire)] that reads the [j]-th store, [m]. *)
Definition load_acquire (t : thread) (j : nat) (m : message) : thread :=
  {| accesses := accesses t; fenced := fenced t; knows := Nat.max (knows t) (clock m); seen := j |}.

(** An access of the byte at [a], whose last access by the other thread is in [theirs]; [None] is a
    data race. *)
Definition access (mine theirs : list nat) (t : thread) (a : Z) : option (list nat * thread) :=
  other ← theirs !! Z.to_nat a;
  if (knows t <? other)%nat then None
  else Some (<[Z.to_nat a := S (accesses t)]> mine,
             {| accesses := S (accesses t); fenced := fenced t; knows := knows t; seen := seen t |}).

(** ** The steps

    They are those of SpscConcurrent.v, with a load of the other thread's index that may be old. *)
Definition see_head (q : SpscQueue) (h : Z) : SpscQueue :=
  {| buffer_ := buffer_ q; capacity_ := capacity_ q; mask_ := mask_ q; tail_idx_ := tail_idx_ q;
     tail_cached_ := tail_cached_ q; head_cached_snapshot_ := head_cached_snapshot_ q;
     head_idx_ := h; head_cached_ := head_cached_ q;
     tail_cached_snapshot_ := tail_cached_snapshot_ q; allocation_size_ := allocation_size_ q |}.

Definition see_tail (q : SpscQueue) (t : Z) : SpscQueue :=
  {| buffer_ := buffer_ q; capacity_ := capacity_ q; mask_ := mask_ q; tail_idx_ := t;
     tail_cached_ := tail_cached_ q; head_cached_snapshot_ := head_cached_snapshot_ q;
     head_idx_ := head_idx_ q; head_cached_ := head_cached_ q;
     tail_cached_snapshot_ := tail_cached_snapshot_ q; allocation_size_ := allocation_size_ q |}.

Definition put_producer (s : weak) (q : SpscQueue) (tails' : list message) (marks : list nat)
    (t : thread) (pc : producer_pc) : weak :=
  {| wq := q; heads := heads s; tails := tails'; written := marks; fetched := fetched s;
     producer_thread := t; consumer_thread := consumer_thread s; wp := pc; wc := wc s |}.

Definition put_consumer (s : weak) (q : SpscQueue) (heads' : list message) (marks : list nat)
    (t : thread) (pc : consumer_pc) : weak :=
  {| wq := q; heads := heads'; tails := tails s; written := written s; fetched := marks;
     producer_thread := producer_thread s; consumer_thread := t; wp := wp s; wc := pc |}.

(** The next step of [enqueue_bytes]; [j] is the store that the load of [head_idx_] reads. *)
Definition weak_producer (s : weak) (j : nat) : option (event * weak) :=
  match wp s with
  | PReload _ _ =>
    m ← heads s !! j;
    '(e, q, pc) ← producer_step (see_head (wq s) (value m)) (wp s);
    Some (e, put_producer s (see_head q (head_idx_ (wq s))) (tails s) (written s)
               (load_acquire (producer_thread s) j m) pc)
  | PCopy data current_tail i =>
    '(e, q, pc) ← producer_step (wq s) (wp s);
    if i <? lenZ data then
      '(marks, t) ← access (written s) (fetched s) (producer_thread s) (ring_addr (mask_ (wq s)) current_tail i);
      Some (e, put_producer s q (tails s) marks t pc)
    else
      let t := release_fence (producer_thread s) in
      Some (e, put_producer s q (store_relaxed t (tails s) (tail_idx_ q)) (written s) t pc)
  | _ =>
    '(e, q, pc) ← producer_step (wq s) (wp s);
    Some (e, put_producer s q (tails s) (written s) (producer_thread s) pc)
  end.

(** The next step of [dequeue_bytes]; [j] is the store that the load of [tail_idx_] reads. *)
Definition weak_consumer (s : weak) (j : nat) : option (event * weak) :=
  match wc s with
  | CReload _ _ =>
    m ← tails s !! j;
    '(e, q, pc) ← consumer_step (see_tail (wq s) (value m)) (wc s);
    Some (e, put_consumer s (see_tail q (tail_idx_ (wq s))) (heads s) (fetched s)
               (load_acquire (consumer_thread s) j m) pc)
  | CCopy size current_head i _ =>
    '(e, q, pc) ← consumer_step (wq s) (wc s);
    if i <? size then
      '(marks, t) ← access (fetched s) (written s) (consumer_thread s) (ring_addr (mask_ (wq s)) current_head i);
      Some (e, put_consumer s q (heads s) marks t pc)
    else
      let t := release_fence (consumer_thread s) in
      Some (e, put_consumer s q (store_relaxed t (heads s) (head_idx_ q)) (fetched s) t pc)
  | _ =>
    '(e, q, pc) ← consumer_step (wq s) (wc s);
    Some (e, put_consumer s q (heads s) (fetched s) (consumer_thread s) pc)
  end.

Inductive weak_step : weak -> event -> weak -> Prop :=
  | weak_call_enqueue s data :
      wp s = PIdle -> 0 < lenZ data ->
      weak_step s Tau (put_producer s (wq s) (tails s) (written s) (producer_thread s) (PStart data))
  | weak_producer_step s j e s' :
      may_read (heads s) (producer_thread s) j -> weak_producer s j = Some (e, s') -> weak_step s e s'
  | weak_call_dequeue s size :
      wc s = CIdle -> 0 < size ->
      weak_step s Tau (put_consumer s (wq s) (heads s) (fetched s) (consumer_thread s) (CStart size))
  | weak_consumer_step s j e s' :
      may_read (tails s) (consumer_thread s) j -> weak_consumer s j = Some (e, s') -> weak_step s e s'.

Inductive weak_exec : weak -> list event -> weak -> Prop :=
  | weak_nil s : weak_exec s [] s
  | weak_cons s e s1 l s2 : weak_step s e s1 -> weak_exec s1 l s2 -> weak_exec s (e :: l) s2.

(** Two threads that start on a queue: what was done before is known to both. *)
Definition fresh_thread : thread := {| accesses := 0; fenced := 0; knows := 0; seen := 0 |}.

Definition weak_start (q : SpscQueue) : weak :=
  {| wq := q; heads := [{| value := head_idx_ q; clock := 0 |}];
     tails := [{| value := tail_idx_ q; clock := 0 |}];
     written := replicate (Z.to_nat (capacity_ q)) 0%nat;
     fetched := replicate (Z.to_nat (capacity_ q)) 0%nat;
     producer_thread := fresh_thread; consumer_thread := fresh_thread; wp := PIdle; wc := CIdle |}.

(** [peek_bytes] by the consumer between its calls, the load of [tail_idx_], which is relaxed,
    reading the [j]-th store: the bytes from number [i] on are accessed one by one. *)
Fixpoint peek_accesses (n : nat) (s : weak) (t : thread) (marks : list nat) (i : Z) : option thread :=
  match n with
  | O => Some t
  | S n =>
    '(marks', t') ← access marks (written s) t (ring_addr (mask_ (wq s)) (head_idx_ (wq s)) i);
    peek_accesses n s t' marks' (i + 1)
  end.

Definition weak_peek (s : weak) (size : Z) (j : nat) : option (QueueStatus * bytes) :=
  m ← tails s !! j;
  '(status, out) ← peek_bytes (see_tail (wq s) (value m)) size;
  match status with
  | kOk => _ ← peek_accesses (Z.to_nat size) s (consumer_thread s) (fetched s) 0; Some (status, out)
  | _ => Some (status, out)
  end.

(** ** One direction of the communication

    [order] is the modification order of one index, with the counters as they are before they wrap
    around; [now] is the newest. Its owner has accessed the bytes up to [now + ahead]; [marks] are
    the owner's accesses. The reader's snapshot is the store it has read last, at least [low]. *)
Definition published (order : list (Z * nat)) : list message :=
  (λ p, {| value := u64 p.1; clock := p.2 |}) <$> order.

Record side (cap low now ahead : Z) (order : list (Z * nat)) (reader owner : thread)
    (snapshot : Z) (marks : list nat) : Prop := {
  sd_last : fst <$> last order = Some now;
  sd_sorted i j p p' : (i <= j)%nat -> order !! i = Some p -> order !! j = Some p' ->
    p.1 <= p'.1 /\ (p.2 <= p'.2)%nat;
  sd_seen : exists v, order !! seen reader = Some (v, knows reader) /\ snapshot = u64 v /\ low <= v;
  sd_ahead : 0 <= ahead;
  sd_marks : lenZ marks = cap;
  sd_known a m : marks !! a = Some m -> (m <= accesses owner)%nat;
  sd_clocks j p : order !! j = Some p -> (p.2 <= accesses owner)%nat;
  sd_after j p a m : order !! j = Some p -> marks !! a = Some m -> (p.2 < m)%nat ->
    exists x, p.1 <= x < now + ahead /\ x mod cap = Z.of_nat a;
  sd_before j p x : order !! j = Some p -> p.1 <= x < now + ahead -> now + ahead - cap <= x ->
    exists m, marks !! Z.to_nat (x mod cap) = Some m /\ (p.2 < m)%nat;
}.

Section side.
Context (cap : Z) (Hcap : 0 < cap).

Lemma side_newest low now ahead order reader owner snapshot marks j p :
  side cap low now ahead order reader owner snapshot marks -> order !! j = Some p -> p.1 <= now.
Proof.
  intros S Hj. pose proof (sd_last _ _ _ _ _ _ _ _ _ S) as Hl. rewrite last_lookup in Hl.
  destruct (order !! pred (length order)) as [p'|] eqn:Hp; [|done]. injection Hl as <-.
  apply lookup_lt_Some in Hj as Hlt. eapply (sd_sorted _ _ _ _ _ _ _ _ _ S); [|done..]. lia.
Qed.

(** What a load of the index may read, and what the reader knows after it. *)
Lemma side_load low now ahead order reader owner snapshot marks j :
  side cap low now ahead order reader owner snapshot marks -> may_read (published order) reader j ->
  exists v c, published order !! j = Some {| value := u64 v; clock := c |} /\ low <= v <= now /\
    (S j = length order -> v = now) /\
    side cap low now ahead order (load_acquire reader j {| value := u64 v; clock := c |}) owner (u64 v) marks.
Proof.
  intros S [Hs Hj]. unfold published in *. rewrite length_fmap in Hj.
  destruct (lookup_lt_is_Some_2 order j Hj) as [[v c] Hv]. exists v, c.
  rewrite list_lookup_fmap, Hv. pose proof (side_newest _ _ _ _ _ _ _ _ _ _ S Hv) as Hn.
  destruct (sd_seen _ _ _ _ _ _ _ _ _ S) as (v0 & Hv0 & _ & Hlow).
  destruct (sd_sorted _ _ _ _ _ _ _ _ _ S _ _ _ _ Hs Hv0 Hv) as [Hle Hc]. simpl in *.
  split; [done|]. split; [lia|]. split.
  - intros Hlen. pose proof (sd_last _ _ _ _ _ _ _ _ _ S) as Hl. rewrite last_lookup in Hl.
    replace (pred (length order)) with j in Hl by lia. rewrite Hv in Hl. by injection Hl.
  - destruct S. constructor; try done. exists v. simpl.
    rewrite Nat.max_r by done. split_and!; [done | done | lia].
Qed.

(** The owner accesses the next byte. *)
Lemma side_access low now ahead order reader owner snapshot marks :
  side cap low now ahead order reader owner snapshot marks ->
  side cap low now (ahead + 1) order reader
    {| accesses := S (accesses owner); fenced := fenced owner; knows := knows owner; seen := seen owner |}
    snapshot (<[Z.to_nat ((now + ahead) mod cap) := S (accesses owner)]> marks).
Proof.
  intros S. destruct S as [Hl Hs Hse Ha Hm Hk Hc Haf Hbe].
  pose proof (Z.mod_pos_bound (now + ahead) cap Hcap) as Hmod.
  assert (forall j p, order !! j = Some p -> p.1 <= now) as Hnow.
  { intros j p Hj. eapply side_newest; [by constructor | done]. }
  constructor; try done; [lia | | | | |].
  - unfold lenZ in *. by rewrite length_insert.
  - intros a m. simpl. rewrite list_lookup_insert. case_decide; [intros [= <-]; lia|].
    intros Ham. apply Hk in Ham. lia.
  - intros j p Hj. apply Hc in Hj. simpl. lia.
  - intros j p a m Hj. rewrite list_lookup_insert. case_decide as Hd.
    + intros _ _. exists (now + ahead). pose proof (Hnow _ _ Hj). split; [lia|].
      destruct Hd as [<- _]. lia.
    + intros Ham Hlt. destruct (Haf _ _ _ _ Hj Ham Hlt) as (x & Hx & Hxa). exists x. split; [lia|done].
  - intros j p x Hj Hx Hw. rewrite list_lookup_insert. case_decide as Hd.
    + eexists. split; [done|]. apply Hc in Hj. lia.
    + destruct (decide (x = now + ahead)) as [->|Hne].
      { destruct Hd. split; [done|]. unfold lenZ in Hm. lia. }
      apply (Hbe _ _ _ Hj); lia.
Qed.

(** The owner stores the index after a release fence. *)
Lemma side_store low now ahead order reader owner snapshot marks :
  side cap low now ahead order reader owner snapshot marks ->
  side cap low (now + ahead) 0 (order ++ [(now + ahead, accesses owner)]) reader
    (release_fence owner) snapshot marks.
Proof.
  intros S. assert (forall j p, order !! j = Some p -> p.1 <= now) as Hnow
    by (intros j p Hj; eapply side_newest; done).
  destruct S as [Hl Hs Hse Ha Hm Hk Hc Haf Hbe].
  assert (forall j p, (order ++ [(now + ahead, accesses owner)]) !! j = Some p ->
    order !! j = Some p \/ j = length order /\ p = (now + ahead, accesses owner)) as Hin.
  { intros j p [Hj|[Hlen Hj]]%lookup_app_Some; [by left|right].
    destruct (j - length order)%nat as [|n] eqn:Hn; [|by destruct n].
    injection Hj as <-. split; [lia|done]. }
  constructor; try done.
  - by rewrite last_snoc.
  - intros i j p p' Hij Hp Hp'. apply Hin in Hp as [Hp|[-> ->]]; apply Hin in Hp' as [Hp'|[-> ->]].
    + by apply (Hs i j).
    + pose proof (Hnow _ _ Hp). apply Hc in Hp. simpl. split; lia.
    + apply lookup_lt_Some in Hp'. lia.
    + done.
  - destruct Hse as (v & Hv & ?). exists v. by rewrite (lookup_app_l_Some _ _ _ _ Hv).
  - intros j p [Hj|[_ ->]]%Hin; [by apply Hc in Hj | done].
  - intros j p a m [Hj|[_ ->]]%Hin Ham Hlt.
    + destruct (Haf _ _ _ _ Hj Ham Hlt) as (x & Hx & Hxa). exists x. split; [lia|done].
    + apply Hk in Ham. simpl in Hlt. lia.
  - intros j p x [Hj|[_ ->]]%Hin Hx Hw; [|simpl in Hx; lia]. apply (Hbe _ _ _ Hj); lia.
Qed.

(** Only what the reader knows and what the owner accessed matters. *)
Lemma side_threads low now ahead order reader reader' owner owner' snapshot marks :
  knows reader' = knows reader -> seen reader' = seen reader -> accesses owner' = accesses owner ->
  side cap low now ahead order reader owner snapshot marks ->
  side cap low now ahead order reader' owner' snapshot marks.
Proof. intros Hk Hs Ha S. destruct S. constructor; rewrite ?Hk, ?Hs, ?Ha; done. Qed.

Lemma side_low low low' now ahead order reader owner snapshot marks :
  (forall v, low <= v <= now -> snapshot = u64 v -> low' <= v) ->
  side cap low now ahead order reader owner snapshot marks ->
  side cap low' now ahead order reader owner snapshot marks.
Proof.
  intros Hv S. pose proof (sd_seen _ _ _ _ _ _ _ _ _ S) as (v & Hse & Hsn & Hlow).
  pose proof (side_newest _ _ _ _ _ _ _ _ _ _ S Hse) as Hn.
  destruct S. constructor; try done. exists v. split_and!; [done | done |]. by apply Hv.
Qed.

(** Where the owner may have been since a store that the reader knows is where the reader is not. *)
Lemma side_free low now ahead order reader owner snapshot marks j v c y :
  side cap low now ahead order reader owner snapshot marks -> order !! j = Some (v, c) ->
  (y < v /\ now + ahead <= y + cap \/ now + ahead <= y < v + cap) ->
  exists m, marks !! Z.to_nat (y mod cap) = Some m /\ (m <= c)%nat.
Proof.
  intros S Hv Hy. pose proof (Z.mod_pos_bound y cap Hcap) as Hmod.
  destruct (lookup_lt_is_Some_2 marks (Z.to_nat (y mod cap))) as [m Hm].
  { pose proof (sd_marks _ _ _ _ _ _ _ _ _ S). unfold lenZ in *. lia. }
  exists m. split; [done|]. destruct (decide (m <= c)%nat) as [|Hlt]; [done|].
  destruct (sd_after _ _ _ _ _ _ _ _ _ S _ _ _ _ Hv Hm) as (x & Hx & Hxa); [simpl; lia|]. simpl in Hx.
  rewrite Z2Nat.id in Hxa by lia.
  assert ((x - y) mod cap = 0) as Hd by (by rewrite Zminus_mod, Hxa, Z.sub_diag, Z.mod_0_l by lia).
  apply Z.mod_divide in Hd as [d Hc]; [|lia]. exfalso.
  assert (d <= -1 \/ d = 0 \/ 1 <= d) as [?|[->|?]] by lia; [nia | lia | nia].
Qed.
End side.

(** ** The invariant *)

Definition producer_ahead (pc : producer_pc) : Z := match pc with PCopy _ _ i => i | _ => 0 end.
Definition consumer_ahead (pc : consumer_pc) : Z := match pc with CCopy _ _ i _ => i | _ => 0 end.

(** [T] and [H] are the indices before they wrap around. *)
Record weak_inv (k : Z) (buf : bytes) (T H : Z) (hs ts : list (Z * nat)) (s : weak) : Prop := {
  wi_wf : spsc_wf k buf (wq s);
  wi_producer : producer_inv k buf (wq s) (wp s);
  wi_consumer : consumer_inv (wq s) (wc s);
  wi_tail : tail_idx_ (wq s) = u64 T;
  wi_head : head_idx_ (wq s) = u64 H;
  wi_heads : heads s = published hs;
  wi_tails : tails s = published ts;
  wi_hs : side (2 ^ k) (T - 2 ^ k) H (consumer_ahead (wc s)) hs (producer_thread s) (consumer_thread s)
            (head_cached_snapshot_ (wq s)) (fetched s);
  wi_ts : side (2 ^ k) H T (producer_ahead (wp s)) ts (consumer_thread s) (producer_thread s)
            (tail_cached_snapshot_ (wq s)) (written s);
}.

(** What the wrapped indices say about the counters. *)
Record counters (k T H Hs Ts : Z) (q : SpscQueue) : Prop := {
  co_k : 1 <= k <= 63 /\ 2 <= 2 ^ k <= 2 ^ 63;
  co_order : T - 2 ^ k <= Hs <= H /\ H <= Ts <= T;
  co_used : tail_idx_ q ⊖ head_idx_ q = T - H;
  co_producer : tail_idx_ q ⊖ head_cached_snapshot_ q = T - Hs;
  co_consumer : tail_cached_snapshot_ q ⊖ head_idx_ q = Ts - H;
}.

Section inv.
Context (k : Z) (buf : bytes) (T H : Z) (hs ts : list (Z * nat)) (s : weak)
        (I : weak_inv k buf T H hs ts s).

Lemma inv_cap : 1 <= k <= 63 /\ 2 <= 2 ^ k <= 2 ^ 63.
Proof.
  destruct (wf_bounds k buf (wq s) (wi_wf _ _ _ _ _ _ _ I)) as [_ ?].
  split; [apply (wf_k _ _ _ (wi_wf _ _ _ _ _ _ _ I)) | done].
Qed.

Lemma inv_counters : exists Hs Ts,
  hs !! seen (producer_thread s) = Some (Hs, knows (producer_thread s)) /\
  ts !! seen (consumer_thread s) = Some (Ts, knows (consumer_thread s)) /\
  counters k T H Hs Ts (wq s) /\
  T + producer_ahead (wp s) <= Hs + 2 ^ k /\ H + consumer_ahead (wc s) <= Ts.
Proof.
  pose proof inv_cap as Hk. destruct I as [W HP HC Ht Hh _ _ Sh St].
  destruct (sd_seen _ _ _ _ _ _ _ _ _ Sh) as (Hs & Hs1 & Hs2 & Hs3).
  destruct (sd_seen _ _ _ _ _ _ _ _ _ St) as (Ts & Ts1 & Ts2 & Ts3).
  pose proof (side_newest _ _ _ _ _ _ _ _ _ _ _ Sh Hs1) as Hs4.
  pose proof (side_newest _ _ _ _ _ _ _ _ _ _ _ St Ts1) as Ts4. simpl in *.
  exists Hs, Ts. split; [done|]. split; [done|].
  assert (counters k T H Hs Ts (wq s)) as Co.
  { constructor; [done | lia | | |]; rewrite ?Ht, ?Hh, ?Hs2, ?Ts2; apply u64_sub_counters; lia. }
  split; [exact Co|]. destruct Co as [_ _ _ Hp Hc]. split.
  - destruct (wp s); simpl in *; lia.
  - destruct (wc s); simpl in *; lia.
Qed.

(** The address of a byte of a record at a wrapped index. *)
Lemma inv_addr X i : 0 <= i < 2 ^ k -> ring_addr (mask_ (wq s)) (u64 X) i = (X + i) mod 2 ^ k.
Proof.
  intros Hi. destruct inv_cap as [Hk _].
  rewrite (wf_mask _ _ _ (wi_wf _ _ _ _ _ _ _ I)), ring_addr_mod by done.
  by rewrite <- Zplus_mod_idemp_l, u64_mod_pow2, Zplus_mod_idemp_l by lia.
Qed.

End inv.

Arguments wi_wf {_ _ _ _ _ _ _}. Arguments wi_hs {_ _ _ _ _ _ _}. Arguments wi_ts {_ _ _ _ _ _ _}.

(** A step decides as the abstract queue does, or it is a failure that an old index led to. *)
Definition weak_event (newest : bool) (f : Fifo.fifo) (e : event) (f' : Fifo.fifo) : Prop :=
  event_spec f e f' \/
  newest = false /\ f' = f /\ exists o st, e = Return o st [] /\ (st = kOverflow \/ st = kUnderflow).

Definition is_newest (j : nat) (order : list message) : bool := bool_decide (S j = length order).

Section steps.
Context (k : Z) (buf : bytes) (T H : Z) (hs ts : list (Z * nat)) (s : weak)
        (I : weak_inv k buf T H hs ts s).

(** The producer reads [head_idx_], old or new. *)
Lemma weak_reload data t j :
  wp s = PReload data t -> may_read (heads s) (producer_thread s) j ->
  exists e s', weak_producer s j = Some (e, s') /\ weak_inv k buf T H hs ts s' /\
    weak_event (is_newest j (heads s)) (bq_abs (wq s)) e (bq_abs (wq s')).
Proof.
  intros Hpc Hj. destruct (inv_cap _ _ _ _ _ _ _ I) as [Hk Hc].
  destruct (inv_counters _ _ _ _ _ _ _ I) as (Hs & Ts & _ & _ & [_ Ho Hu _ _] & _).
  pose proof (wf_contents_length k buf _ (wi_wf I)) as Hlen.
  destruct I as [W HP HC Ht Hh Eh Et Sh St]. rewrite Eh in Hj.
  destruct (side_load _ _ _ _ _ _ _ _ _ _ Sh Hj) as (v & c & Hm & Hv & Hnew & Sh').
  assert (tail_idx_ (wq s) ⊖ u64 v = T - v) as Hd by (rewrite Ht; apply u64_sub_counters; lia).
  unfold weak_producer. rewrite Hpc, Eh, Hm in *. cbn [mbind option_bind value] in *.
  destruct HP as [Hdata ->]. cbn [producer_step see_head head_idx_ capacity_ tail_idx_].
  rewrite (wf_capacity _ _ _ W), Hd, (u64_small (2 ^ k - (T - v))) by lia.
  assert (forall pc, producer_ahead pc = 0 -> producer_inv k buf (set_head_snapshot (wq s) (u64 v)) pc ->
    weak_inv k buf T H hs ts (put_producer s (set_head_snapshot (wq s) (u64 v)) (tails s) (written s)
      (load_acquire (producer_thread s) j {| value := u64 v; clock := c |}) pc)) as Hinv.
  { intros pc Ha Hp. constructor; try done; cbn [wq wp put_producer producer_thread].
    - destruct W. constructor; try done. cbn. rewrite Hd, Hu. lia.
    - cbn in St. rewrite Ha. by eapply side_threads, St. }
  destruct (Z.ltb_spec (2 ^ k - (T - v)) (lenZ data)) as [Hfull|Hfits];
    (do 2 eexists; split; [reflexivity|]; split; [apply Hinv; [done|]|]).
  - done.
  - unfold weak_event, is_newest. case_bool_decide as Hj'.
    + left. assert (v = H) as -> by (apply Hnew; unfold published in Hj'; by rewrite length_fmap in Hj').
      cbn. unfold Fifo.enqueue, bq_abs. cbn. rewrite Hlen, Hu, (wf_capacity _ _ _ W).
      destruct (Z.eqb_spec (lenZ data) 0); [lia|].
      by destruct (Z.ltb_spec (2 ^ k) (T - H + lenZ data)); [|lia].
    + right. split_and!; [done | done |]. eauto.
  - cbn. rewrite Hd. split_and!; try done; try lia.
  - by left.
Qed.
(** The producer writes a byte, or stores the new tail. *)
Lemma weak_copy_in data t i j :
  wp s = PCopy data t i ->
  exists e s' buf' T' ts', weak_producer s j = Some (e, s') /\ weak_inv k buf' T' H hs ts' s' /\ T <= T' /\
    event_spec (bq_abs (wq s)) e (bq_abs (wq s')).
Proof.
  intros Hpc. destruct (inv_cap _ _ _ _ _ _ _ I) as [Hk Hc].
  destruct (inv_counters _ _ _ _ _ _ _ I) as (Hs & Ts & Eh & _ & [_ Ho _ Hps _] & Hpa & Hca).
  destruct (producer_step_ok k buf _ (wi_wf I) (wp s) (wc s)) as (e & q' & pc' & buf' & Hstep & W' & HP' & HC' & He);
    [by rewrite Hpc | apply I | apply I |].
  pose proof (inv_addr _ _ _ _ _ _ _ I T i) as Haddr.
  destruct I as [W HP HC Ht Hh Emh Emt Sh St]. unfold weak_producer. rewrite Hstep, Hpc in *.
  cbn [mbind option_bind producer_ahead producer_inv producer_step] in *. destruct HP as (Hd & -> & Hi & Hfit & _).
  rewrite (wf_buffer _ _ _ W) in Hstep. cbn [mbind option_bind] in Hstep.
  destruct (Z.ltb_spec i (lenZ data)) as [Hlt|Hge].
  - bind_inv Hstep. simplify_eq. rewrite <- Ht in Haddr. rewrite Haddr by lia.
    destruct (side_free (2 ^ k) ltac:(lia) _ _ _ _ _ _ _ _ _ Hs _ (T + i) Sh Eh ltac:(lia)) as (m & Hm & Hkn).
    unfold access. rewrite Hm. cbn [mbind option_bind]. rewrite (proj2 (Nat.ltb_ge _ _) Hkn).
    do 5 eexists. split; [reflexivity|]. split; [|split; [reflexivity | exact He]].
    constructor; try done; cbn.
    + by eapply side_threads, Sh.
    + by apply side_access, St; lia.
  - injection Hstep as <- <- <-. assert (i = lenZ data) as -> by lia.
    eexists _, _, _, (T + lenZ data), (ts ++ [(T + lenZ data, accesses (producer_thread s))]).
    split; [reflexivity|]. split; [|split; [lia | exact He]]. constructor; try done; cbn.
    + by rewrite Ht, u64_add_l.
    + rewrite Emt, Ht, u64_add_l. unfold store_relaxed, published. by rewrite fmap_app.
    + eapply side_low; [|by eapply side_threads, Sh]. intros v Hv Hsn.
      rewrite Hsn, Ht, u64_sub_counters in Hps by lia. lia.
    + by eapply side_store, St.
Qed.
(** The consumer reads [tail_idx_], old or new. *)
Lemma weak_refetch n h j :
  wc s = CReload n h -> may_read (tails s) (consumer_thread s) j ->
  exists e s', weak_consumer s j = Some (e, s') /\ weak_inv k buf T H hs ts s' /\
    weak_event (is_newest j (tails s)) (bq_abs (wq s)) e (bq_abs (wq s')).
Proof.
  intros Hpc Hj. destruct (inv_cap _ _ _ _ _ _ _ I) as [Hk Hc].
  destruct (inv_counters _ _ _ _ _ _ _ I) as (Hs & Ts & _ & _ & [_ Ho Hu _ _] & _).
  pose proof (wf_contents_length k buf _ (wi_wf I)) as Hlen.
  destruct I as [W HP HC Ht Hh Eh Et Sh St]. rewrite Et in Hj.
  destruct (side_load _ _ _ _ _ _ _ _ _ _ St Hj) as (v & c & Hm & Hv & Hnew & St').
  assert (u64 v ⊖ head_idx_ (wq s) = v - H) as Hd by (rewrite Hh; apply u64_sub_counters; lia).
  unfold weak_consumer. rewrite Hpc, Et, Hm in *. cbn [mbind option_bind value] in *.
  destruct HC as [Hn ->]. cbn [consumer_step see_tail head_idx_ tail_idx_]. rewrite Hd.
  assert (forall pc, consumer_ahead pc = 0 -> consumer_inv (set_tail_snapshot (wq s) (u64 v)) pc ->
    weak_inv k buf T H hs ts (put_consumer s (set_tail_snapshot (wq s) (u64 v)) (heads s) (fetched s)
      (load_acquire (consumer_thread s) j {| value := u64 v; clock := c |}) pc)) as Hinv.
  { intros pc Ha Hp. constructor; try done; cbn [wq wc put_consumer consumer_thread].
    - destruct W. constructor; try done. cbn. rewrite Hd, Hu. lia.
    - cbn in Sh. rewrite Ha. by eapply side_threads, Sh. }
  destruct (Z.ltb_spec (v - H) n) as [Hfew|Henough];
    (do 2 eexists; split; [reflexivity|]; split; [apply Hinv; [done|]|]).
  - done.
  - unfold weak_event, is_newest. case_bool_decide as Hj'.
    + left. assert (v = T) as -> by (apply Hnew; unfold published in Hj'; by rewrite length_fmap in Hj').
      cbn. unfold Fifo.dequeue, bq_abs. cbn. rewrite Hlen, Hu.
      destruct (Z.eqb_spec n 0); [lia|]. by destruct (Z.ltb_spec (T - H) n); [|lia].
    + right. split_and!; [done | done |]. eauto.
  - cbn. rewrite Hd. split_and!; try done; try lia.
  - by left.
Qed.

(** The consumer reads a byte, or stores the new head. *)
Lemma weak_copy_out n h i out j :
  wc s = CCopy n h i out ->
  exists e s' H' hs', weak_consumer s j = Some (e, s') /\ weak_inv k buf T H' hs' ts s' /\ hs `prefix_of` hs' /\
    event_spec (bq_abs (wq s)) e (bq_abs (wq s')).
Proof.
  intros Hpc. destruct (inv_cap _ _ _ _ _ _ _ I) as [Hk Hc].
  destruct (inv_counters _ _ _ _ _ _ _ I) as (Hs & Ts & _ & Et & [_ Ho _ _ Hcs] & Hpa & Hca).
  destruct (consumer_step_ok k buf _ (wi_wf I) (wc s) (wp s)) as (e & q' & pc' & Hstep & W' & HC' & HP' & He);
    [by rewrite Hpc | apply I | apply I |].
  pose proof (inv_addr _ _ _ _ _ _ _ I H i) as Haddr.
  destruct I as [W HP HC Ht Hh Emh Emt Sh St]. unfold weak_consumer. rewrite Hstep, Hpc in *.
  cbn [mbind option_bind consumer_ahead consumer_inv consumer_step] in *.
  destruct HC as (Hd & -> & Hi & Hfit & _). rewrite <- Hh in Haddr.
  rewrite (wf_buffer _ _ _ W) in Hstep. cbn [mbind option_bind] in Hstep.
  destruct (Z.ltb_spec i n) as [Hlt|Hge].
  - bind_inv Hstep. simplify_eq. rewrite Haddr by lia.
    destruct (side_free (2 ^ k) ltac:(lia) _ _ _ _ _ _ _ _ _ Ts _ (H + i) St Et ltac:(lia)) as (m & Hm & Hkn).
    unfold access. rewrite Hm. cbn [mbind option_bind]. rewrite (proj2 (Nat.ltb_ge _ _) Hkn).
    do 4 eexists. split; [reflexivity|]. split; [|split; [reflexivity | exact He]].
    constructor; try done; cbn.
    + by apply side_access, Sh; lia.
    + by eapply side_threads, St.
  - injection Hstep as <- <- <-. assert (i = n) as -> by lia.
    eexists _, _, (H + n), (hs ++ [(H + n, accesses (consumer_thread s))]).
    split; [reflexivity|]. split; [|split; [by apply prefix_app_r | exact He]]. constructor; try done; cbn.
    + by rewrite Hh, u64_add_l.
    + rewrite Emh, Hh, u64_add_l. unfold store_relaxed, published. by rewrite fmap_app.
    + by eapply side_store, Sh.
    + eapply side_low; [|by eapply side_threads, St]. intros v Hv Hsn.
      rewrite Hsn, Hh, u64_sub_counters in Hcs by lia. lia.
Qed.
End steps.

(** A thread inside a call has a next step whatever its loads give, and the step keeps the
    invariant. *)
Lemma weak_producer_ok k buf T H hs ts s j :
  weak_inv k buf T H hs ts s -> wp s <> PIdle -> may_read (heads s) (producer_thread s) j ->
  exists e s' buf' T' ts', weak_producer s j = Some (e, s') /\ weak_inv k buf' T' H hs ts' s' /\ T <= T' /\
    weak_event (is_newest j (heads s)) (bq_abs (wq s)) e (bq_abs (wq s')).
Proof.
  intros I Hpc Hj. destruct (wp s) as [|data|data t|data t i] eqn:Ep; [done| | |].
  - destruct (producer_step_ok k buf _ (wi_wf I) (wp s) (wc s)) as (e & q' & pc' & buf' & Hstep & W' & HP' & HC' & He);
      [by rewrite Ep | apply I | apply I |].
    destruct I as [W HP HC Ht Hh Eh Et Sh St]. unfold weak_producer. rewrite Hstep, Ep in *. cbn in *.
    case_match; injection Hstep as <- <- <-;
      (eexists _, _, buf, T, ts; split; [reflexivity|]; split; [|split; [reflexivity | by left]]; constructor; done).
  - destruct (weak_reload k buf T H hs ts s I data t j Ep Hj) as (e & s' & ? & ? & ?).
    by exists e, s', buf, T, ts.
  - destruct (weak_copy_in k buf T H hs ts s I data t i j Ep) as (e & s' & buf' & T' & ts' & ? & ? & ? & ?).
    exists e, s', buf', T', ts'. split_and!; [done | done | done | by left].
Qed.

Lemma weak_consumer_ok k buf T H hs ts s j :
  weak_inv k buf T H hs ts s -> wc s <> CIdle -> may_read (tails s) (consumer_thread s) j ->
  exists e s' H' hs', weak_consumer s j = Some (e, s') /\ weak_inv k buf T H' hs' ts s' /\ hs `prefix_of` hs' /\
    weak_event (is_newest j (tails s)) (bq_abs (wq s)) e (bq_abs (wq s')).
Proof.
  intros I Hpc Hj. destruct (wc s) as [|n|n h|n h i out] eqn:Ep; [done| | |].
  - destruct (consumer_step_ok k buf _ (wi_wf I) (wc s) (wp s)) as (e & q' & pc' & Hstep & W' & HC' & HP' & He);
      [by rewrite Ep | apply I | apply I |].
    destruct I as [W HP HC Ht Hh Eh Et Sh St]. unfold weak_consumer. rewrite Hstep, Ep in *. cbn in *.
    case_match; injection Hstep as <- <- <-;
      (eexists _, _, H, hs; split; [reflexivity|]; split; [|split; [reflexivity | by left]]; constructor; done).
  - destruct (weak_refetch k buf T H hs ts s I n h j Ep Hj) as (e & s' & ? & ? & ?).
    by exists e, s', H, hs.
  - destruct (weak_copy_out k buf T H hs ts s I n h i out j Ep) as (e & s' & H' & hs' & ? & ? & ? & ?).
    exists e, s', H', hs'. split_and!; [done | done | done | by left].
Qed.

Definition weak_ok (s : weak) : Prop := exists k buf T H hs ts, weak_inv k buf T H hs ts s.

Lemma weak_step_ok s e s' :
  weak_ok s -> weak_step s e s' -> weak_ok s' /\ exists newest, weak_event newest (bq_abs (wq s)) e (bq_abs (wq s')).
Proof.
  intros (k & buf & T & H & hs & ts & I) Hs.
  destruct Hs as [s data Hp Hd|s j e s' Hj Hs|s n Hc Hn|s j e s' Hj Hs].
  - split; [|exists true; by left]. exists k, buf, T, H, hs, ts. destruct I. rewrite Hp in *. by constructor.
  - destruct (weak_producer_ok k buf T H hs ts s j I) as (e' & s1 & buf' & T' & ts' & Hs' & I' & _ & He); [|done|].
    { intros Hp. unfold weak_producer in Hs. by rewrite Hp in Hs. }
    rewrite Hs in Hs'. injection Hs' as <- <-. split; [|by eexists]. by exists k, buf', T', H, hs, ts'.
  - split; [|exists true; by left]. exists k, buf, T, H, hs, ts. destruct I. rewrite Hc in *. by constructor.
  - destruct (weak_consumer_ok k buf T H hs ts s j I) as (e' & s1 & H' & hs' & Hs' & I' & _ & He); [|done|].
    { intros Hc. unfold weak_consumer in Hs. by rewrite Hc in Hs. }
    rewrite Hs in Hs'. injection Hs' as <- <-. split; [|by eexists]. by exists k, buf, T, H', hs', ts.
Qed.

(** ** Executions *)

(** What a call that returned put in or took out. *)
Definition event_in (e : event) : bytes :=
  match e with Return (Fifo.Enqueue d) kOk _ => d | _ => [] end.
Definition event_out (e : event) : bytes :=
  match e with Return (Fifo.Dequeue _) kOk out => out | _ => [] end.

Lemma weak_event_stream newest f e f' :
  weak_event newest f e f' -> Fifo.content f ++ event_in e = event_out e ++ Fifo.content f'.
Proof.
  intros [He|(_ & -> & o & st & -> & Hst)].
  - destruct e as [|o st out]; simpl in He; [by rewrite He, app_nil_r|].
    assert (Fifo.run f [o] = ([(st, out)], f')) as Hr by (simpl; by rewrite He).
    apply fifo_stream in Hr. destruct o, st; simpl in *; by rewrite ?app_nil_r in *.
  - destruct Hst as [-> | ->]; destruct o; simpl; by rewrite app_nil_r.
Qed.

Lemma weak_exec_ok s l s' :
  weak_ok s -> weak_exec s l s' ->
  weak_ok s' /\ spsc_contents (wq s) ++ concat (event_in <$> l) = concat (event_out <$> l) ++ spsc_contents (wq s').
Proof.
  intros Hok Hx. induction Hx as [s|s e s1 l s2 Hs Hx IH]; cbn.
  { by rewrite app_nil_r. }
  destruct (weak_step_ok _ _ _ Hok Hs) as [Hok1 [newest He]]. destruct (IH Hok1) as [Hok2 Hst].
  split; [done|]. apply weak_event_stream in He. simpl in He.
  by rewrite app_assoc, He, <- app_assoc, Hst, app_assoc.
Qed.

(** A queue on which nothing is going on: both snapshots are up to date. *)
Record rested (q : SpscQueue) : Prop := {
  re_valid : spsc_valid q;
  re_head : 0 <= head_idx_ q < 2 ^ 64;
  re_tail : 0 <= tail_idx_ q < 2 ^ 64;
  re_head_snapshot : head_cached_snapshot_ q = head_idx_ q;
  re_tail_snapshot : tail_cached_snapshot_ q = tail_idx_ q;
}.

Lemma fresh_side cap low now snapshot :
  0 <= cap -> snapshot = u64 now -> low <= now ->
  side cap low now 0 [(now, 0%nat)] fresh_thread fresh_thread snapshot (replicate (Z.to_nat cap) 0%nat).
Proof.
  intros Hcap Hsn Hlow. assert (forall j p, [(now, 0%nat)] !! j = Some p -> p = (now, 0%nat)) as Hone.
  { intros [|[|j]] p Hj; by simplify_eq/=. }
  constructor; [done | | | done | | | | |].
  - intros i j p p' _ Hp%Hone Hp'%Hone. subst. simpl. lia.
  - by exists now.
  - unfold lenZ. rewrite length_replicate. lia.
  - intros a m [-> _]%lookup_replicate. simpl. lia.
  - intros j p Hp%Hone. subst. done.
  - intros j p a m Hp%Hone [-> _]%lookup_replicate. subst. simpl. lia.
  - intros j p x Hp%Hone. subst. simpl. lia.
Qed.

Lemma weak_start_ok q : rested q -> weak_ok (weak_start q).
Proof.
  intros [(k & buf & W) Hh Ht Hhs Hts]. pose proof (wf_bounds k buf q W) as [Hu Hc].
  set (used := tail_idx_ q ⊖ head_idx_ q) in *.
  assert (tail_idx_ q = u64 (head_idx_ q + used)) as HT.
  { subst used. rewrite u64_add_r, Z.add_comm, Z.sub_add. by rewrite u64_small. }
  exists k, buf, (head_idx_ q + used), (head_idx_ q),
    [(head_idx_ q, 0%nat)], [(head_idx_ q + used, 0%nat)].
  constructor; cbn; try done; unfold weak_start; cbn; rewrite ?(wf_capacity _ _ _ W).
  - by rewrite u64_small.
  - unfold published. cbn. by rewrite u64_small.
  - unfold published. cbn. by rewrite <- HT.
  - apply fresh_side; [lia | by rewrite u64_small | lia].
  - apply fresh_side; [lia | by rewrite <- HT | lia].
Qed.

Lemma reserve_rested alloc n q :
  alloc_sized alloc -> 0 <= n <= 2 ^ 63 -> reserve alloc n = Some q -> buffer_ q <> None ->
  rested q /\ spsc_contents q = [].
Proof.
  intros Ha Hn Hr Hb. destruct (reserve_valid alloc n q Ha Hn Hr) as [?|(Hv & Hc & _)]; [done|].
  split; [|done]. unfold reserve in Hr. bind_inv Hr. case_match; simplify_eq/=; by constructor.
Qed.

(** ** Peeking *)

Section peek.
Context (k : Z) (buf : bytes) (T H : Z) (hs ts : list (Z * nat)) (s : weak)
        (I : weak_inv k buf T H hs ts s).
Context (Ts : Z) (Hts : ts !! seen (consumer_thread s) = Some (Ts, knows (consumer_thread s))).
Context (Hpeek : T + producer_ahead (wp s) <= H + 2 ^ k) (HTs : H <= Ts <= T).

(** A byte below the tail the consumer has acquired is known to it, and the first one above is not. *)
Lemma peek_access t marks i :
  0 <= i < 2 ^ k -> knows t = knows (consumer_thread s) ->
  (H + i < Ts -> exists marks' t', knows t' = knows t /\
     access marks (written s) t (ring_addr (mask_ (wq s)) (head_idx_ (wq s)) i) = Some (marks', t')) /\
  (H + i = Ts -> Ts < T -> access marks (written s) t (ring_addr (mask_ (wq s)) (head_idx_ (wq s)) i) = None).
Proof.
  intros Hi Hkn. destruct (inv_cap _ _ _ _ _ _ _ I) as [Hk Hc].
  rewrite (wi_head _ _ _ _ _ _ _ I), (inv_addr _ _ _ _ _ _ _ I H i Hi). unfold access. split.
  - intros Hlt. destruct (side_free (2 ^ k) ltac:(lia) _ _ _ _ _ _ _ _ _ Ts _ (H + i) (wi_ts I) Hts ltac:(lia))
      as (m & -> & Hm). cbn [mbind option_bind]. rewrite Hkn, (proj2 (Nat.ltb_ge _ _) Hm).
    eexists _, _. split; [|reflexivity]. done.
  - intros -> Hlt. pose proof (sd_ahead _ _ _ _ _ _ _ _ _ (wi_ts I)).
    destruct (sd_before _ _ _ _ _ _ _ _ _ (wi_ts I) _ _ Ts Hts) as (m & -> & Hm); cbn [fst snd] in *; try lia.
    cbn [mbind option_bind]. by rewrite Hkn, (proj2 (Nat.ltb_lt _ _) Hm).
Qed.

Lemma peek_accesses_spec n : forall t marks i,
  0 <= i -> i + Z.of_nat n <= 2 ^ k -> knows t = knows (consumer_thread s) -> H + i <= Ts ->
  H + i + Z.of_nat n <= T ->
  if H + i + Z.of_nat n <=? Ts then is_Some (peek_accesses n s t marks i)
  else peek_accesses n s t marks i = None.
Proof.
  induction n as [|n IH]; intros t marks i Hi Hn Hkn HiTs HiT; simpl peek_accesses.
  { destruct (Z.leb_spec (H + i + Z.of_nat 0) Ts); [by eexists | lia]. }
  destruct (peek_access t marks i ltac:(lia) Hkn) as [Hin Hout].
  destruct (decide (H + i = Ts)) as [He|Hne].
  - rewrite Hout by lia. destruct (Z.leb_spec (H + i + Z.of_nat (S n)) Ts); [lia | done].
  - destruct (Hin ltac:(lia)) as (marks' & t' & Hkn' & ->). cbn [mbind option_bind].
    specialize (IH t' marks' (i + 1)). replace (H + (i + 1) + Z.of_nat n) with (H + i + Z.of_nat (S n)) in IH by lia.
    apply IH; lia || congruence.
Qed.
End peek.

Lemma weak_peek_ok k buf T H hs ts s size j m :
  weak_inv k buf T H hs ts s -> wc s = CIdle -> may_read (tails s) (consumer_thread s) j ->
  tails s !! j = Some m -> 0 < size ->
  weak_peek s size j =
    if value m ⊖ head_idx_ (wq s) <? size then Some (kUnderflow, [])
    else if size <=? tail_cached_snapshot_ (wq s) ⊖ head_idx_ (wq s)
    then Some (kOk, take (Z.to_nat size) (spsc_contents (wq s))) else None.
Proof.
  intros I Hpc Hj Hm Hsize. destruct (inv_cap _ _ _ _ _ _ _ I) as [Hk Hc].
  destruct (inv_counters _ _ _ _ _ _ _ I) as (Hs & Ts & _ & Et & [_ Ho Hu _ Hcs] & Hpa & _).
  pose proof Hj as Hj'. rewrite (wi_tails _ _ _ _ _ _ _ I) in Hj'.
  destruct (side_load _ _ _ _ _ _ _ _ _ _ (wi_ts I) Hj') as (v & c & Hm' & Hv & _).
  assert (m = {| value := u64 v; clock := c |}) as ->.
  { rewrite (wi_tails _ _ _ _ _ _ _ I), Hm' in Hm. by injection Hm. }
  assert (u64 v ⊖ head_idx_ (wq s) = v - H) as Hd
    by (rewrite (wi_head _ _ _ _ _ _ _ I); apply u64_sub_counters; lia).
  unfold weak_peek. rewrite Hm. cbn [mbind option_bind value]. unfold peek_bytes.
  cbn [buffer_ see_tail tail_idx_ head_idx_ mask_]. rewrite (wf_buffer _ _ _ (wi_wf I)), Hd, Hcs.
  destruct (Z.eqb_spec size 0); [lia|]. destruct (Z.ltb_spec (v - H) size); [done|].
  rewrite (copy_out_front k buf _ (wi_wf I)) by lia. cbn [mbind option_bind].
  pose proof (peek_accesses_spec k buf T H hs ts s I Ts Et ltac:(lia) ltac:(lia) (Z.to_nat size)
    (consumer_thread s) (fetched s) 0 ltac:(lia) ltac:(lia) eq_refl ltac:(lia) ltac:(lia)) as Hacc.
  rewrite Z2Nat.id, Z.add_0_r in Hacc by lia.
  destruct (Z.leb_spec (H + size) Ts), (Z.leb_spec size (Ts - H)); try lia.
  - by destruct Hacc as [t ->].
  - by rewrite Hacc.
Qed.

(** ** Properties *)

Section properties.
Context (alloc : Z -> option bytes) (n : Z) (q : SpscQueue).
Context (Ha : alloc_sized alloc) (Hn : 0 <= n <= 2 ^ 63) (Hr : reserve alloc n = Some q) (Hb : buffer_ q <> None).

Lemma weak_reachable l s :
  weak_exec (weak_start q) l s ->
  weak_ok s /\ concat (event_in <$> l) = concat (event_out <$> l) ++ spsc_contents (wq s).
Proof.
  intros Hx. destruct (reserve_rested alloc n q Ha Hn Hr Hb) as [Hrest Hc].
  destruct (weak_exec_ok _ _ _ (weak_start_ok q Hrest) Hx) as [Hok Hst]. split; [done|].
  cbn in Hst. by rewrite Hc in Hst.
Qed.

(** C4. The memory orders of the queue suffice. Whatever old value of the other thread's index a load
    may give, [enqueue_bytes] and [dequeue_bytes] have no data race and no other undefined step; the
    bytes of the enqueues that succeeded are those of the dequeues that succeeded followed by the
    bytes waiting; and a step that loads the newest value decides as the abstract queue does. *)
Theorem spsc_release_acquire l s :
  weak_exec (weak_start q) l s ->
  concat (event_in <$> l) = concat (event_out <$> l) ++ spsc_contents (wq s) /\
  (forall j, wp s <> PIdle -> may_read (heads s) (producer_thread s) j ->
     exists e s', weak_producer s j = Some (e, s') /\
       (S j = length (heads s) -> event_spec (bq_abs (wq s)) e (bq_abs (wq s')))) /\
  (forall j, wc s <> CIdle -> may_read (tails s) (consumer_thread s) j ->
     exists e s', weak_consumer s j = Some (e, s') /\
       (S j = length (tails s) -> event_spec (bq_abs (wq s)) e (bq_abs (wq s')))).
Proof.
  intros Hx. destruct (weak_reachable l s Hx) as [(k & buf & T & H & hs & ts & I) Hst].
  assert (forall j order f e f', weak_event (is_newest j order) f e f' -> S j = length order -> event_spec f e f')
    as Hnew by (intros j order f e f' [He|[He _]] Hj; [done | by apply bool_decide_eq_false in He]).
  split; [exact Hst|]. split; intros j Hpc Hj.
  - destruct (weak_producer_ok k buf T H hs ts s j I Hpc Hj) as (e & s' & _ & _ & _ & Hs & _ & _ & He).
    exists e, s'. split; [done|]. by apply Hnew.
  - destruct (weak_consumer_ok k buf T H hs ts s j I Hpc Hj) as (e & s' & _ & _ & Hs & _ & _ & He).
    exists e, s'. split; [done|]. by apply Hnew.
Qed.

(** C20. [peek_bytes] acquires nothing: between its calls the consumer may peek at exactly the bytes
    below the tail that an earlier [dequeue_bytes] acquired. Any more of what the relaxed load shows
    it is a data race, so a consumer that has taken all it knew of, as the worker does, races with the
    first peek that finds a record. *)
Theorem spsc_peek_race l s size j m :
  weak_exec (weak_start q) l s -> wc s = CIdle -> may_read (tails s) (consumer_thread s) j ->
  tails s !! j = Some m -> 0 < size ->
  weak_peek s size j =
    if value m ⊖ head_idx_ (wq s) <? size then Some (kUnderflow, [])
    else if size <=? tail_cached_snapshot_ (wq s) ⊖ head_idx_ (wq s)
    then Some (kOk, take (Z.to_nat size) (spsc_contents (wq s))) else None.
Proof.
  intros Hx. destruct (weak_reachable l s Hx) as [(k & buf & T & H & hs & ts & I) _].
  by apply (weak_peek_ok k buf T H hs ts).
Qed.
End properties.

(** ** Examples *)

Definition small_queue : SpscQueue := default spsc_new (reserve zero_alloc 4).

(** One step of the producer, or of the consumer, that loads store number [j]. *)
Ltac producer_turn j :=
  eapply weak_cons; [eapply (weak_producer_step _ j); [split; vm_compute; lia | vm_compute; reflexivity]|].
Ltac consumer_turn j :=
  eapply weak_cons; [eapply (weak_consumer_step _ j); [split; vm_compute; lia | vm_compute; reflexivity]|].

(** A record is in the queue, and the consumer has not loaded the tail since. *)
Lemma one_record_in : exists l s,
  weak_exec (weak_start small_queue) l s /\ concat (event_in <$> l) = bs "ab" /\ wc s = CIdle /\
  may_read (tails s) (consumer_thread s) 1 /\ tails s !! 1%nat = Some {| value := 2; clock := 2 |} /\
  2 ⊖ head_idx_ (wq s) = 2 /\ tail_cached_snapshot_ (wq s) ⊖ head_idx_ (wq s) = 0.
Proof.
  eexists _, _. split.
  { eapply weak_cons; [by apply (weak_call_enqueue _ (bs "ab"))|].
    do 4 producer_turn 0%nat. apply weak_nil. }
  vm_compute. repeat split; lia.
Qed.

(** The consumer asks twice; the first load gives the old tail. *)
Lemma two_dequeues : exists l s,
  weak_exec (weak_start small_queue) l s /\ concat (event_in <$> l) = bs "ab" /\
  concat (event_out <$> l) = bs "a" /\ (Return (Fifo.Dequeue 1) kUnderflow []) ∈ l.
Proof.
  eexists _, _. split.
  { eapply weak_cons; [by apply (weak_call_enqueue _ (bs "ab"))|].
    do 4 producer_turn 0%nat.
    eapply weak_cons; [by apply (weak_call_dequeue _ 1)|]. do 2 consumer_turn 0%nat.
    eapply weak_cons; [by apply (weak_call_dequeue _ 1)|]. do 4 consumer_turn 1%nat.
    apply weak_nil. }
  split; [reflexivity|]. split; [reflexivity|]. vm_compute. repeat constructor.
Qed.

Lemma spsc_release_acquire_witness :
  exists l s, concat (event_out <$> l) = bs "a" /\ (Return (Fifo.Dequeue 1) kUnderflow []) ∈ l /\
    concat (event_in <$> l) = concat (event_out <$> l) ++ spsc_contents (wq s).
Proof.
  destruct two_dequeues as (l & s & Hx & _ & Ho & Hl). exists l, s. split; [exact Ho|]. split; [exact Hl|].
  apply (spsc_release_acquire zero_alloc 4 small_queue zero_alloc_sized ltac:(lia) ltac:(reflexivity)
    ltac:(discriminate) l s Hx).
Defined.

Lemma spsc_peek_race_witness : exists l s, concat (event_in <$> l) = bs "ab" /\ weak_peek s 2 1 = None.
Proof.
  destruct one_record_in as (l & s & Hx & Hin & Hidle & Hj & Hm & H2 & H0). exists l, s. split; [exact Hin|].
  rewrite (spsc_peek_race zero_alloc 4 small_queue zero_alloc_sized ltac:(lia) ltac:(reflexivity)
    ltac:(discriminate) l s 2 1 {| value := 2; clock := 2 |} Hx Hidle Hj Hm ltac:(lia)).
  cbn [value]. rewrite H2, H0. reflexivity.
Defined.
