(* ===== verification/StringUtil.v ===== *)
(** * String utilities

    src/src/core/base/string_util.cc and src/src/include/femtolog/core/base/string_util.h: case
    mapping, escaping, UTF-8 truncation, splitting, bracket removal and address formatting. A
    [char*] is the memory it points into, a null pointer is [None], and a write or read outside
    the object is undefined ([None] as the result). *)

From S2P Require Import Prelude.

(** ** Writing through a pointer into a resized string *)

(** [*write_ptr++ = c] into a string that was resized to its final size beforehand. *)
Record cursor := { wbuf : bytes; wpos : nat }.

Definition putc (c : Init.Byte.byte) (w : cursor) : option cursor :=
  if decide (wpos w < length (wbuf w))%nat
  then Some {| wbuf := <[wpos w := c]> (wbuf w); wpos := S (wpos w) |} else None.

(** [out->resize(write_ptr - begin)]. *)
Definition written (w : cursor) : bytes := take (wpos w) (wbuf w).

Definition resized (n : nat) : cursor := {| wbuf := replicate n Byte.x00; wpos := 0 |}.

(** ** Escaping *)

Definition c_nl := ch 10.
Definition c_cr := ch 13.
Definition c_tab := ch 9.
Definition c_backslash := ch 92.

(** The body of the [switch] of [encode_escape_impl]. *)
Definition encode_char (c : Init.Byte.byte) (w : cursor) : option cursor :=
  if decide (c = c_nl) then w1 ← putc c_backslash w; putc "n"%byte w1
  else if decide (c = c_cr) then w1 ← putc c_backslash w; putc "r"%byte w1
  else if decide (c = c_tab) then w1 ← putc c_backslash w; putc "t"%byte w1
  else if decide (c = c_backslash) then w1 ← putc c_backslash w; putc c_backslash w1
  else putc c w.

Fixpoint encode_loop (input : bytes) (w : cursor) : option cursor :=
  match input with
  | [] => Some w
  | c :: rest => w' ← encode_char c w; encode_loop rest w'
  end.

Definition encode_escape (input : bytes) : option bytes :=
  let max_size := u64 (lenZ input * 2) in
  written <$> encode_loop input (resized (Z.to_nat max_size)).

(** [encode_escape(const char* s, std::size_t len)]. *)
Definition encode_escape_ptr (s : bytes) (len : Z) : option bytes :=
  input ← mem_load s 0 len; encode_escape input.

(** The loop of [decode_escape_impl]; [input] is what is left from index [i] on. *)
Fixpoint decode_loop (input : bytes) (w : cursor) : option cursor :=
  match input with
  | [] => Some w
  | c :: rest =>
    if decide (c = c_backslash) then
      match rest with
      | n :: rest' =>
        if decide (n = "n"%byte) then w' ← putc c_nl w; decode_loop rest' w'
        else if decide (n = "r"%byte) then w' ← putc c_cr w; decode_loop rest' w'
        else if decide (n = "t"%byte) then w' ← putc c_tab w; decode_loop rest' w'
        else if decide (n = c_backslash) then w' ← putc c_backslash w; decode_loop rest' w'
        else w' ← putc c w; decode_loop rest w'
      | [] => putc c w
      end
    else w' ← putc c w; decode_loop rest w'
  end.

Definition decode_escape (input : bytes) : option bytes :=
  written <$> decode_loop input (resized (length input)).

(** [decode_escape(const char* s, std::size_t len)]. *)
Definition decode_escape_ptr (s : bytes) (len : Z) : option bytes :=
  input ← mem_load s 0 len; decode_escape input.

(** ** Case mapping *)

Definition to_lower_char (c : Init.Byte.byte) : Init.Byte.byte :=
  if (65 <=? char_signed c) && (char_signed c <=? 90) then ch (Z.lor (char_signed c) 32) else c.

Definition to_upper_char (c : Init.Byte.byte) : Init.Byte.byte :=
  if (97 <=? char_signed c) && (char_signed c <=? 122)
  then ch (Z.land (char_signed c) (Z.lnot 32)) else c.

(** [for (i = 0; i < len; i++) input[i] = f(input[i])]. *)
Fixpoint map_range (f : Init.Byte.byte -> Init.Byte.byte) (mem : bytes) (i len : nat) :
    option bytes :=
  match len with
  | O => Some mem
  | S len' => c ← mem !! i; map_range f (<[i := f c]> mem) (S i) len'
  end.

(** The same loop over the characters up to the terminating NUL; the fuel is the size of the
    object, which the pointer cannot leave. *)
Fixpoint map_cstr (f : Init.Byte.byte -> Init.Byte.byte) (mem : bytes) (i fuel : nat) :
    option bytes :=
  match fuel with
  | O => None
  | S fuel' =>
    c ← mem !! i;
    if decide (c = Byte.x00) then Some mem else map_cstr f (<[i := f c]> mem) (S i) fuel'
  end.

(** [result.resize(input.size())] and the copying loop over the indices. *)
Fixpoint map_into (f : Init.Byte.byte -> Init.Byte.byte) (input result : bytes) (i len : nat) :
    option bytes :=
  match len with
  | O => Some result
  | S len' =>
    c ← input !! i;
    if decide (i < length result)%nat then map_into f input (<[i := f c]> result) (S i) len'
    else None
  end.

Definition to_lower_buf (input : option bytes) (len : nat) : option (option bytes) :=
  match input with None => Some None | Some mem => Some <$> map_range to_lower_char mem 0 len end.

Definition to_lower_cstr (input : option bytes) : option (option bytes) :=
  match input with
  | None => Some None
  | Some mem => Some <$> map_cstr to_lower_char mem 0 (length mem)
  end.

Definition to_lower_string_ptr (input : option bytes) : option bytes :=
  (λ s : bytes, to_lower_char <$> s) <$> input.

Definition to_lower_string (input : bytes) : option bytes :=
  map_into to_lower_char input (replicate (length input) Byte.x00) 0 (length input).

Definition to_upper_buf (input : option bytes) (len : nat) : option (option bytes) :=
  match input with None => Some None | Some mem => Some <$> map_range to_upper_char mem 0 len end.

Definition to_upper_cstr (input : option bytes) : option (option bytes) :=
  match input with
  | None => Some None
  | Some mem => Some <$> map_cstr to_upper_char mem 0 (length mem)
  end.

Definition to_upper_string_ptr (input : option bytes) : option bytes :=
  (λ s : bytes, to_upper_char <$> s) <$> input.

Definition to_upper_string (input : bytes) : option bytes :=
  map_into to_upper_char input (replicate (length input) Byte.x00) 0 (length input).

(** ** UTF-8 *)

Definition utf8_char_length (lead : Init.Byte.byte) : nat :=
  let l := byte.unsigned lead in
  if l <? 128 then 1
  else if Z.land l 0xE0 =? 0xC0 then 2
  else if Z.land l 0xF0 =? 0xE0 then 3
  else if Z.land l 0xF8 =? 0xF0 then 4
  else 1%nat.

(** The loop of [utf8_truncate] from byte index [i] with [chars] characters counted; the fuel is
    the size of the string, as every iteration advances [i]. *)
Fixpoint utf8_loop (input : bytes) (max_chars i chars fuel : nat) : nat :=
  match fuel with
  | O => i
  | S fuel' =>
    match input !! i with
    | Some c =>
      if decide (chars < max_chars)%nat then
        let len := utf8_char_length c in
        if decide (length input < i + len)%nat then i
        else utf8_loop input max_chars (i + len) (S chars) fuel'
      else i
    | None => i
    end
  end.

Definition utf8_truncate (input : bytes) (max_chars : nat) : bytes :=
  if decide (max_chars = 0)%nat then []
  else if decide (input = []) then []
  else take (utf8_loop input max_chars 0 0 (length input)) input.

(** ** Splitting *)

Fixpoint is_prefix (d s : bytes) : bool :=
  match d, s with
  | [], _ => true
  | x :: d', y :: s' => bool_decide (x = y) && is_prefix d' s'
  | _ :: _, [] => false
  end.

(** [std::string::find] on what is left of the string: the distance to the first match. *)
Fixpoint find_from (d s : bytes) : option nat :=
  if is_prefix d s then Some 0%nat
  else match s with [] => None | _ :: s' => S <$> find_from d s' end.

Definition str_find (s d : bytes) (pos : nat) : option nat :=
  (λ n, pos + n)%nat <$> find_from d (drop pos s).

(** The loop of [split_string] from position [pos]; [result] is the queue so far. *)
Fixpoint split_loop (input delimiter : bytes) (pos : nat) (result : list bytes) (fuel : nat) :
    list bytes :=
  match fuel with
  | O => result
  | S fuel' =>
    if decide (pos < length input)%nat then
      match str_find input delimiter pos with
      | None => result ++ [drop pos input]
      | Some next_pos =>
        split_loop input delimiter (next_pos + length delimiter)
          (result ++ [take (next_pos - pos) (drop pos input)]) fuel'
      end
    else result
  end.

Definition split_string (input delimiter : bytes) : list bytes :=
  if decide (length delimiter = 0)%nat then (λ c, [c]) <$> input
  else split_loop input delimiter 0 [] (length input).

(** ** Bracket removal *)

(** [make_bracket_table]: 0 for a character that is not a bracket. *)
Definition bracket_map (c : Init.Byte.byte) : Z :=
  if decide (c = "("%byte) then 1 else if decide (c = ")"%byte) then -1
  else if decide (c = "{"%byte) then 2 else if decide (c = "}"%byte) then -2
  else if decide (c = "["%byte) then 3 else if decide (c = "]"%byte) then -3
  else if decide (c = "<"%byte) then 4 else if decide (c = ">"%byte) then -4
  else 0.

(** The loop of [remove_bracket]: the stack vector, the depth and the output pointer. *)
Fixpoint bracket_loop (input : bytes) (max_nest_size : nat) (stack : list Z) (depth : nat)
    (w : cursor) : option cursor :=
  match input with
  | [] => Some w
  | c :: rest =>
    let bracket_type := bracket_map c in
    if 0 <? bracket_type then
      if decide (depth < max_nest_size)%nat then
        if decide (depth < length stack)%nat
        then bracket_loop rest max_nest_size (<[depth := bracket_type]> stack) (S depth) w
        else None
      else bracket_loop rest max_nest_size stack (S depth) w
    else if bracket_type <? 0 then
      if decide (0 < depth)%nat then
        if decide (depth <= max_nest_size)%nat then
          top ← stack !! (depth - 1)%nat;
          bracket_loop rest max_nest_size stack
            (if top =? - bracket_type then (depth - 1)%nat else depth) w
        else bracket_loop rest max_nest_size stack (depth - 1) w
      else bracket_loop rest max_nest_size stack depth w
    else if decide (depth = 0)%nat then
      w' ← putc c w; bracket_loop rest max_nest_size stack depth w'
    else bracket_loop rest max_nest_size stack depth w
  end.

Definition remove_bracket (input : bytes) (max_nest_size : nat) : option bytes :=
  if decide (input = []) then Some []
  else
    let stack := replicate (Nat.min (length input / 2) max_nest_size) 0 in
    written <$> bracket_loop input max_nest_size stack 0 (resized (length input)).

(** ** Pointers and buffers *)

(** [None] of the result: the memory holds no NUL. *)
Definition safe_strlen (str : option bytes) : option nat :=
  match str with None => Some 0%nat | Some mem => c_strlen mem end.

(** A hexadecimal digit as [std::to_chars] writes it. *)
Definition hex_digit (d : Z) : Init.Byte.byte := if d <? 10 then ch (48 + d) else ch (87 + d).

Fixpoint hex_digits (v : Z) (fuel : nat) : bytes :=
  match fuel with
  | O => []
  | S fuel' => (if v <? 16 then [] else hex_digits (v / 16) fuel') ++ [hex_digit (v mod 16)]
  end.

(** [std::to_chars(first, last, value, 16)]: the digits without leading zeros, 16 at most, and
    the position after them, or [None] when they do not fit. *)
Definition to_chars_hex (mem : bytes) (first last : nat) (v : Z) : option (bytes * nat) :=
  let digits := hex_digits v 16 in
  if decide (length digits <= last - first)%nat
  then mem' ← mem_store mem (Z.of_nat first) digits; Some (mem', first + length digits)%nat
  else None.

(** [format_address_safe]; [buffer] is the memory at the pointer. *)
Definition format_address_safe (addr : Z) (buffer : option bytes) (buffer_size : Z) :
    option (option bytes) :=
  match buffer with
  | None => Some None
  | Some mem =>
    if buffer_size <? 8 * 2 + 3 then
      if 0 <? buffer_size then Some <$> mem_store mem 0 [Byte.x00] else Some (Some mem)
    else
      mem1 ← mem_store mem 0 [ "0"%byte ];
      mem2 ← mem_store mem1 1 [ "x"%byte ];
      match to_chars_hex mem2 2 (Z.to_nat buffer_size) addr with
      | Some (mem3, ptr) => Some <$> mem_store mem3 (Z.of_nat ptr) [Byte.x00]
      | None => Some <$> mem_store mem2 0 [Byte.x00]
      end
  end.

(** [padding]: [mem] is the buffer that ends at [end], [cur] the cursor's offset in it. *)
Definition padding (mem : bytes) (cur : Z) (end_ : Z) (current_len align_len : Z) :
    option (bytes * Z) :=
  let pad_len := if current_len <? align_len then align_len ⊖ current_len else 0 in
  let to_pad := Z.min pad_len (u64 (end_ - cur)) in
  mem' ← mem_store mem cur (replicate (Z.to_nat to_pad) " "%byte);
  Some (mem', cur + to_pad).

(** [write_raw] copies [len] bytes and does not move the cursor. *)
Definition write_raw (mem : bytes) (dest : Z) (source : bytes) (len : Z) : option (bytes * Z) :=
  if len =? 0 then Some (mem, 0)
  else src ← mem_load source 0 len; mem' ← mem_store mem dest src; Some (mem', len).

(** [write_format]: [text] is the whole output of the formatting; at most [remaining - 1] bytes
    of it are written, then a NUL. The result is the number of bytes written. *)
Definition write_format (mem : bytes) (cur end_ : Z) (text : bytes) : option (bytes * Z * Z) :=
  let remaining := end_ - cur in
  if remaining <=? 0 then Some (mem, cur, 0)
  else
    let out := take (Z.to_nat (remaining - 1)) text in
    mem1 ← mem_store mem cur out;
    let written := lenZ out in
    mem2 ← mem_store mem1 (cur + written) [Byte.x00];
    Some (mem2, cur + written, written).

Definition write_bytes (mem : bytes) (cur : Z) (data : bytes) : option (bytes * Z) :=
  mem' ← mem_store mem cur data; Some (mem', cur + lenZ data).

Definition read_bytes (mem : bytes) (cur size : Z) : option (bytes * Z) :=
  data ← mem_load mem cur size; Some (data, cur + size).

(** [starts_with]: [None] is the [std::out_of_range] that [compare] throws for an index past the
    end; [compare] sees at most the bytes there are. *)
Definition starts_with (input prefix : bytes) (index : nat) : option bool :=
  if decide (length prefix <= length input)%nat then
    if decide (index <= length input)%nat
    then Some (bool_decide (take (length prefix) (drop index input) = prefix))
    else None
  else Some false.

(** ** Reference definitions *)

(** The escape of one character, and the two directions on lists. *)
Definition esc (c : Init.Byte.byte) : bytes :=
  if decide (c = c_nl) then [c_backslash; "n"%byte]
  else if decide (c = c_cr) then [c_backslash; "r"%byte]
  else if decide (c = c_tab) then [c_backslash; "t"%byte]
  else if decide (c = c_backslash) then [c_backslash; c_backslash]
  else [c].

Definition escape (s : bytes) : bytes := flat_map esc s.

Fixpoint unescape (s : bytes) : bytes :=
  match s with
  | [] => []
  | c :: rest =>
    if decide (c = c_backslash) then
      match rest with
      | n :: rest' =>
        if decide (n = "n"%byte) then c_nl :: unescape rest'
        else if decide (n = "r"%byte) then c_cr :: unescape rest'
        else if decide (n = "t"%byte) then c_tab :: unescape rest'
        else if decide (n = c_backslash) then c_backslash :: unescape rest'
        else c :: unescape rest
      | [] => [c]
      end
    else c :: unescape rest
  end.

(** The tokens put together again. *)
Fixpoint join (d : bytes) (tokens : list bytes) : bytes :=
  match tokens with [] => [] | [t] => t | t :: rest => t ++ d ++ join d rest end.

(** [i] is a character boundary after [j] characters. *)
Inductive utf8_boundary (s : bytes) : nat -> nat -> Prop :=
  | utf8_start : utf8_boundary s 0 0
  | utf8_next j i c :
      utf8_boundary s j i -> s !! i = Some c -> (i + utf8_char_length c <= length s)%nat ->
      utf8_boundary s (S j) (i + utf8_char_length c).

Definition is_open (c : Init.Byte.byte) : bool := 0 <? bracket_map c.
Definition is_bracket (c : Init.Byte.byte) : bool := negb (bracket_map c =? 0).

(** The value of a run of hexadecimal digits. *)
Definition hex_value (c : Init.Byte.byte) : Z :=
  let v := byte.unsigned c in if v <? 58 then v - 48 else v - 87.
Definition parse_hex (s : bytes) : Z := fold_left (λ a c, 16 * a + hex_value c) s 0.

(** ** The cursor *)

Record at_cursor (n : nat) (out : bytes) (w : cursor) : Prop := {
  at_size : length (wbuf w) = n;
  at_pos : wpos w = length out;
  at_written : written w = out;
}.

Lemma resized_at n : at_cursor n [] (resized n).
Proof. split; simpl; [apply length_replicate | done | done]. Qed.

Lemma putc_ok n out w c :
  at_cursor n out w -> (length out < n)%nat ->
  exists w', putc c w = Some w' /\ at_cursor n (out ++ [c]) w'.
Proof.
  intros [Hs Hp Hw] Hlt. unfold putc. rewrite decide_True by lia. eexists. split; [done|].
  split; simpl.
  - by rewrite length_insert.
  - rewrite length_app, Hp. simpl. lia.
  - unfold written in *. simpl. rewrite <- Hw, Hp.
    rewrite (take_S_r _ _ c) by (apply list_lookup_insert_eq; lia).
    by rewrite take_insert_ge by lia.
Qed.

(** Writes one character with [putc] and names the new cursor. *)
Ltac put :=
  match goal with
  | A : at_cursor ?n ?out ?w |- context [putc ?c ?w] =>
    let w' := fresh "w" in let E := fresh "E" in let A' := fresh "A" in
    destruct (putc_ok n out w c A) as (w' & E & A');
    [rewrite ?length_app in *; simpl in *; lia | rewrite E; simpl; clear E]
  end.

Lemma encode_char_ok n out w c :
  at_cursor n out w -> (length out + length (esc c) <= n)%nat ->
  exists w', encode_char c w = Some w' /\ at_cursor n (out ++ esc c) w'.
Proof.
  intros A Hl. unfold encode_char, esc in *.
  repeat case_decide; simpl in *; put; try put; eexists; (split; [done|]);
    rewrite <- ?app_assoc in *; done.
Qed.

Lemma encode_loop_ok n input : forall out w,
  at_cursor n out w -> (length out + length (escape input) <= n)%nat ->
  exists w', encode_loop input w = Some w' /\ at_cursor n (out ++ escape input) w'.
Proof.
  unfold escape. induction input as [|c input IH]; intros out w A Hl; simpl in *.
  { rewrite app_nil_r. eauto. }
  rewrite length_app in Hl.
  destruct (encode_char_ok n out w c A ltac:(lia)) as (w1 & -> & A1). simpl.
  destruct (IH (out ++ esc c) w1 A1) as (w2 & -> & A2); [rewrite length_app; lia|].
  exists w2. by rewrite app_assoc.
Qed.

Lemma esc_length c : (1 <= length (esc c) <= 2)%nat.
Proof. unfold esc. repeat case_decide; simpl; lia. Qed.

Lemma escape_length s : lenZ s <= lenZ (escape s) <= lenZ s * 2.
Proof.
  unfold lenZ, escape. induction s as [|c s IH]; simpl; [lia|].
  rewrite length_app. pose proof (esc_length c). lia.
Qed.

Lemma encode_escape_spec s : lenZ s < 2 ^ 63 -> encode_escape s = Some (escape s).
Proof.
  intros Hs. pose proof (lenZ_nonneg s). pose proof (escape_length s) as Hl.
  unfold encode_escape. rewrite u64_small by lia.
  destruct (encode_loop_ok (Z.to_nat (lenZ s * 2)) s [] _ (resized_at _)) as (w & -> & A).
  - unfold lenZ in *. simpl. lia.
  - simpl. f_equal. by destruct A.
Qed.

(** One turn of each loop, with the recursive calls left folded. *)
Lemma decode_loop_cons2 c m rest w :
  decode_loop (c :: m :: rest) w =
    if decide (c = c_backslash) then
      if decide (m = "n"%byte) then w' ← putc c_nl w; decode_loop rest w'
      else if decide (m = "r"%byte) then w' ← putc c_cr w; decode_loop rest w'
      else if decide (m = "t"%byte) then w' ← putc c_tab w; decode_loop rest w'
      else if decide (m = c_backslash) then w' ← putc c_backslash w; decode_loop rest w'
      else w' ← putc c w; decode_loop (m :: rest) w'
    else w' ← putc c w; decode_loop (m :: rest) w'.
Proof. done. Qed.

Lemma unescape_cons2 c m rest :
  unescape (c :: m :: rest) =
    if decide (c = c_backslash) then
      if decide (m = "n"%byte) then c_nl :: unescape rest
      else if decide (m = "r"%byte) then c_cr :: unescape rest
      else if decide (m = "t"%byte) then c_tab :: unescape rest
      else if decide (m = c_backslash) then c_backslash :: unescape rest
      else c :: unescape (m :: rest)
    else c :: unescape (m :: rest).
Proof. done. Qed.

(** A [putc] followed by the loop on a shorter input. *)
Lemma putc_decode n k c rest out w :
  (forall input out w, (length input <= k)%nat -> at_cursor n out w ->
     (length out + length input <= n)%nat ->
     exists w', decode_loop input w = Some w' /\ at_cursor n (out ++ unescape input) w' /\
       (length (unescape input) <= length input)%nat) ->
  at_cursor n out w -> (length rest <= k)%nat -> (S (length out + length rest) <= n)%nat ->
  exists w', (w1 ← putc c w; decode_loop rest w1) = Some w' /\
    at_cursor n (out ++ c :: unescape rest) w' /\ (length (unescape rest) <= length rest)%nat.
Proof.
  intros IH A Hk Hl. destruct (putc_ok n out w c A ltac:(lia)) as (w1 & -> & A1). simpl.
  destruct (IH rest _ w1 Hk A1) as (w2 & -> & A2 & Hu); [rewrite length_app; simpl; lia|].
  exists w2. rewrite <- app_assoc in A2. done.
Qed.

Lemma decode_loop_ok n k : forall input out w, (length input <= k)%nat ->
  at_cursor n out w -> (length out + length input <= n)%nat ->
  exists w', decode_loop input w = Some w' /\ at_cursor n (out ++ unescape input) w' /\
    (length (unescape input) <= length input)%nat.
Proof.
  induction k as [|k IH]; intros [|c [|m rest]] out w Hk A Hl; try (simpl in Hk; lia).
  1,2: exists w; rewrite app_nil_r; done.
  - simpl in *. destruct (putc_ok n out w c A ltac:(lia)) as (w1 & -> & A1). simpl.
    exists w1. case_decide; done.
  - rewrite decode_loop_cons2, unescape_cons2. simpl in Hk, Hl.
    repeat case_decide;
      match goal with |- context [putc ?x w] =>
        edestruct (putc_decode n k x) as (w' & -> & A' & Hu);
          [exact IH | exact A | | | exists w'; split; [done|split; [exact A'|]]];
          simpl in *; lia
      end.
Qed.

Lemma decode_escape_spec s :
  decode_escape s = Some (unescape s) /\ (length (unescape s) <= length s)%nat.
Proof.
  unfold decode_escape.
  destruct (decode_loop_ok (length s) (length s) s [] _ ltac:(lia) (resized_at _)) as (w & -> & A & Hl);
    [simpl; lia|]. simpl. split; [|done]. f_equal. by destruct A.
Qed.

(** What [decode_escape] makes of the escape of one character. *)
Lemma unescape_esc c s : unescape (esc c ++ s) = c :: unescape s.
Proof.
  unfold esc. repeat case_decide; subst; try done.
  simpl app. destruct s; simpl; by rewrite decide_False by done.
Qed.

Lemma unescape_escape s : unescape (escape s) = s.
Proof.
  unfold escape. induction s as [|c s IH]; [done|]. simpl. by rewrite unescape_esc, IH.
Qed.

Lemma escape_no_control s :
  Forall (λ c, c <> c_nl /\ c <> c_cr /\ c <> c_tab) (escape s).
Proof.
  unfold escape. induction s as [|c s IH]; simpl; [constructor|]. apply Forall_app. split; [|done].
  unfold esc. repeat case_decide; repeat constructor; done.
Qed.

(** C16. Escaping is lossless and keeps a text on one line: [encode_escape] stays inside the string
    it resized, [decode_escape] gives the input back, the result is between one and two times as
    long as the input, and it holds no newline, carriage return or tab; other control characters
    pass through. *)
Theorem escape_roundtrip s :
  lenZ s < 2 ^ 63 ->
  exists e, encode_escape s = Some e /\ decode_escape e = Some s /\
    lenZ s <= lenZ e <= lenZ s * 2 /\
    Forall (λ c, c <> c_nl /\ c <> c_cr /\ c <> c_tab) e.
Proof.
  intros Hs. exists (escape s).
  pose proof (decode_escape_spec (escape s)) as [Hd _]. rewrite unescape_escape in Hd.
  eauto using encode_escape_spec, escape_length, escape_no_control.
Qed.

Lemma escape_roundtrip_witness :
  encode_escape [c_backslash; c_nl; "a"%byte] = Some (bs "\\\na") /\
  exists e, encode_escape [c_backslash; c_nl; "a"%byte] = Some e /\
    decode_escape e = Some [c_backslash; c_nl; "a"%byte].
Proof.
  split; [vm_compute; reflexivity|].
  destruct (escape_roundtrip [c_backslash; c_nl; "a"%byte]) as (e & H1 & H2 & _);
    [vm_compute; reflexivity|]. exists e. split; assumption.
Defined.

(** [decode_escape] is defined on every input, well-formed or not: its output never
    outgrows the input it was sized for, and escaping what it decoded and decoding again changes
    nothing. *)
Theorem decode_escape_total s :
  exists d, decode_escape s = Some d /\ (length d <= length s)%nat /\
    (lenZ d < 2 ^ 63 -> (e ← encode_escape d; decode_escape e) = Some d).
Proof.
  destruct (decode_escape_spec s) as [Hd Hl]. exists (unescape s). split_and!; [done..|].
  intros Hlen. rewrite encode_escape_spec by done. simpl.
  destruct (decode_escape_spec (escape (unescape s))) as [-> _]. by rewrite unescape_escape.
Qed.

(** ** Case mapping *)

(** The loops over the indices write exactly the mapped characters. *)
Lemma map_range_spec f len : forall mem i, (i + len <= length mem)%nat ->
  map_range f mem i len =
    Some (take i mem ++ (f <$> take len (drop i mem)) ++ drop (i + len) mem).
Proof.
  induction len as [|len IH]; intros mem i Hl; simpl.
  { by rewrite Nat.add_0_r, take_drop. }
  destruct (lookup_lt_is_Some_2 mem i ltac:(lia)) as [c Hc]. rewrite Hc. simpl.
  rewrite IH by (rewrite length_insert; lia). f_equal.
  rewrite (take_S_r _ _ (f c)) by (apply list_lookup_insert_eq; lia).
  rewrite take_insert_ge by lia. rewrite !drop_insert_lt by lia.
  rewrite (drop_S mem c i Hc). simpl. rewrite <- app_assoc.
  by replace (i + S len)%nat with (S i + len)%nat by lia.
Qed.

Lemma map_into_spec f input len : forall result i,
  length result = length input -> (i + len <= length input)%nat ->
  map_into f input result i len =
    Some (take i result ++ (f <$> take len (drop i input)) ++ drop (i + len) result).
Proof.
  induction len as [|len IH]; intros result i Hr Hl; simpl.
  { by rewrite Nat.add_0_r, take_drop. }
  destruct (lookup_lt_is_Some_2 input i ltac:(lia)) as [c Hc]. rewrite Hc. simpl.
  rewrite decide_True by lia.
  rewrite IH by (rewrite ?length_insert; lia). f_equal.
  rewrite (take_S_r _ _ (f c)) by (apply list_lookup_insert_eq; lia).
  rewrite take_insert_ge by lia. rewrite !drop_insert_lt by lia.
  rewrite (drop_S input c i Hc). simpl. rewrite <- app_assoc.
  by replace (i + S len)%nat with (S i + len)%nat by lia.
Qed.

Lemma map_range_all f mem : map_range f mem 0 (length mem) = Some (f <$> mem).
Proof. rewrite map_range_spec by lia. simpl. by rewrite drop_all, firstn_all, app_nil_r. Qed.

Lemma map_into_all f input :
  map_into f input (replicate (length input) Byte.x00) 0 (length input) = Some (f <$> input).
Proof.
  rewrite map_into_spec by (rewrite ?length_replicate; lia). simpl.
  rewrite (drop_ge (replicate _ _)) by (rewrite length_replicate; lia).
  by rewrite drop_0, firstn_all, app_nil_r.
Qed.

(** Up to the terminator, and the bytes after it are left alone. *)
Lemma map_cstr_spec f s rest : f Byte.x00 = Byte.x00 -> Byte.x00 ∉ s ->
  forall done fuel, (length s < fuel)%nat ->
  map_cstr f (done ++ s ++ Byte.x00 :: rest) (length done) fuel =
    Some (done ++ (f <$> s) ++ Byte.x00 :: rest).
Proof.
  intros Hf. induction s as [|c s IH]; intros Hs done fuel Hl;
    (destruct fuel as [|fuel]; [simpl in Hl; lia|]); simpl.
  - by rewrite list_lookup_middle by done.
  - rewrite not_elem_of_cons in Hs. destruct Hs as [Hc Hs].
    rewrite list_lookup_middle by done. simpl. rewrite decide_False by congruence.
    rewrite insert_app_r_alt by lia. rewrite Nat.sub_diag. simpl.
    specialize (IH Hs (done ++ [f c]) fuel).
    rewrite length_app, <- !app_assoc in IH. simpl in *.
    rewrite Nat.add_1_r in IH. apply IH. lia.
Qed.

Lemma to_lower_char_zero : to_lower_char Byte.x00 = Byte.x00.
Proof. reflexivity. Qed.

Lemma to_upper_char_zero : to_upper_char Byte.x00 = Byte.x00.
Proof. reflexivity. Qed.

Lemma to_lower_char_idem c : to_lower_char (to_lower_char c) = to_lower_char c.
Proof.
  by_all_bytes c (λ c, bool_decide (to_lower_char (to_lower_char c) = to_lower_char c)).
  by rewrite bool_decide_eq_true.
Qed.

Lemma to_upper_lower_char c : to_upper_char (to_lower_char c) = to_upper_char c.
Proof.
  by_all_bytes c (λ c, bool_decide (to_upper_char (to_lower_char c) = to_upper_char c)).
  by rewrite bool_decide_eq_true.
Qed.

Lemma to_lower_upper_char c : to_lower_char (to_upper_char c) = to_lower_char c.
Proof.
  by_all_bytes c (λ c, bool_decide (to_lower_char (to_upper_char c) = to_lower_char c)).
  by rewrite bool_decide_eq_true.
Qed.

(** The four overloads of [to_lower] compute the same mapping: in place over a sized buffer,
    up to the NUL of a C string (bytes after it untouched), in place on a string, and into a new
    string; the mapping is idempotent, and upper-casing or lower-casing in between loses
    nothing. The same holds of [to_upper] by the symmetric equations. *)
Theorem case_overloads_agree s rest :
  Byte.x00 ∉ s ->
  to_lower_string s = Some (to_lower_char <$> s) /\
  to_lower_buf (Some s) (length s) = Some (to_lower_string s) /\
  to_lower_string_ptr (Some s) = to_lower_string s /\
  to_lower_cstr (Some (s ++ Byte.x00 :: rest)) =
    Some ((λ l, l ++ Byte.x00 :: rest) <$> to_lower_string s) /\
  to_upper_string s = Some (to_upper_char <$> s) /\
  to_upper_buf (Some s) (length s) = Some (to_upper_string s) /\
  to_upper_string_ptr (Some s) = to_upper_string s /\
  to_upper_cstr (Some (s ++ Byte.x00 :: rest)) =
    Some ((λ l, l ++ Byte.x00 :: rest) <$> to_upper_string s) /\
  (to_lower_string s ≫= to_lower_string) = to_lower_string s /\
  (to_lower_string s ≫= to_upper_string) = to_upper_string s /\
  (to_upper_string s ≫= to_lower_string) = to_lower_string s.
Proof.
  intros Hs. unfold to_lower_buf, to_upper_buf, to_lower_cstr, to_upper_cstr,
    to_lower_string, to_upper_string, to_lower_string_ptr, to_upper_string_ptr.
  rewrite !map_range_all, !map_into_all. csimpl. rewrite !map_into_all.
  rewrite (map_cstr_spec to_lower_char s rest to_lower_char_zero Hs [])
    by (rewrite length_app; simpl; lia).
  rewrite (map_cstr_spec to_upper_char s rest to_upper_char_zero Hs [])
    by (rewrite length_app; simpl; lia).
  split_and!; try done; f_equal; rewrite <- list_fmap_compose; apply list_fmap_ext; intros ? c _;
    unfold compose; auto using to_lower_char_idem, to_upper_lower_char, to_lower_upper_char.
Qed.

Lemma case_overloads_agree_witness :
  to_lower_string (bs "Warn") = Some (bs "warn") /\
  to_lower_cstr (Some (bs "Warn" ++ [Byte.x00])) =
    Some ((λ l, l ++ [Byte.x00]) <$> to_lower_string (bs "Warn")).
Proof.
  split; [vm_compute; reflexivity|].
  apply (case_overloads_agree (bs "Warn") []). vm_compute. intros H. repeat (apply elem_of_cons in H as [H|H]; [discriminate H|]). inversion H.
Defined.

(** ** UTF-8 truncation *)

Lemma utf8_char_length_range c : (1 <= utf8_char_length c <= 4)%nat.
Proof. unfold utf8_char_length. repeat case_match; lia. Qed.

Lemma utf8_loop_spec s max : forall fuel i j,
  utf8_boundary s j i -> (j <= max)%nat -> (length s <= i + fuel)%nat ->
  exists j' i', utf8_loop s max i j fuel = i' /\ utf8_boundary s j' i' /\ (j' <= max)%nat /\
    (j' = max \/ (length s <= i')%nat \/
     exists c, s !! i' = Some c /\ (length s < i' + utf8_char_length c)%nat).
Proof.
  induction fuel as [|fuel IH]; intros i j Hb Hj Hf; simpl; [eauto 10 with lia|].
  destruct (s !! i) as [c|] eqn:Hc.
  - case_decide; [|exists j, i; eauto with lia]. case_decide.
    + exists j, i. eauto 8.
    + pose proof (utf8_char_length_range c). apply IH; [econstructor; [done..|lia]|lia|lia].
  - apply lookup_ge_None in Hc. eauto 8.
Qed.

Lemma utf8_boundary_le s j i : utf8_boundary s j i -> (j <= i <= length s)%nat.
Proof. induction 1; [lia|]. pose proof (utf8_char_length_range c). lia. Qed.

(** [utf8_truncate] never splits a character: the result is the prefix of the input that ends
    at the character boundary after [j <= max_chars] characters, and it stops earlier only at the
    end of the input or before a character whose bytes are cut off there. *)
Theorem utf8_truncate_boundary s max_chars :
  exists j i, utf8_truncate s max_chars = take i s /\ utf8_boundary s j i /\
    (j <= max_chars)%nat /\ (j <= i <= length s)%nat /\
    (j = max_chars \/ i = length s \/
     exists c, s !! i = Some c /\ (length s < i + utf8_char_length c)%nat).
Proof.
  unfold utf8_truncate. case_decide as Hm; [|case_decide as Hs].
  - exists 0%nat, 0%nat. subst. eauto using utf8_start with lia.
  - exists 0%nat, 0%nat. subst. split_and!; eauto using utf8_start; simpl; lia.
  - destruct (utf8_loop_spec s max_chars (length s) 0 0 (utf8_start s)) as (j & i & <- & Hb & Hj & Hc);
      [lia..|]. pose proof (utf8_boundary_le _ _ _ Hb). exists j, (utf8_loop s max_chars 0 0 (length s)).
    split_and!; [done..|lia|lia|]. naive_solver lia.
Qed.

(** ** Splitting *)

Lemma is_prefix_spec d s : is_prefix d s = true <-> exists r, s = d ++ r.
Proof.
  revert s. induction d as [|x d IH]; intros s; simpl; [naive_solver|].
  destruct s as [|y s]; [naive_solver|]. rewrite andb_true_iff, bool_decide_eq_true, IH.
  naive_solver.
Qed.

(** [find] stops at the first match. *)
Lemma find_from_Some d s n :
  find_from d s = Some n ->
  exists r, s = take n s ++ d ++ r /\ (n <= length s)%nat /\ (d <> [] -> find_from d (take n s) = None).
Proof.
  revert n. induction s as [|c s IH]; intros n; simpl.
  - case_match eqn:Hp; [|done]. intros [= <-]. apply is_prefix_spec in Hp as [r Hr].
    exists r. split_and!; [done|lia|]. intros Hd. by destruct d.
  - case_match eqn:Hp.
    + intros [= <-]. apply is_prefix_spec in Hp as [r Hr]. exists r. split_and!; [done|lia|].
      intros Hd. by destruct d.
    + destruct (find_from d s) as [m|] eqn:Hm; [|done]. intros [= <-]. simpl.
      destruct (IH m eq_refl) as (r & Hr & Hl & Hn). exists r. split_and!; [by f_equal|lia|].
      intros Hd. rewrite (Hn Hd). case_match eqn:Hp'; [|done].
      apply is_prefix_spec in Hp' as [r' Hr']. exfalso.
      assert (is_prefix d (c :: s) = true) as Ht; [|congruence].
      apply is_prefix_spec. exists (r' ++ d ++ r). rewrite Hr.
      change (c :: take m s ++ d ++ r) with ((c :: take m s) ++ d ++ r). rewrite Hr'.
      by rewrite <- app_assoc.
Qed.

(** What the loop still has to produce from position [pos]. *)
Lemma split_loop_spec s d fuel : forall pos result,
  d <> [] -> (length s <= pos + fuel)%nat ->
  exists tokens trailing, split_loop s d pos result fuel = result ++ tokens /\
    join d tokens ++ trailing = drop pos s /\ (trailing = [] \/ trailing = d) /\
    Forall (λ t, find_from d t = None) tokens /\ (tokens = [] -> drop pos s = []).
Proof.
  induction fuel as [|fuel IH]; intros pos result Hd Hf; simpl.
  { exists [], []. rewrite app_nil_r, drop_ge by lia. split_and!; auto using Forall_nil_2. }
  case_decide as Hp.
  2:{ exists [], []. rewrite app_nil_r, drop_ge by lia. split_and!; auto using Forall_nil_2. }
  unfold str_find. destruct (find_from d (drop pos s)) as [n|] eqn:Hn; simpl.
  2:{ exists [drop pos s], []. simpl. rewrite app_nil_r. split_and!; auto; done. }
  replace (pos + n - pos)%nat with n by lia.
  assert (0 < length d)%nat by (destruct d; simpl; [done|lia]).
  destruct (find_from_Some _ _ _ Hn) as (r & Hr & Hl & Hfirst).
  destruct (IH (pos + n + length d)%nat (result ++ [take n (drop pos s)]) Hd ltac:(lia))
    as (tokens & trailing & -> & Hj & Ht & Hall & Hnil).
  assert (drop (pos + n + length d) s = r) as Hdrop.
  { rewrite <- Nat.add_assoc, <- drop_drop.
    transitivity (drop (n + length d) ((take n (drop pos s) ++ d) ++ r)).
    - f_equal. by rewrite <- app_assoc.
    - apply drop_app_length'. rewrite length_app, length_take. lia. }
  rewrite Hdrop in *. destruct tokens as [|t tokens].
  - exists [take n (drop pos s)], d. rewrite Hnil in Hr by done. rewrite app_nil_r in Hr.
    split_and!; [by rewrite <- app_assoc | by simpl; rewrite <- Hr | by right | | done].
    constructor; eauto.
  - exists (take n (drop pos s) :: t :: tokens), trailing. split_and!; try done.
    + by rewrite <- app_assoc.
    + change (join d (take n (drop pos s) :: t :: tokens))
        with (take n (drop pos s) ++ d ++ join d (t :: tokens)).
      rewrite <- !app_assoc, Hj. by symmetry.
    + constructor; eauto.
Qed.

(** [split_string] cuts at every delimiter and nowhere else: no token contains the delimiter,
    joining the tokens with it gives the input back up to one trailing delimiter (a trailing empty
    token is not produced), and an empty delimiter splits into single characters. *)
Theorem split_string_join s d :
  (d = [] -> split_string s d = (λ c, [c]) <$> s) /\
  (d <> [] -> exists trailing, join d (split_string s d) ++ trailing = s /\
     (trailing = [] \/ trailing = d) /\
     Forall (λ t, find_from d t = None) (split_string s d)) /\
  (s <> [] -> split_string s d <> []).
Proof.
  unfold split_string. destruct d as [|c d]; simpl.
  - split_and!; [done..|]. by destruct s.
  - destruct (split_loop_spec s (c :: d) (length s) 0 [] ltac:(done) ltac:(lia))
      as (tokens & trailing & -> & Hj & Ht & Hall & Hnil).
    split_and!; [done| |naive_solver]. intros _. exists trailing. eauto.
Qed.

Lemma split_string_join_witness :
  split_string (bs "a, b, ") (bs ", ") = [bs "a"; bs "b"] /\
  exists trailing, join (bs ", ") (split_string (bs "a, b, ") (bs ", ")) ++ trailing = bs "a, b, ".
Proof.
  split; [vm_compute; reflexivity|].
  destruct (split_string_join (bs "a, b, ") (bs ", ")) as (_ & H & _).
  destruct H as (t & Ht & _); [discriminate|]. exists t. exact Ht.
Defined.

(** ** Bracket removal *)

(** Text whose brackets match, with what is outside of them. *)
Inductive balanced : bytes -> bytes -> Prop :=
  | balanced_nil : balanced [] []
  | balanced_plain c s out :
      bracket_map c = 0 -> balanced s out -> balanced (c :: s) (c :: out)
  | balanced_group o s inner c s' out :
      0 < bracket_map o -> bracket_map c = - bracket_map o ->
      balanced s inner -> balanced s' out -> balanced (o :: s ++ c :: s') out.

(** The number of opening brackets, which bounds the depth. *)
Definition opens (s : bytes) : nat := length (filter (λ c, (0 < bracket_map c)%Z) s).

Lemma opens_cons c s : opens (c :: s) = ((if decide (0 < bracket_map c)%Z then 1 else 0) + opens s)%nat.
Proof. unfold opens. rewrite filter_cons. case_decide; simpl; lia. Qed.

Lemma opens_app s s' : opens (s ++ s') = (opens s + opens s')%nat.
Proof. unfold opens. by rewrite filter_app, length_app. Qed.

Lemma balanced_opens s out : balanced s out ->
  (2 * opens s <= length s)%nat /\ (length out <= length s)%nat.
Proof.
  induction 1; simpl; [lia| |];
    rewrite ?opens_cons, ?opens_app, ?opens_cons, ?length_app; simpl;
    repeat case_decide; lia.
Qed.

(** One turn of the loop at an opening and at a closing bracket. *)
Lemma bracket_loop_open c rest max stack d w :
  0 < bracket_map c ->
  bracket_loop (c :: rest) max stack d w =
    if decide (d < max)%nat then
      if decide (d < length stack)%nat
      then bracket_loop rest max (<[d := bracket_map c]> stack) (S d) w else None
    else bracket_loop rest max stack (S d) w.
Proof. intros H. simpl. by rewrite (proj2 (Z.ltb_lt _ _) H). Qed.

Lemma bracket_loop_close c rest max stack d w :
  bracket_map c < 0 ->
  bracket_loop (c :: rest) max stack (S d) w =
    if decide (S d <= max)%nat then
      top ← stack !! d;
      bracket_loop rest max stack (if top =? - bracket_map c then d else S d) w
    else bracket_loop rest max stack d w.
Proof.
  intros H. cbn [bracket_loop].
  rewrite (proj2 (Z.ltb_ge 0 (bracket_map c))), (proj2 (Z.ltb_lt _ _) H), decide_True by lia.
  by replace (S d - 1)%nat with d by lia.
Qed.

(** Balanced text below depth 0 is skipped; the recorded part of the stack below the current
    depth is as before. *)
Lemma bracket_loop_inner s inner : balanced s inner ->
  forall rest max stack d w, (0 < d)%nat -> (Nat.min (d + opens s) max <= length stack)%nat ->
  exists stack', bracket_loop (s ++ rest) max stack d w = bracket_loop rest max stack' d w /\
    length stack' = length stack /\ take (Nat.min d max) stack' = take (Nat.min d max) stack.
Proof.
  induction 1 as [|c s out Hc Hs IH|o s inner c s' out Ho Hc Hs IH Hs' IH'];
    intros rest max stack d w Hd Hl; rewrite ?opens_cons, ?opens_app, ?opens_cons in Hl.
  - eauto.
  - simpl. rewrite Hc. simpl. rewrite decide_False in Hl by lia. rewrite decide_False by lia.
    apply IH; auto.
  - rewrite decide_True, decide_False in Hl by lia.
    rewrite <- app_comm_cons, <- app_assoc, <- app_comm_cons, bracket_loop_open by done.
    case_decide as Hm.
    + rewrite decide_True by lia.
      destruct (IH (c :: s' ++ rest) max (<[d := bracket_map o]> stack) (S d) w)
        as (st1 & -> & Hl1 & Ht1); [lia|rewrite length_insert; lia|].
      rewrite length_insert in Hl1. rewrite bracket_loop_close, decide_True by lia.
      assert (st1 !! d = Some (bracket_map o)) as ->.
      { rewrite <- (lookup_take_lt _ (Nat.min (S d) max)), Ht1, lookup_take_lt by lia.
        apply list_lookup_insert_eq. lia. }
      simpl. rewrite Hc, Z.opp_involutive, Z.eqb_refl.
      destruct (IH' rest max st1 d w) as (st2 & -> & Hl2 & Ht2); [lia..|].
      exists st2. split_and!; [done|lia|]. rewrite Ht2.
      apply (f_equal (take d)) in Ht1. rewrite !take_take, (Nat.min_l d) in Ht1 by lia.
      rewrite !Nat.min_l by lia. by rewrite Ht1, take_insert_ge by lia.
    + destruct (IH (c :: s' ++ rest) max stack (S d) w)
        as (st1 & -> & Hl1 & Ht1); [lia..|].
      rewrite bracket_loop_close, decide_False by lia.
      destruct (IH' rest max st1 d w) as (st2 & -> & Hl2 & Ht2); [lia..|].
      exists st2. split_and!; [done|lia|]. rewrite Ht2. rewrite !Nat.min_r in * by lia. done.
Qed.

Lemma bracket_loop_outer s out : balanced s out ->
  forall n acc max stack w, at_cursor n acc w -> (length acc + length out <= n)%nat ->
  (Nat.min (opens s) max <= length stack)%nat ->
  exists w', bracket_loop s max stack 0 w = Some w' /\ at_cursor n (acc ++ out) w'.
Proof.
  induction 1 as [|c s out Hc Hs IH|o s inner c s' out Ho Hc Hs _ Hs' IH'];
    intros n acc max stack w A Hn Hl; rewrite ?opens_cons, ?opens_app, ?opens_cons in Hl.
  - exists w. by rewrite app_nil_r.
  - simpl in *. rewrite Hc. simpl. rewrite decide_False in Hl by lia.
    destruct (putc_ok n acc w c A ltac:(lia)) as (w1 & -> & A1). simpl.
    destruct (IH n _ max stack w1 A1) as (w2 & E & A2);
      [rewrite length_app; simpl; lia | lia |]. exists w2. by rewrite <- app_assoc in A2.
  - rewrite decide_True, decide_False in Hl by lia. rewrite bracket_loop_open by done.
    case_decide as Hm.
    + rewrite decide_True by lia.
      destruct (bracket_loop_inner s inner Hs (c :: s') max (<[0%nat := bracket_map o]> stack) 1 w)
        as (st1 & -> & Hl1 & Ht1); [lia|rewrite length_insert; lia|].
      rewrite length_insert in Hl1. rewrite bracket_loop_close, decide_True by lia.
      assert (st1 !! 0%nat = Some (bracket_map o)) as ->.
      { rewrite <- (lookup_take_lt _ (Nat.min 1 max)), Ht1, lookup_take_lt by lia.
        apply list_lookup_insert_eq. lia. }
      simpl. rewrite Hc, Z.opp_involutive, Z.eqb_refl. apply IH'; auto with lia.
    + destruct (bracket_loop_inner s inner Hs (c :: s') max stack 1 w)
        as (st1 & -> & Hl1 & Ht1); [lia..|].
      rewrite bracket_loop_close, decide_False by lia. apply IH'; auto with lia.
Qed.

(** On text whose brackets match, [remove_bracket] returns exactly the text outside of every
    bracket, for every nesting depth and every [max_nest_size], deeper ones included. *)
Theorem remove_bracket_balanced s out max_nest_size :
  balanced s out -> remove_bracket s max_nest_size = Some out.
Proof.
  intros Hb. destruct (balanced_opens _ _ Hb) as [Ho Hl].
  unfold remove_bracket. case_decide as Hs; [subst; by inversion Hb|].
  destruct (bracket_loop_outer s out Hb (length s) [] max_nest_size
    (replicate (Nat.min (length s / 2) max_nest_size) 0) _ (resized_at _)) as (w & -> & A).
  - simpl. lia.
  - rewrite length_replicate. apply Nat.min_le_compat_r, Nat.div_le_lower_bound; lia.
  - simpl. f_equal. by destruct A.
Qed.

Lemma remove_bracket_balanced_witness :
  balanced (bs "a<b(c)>d") (bs "ad") /\ remove_bracket (bs "a<b(c)>d") 1 = Some (bs "ad").
Proof.
  assert (balanced (bs "a<b(c)>d") (bs "ad")) as Hb.
  { apply balanced_plain; [reflexivity|].
    apply (balanced_group "<"%byte (bs "b(c)") (bs "b") ">"%byte (bs "d") (bs "d")).
    - reflexivity.
    - reflexivity.
    - apply balanced_plain; [reflexivity|].
      apply (balanced_group "("%byte (bs "c") (bs "c") ")"%byte [] []).
      + reflexivity.
      + reflexivity.
      + apply balanced_plain; [reflexivity | constructor].
      + constructor.
    - apply balanced_plain; [reflexivity | constructor]. }
  split; [exact Hb | exact (remove_bracket_balanced _ _ 1 Hb)].
Defined.

(** Any text: the loop is defined while the depth stays inside the stack. *)
Lemma bracket_loop_safe s : forall n acc max stack d w,
  at_cursor n acc w -> (length acc + length s <= n)%nat ->
  (Nat.min (d + opens s) max <= length stack)%nat ->
  Forall (λ c, is_bracket c = false) acc ->
  exists w' out, bracket_loop s max stack d w = Some w' /\ at_cursor n out w' /\
    Forall (λ c, is_bracket c = false) out.
Proof.
  induction s as [|c s IH]; intros n acc max stack d w A Hn Hl Hacc; [by exists w, acc|].
  rewrite opens_cons in Hl. simpl in Hn. destruct (Z.lt_trichotomy (bracket_map c) 0) as [Hc|[Hc|Hc]].
  - rewrite decide_False in Hl by lia. destruct d as [|d].
    + simpl. rewrite (proj2 (Z.ltb_ge 0 (bracket_map c))), (proj2 (Z.ltb_lt _ _) Hc) by lia.
      apply (IH n acc); (done || lia).
    + rewrite bracket_loop_close by done. case_decide.
      * destruct (lookup_lt_is_Some_2 stack d ltac:(lia)) as [top ->]. simpl.
        case_match; apply (IH n acc); (done || lia).
      * apply (IH n acc); (done || lia).
  - rewrite decide_False in Hl by lia. simpl. rewrite Hc. simpl. case_decide.
    + destruct (putc_ok n acc w c A ltac:(lia)) as (w1 & -> & A1). simpl.
      apply (IH n (acc ++ [c])); [exact A1 | rewrite length_app; simpl; lia | lia |].
      apply Forall_app. split; [done|]. repeat constructor. unfold is_bracket. by rewrite Hc.
    + apply (IH n acc); (done || lia).
  - rewrite decide_True in Hl by lia. rewrite bracket_loop_open by done. case_decide.
    + rewrite decide_True by lia. apply (IH n acc); [done|lia|rewrite length_insert; lia|done].
    + apply (IH n acc); (done || lia).
Qed.

Lemma bracket_loop_only_opens n : forall max stack d w,
  (length stack < d + n)%nat -> (d + n <= max)%nat -> (d <= length stack)%nat ->
  bracket_loop (replicate n "("%byte) max stack d w = None.
Proof.
  induction n as [|n IH]; intros max stack d w Hs Hm Hd; [lia|]. simpl replicate.
  rewrite bracket_loop_open, decide_True by (done || lia). case_decide; [|done].
  apply IH; rewrite ?length_insert; lia.
Qed.

(** The stack of [remove_bracket] has room for half of the input: text with at least as many
    other characters as opening brackets is handled inside it, whatever its brackets do, and no
    bracket survives in the output; a run of two or more opening brackets not longer than
    [max_nest_size] is written past the end of the stack. *)
Theorem remove_bracket_stack_bound s max_nest_size :
  ((2 * opens s <= length s)%nat ->
   exists out, remove_bracket s max_nest_size = Some out /\
     Forall (λ c, is_bracket c = false) out) /\
  forall n, (2 <= n <= max_nest_size)%nat ->
    remove_bracket (replicate n "("%byte) max_nest_size = None.
Proof.
  unfold remove_bracket. split.
  - intros Ho. case_decide as Hs; [by exists []|].
    destruct (bracket_loop_safe s (length s) [] max_nest_size
      (replicate (Nat.min (length s / 2) max_nest_size) 0) 0 _ (resized_at _))
      as (w & out & -> & A & Hout); [simpl; lia | | constructor |].
    + rewrite length_replicate. apply Nat.min_le_compat_r, Nat.div_le_lower_bound; lia.
    + exists out. simpl. split; [|done]. f_equal. by destruct A.
  - intros n Hn. rewrite decide_False by (destruct n; simpl; [lia|done]).
    rewrite bracket_loop_only_opens; [done| | |]; rewrite ?length_replicate; try lia.
    pose proof (Nat.div_lt n 2 ltac:(lia) ltac:(lia)). lia.
Qed.

Lemma remove_bracket_stack_bound_witness :
  (exists out, remove_bracket (bs "a)(") 16 = Some out) /\ remove_bracket (bs "((") 16 = None.
Proof.
  split.
  - destruct (proj1 (remove_bracket_stack_bound (bs "a)(") 16) ltac:(vm_compute; lia)) as (out & H & _).
    exists out. exact H.
  - exact (proj2 (remove_bracket_stack_bound [] 16) 2%nat ltac:(lia)).
Defined.

(** ** Hexadecimal addresses *)

Definition digit_bytes : list Z := Z.of_nat <$> seq 0 16.

Lemma hex_value_digit d : 0 <= d < 16 -> hex_value (hex_digit d) = d.
Proof.
  intros H. assert (forallb (λ d, hex_value (hex_digit d) =? d) digit_bytes = true) as Hall
    by (vm_compute; reflexivity).
  rewrite forallb_forall in Hall. apply Z.eqb_eq, Hall. apply list_elem_of_In, list_elem_of_fmap.
  exists (Z.to_nat d). rewrite elem_of_seq. lia.
Qed.

Lemma hex_digits_spec fuel : forall v, (0 < fuel)%nat -> 0 <= v < 16 ^ Z.of_nat fuel ->
  parse_hex (hex_digits v fuel) = v /\ (1 <= length (hex_digits v fuel) <= fuel)%nat.
Proof.
  induction fuel as [|fuel IH]; intros v Hf Hv; [lia|]. simpl.
  rewrite Nat2Z.inj_succ, Z.pow_succ_r in Hv by lia.
  pose proof (Z.mod_pos_bound v 16 ltac:(lia)) as Hm.
  destruct (v <? 16) eqn:Hlt.
  - unfold parse_hex. simpl. rewrite hex_value_digit by done. rewrite Z.mod_small by lia. lia.
  - destruct fuel as [|fuel]; [simpl in Hv; lia|].
    destruct (IH (v / 16) ltac:(lia)) as [Hp Hl].
    { split; [zmod|]. apply Z.div_lt_upper_bound; [done | apply Hv]. }
    unfold parse_hex in *. rewrite fold_left_app, Hp, length_app. cbn [fold_left length].
    rewrite hex_value_digit by done. split; [zmod | lia].
Qed.

(** With room for 16 digits, "0x", the digits and a NUL go to the front of the buffer. *)
Lemma format_address_ok addr mem size :
  0 <= addr < 2 ^ 64 -> 19 <= size <= lenZ mem -> exists digits,
    format_address_safe addr (Some mem) size =
      Some (Some (bs "0x" ++ digits ++ Byte.x00 :: drop (3 + length digits) mem)) /\
    parse_hex digits = addr /\ (1 <= length digits <= 16)%nat /\ digits = hex_digits addr 16.
Proof.
  intros Ha [H Hs]. unfold format_address_safe.
  rewrite (proj2 (Z.ltb_ge size _)) by lia.
  destruct (hex_digits_spec 16 addr ltac:(lia)) as [Hp Hl]; [done|].
  set (digits := hex_digits addr 16) in *. exists digits. split; [|done].
  destruct mem as [|b0 [|b1 mem]]; try (unfold lenZ in Hs; simpl in Hs; lia).
  rewrite (mem_store_mid [] [b0] (b1 :: mem)) by done. simpl.
  rewrite (mem_store_mid ["0"%byte] [b1] mem) by done. simpl.
  unfold to_chars_hex. fold digits. rewrite decide_True by lia.
  unfold lenZ in Hs. simpl in Hs.
  rewrite <- (take_drop (length digits) mem) at 1.
  rewrite (mem_store_mid ["0"%byte; "x"%byte] (take (length digits) mem)
    (drop (length digits) mem))
    by (rewrite ?length_take; unfold lenZ; simpl; lia). simpl.
  destruct (drop (length digits) mem) as [|b2 rest] eqn:Hd.
  { apply (f_equal length) in Hd. rewrite length_drop in Hd. simpl in Hd. lia. }
  rewrite app_comm_cons, app_comm_cons.
  rewrite (mem_store_mid (bs "0x" ++ digits) [b2] rest)
    by (rewrite ?lenZ_app; unfold lenZ; simpl; lia). simpl.
  do 5 f_equal. apply (f_equal (drop 1)) in Hd. rewrite drop_drop, Nat.add_1_r in Hd. by rewrite Hd.
Qed.

(** [format_address_safe] never writes outside the buffer it is given and always leaves a C
    string in it: with 19 bytes or more it is "0x" and the hexadecimal digits of the address,
    which read back as the address, the bytes after the NUL being untouched; with 1 to 18 bytes
    it is the empty string; with none, or with a null pointer, nothing is written. *)
Theorem format_address_parses addr mem size :
  0 <= addr < 2 ^ 64 -> 0 <= size <= lenZ mem ->
  format_address_safe addr None size = Some None /\
  (19 <= size -> exists digits,
     format_address_safe addr (Some mem) size =
       Some (Some (bs "0x" ++ digits ++ Byte.x00 :: drop (3 + length digits) mem)) /\
     parse_hex digits = addr /\ (1 <= length digits <= 16)%nat) /\
  (1 <= size < 19 ->
     format_address_safe addr (Some mem) size = Some (Some (Byte.x00 :: drop 1 mem))) /\
  (size = 0 -> format_address_safe addr (Some mem) size = Some (Some mem)).
Proof.
  intros Ha [Hs0 Hs]. split_and!; [done|..].
  - intros H. destruct (format_address_ok addr mem size Ha ltac:(lia)) as (digits & E & Hp & Hl & _).
    exists digits. split; [exact E | done].
  - intros H. unfold format_address_safe. rewrite (proj2 (Z.ltb_lt size _)), (proj2 (Z.ltb_lt 0 size)) by lia.
    destruct mem as [|b0 mem]; [unfold lenZ in Hs; simpl in Hs; lia|].
    by rewrite (mem_store_mid [] [b0] mem).
  - intros ->. reflexivity.
Qed.

Lemma format_address_parses_witness :
  format_address_safe 0xdead (Some (replicate 20 "z"%byte)) 20 =
    Some (Some (bs "0xdead" ++ Byte.x00 :: replicate 13 "z"%byte)) /\
  exists digits, parse_hex digits = 0xdead /\
    format_address_safe 0xdead (Some (replicate 20 "z"%byte)) 20 =
      Some (Some (bs "0x" ++ digits ++ Byte.x00 :: drop (3 + length digits) (replicate 20 "z"%byte))).
Proof.
  split; [vm_compute; reflexivity|].
  destruct (format_address_parses 0xdead (replicate 20 "z"%byte) 20) as (_ & H & _);
    [lia | split; [lia | vm_compute; discriminate] |].
  destruct (H ltac:(lia)) as (d & H1 & H2 & _). exists d. split; assumption.
Defined.
