(* ===== verification/FileSystem.v ===== *)
(** * The operating system's files

    What file_util.cc and the sinks call: POSIX [open], [read], [write], [writev], [stat],
    [mkdir], [rename] and the rest, zlib's [gzwrite], and the environment. They are the operations
    of the interface [FileSystem]; [FileSystemLaws] states what the code relies on. The theorems
    hold of every file system with these laws. [MemFs] is one in memory, on which the witnesses are
    evaluated and which stands for nothing else: it has no permissions, and a name needs no parent
    directory; [limit] tells how much of a request one call transfers, so that short reads and
    writes happen. *)

From S2P Require Import Prelude.

Inductive node_kind := Regular | Directory | Special.

#[export] Instance node_kind_eq_dec : EqDecision node_kind.
Proof. solve_decision. Defined.

(** The value of [errno] for a path that is already there. *)
Definition kEEXIST : Z := 17.

(** Descriptors and return codes are [int]s; negative ones are errors, and [sys_mkdir] gives
    the negated [errno]. A call that fills a buffer
    returns the bytes it filled it with. [content] is not a call: it is what a file holds, [fd_out]
    the file the writes to a descriptor are appended to, and [fd_in] what is left to read. *)
Class FileSystem (W : Type) := {
  sys_stat : W -> bytes -> option node_kind;
  sys_executable : W -> bytes -> bool;
  sys_readdir : W -> bytes -> option (list bytes);
  sys_open_read : W -> bytes -> Z * W;
  sys_open_trunc : W -> bytes -> Z * W;
  sys_open_append : W -> bytes -> Z * W;
  sys_create_excl : W -> bytes -> Z * W;
  sys_size : W -> Z -> option Z;
  sys_read : W -> Z -> Z -> option bytes * W;
  sys_write : W -> Z -> bytes -> Z * W;
  sys_close : W -> Z -> W;
  sys_mkdir : W -> bytes -> Z * W;
  sys_remove : W -> bytes -> Z * W;
  sys_rmdir : W -> bytes -> Z * W;
  sys_rename : W -> bytes -> bytes -> Z * W;
  gz_open : W -> bytes -> option Z * W;
  gz_write : W -> Z -> bytes -> Z * W;
  gz_close : W -> Z -> W;
  getenv : W -> bytes -> option bytes;
  exe_link : W -> option bytes;
  content : W -> bytes -> option bytes;
  fd_out : W -> Z -> option bytes;
  fd_in : W -> Z -> option bytes;
}.

Class FileSystemLaws (W : Type) {FS : FileSystem W} : Prop := {
  open_trunc_law w path fd w' :
    sys_open_trunc w path = (fd, w') -> 0 <= fd ->
    content w' path = Some [] /\ fd_out w' fd = Some path;
  open_append_law w path fd w' c :
    sys_open_append w path = (fd, w') -> 0 <= fd -> content w path = Some c ->
    content w' path = Some c /\ fd_out w' fd = Some path;
  write_law w fd data n w' path c :
    sys_write w fd data = (n, w') -> fd_out w fd = Some path -> content w path = Some c ->
    n <= lenZ data /\ content w' path = Some (c ++ take (Z.to_nat n) data) /\
    fd_out w' fd = Some path;
  close_law w fd path : content (sys_close w fd) path = content w path;
  open_read_law w path fd w' c :
    sys_open_read w path = (fd, w') -> 0 <= fd -> content w path = Some c ->
    content w' path = Some c /\ fd_in w' fd = Some c /\ sys_size w' fd = Some (lenZ c);
  read_law w fd n r w' rest :
    0 <= n -> sys_read w fd n = (r, w') -> fd_in w fd = Some rest ->
    let data := default [] r in
    lenZ data <= n /\ exists rest', rest = data ++ rest' /\ fd_in w' fd = Some rest';
  mkdir_law w path w' :
    sys_mkdir w path = (0, w') -> sys_stat w' path = Some Directory;
  mkdir_only w path n w' p :
    sys_mkdir w path = (n, w') -> sys_stat w' p = sys_stat w p \/ sys_stat w' p = Some Directory;
  mkdir_exists w path w' : sys_mkdir w path = (- kEEXIST, w') -> sys_stat w path <> None;
}.

(** ** A file system in memory *)

Inductive node := FileNode (data : bytes) | DirNode.

Record MemFs := {
  mf_nodes : list (bytes * node);
  mf_out : list (Z * bytes);
  mf_in : list (Z * bytes);
  mf_next : Z;
}.

Fixpoint assoc {K V} `{EqDecision K} (k : K) (l : list (K * V)) : option V :=
  match l with
  | [] => None
  | (k', v) :: rest => if decide (k = k') then Some v else assoc k rest
  end.

Definition mf_set (w : MemFs) (nodes : list (bytes * node)) (out inn : list (Z * bytes)) (next : Z) :=
  {| mf_nodes := nodes; mf_out := out; mf_in := inn; mf_next := next |}.

Definition mf_data (w : MemFs) (path : bytes) : option bytes :=
  match assoc path (mf_nodes w) with Some (FileNode d) => Some d | _ => None end.

Definition mf_kind (w : MemFs) (path : bytes) : option node_kind :=
  match assoc path (mf_nodes w) with
  | Some (FileNode _) => Some Regular | Some DirNode => Some Directory | None => None end.

Definition mf_put (w : MemFs) (path : bytes) (n : node) : MemFs :=
  mf_set w ((path, n) :: mf_nodes w) (mf_out w) (mf_in w) (mf_next w).

Definition mf_open_out (w : MemFs) (path data : bytes) : Z * MemFs :=
  (mf_next w,
   mf_set w ((path, FileNode data) :: mf_nodes w) ((mf_next w, path) :: mf_out w) (mf_in w)
     (mf_next w + 1)).

Definition mf_open_read (w : MemFs) (path : bytes) : Z * MemFs :=
  match mf_data w path with
  | Some d => (mf_next w, mf_set w (mf_nodes w) (mf_out w) ((mf_next w, d) :: mf_in w) (mf_next w + 1))
  | None => (-1, w)
  end.

Section mem.
Context (limit : nat -> nat).

Definition mf_read (w : MemFs) (fd n : Z) : option bytes * MemFs :=
  match assoc fd (mf_in w) with
  | None => (None, w)
  | Some d =>
    let k := Nat.min (limit (Z.to_nat n)) (Z.to_nat n) in
    (Some (take k d), mf_set w (mf_nodes w) (mf_out w) ((fd, drop k d) :: mf_in w) (mf_next w))
  end.

Definition mf_write (w : MemFs) (fd : Z) (data : bytes) : Z * MemFs :=
  match assoc fd (mf_out w) with
  | None => (-1, w)
  | Some path =>
    match mf_data w path with
    | None => (-1, w)
    | Some c =>
      let d := take (limit (length data)) data in (lenZ d, mf_put w path (FileNode (c ++ d)))
    end
  end.

(** A descriptor of a file that is there. *)
Definition mf_fd_out (w : MemFs) (fd : Z) : option bytes :=
  path ← assoc fd (mf_out w); _ ← mf_data w path; Some path.

Definition mf_mkdir (w : MemFs) (path : bytes) : Z * MemFs :=
  match mf_kind w path with
  | None => (0, mf_put w path DirNode)
  | Some _ => (- kEEXIST, w)
  end.

Definition mf_remove (w : MemFs) (path : bytes) : Z * MemFs :=
  match mf_kind w path with
  | Some _ =>
    (0, mf_set w (filter (fun e => e.1 ≠ path) (mf_nodes w)) (mf_out w) (mf_in w) (mf_next w))
  | None => (-1, w)
  end.

(** [unlink] removes no directory, [rmdir] nothing but an empty one. *)
Definition mf_unlink (w : MemFs) (path : bytes) : Z * MemFs :=
  match mf_kind w path with Some Directory => (-1, w) | _ => mf_remove w path end.

Definition mf_rmdir (w : MemFs) (path : bytes) : Z * MemFs :=
  let below := path ++ bs "/" in
  match mf_kind w path with
  | Some Directory =>
    if existsb (λ e, bool_decide (take (length below) e.1 = below)) (mf_nodes w) then (-1, w)
    else mf_remove w path
  | _ => (-1, w)
  end.

#[local] Instance mem_fs : FileSystem MemFs := {
  sys_stat := mf_kind;
  sys_executable _ _ := true;
  sys_readdir w path :=
    match mf_kind w path with Some Directory => Some (fst <$> mf_nodes w) | _ => None end;
  sys_open_read := mf_open_read;
  sys_open_trunc w path := mf_open_out w path [];
  sys_open_append w path := mf_open_out w path (default [] (mf_data w path));
  sys_create_excl w path :=
    match mf_kind w path with None => (0, mf_put w path (FileNode [])) | Some _ => (-1, w) end;
  sys_size w fd := lenZ <$> assoc fd (mf_in w);
  sys_read := mf_read;
  sys_write := mf_write;
  sys_close w fd := w;
  sys_mkdir := mf_mkdir;
  sys_remove := mf_unlink;
  sys_rmdir := mf_rmdir;
  sys_rename w old new :=
    match assoc old (mf_nodes w) with
    | Some n => (0, mf_put (mf_remove w old).2 new n) | None => (-1, w) end;
  gz_open w path := let '(fd, w') := mf_open_out w path [] in (Some fd, w');
  gz_write := mf_write;
  gz_close w fd := w;
  getenv _ _ := None;
  exe_link _ := None;
  content := mf_data;
  fd_out := mf_fd_out;
  fd_in w fd := assoc fd (mf_in w);
}.

Lemma assoc_head {K V} `{EqDecision K} (k : K) (v : V) l : assoc k ((k, v) :: l) = Some v.
Proof. simpl. by rewrite decide_True. Qed.

Lemma mf_data_head w path d l : mf_nodes w = (path, FileNode d) :: l -> mf_data w path = Some d.
Proof. unfold mf_data. intros ->. by rewrite assoc_head. Qed.

Lemma mf_fd_out_iff w fd path :
  mf_fd_out w fd = Some path <-> assoc fd (mf_out w) = Some path /\ mf_data w path <> None.
Proof.
  unfold mf_fd_out. destruct (assoc fd (mf_out w)) as [p|]; cbn [mbind option_bind]; [|naive_solver].
  destruct (mf_data w p) eqn:E; cbn [mbind option_bind]; naive_solver.
Qed.

Lemma mem_fs_laws : FileSystemLaws MemFs.
Proof.
  split; cbn [sys_stat sys_open_read sys_open_trunc sys_open_append sys_size sys_read sys_write
    sys_close sys_mkdir content fd_out fd_in mem_fs].
  - intros w path fd w' [= <- <-] _.
    split; [by eapply mf_data_head|]. apply mf_fd_out_iff. split; [apply assoc_head|].
    by rewrite (mf_data_head _ path [] (mf_nodes w)).
  - intros w path fd w' c [= <- <-] _ ->.
    split; [by eapply mf_data_head|]. apply mf_fd_out_iff. split; [apply assoc_head|].
    by rewrite (mf_data_head _ path c (mf_nodes w)).
  - intros w fd data n w' path c. unfold mf_write. intros H [Hf _]%mf_fd_out_iff Hc. rewrite Hf, Hc in H.
    injection H as <- <-. split; [unfold lenZ; rewrite length_take; lia|].
    set (d := take _ data). assert (mf_data (mf_put w path (FileNode (c ++ d))) path = Some (c ++ d)) as Hd
      by (by eapply mf_data_head).
    rewrite Hd. split; [|apply mf_fd_out_iff; by rewrite Hd]. do 2 f_equal.
    unfold lenZ, d. rewrite Nat2Z.id, length_take, <- take_take, firstn_all. done.
  - done.
  - intros w path fd w' c. unfold mf_open_read. intros H Hfd Hc. rewrite Hc in H.
    injection H as <- <-. simpl. by rewrite !decide_True.
  - intros w fd n r w' rest Hn. unfold mf_read. intros H Hf. rewrite Hf in H.
    injection H as <- <-. simpl. rewrite decide_True by done. split.
    + unfold lenZ. rewrite length_take. lia.
    + eexists. split; [|done]. by rewrite take_drop.
  - intros w path w'. unfold mf_mkdir, mf_put, mf_kind. destruct (assoc path (mf_nodes w)) as [[]|];
      intros [= <-]; simpl; by rewrite decide_True.
  - intros w path n w' p. unfold mf_mkdir, mf_put, mf_kind.
    destruct (assoc path (mf_nodes w)) as [[]|] eqn:E; intros [= <- <-]; simpl; auto.
    case_decide; auto.
  - intros w path w'. unfold mf_mkdir. by destruct (mf_kind w path).
Qed.

(** A system that transfers everything takes all of every write. *)
Lemma mem_write_complete w fd data n w' path :
  (forall k, limit k = k) -> mf_write w fd data = (n, w') -> mf_fd_out w fd = Some path ->
  n = lenZ data.
Proof.
  intros Hlim. unfold mf_write. intros H [Hf Hd]%mf_fd_out_iff. rewrite Hf in H.
  destruct (mf_data w path) as [c|]; [|done]. injection H as <- _. by rewrite Hlim, firstn_all.
Qed.

(** One that transfers something makes progress. *)
Lemma mem_write_progress w fd data n w' path :
  (forall k, (0 < k)%nat -> (0 < limit k)%nat) ->
  mf_write w fd data = (n, w') -> mf_fd_out w fd = Some path -> data <> [] -> 0 < n.
Proof.
  intros Hlim. unfold mf_write. intros H [Hf Hd]%mf_fd_out_iff Hne. rewrite Hf in H.
  destruct (mf_data w path) as [c|]; [|done]. injection H as <- _.
  destruct data as [|x data]; [done|]. specialize (Hlim (length (x :: data)) ltac:(simpl; lia)).
  unfold lenZ. rewrite length_take. simpl in *. lia.
Qed.

Lemma mem_read_progress w fd n r w' rest :
  (forall k, (0 < k)%nat -> (0 < limit k)%nat) ->
  mf_read w fd n = (r, w') -> assoc fd (mf_in w) = Some rest -> rest <> [] -> 0 < n ->
  default [] r <> [].
Proof.
  intros Hlim. unfold mf_read. intros H Hf Hne Hn. rewrite Hf in H. injection H as <- _. simpl.
  destruct rest as [|x rest]; [done|]. specialize (Hlim (Z.to_nat n) ltac:(lia)).
  destruct (Nat.min (limit (Z.to_nat n)) (Z.to_nat n)) eqn:E; [lia | done].
Qed.
End mem.
