(* ===== verification/FileUtil.v ===== *)
(** * File utilities

    src/src/core/base/file_util.cc and src/src/include/femtolog/core/base/file_util.h, as built for
    POSIX: path functions, reading lines (scalar and AVX2), and the functions that call the
    operating system, whose calls are parameters. *)

From S2P Require Import Prelude StringUtil FileSystem.

Definition sep : Init.Byte.byte := "/"%byte.
Definition dot : Init.Byte.byte := "."%byte.
Definition nl : Init.Byte.byte := ch 10.
Definition cr : Init.Byte.byte := ch 13.

(** ** Paths *)

(** [std::string::find_last_of] and [find] of one character. *)
Fixpoint find_last_of (s : bytes) (c : Init.Byte.byte) : option nat :=
  match s with
  | [] => None
  | x :: rest =>
    match find_last_of rest c with
    | Some i => Some (S i)
    | None => if decide (x = c) then Some 0%nat else None
    end
  end.

Fixpoint find_char (s : bytes) (c : Init.Byte.byte) : option nat :=
  match s with
  | [] => None
  | x :: rest => if decide (x = c) then Some 0%nat else S <$> find_char rest c
  end.

Definition parent_dir (path : bytes) : bytes :=
  match find_last_of path sep with None => [] | Some pos => take pos path end.

Definition base_name (path : bytes) : bytes :=
  match find_last_of path sep with None => [] | Some pos => drop (pos + 1) path end.

(** The last dot is no extension: there is none, it belongs to a directory, or it starts the
    name. *)
Definition no_extension (last_slash last_dot : option nat) : bool :=
  match last_dot with
  | None => true
  | Some d =>
    match last_slash with
    | Some p => (d <? p)%nat || (d =? 0)%nat || (d =? p + 1)%nat
    | None => (d =? 0)%nat
    end
  end.

Definition file_extension (path : bytes) : bytes :=
  let last_slash := find_last_of path sep in
  match find_last_of path dot with
  | Some d => if no_extension last_slash (Some d) then [] else drop (d + 1) path
  | None => []
  end.

Definition file_name_without_extension (path : bytes) : bytes :=
  let last_slash := find_last_of path sep in
  let last_dot := find_last_of path dot in
  let filename_part := match last_slash with None => path | Some p => drop (p + 1) path end in
  if no_extension last_slash last_dot then filename_part
  else
    let d := default 0%nat last_dot in
    let relative_dot_pos := match last_slash with None => d | Some p => (d - (p + 1))%nat end in
    take relative_dot_pos filename_part.

(** [std::string(part)] of a C string: up to the NUL. *)
Fixpoint c_string (s : bytes) : bytes :=
  match s with
  | [] => []
  | c :: rest => if decide (c = Byte.x00) then [] else c :: c_string rest
  end.

Definition sanitize_component (part : bytes) (is_first : bool) : bytes :=
  let result := c_string part in
  let result := match result with
    | c :: rest => if negb is_first && bool_decide (c = sep) then rest else result
    | [] => result end in
  match last result with
  | Some c => if decide (c = sep) then take (length result - 1) result else result
  | None => result
  end.

(** One call of the lambda of [join_path]. *)
Definition join_part (st : bytes * bool) (part : bytes) : bytes * bool :=
  let '(joined, is_first) := st in
  let sanitized := sanitize_component part is_first in
  if decide (sanitized = []) then (joined, is_first)
  else ((if is_first then joined else joined ++ [sep]) ++ sanitized, false).

Definition join_path (parts : list bytes) : bytes := (fold_left join_part parts ([], true)).1.

(** ** Lines *)

(** [if (line_length > 0 && line_end[-1] == '\r') --line_length]. *)
Definition strip_cr (line : bytes) : bytes :=
  match last line with
  | Some c => if decide (c = cr) then take (length line - 1) line else line
  | None => line
  end.

(** The loop of [read_lines_default]; [rest] is the content from [current_pos] on, and the fuel
    the number of its bytes. *)
Fixpoint default_loop (rest : bytes) (lines : list bytes) (fuel : nat) : list bytes :=
  match fuel with
  | O => lines
  | S fuel' =>
    match rest with
    | [] => lines
    | _ =>
      match find_char rest nl with
      | Some n => default_loop (drop (n + 1) rest) (lines ++ [strip_cr (take n rest)]) fuel'
      | None => lines ++ [strip_cr rest]
      end
    end
  end.

Definition read_lines_default (content : bytes) : list bytes :=
  if decide (content = []) then [] else default_loop content [] (length content).

(** [_mm256_cmpeq_epi8] with newlines and [_mm256_movemask_epi8]: bit [i] is set when byte [i] of
    the chunk is a newline. *)
Fixpoint movemask (chunk : bytes) : Z :=
  match chunk with
  | [] => 0
  | c :: rest => (if decide (c = nl) then 1 else 0) + 2 * movemask rest
  end.

(** [__builtin_ctz] of a 32-bit mask that is not 0. *)
Fixpoint ctz (mask : Z) (fuel : nat) : nat :=
  match fuel with
  | O => 0
  | S fuel' => if Z.odd mask then 0 else S (ctz (mask / 2) fuel')
  end%nat.

(** [while (mask)]; each turn clears one bit, so 32 turns are enough. *)
Fixpoint mask_loop (mask : Z) (pos : nat) (positions : list nat) (fuel : nat) : list nat :=
  match fuel with
  | O => positions
  | S fuel' =>
    if mask =? 0 then positions
    else mask_loop (Z.land mask (mask - 1)) pos (positions ++ [(pos + ctz mask 32)%nat]) fuel'
  end.

(** [for (; pos + 32 <= size; pos += 32)]: the positions found and the position reached. *)
Fixpoint chunk_loop (content : bytes) (pos : nat) (positions : list nat) (fuel : nat)
    {struct fuel} : list nat * nat :=
  match fuel with
  | O => (positions, pos)
  | S fuel' =>
    if (pos + 32 <=? length content)%nat
    then chunk_loop content (pos + 32)
      (mask_loop (movemask (take 32 (drop pos content))) pos positions 32) fuel'
    else (positions, pos)
  end%nat.

(** [for (; pos < size; ++pos)] over what is left. *)
Fixpoint scalar_loop (rest : bytes) (pos : nat) (positions : list nat) : list nat :=
  match rest with
  | [] => positions
  | c :: rest' =>
    scalar_loop rest' (S pos) (if decide (c = nl) then positions ++ [pos] else positions)
  end.

Definition newline_positions (content : bytes) : list nat :=
  let '(positions, pos) :=
    if decide (32 <= length content)%nat then chunk_loop content 0 [] (length content) else ([], 0%nat) in
  scalar_loop (drop pos content) pos positions.

(** The bytes [from, to) of the content. *)
Definition slice (content : bytes) (from to : nat) : bytes := take (to - from) (drop from content).

Fixpoint cut_loop (content : bytes) (positions : list nat) (line_start : nat) (lines : list bytes) :
    list bytes * nat :=
  match positions with
  | [] => (lines, line_start)
  | p :: rest =>
    cut_loop content rest (p + 1) (lines ++ [strip_cr (slice content line_start p)])
  end.

Definition read_lines_with_avx2 (content : bytes) : list bytes :=
  if decide (content = []) then []
  else
    let '(lines, line_start) := cut_loop content (newline_positions content) 0 [] in
    if decide (line_start < length content)%nat
    then lines ++ [strip_cr (slice content line_start (length content))] else lines.

(** [read_lines<use_avx2_if_available>] in a build with or without AVX2. *)
Definition read_lines (enable_avx2 use_avx2_if_available : bool) (content : bytes) : list bytes :=
  if enable_avx2 && use_avx2_if_available then read_lines_with_avx2 content
  else read_lines_default content.

(** ** The file system

    Paths reach the operating system as C strings. Messages on [std::cerr] are left out. *)
Section files.
Context {W : Type} {FS : FileSystem W}.

Definition file_exists (w : W) (path : bytes) : bool :=
  bool_decide (sys_stat w (c_string path) = Some Regular).

Definition dir_exists (w : W) (path : bytes) : bool :=
  bool_decide (sys_stat w (c_string path) = Some Directory).

(** Every turn of the loop but the last reads at least one byte. *)
Fixpoint read_loop (w : W) (fd st_size : Z) (contents : bytes) (fuel : nat) : bytes * W :=
  match fuel with
  | O => (contents, w)
  | S fuel' =>
    if lenZ contents <? st_size then
      let '(r, w') := sys_read w fd (st_size - lenZ contents) in
      match default [] r with
      | [] => (contents, w')
      | data => read_loop w' fd st_size (contents ++ data) fuel'
      end
    else (contents, w)
  end.

Definition read_file (w : W) (path : bytes) : bytes * W :=
  let '(fd, w1) := sys_open_read w (c_string path) in
  if fd <? 0 then ([], w1)
  else
    match sys_size w1 fd with
    | None => ([], sys_close w1 fd)
    | Some st_size =>
      if 0 <? st_size then
        let '(contents, w2) := read_loop w1 fd st_size [] (Z.to_nat st_size) in
        (contents, sys_close w2 fd)
      else ([], sys_close w1 fd)
    end.

(** [data] is what is left to write; the result tells whether all of it was. *)
Fixpoint write_loop (w : W) (fd : Z) (data : bytes) (fuel : nat) : bool * W :=
  match data with
  | [] => (true, w)
  | _ =>
    match fuel with
    | O => (false, w)
    | S fuel' =>
      let '(n, w') := sys_write w fd data in
      if n <=? 0 then (false, w') else write_loop w' fd (drop (Z.to_nat n) data) fuel'
    end
  end.

Definition write_file (w : W) (path data : bytes) : Z * W :=
  let '(fd, w1) := sys_open_trunc w (c_string path) in
  if fd <? 0 then (-1, w1)
  else
    let '(ok, w2) := write_loop w1 fd data (length data) in
    (if ok : bool then 0 else -1, sys_close w2 fd).

(** [fopen], [fwrite] and [fclose]; [None] is a null pointer. *)
Definition write_binary_to_file (w : W) (binary_data : option bytes) (output_path : bytes) : Z * W :=
  match binary_data with
  | None | Some [] => (4, w)
  | Some data =>
    let '(fd, w1) := sys_open_trunc w (c_string output_path) in
    if fd <? 0 then (2, w1)
    else
      let '(ok, w2) := write_loop w1 fd data (length data) in
      (if ok : bool then 0 else 1, sys_close w2 fd)
  end.

(** The overload for a vector, whose elements are the objects' bytes. *)
Definition write_vector_to_file (w : W) (data : list bytes) (output_path : bytes) : Z * W :=
  write_binary_to_file w (Some (concat data)) output_path.

Definition kPathMaxLength : Z := 4096.

(** [exe_path], [exe_dir] and [resources_dir] keep what their first call finds. *)
Definition exe_path (w : W) : bytes :=
  match exe_link w with None => [] | Some target => take (Z.to_nat (kPathMaxLength - 1)) target end.

Definition exe_dir (w : W) : bytes :=
  if decide (exe_path w = []) then [] else parent_dir (exe_path w).

Definition resources_dir (w : W) : bytes := join_path [exe_dir w; bs "resources"].

Definition is_candidate (w : W) (dir path : bytes) : bool :=
  let full_path := dir ++ [sep] ++ path in
  file_exists w full_path && sys_executable w (c_string full_path).

(** [rest] is [path_var] from [start] on. *)
Fixpoint path_loop (w : W) (path rest : bytes) (fuel : nat) : bool :=
  match fuel with
  | O => false
  | S fuel' =>
    match find_char rest ":"%byte with
    | Some n => is_candidate w (take n rest) path || path_loop w path (drop (n + 1) rest) fuel'
    | None => is_candidate w rest path
    end
  end.

Definition is_executable_in_path (w : W) (path : bytes) : bool :=
  match getenv w (bs "PATH") with
  | None => false
  | Some path_var => path_loop w path path_var (S (length path_var))
  end.

Definition list_files (w : W) (path : bytes) : list bytes :=
  match sys_readdir w (c_string path) with
  | None => []
  | Some names => filter (fun n => n ≠ bs "." /\ n ≠ bs "..") names
  end.

Fixpoint first_env (w : W) (vars : list bytes) : bytes :=
  match vars with
  | [] => bs "/tmp/"
  | var :: rest =>
    match getenv w var with
    | Some (c :: value) => (c :: value) ++ [sep]
    | _ => first_env w rest
    end
  end.

Definition temp_directory (w : W) : bytes :=
  first_env w [bs "TMPDIR"; bs "TMP"; bs "TEMP"; bs "TEMPDIR"].

Definition charset : bytes := bs "0123456789ABCDEFGHIJKLMNOPQRSTUVWXYZabcdefghijklmnopqrstuvwxyz".

(** [picks] are the 8 numbers below 62 the generator draws. *)
Definition temp_path (w : W) (prefix : bytes) (picks : list nat) : bytes :=
  temp_directory w ++ prefix ++ bs "femtolog_" ++ ((fun i => charset !!! i) <$> picks).

Definition create_directory (w : W) (path : bytes) : Z * W :=
  let '(n, w') := sys_mkdir w (c_string path) in
  (if (n =? 0) || (n =? - kEEXIST) then 0 else -1, w').

(** The directories [create_directories] visits: the path up to each separator, then the path. *)
Fixpoint dir_prefixes (path : bytes) (pos : nat) (fuel : nat) : list bytes :=
  match fuel with
  | O => []
  | S fuel' =>
    if decide (pos < length path)%nat then
      match find_char (drop pos path) sep with
      | Some n => take (pos + n) path :: dir_prefixes path (pos + n + 1) fuel'
      | None => [path]
      end
    else []
  end.

Fixpoint make_dirs (w : W) (dirs : list bytes) (result : Z) : Z * W :=
  match dirs with
  | [] => (result, w)
  | dir :: rest =>
    if bool_decide (dir ≠ []) && negb (dir_exists w dir) then
      let '(n, w') := create_directory w dir in
      make_dirs w' rest (if n =? 0 then result else result + 1)
    else make_dirs w rest result
  end.

Definition create_directories (w : W) (path : bytes) : Z * W :=
  let sanitized_path := sanitize_component path true in
  make_dirs w (dir_prefixes sanitized_path 0 (length sanitized_path)) 0.

Definition create_file (w : W) (path : bytes) : Z * W :=
  let '(fd, w') := sys_create_excl w (c_string path) in
  if fd <? 0 then (-1, w') else (0, sys_close w' fd).

Definition remove_file (w : W) (path : bytes) : Z * W := sys_remove w (c_string path).
Definition remove_directory (w : W) (path : bytes) : Z * W := sys_rmdir w (c_string path).
Definition rename_file (w : W) (old_path new_path : bytes) : Z * W :=
  sys_rename w (c_string old_path) (c_string new_path).

(** The copying loop; every turn but the last reads at least one byte of the source. *)
Fixpoint gz_loop (w : W) (src dst : Z) (fuel : nat) : bool * W :=
  match fuel with
  | O => (false, w)
  | S fuel' =>
    let '(r, w1) := sys_read w src 8192 in
    match default [] r with
    | [] => (true, w1)
    | data => let '(n, w2) := gz_write w1 dst data in
      if n =? 0 then (false, w2) else gz_loop w2 src dst fuel'
    end
  end.

Definition compress (w : W) (src_path dest_path : bytes) (remove_after_compress : bool) : bool * W :=
  let '(src, w1) := sys_open_read w (c_string src_path) in
  if src <? 0 then (false, w1)
  else
    let '(dst, w2) := gz_open w1 (c_string dest_path) in
    match dst with
    | None => (false, sys_close w2 src)
    | Some dst =>
      let '(ok, w3) := gz_loop w2 src dst (S (length (default [] (fd_in w2 src)))) in
      let w4 := sys_close (gz_close w3 dst) src in
      if negb ok then (false, w4)
      else (true, if remove_after_compress then (remove_file w4 src_path).2 else w4)
    end.

(** [TempFile] and [TempDir]. *)
Record Temp := { temp_path_ : bytes; valid_ : bool }.

Definition temp_file_new (w : W) (prefix data : bytes) (picks : list nat) : Temp * W :=
  let path := temp_path w prefix picks in
  let '(n, w1) := create_file w path in
  if n =? 0 then
    if decide (data = []) then ({| temp_path_ := path; valid_ := true |}, w1)
    else
      let '(k, w2) := write_file w1 path data in
      ({| temp_path_ := path; valid_ := k =? 0 |}, w2)
  else ({| temp_path_ := path; valid_ := false |}, w1).

Definition temp_file_delete (w : W) (t : Temp) : W :=
  if valid_ t then (remove_file w (temp_path_ t)).2 else w.

Definition temp_dir_new (w : W) (prefix : bytes) (picks : list nat) : Temp * W :=
  let path := temp_path w prefix picks in
  let '(n, w1) := create_directory w path in
  ({| temp_path_ := path; valid_ := n =? 0 |}, w1).

Definition temp_dir_delete (w : W) (t : Temp) : W :=
  if valid_ t then (remove_directory w (temp_path_ t)).2 else w.

End files.

(** [class File]. *)
Record File := { file_name_ : bytes; source_ : bytes; lines_ : list bytes }.

Definition file_of_source (enable_avx2 : bool) (file_name source : bytes) : File :=
  {| file_name_ := file_name; source_ := source; lines_ := read_lines enable_avx2 true source |}.

Definition file_load {W} {FS : FileSystem W} (enable_avx2 : bool) (w : W) (file_name : bytes) :
    File * W :=
  let '(source, w') := read_file w file_name in
  (file_of_source enable_avx2 file_name source, w').

(** [line] checks the number in debug builds only. *)
Definition file_line (is_debug : bool) (f : File) (line_no : Z) : option bytes :=
  if is_debug && ((line_no =? 0) || (lenZ (lines_ f) <? line_no)) then Some []
  else lines_ f !! Z.to_nat (line_no ⊖ 1).

(** * Properties *)

(** ** Lines *)

(** The lines of [rest] when the line being read starts with [cur]; a last line is kept unless it
    is empty. *)
Fixpoint lines_of (cur rest : bytes) : list bytes :=
  match rest with
  | [] => if decide (cur = []) then [] else [strip_cr cur]
  | c :: rest' => if decide (c = nl) then strip_cr cur :: lines_of [] rest' else lines_of (cur ++ [c]) rest'
  end.

Lemma find_char_Some s c n :
  find_char s c = Some n ->
  s = take n s ++ [c] ++ drop (n + 1) s /\ (c ∉ take n s) /\ (n < length s)%nat.
Proof.
  revert n. induction s as [|x s IH]; intros n; simpl; [done|]. case_decide; [subst|].
  - intros [= <-]. simpl. rewrite drop_0. split_and!; [done | set_solver | lia].
  - intros H'. destruct (find_char s c) as [k|] eqn:E; [|done]. injection H' as <-.
    destruct (IH k eq_refl) as (Hs & Hn & Hl). simpl. split_and!; [by f_equal | set_solver | lia].
Qed.

Lemma find_char_None s c : find_char s c = None -> c ∉ s.
Proof.
  induction s as [|x s IH]; simpl; [set_solver|]. case_decide; [done|].
  destruct (find_char s c); [done|]. set_solver.
Qed.

Lemma lines_of_app cur a rest :
  nl ∉ a -> lines_of cur (a ++ rest) = lines_of (cur ++ a) rest.
Proof.
  revert cur. induction a as [|c a IH]; intros cur H; simpl; [by rewrite app_nil_r|].
  rewrite decide_False by set_solver. rewrite IH by set_solver. by rewrite <- app_assoc.
Qed.

Lemma lines_of_nl cur rest : lines_of cur (nl :: rest) = strip_cr cur :: lines_of [] rest.
Proof. cbn [lines_of]. by rewrite decide_True. Qed.

Lemma default_loop_spec rest lines fuel :
  (length rest <= fuel)%nat -> default_loop rest lines fuel = lines ++ lines_of [] rest.
Proof.
  revert rest lines. induction fuel as [|fuel IH]; intros rest lines Hf.
  { destruct rest; simpl in Hf; [|lia]. by rewrite app_nil_r. }
  destruct rest as [|c rest]; [by rewrite app_nil_r|]. cbn [default_loop].
  remember (c :: rest) as s eqn:Hs. destruct (find_char s nl) as [n|] eqn:E.
  - apply find_char_Some in E as (Hsplit & Hnl & Hl).
    rewrite IH by (rewrite length_drop; lia). rewrite <- app_assoc. f_equal.
    rewrite Hsplit at 3. rewrite lines_of_app by done. cbn [app]. by rewrite lines_of_nl.
  - apply find_char_None in E. pose proof (lines_of_app [] s [] E) as Hl.
    rewrite app_nil_r in Hl. rewrite Hl. cbn [app lines_of]. case_decide; [by subst | done].
Qed.

(** The positions of the newlines of [rest], which starts at [pos]. *)
Fixpoint nl_pos (pos : nat) (rest : bytes) : list nat :=
  match rest with
  | [] => []
  | c :: rest' => if decide (c = nl) then pos :: nl_pos (S pos) rest' else nl_pos (S pos) rest'
  end.

Lemma nl_pos_app pos a b : nl_pos pos (a ++ b) = nl_pos pos a ++ nl_pos (pos + length a) b.
Proof.
  revert pos. induction a as [|c a IH]; intros pos; simpl; [by rewrite Nat.add_0_r|].
  rewrite IH. replace (S pos + length a)%nat with (pos + S (length a))%nat by lia.
  by case_decide.
Qed.

Lemma scalar_loop_spec rest pos positions :
  scalar_loop rest pos positions = positions ++ nl_pos pos rest.
Proof.
  revert pos positions. induction rest as [|c rest IH]; intros pos positions; simpl.
  - by rewrite app_nil_r.
  - rewrite IH. case_decide; [by rewrite <- app_assoc | done].
Qed.

(** *** The bit mask *)

Lemma movemask_range chunk : 0 <= movemask chunk < 2 ^ lenZ chunk.
Proof.
  induction chunk as [|c chunk IH]; [done|]. simpl. rewrite lenZ_cons, Z.pow_add_r by
    (pose proof (lenZ_nonneg chunk); lia). case_decide; lia.
Qed.

Lemma ctz_even m k : m <> 0 -> ctz (2 * m) (S k) = S (ctz m k).
Proof.
  intros _. cbn [ctz]. rewrite Z.odd_mul. simpl. by rewrite Z.mul_comm, Z.div_mul by lia.
Qed.

Lemma ctz_enough m k : 0 < m < 2 ^ Z.of_nat k -> ctz m (S k) = ctz m k.
Proof.
  revert m. induction k as [|k IH]; intros m Hm; [simpl in Hm; lia|].
  cbn [ctz] in IH |- *. destruct (Z.odd m) eqn:E; [done|]. f_equal.
  assert (exists h, m = 2 * h) as [h ->].
  { exists (m / 2). pose proof (Zmod_odd m). rewrite E in *.
    pose proof (Z_div_mod_eq_full m 2). lia. }
  rewrite (Z.mul_comm 2 h), Z.div_mul by lia. apply IH.
  rewrite Nat2Z.inj_succ, Z.pow_succ_r in Hm by lia. lia.
Qed.

Lemma land_even m : Z.land (2 * m) (2 * m - 1) = 2 * Z.land m (m - 1).
Proof.
  replace (2 * m - 1) with (2 * (m - 1) + 1) by lia. apply Z.bits_inj'. intros n Hn.
  destruct (decide (n = 0)) as [->|].
  - rewrite Z.land_spec. by rewrite !Z.testbit_even_0.
  - replace n with (Z.succ (n - 1)) by lia.
    rewrite Z.land_spec, !Z.testbit_even_succ, Z.testbit_odd_succ, Z.land_spec by lia. done.
Qed.

Lemma land_odd m : Z.land (2 * m + 1) (2 * m) = 2 * m.
Proof.
  apply Z.bits_inj'. intros n Hn. rewrite Z.land_spec. destruct (decide (n = 0)) as [->|].
  - by rewrite Z.testbit_even_0, andb_false_r.
  - replace n with (Z.succ (n - 1)) by lia.
    rewrite !Z.testbit_even_succ, Z.testbit_odd_succ by lia. apply andb_diag.
Qed.

Lemma land_range m k : 0 <= m < 2 ^ 31 -> 0 <= Z.land m k < 2 ^ 31.
Proof.
  intros Hm. rewrite <- (Z.mod_small m (2 ^ 31)) by lia.
  rewrite <- Z.land_ones by lia. rewrite <- Z.land_assoc, (Z.land_comm _ k), Z.land_assoc.
  rewrite Z.land_ones by lia. apply Z.mod_pos_bound. lia.
Qed.

(** A mask with its lowest bit clear is the mask of the bytes behind the first. *)
Lemma mask_loop_even m pos acc fuel :
  0 <= m < 2 ^ 31 -> mask_loop (2 * m) pos acc fuel = mask_loop m (S pos) acc fuel.
Proof.
  revert m acc. induction fuel as [|fuel IH]; intros m acc Hm; [done|]. cbn [mask_loop].
  destruct (decide (m = 0)) as [->|]; [done|].
  rewrite (proj2 (Z.eqb_neq (2 * m) 0)), (proj2 (Z.eqb_neq m 0)), land_even by lia.
  rewrite IH.
  - change 32%nat with (S 31). rewrite ctz_even by done. rewrite (ctz_enough m 31) by (simpl; lia).
    by replace (pos + S (ctz m 31))%nat with (S pos + ctz m 31)%nat by lia.
  - by apply land_range.
Qed.

Lemma mask_loop_spec chunk pos acc fuel :
  (length chunk <= fuel)%nat -> (length chunk <= 32)%nat ->
  mask_loop (movemask chunk) pos acc fuel = acc ++ nl_pos pos chunk.
Proof.
  revert pos acc fuel. induction chunk as [|c chunk IH]; intros pos acc fuel Hf Hl.
  { rewrite app_nil_r. by destruct fuel. }
  cbn [length] in Hf, Hl. pose proof (movemask_range chunk) as Hr.
  assert (2 ^ lenZ chunk <= 2 ^ 31) by (apply Z.pow_le_mono_r; unfold lenZ; lia).
  destruct fuel as [|fuel]; [lia|]. cbn [movemask nl_pos]. case_decide.
  - cbn [mask_loop]. rewrite (proj2 (Z.eqb_neq (1 + _) 0)) by lia.
    replace (1 + 2 * movemask chunk - 1) with (2 * movemask chunk) by lia.
    rewrite (Z.add_comm 1), land_odd, mask_loop_even, IH by lia.
    replace (ctz (2 * movemask chunk + 1) 32) with 0%nat by
      (cbn [ctz]; by rewrite Z.odd_add, Z.odd_mul).
    by rewrite <- app_assoc, Nat.add_0_r.
  - rewrite Z.add_0_l, mask_loop_even by lia. apply IH; lia.
Qed.

(** The chunks and then the bytes one by one find every newline. *)
Lemma chunk_loop_spec content pos positions fuel :
  (length content - pos < 32 * fuel)%nat -> (pos <= length content)%nat ->
  exists pos', chunk_loop content pos positions fuel =
      (positions ++ nl_pos pos (take (pos' - pos) (drop pos content)), pos') /\
    (pos <= pos' <= length content)%nat.
Proof.
  revert pos positions. induction fuel as [|fuel IH]; intros pos positions Hf Hp; [lia|].
  cbn [chunk_loop]. destruct (Nat.leb_spec (pos + 32) (length content)) as [Hc|Hc].
  - rewrite mask_loop_spec by (rewrite length_take; lia).
    edestruct (IH (pos + 32)%nat) as (pos' & -> & Hp'); [lia..|]. exists pos'. split; [|lia].
    f_equal. rewrite <- app_assoc. f_equal.
    replace (pos' - pos)%nat with (32 + (pos' - (pos + 32)))%nat by lia.
    rewrite <- (drop_drop content 32 pos) || rewrite <- drop_drop.
    rewrite <- (take_take_drop (drop pos content) 32), nl_pos_app, length_take, length_drop.
    by rewrite Nat.min_l by lia.
  - exists pos. rewrite Nat.sub_diag. simpl. rewrite app_nil_r. split; [done | lia].
Qed.

Lemma newline_positions_spec content : newline_positions content = nl_pos 0 content.
Proof.
  unfold newline_positions. case_decide as Hl; [|by rewrite scalar_loop_spec].
  destruct (chunk_loop_spec content 0 [] (length content)) as (p & E & Hp); [lia..|].
  rewrite E, scalar_loop_spec, Nat.sub_0_r, drop_0. cbn [app].
  rewrite <- (take_drop p content) at 3. rewrite nl_pos_app, length_take, Nat.min_l by lia. done.
Qed.

(** *** Cutting at the positions *)

Lemma slice_length content a b :
  (b <= length content)%nat -> length (slice content a b) = (b - a)%nat.
Proof. intros. unfold slice. rewrite length_take, length_drop. lia. Qed.

Lemma slice_empty content a : slice content a a = [].
Proof. unfold slice. by rewrite Nat.sub_diag. Qed.

Lemma slice_snoc content a p c rest :
  (a <= p)%nat -> drop p content = c :: rest -> slice content a (S p) = slice content a p ++ [c].
Proof.
  intros Ha Hd. unfold slice. replace (S p - a)%nat with (S (p - a)) by lia. apply take_S_r.
  rewrite lookup_drop. replace (a + (p - a))%nat with (p + 0)%nat by lia.
  by rewrite <- lookup_drop, Hd.
Qed.

Lemma cut_loop_spec content p ls lines :
  (ls <= p <= length content)%nat ->
  let r := cut_loop content (nl_pos p (drop p content)) ls lines in
  (if decide (r.2 < length content)%nat then r.1 ++ [strip_cr (slice content r.2 (length content))]
   else r.1) = lines ++ lines_of (slice content ls p) (drop p content).
Proof.
  remember (drop p content) as rest eqn:Hr. revert p ls lines Hr.
  induction rest as [|c rest IH]; intros p ls lines Hr Hp; cbn [nl_pos cut_loop lines_of].
  - assert (p = length content) as ->.
    { apply (f_equal length) in Hr. rewrite length_drop in Hr. simpl in Hr. lia. }
    cbn [fst snd]. case_decide as Hlt.
    + rewrite decide_False; [done|]. intros E%(f_equal length).
      rewrite slice_length in E by lia. simpl in E. lia.
    + replace ls with (length content) by lia. rewrite slice_empty, decide_True by done.
      by rewrite app_nil_r.
  - symmetry in Hr. assert (rest = drop (S p) content) as Hrest.
    { replace (S p) with (p + 1)%nat by lia. by rewrite <- drop_drop, Hr. }
    assert (S p <= length content)%nat.
    { apply (f_equal length) in Hr. rewrite length_drop in Hr. simpl in Hr. lia. }
    destruct (decide (c = nl)).
    + cbn [cut_loop]. rewrite Nat.add_1_r, IH by (done || lia).
      by rewrite slice_empty, <- app_assoc.
    + rewrite IH by (done || lia). by rewrite (slice_snoc _ _ _ c rest) by (done || lia).
Qed.

Lemma strip_cr_none l : cr ∉ l -> strip_cr l = l.
Proof.
  intros H'. unfold strip_cr. destruct (last l) as [c|] eqn:E; [|done].
  rewrite decide_False; [done|]. intros ->. apply H'.
  apply last_Some_elem_of in E. done.
Qed.

Lemma lines_of_concat cur content :
  cr ∉ cur -> cr ∉ content ->
  concat ((fun l => l ++ [nl]) <$> lines_of cur (content ++ [nl])) = cur ++ content ++ [nl].
Proof.
  revert cur. induction content as [|c content IH]; intros cur Hc Hs; cbn [lines_of app].
  - rewrite decide_True by done. cbn. by rewrite strip_cr_none, app_nil_r.
  - case_decide.
    + subst. csimpl. rewrite IH by set_solver. rewrite strip_cr_none by done.
      by rewrite <- app_assoc.
    + rewrite IH by set_solver. by rewrite <- app_assoc.
Qed.

Lemma read_lines_default_spec content : read_lines_default content = lines_of [] content.
Proof.
  unfold read_lines_default. case_decide; [by subst|]. by apply (default_loop_spec _ []).
Qed.

Lemma read_lines_avx2_spec content : read_lines_with_avx2 content = lines_of [] content.
Proof.
  unfold read_lines_with_avx2. case_decide; [by subst|].
  pose proof (cut_loop_spec content 0 0 [] ltac:(lia)) as H'. cbv zeta in H'.
  rewrite drop_0, slice_empty in H'. rewrite newline_positions_spec.
  destruct (cut_loop content (nl_pos 0 content) 0 []) as [L s]. exact H'.
Qed.

(** C28. [read_lines] gives the same lines in a build with AVX2 and in one without, whatever the
    content: cutting at the newlines that the 32-byte chunks, the bit mask and the scalar tail find
    is scanning for them one by one. Joined with newlines again the lines are the content when it
    holds no carriage return and ends with a newline. *)
Theorem read_lines_agree avx2 use content :
  read_lines avx2 use content = read_lines_default content /\
  (cr ∉ content -> concat ((fun l => l ++ [nl]) <$> read_lines avx2 use (content ++ [nl])) =
     content ++ [nl]).
Proof.
  assert (forall c, read_lines avx2 use c = lines_of [] c) as Hs.
  { intros c. unfold read_lines. destruct (avx2 && use).
    - apply read_lines_avx2_spec. - apply read_lines_default_spec. }
  rewrite !Hs, read_lines_default_spec. split; [done|]. intros Hcr.
  apply (lines_of_concat [] content); set_solver.
Qed.

(** ** Paths *)

Lemma find_last_of_none s c : c ∉ s -> find_last_of s c = None.
Proof.
  induction s as [|x s IH]; [done|]. intros H'. cbn [find_last_of].
  rewrite IH, decide_False by set_solver. done.
Qed.

Lemma find_last_of_app a b c :
  find_last_of (a ++ b) c =
  match find_last_of b c with Some i => Some (length a + i)%nat | None => find_last_of a c end.
Proof.
  induction a as [|x a IH]; [simpl; by destruct (find_last_of b c)|].
  cbn [find_last_of app length]. rewrite IH. by destruct (find_last_of b c).
Qed.

Lemma find_last_of_lt s c i : find_last_of s c = Some i -> (i < length s)%nat.
Proof.
  revert i. induction s as [|x s IH]; intros i; cbn [find_last_of length]; [done|].
  destruct (find_last_of s c) as [k|]; [intros [= <-]; specialize (IH k eq_refl); lia|].
  case_decide; intros [= <-]; lia.
Qed.

Lemma find_last_of_mid a b c : c ∉ b -> find_last_of (a ++ [c] ++ b) c = Some (length a).
Proof.
  intros H'. rewrite !find_last_of_app, (find_last_of_none b) by done. cbn [find_last_of].
  by rewrite decide_True, Nat.add_0_r.
Qed.

(** What comes before the last component: nothing, or a directory and its separator. *)
Definition dir_part (dir : option bytes) : bytes :=
  match dir with None => [] | Some d => d ++ [sep] end.

Lemma last_slash_of dir name :
  sep ∉ name -> find_last_of (dir_part dir ++ name) sep = length <$> dir.
Proof.
  intros H'. destruct dir as [d|]; simpl; [|by apply find_last_of_none].
  rewrite <- app_assoc. by apply find_last_of_mid.
Qed.

Lemma drop_dir_part (dir : option bytes) name k :
  drop (length (dir_part dir) + k) (dir_part dir ++ name) = drop k name.
Proof. apply drop_app_add. Qed.

Lemma dir_part_length dir : length (dir_part dir) = match dir with None => 0%nat | Some d => (length d + 1)%nat end.
Proof. destruct dir as [d|]; simpl; [by rewrite length_app|done]. Qed.

Lemma file_name_extension dir stem ext :
  sep ∉ stem -> sep ∉ ext -> stem <> [] -> dot ∉ ext ->
  let path := dir_part dir ++ stem ++ [dot] ++ ext in
  file_name_without_extension path = stem /\ file_extension path = ext.
Proof.
  intros Hs He Hne Hd path.
  assert (sep ∉ stem ++ [dot] ++ ext) as Hname.
  { rewrite !not_elem_of_app. split_and!; [done | by apply not_elem_of_cons; split; [|set_solver] | done]. }
  assert (find_last_of path dot = Some (length (dir_part dir) + length stem)%nat) as Hdot.
  { unfold path. rewrite find_last_of_app, find_last_of_mid by done. done. }
  pose proof (last_slash_of dir _ Hname) as Hslash. fold path in Hslash.
  assert (0 < length stem)%nat by (destruct stem; simpl; [done|lia]).
  unfold file_name_without_extension, file_extension. rewrite Hdot, Hslash.
  assert (no_extension (length <$> dir) (Some (length (dir_part dir) + length stem)%nat) = false) as ->.
  { rewrite dir_part_length. destruct dir as [d|]; cbn [fmap option_fmap option_map no_extension];
      repeat (apply orb_false_iff; split); apply Nat.ltb_ge || apply Nat.eqb_neq; lia. }
  unfold path. rewrite <- Nat.add_assoc, drop_dir_part. split.
  - pose proof (dir_part_length dir) as Hl. destruct dir as [d|]; cbn [fmap option_fmap option_map from_option id dir_part] in *.
    + rewrite drop_app_length' by done.
      replace (length (d ++ [sep]) + length stem - (length d + 1))%nat with (length stem) by lia.
      apply take_app_length.
    + simpl. apply take_app_length.
  - rewrite app_assoc, drop_app, drop_ge by (rewrite length_app; simpl; lia).
    rewrite length_app. simpl. by rewrite Nat.sub_diag.
Qed.

Lemma file_name_plain dir name :
  sep ∉ name -> (dot ∉ name \/ exists rest, name = dot :: rest /\ dot ∉ rest) ->
  let path := dir_part dir ++ name in
  file_name_without_extension path = name /\ file_extension path = [].
Proof.
  intros Hs Hn path. pose proof (last_slash_of dir name Hs) as Hslash. fold path in Hslash.
  assert (no_extension (length <$> dir) (find_last_of path dot) = true) as Hno.
  { unfold path. rewrite find_last_of_app. destruct Hn as [Hn | (rest & -> & Hr)].
    - rewrite find_last_of_none by done. destruct dir as [d|]; [|done]. cbn [dir_part].
      rewrite find_last_of_app. cbn [find_last_of]. rewrite decide_False by done.
      destruct (find_last_of d dot) as [i|] eqn:E; [|done]. apply find_last_of_lt in E.
      cbn [fmap option_fmap option_map no_extension].
      by rewrite (proj2 (Nat.ltb_lt _ _)) by lia.
    - change (dot :: rest) with ([] ++ [dot] ++ rest).
      rewrite (find_last_of_mid [] rest) by done. cbn [length]. rewrite dir_part_length, Nat.add_0_r.
      destruct dir as [d|]; [|done]. cbn [fmap option_fmap option_map no_extension].
      by rewrite Nat.eqb_refl, !orb_true_r. }
  unfold file_name_without_extension, file_extension. rewrite Hslash, Hno. split.
  - pose proof (dir_part_length dir) as Hl. destruct dir as [d|]; [|done].
    cbn [fmap option_fmap option_map]. unfold path.
    by apply drop_app_length'.
  - destruct (find_last_of path dot) as [i|]; [|done]. by rewrite Hno.
Qed.

Lemma c_string_id s : Byte.x00 ∉ s -> c_string s = s.
Proof.
  induction s as [|c s IH]; [done|]. intros H'. cbn [c_string].
  rewrite decide_False by set_solver. f_equal. apply IH. set_solver.
Qed.

Lemma sanitize_clean part is_first :
  Byte.x00 ∉ part -> (is_first = true \/ head part <> Some sep) -> last part <> Some sep ->
  sanitize_component part is_first = part.
Proof.
  intros Hz Hh Hl. unfold sanitize_component. rewrite c_string_id by done.
  assert (match part with
    | [] => part
    | c :: rest => if negb is_first && bool_decide (c = sep) then rest else part end = part) as ->.
  { destruct part as [|c rest]; [done|]. destruct Hh as [->|Hh]; [done|].
    rewrite bool_decide_false, andb_false_r by (intros ->; done). done. }
  destruct (last part) as [c|]; [|done]. rewrite decide_False; [done|]. by intros ->.
Qed.

(** A directory and a name that need no cleaning. *)
Lemma join_path_clean dir name :
  Byte.x00 ∉ dir -> Byte.x00 ∉ name -> dir <> [] -> last dir <> Some sep -> name <> [] ->
  head name <> Some sep -> last name <> Some sep ->
  join_path [dir; name] = dir ++ [sep] ++ name.
Proof.
  intros. unfold join_path. cbn [fold_left]. unfold join_part at 2.
  rewrite sanitize_clean, decide_False by auto. cbn [app]. unfold join_part.
  rewrite sanitize_clean, decide_False by auto. cbn [fst]. by rewrite <- app_assoc.
Qed.

(** Path functions. A path is a directory and a last component [name]: [parent_dir] and
    [base_name] give the two, [file_name_without_extension] and [file_extension] cut [name] at its
    last dot, unless the name has no dot or only a leading one; then it has no extension, whatever
    dots the directory has. Joining the directory and the name gives the path back. Without a
    separator [base_name] gives nothing, where the others give the name. *)
Theorem path_functions dir name :
  sep ∉ name ->
  parent_dir (dir ++ [sep] ++ name) = dir /\ base_name (dir ++ [sep] ++ name) = name /\
  parent_dir name = [] /\ base_name name = [] /\
  (Byte.x00 ∉ dir ++ name -> dir <> [] -> last dir <> Some sep -> name <> [] ->
    join_path [dir; name] = dir ++ [sep] ++ name) /\
  forall path, path = dir ++ [sep] ++ name \/ path = name ->
    (forall stem ext, name = stem ++ [dot] ++ ext -> stem <> [] -> dot ∉ ext ->
      file_name_without_extension path = stem /\ file_extension path = ext) /\
    (dot ∉ name \/ (exists rest, name = dot :: rest /\ dot ∉ rest) ->
      file_name_without_extension path = name /\ file_extension path = []).
Proof.
  intros Hs. unfold parent_dir, base_name. rewrite find_last_of_mid, find_last_of_none by done.
  rewrite take_app_length. split_and!; try done.
  - rewrite app_assoc, drop_app, drop_ge by (rewrite length_app; simpl; lia).
    rewrite length_app. simpl. by rewrite Nat.sub_diag.
  - rewrite not_elem_of_app. intros [? ?] ? ? ?. apply join_path_clean; try done.
    + destruct name; [done|]. intros [= ->]. set_solver.
    + intros E%last_Some_elem_of. done.
  - intros path Hp. assert (exists d, path = dir_part d ++ name) as [d ->].
    { destruct Hp as [->| ->]; [exists (Some dir) | exists None]; [|done].
      cbn [dir_part]. by rewrite <- app_assoc. }
    split; [|by apply file_name_plain]. intros stem ext -> Hst Hd.
    rewrite !not_elem_of_app in Hs. destruct Hs as (? & _ & ?). by apply file_name_extension.
Qed.

(** ** Files and directories *)

Section file_laws.
Context {W : Type} {FS : FileSystem W} {FSL : FileSystemLaws W}.

(** The system takes at least one byte of every write to an open file, and gives at least one of
    every read before the end. *)
Definition writes_progress : Prop :=
  forall w fd data n w' path,
    sys_write w fd data = (n, w') -> fd_out w fd = Some path -> data <> [] -> 0 < n.

Definition reads_progress : Prop :=
  forall w fd n r w' rest,
    sys_read w fd n = (r, w') -> fd_in w fd = Some rest -> rest <> [] -> 0 < n -> default [] r <> [].

Lemma write_loop_spec data fuel w fd path c ok w' :
  fd_out w fd = Some path -> content w path = Some c -> (length data <= fuel)%nat ->
  write_loop w fd data fuel = (ok, w') ->
  (ok = true -> content w' path = Some (c ++ data)) /\ (writes_progress -> ok = true).
Proof.
  revert data w c. induction fuel as [|fuel IH]; intros data w c Hfd Hc Hf; simpl;
    (destruct data as [|x data]; [intros [= <- <-]; by rewrite app_nil_r|]).
  { simpl in Hf. lia. }
  remember (x :: data) as d eqn:Hd. destruct (sys_write w fd d) as [n w1] eqn:E.
  destruct (write_law _ _ _ _ _ _ _ E Hfd Hc) as (Hn & Hc1 & Hfd1).
  destruct (Z.leb_spec n 0) as [Hle|Hgt].
  - intros [= <- <-]. split; [done|]. intros Hp. pose proof (Hp _ _ _ _ _ _ E Hfd ltac:(by subst)). lia.
  - intros Hw. apply (IH _ _ _ Hfd1 Hc1) in Hw; [|rewrite length_drop; lia].
    by rewrite <- app_assoc, take_drop in Hw.
Qed.

Lemma write_file_spec w path data r w' :
  write_file w path data = (r, w') ->
  (r = 0 -> content w' (c_string path) = Some data) /\
  (writes_progress -> 0 <= (sys_open_trunc w (c_string path)).1 -> r = 0).
Proof.
  unfold write_file. destruct (sys_open_trunc w (c_string path)) as [fd w1] eqn:E. cbn [fst].
  destruct (Z.ltb_spec fd 0); [intros [= <- <-]; split; [done | lia]|].
  destruct (open_trunc_law _ _ _ _ E) as [Hc Hfd]; [done|].
  destruct (write_loop w1 fd data (length data)) as [ok w2] eqn:Ew. intros [= <- <-].
  apply (write_loop_spec _ _ _ _ _ _ _ _ Hfd Hc) in Ew as [Hok Hp]; [|done].
  rewrite close_law. split; [|intros Hw _; by rewrite Hp].
  destruct ok; [intros _; by apply Hok | done].
Qed.

Lemma read_loop_spec fuel w fd all got rest s w' :
  fd_in w fd = Some rest -> all = got ++ rest -> (length rest <= fuel)%nat ->
  read_loop w fd (lenZ all) got fuel = (s, w') ->
  (exists left, all = s ++ left) /\ (reads_progress -> s = all).
Proof.
  revert w got rest. induction fuel as [|fuel IH]; intros w got rest Hfd Hall Hf.
  { destruct rest; simpl in Hf; [|lia]. intros [= <- <-]. rewrite app_nil_r in Hall. subst.
    split; [|done]. exists []. by rewrite app_nil_r. }
  cbn [read_loop]. destruct (Z.ltb_spec (lenZ got) (lenZ all)) as [Hlt|Hge].
  - destruct (sys_read w fd (lenZ all - lenZ got)) as [r w1] eqn:E.
    destruct (read_law w fd (lenZ all - lenZ got) r w1 rest ltac:(lia) E Hfd) as (Hn & rest' & Hr & Hfd1).
    assert (rest <> []) by (intros Hnil; rewrite Hall, Hnil, app_nil_r in Hlt; lia).
    destruct (default [] r) as [|x d] eqn:Hd.
    + intros [= <- <-]. split; [eauto|]. intros Hp.
      by destruct (Hp _ _ _ _ _ _ E Hfd ltac:(done) ltac:(lia)).
    + apply (IH _ _ _ Hfd1).
      * by rewrite Hall, Hr, <- app_assoc.
      * rewrite Hr, length_app in Hf. simpl in Hf. lia.
  - intros [= <- <-]. subst all. rewrite lenZ_app in Hge.
    rewrite (lenZ_zero_inv rest ltac:(pose proof (lenZ_nonneg rest); lia)), app_nil_r.
    split; [|done]. exists []. by rewrite app_nil_r.
Qed.

Lemma read_file_spec w path c s w' :
  content w (c_string path) = Some c -> read_file w path = (s, w') ->
  (exists left, c = s ++ left) /\
  (reads_progress -> 0 <= (sys_open_read w (c_string path)).1 -> s = c).
Proof.
  intros Hc. unfold read_file. destruct (sys_open_read w (c_string path)) as [fd w1] eqn:E.
  cbn [fst]. destruct (Z.ltb_spec fd 0); [intros [= <- <-]; split; [eauto | lia]|].
  destruct (open_read_law _ _ _ _ _ E ltac:(done) Hc) as (_ & Hfd & ->).
  destruct (Z.ltb_spec 0 (lenZ c)).
  - destruct (read_loop w1 fd (lenZ c) [] (Z.to_nat (lenZ c))) as [contents w2] eqn:Er.
    intros [= <- <-]. apply (read_loop_spec _ _ _ c [] c _ _ Hfd) in Er as [? Hp]; auto.
    unfold lenZ. lia.
  - intros [= <- <-]. pose proof (lenZ_nonneg c).
    rewrite (lenZ_zero_inv c) by lia. split; [by exists [] | done].
Qed.

(** C29. What [write_file] reports as written is what the file holds, although the system may take
    a write in pieces, and [read_file] gives back a beginning of it: all of it when the file can be
    opened and no read fails before the end. The write succeeds when the file can be opened and
    every write takes at least one byte; the loops then end by themselves. *)
Theorem file_roundtrip w path data r w1 s w2 :
  write_file w path data = (r, w1) -> read_file w1 path = (s, w2) ->
  (writes_progress -> 0 <= (sys_open_trunc w (c_string path)).1 -> r = 0) /\
  (r = 0 -> (exists left, data = s ++ left) /\
    (reads_progress -> 0 <= (sys_open_read w1 (c_string path)).1 -> s = data)).
Proof.
  intros Hw Hr. apply write_file_spec in Hw as [Hc Hp]. split; [done|]. intros H0.
  apply Hc in H0. by apply (read_file_spec _ _ _ _ _ H0 Hr).
Qed.

(** *** Directories *)

(** Nothing but directories is where these are to be. *)
Definition clear_way (w : W) (dirs : list bytes) : Prop :=
  Forall (fun d => sys_stat w (c_string d) = None \/ sys_stat w (c_string d) = Some Directory) dirs.

Lemma create_directory_spec w dir n w' :
  create_directory w dir = (n, w') ->
  (n = 0 -> sys_stat w (c_string dir) = None -> dir_exists w' dir = true) /\ (n = 0 \/ n = -1) /\
  (forall d, dir_exists w d = true -> dir_exists w' d = true) /\
  (forall dirs, clear_way w dirs -> clear_way w' dirs).
Proof.
  unfold create_directory, dir_exists. destruct (sys_mkdir w (c_string dir)) as [k w1] eqn:E.
  intros [= <- <-]. split_and!.
  - intros Hn Hnone. apply bool_decide_eq_true.
    destruct (Z.eqb_spec k 0) as [->|]; [by eapply mkdir_law|].
    destruct (Z.eqb_spec k (- kEEXIST)) as [->|]; [by destruct (mkdir_exists _ _ _ E) | done].
  - destruct ((k =? 0) || (k =? - kEEXIST)); auto.
  - intros d Hd%bool_decide_eq_true. apply bool_decide_eq_true.
    destruct (mkdir_only _ _ _ _ (c_string d) E); congruence.
  - intros dirs. unfold clear_way. rewrite !Forall_forall. intros Hd d Hin. specialize (Hd d Hin).
    destruct (mkdir_only _ _ _ _ (c_string d) E) as [-> | ->]; auto.
Qed.

Lemma make_dirs_spec dirs w result k w' :
  make_dirs w dirs result = (k, w') ->
  result <= k /\ (forall d, dir_exists w d = true -> dir_exists w' d = true) /\
  (k = result -> clear_way w dirs -> Forall (fun d => d <> [] -> dir_exists w' d = true) dirs).
Proof.
  revert w result. induction dirs as [|dir dirs IH]; intros w result; cbn [make_dirs].
  { intros [= <- <-]. split_and!; [lia | done | constructor]. }
  destruct (bool_decide (dir ≠ []) && negb (dir_exists w dir)) eqn:Eb.
  - destruct (create_directory w dir) as [n w1] eqn:E. intros Hm.
    apply create_directory_spec in E as (Hn & Hnn & Hk & Hway). apply IH in Hm as (Hle & Hkeep & Hall).
    apply andb_true_iff in Eb as [_ Eb%negb_true_iff].
    destruct (Z.eqb_spec n 0) as [->|]; split_and!; auto; try lia.
    intros Hr [Hd Hclear]%Forall_cons. constructor; [|auto]. intros _. apply Hkeep, Hn; [done|].
    destruct Hd as [Hd|Hd]; [done|]. unfold dir_exists in Eb. by rewrite bool_decide_true in Eb.
  - intros Hm. apply IH in Hm as (Hle & Hkeep & Hall). split_and!; auto.
    intros Hr [_ Hclear]%Forall_cons. constructor; [|auto]. intros Hne. apply Hkeep.
    rewrite bool_decide_true in Eb by done. by apply negb_false_iff in Eb.
Qed.

Lemma dir_prefixes_visits path pos fuel pre post :
  path = pre ++ [sep] ++ post -> (pos <= length pre)%nat -> (length path - pos <= fuel)%nat ->
  pre ∈ dir_prefixes path pos fuel.
Proof.
  intros Hpath. assert (length path = length pre + S (length post))%nat as Hl
    by (subst; rewrite !length_app; simpl; lia).
  revert pos. induction fuel as [|fuel IH]; intros pos Hp Hf; [lia|].
  cbn [dir_prefixes]. rewrite decide_True by lia.
  destruct (find_char (drop pos path) sep) as [n|] eqn:E.
  - apply find_char_Some in E as (Hs & Hn & Hlt). rewrite length_drop in Hlt.
    destruct (decide (pos + n < length pre)%nat).
    + apply elem_of_cons. right. apply IH; lia.
    + apply elem_of_cons. left. destruct (decide (pos + n = length pre)%nat) as [->|].
      * subst. by rewrite take_app_length.
      * destruct Hn. apply list_elem_of_lookup. exists (length pre - pos)%nat.
        rewrite lookup_take, decide_True, lookup_drop by lia. subst path.
        replace (pos + (length pre - pos))%nat with (length pre) by lia.
        by apply list_lookup_middle.
  - apply find_char_None in E. destruct E. subst path.
    rewrite drop_app_le by lia. apply elem_of_app. right. by left.
Qed.

Lemma dir_prefixes_last path pos fuel :
  (pos <= length path)%nat -> last path <> Some sep -> drop pos path <> [] \/ (pos = 0%nat /\ path <> []) ->
  (length path - pos <= fuel)%nat -> path ∈ dir_prefixes path pos fuel.
Proof.
  intros Hp Hlast Hne Hf.
  assert (pos < length path)%nat as Hlt.
  { destruct Hne as [Hne|[-> Hne]]; [|destruct path; simpl; [done|lia]].
    destruct (decide (pos < length path)%nat); [done|]. by rewrite drop_ge in Hne by lia. }
  clear Hp Hne. revert pos Hlt Hf. induction fuel as [|fuel IH]; intros pos Hlt Hf; [lia|].
  cbn [dir_prefixes]. rewrite decide_True by done.
  destruct (find_char (drop pos path) sep) as [n|] eqn:E; [|by left].
  apply find_char_Some in E as (Hs & _ & Hn). rewrite length_drop in Hn. right.
  apply IH; [|lia]. destruct (decide (pos + n + 1 < length path)%nat); [done|]. destruct Hlast.
  rewrite <- (take_drop pos path), Hs, (drop_ge (drop pos path)) by (rewrite length_drop; lia).
  by rewrite app_nil_r, app_assoc, last_snoc.
Qed.

(** [create_directories] makes every directory on the path. When it reports no failure, and
    no [mkdir] met anything but a directory, the path itself and each beginning of it that ends
    before a separator are directories; directories that were there stay. The result is never
    negative. *)
Theorem create_directories_makes_all w path k w' :
  create_directories w path = (k, w') ->
  let p := sanitize_component path true in
  0 <= k /\ (forall d, dir_exists w d = true -> dir_exists w' d = true) /\
  (k = 0 -> clear_way w (dir_prefixes p 0 (length p)) ->
    (forall pre post, p = pre ++ [sep] ++ post -> pre <> [] -> dir_exists w' pre = true) /\
    (p <> [] -> last p <> Some sep -> dir_exists w' p = true)).
Proof.
  intros Hc p. apply make_dirs_spec in Hc as (Hle & Hkeep & Hall). split_and!; [done..|].
  intros Hk Hclear. specialize (Hall Hk Hclear). rewrite Forall_forall in Hall. split.
  - intros pre post Hp Hne. apply Hall; [|done]. fold p. eapply dir_prefixes_visits; [done|lia..].
  - intros Hne Hl. apply Hall; [|done]. apply dir_prefixes_last; auto with lia.
Qed.

End file_laws.

(** ** Witnesses *)

(** Two bytes at a time. *)
#[local] Instance piecewise : FileSystem MemFs := mem_fs (Nat.min 2).
#[local] Instance piecewise_laws : FileSystemLaws MemFs := mem_fs_laws _.

Definition small_fs : MemFs :=
  {| mf_nodes := []; mf_out := []; mf_in := []; mf_next := 3 |}.

Lemma read_lines_agree_witness :
  (cr ∉ bs "ab") /\
  concat ((fun l => l ++ [nl]) <$> read_lines true true (bs "ab" ++ [nl])) = bs "ab" ++ [nl].
Proof.
  assert (cr ∉ bs "ab") as H' by (by apply (bool_decide_unpack _); vm_compute).
  split; [done|]. by apply (read_lines_agree true true (bs "ab")).
Defined.

Lemma path_functions_witness :
  (sep ∉ bs "c.txt") /\ parent_dir (bs "a.b" ++ [sep] ++ bs "c.txt") = bs "a.b".
Proof.
  assert (sep ∉ bs "c.txt") as H' by (by apply (bool_decide_unpack _); vm_compute).
  split; [done|]. by apply (path_functions (bs "a.b") (bs "c.txt")).
Defined.

Lemma piecewise_writes : writes_progress.
Proof. intros w fd data n w' path. apply mem_write_progress. lia. Qed.

Lemma piecewise_reads : reads_progress.
Proof. intros w fd n r w' rest. apply mem_read_progress. lia. Qed.

Lemma file_roundtrip_witness :
  exists r w1 s w2, write_file small_fs (bs "f") (bs "hello") = (r, w1) /\
    read_file w1 (bs "f") = (s, w2) /\ r = 0 /\ s = bs "hello".
Proof.
  eexists _, _, _, _. split; [vm_compute; reflexivity|]. split; [vm_compute; reflexivity|].
  split; [done|].
  eapply (file_roundtrip small_fs (bs "f") (bs "hello"));
    [vm_compute; reflexivity..| done | exact piecewise_reads | vm_compute; discriminate].
Defined.

Lemma create_directories_makes_all_witness :
  exists w', create_directories small_fs (bs "a/b/") = (0, w') /\ 0 <= 0 /\
    dir_exists w' (bs "a") = true /\ dir_exists w' (bs "a/b") = true.
Proof.
  eexists. split; [vm_compute; reflexivity|].
  split; [|split; vm_compute; reflexivity].
  eapply (create_directories_makes_all small_fs (bs "a/b/")). vm_compute. reflexivity.
Defined.

