(* ===== verification/LogFile.v ===== *)
(** * Opening a log file

    What the constructors of [FileSink] and [JsonLinesSink] do before they have a descriptor
    (src/src/include/femtolog/sinks/file_sink.h and json_lines_sink.h), and [format_timestamp] of
    sink_base.h: the directory is made, a file that is there is compressed under a name that is
    free, and a new one is opened. The text of a time comes from fmt and localtime: it is the
    parameter [time_text]. *)

From stdpp Require Import pretty.
From S2P Require Import Prelude FileSystem FileUtil.

(** [std::to_string] of an [int] that is not negative. *)
Definition to_string (n : nat) : bytes := bs (pretty (N.of_nat n)).

Definition kTimestampBufSize : Z := 32.

(** [char timestamp_buf[kTimestampBufSize]]; its bytes are written before they are read. *)
Definition timestamp_buf : bytes := replicate (Z.to_nat kTimestampBufSize) Byte.x00.

(** The patterns of the times: in a line and in the name of a compressed file. *)
Definition line_time_format : bytes := bs "[{:%H:%M:%S}.{:09d}] ".
Definition name_time_format : bytes := bs "{:%Y-%m-%d_%H-%M-%S}".

Section log_file.
Context {W : Type} {FS : FileSystem W}.
Context (time_text : bytes -> Z -> bytes).

(** [format_timestamp] into the object [buf] of [buf_size] bytes: the object and the length. *)
Definition format_timestamp (fmt : bytes) (time_ns : Z) (buf : bytes) (buf_size : Z) :
    option (bytes * Z) :=
  let text := time_text fmt time_ns in
  buf1 ← mem_store buf 0 (take (Z.to_nat buf_size) text);
  if buf_size - 1 <? lenZ text then Some (buf1, lenZ text)
  else buf2 ← mem_store buf1 (lenZ text) [Byte.x00]; Some (buf2, lenZ text).

(** ** Opening a log file *)

Definition compressed_file_name (stem timestamp extension : bytes) (counter : nat) : bytes :=
  stem ++ bs "_" ++ timestamp ++
  (if (0 <? counter)%nat then bs "-" ++ to_string counter else []) ++
  bs "." ++ extension ++ bs ".gz".

(** [do ... while (file_exists(dest_path))]. *)
Fixpoint rotation_loop (w : W) (parent stem timestamp extension : bytes) (counter fuel : nat) :
    option bytes :=
  match fuel with
  | O => None
  | S fuel' =>
    let dest_path := join_path [parent; compressed_file_name stem timestamp extension counter] in
    if file_exists w dest_path
    then rotation_loop w parent stem timestamp extension (S counter) fuel' else Some dest_path
  end.

(** The constructors of [FileSink] and [JsonLinesSink] up to the descriptor: [now] is the reading
    of the clock. *)
Definition open_log (w : W) (file_path : bytes) (now : Z) (fuel : nat) : option (Z * W) :=
  let parent := parent_dir file_path in
  let w1 := if dir_exists w parent then w else (create_directories w parent).2 in
  w2 ← if file_exists w1 file_path then
    '(buf, n) ← format_timestamp name_time_format now timestamp_buf kTimestampBufSize;
    timestamp ← mem_load buf 0 n;
    dest_path ← rotation_loop w1 parent (file_name_without_extension file_path) timestamp
      (file_extension file_path) 0 fuel;
    Some (compress w1 file_path dest_path true).2
  else Some w1;
  let w3 := (create_file w2 file_path).2 in
  Some (sys_open_append w3 (c_string file_path)).

(** * Properties *)

(** ** Times *)

(** The times of the two patterns have 21 and 19 characters until the year 9999. *)
Definition times_fit : Prop :=
  forall fmt t, fmt ∈ [line_time_format; name_time_format] -> lenZ (time_text fmt t) < kTimestampBufSize.

Lemma format_timestamp_ok fmt t :
  lenZ (time_text fmt t) < kTimestampBufSize ->
  exists buf, format_timestamp fmt t timestamp_buf kTimestampBufSize = Some (buf, lenZ (time_text fmt t)) /\
    mem_load buf 0 (lenZ (time_text fmt t)) = Some (time_text fmt t).
Proof.
  intros Hl. unfold format_timestamp. set (text := time_text fmt t) in *.
  assert (lenZ timestamp_buf = kTimestampBufSize) as Hb by done.
  rewrite take_ge by (unfold lenZ in Hl; lia).
  destruct (mem_store timestamp_buf 0 text) as [buf1|] eqn:E.
  2: { rewrite mem_store_spec in E by lia. done. }
  pose proof (mem_store_length _ _ _ _ E) as Hl1. cbn [mbind option_bind].
  rewrite (proj2 (Z.ltb_ge _ _)) by lia.
  assert (lenZ buf1 = kTimestampBufSize) as Hb1 by (unfold lenZ in *; congruence).
  destruct (mem_store buf1 (lenZ text) [Byte.x00]) as [buf2|] eqn:E2.
  2: { rewrite mem_store_spec in E2 by (rewrite ?lenZ_cons, ?lenZ_nil; pose proof (lenZ_nonneg text); lia). done. }
  cbn [mbind option_bind]. exists buf2. split; [done|].
  rewrite (mem_load_store_other _ _ _ _ 0 (lenZ text) E2) by lia.
  by apply (mem_load_store_same _ _ _ _ E).
Qed.

(** ** Free names *)

Lemma bs_inj a b : bs a = bs b -> a = b.
Proof.
  unfold bs. intros H%(f_equal String.string_of_list_byte).
  by rewrite !String.string_of_list_byte_of_string in H.
Qed.

Lemma bs_cons a s : bs (String a s) = Strings.Ascii.byte_of_ascii a :: bs s.
Proof. done. Qed.

Lemma digits_only c x s :
  c ∉ bs "0123456789" -> c ∉ bs s -> c ∉ bs (pretty_N_go x s).
Proof.
  intros Hc. revert s. induction (N.lt_wf_0 x) as [x _ IH]; intros s Hs.
  destruct (decide (x = 0%N)) as [->|Hx]; [by rewrite pretty_N_go_0|].
  rewrite pretty_N_go_step by lia. apply IH; [by apply N.div_lt; lia|].
  rewrite bs_cons, not_elem_of_cons. split; [|done]. intros ->. apply Hc.
  unfold pretty_N_char. repeat case_match; by apply (bool_decide_unpack _); vm_compute.
Qed.

Lemma to_string_digits c n : c ∉ bs "0123456789" -> c ∉ to_string n.
Proof.
  intros Hc. unfold to_string, pretty, pretty_N. case_decide.
  - intros Hin. apply Hc. apply list_elem_of_singleton in Hin as ->.
    by apply (bool_decide_unpack _); vm_compute.
  - apply digits_only; [done|]. apply not_elem_of_nil.
Qed.

Lemma to_string_inj n m : to_string n = to_string m -> n = m.
Proof. unfold to_string. intros E%bs_inj. apply (inj pretty) in E. lia. Qed.

(** What is left of a component when it is cleaned was in it, and is no NUL. *)
Lemma c_string_elem c s : c ∈ c_string s -> c ∈ s /\ c <> Byte.x00.
Proof.
  induction s as [|x s IH]; cbn [c_string]; [set_solver|]. case_decide; set_solver.
Qed.

Lemma sanitize_elem c part is_first :
  c ∈ sanitize_component part is_first -> c ∈ part /\ c <> Byte.x00.
Proof.
  intros Hc. apply c_string_elem. unfold sanitize_component in Hc.
  set (r := match c_string part with
    | [] => c_string part
    | x :: rest => if negb is_first && bool_decide (x = sep) then rest else c_string part end) in *.
  assert (forall d, d ∈ r -> d ∈ c_string part) as Hr.
  { intros d. unfold r. destruct (c_string part) as [|x rest]; [done|].
    destruct (_ && _); [|done]. set_solver. }
  apply Hr. destruct (last r) as [x|]; [|done]. case_decide; [|done].
  by apply elem_of_take in Hc as (i & Hi & _); apply list_elem_of_lookup_2 in Hi.
Qed.

(** A clean name behind any directory. *)
Lemma join_path_name parent name :
  Byte.x00 ∉ name -> name <> [] -> head name <> Some sep -> last name <> Some sep ->
  join_path [parent; name] =
    (if decide (sanitize_component parent true = []) then []
     else sanitize_component parent true ++ [sep]) ++ name.
Proof.
  intros Hz Hne Hh Hl. unfold join_path. cbn [fold_left]. unfold join_part at 2.
  case_decide; unfold join_part; rewrite sanitize_clean, decide_False by auto; done.
Qed.

Lemma compressed_name_shape stem timestamp extension k :
  sep ∉ stem -> Byte.x00 ∉ stem -> Byte.x00 ∉ timestamp -> Byte.x00 ∉ extension ->
  let name := compressed_file_name stem timestamp extension k in
  (Byte.x00 ∉ name) /\ name <> [] /\ head name <> Some sep /\ last name <> Some sep.
Proof.
  intros Hs Hz Ht He name. unfold name, compressed_file_name.
  assert (forall s, bool_decide (Byte.x00 ∉ bs s) = true -> Byte.x00 ∉ bs s) as Hdec
    by (intros s; apply bool_decide_eq_true).
  split_and!.
  - rewrite !not_elem_of_app. split_and!; try done; try (apply Hdec; vm_compute; reflexivity).
    destruct (0 <? k)%nat; [|apply not_elem_of_nil]. rewrite not_elem_of_app.
    split; [apply Hdec; vm_compute; reflexivity|]. apply to_string_digits, Hdec.
    vm_compute; reflexivity.
  - by destruct stem.
  - destruct stem as [|c stem]; [done|]. intros [= ->]. set_solver.
  - rewrite !app_assoc. rewrite last_app. done.
Qed.

Lemma compressed_name_inj stem timestamp extension j k :
  compressed_file_name stem timestamp extension j = compressed_file_name stem timestamp extension k ->
  j = k.
Proof.
  unfold compressed_file_name. intros E.
  apply app_inv_head, app_inv_head, app_inv_head, app_inv_tail in E.
  destruct j as [|j], k as [|k]; try done.
  cbn [Nat.ltb Nat.leb] in E. apply app_inv_head in E. by apply to_string_inj.
Qed.

(** Where the loop stops: the first name that is free. *)
Lemma rotation_loop_spec w parent stem timestamp extension c fuel :
  let dest k := join_path [parent; compressed_file_name stem timestamp extension k] in
  match rotation_loop w parent stem timestamp extension c fuel with
  | Some d => exists k, (c <= k < c + fuel)%nat /\ d = dest k /\ file_exists w d = false /\
      forall j, (c <= j < k)%nat -> file_exists w (dest j) = true
  | None => forall j, (c <= j < c + fuel)%nat -> file_exists w (dest j) = true
  end.
Proof.
  intros dest. revert c. induction fuel as [|fuel IH]; intros c; cbn [rotation_loop]; [lia|].
  fold (dest c). destruct (file_exists w (dest c)) eqn:E.
  - specialize (IH (S c)). destruct (rotation_loop _ _ _ _ _ _ _) as [d|].
    + destruct IH as (k & Hk & -> & Hf & Hj). exists k. split_and!; [lia | lia | done..|].
      intros j Hjk. destruct (decide (j = c)) as [->|]; [done|]. apply Hj. lia.
    + intros j Hj. destruct (decide (j = c)) as [->|]; [done|]. apply IH. lia.
  - exists c. split_and!; [lia | lia | done..|]. lia.
Qed.

(** A list of distinct paths that all name files is no longer than a list of all the files. *)
Lemma free_name_exists w (files : list bytes) (paths : nat -> bytes) n :
  (forall p, sys_stat w p = Some Regular -> p ∈ files) ->
  (forall j k, c_string (paths j) = c_string (paths k) -> j = k) ->
  (forall j, (j < n)%nat -> file_exists w (paths j) = true) -> (n <= length files)%nat.
Proof.
  intros Hfiles Hinj Hall. rewrite <- (length_seq n 0).
  rewrite <- (length_fmap (c_string ∘ paths)). apply NoDup_incl_length.
  - apply NoDup_ListNoDup, NoDup_fmap_2; [|apply NoDup_seq]. intros j k. apply Hinj.
  - intros p Hp%list_elem_of_In. apply list_elem_of_In.
    apply list_elem_of_fmap in Hp as (j & -> & Hj%elem_of_seq). apply Hfiles.
    specialize (Hall j ltac:(lia)). by apply bool_decide_eq_true in Hall.
Qed.

Lemma find_last_of_spec s c i : find_last_of s c = Some i -> c ∉ drop (i + 1) s.
Proof.
  revert i. induction s as [|x s IH]; intros i; cbn [find_last_of]; [done|].
  destruct (find_last_of s c) as [k|] eqn:E; [intros [= <-]; simpl; by apply IH|].
  case_decide; [|done]. intros [= <-]. simpl. rewrite drop_0. clear IH. subst.
  induction s as [|y s IH]; [apply not_elem_of_nil|]. cbn [find_last_of] in E.
  destruct (find_last_of s c); [done|]. case_decide; [done|]. set_solver.
Qed.

Lemma elem_of_take_sub {A} (c : A) n s : c ∈ take n s -> c ∈ s.
Proof. intros Hc. rewrite <- (take_drop n s). apply elem_of_app. by left. Qed.

Lemma elem_of_drop_sub {A} (c : A) n s : c ∈ drop n s -> c ∈ s.
Proof. intros Hc. rewrite <- (take_drop n s). apply elem_of_app. by right. Qed.

Lemma file_name_elem c path :
  c ∈ file_name_without_extension path -> c ∈ path /\ c <> sep.
Proof.
  unfold file_name_without_extension.
  set (part := match find_last_of path sep with None => path | Some p => drop (p + 1) path end).
  intros Hc. assert (c ∈ part) as Hp.
  { destruct (no_extension _ _); [done|]. by eapply elem_of_take_sub. }
  split.
  - unfold part in Hp. destruct (find_last_of path sep); [by eapply elem_of_drop_sub | done].
  - intros ->. unfold part in Hp. destruct (find_last_of path sep) as [p|] eqn:E.
    + by apply (find_last_of_spec _ _ _ E).
    + assert (forall s, find_last_of s sep = None -> sep ∉ s) as Hn.
      { clear. induction s as [|y s IH]; [intros; apply not_elem_of_nil|]. cbn [find_last_of].
        destruct (find_last_of s sep); [done|]. case_decide; [done|]. intros _. set_solver. }
      by apply (Hn _ E).
Qed.

Lemma file_extension_elem c path : c ∈ file_extension path -> c ∈ path.
Proof.
  unfold file_extension. destruct (find_last_of path dot); [|set_solver].
  destruct (no_extension _ _); [set_solver|]. apply elem_of_drop_sub.
Qed.

(** Names with different counters are different paths, as C strings too. *)
Lemma dest_inj path timestamp j k :
  Byte.x00 ∉ path -> Byte.x00 ∉ timestamp ->
  let dest k := join_path [parent_dir path; compressed_file_name (file_name_without_extension path)
    timestamp (file_extension path) k] in
  c_string (dest j) = c_string (dest k) -> j = k.
Proof.
  intros Hz Ht dest.
  set (pre := if decide (sanitize_component (parent_dir path) true = []) then []
    else sanitize_component (parent_dir path) true ++ [sep]).
  assert (forall i, dest i = pre ++ compressed_file_name (file_name_without_extension path) timestamp
    (file_extension path) i /\ (Byte.x00 ∉ dest i)) as Hd.
  { intros i. destruct (compressed_name_shape (file_name_without_extension path) timestamp
      (file_extension path) i) as (Hn & Hne & Hh & Hl); try done.
    - by intros [_ ?]%file_name_elem.
    - by intros [? _]%file_name_elem.
    - by intros ?%file_extension_elem.
    - unfold dest. rewrite join_path_name by done. split; [done|]. fold pre.
      rewrite not_elem_of_app. split; [|done]. unfold pre. case_decide; [apply not_elem_of_nil|].
      rewrite not_elem_of_app. split; [by intros [_ ?]%sanitize_elem|].
      apply (bool_decide_unpack _). vm_compute. done. }
  destruct (Hd j) as [Hj Hzj], (Hd k) as [Hk Hzk].
  rewrite !c_string_id, Hj, Hk by done. intros E%app_inv_head. by apply compressed_name_inj in E.
Qed.

(** C30. Opening a log file returns, with the first free name for the old log: a file that is there
    is compressed under [<stem>_<time>.<ext>.gz], or with [-1], [-2], ... behind the time, and the
    name taken is the first one that no file has. The loop over the names ends after at most one
    turn more than there are files. *)
Theorem open_log_returns w path now files :
  let w1 := if dir_exists w (parent_dir path) then w else (create_directories w (parent_dir path)).2 in
  let dest k := join_path [parent_dir path; compressed_file_name (file_name_without_extension path)
    (time_text name_time_format now) (file_extension path) k] in
  times_fit -> Byte.x00 ∉ path -> Byte.x00 ∉ time_text name_time_format now ->
  (forall p, sys_stat w1 p = Some Regular -> p ∈ files) ->
  if file_exists w1 path then
    exists k, (k <= length files)%nat /\ file_exists w1 (dest k) = false /\
      (forall j, (j < k)%nat -> file_exists w1 (dest j) = true) /\
      open_log w path now (S (length files)) =
        Some (sys_open_append (create_file (compress w1 path (dest k) true).2 path).2 (c_string path))
  else open_log w path now (S (length files)) =
    Some (sys_open_append (create_file w1 path).2 (c_string path)).
Proof.
  intros w1 dest Ht Hz Hzt Hfiles. unfold open_log. fold w1. destruct (file_exists w1 path); [|done].
  assert (lenZ (time_text name_time_format now) < kTimestampBufSize) as Htt by (apply Ht; set_solver).
  destruct (format_timestamp_ok name_time_format now Htt) as (buf & -> & Hbuf).
  cbn [mbind option_bind]. rewrite Hbuf. cbn [mbind option_bind].
  pose proof (rotation_loop_spec w1 (parent_dir path) (file_name_without_extension path)
    (time_text name_time_format now) (file_extension path) 0 (S (length files))) as Hspec.
  cbv zeta in Hspec. fold dest in Hspec.
  destruct (rotation_loop _ _ _ _ _ _ _) as [d|].
  - destruct Hspec as (k & Hk & -> & Hf & Hj). exists k. split_and!; [lia | done | | done].
    intros j Hjk. apply Hj. lia.
  - exfalso. pose proof (free_name_exists w1 files dest (S (length files)) Hfiles) as Hfree.
    enough (S (length files) <= length files)%nat by lia. apply Hfree; [|intros j Hj; apply Hspec; lia].
    intros j k. by apply dest_inj.
Qed.

End log_file.

(** ** Witness *)

#[local] Instance whole : FileSystem MemFs := mem_fs id.

(** A clock face that always shows the same. *)
Definition noon (fmt : bytes) (t : Z) : bytes := bs "[12:00:00] ".

Lemma noon_fits : times_fit noon.
Proof. intros fmt t _. done. Qed.

(** A directory with a log, and with the name of the first compressed file taken. *)
Definition log_fs : MemFs :=
  {| mf_nodes := [(bs "d", DirNode); (bs "d/x.log", FileNode (bs "old"));
       (bs "d/x_[12:00:00] .log.gz", FileNode [])];
     mf_out := []; mf_in := []; mf_next := 3 |}.

Definition log_files : list bytes := [bs "d/x.log"; bs "d/x_[12:00:00] .log.gz"].

Lemma log_fs_files p : sys_stat log_fs p = Some Regular -> p ∈ log_files.
Proof.
  cbn [sys_stat whole mem_fs]. unfold mf_kind, log_fs. cbn [mf_nodes assoc].
  repeat case_decide; subst; try done; intros _; set_solver.
Qed.

Lemma open_log_returns_witness :
  times_fit noon /\ (Byte.x00 ∉ bs "d/x.log") /\
  exists k, (k <= 2)%nat /\ file_exists log_fs
    (join_path [bs "d"; compressed_file_name (bs "x") (noon name_time_format 0) (bs "log") k]) = false.
Proof.
  assert (Byte.x00 ∉ bs "d/x.log") as Hz by (apply (bool_decide_unpack _); vm_compute; reflexivity).
  split; [exact noon_fits|]. split; [exact Hz|].
  destruct (open_log_returns noon log_fs (bs "d/x.log") 0 log_files noon_fits Hz) as (k & Hk & Hf & _).
  - apply (bool_decide_unpack _). vm_compute. reflexivity.
  - exact log_fs_files.
  - exists k. split; [exact Hk | exact Hf].
Defined.
