(* ===== verification/Check.v ===== *)
(** * The checks

    src/src/include/femtolog/core/check.h and src/src/core/check.cc. The macros are expanded into
    programs over a state of the surrounding code: an operand of a check is an expression that may
    change that state, and what is streamed into a check is a list of such expressions. A failed
    check ends the program in the destructor of [CheckFailureStream]. *)

From S2P Require Import Prelude.

Section checks.
(** The state of the code around a check. *)
Context {W : Type}.

(** A piece of code: it goes on with a value, the state, and what is on [std::cerr], or
    [std::terminate] has been called. *)
Inductive result (A : Type) := Normal (a : A) (w : W) (cerr : bytes) | Terminated (w : W) (cerr : bytes).
#[local] Arguments Normal {A}.
#[local] Arguments Terminated {A}.

Definition code (A : Type) : Type := W -> bytes -> result A.

Definition code_ret {A} (a : A) : code A := fun w cerr => Normal a w cerr.

Definition code_bind {A B} (f : A -> code B) (m : code A) : code B := fun w cerr =>
  match m w cerr with Normal a w' cerr' => f a w' cerr' | Terminated w' cerr' => Terminated w' cerr' end.

#[local] Instance code_mret : MRet code := @code_ret.
#[local] Instance code_mbind : MBind code := @code_bind.

(** An expression of the program. *)
Definition expr (A : Type) : Type := W -> A * W.

Definition eval {A} (e : expr A) : code A := fun w cerr => let '(a, w') := e w in Normal a w' cerr.

Definition print (text : bytes) : code unit := fun w cerr => Normal tt w (cerr ++ text).
Definition terminate : code unit := fun w cerr => Terminated w cerr.

(** [os << e1 << e2 ...]. *)
Inductive stream := Cerr | Null.

Definition put (os : stream) (text : bytes) : code unit :=
  match os with Cerr => print text | Null => mret tt end.

Fixpoint stream_all (os : stream) (items : list (expr bytes)) : code unit :=
  match items with
  | [] => mret tt
  | e :: rest => text ← eval e; put os text;; stream_all os rest
  end.

(** ** CheckFailureStream *)

Record CheckFailureStream := { type_ : bytes; file_ : bytes; line_ : bytes; condition_ : bytes }.

Definition failure_text (s : CheckFailureStream) : bytes :=
  type_ s ++ bs " failed: " ++ [ch 34] ++ condition_ s ++ [ch 34] ++ bs " at " ++ file_ s ++ bs ":" ++
  line_ s ++ [ch 10].

Definition failure_stream (s : CheckFailureStream) : code stream := print (failure_text s);; mret Cerr.

Definition destroy (s : CheckFailureStream) : code unit := terminate.

(** ** FEMTOLOG_CHECK

    The temporary lives to the end of the full expression, after what is streamed into it. *)
Definition check_impl (s : CheckFailureStream) (condition : expr bool) (message : list (expr bytes)) : code unit :=
  b ← eval condition;
  if b : bool then mret tt
  else os ← failure_stream s; stream_all os message;; destroy s.

(** ** The comparisons

    Operands of an operator and arguments of a call are evaluated from left to right here; the
    language leaves their order open. *)

(** [log_check_failure]: the temporary lives to the end of the declaration of [os]. [show] is how the
    two values are streamed, when they can be. *)
Definition log_check_failure {A B} (s : CheckFailureStream) (show : option ((A -> bytes) * (B -> bytes)))
    (lhs : A) (rhs : B) : code stream :=
  os ← (os ← failure_stream s; destroy s;; mret os);
  (match show with
   | Some (show_l, show_r) =>
     put os (bs "  expected: " ++ show_r rhs ++ [ch 10] ++ bs "    actual: " ++ show_l lhs ++ [ch 10])
   | None => put os (bs "  [value output not available for operands]" ++ [ch 10])
   end);;
  mret os.

(** The macro is a conditional expression, and what follows it is streamed into its last operand:
    [failed ? log_check_failure(...) : null_stream() << ...]. *)
Definition check_op {A B} (s : CheckFailureStream) (op : A -> B -> bool) (show : option ((A -> bytes) * (B -> bytes)))
    (val1 : expr A) (val2 : expr B) (message : list (expr bytes)) : code unit :=
  a ← eval val1; b ← eval val2;
  if negb (op a b)
  then a' ← eval val1; b' ← eval val2; log_check_failure s show a' b';; mret tt
  else stream_all Null message.

(** The debug checks are the checks, or in a release build code that is never reached. *)
Definition dcheck_impl (is_release : bool) s condition message : code unit :=
  if is_release then mret tt else check_impl s condition message.

Definition dcheck_op {A B} (is_release : bool) s (op : A -> B -> bool) show val1 val2 message : code unit :=
  if is_release then mret tt else check_op s op show val1 val2 message.

(** ** What the checks do *)

#[local] Ltac run := unfold mret, mbind, code_mret, code_mbind, code_bind, code_ret, eval, print, terminate in *.

(** The texts of a message, and the state after it. *)
Fixpoint streamed (items : list (expr bytes)) (w : W) : bytes * W :=
  match items with
  | [] => ([], w)
  | e :: rest => let '(t, w1) := e w in let '(ts, w2) := streamed rest w1 in (t ++ ts, w2)
  end.

Lemma stream_all_cerr items : forall w cerr,
  stream_all Cerr items w cerr = Normal tt (streamed items w).2 (cerr ++ (streamed items w).1).
Proof.
  induction items as [|e items IH]; intros w cerr; [run; cbn; by rewrite app_nil_r|].
  cbn [stream_all streamed]. run. cbn [put]. run. destruct (e w) as [t w1]. rewrite IH.
  destruct (streamed items w1) as [ts w2]. cbn [fst snd]. by rewrite app_assoc.
Qed.

Lemma stream_all_null items : forall w cerr,
  stream_all Null items w cerr = Normal tt (streamed items w).2 cerr.
Proof.
  induction items as [|e items IH]; intros w cerr; [done|].
  cbn [stream_all streamed]. run. cbn [put]. run. destruct (e w) as [t w1]. rewrite IH.
  by destruct (streamed items w1).
Qed.

(** C36. The checks. A check that holds costs its condition and prints nothing; one that fails prints its
    place and its message and ends the program. A comparison that fails evaluates its operands a
    second time and ends the program having printed its place and nothing else: neither the two
    values, whatever they are, nor the message reach the output - the message is evaluated, and
    thrown away, when the comparison holds. In a release build the debug checks do nothing, not even
    evaluate their operands. *)
Theorem check_outcomes {A B} s (condition : expr bool) (op : A -> B -> bool) show (val1 : expr A) (val2 : expr B)
    message w cerr :
  let '(b, w1) := condition w in
  let '(a1, w2) := val1 w in let '(b1, w3) := val2 w2 in
  let w5 := (val2 (val1 w3).2).2 in
  check_impl s condition message w cerr =
    (if b then Normal tt w1 cerr
     else Terminated (streamed message w1).2 (cerr ++ failure_text s ++ (streamed message w1).1)) /\
  check_op s op show val1 val2 message w cerr =
    (if op a1 b1 then Normal tt (streamed message w3).2 cerr else Terminated w5 (cerr ++ failure_text s)) /\
  dcheck_impl true s condition message w cerr = Normal tt w cerr /\
  dcheck_op true s op show val1 val2 message w cerr = Normal tt w cerr.
Proof.
  destruct (condition w) as [b w1] eqn:Hc, (val1 w) as [a1 w2] eqn:H1, (val2 w2) as [b1 w3] eqn:H2.
  cbv zeta. split_and!; [| |done|done].
  - unfold check_impl, failure_stream, destroy. run. rewrite Hc. destruct b; [done|].
    rewrite stream_all_cerr. by rewrite app_assoc.
  - unfold check_op. run. rewrite H1, H2. destruct (op a1 b1); cbn [negb].
    + apply stream_all_null.
    + destruct (val1 w3) as [a2 w4]. cbn [fst snd]. by destruct (val2 w4) as [b2 w5].
Qed.
End checks.
