(* ===== verification/StackTrace.v ===== *)
(** * Stack traces

    src/src/core/diagnostics/stack_trace_entry.cc and stack_trace.cc, as built for Linux on x86-64
    with execinfo. What the platform knows of the running program is a parameter: [backtrace],
    [dladdr] and [__cxa_demangle]. *)

From stdpp Require Import pretty.
From S2P Require Import Prelude StringUtil LogFile.

Definition kAddressStrLength : Z := 32.
Definition kFunctionStrLength : Z := 256.
Definition kFileStrLength : Z := 512.
Definition kPlatformMaxFrames : Z := 64.
Definition kLineBufferSize : Z := 1024.
Definition kSymbolBufferSize : Z := 512.
Definition kDemangledBufferSize : Z := 512.
Definition kIndexAlignLength : Z := 7.
Definition kAddressAlignLength : Z := 20.
Definition kFunctionAlignLength : Z := 30.
Definition kUnknownFunction : bytes := bs "(unknown function)".

(** An array of [n] characters; what the code leaves uninitialised is overwritten before it is read. *)
Definition char_array (n : Z) : bytes := replicate (Z.to_nat n) Byte.x00.

(** [{}] on an unsigned integer. *)
Definition dec (n : Z) : bytes := bs (pretty (Z.to_N n)).

(** [{}] on a [const char*], and [std::string(p)]: the bytes up to the NUL. *)
Definition c_text (mem : bytes) : option bytes := n ← c_strlen mem; Some (take n mem).

(** ** StackTraceEntry *)

Record StackTraceEntry := {
  address : bytes; function : bytes; file : bytes;
  index : Z; line : Z; offset : Z; use_index : bool;
}.

Definition entry_new : StackTraceEntry :=
  {| address := char_array kAddressStrLength; function := char_array kFunctionStrLength;
     file := char_array kFileStrLength; index := 0; line := 0; offset := 0; use_index := false |}.

(** [array[0]] is not NUL. *)
Definition nonempty (a : bytes) : bool :=
  match a with c :: _ => negb (bool_decide (c = Byte.x00)) | [] => false end.

(** [write_format] and then [padding]. *)
Definition write_aligned (text : bytes) (end_ align : Z) (st : bytes * Z) : option (bytes * Z) :=
  '(mem, cursor, len) ← write_format st.1 st.2 end_ text; padding mem cursor end_ len align.

Definition write_index (e : StackTraceEntry) (end_ : Z) (st : bytes * Z) : option (bytes * Z) :=
  if use_index e then write_aligned (bs "@" ++ dec (index e)) end_ kIndexAlignLength st else Some st.

Definition write_address (e : StackTraceEntry) (end_ : Z) (st : bytes * Z) : option (bytes * Z) :=
  if nonempty (address e)
  then text ← c_text (address e); write_aligned text end_ kAddressAlignLength st else Some st.

Definition write_function (e : StackTraceEntry) (end_ : Z) (st : bytes * Z) : option (bytes * Z) :=
  func ← (if nonempty (function e) then c_text (function e) else Some kUnknownFunction);
  '(mem, cursor, func_len) ← write_format st.1 st.2 end_ func;
  '(mem, cursor, func_len) ←
    (if 0 <? offset e
     then '(mem, cursor, offset_len) ← write_format mem cursor end_ (bs "+0x" ++ dec (offset e));
          Some (mem, cursor, func_len ⊕ offset_len)
     else Some (mem, cursor, func_len));
  padding mem cursor end_ func_len kFunctionAlignLength.

Definition write_file (e : StackTraceEntry) (end_ : Z) (st : bytes * Z) : option (bytes * Z) :=
  if nonempty (file e) then
    text ← c_text (file e);
    '(mem, cursor, _) ← write_format st.1 st.2 end_ (bs " at " ++ text);
    if 0 <? line e
    then '(mem, cursor, _) ← write_format mem cursor end_ (bs ":" ++ dec (line e)); Some (mem, cursor)
    else Some (mem, cursor)
  else Some st.

Definition terminate (end_ : Z) (st : bytes * Z) : option bytes :=
  if st.2 <? end_ then mem_store st.1 st.2 [Byte.x00]
  else if 0 <? end_ then mem_store st.1 (end_ - 1) [Byte.x00]
  else Some st.1.

Definition entry_to_string (e : StackTraceEntry) (out_buf : bytes) (out_buf_size : Z) : option bytes :=
  st ← write_index e out_buf_size (out_buf, 0);
  st ← write_address e out_buf_size st;
  st ← write_function e out_buf_size st;
  st ← write_file e out_buf_size st;
  terminate out_buf_size st.

(** ** The lines in a buffer *)

Fixpoint entries_loop (entries : list StackTraceEntry) (line_buffer buffer : bytes)
    (buffer_size written : Z) : option (bytes * Z) :=
  match entries with
  | [] => Some (buffer, written)
  | e :: rest =>
    if written <? buffer_size ⊖ 1 then
      line_buffer ← entry_to_string e line_buffer kLineBufferSize;
      line_len ← Z.of_nat <$> c_strlen line_buffer;
      if written ⊕ line_len ⊕ 1 <? buffer_size then
        '(buffer, raw_written) ← write_raw buffer written line_buffer line_len;
        let written := written ⊕ raw_written in
        if written <? buffer_size ⊖ 1 then
          buffer ← mem_store buffer written [c_nl];
          entries_loop rest line_buffer buffer buffer_size (written ⊕ 1)
        else entries_loop rest line_buffer buffer buffer_size written
      else Some (buffer, written)
    else Some (buffer, written)
  end.

Definition stack_trace_entries_to_buffer (entries : list StackTraceEntry) (buffer : option bytes)
    (buffer_size : Z) : option (option bytes) :=
  match buffer with
  | None => Some None
  | Some mem =>
    if buffer_size =? 0 then Some (Some mem)
    else
      '(mem, written) ← entries_loop entries (char_array kLineBufferSize) mem buffer_size 0;
      Some <$> mem_store mem written [Byte.x00]
  end.

(** ** Collecting *)

Definition is_valid_address (addr : Z) : bool :=
  if (addr =? 0) || (addr <? 0x1000) then false
  else if 0x800000000000 <=? addr then false
  else true.

(** [Dl_info]: a [char*] is what its object holds from there on. *)
Record Dl_info := { dli_sname : option bytes; dli_fname : option bytes; dli_saddr : option Z }.

(** Where the result of [__cxa_demangle] is: nowhere, in the output buffer, or in memory of its own. *)
Inductive demangled := Null | InBuffer | Own (mem : bytes).

Section platform.
(** [backtrace(stack, n)], [dladdr(p)], and [__cxa_demangle(name, buffer, &length, &status)] with
    the new buffer, length and status; [None] is undefined behaviour. *)
Context (backtrace : Z -> list Z) (dladdr : Z -> option Dl_info).
Context (cxa_demangle : bytes -> bytes -> Z -> option (demangled * bytes * Z * Z)).

Definition demangle_symbol_safe (mangled_name demangled_buffer : bytes) (demangled_len : Z) :
    option (bytes * bytes) :=
  if demangled_len =? 0 then Some (mangled_name, demangled_buffer)
  else
    '(result, buffer, len, status) ← cxa_demangle mangled_name demangled_buffer demangled_len;
    match result with
    | InBuffer => Some (if status =? 0 then buffer else mangled_name, buffer)
    | Own mem =>
      if status =? 0 then '(buffer, _) ← write_raw buffer 0 mem len; Some (buffer, buffer)
      else Some (mangled_name, buffer)
    | Null => Some (mangled_name, buffer)
    end.

(** The name of the function at an address, as a C string, with the buffers after it. *)
Definition function_at (info : Dl_info) (symbol_buf demangled_buf : bytes) :
    option (bytes * bytes * bytes) :=
  match dli_sname info with
  | None => Some ([Byte.x00], symbol_buf, demangled_buf)
  | Some sname =>
    '(symbol_buf, _) ← write_raw symbol_buf 0 sname kSymbolBufferSize;
    '(name, demangled_buf) ← demangle_symbol_safe symbol_buf demangled_buf kDemangledBufferSize;
    Some (name, symbol_buf, demangled_buf)
  end.

Definition offset_at (info : Dl_info) (current_address : Z) : Z :=
  match dli_saddr info with
  | Some symbol_base => if symbol_base <=? current_address then current_address ⊖ symbol_base else 0
  | None => 0
  end.

Definition no_info : Dl_info := {| dli_sname := None; dli_fname := None; dli_saddr := None |}.

(** The three buffers of [collect_stack_trace]. *)
Record buffers := { address_buf : bytes; demangled_buf : bytes; symbol_buf : bytes }.

(** [write_raw(cursor, name, safe_strlen(name))] into an array of an entry. *)
Definition copy_name (array name : bytes) : option bytes :=
  n ← safe_strlen (Some name); fst <$> write_raw array 0 name (Z.of_nat n).

Definition collect_frame (out : StackTraceEntry) (show : bool) (first_frame i current_address : Z)
    (b : buffers) : option (StackTraceEntry * buffers) :=
  formatted ← format_address_safe current_address (Some (address_buf b)) (lenZ (address_buf b));
  address_buf ← formatted;
  '(addr, _) ← write_raw (address out) 0 address_buf (lenZ address_buf);
  let info := default no_info (dladdr current_address) in
  '(function_name, symbol_buf, demangled_buf) ← function_at info (symbol_buf b) (demangled_buf b);
  let file_name := default [Byte.x00] (dli_fname info) in
  func ← copy_name (function out) function_name;
  file ← copy_name (file out) file_name;
  Some ({| address := addr; function := func; file := file;
           index := if show then i ⊖ first_frame else 0; line := 0;
           offset := offset_at info current_address; use_index := show |},
        {| address_buf := address_buf; demangled_buf := demangled_buf; symbol_buf := symbol_buf |}).

(** [entries] are the elements of [out] that have not been used, [stack] the frames from [i] on. *)
Fixpoint collect_loop (entries : list StackTraceEntry) (show : bool) (first_frame i : Z)
    (stack : list Z) (b : buffers) : option (list StackTraceEntry) :=
  match stack with
  | [] => Some []
  | current_address :: rest =>
    if negb (is_valid_address current_address) then collect_loop entries show first_frame (i + 1) rest b
    else
      match entries with
      | [] => None
      | out :: entries' =>
        '(e, b') ← collect_frame out show first_frame i current_address b;
        (e ::.) <$> collect_loop entries' show first_frame (i + 1) rest b'
      end
  end.

(** The entries that were filled; [out] is the whole array. *)
Definition collect_stack_trace (out : option (list StackTraceEntry)) (show : bool)
    (first_frame max_frames : Z) : option (list StackTraceEntry) :=
  match out with
  | None => Some []
  | Some entries =>
    let max_frames := Z.min max_frames kPlatformMaxFrames in
    let first_frame := Z.min first_frame max_frames in
    if max_frames <=? first_frame then Some []
    else
      let stack := backtrace max_frames in
      collect_loop entries show first_frame first_frame (drop (Z.to_nat first_frame) stack)
        {| address_buf := char_array kAddressStrLength; demangled_buf := char_array kDemangledBufferSize;
           symbol_buf := char_array kSymbolBufferSize |}
  end.

Definition trace_to_buffer (buffer : option bytes) (buffer_size : Z) (show : bool)
    (first_frame max_frames : Z) : option (option bytes) :=
  entries ← collect_stack_trace (Some (replicate (Z.to_nat kPlatformMaxFrames) entry_new)) show
    first_frame max_frames;
  stack_trace_entries_to_buffer entries buffer buffer_size.

Definition kTraceBufSize : Z := 4096.

Definition trace_string (show : bool) (first_frame max_frames : Z) : option bytes :=
  buf ← trace_to_buffer (Some (char_array kTraceBufSize)) kTraceBufSize show (first_frame ⊕ 1) max_frames;
  mem ← buf; c_text mem.
End platform.

(** * Properties *)

(** ** Writing a line *)

Definition pad_to (align : Z) (text : bytes) : bytes :=
  text ++ replicate (Z.to_nat (align - lenZ text)) " "%byte.

(** The whole line of an entry, whatever room there is for it. *)
Definition trace_line (show : bool) (index : Z) (addr func : bytes) (offset : Z) (file : bytes)
    (line : Z) : bytes :=
  (if show then pad_to kIndexAlignLength (bs "@" ++ dec index) else []) ++
  (if bool_decide (addr = []) then [] else pad_to kAddressAlignLength addr) ++
  pad_to kFunctionAlignLength ((if bool_decide (func = []) then kUnknownFunction else func) ++
    (if 0 <? offset then bs "+0x" ++ dec offset else [])) ++
  (if bool_decide (file = []) then []
   else bs " at " ++ file ++ (if 0 <? line then bs ":" ++ dec line else [])).

(** [out] has been written into an object of [n + 1] bytes, as far as [n] bytes of it go. *)
Definition tracks (n : Z) (out : bytes) (st : bytes * Z) : Prop :=
  lenZ st.1 = n + 1 /\ 0 <= st.2 <= n + 1 /\ Z.min n st.2 = Z.min n (lenZ out) /\
  take (Z.to_nat (Z.min n st.2)) st.1 = take (Z.to_nat n) out.

(** The front of an object, and what is behind it. *)
Lemma mem_store_front mem (c : Z) pre data :
  0 <= c -> take (Z.to_nat c) mem = pre -> c + lenZ data <= lenZ mem -> exists rest,
  mem_store mem c data = Some (pre ++ data ++ rest) /\ c + lenZ data + lenZ rest = lenZ mem /\ lenZ pre = c.
Proof.
  intros Hc Hp Hl. pose proof (lenZ_nonneg data).
  assert (lenZ pre = c) as Hlen by (rewrite <- Hp; unfold lenZ in *; rewrite length_take; lia).
  exists (drop (Z.to_nat c + length data) mem). split; [|split; [|done]].
  - rewrite <- (take_drop (Z.to_nat c) mem) at 1. rewrite Hp.
    rewrite <- (take_drop (length data) (drop (Z.to_nat c) mem)), drop_drop.
    apply mem_store_mid; [done|]. rewrite length_take, length_drop. unfold lenZ in *. lia.
  - unfold lenZ in *. rewrite length_drop. lia.
Qed.

Section writing.
Context (n : Z) (Hn : 0 <= n < 2 ^ 62).

Lemma write_format_tracks out st text :
  tracks n out st -> exists mem cursor w,
    write_format st.1 st.2 (n + 1) text = Some (mem, cursor, w) /\ tracks n (out ++ text) (mem, cursor) /\
    0 <= w <= n /\ (lenZ (out ++ text) <= n -> w = lenZ text).
Proof.
  destruct st as [mem c]. unfold tracks, write_format. cbn [fst snd]. intros (Hl & Hc & Hmin & Ht).
  pose proof (lenZ_nonneg out). pose proof (lenZ_nonneg text).
  destruct (Z.leb_spec (n + 1 - c) 0) as [Hz|Hz].
  { eexists mem, c, 0. split; [done|]. cbn [fst snd]. rewrite lenZ_app. split_and!; try lia.
    rewrite Ht. symmetry. apply take_app_le. unfold lenZ in *. lia. }
  replace (n + 1 - c - 1) with (n - c) by lia. rewrite Z.min_r in Ht by lia.
  set (d := take (Z.to_nat (n - c)) text).
  assert (lenZ d = Z.min (n - c) (lenZ text)) as Hd.
  { unfold d, lenZ in *. rewrite length_take. lia. }
  destruct (mem_store_front mem c _ d ltac:(lia) Ht ltac:(lia)) as (r1 & -> & Hr1 & Hp).
  cbn [mbind option_bind].
  destruct (mem_store_front (take (Z.to_nat n) out ++ d ++ r1) (c + lenZ d) (take (Z.to_nat n) out ++ d)
    [Byte.x00]) as (r2 & -> & Hr2 & _); [lia | | |].
  { rewrite app_assoc. apply take_app_length'. unfold lenZ in *. rewrite length_app. lia. }
  { rewrite !lenZ_app. change (lenZ [_]) with 1. lia. }
  cbn [mbind option_bind]. eexists _, _, _. split; [done|]. cbn [fst snd].
  rewrite !lenZ_app in *. change (lenZ [_]) with 1 in *. split_and!; try lia.
  rewrite take_app_length' by (unfold lenZ in *; rewrite length_app; lia).
  rewrite take_app. f_equal. unfold d. f_equal. unfold lenZ in *. lia.
Qed.

Lemma padding_tracks out st cl l align :
  tracks n out st -> 0 <= cl -> 0 <= l -> 0 <= align <= 2 ^ 62 -> (lenZ out <= n -> cl = l) ->
  exists st', padding st.1 st.2 (n + 1) cl align = Some st' /\
    tracks n (out ++ replicate (Z.to_nat (align - l)) " "%byte) st'.
Proof.
  destruct st as [mem c]. unfold tracks, padding. cbn [fst snd]. intros (Hlen & Hc & Hmin & Ht) Hcl Hl Ha Heq.
  pose proof (lenZ_nonneg out).
  set (pad := if cl <? align then align ⊖ cl else 0).
  assert (pad = Z.max 0 (align - cl)) as Hpad.
  { unfold pad. destruct (Z.ltb_spec cl align); [rewrite u64_small by lia|]; lia. }
  rewrite (u64_small (n + 1 - c)) by lia. set (k := Z.min pad (n + 1 - c)).
  assert (lenZ (replicate (Z.to_nat k) " "%byte) = k) as Hk by (unfold lenZ; rewrite length_replicate; lia).
  destruct (mem_store_front mem c _ (replicate (Z.to_nat k) " "%byte) ltac:(lia) eq_refl ltac:(lia))
    as (rest & -> & Hr & Hp).
  cbn [mbind option_bind]. eexists. split; [done|]. cbn [fst snd].
  rewrite !lenZ_app, Hk, Hp. split; [lia|]. split; [lia|].
  assert (lenZ (replicate (Z.to_nat (align - l)) " "%byte) = Z.max 0 (align - l)) as Hal
    by (unfold lenZ; rewrite length_replicate; lia).
  rewrite Hal. destruct (Z.le_gt_cases (lenZ out) n) as [Ho|Ho].
  - specialize (Heq Ho). subst cl. split; [lia|].
    destruct (Z.eq_dec c (n + 1)) as [->|Hne].
    + rewrite take_app_le by (unfold lenZ in *; lia). rewrite take_take.
      replace (Z.to_nat (Z.min n (n + 1 + k)) `min` Z.to_nat (n + 1))%nat with (Z.to_nat (Z.min n (n + 1))) by lia.
      rewrite Ht. symmetry. apply take_app_le. unfold lenZ in *. lia.
    + rewrite Z.min_r in Ht by lia. rewrite Ht, (take_ge out) by (unfold lenZ in *; lia).
      rewrite !take_app, take_replicate. rewrite (take_ge out), (take_ge out) by (unfold lenZ in *; lia).
      rewrite take_replicate. f_equal.
      replace (Z.to_nat (Z.min n (c + k)) - length out - length (replicate (Z.to_nat k) " "%byte))%nat
        with 0%nat by (rewrite length_replicate; unfold lenZ in *; lia).
      rewrite take_0, app_nil_r. f_equal. unfold lenZ in *. lia.
  - split; [lia|]. rewrite take_app_le by (unfold lenZ in *; lia). rewrite take_take.
    replace (Z.to_nat (Z.min n (c + k)) `min` Z.to_nat c)%nat with (Z.to_nat (Z.min n c)) by lia.
    rewrite Ht. symmetry. apply take_app_le. unfold lenZ in *. lia.
Qed.

Lemma terminate_tracks out st :
  tracks n out st -> exists rest,
  terminate (n + 1) st = Some (take (Z.to_nat n) out ++ Byte.x00 :: rest) /\
  lenZ (take (Z.to_nat n) out ++ Byte.x00 :: rest) = n + 1.
Proof.
  destruct st as [mem c]. unfold tracks, terminate. cbn [fst snd]. intros (Hl & Hc & Hmin & Ht).
  destruct (Z.ltb_spec c (n + 1)) as [Hlt|Hge].
  - rewrite Z.min_r in Ht by lia.
    destruct (mem_store_front mem c _ [Byte.x00] ltac:(lia) Ht) as (rest & -> & Hr & Hp);
      [change (lenZ [_]) with 1; lia|].
    exists rest. split; [done|]. rewrite lenZ_app, lenZ_cons. change (lenZ [_]) with 1 in Hr. lia.
  - rewrite (proj2 (Z.ltb_lt _ _)) by lia. rewrite Z.min_l in Ht by lia.
    destruct (mem_store_front mem (n + 1 - 1) (take (Z.to_nat n) out) [Byte.x00]) as (rest & -> & Hr & Hp);
      [lia | by replace (n + 1 - 1) with n by lia | change (lenZ [_]) with 1; lia |].
    exists rest. split; [done|]. rewrite lenZ_app, lenZ_cons. change (lenZ [_]) with 1 in Hr. lia.
Qed.

(** *** The parts of a line *)

(** [arr] is an array of [size] characters that holds the C string [text]. *)
Definition c_array (size : Z) (text arr : bytes) : Prop :=
  lenZ arr = size /\ (Byte.x00 ∉ text) /\ exists rest, arr = text ++ Byte.x00 :: rest.

Lemma c_strlen_text text rest : Byte.x00 ∉ text -> c_strlen (text ++ Byte.x00 :: rest) = Some (length text).
Proof.
  induction text as [|c text IH]; cbn [c_strlen app]; intros Hz.
  - by rewrite decide_True.
  - apply not_elem_of_cons in Hz as [Hc Hz]. rewrite decide_False by congruence. by rewrite IH.
Qed.

Lemma c_array_text size text arr : c_array size text arr -> c_text arr = Some text.
Proof.
  intros (_ & Hz & rest & ->). unfold c_text. rewrite c_strlen_text by done. cbn [mbind option_bind].
  by rewrite take_app_length.
Qed.

Lemma c_array_nonempty size text arr :
  c_array size text arr -> nonempty arr = negb (bool_decide (text = [])).
Proof.
  intros (_ & Hz & rest & ->). destruct text as [|c text]; cbn [app nonempty].
  - by rewrite !bool_decide_true.
  - apply not_elem_of_cons in Hz as [Hc _]. by rewrite !bool_decide_false by congruence.
Qed.

(** What an entry holds. *)
Definition entry_holds (e : StackTraceEntry) (addr func name : bytes) : Prop :=
  c_array kAddressStrLength addr (address e) /\ c_array kFunctionStrLength func (function e) /\
  c_array kFileStrLength name (file e) /\ 0 <= offset e.

Lemma write_aligned_tracks out st text align :
  tracks n out st -> 0 <= align <= 2 ^ 62 -> exists st',
  write_aligned text (n + 1) align st = Some st' /\ tracks n (out ++ pad_to align text) st'.
Proof.
  intros Ht Ha. unfold write_aligned.
  destruct (write_format_tracks out st text Ht) as (mem & c & w & -> & Ht' & Hw & Heq).
  cbn [mbind option_bind]. unfold pad_to. rewrite app_assoc.
  eapply padding_tracks in Ht'; [exact Ht' | lia | apply lenZ_nonneg | done | done].
Qed.

Context (e : StackTraceEntry) (addr func name : bytes) (He : entry_holds e addr func name).

Lemma write_index_tracks out st :
  tracks n out st -> exists st', write_index e (n + 1) st = Some st' /\
  tracks n (out ++ if use_index e then pad_to kIndexAlignLength (bs "@" ++ dec (index e)) else []) st'.
Proof.
  intros Ht. unfold write_index. destruct (use_index e); [by apply write_aligned_tracks|].
  exists st. by rewrite app_nil_r.
Qed.

Lemma write_address_tracks out st :
  tracks n out st -> exists st', write_address e (n + 1) st = Some st' /\
  tracks n (out ++ if bool_decide (addr = []) then [] else pad_to kAddressAlignLength addr) st'.
Proof.
  intros Ht. unfold write_address. destruct He as (Ha & _).
  rewrite (c_array_nonempty _ _ _ Ha), (c_array_text _ _ _ Ha). case_bool_decide; simpl negb; cbv iota.
  - exists st. by rewrite app_nil_r.
  - by apply write_aligned_tracks.
Qed.

Lemma write_function_tracks out st :
  tracks n out st -> exists st', write_function e (n + 1) st = Some st' /\
  tracks n (out ++ pad_to kFunctionAlignLength ((if bool_decide (func = []) then kUnknownFunction else func) ++
    (if 0 <? offset e then bs "+0x" ++ dec (offset e) else []))) st'.
Proof.
  intros Ht. unfold write_function. destruct He as (_ & Hf & _).
  rewrite (c_array_nonempty _ _ _ Hf), (c_array_text _ _ _ Hf).
  set (shown := if bool_decide (func = []) then kUnknownFunction else func).
  replace (if negb (bool_decide (func = [])) then Some func else Some kUnknownFunction) with (Some shown)
    by (unfold shown; by case_bool_decide).
  cbn [mbind option_bind].
  destruct (write_format_tracks out st shown Ht) as (mem & c & w & -> & Ht1 & Hw & Heq).
  cbn [mbind option_bind]. pose proof (lenZ_nonneg shown). unfold pad_to.
  destruct (0 <? offset e); cbn [mbind option_bind].
  - destruct (write_format_tracks _ (mem, c) (bs "+0x" ++ dec (offset e)) Ht1)
      as (mem2 & c2 & w2 & E & Ht2 & Hw2 & Heq2).
    cbn [fst snd] in E. rewrite E. cbn [mbind option_bind].
    set (off := bs "+0x" ++ dec (offset e)) in *. pose proof (lenZ_nonneg off).
    rewrite u64_small by lia. rewrite <- app_assoc in Ht2, Heq2.
    eapply (padding_tracks _ _ _ (lenZ (shown ++ off))) in Ht2;
      [rewrite app_assoc; exact Ht2 | lia | apply lenZ_nonneg | done |].
    intros Hle. rewrite !lenZ_app in *. lia.
  - rewrite app_nil_r, app_assoc.
    eapply padding_tracks in Ht1; [exact Ht1 | lia | apply lenZ_nonneg | done | done].
Qed.

Lemma write_file_tracks out st :
  tracks n out st -> exists st', write_file e (n + 1) st = Some st' /\
  tracks n (out ++ if bool_decide (name = []) then []
    else bs " at " ++ name ++ (if 0 <? line e then bs ":" ++ dec (line e) else [])) st'.
Proof.
  intros Ht. unfold write_file. destruct He as (_ & _ & Hp & _).
  rewrite (c_array_nonempty _ _ _ Hp), (c_array_text _ _ _ Hp). case_bool_decide; simpl negb; cbv iota.
  { exists st. by rewrite app_nil_r. }
  cbn [mbind option_bind].
  destruct (write_format_tracks out st (bs " at " ++ name) Ht) as (mem & c & w & -> & Ht1 & _).
  cbn [mbind option_bind]. destruct (0 <? line e).
  - destruct (write_format_tracks _ (mem, c) (bs ":" ++ dec (line e)) Ht1) as (mem2 & c2 & w2 & E & Ht2 & _).
    cbn [fst snd] in E. rewrite E. cbn [mbind option_bind]. eexists. split; [done|].
    by rewrite <- !app_assoc in Ht2.
  - eexists. split; [done|]. by rewrite app_nil_r.
Qed.

Lemma entry_to_string_ok mem :
  lenZ mem = n + 1 -> exists rest,
  let l := trace_line (use_index e) (index e) addr func (offset e) name (line e) in
  entry_to_string e mem (n + 1) = Some (take (Z.to_nat n) l ++ Byte.x00 :: rest) /\
  lenZ (take (Z.to_nat n) l ++ Byte.x00 :: rest) = n + 1.
Proof.
  intros Hm. unfold entry_to_string.
  assert (tracks n [] (mem, 0)) as Ht by (unfold tracks; cbn [fst snd]; rewrite Z.min_r, take_0, take_nil by lia;
    change (lenZ []) with 0; lia || (split_and!; [lia..| done])).
  destruct (write_index_tracks _ _ Ht) as (st1 & -> & Ht1). cbn [mbind option_bind].
  destruct (write_address_tracks _ _ Ht1) as (st2 & -> & Ht2). cbn [mbind option_bind].
  destruct (write_function_tracks _ _ Ht2) as (st3 & -> & Ht3). cbn [mbind option_bind].
  destruct (write_file_tracks _ _ Ht3) as (st4 & -> & Ht4). cbn [mbind option_bind].
  destruct (terminate_tracks _ _ Ht4) as (rest & -> & Hl). exists rest.
  rewrite <- !app_assoc in Hl |- *. split; [done | exact Hl].
Qed.
End writing.

(** *** What a line holds *)

Lemma dec_no_nul z : 0 <= z -> Byte.x00 ∉ dec z.
Proof.
  intros Hz. unfold dec. replace (Z.to_N z) with (N.of_nat (Z.to_nat z)) by lia.
  apply to_string_digits. by apply (bool_decide_unpack _); vm_compute.
Qed.

Lemma pad_to_no_nul align text : Byte.x00 ∉ text -> Byte.x00 ∉ pad_to align text.
Proof.
  intros Ht. unfold pad_to. rewrite not_elem_of_app. split; [done|].
  intros [? _]%elem_of_replicate. done.
Qed.

Lemma trace_line_no_nul show i addr func off file ln :
  0 <= i -> Byte.x00 ∉ addr -> Byte.x00 ∉ func -> Byte.x00 ∉ file ->
  Byte.x00 ∉ trace_line show i addr func off file ln.
Proof.
  intros Hi Ha Hf Hp. unfold trace_line.
  assert (forall s, bool_decide (Byte.x00 ∈ bs s) = false -> Byte.x00 ∉ bs s) as Hs
    by (intros s; apply bool_decide_eq_false).
  rewrite !not_elem_of_app. split_and!.
  - destruct show; [|apply not_elem_of_nil]. apply pad_to_no_nul. rewrite not_elem_of_app.
    split; [by apply Hs | by apply dec_no_nul].
  - case_bool_decide; [apply not_elem_of_nil | by apply pad_to_no_nul].
  - apply pad_to_no_nul. rewrite not_elem_of_app. split; [case_bool_decide; [by apply Hs | done]|].
    destruct (Z.ltb_spec 0 off); [|apply not_elem_of_nil]. rewrite not_elem_of_app.
    split; [by apply Hs | apply dec_no_nul; lia].
  - case_bool_decide; [apply not_elem_of_nil|]. rewrite !not_elem_of_app. split_and!; [by apply Hs | done |].
    destruct (Z.ltb_spec 0 ln); [|apply not_elem_of_nil]. rewrite not_elem_of_app.
    split; [by apply Hs | apply dec_no_nul; lia].
Qed.

(** The line of an entry that is in order. *)
Definition shows (e : StackTraceEntry) (l : bytes) : Prop :=
  exists addr func name, entry_holds e addr func name /\ 0 <= index e /\
    l = trace_line (use_index e) (index e) addr func (offset e) name (line e).

Lemma shows_no_nul e l : shows e l -> Byte.x00 ∉ l.
Proof.
  intros (a & f & p & ((_ & Ha & _) & (_ & Hf & _) & (_ & Hp & _) & _) & Hi & ->).
  by apply trace_line_no_nul.
Qed.

(** In a buffer without room nothing is written. *)
Lemma write_format_empty text : write_format [] 0 0 text = Some ([], 0, 0).
Proof. done. Qed.

Lemma padding_empty align : 0 <= align -> padding [] 0 0 0 align = Some ([], 0).
Proof.
  intros Ha. unfold padding. replace (Z.min _ _) with 0; [done|]. change (u64 (0 - 0)) with 0.
  destruct (0 <? align); [|done]. pose proof (u64_range (align - 0)). lia.
Qed.

Lemma entry_to_string_empty e addr func name :
  entry_holds e addr func name -> entry_to_string e [] 0 = Some [].
Proof.
  intros (Ha & Hf & Hp & _). unfold entry_to_string, write_index, write_aligned.
  replace (if use_index e then _ else Some ([], 0)) with (Some (@nil Init.Byte.byte, 0))
    by (destruct (use_index e); [|done]; cbn [fst snd]; rewrite write_format_empty; cbn [mbind option_bind];
        by rewrite padding_empty).
  cbn [mbind option_bind]. unfold write_address, write_aligned. rewrite (c_array_text _ _ _ Ha).
  replace (if nonempty (address e) then _ else Some ([], 0)) with (Some (@nil Init.Byte.byte, 0))
    by (destruct (nonempty _); [|done]; cbn [fst snd mbind option_bind]; by rewrite write_format_empty).
  cbn [mbind option_bind]. unfold write_function. rewrite (c_array_text _ _ _ Hf).
  destruct (nonempty (function e)); cbn [mbind option_bind fst snd]; rewrite write_format_empty;
    cbn [mbind option_bind]; (destruct (0 <? offset e); [rewrite write_format_empty|]);
    cbn [mbind option_bind]; (rewrite padding_empty by done); cbn [mbind option_bind];
    unfold write_file; rewrite (c_array_text _ _ _ Hp);
    (destruct (nonempty (file e)); [|done]); cbn [mbind option_bind fst snd]; rewrite write_format_empty;
    cbn [mbind option_bind]; (destruct (0 <? line e); [rewrite write_format_empty|]); done.
Qed.

Lemma shows_to_string e l mem size :
  shows e l -> lenZ mem = size -> 0 < size <= 2 ^ 62 -> exists rest,
  entry_to_string e mem size = Some (take (Z.to_nat (size - 1)) l ++ Byte.x00 :: rest) /\
  lenZ (take (Z.to_nat (size - 1)) l ++ Byte.x00 :: rest) = size /\
  c_strlen (take (Z.to_nat (size - 1)) l ++ Byte.x00 :: rest) = Some (length (take (Z.to_nat (size - 1)) l)).
Proof.
  intros Hs Hm Hsz. pose proof (shows_no_nul _ _ Hs) as Hl.
  destruct Hs as (a & f & p & He & _ & El).
  destruct (entry_to_string_ok (size - 1) ltac:(lia) e a f p He mem ltac:(lia)) as (rest & E & Hlen).
  rewrite <- El in E, Hlen. replace (size - 1 + 1) with size in * by lia.
  exists rest. split; [done|]. split; [done|]. apply c_strlen_text.
  intros (i & Hi & _)%elem_of_take. apply Hl. by eapply list_elem_of_lookup_2.
Qed.

(** [StackTraceEntry::to_string] stays inside the buffer it is given, whatever its size, and leaves a
    C string in it: as much of the line as there is room for. The line is the number, the address,
    the function with its offset and the file with its line, aligned in columns; a name that is
    missing is left out or replaced. *)
Theorem entry_line_written e addr func name mem size :
  entry_holds e addr func name -> 0 <= index e -> lenZ mem = size -> size <= 2 ^ 62 ->
  let l := trace_line (use_index e) (index e) addr func (offset e) name (line e) in
  (size = 0 -> entry_to_string e mem size = Some mem) /\
  (0 < size -> exists mem', entry_to_string e mem size = Some mem' /\ lenZ mem' = size /\
     c_text mem' = Some (take (Z.to_nat (size - 1)) l)).
Proof.
  intros He Hi Hm Hsz l. split_and!.
  - intros ->. apply lenZ_zero_inv in Hm as ->. by apply entry_to_string_empty with addr func name.
  - intros H0. destruct (shows_to_string e l mem size) as (rest & -> & Hlen & Hstr);
      [by exists addr, func, name | done | lia |].
    eexists. split; [done|]. split; [done|]. unfold c_text. rewrite Hstr. cbn [mbind option_bind].
    by rewrite take_app_length.
Qed.

(** ** A trace in a buffer *)

(** A line as it is put into a trace: cut to the line buffer, with a newline. *)
Definition trace_row (l : bytes) : bytes := take (Z.to_nat (kLineBufferSize - 1)) l ++ [c_nl].

(** Appending behind what is at the front of an object. *)
Lemma mem_store_append mem out d :
  take (length out) mem = out -> lenZ out + lenZ d <= lenZ mem -> exists mem',
  mem_store mem (lenZ out) d = Some mem' /\ lenZ mem' = lenZ mem /\
  take (length (out ++ d)) mem' = out ++ d.
Proof.
  intros Hp Hl. destruct (mem_store_front mem (lenZ out) out d) as (rest & -> & Hr & _);
    [apply lenZ_nonneg | unfold lenZ; by rewrite Nat2Z.id | done |].
  eexists. split; [done|]. split; [rewrite !lenZ_app; lia|]. rewrite app_assoc. apply take_app_length.
Qed.

Lemma write_raw_append mem out src d :
  take (length out) mem = out -> lenZ out + lenZ d <= lenZ mem -> mem_load src 0 (lenZ d) = Some d ->
  exists mem', write_raw mem (lenZ out) src (lenZ d) = Some (mem', lenZ d) /\ lenZ mem' = lenZ mem /\
  take (length (out ++ d)) mem' = out ++ d.
Proof.
  intros Hp Hl Hs. unfold write_raw. destruct (Z.eqb_spec (lenZ d) 0) as [H0|H0].
  - apply lenZ_zero_inv in H0 as ->. exists mem. by rewrite app_nil_r.
  - rewrite Hs. cbn [mbind option_bind].
    destruct (mem_store_append mem out d Hp Hl) as (mem' & -> & ?). by exists mem'.
Qed.

Lemma entries_loop_ok es : forall ls line_buffer buffer out size,
  Forall2 shows es ls -> lenZ line_buffer = kLineBufferSize -> lenZ buffer = size ->
  take (length out) buffer = out -> lenZ out < size -> size <= 2 ^ 62 ->
  exists k buffer', let rows := concat (trace_row <$> take k ls) in
    entries_loop es line_buffer buffer size (lenZ out) = Some (buffer', lenZ (out ++ rows)) /\
    lenZ buffer' = size /\ take (length (out ++ rows)) buffer' = out ++ rows /\ lenZ (out ++ rows) < size /\
    (k <= length ls)%nat /\
    forall l, ls !! k = Some l -> size <= lenZ (out ++ rows) + lenZ (trace_row l).
Proof.
  induction es as [|e es IH]; intros ls lb buffer out size Hes Hlb Hb Hpre Hout Hsize;
    inversion Hes as [|? l ? ls' Hs Hes']; subst; clear Hes; cbn [entries_loop].
  { exists 0%nat, buffer. cbn [take fmap list_fmap concat]. rewrite app_nil_r. split_and!; done || lia. }
  pose proof (lenZ_nonneg out). assert (lenZ buffer ⊖ 1 = lenZ buffer - 1) as -> by (apply u64_small; lia).
  assert (lenZ (trace_row l) = lenZ (take (Z.to_nat (kLineBufferSize - 1)) l) + 1) as Hrow
    by (unfold trace_row; rewrite lenZ_app; done).
  set (t := take (Z.to_nat (kLineBufferSize - 1)) l) in *. pose proof (lenZ_nonneg t).
  assert (lenZ t <= 1023) as Ht by (unfold t, lenZ; rewrite length_take; unfold kLineBufferSize; lia).
  destruct (Z.ltb_spec (lenZ out) (lenZ buffer - 1)) as [Hlt|Hge].
  2:{ exists 0%nat, buffer. cbn [take fmap list_fmap concat]. rewrite app_nil_r.
      split_and!; try done; try lia. intros l' [= <-]. lia. }
  destruct (shows_to_string e l lb kLineBufferSize Hs Hlb ltac:(done)) as (rest & -> & Hlb' & Hstr).
  fold t in Hlb', Hstr |- *. cbn [mbind option_bind]. rewrite Hstr. cbn [mbind option_bind fmap option_fmap option_map].
  change (Z.of_nat (length t)) with (lenZ t). rewrite u64_add_l, u64_small by lia.
  destruct (Z.ltb_spec (lenZ out + lenZ t + 1) (lenZ buffer)) as [Hfit|Hno].
  2:{ exists 0%nat, buffer. cbn [take fmap list_fmap concat]. rewrite app_nil_r.
      split_and!; try done; try lia. intros l' [= <-]. lia. }
  destruct (write_raw_append buffer out (t ++ Byte.x00 :: rest) t Hpre ltac:(lia) (mem_load_front _ _))
    as (b1 & -> & Hb1 & Hp1). cbn [mbind option_bind].
  rewrite u64_small by lia. rewrite <- lenZ_app. pose proof (lenZ_app out t) as Hot.
  rewrite (proj2 (Z.ltb_lt (lenZ (out ++ t)) _)) by lia.
  destruct (mem_store_append b1 (out ++ t) [c_nl] Hp1) as (b2 & -> & Hb2 & Hp2);
    [change (lenZ [_]) with 1; lia|].
  cbn [mbind option_bind]. rewrite u64_small by lia.
  assert (lenZ (out ++ t) + 1 = lenZ (out ++ trace_row l)) as -> by (rewrite (lenZ_app out (trace_row l)); lia).
  rewrite <- app_assoc in Hp2. fold (trace_row l) in Hp2.
  destruct (IH ls' (t ++ Byte.x00 :: rest) b2 (out ++ trace_row l) (lenZ buffer) Hes' Hlb')
    as (k & b' & Hr); [lia | done | rewrite (lenZ_app out (trace_row l)); lia | done |].
  exists (S k), b'. cbn [take fmap list_fmap concat lookup list_lookup length]. rewrite app_assoc.
  split_and!; try apply Hr. destruct Hr as (_ & _ & _ & _ & Hk & _). lia.
Qed.

Lemma entries_to_buffer_ok es ls buffer size :
  Forall2 shows es ls -> lenZ buffer = size -> 0 < size <= 2 ^ 62 ->
  exists k rest, let rows := concat (trace_row <$> take k ls) in
    stack_trace_entries_to_buffer es (Some buffer) size = Some (Some (rows ++ Byte.x00 :: rest)) /\
    lenZ rows < size /\ (k <= length ls)%nat /\
    forall l, ls !! k = Some l -> size <= lenZ rows + lenZ (trace_row l).
Proof.
  intros Hes Hb Hsize. unfold stack_trace_entries_to_buffer. rewrite (proj2 (Z.eqb_neq _ _)) by lia.
  destruct (entries_loop_ok es ls (char_array kLineBufferSize) buffer [] size Hes) as (k & b' & Hr);
    [done | done | done | change (lenZ []) with 0; lia | lia |].
  cbn [app] in Hr. change (lenZ []) with 0 in Hr. destruct Hr as (-> & Hb' & Hp & Hlt & Hk & Hnext).
  cbn [mbind option_bind]. set (rows := concat (trace_row <$> take k ls)) in *.
  destruct (mem_store_front b' (lenZ rows) rows [Byte.x00]) as (rest & -> & _);
    [apply lenZ_nonneg | unfold lenZ; by rewrite Nat2Z.id | change (lenZ [_]) with 1; lia |].
  exists k, rest. done.
Qed.

(** The rows have no NUL, so they are the C string of the buffer. *)
Lemma rows_no_nul ls k : Forall (fun l => Byte.x00 ∉ l) ls -> Byte.x00 ∉ concat (trace_row <$> take k ls).
Proof.
  intros Hls. revert k. induction Hls as [|l ls Hl Hls IH]; intros [|k]; cbn [take fmap list_fmap concat];
    try apply not_elem_of_nil.
  rewrite not_elem_of_app. split; [|apply IH]. unfold trace_row. rewrite not_elem_of_app. split.
  - intros (i & Hi & _)%elem_of_take. apply Hl. by eapply list_elem_of_lookup_2.
  - by apply (bool_decide_unpack _); vm_compute.
Qed.

(** ** Collecting a trace *)

Lemma c_text_Some mem s : c_text mem = Some s -> (Byte.x00 ∉ s) /\ exists rest, mem = s ++ Byte.x00 :: rest.
Proof.
  unfold c_text. revert s. induction mem as [|c mem IH]; intros s; cbn [c_strlen]; [done|].
  case_decide as Hc.
  - subst c. intros [= <-]. split; [apply not_elem_of_nil | by exists mem].
  - destruct (c_strlen mem) as [k|]; [|done]. cbn [mbind option_bind fmap option_fmap option_map] in *.
    intros [= <-]. destruct (IH (take k mem) eq_refl) as [Hn [rest Hrest]]. cbn [take].
    split; [apply not_elem_of_cons; by split|]. exists rest. cbn [app]. by f_equal.
Qed.

(** Behind what is stored at the front of a fresh array there is still a NUL. *)
Lemma mem_store_zeros n d mem :
  mem_store (replicate n Byte.x00) 0 d = Some mem -> (length d < n)%nat ->
  exists rest, mem = d ++ Byte.x00 :: rest.
Proof.
  intros E Hd. replace n with (length d + S (n - length d - 1))%nat in E by lia.
  rewrite replicate_add in E. pose proof (mem_store_mid [] (replicate (length d) Byte.x00)
    (replicate (S (n - length d - 1)) Byte.x00) d 0 eq_refl ltac:(by rewrite length_replicate)) as E'.
  cbn [app] in E'. rewrite E' in E. injection E as <-. by eexists.
Qed.

(** Copying a C string into a fresh array that is longer. *)
Lemma copy_name_ok n mem s :
  c_text mem = Some s -> lenZ s < n -> exists arr,
  copy_name (char_array n) mem = Some arr /\ c_array n s arr.
Proof.
  intros [Hn [rest ->]]%c_text_Some Hl. unfold copy_name, safe_strlen.
  rewrite c_strlen_text by done. cbn [mbind option_bind]. change (Z.of_nat (length s)) with (lenZ s).
  pose proof (lenZ_nonneg s).
  unfold char_array, write_raw. destruct (Z.eqb_spec (lenZ s) 0) as [H0|H0].
  - apply lenZ_zero_inv in H0 as ->. exists (char_array n). split; [done|]. unfold char_array. split.
    + unfold lenZ. rewrite length_replicate. lia.
    + split; [done|]. exists (replicate (Z.to_nat n - 1) Byte.x00). cbn [app].
      change (?x :: replicate ?k ?x) with (replicate (S k) x). f_equal. lia.
  - rewrite mem_load_front. cbn [mbind option_bind].
    destruct (mem_store_append (replicate (Z.to_nat n) Byte.x00) [] s) as (arr & E & Hlen & Hpre);
      [done | unfold lenZ in *; rewrite length_replicate; cbn [length]; lia |].
    change (lenZ []) with 0 in E. rewrite E. cbn [mbind option_bind]. exists arr. split; [done|].
    pose proof (mem_store_zeros _ _ _ E) as [rest' ->]; [unfold lenZ in *; lia|].
    split; [|split; [done | by exists rest']].
    rewrite Hlen. unfold lenZ. rewrite length_replicate. lia.
Qed.

(** A C string that is longer than the array. *)
Lemma copy_name_long n mem s :
  c_text mem = Some s -> 0 <= n < lenZ s -> copy_name (char_array n) mem = None.
Proof.
  intros [Hn [rest ->]]%c_text_Some Hl. unfold copy_name, safe_strlen.
  rewrite c_strlen_text by done. cbn [mbind option_bind]. change (Z.of_nat (length s)) with (lenZ s).
  unfold write_raw. rewrite (proj2 (Z.eqb_neq _ _)) by lia. rewrite mem_load_front. cbn [mbind option_bind].
  unfold mem_store. rewrite decide_False; [done|]. unfold char_array, lenZ in *. rewrite length_replicate. lia.
Qed.

(** A copy that fills an array from an object that is at least as long. *)
Lemma write_raw_whole n arr mem :
  lenZ arr = n -> 0 < n -> n <= lenZ mem -> exists c, write_raw arr 0 mem n = Some (take (Z.to_nat n) mem, c).
Proof.
  intros Harr Hn Hmem. set (part := take (Z.to_nat n) mem).
  assert (lenZ part = n) as Hpart by (unfold part, lenZ in *; rewrite length_take; lia).
  destruct (write_raw_append arr [] mem part) as (arr' & E & Hlen & Hpre); [done | change (lenZ []) with 0; lia | |].
  { rewrite mem_load_spec by lia. by rewrite Hpart. }
  rewrite Hpart in E. change (lenZ []) with 0 in E. rewrite E. eexists. do 2 f_equal.
  cbn [app] in Hpre. rewrite take_ge in Hpre; [done|]. unfold lenZ in *. lia.
Qed.

Lemma c_text_take n mem s : c_text mem = Some s -> lenZ s < n -> c_text (take (Z.to_nat n) mem) = Some s.
Proof.
  intros [Hs [rest ->]]%c_text_Some Hn. unfold c_text. rewrite take_app_ge by (unfold lenZ in *; lia).
  destruct (Z.to_nat n - length s)%nat eqn:Ek; [unfold lenZ in *; lia|]. cbn [take].
  rewrite c_strlen_text by done. cbn [mbind option_bind]. by rewrite take_app_length.
Qed.

Lemma hex_digits_no_nul fuel : forall v, 0 <= v -> Byte.x00 ∉ hex_digits v fuel.
Proof.
  assert (forall d, 0 <= d < 16 -> hex_digit d <> Byte.x00) as Hd.
  { intros d H E. pose proof (hex_value_digit d H) as Hv. rewrite E in Hv.
    change (hex_value Byte.x00) with (-48) in Hv. lia. }
  induction fuel as [|fuel IH]; intros v Hv; cbn [hex_digits]; [apply not_elem_of_nil|].
  rewrite not_elem_of_app, not_elem_of_cons. split.
  - destruct (v <? 16); [apply not_elem_of_nil | apply IH; zmod].
  - split; [|apply not_elem_of_nil]. intros E. destruct (Hd (v mod 16)); [zmod | done].
Qed.

Section collecting.
Context (backtrace : Z -> list Z) (dladdr : Z -> option Dl_info).
Context (cxa_demangle : bytes -> bytes -> Z -> option (demangled * bytes * Z * Z)).

(** [demangle] is what a mangled name stands for. [__cxa_demangle] says so in the output buffer when
    it has room for it, and reports what is not a mangled name. *)
Context (demangle : bytes -> option bytes).

Definition demangles : Prop := forall mem name buffer, c_text mem = Some name ->
  match demangle name with
  | Some d => lenZ d < lenZ buffer -> exists buffer' len,
      cxa_demangle mem buffer (lenZ buffer) = Some (InBuffer, buffer', len, 0) /\
      c_array (lenZ buffer) d buffer'
  | None => exists status, status <> 0 /\
      cxa_demangle mem buffer (lenZ buffer) = Some (Null, buffer, lenZ buffer, status)
  end.

Definition info_at (a : Z) : Dl_info := default no_info (dladdr a).

(** What is shown of the name of the function and of the file. *)
Definition function_text (info : Dl_info) : bytes :=
  match dli_sname info ≫= c_text with Some s => default s (demangle s) | None => [] end.

Definition file_text_of (info : Dl_info) : bytes := default [] (dli_fname info ≫= c_text).

(** The names at an address fit the arrays they are copied through, and as many bytes can be read
    at the symbol's name as are copied. *)
Definition symbol_fits (info : Dl_info) : Prop := forall mem, dli_sname info = Some mem ->
  kSymbolBufferSize <= lenZ mem /\ exists s, c_text mem = Some s /\ lenZ s < kSymbolBufferSize.

Record names_fit (info : Dl_info) : Prop := {
  nf_symbol : symbol_fits info;
  nf_function : lenZ (function_text info) < kFunctionStrLength;
  nf_file : forall mem, dli_fname info = Some mem ->
    exists s, c_text mem = Some s /\ lenZ s < kFileStrLength;
}.

Record buffers_ok (b : buffers) : Prop := {
  bo_address : lenZ (address_buf b) = kAddressStrLength;
  bo_demangled : lenZ (demangled_buf b) = kDemangledBufferSize;
  bo_symbol : lenZ (symbol_buf b) = kSymbolBufferSize;
}.

Context (Hdem : demangles).

Lemma demangle_symbol_ok mem name buffer :
  c_text mem = Some name -> lenZ buffer = kDemangledBufferSize ->
  lenZ (default name (demangle name)) < kDemangledBufferSize -> exists out buffer',
  demangle_symbol_safe cxa_demangle mem buffer kDemangledBufferSize = Some (out, buffer') /\
  c_text out = Some (default name (demangle name)) /\ lenZ buffer' = kDemangledBufferSize.
Proof.
  intros Hm Hb Hl. unfold demangle_symbol_safe. pose proof (Hdem mem name buffer Hm) as Hd.
  change (kDemangledBufferSize =? 0) with false. cbv iota. rewrite Hb in Hd.
  destruct (demangle name) as [d|]; cbn [default] in *.
  - destruct (Hd Hl) as (b' & len & -> & Harr). exists b', b'. split; [done|].
    split; [by eapply c_array_text | apply Harr].
  - destruct Hd as (status & _ & ->). by exists mem, buffer.
Qed.

Lemma function_at_ok info sb db :
  symbol_fits info -> lenZ (function_text info) < kDemangledBufferSize -> lenZ sb = kSymbolBufferSize -> lenZ db = kDemangledBufferSize -> exists out sb' db',
  function_at cxa_demangle info sb db = Some (out, sb', db') /\ c_text out = Some (function_text info) /\
  lenZ sb' = kSymbolBufferSize /\ lenZ db' = kDemangledBufferSize.
Proof.
  intros Hs Hf Hsb Hdb. unfold function_at, function_text, symbol_fits in *.
  destruct (dli_sname info) as [mem|]; cbn [mbind option_bind] in *.
  2: { exists [Byte.x00], sb, db. done. }
  destruct (Hs mem eq_refl) as (Hroom & s & Hm & Hlen). rewrite Hm in *.
  pose proof (c_text_Some _ _ Hm) as [Hn [rest ->]].
  destruct (write_raw_whole kSymbolBufferSize sb (s ++ Byte.x00 :: rest) Hsb) as [c ->]; [done | lia |].
  cbn [mbind option_bind]. pose proof (c_text_take kSymbolBufferSize _ s Hm Hlen) as Hps.
  set (part := take (Z.to_nat kSymbolBufferSize) (s ++ Byte.x00 :: rest)) in *.
  assert (lenZ part = kSymbolBufferSize) as Hpart by (unfold part, lenZ in *; rewrite length_take; lia).
  destruct (demangle_symbol_ok part s db Hps Hdb) as (out & db' & -> & Hout & Hdb').
  { done. }
  cbn [mbind option_bind]. by exists out, part, db'.
Qed.

(** The line of the frame [i] at the address [a]. *)
Definition frame_line (show : bool) (first_frame i a : Z) : bytes :=
  trace_line show (if show then i ⊖ first_frame else 0) (bs "0x" ++ hex_digits a 16)
    (function_text (info_at a)) (offset_at (info_at a) a) (file_text_of (info_at a)) 0.

Lemma is_valid_address_range a : is_valid_address a = true -> 0 <= a < 2 ^ 64.
Proof.
  unfold is_valid_address. destruct (Z.eqb_spec a 0), (Z.ltb_spec a 0x1000); try done.
  cbn [orb]. destruct (Z.leb_spec 0x800000000000 a); done || lia.
Qed.

Lemma offset_at_nonneg info a : 0 <= offset_at info a.
Proof.
  unfold offset_at. destruct (dli_saddr info); [|done]. destruct (_ <=? _); [apply u64_range | done].
Qed.

(** What [format_address_safe] leaves in [address_buf]. *)
Definition address_text (a : Z) (b : buffers) : bytes :=
  bs "0x" ++ hex_digits a 16 ++ Byte.x00 :: drop (3 + length (hex_digits a 16)) (address_buf b).

Lemma address_text_array a b :
  0 <= a < 2 ^ 64 -> buffers_ok b -> c_array kAddressStrLength (bs "0x" ++ hex_digits a 16) (address_text a b).
Proof.
  intros Ha [Hab _ _]. destruct (hex_digits_spec 16 a ltac:(lia) Ha) as [_ Hd]. split; [|split].
  - unfold address_text, lenZ, kAddressStrLength in *. rewrite !length_app. cbn [length].
    rewrite length_drop. change (length (bs "0x")) with 2%nat. lia.
  - rewrite not_elem_of_app. split; [by apply (bool_decide_unpack _); vm_compute|].
    apply hex_digits_no_nul. lia.
  - eexists. unfold address_text. by rewrite app_assoc.
Qed.

(** The address is always there; what can fail are the names. *)
Lemma collect_frame_names show first i a b :
  0 <= a < 2 ^ 64 -> buffers_ok b ->
  collect_frame dladdr cxa_demangle entry_new show first i a b =
    ('(function_name, sb, db) ← function_at cxa_demangle (info_at a) (symbol_buf b) (demangled_buf b);
     func ← copy_name (char_array kFunctionStrLength) function_name;
     name ← copy_name (char_array kFileStrLength) (default [Byte.x00] (dli_fname (info_at a)));
     Some ({| address := address_text a b; function := func; file := name;
              index := if show then i ⊖ first else 0; line := 0;
              offset := offset_at (info_at a) a; use_index := show |},
           {| address_buf := address_text a b; demangled_buf := db; symbol_buf := sb |})).
Proof.
  intros Ha Hb. pose proof (address_text_array a b Ha Hb) as Harr. unfold collect_frame.
  destruct (format_address_ok a (address_buf b) (lenZ (address_buf b)) Ha) as (digits & -> & _ & _ & ->).
  { rewrite (bo_address _ Hb). done. }
  cbn [mbind option_bind]. fold (address_text a b).
  destruct (write_raw_append (char_array kAddressStrLength) [] (address_text a b) (address_text a b) eq_refl)
    as (addr & E & Hl & Hp); [destruct Harr as [-> _]; done | apply mem_load_all |].
  change (lenZ []) with 0 in E. change (address entry_new) with (char_array kAddressStrLength).
  rewrite E. cbn [mbind option_bind].
  assert (addr = address_text a b) as ->; [|done].
  cbn [app] in Hp. rewrite take_ge in Hp; [done|]. destruct Harr as [Hla _].
  change (lenZ (char_array kAddressStrLength)) with kAddressStrLength in Hl. unfold lenZ in *. lia.
Qed.

Lemma collect_frame_ok show first i a b :
  0 <= a < 2 ^ 64 -> names_fit (info_at a) -> buffers_ok b -> exists e b',
  collect_frame dladdr cxa_demangle entry_new show first i a b = Some (e, b') /\ buffers_ok b' /\
  shows e (frame_line show first i a).
Proof.
  intros Ha Hn Hb. rewrite collect_frame_names by done. pose proof (address_text_array a b Ha Hb) as Harr.
  destruct (function_at_ok (info_at a) (symbol_buf b) (demangled_buf b) (nf_symbol _ Hn))
    as (out & sb' & db' & -> & Hout & Hsb' & Hdb'); [| apply Hb | apply Hb |].
  { pose proof (nf_function _ Hn). unfold kFunctionStrLength, kDemangledBufferSize in *. lia. }
  cbn [mbind option_bind].
  destruct (copy_name_ok kFunctionStrLength out _ Hout (nf_function _ Hn)) as (func & -> & Hf).
  cbn [mbind option_bind].
  assert (exists s, c_text (default [Byte.x00] (dli_fname (info_at a))) = Some s /\ lenZ s < kFileStrLength /\
    s = file_text_of (info_at a)) as (s & Hs & Hlen & ->).
  { unfold file_text_of. destruct (dli_fname (info_at a)) as [mem|] eqn:Em; cbn [default mbind option_bind].
    - destruct (nf_file _ Hn mem Em) as (s & Hs & Hlen). exists s. by rewrite Hs.
    - by exists []. }
  destruct (copy_name_ok kFileStrLength _ _ Hs Hlen) as (name & -> & Hname).
  cbn [mbind option_bind].
  eexists _, _. split; [done|]. split; [by split; [apply Harr | ..]|].
  exists (bs "0x" ++ hex_digits a 16), (function_text (info_at a)), (file_text_of (info_at a)).
  split; [split_and!; [exact Harr | exact Hf | exact Hname | apply offset_at_nonneg] |].
  split; [cbn [index]; destruct show; [apply u64_range | done] | done].
Qed.

(** The lines of the valid addresses of [stack], whose first frame has the number [i]. *)
Fixpoint frame_lines (show : bool) (first_frame i : Z) (stack : list Z) : list bytes :=
  match stack with
  | [] => []
  | a :: rest =>
    (if is_valid_address a then [frame_line show first_frame i a] else []) ++
    frame_lines show first_frame (i + 1) rest
  end.

Definition frames_fit (stack : list Z) : Prop :=
  Forall (fun a => is_valid_address a = true -> names_fit (info_at a)) stack.

Lemma collect_loop_ok show first stack : forall i k b,
  frames_fit stack -> buffers_ok b -> (length stack <= k)%nat -> exists es,
  collect_loop dladdr cxa_demangle (replicate k entry_new) show first i stack b = Some es /\
  Forall2 shows es (frame_lines show first i stack).
Proof.
  induction stack as [|a stack IH]; intros i k b Hfit Hb Hk; cbn [collect_loop frame_lines].
  { exists []. by split; [|constructor]. }
  apply Forall_cons in Hfit as [Ha Hfit]. cbn [length] in Hk.
  destruct (is_valid_address a) eqn:Hv; cbn [negb].
  - destruct k as [|k]; [lia|]. cbn [replicate].
    destruct (collect_frame_ok show first i a b (is_valid_address_range a Hv) (Ha eq_refl) Hb)
      as (e & b' & -> & Hb' & He). cbn [mbind option_bind].
    destruct (IH (i + 1) k b' Hfit Hb' ltac:(lia)) as (es & -> & Hes).
    exists (e :: es). split; [done|]. cbn [app]. by constructor.
  - destruct (IH (i + 1) k b Hfit Hb ltac:(lia)) as (es & -> & Hes). by exists es.
Qed.

(** The lines of the whole trace. *)
Definition all_lines (show : bool) (first_frame max_frames : Z) : list bytes :=
  let m := Z.min max_frames kPlatformMaxFrames in
  let f := Z.min first_frame m in
  if m <=? f then [] else frame_lines show f f (drop (Z.to_nat f) (backtrace m)).

Context (Hback : forall n, 0 <= n -> lenZ (backtrace n) <= n).

Lemma collect_stack_trace_ok show first max :
  0 <= first -> 0 <= max -> frames_fit (backtrace (Z.min max kPlatformMaxFrames)) -> exists es,
  collect_stack_trace backtrace dladdr cxa_demangle
    (Some (replicate (Z.to_nat kPlatformMaxFrames) entry_new)) show first max = Some es /\
  Forall2 shows es (all_lines show first max).
Proof.
  intros Hf Hm Hfit. unfold collect_stack_trace, all_lines.
  set (m := Z.min max kPlatformMaxFrames) in *. set (f := Z.min first m).
  destruct (m <=? f); [by exists []; split; [|constructor]|].
  apply collect_loop_ok.
  - by apply Forall_drop.
  - by split.
  - rewrite length_drop. pose proof (Hback m ltac:(unfold m, kPlatformMaxFrames; lia)).
    unfold lenZ, m, kPlatformMaxFrames in *. lia.
Qed.

(** C27. A stack trace. On a platform where [backtrace] returns no more frames than it is asked for and
    [__cxa_demangle] stays inside the buffer it is given, and for frames that fit their arrays
    ([frames_fit]: 512 bytes can be read at every symbol's name, a demangled name has fewer than 256
    characters and a path fewer than 512; otherwise the buffers are left, [long_names_overrun]),
    collecting and printing stays inside every buffer on
    the stack, and the string is the lines of the frames from the first one asked for on, frames
    whose address cannot be one left out, each line cut to 1023 characters, with the number, the
    address in hexadecimal, the demangled name, the offset and the file; as many of them as fit 4095
    characters, never a part of one. *)
Theorem stack_trace_text show first max :
  0 <= first < 2 ^ 64 - 1 -> 0 <= max ->
  frames_fit (backtrace (Z.min max kPlatformMaxFrames)) -> exists k,
  let lines := all_lines show (first + 1) max in
  let text := concat (trace_row <$> take k lines) in
  trace_string backtrace dladdr cxa_demangle show first max = Some text /\
  lenZ text < kTraceBufSize /\ (k <= length lines)%nat /\
  forall l, lines !! k = Some l -> kTraceBufSize <= lenZ text + lenZ (trace_row l).
Proof.
  intros Hf Hm Hfit. unfold trace_string, trace_to_buffer. rewrite u64_small by lia.
  destruct (collect_stack_trace_ok show (first + 1) max ltac:(lia) Hm Hfit) as (es & -> & Hes).
  cbn [mbind option_bind].
  destruct (entries_to_buffer_ok es _ (char_array kTraceBufSize) kTraceBufSize Hes)
    as (k & rest & -> & Hlen & Hk & Hnext); [done | done |].
  cbn [mbind option_bind]. exists k. split; [|done].
  assert (Forall (fun l => Byte.x00 ∉ l) (all_lines show (first + 1) max)) as Hno.
  { clear - Hes. induction Hes; constructor; [by eapply shows_no_nul | done]. }
  pose proof (rows_no_nul _ k Hno) as Hrows. unfold c_text. rewrite c_strlen_text by done.
  cbn [mbind option_bind]. by rewrite take_app_length.
Qed.

(** What does not fit. A symbol's name is copied with [sizeof(symbol_buf)], past the end of a
    string table that has fewer bytes left; and a demangled name of more than 256 characters or a
    path of more than 512 is copied past the end of the entry's array: undefined behaviour, all
    three, on the frame that is being collected. *)
Theorem long_names_overrun show first i a b :
  0 <= a < 2 ^ 64 -> buffers_ok b ->
  (forall mem, dli_sname (info_at a) = Some mem -> lenZ mem < kSymbolBufferSize ->
     collect_frame dladdr cxa_demangle entry_new show first i a b = None) /\
  (symbol_fits (info_at a) ->
   kFunctionStrLength < lenZ (function_text (info_at a)) < kDemangledBufferSize ->
     collect_frame dladdr cxa_demangle entry_new show first i a b = None) /\
  (symbol_fits (info_at a) -> lenZ (function_text (info_at a)) < kFunctionStrLength ->
   kFileStrLength < lenZ (file_text_of (info_at a)) ->
     collect_frame dladdr cxa_demangle entry_new show first i a b = None).
Proof.
  intros Ha Hb. split_and!; [intros mem Hmem Hroom | intros Hs Hf | intros Hs Hf Hfile];
    rewrite collect_frame_names by done.
  - unfold function_at. rewrite Hmem. unfold write_raw. change (kSymbolBufferSize =? 0) with false. cbv iota.
    unfold mem_load. rewrite decide_False by lia. done.
  - destruct (function_at_ok (info_at a) (symbol_buf b) (demangled_buf b)) as (out & sb & db & -> & Hout & _);
      [done | lia | apply Hb | apply Hb |].
    cbn [mbind option_bind]. by rewrite (copy_name_long kFunctionStrLength out _ Hout) by (unfold kFunctionStrLength in *; lia).
  - destruct (function_at_ok (info_at a) (symbol_buf b) (demangled_buf b)) as (out & sb & db & -> & Hout & _);
      [done | unfold kFunctionStrLength, kDemangledBufferSize in *; lia | apply Hb | apply Hb |].
    cbn [mbind option_bind]. destruct (copy_name_ok kFunctionStrLength out _ Hout) as (func & Ef & _); [done|].
    rewrite Ef. cbn [mbind option_bind].
    assert (exists s, c_text (default [Byte.x00] (dli_fname (info_at a))) = Some s /\ kFileStrLength < lenZ s)
      as (s & Hname & Hl).
    { unfold file_text_of in Hfile. destruct (dli_fname (info_at a)) as [mem|]; simpl in Hfile |- *;
        [destruct (c_text mem) as [s|]; [by exists s|]|]; by vm_compute in Hfile. }
    by rewrite (copy_name_long kFileStrLength _ _ Hname) by (unfold kFileStrLength in *; lia).
Qed.
End collecting.

(** ** Witnesses *)

(** A program of three frames, the second at an address that cannot be one; the name of the first is
    mangled. *)
Definition three_frames (n : Z) : list Z := take (Z.to_nat n) [0x401000; 0; 0x402010].

Definition string_table (name : bytes) : bytes := name ++ char_array kSymbolBufferSize.

Definition two_symbols (a : Z) : option Dl_info :=
  Some {| dli_sname := Some (string_table (if a =? 0x401000 then bs "_Z1fv" else bs "main"));
          dli_fname := Some (bs "/bin/x" ++ [Byte.x00]);
          dli_saddr := Some (if a =? 0x401000 then 0x401000 else 0x402000) |}.

Definition demangle_one (name : bytes) : option bytes :=
  if bool_decide (name = bs "_Z1fv") then Some (bs "f()") else None.

Definition cxa_demangle_one (mem buffer : bytes) (len : Z) : option (demangled * bytes * Z * Z) :=
  name ← c_text mem;
  match demangle_one name with
  | Some d => buffer' ← mem_store buffer 0 (d ++ [Byte.x00]); Some (InBuffer, buffer', len, 0)
  | None => Some (Null, buffer, len, -2)
  end.

Lemma demangles_one : demangles cxa_demangle_one demangle_one.
Proof.
  intros mem name buffer Hm. unfold cxa_demangle_one. rewrite Hm. cbn [mbind option_bind].
  unfold demangle_one. case_bool_decide; [|by exists (-2)]. intros Hl.
  assert (lenZ (bs "f()" ++ [Byte.x00]) <= lenZ buffer) as Hroom by (change (lenZ (bs "f()")) with 3 in Hl;
    change (lenZ (bs "f()" ++ [Byte.x00])) with 4; lia).
  destruct (mem_store_append buffer [] (bs "f()" ++ [Byte.x00]) eq_refl) as (b' & E & Hb' & Hp);
    [change (lenZ []) with 0; lia|].
  change (lenZ []) with 0 in E. rewrite E. cbn [mbind option_bind]. eexists _, _. split; [done|].
  split; [done|]. split; [by apply (bool_decide_unpack _); vm_compute|].
  exists (drop 4 b'). rewrite <- (take_drop 4 b') at 1. cbn [app] in Hp.
  change (length (bs "f()" ++ [Byte.x00])) with 4%nat in Hp. by rewrite Hp.
Qed.

Lemma two_symbols_fit a : names_fit demangle_one (info_at two_symbols a).
Proof.
  unfold info_at, two_symbols. destruct (a =? 0x401000); (split; [intros mem [= <-]; split; [done|] | done |
    intros mem [= <-]]); eexists; (split; [vm_compute; reflexivity | done]).
Qed.

Lemma stack_trace_text_witness :
  trace_string three_frames two_symbols cxa_demangle_one true 0 64 =
    Some (trace_row (bs "@1     0x402010            main+0x16                     " ++ bs " at /bin/x")) /\
  exists k, trace_string three_frames two_symbols cxa_demangle_one true 0 64 =
    Some (concat (trace_row <$> take k (all_lines three_frames two_symbols demangle_one true 1 64))).
Proof.
  split; [vm_compute; reflexivity|].
  destruct (stack_trace_text three_frames two_symbols cxa_demangle_one demangle_one demangles_one)
    with (show := true) (first := 0) (max := 64) as (k & H & _).
  - intros n Hn. unfold three_frames, lenZ. rewrite length_take. lia.
  - lia.
  - lia.
  - apply Forall_true. intros a _. apply two_symbols_fit.
  - exists k. exact H.
Defined.

Definition long_name : bytes := replicate 300 "x"%byte.

Definition long_symbol (a : Z) : option Dl_info :=
  Some {| dli_sname := Some (long_name ++ char_array kSymbolBufferSize); dli_fname := None; dli_saddr := None |}.

Definition fresh_buffers : buffers :=
  {| address_buf := char_array kAddressStrLength; demangled_buf := char_array kDemangledBufferSize;
     symbol_buf := char_array kSymbolBufferSize |}.

Lemma long_names_overrun_witness :
  collect_frame long_symbol cxa_demangle_one entry_new true 0 0 0x401000 fresh_buffers = None.
Proof.
  destruct (long_names_overrun long_symbol cxa_demangle_one demangle_one demangles_one true 0 0 0x401000
    fresh_buffers) as (_ & H & _); [lia | by split |].
  apply H.
  - intros mem [= <-]. split; [done|]. eexists. split; [vm_compute; reflexivity | done].
  - split; reflexivity.
Defined.

Definition example_entry : StackTraceEntry :=
  {| address := bs "0x401000" ++ char_array 24; function := bs "f()" ++ char_array 253;
     file := char_array 512; index := 3; line := 0; offset := 16; use_index := true |}.

Lemma example_entry_holds : entry_holds example_entry (bs "0x401000") (bs "f()") [].
Proof.
  assert (forall s, bool_decide (Byte.x00 ∈ bs s) = false -> Byte.x00 ∉ bs s) as Hs
    by (intros s; apply bool_decide_eq_false).
  split_and!; (split; [reflexivity|]) || done; (split; [by apply Hs || apply not_elem_of_nil | by eexists]).
Qed.

Lemma entry_line_written_witness :
  exists mem', entry_to_string example_entry (char_array 24) 24 = Some mem' /\
    c_text mem' = Some (bs "@3     0x401000        ").
Proof.
  destruct (entry_line_written example_entry (bs "0x401000") (bs "f()") [] (char_array 24) 24) as [_ H];
    [exact example_entry_holds | discriminate | reflexivity | discriminate |].
  destruct (H ltac:(reflexivity)) as (mem' & E & _ & Ht). exists mem'. split; [exact E|].
  etransitivity; [exact Ht | vm_compute; reflexivity].
Defined.
