(* ===== verification/UnwindTrace.v ===== *)
(** * Stack traces of the other builds

    [collect_stack_trace] of src/src/core/diagnostics/stack_trace.cc as built with LLVM's libunwind,
    and as built for Windows. Entries, lines and buffers are those of StackTrace.v; the unwinder and
    the symbol handler are parameters. *)

From S2P Require Import Prelude StringUtil StackTrace.

(** ** libunwind *)

Section unwind.
(** A cursor stands at a frame: [get_ip] is [unw_get_reg] of the instruction pointer, [get_proc_name]
    is [unw_get_proc_name] with the buffer and the offset it leaves, [None] for a failure. [unwind] is
    where [unw_getcontext] and [unw_init_local] put the cursor, and where [unw_step] takes it. *)
Context {F : Type} (unwind : option (F * list F)) (get_ip : F -> option Z).
Context (get_proc_name : F -> bytes -> option (bytes * Z)).
Context (dladdr : Z -> option Dl_info).
Context (cxa_demangle : bytes -> bytes -> Z -> option (demangled * bytes * Z * Z)).

(** The name of the function and the offset in it, with the buffers after it. *)
Definition unwind_function (f : F) (ip : Z) (b : buffers) : option (bytes * Z * bytes * bytes) :=
  match get_proc_name f (symbol_buf b) with
  | Some (symbol_buf, symbol_offset) =>
    '(name, demangled_buf) ← demangle_symbol_safe cxa_demangle symbol_buf (demangled_buf b) kDemangledBufferSize;
    Some (name, symbol_offset, symbol_buf, demangled_buf)
  | None =>
    let info := default no_info (dladdr ip) in
    '(name, symbol_buf, demangled_buf) ← function_at cxa_demangle info (symbol_buf b) (demangled_buf b);
    Some (name, if bool_decide (dli_sname info = None) then 0 else offset_at info ip, symbol_buf, demangled_buf)
  end.

Definition unwind_frame (out : StackTraceEntry) (show : bool) (first_frame frame_index : Z) (f : F) (ip : Z)
    (b : buffers) : option (StackTraceEntry * buffers) :=
  formatted ← format_address_safe ip (Some (address_buf b)) (lenZ (address_buf b));
  address_buf ← formatted;
  '(addr, _) ← write_raw (address out) 0 address_buf (lenZ address_buf);
  '(function_name, off, symbol_buf, demangled_buf) ← unwind_function f ip
    {| address_buf := address_buf; demangled_buf := demangled_buf b; symbol_buf := symbol_buf b |};
  func ← copy_name (function out) function_name;
  let file_name := default [Byte.x00] (dli_fname (default no_info (dladdr ip))) in
  '(file, _) ← write_raw (file out) 0 file_name kFileStrLength;
  Some ({| address := addr; function := func; file := file;
           index := if show then frame_index ⊖ first_frame else 0; line := 0;
           offset := off; use_index := show |},
        {| address_buf := address_buf; demangled_buf := demangled_buf; symbol_buf := symbol_buf |}).

(** The loop, from a frame on; [room] is [max_frames] less what is collected, [entries] what is left
    of [out]. *)
Fixpoint unwind_loop (entries : list StackTraceEntry) (show : bool) (first_frame frame_index room : Z)
    (frames : list F) (b : buffers) : option (list StackTraceEntry) :=
  match frames with
  | [] => Some []
  | f :: rest =>
    if frame_index <? first_frame then unwind_loop entries show first_frame (frame_index + 1) room rest b
    else if room <=? 0 then Some []
    else
      match get_ip f with
      | None => unwind_loop entries show first_frame (frame_index + 1) room rest b
      | Some ip =>
        if negb (is_valid_address ip) then unwind_loop entries show first_frame (frame_index + 1) room rest b
        else
          match entries with
          | [] => None
          | out :: entries' =>
            '(e, b') ← unwind_frame out show first_frame frame_index f ip b;
            (e ::.) <$> unwind_loop entries' show first_frame (frame_index + 1) (room - 1) rest b'
          end
      end
  end.

Definition unwind_stack_trace (out : option (list StackTraceEntry)) (show : bool)
    (first_frame max_frames : Z) : option (list StackTraceEntry) :=
  match out with
  | None => Some []
  | Some entries =>
    let max_frames := Z.min max_frames kPlatformMaxFrames in
    let first_frame := Z.min first_frame max_frames in
    if max_frames <=? first_frame then Some []
    else
      match unwind with
      | None => Some []
      | Some (f, rest) =>
        unwind_loop entries show first_frame 0 max_frames (f :: rest)
          {| address_buf := char_array kAddressStrLength; demangled_buf := char_array kDemangledBufferSize;
             symbol_buf := char_array kSymbolBufferSize |}
      end
  end.
End unwind.

(** ** Windows *)

Section windows.
(** [capture n] is [CaptureStackBackTrace(0, n, stack, nullptr)]; [sym_from_addr] is what
    [SymFromAddr] leaves in [symbol->Name], with the 260 bytes from there on; [sym_line] is
    [SymGetLineFromAddr64]. *)
Context (capture : Z -> list Z) (sym_from_addr : Z -> option bytes) (sym_line : Z -> option (bytes * Z)).

Definition kWindowsMaxFrames : Z := 62.

Definition windows_frame (show : bool) (i current_address : Z) (address_buf : bytes) :
    option (StackTraceEntry * bytes) :=
  formatted ← format_address_safe current_address (Some address_buf) (lenZ address_buf);
  address_buf ← formatted;
  let function_ := default [Byte.x00] (sym_from_addr current_address) in
  let '(file_, line_number) := default ([Byte.x00], 0) (sym_line current_address) in
  '(addr, _) ← write_raw (address entry_new) 0 address_buf kAddressStrLength;
  '(func, _) ← write_raw (function entry_new) 0 function_ kFunctionStrLength;
  '(name, _) ← write_raw (file entry_new) 0 file_ kFileStrLength;
  Some ({| address := addr; function := func; file := name; index := if show then i else 0;
           line := line_number; offset := 0; use_index := show |}, address_buf).

(** [stack[i + first_frame]] is read for every [i] below [frames]; what [CaptureStackBackTrace] did not
    write is indeterminate. *)
Fixpoint windows_loop (n : nat) (show : bool) (first_frame i : Z) (stack : list Z) (address_buf : bytes) :
    option (list StackTraceEntry) :=
  match n with
  | O => Some []
  | S n =>
    current_address ← stack !! Z.to_nat (i + first_frame);
    if negb (is_valid_address current_address) then windows_loop n show first_frame (i + 1) stack address_buf
    else
      '(e, address_buf) ← windows_frame show i current_address address_buf;
      (e ::.) <$> windows_loop n show first_frame (i + 1) stack address_buf
  end.

Definition windows_stack_trace (show : bool) (first_frame max_frames : Z) : option (list StackTraceEntry) :=
  let max_frames := Z.min max_frames kWindowsMaxFrames in
  let first_frame := Z.min first_frame max_frames in
  if max_frames <=? first_frame then Some []
  else
    let stack := capture (first_frame + max_frames) in
    let raw_frames := u16 (lenZ stack) in
    let frames := Z.min (u16 (raw_frames ⊖ first_frame)) (u16 max_frames) in
    windows_loop (Z.to_nat frames) show first_frame 0 stack (char_array 32).
End windows.

(** * Properties *)

Lemma char_array_length n : 0 <= n -> lenZ (char_array n) = n.
Proof. intros Hn. unfold char_array, lenZ. rewrite length_replicate. lia. Qed.

Section unwinding.
Context {F : Type} (get_ip : F -> option Z) (get_proc_name : F -> bytes -> option (bytes * Z)).
Context (dladdr : Z -> option Dl_info).
Context (cxa_demangle : bytes -> bytes -> Z -> option (demangled * bytes * Z * Z)) (demangle : bytes -> option bytes).
Context (Hdem : demangles cxa_demangle demangle).
Abbreviation info_at := (info_at dladdr).
Abbreviation shown := (frame_line dladdr demangle).

(** libunwind and the dynamic linker say the same of a frame. *)
Definition proc_agrees (f : F) (a : Z) : Prop :=
  (dli_sname (info_at a) = None -> dli_saddr (info_at a) = None) /\
  forall buf buf' off, lenZ buf = kSymbolBufferSize -> get_proc_name f buf = Some (buf', off) ->
    lenZ buf' = kSymbolBufferSize /\ off = offset_at (info_at a) a /\
    exists s, c_text buf' = Some s /\ default s (demangle s) = function_text demangle (info_at a).

(** What is at the path can be read as far as the code copies it. *)
Definition path_readable (a : Z) : Prop :=
  kFileStrLength <= lenZ (default [Byte.x00] (dli_fname (info_at a))).

Definition frame_ok (f : F) (a : Z) : Prop :=
  names_fit demangle (info_at a) /\ proc_agrees f a /\ path_readable a.

Lemma unwind_function_ok f a b :
  names_fit demangle (info_at a) -> proc_agrees f a -> buffers_ok b -> exists name sb db,
  unwind_function get_proc_name dladdr cxa_demangle f a b = Some (name, offset_at (info_at a) a, sb, db) /\
  c_text name = Some (function_text demangle (info_at a)) /\
  lenZ sb = kSymbolBufferSize /\ lenZ db = kDemangledBufferSize.
Proof.
  intros Hn [Hs Hp] Hb. unfold unwind_function. fold (info_at a).
  assert (lenZ (function_text demangle (info_at a)) < kDemangledBufferSize) as Hlen.
  { pose proof (nf_function _ _ Hn). unfold kFunctionStrLength, kDemangledBufferSize in *. lia. }
  destruct (get_proc_name f (symbol_buf b)) as [[sb off]|] eqn:Ep.
  - destruct (Hp _ _ _ (bo_symbol _ Hb) Ep) as (Hsb & -> & s & Hc & Hd).
    destruct (demangle_symbol_ok cxa_demangle demangle Hdem sb s (demangled_buf b) Hc) as (out & db & -> & Hout & Hdb);
      [apply Hb | by rewrite Hd |].
    rewrite Hd in Hout. cbn [mbind option_bind]. by exists out, sb, db.
  - destruct (function_at_ok cxa_demangle demangle Hdem (info_at a) (symbol_buf b) (demangled_buf b))
      as (out & sb & db & -> & Hout & ? & ?); [apply Hn | done | apply Hb | apply Hb |].
    cbn [mbind option_bind]. exists out, sb, db. case_bool_decide as Hsn; [|done].
    unfold offset_at. by rewrite Hs.
Qed.

Lemma unwind_frame_names show first i f a b :
  0 <= a < 2 ^ 64 -> buffers_ok b ->
  unwind_frame get_proc_name dladdr cxa_demangle entry_new show first i f a b =
    ('(function_name, off, sb, db) ← unwind_function get_proc_name dladdr cxa_demangle f a
       {| address_buf := address_text a b; demangled_buf := demangled_buf b; symbol_buf := symbol_buf b |};
     func ← copy_name (char_array kFunctionStrLength) function_name;
     '(name, _) ← write_raw (char_array kFileStrLength) 0 (default [Byte.x00] (dli_fname (info_at a))) kFileStrLength;
     Some ({| address := address_text a b; function := func; file := name;
              index := if show then i ⊖ first else 0; line := 0; offset := off; use_index := show |},
           {| address_buf := address_text a b; demangled_buf := db; symbol_buf := sb |})).
Proof.
  intros Ha Hb. destruct (address_text_array a b Ha Hb) as [Hlen _]. unfold unwind_frame.
  destruct (format_address_ok a (address_buf b) (lenZ (address_buf b)) Ha) as (digits & -> & _ & _ & ->).
  { rewrite (bo_address _ Hb). done. }
  cbn [mbind option_bind]. fold (address_text a b).
  destruct (write_raw_whole (lenZ (address_text a b)) (address entry_new) (address_text a b)) as [c ->].
  - by rewrite Hlen.
  - by rewrite Hlen.
  - done.
  - cbn [mbind option_bind]. by rewrite take_ge by (unfold lenZ; lia).
Qed.

Lemma unwind_frame_ok show first i f a b :
  0 <= a < 2 ^ 64 -> frame_ok f a -> buffers_ok b -> exists e b',
  unwind_frame get_proc_name dladdr cxa_demangle entry_new show first i f a b = Some (e, b') /\ buffers_ok b' /\
  shows e (shown show first i a).
Proof.
  intros Ha (Hn & Hp & Hr) Hb. rewrite unwind_frame_names by done. pose proof (address_text_array a b Ha Hb) as Harr.
  destruct (unwind_function_ok f a {| address_buf := address_text a b; demangled_buf := demangled_buf b;
    symbol_buf := symbol_buf b |} Hn Hp) as (out & sb & db & -> & Hout & Hsb & Hdb).
  { split; [apply Harr | apply Hb | apply Hb]. }
  cbn [mbind option_bind].
  destruct (copy_name_ok kFunctionStrLength out _ Hout (nf_function _ _ Hn)) as (func & -> & Hf).
  cbn [mbind option_bind].
  destruct (write_raw_whole kFileStrLength (char_array kFileStrLength) _ eq_refl eq_refl Hr) as [c ->].
  cbn [mbind option_bind]. eexists _, _. split; [reflexivity|]. split; [by split; [apply Harr | ..]|].
  exists (bs "0x" ++ hex_digits a 16), (function_text demangle (info_at a)), (file_text_of (info_at a)).
  assert (c_array kFileStrLength (file_text_of (info_at a))
    (take (Z.to_nat kFileStrLength) (default [Byte.x00] (dli_fname (info_at a))))) as Hfile.
  { unfold path_readable, file_text_of in *.
    destruct (dli_fname (info_at a)) as [mem|] eqn:Em; cbn [default mbind option_bind] in *; [|by vm_compute in Hr].
    destruct (nf_file _ _ Hn mem Em) as (s & Hs & Hlen). rewrite Hs. cbn [default].
    pose proof (c_text_take _ _ _ Hs Hlen) as Ht. destruct (c_text_Some _ _ Ht) as [Hz Hrest].
    split; [|by split]. unfold lenZ in *. rewrite length_take. lia. }
  split; [split_and!; [exact Harr | exact Hf | exact Hfile | apply offset_at_nonneg] |].
  split; [cbn [index]; destruct show; [apply u64_range | done] | done].
Qed.

(** The addresses of the frames; one that cannot be read counts as one that cannot be. *)
Definition ips (frames : list F) : list Z := (λ f, default 0 (get_ip f)) <$> frames.

Definition stack_ok (frames : list F) : Prop :=
  Forall (λ f, forall a, get_ip f = Some a -> is_valid_address a = true -> frame_ok f a) frames.

Lemma unwind_loop_ok show first frames : forall i room k b,
  stack_ok frames -> buffers_ok b -> (Z.to_nat room <= k)%nat -> exists es,
  unwind_loop get_ip get_proc_name dladdr cxa_demangle (replicate k entry_new) show first i room frames b = Some es /\
  Forall2 shows es (take (Z.to_nat room) (frame_lines dladdr demangle show first (Z.max i first)
    (drop (Z.to_nat (first - i)) (ips frames)))).
Proof.
  induction frames as [|f frames IH]; intros i room k b Hok Hb Hk; cbn [unwind_loop].
  { exists []. split; [done|]. change (ips []) with (@nil Z). rewrite drop_nil. cbn [frame_lines]. rewrite take_nil. constructor. }
  apply Forall_cons in Hok as [Hf Hok].
  destruct (Z.ltb_spec i first) as [Hi|Hi].
  { destruct (IH (i + 1) room k b Hok Hb Hk) as (es & E & Hes). exists es. split; [done|].
    replace (Z.max i first) with (Z.max (i + 1) first) by lia.
    replace (Z.to_nat (first - i)) with (S (Z.to_nat (first - (i + 1)))) by lia. exact Hes. }
  replace (Z.to_nat (first - i)) with 0%nat by lia. rewrite drop_0, Z.max_l by lia.
  destruct (Z.leb_spec room 0) as [Hr|Hr].
  { exists []. split; [done|]. replace (Z.to_nat room) with 0%nat by lia. constructor. }
  assert (forall room' k' b', buffers_ok b' -> (Z.to_nat room' <= k')%nat -> exists es,
    unwind_loop get_ip get_proc_name dladdr cxa_demangle (replicate k' entry_new) show first (i + 1) room' frames b' = Some es /\
    Forall2 shows es (take (Z.to_nat room') (frame_lines dladdr demangle show first (i + 1) (ips frames)))) as Hnext.
  { intros room' k' b' Hb' Hk'. destruct (IH (i + 1) room' k' b' Hok Hb' Hk') as (es & E & Hes).
    exists es. split; [done|]. replace (Z.to_nat (first - (i + 1))) with 0%nat in Hes by lia.
    by rewrite drop_0, Z.max_l in Hes by lia. }
  change (ips (f :: frames)) with (default 0 (get_ip f) :: ips frames). cbn [frame_lines].
  destruct (get_ip f) as [a|]; [|by apply Hnext]. change (default 0 (Some a)) with a.
  destruct (is_valid_address a) eqn:Hv; cbn [negb]; [|by apply Hnext].
  destruct k as [|k]; [lia|]. cbn [replicate].
  destruct (unwind_frame_ok show first i f a b (is_valid_address_range a Hv) (Hf a eq_refl Hv) Hb)
    as (e & b' & -> & Hb' & He). cbn [mbind option_bind].
  destruct (Hnext (room - 1) k b' Hb' ltac:(lia)) as (es & -> & Hes). exists (e :: es). split; [done|].
  replace (Z.to_nat room) with (S (Z.to_nat (room - 1))) by lia. cbn [app take]. by constructor.
Qed.

(** libunwind collects up to [max_frames] frames behind the first one, where [backtrace] is asked for
    [max_frames] in all: its trace goes on with the lines of the frames that the other build does not
    see. It reads 512 bytes at every path, and a frame of a file without a name, or with a path near
    the end of its object, makes it read behind that. *)
Theorem unwind_trace_text show first max f rest :
  0 <= first -> 0 <= max -> stack_ok (f :: rest) ->
  let unwind := Some (f, rest) in
  let m := Z.min max kPlatformMaxFrames in
  let k := Z.min first m in
  (exists es, unwind_stack_trace unwind get_ip get_proc_name dladdr cxa_demangle
     (Some (replicate (Z.to_nat kPlatformMaxFrames) entry_new)) show first max = Some es /\
   Forall2 shows es (if m <=? k then [] else
     take (Z.to_nat m) (frame_lines dladdr demangle show k k (drop (Z.to_nat k) (ips (f :: rest)))))) /\
  (forall i b g a, 0 <= a < 2 ^ 64 -> buffers_ok b -> ~ path_readable a ->
     unwind_frame get_proc_name dladdr cxa_demangle entry_new show k i g a b = None).
Proof.
  intros Hf Hm Hok unwind m k. split.
  - unfold unwind_stack_trace, unwind. fold m. fold k.
    destruct (m <=? k); [by exists []; split; [|constructor]|].
    destruct (unwind_loop_ok show k (f :: rest) 0 m (Z.to_nat kPlatformMaxFrames)
      {| address_buf := char_array kAddressStrLength; demangled_buf := char_array kDemangledBufferSize;
         symbol_buf := char_array kSymbolBufferSize |} Hok) as (es & E & Hes).
    + by split.
    + unfold m, kPlatformMaxFrames. lia.
    + exists es. split; [exact E|]. rewrite Z.max_r, Z.sub_0_r in Hes by (unfold k, m, kPlatformMaxFrames; lia).
      exact Hes.
  - intros i b g a Ha Hb Hr. rewrite unwind_frame_names by done.
    destruct (unwind_function _ _ _ _ _ _) as [[[[name off] sb] db]|]; [|done]. cbn [mbind option_bind].
    destruct (copy_name _ name) as [func|]; [|done]. cbn [mbind option_bind].
    unfold write_raw. change (kFileStrLength =? 0) with false. cbv iota. unfold mem_load.
    rewrite decide_False; [done|]. unfold path_readable in Hr. lia.
Qed.
End unwinding.

Section capturing.
Context (capture : Z -> list Z) (sym_from_addr : Z -> option bytes) (sym_line : Z -> option (bytes * Z)).

Lemma windows_frame_names show i a buf :
  0 <= a < 2 ^ 64 -> lenZ buf = kAddressStrLength ->
  let '(file_, line_number) := default ([Byte.x00], 0) (sym_line a) in
  let text := bs "0x" ++ hex_digits a 16 ++ Byte.x00 :: drop (3 + length (hex_digits a 16)) buf in
  windows_frame sym_from_addr sym_line show i a buf =
    ('(func, _) ← write_raw (char_array kFunctionStrLength) 0 (default [Byte.x00] (sym_from_addr a)) kFunctionStrLength;
     '(name, _) ← write_raw (char_array kFileStrLength) 0 file_ kFileStrLength;
     Some ({| address := text; function := func; file := name; index := if show then i else 0;
              line := line_number; offset := 0; use_index := show |}, text)).
Proof.
  intros Ha Hb. destruct (default ([Byte.x00], 0) (sym_line a)) as [file_ ln] eqn:El.
  set (b := {| address_buf := buf; demangled_buf := char_array kDemangledBufferSize;
               symbol_buf := char_array kSymbolBufferSize |}).
  destruct (address_text_array a b Ha) as [Hlen _]; [by split|]. unfold windows_frame.
  destruct (format_address_ok a buf (lenZ buf) Ha) as (digits & -> & _ & _ & ->); [by rewrite Hb|].
  cbn [mbind option_bind]. rewrite El. change (bs "0x" ++ hex_digits a 16 ++ _) with (address_text a b).
  destruct (write_raw_whole kAddressStrLength (address entry_new) (address_text a b)) as [c ->]; [done | done | by rewrite Hlen |].
  cbn [mbind option_bind]. by rewrite take_ge by (unfold lenZ, kAddressStrLength in *; lia).
Qed.

(** Where the Windows build is undefined: the number of frames is computed in 64 bits and cut to 16,
    so that a stack with fewer frames than are to be skipped counts as a full one, and elements that
    were never written are read; and a frame without a symbol, or without a line, has 256 or 512 bytes
    read at an empty string. *)
Theorem windows_trace_undefined show first max :
  (lenZ (capture (Z.min first (Z.min max kWindowsMaxFrames) + Z.min max kWindowsMaxFrames)) <
     Z.min first (Z.min max kWindowsMaxFrames) < Z.min max kWindowsMaxFrames ->
   windows_stack_trace capture sym_from_addr sym_line show first max = None) /\
  (forall i a buf, 0 <= a < 2 ^ 64 -> lenZ buf = kAddressStrLength ->
     sym_from_addr a = None \/ sym_line a = None ->
     windows_frame sym_from_addr sym_line show i a buf = None).
Proof.
  split.
  - set (m := Z.min max kWindowsMaxFrames). set (k := Z.min first m). intros [Hr Hk].
    unfold windows_stack_trace. fold m. fold k. rewrite (proj2 (Z.leb_gt _ _)) by lia.
    set (stack := capture (k + m)) in *. pose proof (lenZ_nonneg stack).
    assert (m <= 62) as Hm by (unfold m, kWindowsMaxFrames; lia).
    assert (u16 (lenZ stack) = lenZ stack) as -> by (apply Z.mod_small; lia).
    assert (u16 (lenZ stack ⊖ k) = 2 ^ 16 - (k - lenZ stack)) as ->.
    { unfold u16, u64. replace (lenZ stack - k) with (2 ^ 64 - (k - lenZ stack) + -1 * 2 ^ 64) by lia.
      rewrite Z.mod_add, (Z.mod_small _ (2 ^ 64)) by lia.
      replace (2 ^ 64 - (k - lenZ stack)) with (2 ^ 16 - (k - lenZ stack) + (2 ^ 48 - 1) * 2 ^ 16) by lia.
      rewrite Z.mod_add by lia. apply Z.mod_small. lia. }
    assert (u16 m = m) as -> by (apply Z.mod_small; lia). rewrite Z.min_r by lia.
    destruct (Z.to_nat m) as [|n] eqn:En; [lia|]. cbn [windows_loop].
    rewrite (lookup_ge_None_2 stack) by (unfold lenZ in *; lia). done.
  - intros i a buf Ha Hb Hs. pose proof (windows_frame_names show i a buf Ha Hb) as E.
    assert (forall n arr, 1 < n -> write_raw arr 0 [Byte.x00] n = None) as Hshort.
    { intros n arr Hn. unfold write_raw. rewrite (proj2 (Z.eqb_neq _ _)) by lia. unfold mem_load.
      rewrite decide_False; [done|]. change (lenZ [Byte.x00]) with 1. lia. }
    destruct (default ([Byte.x00], 0) (sym_line a)) as [file_ ln] eqn:El. rewrite E.
    destruct Hs as [-> | Hs].
    + cbn [default]. by rewrite Hshort.
    + rewrite Hs in El. injection El as <- <-. rewrite Hshort by done.
      destruct (write_raw (char_array kFunctionStrLength) _ _ _) as [[]|]; done.
Qed.
End capturing.

(** ** Witnesses *)

(** A program of two frames whose names libunwind knows. *)
Definition path_object : bytes := bs "/bin/app" ++ char_array kFileStrLength.

Definition app_info (a : Z) : option Dl_info :=
  Some {| dli_sname := None; dli_fname := Some path_object; dli_saddr := None |}.

Definition no_demangling (mem buffer : bytes) (len : Z) : option (demangled * bytes * Z * Z) :=
  Some (Null, buffer, len, -2).

Lemma no_demangles : demangles no_demangling (λ _, None).
Proof. intros mem name buffer _. by exists (-2). Qed.

Lemma app_frame_ok a : frame_ok (λ _ _, None) app_info (λ _, None) a a.
Proof.
  split_and!.
  - split; [done | done |]. intros mem [= <-]. exists (bs "/bin/app"). split; vm_compute; reflexivity.
  - by split.
  - vm_compute. discriminate.
Qed.

Lemma unwind_trace_text_witness : exists es,
  unwind_stack_trace (Some (0x401000, [0x402000])) Some (λ _ _, None) app_info no_demangling
    (Some (replicate (Z.to_nat kPlatformMaxFrames) entry_new)) true 0 1 = Some es /\
  Forall2 shows es (take 1 (frame_lines app_info (λ _, None) true 0 0 [0x401000; 0x402000])).
Proof.
  apply (unwind_trace_text Some (λ _ _, None) app_info no_demangling (λ _, None) no_demangles true 0 1
    0x401000 [0x402000]); [lia | lia |].
  apply Forall_cons. split; [|apply Forall_cons; split; [|constructor]]; intros a [= <-] _; apply app_frame_ok.
Defined.

Lemma windows_trace_undefined_witness :
  windows_stack_trace (λ _, [0x401000]) (λ _, None) (λ _, None) true 2 10 = None.
Proof. apply (windows_trace_undefined (λ _, [0x401000]) (λ _, None) (λ _, None) true 2 10). vm_compute. by split. Defined.
