(* ===== verification/Diagnostics.v ===== *)
(** * Crash reports

    src/src/core/diagnostics/signal_handler.cc and terminate_handler.cc, and
    [Logger::register_exception_handlers] of src/src/include/femtolog/logger.h: which handlers a
    process has, and what a crash prints. The time, the ids and the trace come from outside. *)

From stdpp Require Import gmap.
From S2P Require Import Prelude StackTrace.

(** The signal numbers of Linux. *)
Definition SIGINT : Z := 2.
Definition SIGILL : Z := 4.
Definition SIGABRT : Z := 6.
Definition SIGFPE : Z := 8.
Definition SIGSEGV : Z := 11.
Definition SIGTERM : Z := 15.
Definition EXIT_FAILURE : Z := 1.

Definition signal_to_string (signal_number : Z) : bytes :=
  if signal_number =? SIGSEGV then bs "SIGSEGV (Invalid access to storage)"
  else if signal_number =? SIGABRT then bs "SIGABRT (Abnormal termination)"
  else if signal_number =? SIGFPE then bs "SIGFPE (Floating point exception)"
  else if signal_number =? SIGILL then bs "SIGILL (Illegal instruction)"
  else if signal_number =? SIGINT then bs "SIGINT (Interactive attention signal)"
  else if signal_number =? SIGTERM then bs "SIGTERM (Termination request)"
  else bs "Unknown signal".

(** What the handlers of a process are, and what has been written to standard output. *)
Inductive disposition := Default | Handler.

Record process := {
  signals : gmap Z disposition;
  on_terminate : disposition;
  stack_trace_handler : bool;
  initialized : bool;
  output : bytes;
}.

(** A process that has ended, with its status. *)
Inductive ended := Exit (status : Z) (output : bytes) | Killed (signal_number : Z) (output : bytes).

Section reports.
Context (time : Z) (ctime : Z -> bytes) (pid : Z) (thread_id : bytes).
(** [stack_trace_from_current_context()] in the handler. *)
Context (trace : option bytes).

Definition signal_report (signal_number : Z) (trace : bytes) : bytes :=
  bs "Aborted at " ++ ctime time ++ [ch 10] ++
  bs "(" ++ dec time ++ bs " in unix time)" ++ [ch 10] ++
  signal_to_string signal_number ++ bs " received by PID " ++ dec pid ++
  bs "(TID " ++ thread_id ++ bs ")" ++ [ch 10] ++ trace ++ [ch 10].

Definition signal_handler (p : process) (signal_number : Z) : option ended :=
  t ← trace; Some (Exit EXIT_FAILURE (output p ++ signal_report signal_number t)).

Definition terminate_report (trace : bytes) : bytes :=
  [ch 10] ++ bs "femtolog: program terminated unexpectedly" ++ [ch 10] ++
  bs "stack trace (most recent call last):" ++ [ch 10] ++ trace ++ [ch 10].

Definition terminate_handler (p : process) : option ended :=
  t ← trace; Some (Exit EXIT_FAILURE (output p ++ terminate_report t)).

(** A signal arrives; [std::terminate] is called, without a handler it raises SIGABRT. *)
Definition raise (p : process) (signal_number : Z) : option ended :=
  match signals p !! signal_number with
  | Some Handler => signal_handler p signal_number
  | _ => Some (Killed signal_number (output p))
  end.

Definition std_terminate (p : process) : option ended :=
  match on_terminate p with Handler => terminate_handler p | Default => raise p SIGABRT end.

(** ** Registration *)

Definition std_signal (p : process) (signal_number : Z) : process :=
  {| signals := <[signal_number := Handler]> (signals p); on_terminate := on_terminate p;
     stack_trace_handler := stack_trace_handler p; initialized := initialized p; output := output p |}.

Definition register_signal_handlers (is_debug : bool) (p : process) : process :=
  let p := std_signal (std_signal (std_signal (std_signal p SIGSEGV) SIGABRT) SIGFPE) SIGILL in
  if is_debug then std_signal p SIGINT else p.

Definition register_terminate_handler (p : process) : process :=
  {| signals := signals p; on_terminate := Handler; stack_trace_handler := stack_trace_handler p;
     initialized := initialized p; output := output p |}.

(** On UNIX there is nothing to register. *)
Definition register_stack_trace_handler (p : process) : process := p.

Definition register_exception_handlers (is_debug : bool) (p : process) : process * bool :=
  if initialized p then (p, true)
  else
    let p := register_stack_trace_handler
      (register_signal_handlers is_debug (register_terminate_handler p)) in
    ({| signals := signals p; on_terminate := on_terminate p;
        stack_trace_handler := stack_trace_handler p; initialized := true; output := output p |}, true).

(** The functions of the same names that src/src/include/femtolog/femtolog.h has outside of
    [namespace core], which forward. *)
Definition femtolog_register_signal_handlers (is_debug : bool) (p : process) : process :=
  register_signal_handlers is_debug p.

Definition femtolog_register_terminate_handler (p : process) : process := register_terminate_handler p.

Definition femtolog_register_stack_trace_handler (p : process) : process := register_stack_trace_handler p.

(** ** Properties *)

(** The signals whose handler is registered. *)
Definition caught (is_debug : bool) : gset Z :=
  {[SIGSEGV; SIGABRT; SIGFPE; SIGILL]} ∪ (if is_debug then {[SIGINT]} else ∅).

Lemma signals_after is_debug p n :
  signals (register_signal_handlers is_debug p) !! n =
    if bool_decide (n ∈ caught is_debug) then Some Handler else signals p !! n.
Proof.
  unfold register_signal_handlers, caught, std_signal. destruct is_debug; cbn [signals];
    rewrite !lookup_insert; repeat case_decide; case_bool_decide; subst; try done; set_solver.
Qed.

(** After the registration a crash reports itself: exactly the four fatal signals (and SIGINT in a
    debug build) and [std::terminate] print what happened and the stack trace behind everything the
    program had printed, and end it with a failure status; every other signal does what it did;
    registering again, as every logger does when it is set up, changes nothing. *)
Theorem crash_is_reported is_debug p t :
  initialized p = false -> trace = Some t ->
  let p' := (register_exception_handlers is_debug p).1 in
  (forall n, n ∈ caught is_debug ->
     raise p' n = Some (Exit EXIT_FAILURE (output p ++ signal_report n t))) /\
  (forall n, n ∉ caught is_debug -> raise p' n = raise p n) /\
  std_terminate p' = Some (Exit EXIT_FAILURE (output p ++ terminate_report t)) /\
  register_exception_handlers is_debug p' = (p', true).
Proof.
  intros Hi Ht p'.
  assert (output p' = output p) as Ho by (unfold p', register_exception_handlers; rewrite Hi; by destruct is_debug).
  assert (forall n, signals p' !! n = if bool_decide (n ∈ caught is_debug) then Some Handler else signals p !! n)
    as Hs by (intros n; unfold p', register_exception_handlers; rewrite Hi;
        exact (signals_after is_debug (register_terminate_handler p) n)).
  split_and!.
  - intros n Hn. unfold raise. rewrite Hs, bool_decide_true by done. unfold signal_handler. by rewrite Ht, Ho.
  - intros n Hn. unfold raise. rewrite Hs, bool_decide_false by done. unfold signal_handler. by rewrite Ho.
  - unfold std_terminate. assert (on_terminate p' = Handler) as ->
      by (unfold p', register_exception_handlers; rewrite Hi; by destruct is_debug).
    unfold terminate_handler. by rewrite Ht, Ho.
  - unfold register_exception_handlers at 1. assert (initialized p' = true) as ->; [|done].
    unfold p', register_exception_handlers. by rewrite Hi.
Qed.
End reports.

(** ** Witness *)

Definition quiet : process :=
  {| signals := ∅; on_terminate := Default; stack_trace_handler := false; initialized := false;
     output := [] |}.

Lemma crash_is_reported_witness :
  raise 0 (fun _ => bs "midnight") 7 (bs "1") (Some (bs "@0"))
    (register_exception_handlers false quiet).1 SIGSEGV =
  Some (Exit EXIT_FAILURE (signal_report 0 (fun _ => bs "midnight") 7 (bs "1") SIGSEGV (bs "@0"))).
Proof.
  destruct (crash_is_reported 0 (fun _ => bs "midnight") 7 (bs "1") (Some (bs "@0")) false quiet (bs "@0"))
    as (H & _); [reflexivity | reflexivity |].
  apply H. apply (bool_decide_unpack _). vm_compute. exact I.
Defined.
