(* ===== verification/LogEntry.v ===== *)
(** * Log levels and log entries

    src/src/include/femtolog/base/log_level.h and src/src/include/femtolog/base/log_entry.h: the
    severities with their names and colours, and the record a log call writes into the queue, a
    24-byte header followed by the payload. An entry is modelled as the bytes of its memory, its
    fields little-endian at the offsets the compiler lays them out at. *)

From S2P Require Import Prelude.

(** ** Levels *)

Inductive LogLevel :=
  | kRaw | kFatal | kError | kWarn | kInfo | kDebug | kTrace | kUnknown.

#[export] Instance LogLevel_eq_dec : EqDecision LogLevel.
Proof. solve_decision. Defined.

(** The value of the enumerator. *)
Definition level_value (l : LogLevel) : Z :=
  match l with
  | kRaw => 0 | kFatal => 1 | kError => 2 | kWarn => 3 | kInfo => 4 | kDebug => 5 | kTrace => 6
  | kUnknown => 8
  end.

(** The [switch] on a byte read back from memory; 7 and the values from 9 on name no enumerator
    and take the [default] branches, like [kUnknown]. *)
Definition level_of_value (v : Z) : LogLevel :=
  if v =? 0 then kRaw else if v =? 1 then kFatal else if v =? 2 then kError
  else if v =? 3 then kWarn else if v =? 4 then kInfo else if v =? 5 then kDebug
  else if v =? 6 then kTrace else kUnknown.

Lemma level_of_value_value l : level_of_value (level_value l) = l.
Proof. by destruct l. Qed.

Definition log_level_to_lower_str (l : LogLevel) : bytes :=
  match l with
  | kRaw => bs "raw" | kFatal => bs "fatal" | kError => bs "error" | kWarn => bs "warn"
  | kInfo => bs "info" | kDebug => bs "debug" | kTrace => bs "trace" | kUnknown => bs "unknown"
  end.

Definition log_level_to_upper_str (l : LogLevel) : bytes :=
  match l with
  | kRaw => bs "RAW" | kFatal => bs "FATAL" | kError => bs "ERROR" | kWarn => bs "WARN"
  | kInfo => bs "INFO" | kDebug => bs "DEBUG" | kTrace => bs "TRACE" | kUnknown => bs "UNKNOWN"
  end.

(** The escape sequences of string_util.h. *)
Definition ansi (code : string) : bytes := ch 27 :: bs "[" ++ bs code ++ bs "m".

Definition kReset : bytes := ansi "0".

Definition log_level_to_ansi_color (l : LogLevel) : bytes :=
  match l with
  | kRaw => kReset | kFatal => ansi "35" | kError => ansi "31" | kWarn => ansi "33"
  | kInfo => ansi "32" | kDebug => ansi "36" | kTrace => ansi "90" | kUnknown => []
  end.

Definition level_len (l : LogLevel) : Z := lenZ (log_level_to_lower_str l).
Definition level_ansi_len (l : LogLevel) : Z := lenZ (log_level_to_ansi_color l).

(** [compare(a, b, length(b)) == 0]: the first [length(b)] characters of the object at [a], which
    must be there. *)
Definition cmpstr (a b : bytes) : option bool :=
  s ← mem_load a 0 (lenZ b); Some (bool_decide (s = b)).

Fixpoint first_match (str : bytes) (names : list (bytes * LogLevel)) : option LogLevel :=
  match names with
  | [] => Some kUnknown
  | (n, l) :: rest => hit ← cmpstr str n; if hit : bool then Some l else first_match str rest
  end.

(** The loop of [compare_array_and_cstring] from index [i] on, with what is left of the array. *)
Fixpoint compare_from (arr cstr : bytes) (i : Z) : option bool :=
  match arr with
  | [] => c ← mem_load cstr i 1; Some (bool_decide (c = [Byte.x00]))
  | a :: rest => c ← mem_load cstr i 1; if bool_decide (c = [a]) then compare_from rest cstr (i + 1) else Some false
  end.

Definition compare_array_and_cstring (arr cstr : bytes) : option bool := compare_from arr cstr 0.

(** [str] is the object the pointer points into, its NUL included. *)
Definition log_level_from_string (str : bytes) : option LogLevel :=
  first_match str
    [(bs "raw", kRaw); (bs "fatal", kFatal); (bs "error", kError); (bs "warn", kWarn);
     (bs "info", kInfo); (bs "debug", kDebug); (bs "trace", kTrace)].

(** ** Entries *)

Definition kLiteralLogStringId : Z := 65535.

(** [sizeof(LogEntry)]: 2 + 2 + 4 + 8 + 1 bytes, padded to the alignment of [uint64_t]. *)
Definition sizeof_LogEntry : Z := 24.

Definition off_payload_len : Z := 0.
Definition off_format_id : Z := 2.
Definition off_thread_id : Z := 4.
Definition off_timestamp : Z := 8.
Definition off_level : Z := 16.

(** [LogEntry::create] over the memory of [buffer]; [payload] is the object the pointer points
    into. *)
Definition create (buffer : bytes) (thread_id format_id : Z) (level : LogLevel)
    (timestamp_ns : Z) (payload : bytes) (payload_len : Z) : option bytes :=
  m1 ← store_le buffer off_timestamp 8 timestamp_ns;
  m2 ← store_le m1 off_thread_id 4 thread_id;
  m3 ← store_le m2 off_format_id 2 format_id;
  m4 ← store_le m3 off_payload_len 2 (u16 payload_len);
  m5 ← store_le m4 off_level 1 (level_value level);
  src ← mem_load payload 0 payload_len;
  mem_store m5 sizeof_LogEntry src.

Definition entry_payload_len (mem : bytes) : option Z := load_le mem off_payload_len 2.
Definition entry_format_id (mem : bytes) : option Z := load_le mem off_format_id 2.
Definition entry_thread_id (mem : bytes) : option Z := load_le mem off_thread_id 4.
Definition entry_timestamp (mem : bytes) : option Z := load_le mem off_timestamp 8.
Definition entry_level (mem : bytes) : option LogLevel := level_of_value <$> load_le mem off_level 1.

(** [payload()]: the memory from behind the header on. *)
Definition entry_payload (mem : bytes) : bytes := drop (Z.to_nat sizeof_LogEntry) mem.

Definition total_size (mem : bytes) : option Z :=
  n ← entry_payload_len mem; Some (u64 (sizeof_LogEntry + n)).

Definition message_view (mem : bytes) : option bytes :=
  n ← entry_payload_len mem; mem_load (entry_payload mem) 0 n.

(** [copy_raw_payload] into the object [dst]. *)
Definition copy_raw_payload (mem dst : bytes) (dst_size : Z) : option (bytes * Z) :=
  n ← entry_payload_len mem;
  let to_copy := Z.min dst_size n in
  src ← mem_load (entry_payload mem) 0 to_copy;
  dst' ← mem_store dst 0 src;
  Some (dst', to_copy).

(** [entry->timestamp_ns = ts]. *)
Definition set_timestamp (mem : bytes) (ts : Z) : option bytes := store_le mem off_timestamp 8 ts.

(** [timestamp_ns] of base/format_util.h: [clock_gettime] has left [tv_sec] and [tv_nsec]. *)
Definition timestamp_ns (tv_sec tv_nsec : Z) : Z := u64 (u64 (u64 tv_sec * 1000000000) + tv_nsec).

(** It is the time since the epoch up to the year 2554, and a 64-bit word after that. *)
Lemma timestamp_ns_exact tv_sec tv_nsec :
  0 <= timestamp_ns tv_sec tv_nsec < 2 ^ 64 /\
  (0 <= tv_sec < 18446744073 -> 0 <= tv_nsec < 1000000000 ->
   timestamp_ns tv_sec tv_nsec = tv_sec * 1000000000 + tv_nsec).
Proof.
  split; [apply u64_range|]. intros. unfold timestamp_ns. rewrite (u64_small tv_sec) by lia.
  rewrite (u64_small (tv_sec * _)) by lia. by rewrite u64_small by lia.
Qed.

(** ** What an entry holds *)

(** [mem] starts with an entry of these fields, its payload behind the header. *)
Record is_entry (mem : bytes) (tid fid : Z) (l : LogLevel) (ts : Z) (payload : bytes) : Prop := {
  ie_len : entry_payload_len mem = Some (lenZ payload);
  ie_format : entry_format_id mem = Some fid;
  ie_thread : entry_thread_id mem = Some tid;
  ie_time : entry_timestamp mem = Some ts;
  ie_level : entry_level mem = Some l;
  ie_payload : exists hdr rest, mem = hdr ++ payload ++ rest /\ lenZ hdr = sizeof_LogEntry;
}.

Section entry.
Context (mem : bytes) (tid fid : Z) (l : LogLevel) (ts : Z) (payload : bytes).
Context (He : is_entry mem tid fid l ts payload).

Lemma entry_size : sizeof_LogEntry + lenZ payload <= lenZ mem.
Proof.
  destruct He as [_ _ _ _ _ (hdr & rest & -> & Hh)]. rewrite !lenZ_app.
  pose proof (lenZ_nonneg rest). lia.
Qed.

Lemma entry_payload_front : exists rest, entry_payload mem = payload ++ rest.
Proof.
  destruct He as [_ _ _ _ _ (hdr & rest & -> & Hh)]. exists rest. unfold entry_payload.
  rewrite <- Hh. unfold lenZ. rewrite Nat2Z.id. apply drop_app_length.
Qed.

Lemma entry_message : message_view mem = Some payload.
Proof.
  unfold message_view. rewrite (ie_len _ _ _ _ _ _ He). simpl.
  destruct entry_payload_front as [rest ->]. apply mem_load_front.
Qed.

Lemma entry_total : lenZ payload < 65536 -> total_size mem = Some (sizeof_LogEntry + lenZ payload).
Proof.
  intros Hp. unfold total_size. rewrite (ie_len _ _ _ _ _ _ He). simpl.
  pose proof (lenZ_nonneg payload). by rewrite u64_small by (unfold sizeof_LogEntry; lia).
Qed.

(** An entry at the front of a longer object, and in the first [total_size] bytes of it. *)
Lemma entry_app rest : is_entry (mem ++ rest) tid fid l ts payload.
Proof.
  destruct He as [H1 H2 H3 H4 H5 (hdr & rest' & Hm & Hh)]. unfold entry_level in H5.
  destruct (load_le mem off_level 1) as [v|] eqn:Hv; [|done]. split.
  1-4: by apply load_le_app.
  - unfold entry_level. by rewrite (load_le_app _ _ _ _ _ Hv).
  - exists hdr, (rest' ++ rest). by rewrite Hm, <- !app_assoc.
Qed.

Lemma entry_take k :
  sizeof_LogEntry + lenZ payload <= Z.of_nat k -> is_entry (take k mem) tid fid l ts payload.
Proof.
  intros Hk. pose proof (lenZ_nonneg payload).
  destruct He as [H1 H2 H3 H4 H5 (hdr & rest & Hm & Hh)]. unfold entry_level in H5.
  destruct (load_le mem off_level 1) as [v|] eqn:Hv; [|done].
  unfold sizeof_LogEntry in *. split.
  1-4: apply load_le_take; [done | unfold off_payload_len, off_format_id, off_thread_id,
         off_timestamp; lia].
  - unfold entry_level. rewrite (load_le_take _ _ _ _ _ Hv); [done | unfold off_level; lia].
  - exists hdr, (take (k - length (hdr ++ payload)) rest). split; [|done].
    rewrite Hm, app_assoc, take_app_ge, <- app_assoc; [done|].
    rewrite length_app. unfold lenZ in *. lia.
Qed.

(** The worker stamps the entry; everything else stays. *)
Lemma entry_stamp ts' :
  0 <= ts' < 2 ^ 64 ->
  exists mem', set_timestamp mem ts' = Some mem' /\ is_entry mem' tid fid l ts' payload.
Proof.
  intros Ht. pose proof entry_size as Hs. pose proof (lenZ_nonneg payload).
  unfold sizeof_LogEntry in *.
  destruct (store_le_ok mem off_timestamp 8 ts') as (mem' & Hst & Hl);
    [done | unfold off_timestamp; lia |].
  exists mem'. split; [done|]. destruct He as [H1 H2 H3 H4 H5 (hdr & rest & Hm & Hh)].
  split; unfold entry_payload_len, entry_format_id, entry_thread_id, entry_timestamp,
    entry_level in *.
  1-3,5: erewrite load_store_le_other; [done | exact Hst | vm_compute; intuition discriminate].
  - rewrite (load_store_le _ _ _ _ _ Hst). f_equal. by apply Z.mod_small.
  - unfold store_le in Hst. apply mem_store_Some in Hst as (_ & _ & ->).
    exists (list_inserts (Z.to_nat off_timestamp) (le_split 8 ts') hdr), rest.
    unfold lenZ in *. split; [|by rewrite length_inserts].
    rewrite Hm. apply list_inserts_front. rewrite length_le_split.
    unfold off_timestamp, sizeof_LogEntry in *. lia.
Qed.
End entry.

(** Reads a field past a store of another one. *)
Ltac skip E :=
  erewrite (load_store_le_other _ _ _ _ _ _ _ E) by (vm_compute; intuition discriminate).

(** Overwriting the bytes behind the header splits the memory there. *)
Lemma store_behind_header m src mem :
  mem_store m sizeof_LogEntry src = Some mem ->
  exists hdr rest, mem = hdr ++ src ++ rest /\ lenZ hdr = sizeof_LogEntry.
Proof.
  intros Hs. pose proof (mem_store_length _ _ _ _ Hs) as Hl.
  apply mem_store_Some in Hs as (_ & Hb & ->). unfold sizeof_LogEntry, lenZ in *.
  exists (take 24 m), (drop (24 + length src) m). split; [|rewrite length_take; lia].
  rewrite <- (take_drop 24 m) at 1.
  rewrite <- (take_drop (length src) (drop 24 m)) at 1.
  replace (Z.to_nat 24) with (length (take 24 m)) by (rewrite length_take; lia).
  rewrite list_inserts_mid by (rewrite length_take, length_drop; lia).
  by rewrite drop_drop.
Qed.

Section create.
Context (buffer : bytes) (tid fid ts : Z) (l : LogLevel) (payload extra : bytes).
Context (Htid : 0 <= tid < 2 ^ 32) (Hfid : 0 <= fid < 2 ^ 16) (Hts : 0 <= ts < 2 ^ 64).
Context (Hbuf : sizeof_LogEntry + lenZ payload <= lenZ buffer).

Lemma create_fields :
  exists mem, create buffer tid fid l ts (payload ++ extra) (lenZ payload) = Some mem /\
    length mem = length buffer /\
    entry_payload_len mem = Some (u16 (lenZ payload)) /\ entry_format_id mem = Some fid /\
    entry_thread_id mem = Some tid /\ entry_timestamp mem = Some ts /\ entry_level mem = Some l /\
    exists hdr rest, mem = hdr ++ payload ++ rest /\ lenZ hdr = sizeof_LogEntry.
Proof.
  pose proof (lenZ_nonneg payload). unfold sizeof_LogEntry in Hbuf. unfold lenZ in Hbuf, H.
  unfold create.
  destruct (store_le_ok buffer off_timestamp 8 ts) as (m1 & E1 & L1);
    [done | unfold off_timestamp, lenZ; lia |]. rewrite E1. simpl.
  destruct (store_le_ok m1 off_thread_id 4 tid) as (m2 & E2 & L2);
    [done | unfold off_thread_id, lenZ; lia |]. rewrite E2. simpl.
  destruct (store_le_ok m2 off_format_id 2 fid) as (m3 & E3 & L3);
    [done | unfold off_format_id, lenZ; lia |]. rewrite E3. simpl.
  destruct (store_le_ok m3 off_payload_len 2 (u16 (lenZ payload))) as (m4 & E4 & L4);
    [done | unfold off_payload_len, lenZ; lia |]. rewrite E4. simpl.
  destruct (store_le_ok m4 off_level 1 (level_value l)) as (m5 & E5 & L5);
    [done | unfold off_level, lenZ; lia |]. rewrite E5. simpl.
  rewrite mem_load_front. simpl.
  destruct (mem_store m5 sizeof_LogEntry payload) as [mem|] eqn:E6.
  2:{ rewrite mem_store_spec in E6; [done | done | unfold sizeof_LogEntry, lenZ; lia]. }
  exists mem. split; [done|]. split; [rewrite (mem_store_length _ _ _ _ E6); lia|].
  assert (forall o n, o + Z.of_nat n <= 24 -> load_le mem o n = load_le m5 o n) as H6.
  { intros o n Ho. unfold load_le. f_equal. eapply mem_load_store_other; [exact E6|]. by left. }
  unfold entry_payload_len, entry_format_id, entry_thread_id, entry_timestamp, entry_level.
  rewrite !H6 by (vm_compute; discriminate).
  split_and!.
  - skip E5. rewrite (load_store_le _ _ _ _ _ E4). f_equal. apply Z.mod_mod. done.
  - skip E5. skip E4. rewrite (load_store_le _ _ _ _ _ E3). f_equal. by apply Z.mod_small.
  - skip E5. skip E4. skip E3. rewrite (load_store_le _ _ _ _ _ E2). f_equal.
    by apply Z.mod_small.
  - skip E5. skip E4. skip E3. skip E2. rewrite (load_store_le _ _ _ _ _ E1). f_equal.
    by apply Z.mod_small.
  - rewrite (load_store_le _ _ _ _ _ E5). simpl. f_equal. by destruct l.
  - by apply store_behind_header in E6.
Qed.

(** A payload below 64 KiB gives an entry that holds it. *)
Lemma create_is_entry :
  lenZ payload < 65536 ->
  exists mem, create buffer tid fid l ts (payload ++ extra) (lenZ payload) = Some mem /\
    length mem = length buffer /\ is_entry mem tid fid l ts payload.
Proof.
  intros Hp. destruct create_fields as (mem & Hc & Hl & H1 & H2 & H3 & H4 & H5 & H6).
  exists mem. split_and!; [done..|]. split; try done.
  pose proof (lenZ_nonneg payload). rewrite H1. f_equal. by apply Z.mod_small.
Qed.
End create.

(** [copy_raw_payload] into an object with room for what is copied. *)
Lemma copy_raw_payload_spec mem tid fid l ts payload dst n :
  is_entry mem tid fid l ts payload -> 0 <= n -> Z.min n (lenZ payload) <= lenZ dst ->
  copy_raw_payload mem dst n =
    Some (take (Z.to_nat n) payload ++ drop (length (take (Z.to_nat n) payload)) dst,
          lenZ (take (Z.to_nat n) payload)).
Proof.
  intros He Hn Hd. unfold copy_raw_payload. rewrite (ie_len _ _ _ _ _ _ He). simpl.
  destruct (entry_payload_front _ _ _ _ _ _ He) as [rest ->].
  set (src := take (Z.to_nat n) payload).
  assert (Z.min n (lenZ payload) = lenZ src) as Hsrc.
  { unfold src, lenZ. rewrite length_take. lia. }
  rewrite Hsrc in *. rewrite <- (take_drop (Z.to_nat n) payload). fold src.
  rewrite <- app_assoc, mem_load_front. simpl.
  rewrite <- (take_drop (length src) dst) at 1.
  rewrite (mem_store_mid [] (take (length src) dst) (drop (length src) dst));
    [done | done | rewrite length_take; unfold lenZ in Hd; lia].
Qed.

(** C18. What [LogEntry::create] writes is what the accessors read: level, thread, format and
    timestamp come back unchanged, the payload length modulo 64 KiB, and a payload below 64 KiB is
    the message view, its total size 24 bytes more; [copy_raw_payload] copies as much of it as the
    destination is said to hold. *)
Theorem entry_roundtrip buffer tid fid l ts payload :
  0 <= tid < 2 ^ 32 -> 0 <= fid < 2 ^ 16 -> 0 <= ts < 2 ^ 64 ->
  sizeof_LogEntry + lenZ payload <= lenZ buffer ->
  exists mem, create buffer tid fid l ts payload (lenZ payload) = Some mem /\
    length mem = length buffer /\
    entry_payload_len mem = Some (lenZ payload mod 65536) /\ entry_format_id mem = Some fid /\
    entry_thread_id mem = Some tid /\ entry_timestamp mem = Some ts /\ entry_level mem = Some l /\
    (lenZ payload < 65536 ->
       message_view mem = Some payload /\ total_size mem = Some (24 + lenZ payload) /\
       forall dst, lenZ payload <= lenZ dst ->
         copy_raw_payload mem dst (lenZ dst) =
           Some (payload ++ drop (length payload) dst, lenZ payload)).
Proof.
  intros Ht Hf Hts Hb.
  destruct (create_fields buffer tid fid ts l payload [] Ht Hf Hts Hb)
    as (mem & Hc & Hl & H1 & H2 & H3 & H4 & H5 & H6). rewrite app_nil_r in Hc.
  exists mem. split_and!; [done..|]. intros Hp.
  assert (is_entry mem tid fid l ts payload) as He.
  { split; try done. rewrite H1. f_equal. pose proof (lenZ_nonneg payload). by apply Z.mod_small. }
  split_and!; [by eapply entry_message | by eapply entry_total |]. intros dst Hd.
  pose proof (lenZ_nonneg payload).
  rewrite (copy_raw_payload_spec _ _ _ _ _ _ _ _ He) by lia.
  by rewrite !take_ge by (unfold lenZ in *; lia).
Qed.

Lemma entry_roundtrip_witness :
  exists mem, create (replicate 32 Byte.x00) 7 300 kWarn 99 (bs "hi") 2 = Some mem /\
    message_view mem = Some (bs "hi").
Proof.
  destruct (entry_roundtrip (replicate 32 Byte.x00) 7 300 kWarn 99 (bs "hi"))
    as (mem & Hc & _ & _ & _ & _ & _ & _ & H); try (vm_compute; split; congruence).
  - vm_compute; congruence.
  - exists mem. split; [exact Hc|]. apply H. vm_compute; reflexivity.
Defined.

(** A comparison that needs at most one character behind [s]. *)
Lemma cmpstr_front s c rest n :
  (length n <= S (length s))%nat ->
  cmpstr (s ++ c :: rest) n = Some (bool_decide (take (length n) (s ++ [c]) = n)).
Proof.
  intros Hn. unfold cmpstr.
  change (s ++ c :: rest) with (s ++ [c] ++ rest). rewrite app_assoc.
  erewrite mem_load_app; [reflexivity|].
  rewrite mem_load_spec by (unfold lenZ; rewrite ?length_app; simpl; lia).
  unfold lenZ. by rewrite Nat2Z.id.
Qed.

Lemma first_match_front s c rest n l names :
  (length n <= S (length s))%nat ->
  first_match (s ++ c :: rest) ((n, l) :: names) =
    if bool_decide (take (length n) (s ++ [c]) = n) then Some l
    else first_match (s ++ c :: rest) names.
Proof. intros Hn. cbn [first_match]. by rewrite cmpstr_front. Qed.

(** [log_level_from_string] maps the name of every level, whatever follows it in the string,
    to that level, and an unknown name of five characters or more to [kUnknown]; it compares by
    the length of the names, so it reads past the end of a string shorter than the names it
    fails to match. *)
Theorem level_name_roundtrip l rest :
  l <> kUnknown -> rest <> [] ->
  log_level_from_string (log_level_to_lower_str l ++ rest) = Some l /\
  log_level_from_string (log_level_to_lower_str kUnknown ++ rest) = Some kUnknown /\
  log_level_from_string (bs "x" ++ [Byte.x00]) = None.
Proof.
  intros Hl Hrest. destruct rest as [|c rest]; [done|].
  split_and!; [| | reflexivity].
  - destruct l; try done; unfold log_level_from_string;
      repeat (rewrite first_match_front by (vm_compute; lia)); reflexivity.
  - unfold log_level_from_string;
      repeat (rewrite first_match_front by (vm_compute; lia)); reflexivity.
Qed.

Lemma level_name_roundtrip_witness :
  kWarn <> kUnknown /\ log_level_from_string (bs "warning" ++ [Byte.x00]) = Some kWarn.
Proof.
  split; [discriminate|].
  exact (proj1 (level_name_roundtrip kWarn (bs "ing" ++ [Byte.x00]) ltac:(discriminate)
    ltac:(discriminate))).
Defined.

(** ** Comparing an array with a string

    Unlike [cmpstr] it reads no further than the first difference, so that a string with its NUL is
    always enough, and it accepts the name itself only. *)
Lemma compare_array_exact arr : Byte.x00 ∉ arr -> forall s rest pre, Byte.x00 ∉ s ->
  compare_from arr (pre ++ s ++ Byte.x00 :: rest) (lenZ pre) = Some (bool_decide (arr = s)).
Proof.
  assert (forall pre c (post : bytes), mem_load (pre ++ c :: post) (lenZ pre) 1 = Some [c]) as Hload
    by (intros pre c post; exact (mem_load_mid pre [c] post)).
  induction arr as [|a arr IH]; intros Ha [|c s] rest pre Hs; cbn [compare_from app];
    rewrite Hload; cbn [mbind option_bind].
  - done.
  - f_equal. apply bool_decide_ext. set_solver.
  - rewrite !bool_decide_false; [done.. | set_solver].
  - destruct (decide (c = a)) as [->|Hne].
    + rewrite bool_decide_true by done. specialize (IH ltac:(set_solver) s rest (pre ++ [a]) ltac:(set_solver)).
      rewrite lenZ_app, <- app_assoc in IH. change (lenZ [a]) with 1 in IH. cbn [app] in IH. rewrite IH.
      f_equal. apply bool_decide_ext. naive_solver.
    + rewrite !bool_decide_false; [done | naive_solver..].
Qed.
