(* ===== verification/StringRegistry.v ===== *)
(** * String ids and the string registry

    src/src/include/femtolog/base/string_registry.h: the compile-time hash that turns a format
    string into a 16-bit id, and the table from ids to views of static strings or of strings
    copied into an arena. *)

From stdpp Require Import gmap.
From S2P Require Import Prelude LogEntry.

(** ** Ids *)

(** One round of the FNV-1a variant; [static_cast<uint64_t>(c)] extends the sign of the [char]. *)
Definition hash_step (hash : Z) (c : Init.Byte.byte) : Z :=
  u64 (Z.lxor hash (u64 (char_signed c)) * 0x100000001b3).

Definition hash_string (str : bytes) : Z :=
  let hash := fold_left hash_step str 0xcbf29ce484222325 in
  u16 (Z.lxor (Z.shiftr hash 16) (Z.land hash 0xFFFF)).

Definition hash_string_from_pointer (raw : Z) : Z :=
  u16 (Z.lxor (Z.shiftr raw 3) (Z.land raw 0xFFFF)).

Definition get_string_id (view : bytes) : Z :=
  let id := hash_string view in
  if id =? kLiteralLogStringId then kLiteralLogStringId - 1 else id.

(** The id of a format string is a 16-bit number different from the one reserved for literal
    messages, so the worker never takes a formatted entry for a literal one. *)
Lemma string_id_range view : 0 <= get_string_id view < kLiteralLogStringId.
Proof.
  unfold get_string_id, hash_string, u16, kLiteralLogStringId. set (h := Z.lxor _ _).
  pose proof (Z.mod_pos_bound h (2 ^ 16) ltac:(done)).
  destruct (Z.eqb_spec (h mod 2 ^ 16) 65535); lia.
Qed.

(** ** The registry *)

(** A [std::string_view]: of characters that outlive the registry, or of a part of the arena. *)
Inductive view :=
  | VStatic (s : bytes)
  | VArena (off len : Z).

Definition kInitialArenaSize : Z := 1024 * 1024.

(** [table_] has an entry for every id; those not in the map are empty views. *)
Record StringRegistry := {
  table_ : gmap Z view;
  arena_buffer_ : bytes;
  arena_size_ : Z;
}.

Definition registry_new : StringRegistry :=
  {| table_ := ∅; arena_buffer_ := replicate (Z.to_nat kInitialArenaSize) Byte.x00; arena_size_ := 0 |}.

Definition set_view (r : StringRegistry) (id : Z) (v : view) : StringRegistry :=
  {| table_ := <[id := v]> (table_ r); arena_buffer_ := arena_buffer_ r;
     arena_size_ := arena_size_ r |}.

(** The characters of [table_[id]]. *)
Definition get_string (r : StringRegistry) (id : Z) : option bytes :=
  match table_ r !! id with
  | None => Some []
  | Some (VStatic s) => Some s
  | Some (VArena off len) => mem_load (arena_buffer_ r) off len
  end.

Definition register_string (r : StringRegistry) (id : Z) (s : bytes) : StringRegistry :=
  set_view r id (VStatic s).

(** [None] when the copy leaves the arena. *)
Definition register_string_arena (r : StringRegistry) (id : Z) (s : bytes) :
    option StringRegistry :=
  previous ← get_string r id;
  if bool_decide (previous <> []) && bool_decide (previous = s) then Some r
  else
    arena ← mem_store (arena_buffer_ r) (arena_size_ r) s;
    let stored := VArena (arena_size_ r) (lenZ s) in
    Some (set_view {| table_ := table_ r; arena_buffer_ := arena;
                      arena_size_ := u64 (arena_size_ r + lenZ s) |} id stored).

(** A sequence of registrations, each static or into the arena. *)
Inductive registration := Static (id : Z) (s : bytes) | Arena (id : Z) (s : bytes).

Definition register (r : StringRegistry) (g : registration) : option StringRegistry :=
  match g with
  | Static id s => Some (register_string r id s)
  | Arena id s => register_string_arena r id s
  end.

Fixpoint register_all (r : StringRegistry) (gs : list registration) : option StringRegistry :=
  match gs with [] => Some r | g :: rest => r' ← register r g; register_all r' rest end.

(** The string an id stands for: the last one registered under it. *)
Fixpoint last_registered (gs : list registration) (id : Z) (acc : bytes) : bytes :=
  match gs with
  | [] => acc
  | (Static i s | Arena i s) :: rest => last_registered rest id (if decide (i = id) then s else acc)
  end.

Definition arena_need (g : registration) : Z :=
  match g with Static _ _ => 0 | Arena _ s => lenZ s end.

(** ** The invariant: every view of the arena lies in its used part *)

Record registry_wf (r : StringRegistry) : Prop := {
  wf_used : 0 <= arena_size_ r <= lenZ (arena_buffer_ r);
  wf_small : lenZ (arena_buffer_ r) < 2 ^ 64;
  wf_views id off len : table_ r !! id = Some (VArena off len) ->
    0 <= off /\ 0 <= len /\ off + len <= arena_size_ r;
}.

Lemma registry_new_size : lenZ (arena_buffer_ registry_new) = kInitialArenaSize.
Proof.
  unfold lenZ, registry_new. cbn [arena_buffer_]. rewrite length_replicate.
  apply Z2Nat.id. discriminate.
Qed.

Lemma registry_new_wf : registry_wf registry_new.
Proof.
  split; rewrite ?registry_new_size.
  - split; discriminate.
  - reflexivity.
  - intros id off len H. cbn [table_ registry_new] in H. by rewrite lookup_empty in H.
Qed.

Lemma get_string_defined r id : registry_wf r -> exists s, get_string r id = Some s.
Proof.
  intros [Hu _ Hv]. unfold get_string. destruct (table_ r !! id) as [[s|off len]|] eqn:E; eauto.
  destruct (Hv _ _ _ E) as (? & ? & ?). rewrite mem_load_spec by lia. eauto.
Qed.

Lemma get_set_view r id v id' :
  get_string (set_view r id v) id' =
    if decide (id = id') then match v with
      | VStatic s => Some s | VArena off len => mem_load (arena_buffer_ r) off len end
    else get_string r id'.
Proof.
  unfold get_string, set_view. simpl. case_decide; subst.
  - by rewrite lookup_insert_eq.
  - by rewrite lookup_insert_ne.
Qed.

(** A registration is visible under its id and changes no other string. *)
Lemma register_spec r g :
  registry_wf r -> arena_size_ r + arena_need g <= lenZ (arena_buffer_ r) ->
  exists r', register r g = Some r' /\ registry_wf r' /\
    arena_size_ r' <= arena_size_ r + arena_need g /\
    length (arena_buffer_ r') = length (arena_buffer_ r) /\
    forall id s0, get_string r id = Some s0 -> get_string r' id = Some (last_registered [g] id s0).
Proof.
  intros Hwf Hfit. pose proof Hwf as [Hu Hs Hv]. destruct g as [i s|i s]; simpl in *.
  - eexists. split; [done|]. split_and!; simpl; [|lia|done|].
    + split; simpl; [done..|]. intros id off len. rewrite lookup_insert_Some.
      intros [[_ ?]|[_ ?]]; [done|eauto].
    + intros id s0 Hg. unfold register_string. rewrite get_set_view. by case_decide.
  - unfold register_string_arena. pose proof (lenZ_nonneg s).
    destruct (get_string_defined r i Hwf) as [prev Hp]. rewrite Hp. simpl.
    case_match eqn:Hsame.
    { apply andb_true_iff in Hsame as [_ Hsame%bool_decide_eq_true]. subst prev.
      exists r. split_and!; [done..|lia|done|]. intros id s0 Hg. case_decide; subst; congruence. }
    destruct (mem_store (arena_buffer_ r) (arena_size_ r) s) as [arena|] eqn:Est;
      [|by rewrite mem_store_spec in Est by lia].
    simpl. rewrite u64_small by lia. pose proof (mem_store_length _ _ _ _ Est) as Hl.
    eexists. split; [done|]. split_and!; simpl; [|lia|done|].
    + split; simpl; unfold lenZ in *; rewrite ?Hl; try lia.
      intros id off len. rewrite lookup_insert_Some. intros [[_ [= <- <-]]|[_ E]]; [lia|].
      apply Hv in E. lia.
    + intros id s0 Hg. rewrite get_set_view. simpl. clear Hsame. destruct (decide (i = id)) as [->|Hne].
      * by apply (mem_load_store_same _ _ _ _ Est).
      * revert Hg. unfold get_string. simpl. destruct (table_ r !! id) as [[s1|off len]|] eqn:E; try done.
        destruct (Hv _ _ _ E) as (? & ? & ?).
        rewrite (mem_load_store_other _ _ _ _ _ _ Est) by lia. done.
Qed.

Lemma register_all_spec gs : forall r,
  registry_wf r ->
  arena_size_ r + foldr Z.add 0 (arena_need <$> gs) <= lenZ (arena_buffer_ r) ->
  exists r', register_all r gs = Some r' /\ registry_wf r' /\
    forall id s0, get_string r id = Some s0 -> get_string r' id = Some (last_registered gs id s0).
Proof.
  induction gs as [|g gs IH]; intros r Hwf Hfit; csimpl in *; [eauto|].
  assert (0 <= foldr Z.add 0 (arena_need <$> gs)).
  { clear. induction gs as [|[]]; csimpl; try lia. pose proof (lenZ_nonneg s). lia. }
  destruct (register_spec r g Hwf ltac:(lia)) as (r1 & -> & Hwf1 & Hsz & Hl & Hg1). simpl.
  destruct (IH r1 Hwf1) as (r2 & -> & Hwf2 & Hg2); [unfold lenZ in *; lia|].
  exists r2. split_and!; [done..|]. intros id s0 Hg. rewrite (Hg2 _ _ (Hg1 _ _ Hg)).
  by destruct g.
Qed.

(** C19. After any sequence of static and arena registrations whose copies fit the 1 MiB arena,
    every id gives the string registered last under it (the empty string if there is none): later
    copies never disturb earlier ones. *)
Theorem registry_last_wins gs :
  foldr Z.add 0 (arena_need <$> gs) <= kInitialArenaSize ->
  exists r, register_all registry_new gs = Some r /\
    forall id, get_string r id = Some (last_registered gs id []).
Proof.
  intros Hfit. destruct (register_all_spec gs registry_new registry_new_wf) as (r & -> & _ & Hg).
  - rewrite registry_new_size. exact Hfit.
  - exists r. split; [reflexivity|]. intros id. apply Hg. unfold get_string.
    cbn [table_ registry_new]. by rewrite lookup_empty.
Qed.

Lemma registry_last_wins_witness :
  exists r, register_all registry_new [Arena 5 (bs "a"); Static 6 (bs "b"); Arena 5 (bs "cd")] = Some r /\
    get_string r 5 = Some (bs "cd") /\ get_string r 6 = Some (bs "b") /\ get_string r 7 = Some [].
Proof.
  destruct (registry_last_wins [Arena 5 (bs "a"); Static 6 (bs "b"); Arena 5 (bs "cd")]) as (r & Hr & Hg).
  - vm_compute; discriminate.
  - exists r. split; [exact Hr|]. split_and!; apply Hg.
Defined.
