(* ===== verification/Serializer.v ===== *)
(** * Argument serialization

    src/src/include/femtolog/base/serialize_util.h, base/format_util.h,
    logging/impl/args_serializer.h and logging/impl/args_deserializer.h: the arguments of a log
    call are written into a fixed buffer behind a header of two function pointers, and read back
    by the worker, which formats them.

    An argument is what its decayed type makes of it: a string-like value is the address and the
    characters of its view ([None] for a null [const char*]), a trivially copyable value its
    object representation, any other object its address and representation. The fmt library is a
    parameter ([fmt_output]): its text for a format string and values, given the memory the values
    point into. *)

From S2P Require Import Prelude.

Inductive arg_type :=
  | TString               (* is_string_like_v *)
  | TTrivial (size : nat) (* trivially copyable, of this size *)
  | TObject (size : nat)  (* anything else; by reference only *).

#[export] Instance arg_type_eq_dec : EqDecision arg_type.
Proof. solve_decision. Defined.

Inductive arg :=
  | AString (view : option (Z * bytes))
  | ATrivial (rep : bytes)
  | AObject (addr : Z) (rep : bytes).

(** What [read_arg] gives: a copied string, a view to dereference, a copied value, or the object
    at an address. *)
Inductive value :=
  | VString (s : bytes)
  | VView (addr len : Z)
  | VTrivial (rep : bytes)
  | VDeref (addr : Z).

(** ** Code addresses

    The header holds pointers to the instances of [FormatDispatcher] and [DeserializeDispatcher],
    which the model identifies by their template arguments. *)
Class CodeImage := {
  format_address : bytes -> Z;
  deserialize_address : bool -> list arg_type -> Z;
  format_at : Z -> option bytes;
  deserialize_at : Z -> option (bool * list arg_type);
  format_linked : bytes -> Prop;
  deserialize_linked : bool -> list arg_type -> Prop;
}.

(** The instances the program uses have non-null addresses that call them. *)
Class CodeImageLaws (CI : CodeImage) : Prop := {
  format_address_range f : format_linked f -> 0 < format_address f < 2 ^ 64;
  deserialize_address_range r t : deserialize_linked r t -> 0 < deserialize_address r t < 2 ^ 64;
  format_at_address f : format_linked f -> format_at (format_address f) = Some f;
  deserialize_at_address r t :
    deserialize_linked r t -> deserialize_at (deserialize_address r t) = Some (r, t);
}.

(** ** The program's memory

    Arguments passed by reference are read by the worker where they are: the memory tells which
    objects are alive, and which ranges of characters can be read. Anything else is undefined. *)
Class ProgramMemory (heap : Type) := {
  object_at : heap -> Z -> nat -> bool;
  readable : heap -> Z -> Z -> bool;
}.

(** A memory given by its objects (address and size) and its ranges of characters. *)
Record Blocks := { objects : list (Z * nat); ranges : list (Z * Z) }.

#[export] Instance blocks_memory : ProgramMemory Blocks := {|
  object_at h a n := existsb (λ o, (o.1 =? a) && (o.2 =? n)%nat) (objects h);
  readable h a n := existsb (λ r, (r.1 <=? a) && (a + n <=? r.1 + r.2)) (ranges h);
|}.

(** A memory with nothing in it, for programs that log by copy only. *)
#[export] Instance no_memory : ProgramMemory unit := {|
  object_at _ _ _ := false;
  readable _ _ _ := false;
|}.

Section serializer.
Context {CI : CodeImage}.

(** ** Serializing *)

Definition sizeof_header : Z := 16.

(** [add_arg_size] of [calculate_min_serialized_size]. *)
Definition min_arg_size (ref_mode : bool) (t : arg_type) : Z :=
  match t with
  | TString => if ref_mode then 16 else 0
  | TTrivial n => Z.of_nat n
  | TObject _ => 8
  end.

Definition calculate_min_serialized_size (ref_mode : bool) (types : list arg_type) : Z :=
  fold_left (λ total t, u64 (total + min_arg_size ref_mode t)) types sizeof_header.

(** [to_string_view]: the null test is inside [if constexpr (is_char_array_v<Decayed>)], which no
    decayed type satisfies, so a null pointer reaches the constructor of [std::string_view]. *)
Definition to_string_view (view : option (Z * bytes)) : option (Z * bytes) := view.

Definition add_dynamic_string_length (dest : Z) (a : arg) : option Z :=
  match a with
  | AString v => '(_, s) ← to_string_view v; Some (u64 (dest + u64 (8 + lenZ s)))
  | _ => Some dest
  end.

Fixpoint dynamic_strings_length (dest : Z) (args : list arg) : option Z :=
  match args with
  | [] => Some dest
  | a :: rest => d ← add_dynamic_string_length dest a; dynamic_strings_length d rest
  end.

Definition put_word (v : Z) (st : bytes * Z) : option (bytes * Z) := put_bytes (le_split 8 v) st.

Definition write_arg (ref_mode : bool) (a : arg) (st : bytes * Z) : option (bytes * Z) :=
  match a with
  | AString v =>
    '(addr, s) ← to_string_view v;
    if ref_mode then st1 ← put_word addr st; put_word (lenZ s) st1
    else
      st1 ← put_word (lenZ s) st;
      if 0 <? lenZ s then put_bytes s st1 else Some st1
  | ATrivial rep => put_bytes rep st
  | AObject addr rep =>
    if ref_mode then src ← mem_load rep 0 8; put_bytes src st
    else None
  end.

Fixpoint write_args (ref_mode : bool) (args : list arg) (st : bytes * Z) : option (bytes * Z) :=
  match args with
  | [] => Some st
  | a :: rest => st' ← write_arg ref_mode a st; write_args ref_mode rest st'
  end.

Definition header (ref_mode : bool) (fmt : bytes) (types : list arg_type) : bytes :=
  le_split 8 (format_address fmt) ++ le_split 8 (deserialize_address ref_mode types).

(** [ArgsSerializer<kCapacity>::serialize]: the buffer and [size_] of [args_] afterwards. *)
Definition serialize (kCapacity : Z) (ref_mode : bool) (fmt : bytes) (types : list arg_type)
    (buffer : bytes) (args : list arg) : option (bytes * Z) :=
  let kTotalSizeExcludingDynStr := calculate_min_serialized_size ref_mode types in
  if ref_mode then
    st ← put_bytes (header ref_mode fmt types) (buffer, 0);
    '(buffer', _) ← write_args true args st;
    Some (buffer', kTotalSizeExcludingDynStr)
  else
    dyn ← dynamic_strings_length 0 args;
    let total_serialized_size := kTotalSizeExcludingDynStr ⊕ dyn in
    if kCapacity <=? total_serialized_size then Some (buffer, 0)
    else
      st ← put_bytes (header ref_mode fmt types) (buffer, 0);
      '(buffer', _) ← write_args false args st;
      Some (buffer', kTotalSizeExcludingDynStr ⊕ dyn).

(** ** Deserializing *)

Section deserializing.
Context {heap : Type} {PM : ProgramMemory heap} (h : heap).

(** [read_arg<T>]; by reference the copy of [*actual_ptr] needs an object of the type there. *)
Definition read_arg (ref_mode : bool) (t : arg_type) (base : bytes) (offset : Z) :
    option (value * Z) :=
  match t with
  | TString =>
    if ref_mode then
      raw_ptr ← load_le base offset 8;
      str_len ← load_le base (offset + 8) 8;
      Some (VView raw_ptr str_len, u64 (offset + 8 + 8))
    else
      str_len ← load_le base offset 8;
      str ← (if 0 <? str_len then mem_load base (offset + 8) str_len else Some []);
      Some (VString str, u64 (offset + 8 + str_len))
  | TTrivial n =>
    rep ← mem_load base offset (Z.of_nat n); Some (VTrivial rep, u64 (offset + Z.of_nat n))
  | TObject n =>
    if ref_mode then
      raw_addr ← load_le base offset 8;
      if object_at h raw_addr n then Some (VDeref raw_addr, u64 (offset + 8)) else None
    else None
  end.

(** Up to four arguments: one [read_arg] after the other. *)
Fixpoint read_seq (ref_mode : bool) (types : list arg_type) (base : bytes) (offset : Z) :
    option (list value * Z) :=
  match types with
  | [] => Some ([], offset)
  | t :: rest =>
    '(v, o) ← read_arg ref_mode t base offset;
    '(vs, o') ← read_seq ref_mode rest base o;
    Some (v :: vs, o')
  end.

(** Five and more: [std::make_tuple] of lambda calls that share [offset]. Its arguments are
    evaluated one at a time in an order the language leaves open: [order] is that order. *)
Fixpoint read_tuple (ref_mode : bool) (types : list arg_type) (base : bytes) (order : list nat)
    (offset : Z) (slots : list (option value)) : option (list (option value)) :=
  match order with
  | [] => Some slots
  | i :: rest =>
    t ← types !! i;
    '(v, o) ← read_arg ref_mode t base offset;
    read_tuple ref_mode types base rest o (<[i := Some v]> slots)
  end.

(** [deserialize_and_format_impl] up to the call of the format function: the values handed to
    it. *)
Definition deserialize (order : list nat) (ref_mode : bool) (types : list arg_type)
    (data : bytes) : option (list value) :=
  let fast :=
    match types with [TTrivial n] => (n <=? 8)%nat | _ => false end in
  if fast then
    match types with
    | [TTrivial n] => rep ← mem_load data 0 (Z.of_nat n); Some [VTrivial rep]
    | _ => None
    end
  else if decide (1 <= length types <= 4)%nat then fst <$> read_seq ref_mode types data 0
  else
    slots ← read_tuple ref_mode types data order 0 (replicate (length types) None);
    mapM id slots.
End deserializing.

(** ** Formatting *)

(** [FixedString<N>]: the constructor copies the [N] characters of a literal and puts a NUL after them. *)
Record FixedString := { fs_data : bytes; fs_size : Z }.

Fixpoint copy_literal (str : bytes) (data : bytes) (i : nat) : bytes :=
  match str with
  | [] => <[i := Byte.x00]> data
  | c :: rest => copy_literal rest (<[i := c]> data) (S i)
  end.

Definition fixed_string (str : bytes) : FixedString :=
  {| fs_data := copy_literal str (replicate (length str + 1) Byte.x00) 0; fs_size := lenZ str |}.

Definition view (s : FixedString) : option bytes := mem_load (fs_data s) 0 (fs_size s).

(** The text fmt produces for a format string and values, in a given memory. *)
Context {heap : Type} {PM : ProgramMemory heap} (fmt_output : heap -> bytes -> list value -> bytes).

(** The characters of a view can be read. *)
Definition value_live (h : heap) (v : value) : bool :=
  match v with VView addr len => (len =? 0) || readable h addr len | _ => true end.

(** [FormatDispatcher<fmt>::format] over the memory of the format buffer: [vformat_to_n] reads the
    characters of the views, which must be there still, and writes what fits the capacity;
    [result.size] is the size of the whole text. *)
Definition format (h : heap) (fmt buf : bytes) (values : list value) : option (bytes * Z) :=
  if forallb (value_live h) values then
    let text := fmt_output h fmt values in
    buf' ← mem_store buf 0 (take (length buf) text); Some (buf', lenZ text)
  else None.

(** The call through the two pointers of a header: the new contents of the format buffer and the
    returned size; [eval_order n] is the order in which [n] arguments of a call are evaluated. A
    pointer that leads to no function of the program is undefined. *)
Definition deserialize_and_format (eval_order : nat -> list nat) (h : heap) (format_buffer : bytes)
    (format_func deserialize_func : Z) (data : bytes) : option (bytes * Z) :=
  fmt ← format_at format_func;
  '(ref_mode, types) ← deserialize_at deserialize_func;
  values ← deserialize h (eval_order (length types)) ref_mode types data;
  format h fmt format_buffer values.
End serializer.

(** ** What was serialized, as a value *)

Definition arg_ok (t : arg_type) (a : arg) : Prop :=
  match t, a with
  | TString, AString (Some (addr, s)) => 0 <= addr < 2 ^ 64 /\ lenZ s < 2 ^ 63
  | TTrivial n, ATrivial rep => length rep = n
  | TObject n, AObject addr rep => length rep = n /\ 0 <= addr < 2 ^ 64
  | _, _ => False
  end.

(** The value an argument stands for, copied or by reference. *)
Definition value_of (ref_mode : bool) (a : arg) : value :=
  match a with
  | AString (Some (addr, s)) => if ref_mode then VView addr (lenZ s) else VString s
  | AString None => VString []
  | ATrivial rep => VTrivial rep
  | AObject addr rep => VDeref addr
  end.

(** The bytes [write_arg] writes for it. *)
Definition arg_bytes (ref_mode : bool) (a : arg) : bytes :=
  match a with
  | AString (Some (addr, s)) =>
    if ref_mode then le_split 8 addr ++ le_split 8 (lenZ s) else le_split 8 (lenZ s) ++ s
  | AString None => []
  | ATrivial rep => rep
  | AObject addr rep => take 8 rep
  end.

(** By copy every argument is a string or trivially copyable. *)
Definition copyable (t : arg_type) : Prop := match t with TObject _ => False | _ => True end.

(** What comes back: for an object passed by reference, the address is the object's own first
    eight bytes ([memcpy(pos, ptr, sizeof(ptr))] copies from the object, not the pointer). *)
Definition read_back (ref_mode : bool) (a : arg) : value :=
  match a with
  | AObject addr rep => VDeref (le_combine (take 8 rep))
  | _ => value_of ref_mode a
  end.

(** The argument can be passed in this mode. *)
Definition passable (ref_mode : bool) (t : arg_type) (a : arg) : Prop :=
  arg_ok t a /\ (if ref_mode then match t with TObject n => (8 <= n)%nat | _ => True end
                 else copyable t).

Definition args_bytes (ref_mode : bool) (args : list arg) : bytes :=
  concat (arg_bytes ref_mode <$> args).

(** ** Writing *)

Lemma write_arg_ok n out st r t a :
  passable r t a -> filled n out st -> lenZ out + lenZ (arg_bytes r a) <= n ->
  exists st', write_arg r a st = Some st' /\ filled n (out ++ arg_bytes r a) st'.
Proof.
  intros [Ha Hp] F Hl. destruct t, a as [[[addr s]|]|rep|addr rep]; simpl in Ha; try done.
  - destruct Ha as [Haddr Hs]. destruct r; simpl in *.
    + unfold put_word. put_step F. put_step F0. exists st1. by rewrite <- app_assoc in F1.
    + unfold put_word. pose proof (lenZ_nonneg s). put_step F. destruct (0 <? lenZ s) eqn:E.
      * put_step F0. exists st1. by rewrite <- app_assoc in F1.
      * exists st0. split; [done|]. apply Z.ltb_ge in E.
        by rewrite (lenZ_zero_inv s ltac:(lia)) in *.
  - simpl in *. put_step F. eauto.
  - destruct r; [|done]. simpl in *. destruct Ha as [Hr Haddr].
    assert (mem_load rep 0 8 = Some (take 8 rep)) as ->.
    { rewrite mem_load_spec by (unfold lenZ; lia). done. }
    simpl. put_step F. eauto.
Qed.

Lemma args_bytes_cons r a args : args_bytes r (a :: args) = arg_bytes r a ++ args_bytes r args.
Proof. done. Qed.

Lemma write_args_ok n r types args : Forall2 (passable r) types args -> forall out st,
  filled n out st -> lenZ out + lenZ (args_bytes r args) <= n ->
  exists st', write_args r args st = Some st' /\ filled n (out ++ args_bytes r args) st'.
Proof.
  induction 1 as [|t a types args Ha Hargs IH]; intros out st F Hl.
  { exists st. by rewrite app_nil_r. }
  rewrite args_bytes_cons, lenZ_app in *. simpl. pose proof (lenZ_nonneg (args_bytes r args)).
  destruct (write_arg_ok n out st r t a Ha F ltac:(lia)) as (st1 & -> & F1). simpl.
  destruct (IH _ _ F1) as (st2 & -> & F2); [rewrite lenZ_app; lia|].
  exists st2. by rewrite app_assoc.
Qed.

(** ** Sizes *)

(** The part of an argument's size that the call computes at run time. *)
Definition dyn_size (a : arg) : Z :=
  match a with AString (Some (_, s)) => 8 + lenZ s | _ => 0 end.

Lemma arg_bytes_size r t a :
  passable r t a ->
  lenZ (arg_bytes r a) = min_arg_size r t + (if r then 0 else dyn_size a) /\
  0 <= min_arg_size r t /\ 0 <= dyn_size a.
Proof.
  intros [Ha Hp]. destruct t, a as [[[addr s]|]|rep|addr rep]; simpl in Ha; try done;
    destruct r; simpl in *; try done; try (pose proof (lenZ_nonneg s));
    autorewrite with femto_size; unfold lenZ in *; rewrite ?length_take; lia.
Qed.

Section sizes.
Context (r : bool) (types : list arg_type) (args : list arg).
Context (Hargs : Forall2 (passable r) types args).
Context (Hsize : 16 + lenZ (args_bytes r args) < 2 ^ 64).

Lemma min_size_sum : forall total, 0 <= total -> total + lenZ (args_bytes r args) < 2 ^ 64 ->
  fold_left (λ total t, u64 (total + min_arg_size r t)) types total =
    total + foldr Z.add 0 (min_arg_size r <$> types).
Proof.
  clear Hsize. induction Hargs as [|t a ts l Ha Hl IH]; intros total Ht Hs; csimpl; [lia|].
  destruct (arg_bytes_size r t a Ha) as (He & Hm & Hd).
  rewrite args_bytes_cons, lenZ_app in Hs. pose proof (lenZ_nonneg (args_bytes r l)).
  assert (0 <= if r then 0 else dyn_size a) by (destruct r; lia).
  rewrite u64_small, IH by (done || lia). lia.
Qed.

Lemma args_bytes_sum :
  lenZ (args_bytes r args) = foldr Z.add 0 (min_arg_size r <$> types) +
    (if r then 0 else foldr Z.add 0 (dyn_size <$> args)) /\
  0 <= foldr Z.add 0 (min_arg_size r <$> types) /\ 0 <= foldr Z.add 0 (dyn_size <$> args).
Proof.
  clear Hsize. induction Hargs as [|t a ts l Ha Hl IH]; [destruct r; done|].
  destruct (arg_bytes_size r t a Ha) as (He & Hm & Hd).
  rewrite args_bytes_cons, lenZ_app. csimpl. specialize (IH Hl). destruct r; lia.
Qed.

Lemma min_size_spec :
  calculate_min_serialized_size r types =
    sizeof_header + foldr Z.add 0 (min_arg_size r <$> types).
Proof. unfold calculate_min_serialized_size. by apply min_size_sum. Qed.
End sizes.

Lemma dynamic_length_spec types args : Forall2 (passable false) types args -> forall d,
  0 <= d -> d + lenZ (args_bytes false args) < 2 ^ 64 ->
  dynamic_strings_length d args = Some (d + foldr Z.add 0 (dyn_size <$> args)).
Proof.
  induction 1 as [|t a types args Ha Hargs IH]; intros d Hd Hs; csimpl; [f_equal; lia|].
  destruct (arg_bytes_size _ _ _ Ha) as (He & Hm & Hdy).
  rewrite args_bytes_cons, lenZ_app in Hs. pose proof (lenZ_nonneg (args_bytes false args)).
  assert (add_dynamic_string_length d a = Some (d + dyn_size a)) as ->.
  { destruct a as [[[addr s]|]|rep|addr rep]; simpl in *; try (f_equal; lia).
    - pose proof (lenZ_nonneg s). rewrite !u64_small; [done | | ]; rewrite ?u64_small; lia.
    - destruct Ha as [Ha _]. by destruct t. }
  csimpl. rewrite IH by lia. f_equal. lia.
Qed.

(** ** Reading *)

(** The same with the layout given as equations. *)
Lemma mem_load_at mem pre d post o n :
  mem = pre ++ d ++ post -> o = lenZ pre -> n = lenZ d -> mem_load mem o n = Some d.
Proof. intros -> -> ->. apply mem_load_mid. Qed.

Lemma load_word_at mem pre v post o :
  mem = pre ++ le_split 8 v ++ post -> o = lenZ pre -> 0 <= v < 2 ^ 64 ->
  load_le mem o 8 = Some v.
Proof.
  intros Hm Ho Hv. unfold load_le.
  rewrite (mem_load_at mem pre (le_split 8 v) post) by (done || by rewrite lenZ_le_split). simpl.
  f_equal. rewrite le_combine_split. by apply Z.mod_small.
Qed.

Section reading.
Context {heap : Type} {PM : ProgramMemory heap} (h : heap).

(** What the first eight bytes of an object lead to is an object of its type. *)
Definition arg_live (t : arg_type) (a : arg) : bool :=
  match t, a with
  | TObject n, AObject _ rep => object_at h (le_combine (take 8 rep)) n
  | _, _ => true
  end.

Definition args_live (types : list arg_type) (args : list arg) : bool :=
  forallb (λ ta, arg_live ta.1 ta.2) (zip types args).

Lemma read_arg_ok r t a pre post :
  passable r t a -> lenZ pre + lenZ (arg_bytes r a) < 2 ^ 64 ->
  read_arg h r t (pre ++ arg_bytes r a ++ post) (lenZ pre) =
    if arg_live t a then Some (read_back r a, lenZ pre + lenZ (arg_bytes r a)) else None.
Proof.
  intros [Ha Hp] Hl. pose proof (lenZ_nonneg pre).
  destruct t, a as [[[addr s]|]|rep|addr rep]; simpl in Ha; try done.
  - destruct Ha as [Haddr Hs]. pose proof (lenZ_nonneg s).
    destruct r; cbn [read_arg arg_live arg_bytes read_back value_of] in *;
      rewrite lenZ_app, !lenZ_le_split in *.
    + rewrite (load_word_at _ pre addr (le_split 8 (lenZ s) ++ post) (lenZ pre))
        by (rewrite <- ?app_assoc; lia || done).
      rewrite (load_word_at _ (pre ++ le_split 8 addr) (lenZ s) post (lenZ pre + 8))
        by (rewrite <- ?app_assoc, ?lenZ_app, ?lenZ_le_split; lia || done).
      cbn [mbind option_bind]. rewrite u64_small by lia. do 2 f_equal. lia.
    + rewrite (load_word_at _ pre (lenZ s) (s ++ post)) by (rewrite <- ?app_assoc; lia || done).
      cbn [mbind option_bind]. rewrite u64_small by lia. case_match eqn:E.
      * rewrite (mem_load_at _ (pre ++ le_split 8 (lenZ s)) s post)
          by (rewrite <- ?app_assoc, ?lenZ_app, ?lenZ_le_split; lia || done).
        cbn [mbind option_bind]. do 2 f_equal. lia.
      * apply Z.ltb_ge in E. rewrite (lenZ_zero_inv s) by lia.
        cbn [mbind option_bind]. rewrite lenZ_nil. do 2 f_equal. lia.
  - simpl in *. rewrite (mem_load_at _ pre rep post) by (unfold lenZ; lia || done). simpl.
    unfold lenZ in *. rewrite u64_small by lia. do 2 f_equal. lia.
  - destruct r; [|done]. simpl in *. destruct Ha as [Hr Haddr]. unfold load_le.
    assert (lenZ (take 8 rep) = 8) as H8 by (unfold lenZ; rewrite length_take; lia).
    rewrite (mem_load_at _ pre (take 8 rep) post) by (lia || done). simpl.
    rewrite H8 in *. rewrite u64_small by lia. by case_match.
Qed.

Lemma read_seq_ok r types args : Forall2 (passable r) types args -> forall pre post,
  lenZ pre + lenZ (args_bytes r args) < 2 ^ 64 ->
  read_seq h r types (pre ++ args_bytes r args ++ post) (lenZ pre) =
    if args_live types args then Some (read_back r <$> args, lenZ pre + lenZ (args_bytes r args))
    else None.
Proof.
  induction 1 as [|t a types args Ha Hargs IH]; intros pre post Hl.
  { csimpl. do 2 f_equal. unfold args_bytes. simpl. rewrite lenZ_nil. lia. }
  rewrite args_bytes_cons, lenZ_app in *. pose proof (lenZ_nonneg (args_bytes r args)).
  unfold args_live in *. csimpl. rewrite <- app_assoc, read_arg_ok by (done || lia).
  destruct (arg_live t a); [|done]. cbn [mbind option_bind andb].
  rewrite <- lenZ_app, app_assoc, IH by (rewrite lenZ_app; lia).
  case_match; [|done]. cbn [mbind option_bind]. rewrite lenZ_app. do 2 f_equal. lia.
Qed.

(** Reading in the order of the arguments fills the slots from the left. *)
Lemma read_tuple_in_order r base rest : forall done vs off,
  length vs = length done ->
  read_tuple h r (done ++ rest) base (seq (length done) (length rest)) off
    ((Some <$> vs) ++ replicate (length rest) None) =
  (λ vo, Some <$> (vs ++ vo.1)) <$> read_seq h r rest base off.
Proof.
  induction rest as [|t rest IH]; intros done vs off Hl; simpl in *.
  { by rewrite !app_nil_r. }
  rewrite list_lookup_middle by done. simpl.
  destruct (read_arg h r t base off) as [[v o]|]; [|done]. simpl in *.
  specialize (IH (done ++ [t]) (vs ++ [v]) o).
  rewrite !length_app, <- !app_assoc in IH. simpl in IH.
  etransitivity; [|etransitivity; [apply IH; lia|]].
  - f_equal; [f_equal; lia|]. rewrite insert_app_r_alt by (rewrite length_fmap; lia).
    by rewrite length_fmap, Hl, Nat.sub_diag, fmap_app, <- app_assoc.
  - destruct (read_seq h r rest base o) as [[ws o']|]; [|done]. simpl. by rewrite <- app_assoc.
Qed.

(** From left to right the tuple is what the one call after the other reads; up to four
    arguments there is nothing but one call after the other. *)
Lemma deserialize_in_order order r types data :
  types <> [] -> (length types <= 4)%nat \/ order = seq 0 (length types) ->
  deserialize h order r types data = fst <$> read_seq h r types data 0.
Proof.
  intros Hn Ho. unfold deserialize. case_match eqn:Hfast.
  - destruct types as [|[|n|n] [|]]; try done. simpl in *.
    destruct (mem_load data 0 (Z.of_nat n)); done.
  - case_decide as Hlen; [done|]. destruct Ho as [Ho| ->]; [destruct types; simpl in *; done || lia|].
    pose proof (read_tuple_in_order r data types [] [] 0 eq_refl) as Ht.
    simpl in Ht. rewrite Ht. destruct (read_seq h r types data 0) as [[vs o]|]; [|done].
    simpl. by apply mapM_fmap_Some.
Qed.

(** What the arguments of a record are read back as. *)
Lemma deserialize_spec order r types args post :
  types <> [] -> (length types <= 4)%nat \/ order = seq 0 (length types) ->
  Forall2 (passable r) types args -> lenZ (args_bytes r args) < 2 ^ 64 ->
  deserialize h order r types (args_bytes r args ++ post) =
    if args_live types args then Some (read_back r <$> args) else None.
Proof.
  intros Hn Ho Hargs Hl. rewrite deserialize_in_order by done.
  pose proof (read_seq_ok r types args Hargs [] post Hl) as E.
  change (lenZ []) with 0 in E. cbn [app] in E. rewrite E.
  by case_match.
Qed.

Lemma deserialize_args order r types args post :
  types <> [] -> (length types <= 4)%nat \/ order = seq 0 (length types) ->
  Forall2 (passable r) types args -> args_live types args = true ->
  lenZ (args_bytes r args) < 2 ^ 64 ->
  deserialize h order r types (args_bytes r args ++ post) = Some (read_back r <$> args).
Proof. intros Hn Ho Hargs Hv Hl. by rewrite deserialize_spec, Hv. Qed.

(** Copies need nothing of the memory. *)
Lemma copies_live types args : Forall copyable types -> args_live types args = true.
Proof.
  intros Hc. revert args. induction Hc as [|t types Ht _ IH]; intros [|a args]; [done..|].
  unfold args_live in *. simpl. rewrite IH. by destruct t.
Qed.
End reading.

(** ** The serializer *)

Section theorems.
Context {CI : CodeImage}.

Lemma header_length r fmt types : lenZ (header r fmt types) = sizeof_header.
Proof. unfold header. by rewrite lenZ_app, !lenZ_le_split. Qed.

(** What the buffer holds when the arguments fit. *)
Lemma serialize_fits cap r fmt types buffer args :
  Forall2 (passable r) types args -> lenZ buffer = cap -> cap < 2 ^ 64 ->
  sizeof_header + lenZ (args_bytes r args) <= cap - (if r then 0 else 1) ->
  exists rest,
    serialize cap r fmt types buffer args =
      Some (header r fmt types ++ args_bytes r args ++ rest,
            sizeof_header + lenZ (args_bytes r args)) /\
    lenZ (header r fmt types ++ args_bytes r args ++ rest) = cap.
Proof.
  intros Hargs Hb Hc Hs. pose proof (lenZ_nonneg (args_bytes r args)) as Hn.
  assert (16 + lenZ (args_bytes r args) < 2 ^ 64) as Hlt
    by (unfold sizeof_header in Hs; destruct r; lia).
  pose proof (min_size_spec r types args Hargs Hlt) as Hmin.
  pose proof (args_bytes_sum r types args Hargs) as (Hsum & Hpos1 & Hpos2).
  assert (filled cap [] (buffer, 0)) as F0 by (by exists buffer).
  destruct (put_bytes_ok cap [] (buffer, 0) (header r fmt types) F0) as (st1 & E1 & F1).
  { rewrite header_length, lenZ_nil. unfold sizeof_header in *. destruct r; lia. }
  destruct (write_args_ok cap r types args Hargs _ _ F1) as (st2 & E2 & F2).
  { cbn [app]. rewrite header_length. destruct r; lia. }
  destruct st2 as [buffer' pos]. destruct F2 as (rest & Hm & Hp & Hl). cbn [fst snd app] in Hm, Hl.
  rewrite <- app_assoc in Hm. exists rest. rewrite <- Hm. split; [|done].
  unfold serialize. rewrite E1. unfold sizeof_header in *. destruct r.
  - cbn [mbind option_bind]. rewrite E2. cbn [mbind option_bind]. rewrite Hmin. do 2 f_equal. lia.
  - rewrite (dynamic_length_spec types args) by (done || lia). cbn [mbind option_bind].
    rewrite Z.add_0_l.
    rewrite Hmin, u64_small by lia. rewrite (proj2 (Z.leb_gt _ _)) by lia.
    rewrite E2. cbn [mbind option_bind]. do 2 f_equal. lia.
Qed.

(** The two pointers at the front of what was serialized, and the data behind them. *)
Lemma header_words r fmt types post :
  0 <= format_address fmt < 2 ^ 64 -> 0 <= deserialize_address r types < 2 ^ 64 ->
  load_le (header r fmt types ++ post) 0 8 = Some (format_address fmt) /\
  load_le (header r fmt types ++ post) 8 8 = Some (deserialize_address r types).
Proof.
  intros Hf Hd. unfold header. rewrite <- app_assoc. split.
  - by apply (load_word_at _ [] _ (le_split 8 (deserialize_address r types) ++ post)).
  - by apply (load_word_at _ (le_split 8 (format_address fmt)) _ post).
Qed.

Lemma read_back_copy types args :
  Forall2 (passable false) types args -> read_back false <$> args = value_of false <$> args.
Proof.
  induction 1 as [|t a types args [Ha Hp] _ IH]; csimpl; [done|]. rewrite IH.
  destruct t, a as [[[]|]| |]; simpl in *; done.
Qed.

(** ... and when, by copy, they do not. *)
Lemma serialize_too_big cap fmt types buffer args :
  Forall2 (passable false) types args -> lenZ (args_bytes false args) < 2 ^ 63 ->
  cap <= sizeof_header + lenZ (args_bytes false args) ->
  serialize cap false fmt types buffer args = Some (buffer, 0).
Proof.
  intros Hargs Hs Hfit. pose proof (lenZ_nonneg (args_bytes false args)) as Hpos.
  destruct (args_bytes_sum false types args Hargs) as (Hsum & H1 & H2).
  unfold serialize. rewrite (dynamic_length_spec types args) by (done || lia). simpl.
  rewrite (min_size_spec false types args) by (done || lia). unfold sizeof_header in *.
  rewrite Z.add_0_l, u64_small by lia. by rewrite (proj2 (Z.leb_le _ _)) by lia.
Qed.

(** C7. By copy, arguments of any types (a null string apart, which is undefined) survive the trip: when header and arguments take less
    than the capacity, [serialize] reports exactly their size, and the worker reads back the same
    values, whatever follows them in memory - up to four arguments always, five and more when the
    compiler evaluates the arguments of [std::make_tuple] from left to right, which the language
    does not promise (from right to left the values come back garbled, [argument_order]). When
    they do not fit, [serialize] reports size 0, which the logger counts as a drop, and writes
    nothing. *)
Theorem serialize_roundtrip cap fmt types buffer args :
  types <> [] -> Forall2 arg_ok types args -> Forall copyable types ->
  lenZ buffer = cap -> cap < 2 ^ 63 -> lenZ (args_bytes false args) < 2 ^ 63 ->
  (16 + lenZ (args_bytes false args) < cap ->
   exists mem, serialize cap false fmt types buffer args =
       Some (mem, 16 + lenZ (args_bytes false args)) /\ lenZ mem = cap /\
     forall (heap : Type) (PM : ProgramMemory heap) (h : heap) (order : list nat) (post : bytes),
       (length types <= 4)%nat \/ order = seq 0 (length types) ->
       deserialize h order false types
         (drop 16 (take (Z.to_nat (16 + lenZ (args_bytes false args))) mem) ++ post) =
         Some (value_of false <$> args)) /\
  (cap <= 16 + lenZ (args_bytes false args) ->
   serialize cap false fmt types buffer args = Some (buffer, 0)).
Proof.
  intros Hn Hok Hcopy Hb Hc Hs.
  assert (Forall2 (passable false) types args) as Hargs.
  { clear -Hok Hcopy. induction Hok; inversion Hcopy; subst; repeat constructor; auto. }
  pose proof (lenZ_nonneg (args_bytes false args)) as Hpos. split; intros Hfit.
  - destruct (serialize_fits cap false fmt types buffer args) as (rest & He & Hl);
      [done|done|lia|unfold sizeof_header; lia|].
    eexists. split; [exact He|]. split; [exact Hl|]. intros heap PM h order post Ho.
    rewrite app_assoc, take_app_length', drop_app_length'.
    + rewrite deserialize_args by (done || lia || by apply copies_live).
      by rewrite (read_back_copy types).
    + pose proof (header_length false fmt types). unfold sizeof_header, lenZ in *. lia.
    + pose proof (header_length false fmt types).
      rewrite length_app. unfold sizeof_header, lenZ in *. lia.
  - by apply (serialize_too_big cap fmt types).
Qed.

(** C31. By reference nothing but addresses is stored: a string comes back as the view of its
    characters where they were, a trivially copyable value by value; but for any other object the
    serializer copies the first eight bytes of the object instead of its address, and the worker
    dereferences those: it gets the object that happens to be there, and is undefined when no
    object of the type is. (Five and more arguments: read from left to right, as in
    [serialize_roundtrip].) *)
Theorem serialize_by_reference cap fmt types buffer args :
  types <> [] -> Forall2 (passable true) types args ->
  lenZ buffer = cap -> cap < 2 ^ 64 -> calculate_min_serialized_size true types <= cap ->
  16 + lenZ (args_bytes true args) < 2 ^ 64 ->
  exists mem, serialize cap true fmt types buffer args =
      Some (mem, calculate_min_serialized_size true types) /\
    (forall (heap : Type) (PM : ProgramMemory heap) (h : heap) (order : list nat),
       (length types <= 4)%nat \/ order = seq 0 (length types) ->
       deserialize h order true types (drop 16 mem) =
         if args_live h types args then Some (read_back true <$> args) else None) /\
    (forall addr rep, In (AObject addr rep) args -> le_combine (take 8 rep) <> addr ->
       In (VDeref (le_combine (take 8 rep))) (read_back true <$> args) /\
       read_back true (AObject addr rep) <> value_of true (AObject addr rep)).
Proof.
  intros Hn Hargs Hb Hc Hmin Hs.
  pose proof (args_bytes_sum true types args Hargs) as (Hsum & _).
  rewrite (min_size_spec true types args Hargs Hs) in *.
  destruct (serialize_fits cap true fmt types buffer args) as (rest & He & Hl); [done|done|done|lia|].
  eexists. rewrite He. split; [do 2 f_equal; lia|]. split.
  - intros heap PM h order Ho. rewrite drop_app_length'.
    + apply deserialize_spec; [done|done|done|lia].
    + pose proof (header_length true fmt types). unfold sizeof_header, lenZ in *. lia.
  - intros addr rep Hin Hne. split; [|simpl; congruence].
    apply (in_map (read_back true)) in Hin. exact Hin.
Qed.

(** The values reach the formatter in the order of the arguments whenever the arguments are
    read in that order; with up to four arguments they always are, with five and more only if the
    compiler evaluates the arguments of [std::make_tuple] from left to right: from right to left,
    five bytes come back reversed. *)
Theorem argument_order {heap : Type} {PM : ProgramMemory heap} (h : heap) types data vs off :
  types <> [] -> read_seq h false types data 0 = Some (vs, off) ->
  deserialize h (seq 0 (length types)) false types data = Some vs /\
  ((length types <= 4)%nat -> forall order, deserialize h order false types data = Some vs) /\
  deserialize h (rev (seq 0 5)) false (replicate 5 (TTrivial 1)) (bs "abcde") =
    Some ((λ c, VTrivial [c]) <$> bs "edcba").
Proof.
  intros Hn Hr. split_and!; [| |reflexivity].
  - rewrite deserialize_in_order by auto. by rewrite Hr.
  - intros Hl order. rewrite deserialize_in_order by auto. by rewrite Hr.
Qed.

Lemma copy_literal_spec str : forall done, copy_literal str (done ++ replicate (length str + 1) Byte.x00) (length done) =
  done ++ str ++ [Byte.x00].
Proof.
  induction str as [|c str IH]; intros done; cbn [copy_literal length Nat.add replicate].
  - rewrite insert_app_r_alt, Nat.sub_diag by lia. reflexivity.
  - rewrite insert_app_r_alt, Nat.sub_diag by lia. specialize (IH (done ++ [c])).
    rewrite length_app, <- !app_assoc, (Nat.add_comm (length done)) in IH. exact IH.
Qed.

(** The format string of a call is the literal, NUL-terminated, and its view has every character. *)
Lemma fixed_string_view str : view (fixed_string str) = Some str /\ fs_data (fixed_string str) = str ++ [Byte.x00].
Proof.
  unfold view, fixed_string. cbn [fs_data fs_size]. pose proof (copy_literal_spec str []) as E.
  cbn [app length] in E. rewrite E. split; [apply mem_load_front | done].
Qed.

Section formatting.
Context {heap : Type} {PM : ProgramMemory heap} (out : heap -> bytes -> list value -> bytes).

(** What is left in the format buffer. *)
Lemma format_store h fmt buf vs :
  forallb (value_live h) vs = true ->
  format out h fmt buf vs =
    Some (take (length buf) (out h fmt vs) ++ drop (length (out h fmt vs)) buf,
          lenZ (out h fmt vs)).
Proof.
  intros Hv. unfold format. rewrite Hv. set (text := out h fmt vs). set (d := take (length buf) text).
  assert (length d = Nat.min (length buf) (length text)) as Hd by apply length_take.
  assert (mem_store buf 0 d = Some (d ++ drop (length d) buf)) as ->.
  { rewrite <- (take_drop (length d) buf) at 1.
    apply (mem_store_mid []); [done | rewrite length_take; lia]. }
  cbn [mbind option_bind]. do 3 f_equal.
  destruct (decide (length text <= length buf)%nat); [f_equal; lia|].
  rewrite !drop_ge by lia. done.
Qed.

(** A text that fits is in the buffer from its start on. *)
Lemma format_fits h fmt buf vs :
  forallb (value_live h) vs = true -> lenZ (out h fmt vs) <= lenZ buf ->
  exists buf', format out h fmt buf vs = Some (buf', lenZ (out h fmt vs)) /\
    length buf' = length buf /\
    mem_load buf' 0 (lenZ (out h fmt vs)) = Some (out h fmt vs).
Proof.
  intros Hv Hle. rewrite format_store by done. eexists. split; [done|]. unfold lenZ in Hle.
  rewrite take_ge by lia. split; [rewrite length_app, length_drop; lia | apply mem_load_front].
Qed.

(** [FormatDispatcher::format] keeps the text within the format buffer, but returns the length
    of the whole text: the buffer holds a prefix of the text, and when the text is longer than the
    buffer, reading the returned number of bytes leaves it. *)
Theorem format_size h fmt buf vs :
  forallb (value_live h) vs = true ->
  exists buf', format out h fmt buf vs = Some (buf', lenZ (out h fmt vs)) /\
    length buf' = length buf /\
    take (length (out h fmt vs)) buf' = take (length buf) (out h fmt vs) /\
    (lenZ buf < lenZ (out h fmt vs) -> mem_load buf' 0 (lenZ (out h fmt vs)) = None) /\
    (lenZ (out h fmt vs) <= lenZ buf -> mem_load buf' 0 (lenZ (out h fmt vs)) = Some (out h fmt vs)).
Proof.
  intros Hv. destruct (decide (lenZ (out h fmt vs) <= lenZ buf)) as [Hle|Hgt].
  - destruct (format_fits h fmt buf vs Hv Hle) as (buf' & -> & Hl & Hm). exists buf'.
    split_and!; [done..| | intros; lia | done]. apply mem_load_Some in Hm as (_ & _ & _ & Hm).
    unfold lenZ in *. rewrite Nat2Z.id in Hm. rewrite (take_ge (out h fmt vs)) by lia. done.
  - rewrite format_store by done. eexists. split; [done|]. apply Z.nle_gt in Hgt. unfold lenZ in Hgt.
    assert (drop (length (out h fmt vs)) buf = []) as -> by (apply drop_ge; lia).
    rewrite app_nil_r. split_and!; [rewrite length_take; lia | | | unfold lenZ; intros; lia].
    + apply take_ge. rewrite length_take. lia.
    + intros _. unfold mem_load, lenZ. rewrite decide_False; [done|]. rewrite length_take. lia.
Qed.
End formatting.
End theorems.

(** ** Witnesses *)

(** A program with one call site. *)
Definition one_site (fmt : bytes) (r : bool) (types : list arg_type) : CodeImage := {|
  format_address _ := 0x401000;
  deserialize_address _ _ := 0x402000;
  format_at a := if a =? 0x401000 then Some fmt else None;
  deserialize_at a := if a =? 0x402000 then Some (r, types) else None;
  format_linked f := f = fmt;
  deserialize_linked r' t := r' = r /\ t = types;
|}.

Lemma one_site_laws fmt r types : CodeImageLaws (one_site fmt r types).
Proof. split; simpl; try done; [intros f -> | intros r' t [-> ->]]; done. Qed.

Lemma serialize_roundtrip_witness :
  let args := [AString (Some (4096, bs "disk")); ATrivial (le_split 4 93)] in
  exists mem, serialize (CI := one_site (bs "{} at {}%") false [TString; TTrivial 4]) 64 false
      (bs "{} at {}%") [TString; TTrivial 4] (replicate 64 Byte.x00) args = Some (mem, 32) /\
    deserialize tt [1; 0]%nat false [TString; TTrivial 4] (drop 16 (take 32 mem) ++ []) =
      Some [VString (bs "disk"); VTrivial (le_split 4 93)].
Proof.
  intros args.
  destruct (serialize_roundtrip (CI := one_site (bs "{} at {}%") false [TString; TTrivial 4]) 64
    (bs "{} at {}%") [TString; TTrivial 4] (replicate 64 Byte.x00) args) as [H _].
  - discriminate.
  - repeat constructor; vm_compute; congruence.
  - repeat constructor.
  - reflexivity.
  - reflexivity.
  - reflexivity.
  - destruct H as (mem & H1 & _ & H2); [reflexivity|]. exists mem. split; [exact H1|].
    apply (H2 unit no_memory tt [1; 0]%nat []). left. cbn. lia.
Defined.

(** An object of eight bytes at 4096, whose first eight bytes are 8192: the worker takes the
    object at 8192 for it, or leaves the memory when there is none. *)
Lemma serialize_by_reference_witness :
  exists mem, serialize (CI := one_site (bs "{}") true [TObject 8]) 64 true (bs "{}") [TObject 8]
      (replicate 64 Byte.x00) [AObject 4096 (le_split 8 8192)] = Some (mem, 24) /\
    deserialize {| objects := [(4096, 8%nat)]; ranges := [] |} [0]%nat true [TObject 8]
      (drop 16 mem) = None /\
    deserialize {| objects := [(4096, 8%nat); (8192, 8%nat)]; ranges := [] |} [0]%nat true
      [TObject 8] (drop 16 mem) = Some [VDeref 8192] /\
    value_of true (AObject 4096 (le_split 8 8192)) = VDeref 4096.
Proof.
  destruct (serialize_by_reference (CI := one_site (bs "{}") true [TObject 8]) 64 (bs "{}")
    [TObject 8] (replicate 64 Byte.x00) [AObject 4096 (le_split 8 8192)]) as (mem & H1 & H2 & _).
  - discriminate.
  - repeat constructor; vm_compute; congruence.
  - reflexivity.
  - reflexivity.
  - vm_compute; congruence.
  - reflexivity.
  - exists mem. split; [exact H1|].
    split; [apply (H2 Blocks blocks_memory); by right|].
    split; [apply (H2 Blocks blocks_memory); by right | reflexivity].
Defined.

Lemma argument_order_witness :
  deserialize tt [1; 0]%nat false [TTrivial 1; TTrivial 2] (bs "abc") =
    Some [VTrivial (bs "a"); VTrivial (bs "bc")].
Proof.
  apply (argument_order tt [TTrivial 1; TTrivial 2] (bs "abc") [VTrivial (bs "a"); VTrivial (bs "bc")] 3).
  - discriminate.
  - reflexivity.
  - vm_compute; repeat constructor.
Defined.
