(* ===== verification/SinkInterface.v ===== *)
(** * The interface of a sink

    src/src/include/femtolog/sinks/sink_base.h: what the worker calls for every entry. [SinkLaws]
    is the promise the worker's theorems rest on: on a message the sink accepts, [on_log] is
    defined and does to the sink what [sink_deliver] says. Sinks.v discharges it. *)

From S2P Require Import Prelude LogEntry.

(** [on_log(entry, content, len)]: the entry's memory, the object [content] points into, and the
    length. [None] is undefined behaviour. *)
Class SinkBase (Sk : Type) := {
  on_log : Sk -> bytes -> bytes -> Z -> option Sk;
  sink_valid : Sk -> Prop;
  sink_accepts : LogLevel -> Z -> bytes -> Prop;
  sink_deliver : Sk -> LogLevel -> Z -> bytes -> Sk;
}.

Class SinkLaws (Sk : Type) {SB : SinkBase Sk} : Prop := {
  sink_on_log s mem tid fid l ts payload content text :
    sink_valid s -> is_entry mem tid fid l ts payload -> 0 <= ts < 2 ^ 64 ->
    mem_load content 0 (lenZ text) = Some text -> sink_accepts l ts text ->
    on_log s mem content (lenZ text) = Some (sink_deliver s l ts text) /\
    sink_valid (sink_deliver s l ts text);
}.

(** ** The recording sink

    The sink that keeps every message it is given: the least a sink can promise. *)
Definition Recorder := list (LogLevel * Z * bytes).

Definition recorder_on_log (s : Recorder) (mem content : bytes) (n : Z) : option Recorder :=
  l ← entry_level mem; ts ← entry_timestamp mem; text ← mem_load content 0 n;
  Some (s ++ [(l, ts, text)]).

#[export] Instance recorder_sink : SinkBase Recorder := {
  on_log := recorder_on_log;
  sink_valid _ := True;
  sink_accepts _ _ _ := True;
  sink_deliver s l ts text := s ++ [(l, ts, text)];
}.

#[export] Instance recorder_laws : SinkLaws Recorder.
Proof.
  split. intros s mem tid fid l ts payload content text _ He _ Hc _. simpl. split; [|done].
  unfold recorder_on_log. rewrite (ie_level _ _ _ _ _ _ He), (ie_time _ _ _ _ _ _ He). simpl.
  by rewrite Hc.
Qed.
