(* ===== verification/Sinks.v ===== *)
(** * The sinks

    src/src/include/femtolog/sinks/: [FileSink], [JsonLinesSink], [StdoutSink] and [NullSink], as
    built for POSIX. They write through the interface [FileSystem]; a sink holds the state of the
    files it writes to ([world]), which no one else changes: what is shown is of a sink that is the
    only writer of its file. The result of [write] is never looked at, so that a short write loses
    the rest. The text of a time and of a JSON line comes from fmt and localtime:
    it is a parameter, [time_text] and [json_text]. *)

From S2P Require Import Prelude StringUtil FileSystem FileUtil LogFile LogEntry SinkInterface.

Definition kSep : bytes := bs ": ".
Definition kSepLen : Z := 2.

(** [std::memcpy(p, src, n); p += n]. *)
Definition copy_from (src : bytes) (n : Z) (st : bytes * Z) : option (bytes * Z) :=
  d ← mem_load src 0 n; put_bytes d st.

(** The object of a string literal. *)
Definition literal (s : bytes) : bytes := s ++ [Byte.x00].

Section sinks.
Context {W : Type} {FS : FileSystem W}.
Context (time_text : bytes -> Z -> bytes) (json_text : Z -> bytes -> bytes -> bytes).

(** ** Buffered files

    The members [FileSink] and [JsonLinesSink] have in common, and [StdoutSink] with descriptor 1. *)
Record SinkFile := { fd_ : Z; buffer_ : bytes; cursor_ : Z; world : W }.

Definition set_file (s : SinkFile) (buffer : bytes) (cursor : Z) (w : W) : SinkFile :=
  {| fd_ := fd_ s; buffer_ := buffer; cursor_ := cursor; world := w |}.

(** The result of [write] is not looked at. *)
Definition sink_write (s : SinkFile) (data : bytes) : SinkFile :=
  set_file s (buffer_ s) (cursor_ s) (sys_write (world s) (fd_ s) data).2.

Definition flush (s : SinkFile) : SinkFile :=
  if (cursor_ s =? 0) || (fd_ s <? 0) then s
  else
    let s' := sink_write s (take (Z.to_nat (cursor_ s)) (buffer_ s)) in
    set_file s' (buffer_ s') 0 (world s').

Definition sink_close (s : SinkFile) : SinkFile :=
  let s' := flush s in
  if fd_ s' <? 0 then s' else set_file s' (buffer_ s') (cursor_ s') (sys_close (world s') (fd_ s')).

(** ** FileSink *)

Definition kFileCapacity : Z := 4096.

Definition file_sink_new (w : W) (file_path : bytes) (now : Z) (fuel : nat) : option SinkFile :=
  '(fd, w') ← open_log time_text w file_path now fuel;
  Some {| fd_ := fd; buffer_ := replicate (Z.to_nat kFileCapacity) Byte.x00; cursor_ := 0; world := w' |}.

(** [iov[iovcnt++] = {base, len}] of an array of three. *)
Definition push_iov (base : bytes) (len : Z) (iov : list bytes) : option (list bytes) :=
  if (length iov <? 3)%nat then d ← mem_load base 0 len; Some (iov ++ [d]) else None.

Definition file_write_direct (s : SinkFile) (timestamp : bytes) (timestamp_size : Z)
    (level_str : bytes) (level_len : Z) (content : bytes) (content_len : Z) : option SinkFile :=
  if fd_ s <? 0 then Some s
  else
    iov ← push_iov timestamp timestamp_size [];
    iov ← push_iov level_str level_len iov;
    iov ← push_iov (literal kSep) kSepLen iov;
    iov ← push_iov content content_len iov;
    Some (sink_write s (concat iov)).

(** [on_log] for an entry of this level and time. *)
Definition file_log (s : SinkFile) (level : LogLevel) (timestamp_ns : Z) (content : bytes) (len : Z) :
    option SinkFile :=
  '(timestamp, timestamp_size) ←
    format_timestamp time_text line_time_format timestamp_ns timestamp_buf kTimestampBufSize;
  let level_str := literal (log_level_to_lower_str level) in
  let lv_len := level_len level in
  let total := timestamp_size ⊕ lv_len ⊕ kSepLen ⊕ len in
  let s := if kFileCapacity <? cursor_ s ⊕ total then flush s else s in
  if kFileCapacity <? total then
    file_write_direct s timestamp timestamp_size level_str lv_len content len
  else
    st ← copy_from timestamp timestamp_size (buffer_ s, cursor_ s);
    st ← copy_from level_str lv_len st;
    st ← copy_from (literal kSep) kSepLen st;
    '(buffer, cursor) ← copy_from content len st;
    Some (set_file s buffer cursor (world s)).

(** ** JsonLinesSink *)

Definition kJsonCapacity : Z := 8192.
Definition kMaxJsonLineSize : Z := 2048.

Definition json_sink_new (enable_buffering : bool) (w : W) (file_path : bytes) (now : Z) (fuel : nat) :
    option SinkFile :=
  '(fd, w') ← open_log time_text w file_path now fuel;
  Some {| fd_ := fd;
          buffer_ := if enable_buffering then replicate (Z.to_nat kJsonCapacity) Byte.x00 else [];
          cursor_ := 0; world := w' |}.

Definition json_write_raw (s : SinkFile) (data : bytes) (size : Z) : option SinkFile :=
  if fd_ s <? 0 then Some s else d ← mem_load data 0 size; Some (sink_write s d).

(** [char line[kMaxJsonLineSize]] after [format_to_n]: what fits of the text. *)
Definition json_line (text : bytes) : bytes :=
  let front := take (Z.to_nat kMaxJsonLineSize) text in
  front ++ replicate (Z.to_nat kMaxJsonLineSize - length front) Byte.x00.

Definition json_log (enable_buffering : bool) (s : SinkFile) (level : LogLevel) (timestamp_ns : Z)
    (content : bytes) (len : Z) : option SinkFile :=
  encoded ← encode_escape_ptr content len;
  let text := json_text timestamp_ns (log_level_to_lower_str level) encoded in
  let line := json_line text in
  let line_len := lenZ text in
  if negb enable_buffering then json_write_raw s line line_len
  else
    let s := if kJsonCapacity <? cursor_ s ⊕ line_len then flush s else s in
    if kJsonCapacity <? line_len then json_write_raw s line line_len
    else
      '(buffer, cursor) ← copy_from line line_len (buffer_ s, cursor_ s);
      Some (set_file s buffer cursor (world s)).

Definition json_close (enable_buffering : bool) (s : SinkFile) : SinkFile :=
  if enable_buffering then sink_close s
  else if fd_ s <? 0 then s else set_file s (buffer_ s) (cursor_ s) (sys_close (world s) (fd_ s)).

(** ** StdoutSink

    [color] tells whether colours are on: the mode, and for [kAuto] what the terminal can do. *)
Definition kStdoutCapacity : Z := 4096.
Definition kStdOutFd : Z := 1.
Definition kBold : bytes := ansi "1".
Definition kAnsiStyleLen : Z := 4.
Definition kResetLen : Z := 4.

Inductive ColorMode := kAuto | kAlways | kNever.

Definition is_color_enabled (mode : ColorMode) (ansi_sequence_available : bool) : bool :=
  match mode with kAuto => ansi_sequence_available | kAlways => true | kNever => false end.

Definition stdout_sink_new (enable_buffering : bool) (w : W) : SinkFile :=
  {| fd_ := kStdOutFd;
     buffer_ := if enable_buffering then replicate (Z.to_nat kStdoutCapacity) Byte.x00 else [];
     cursor_ := 0; world := w |}.

Definition estimate_length (color : bool) (level : LogLevel) (content_len : Z) : Z :=
  let len := content_len ⊕ kSepLen in
  let len := if color then len ⊕ (kAnsiStyleLen + kResetLen + kAnsiStyleLen) else len in
  len ⊕ level_len level.

(** [st] is the object [out] points into and the offset. *)
Definition build_message (color : bool) (level : LogLevel) (content : bytes) (content_len : Z)
    (st : bytes * Z) : option (bytes * Z) :=
  st ← if bool_decide (level = kRaw) then Some st
  else
    st ← if color then
      st ← copy_from (literal kBold) kAnsiStyleLen st;
      copy_from (literal (log_level_to_ansi_color level)) (level_ansi_len level) st
    else Some st;
    st ← copy_from (literal (log_level_to_lower_str level)) (level_len level) st;
    st ← if color then copy_from (literal kReset) kResetLen st else Some st;
    copy_from (literal kSep) kSepLen st;
  copy_from content content_len st.

(** [char tmp[kBufferCapacity]] is on the stack. *)
Definition stdout_write_direct (color : bool) (s : SinkFile) (level : LogLevel) (content : bytes)
    (len : Z) : option SinkFile :=
  '(tmp, total) ← build_message color level content len
    (replicate (Z.to_nat kStdoutCapacity) Byte.x00, 0);
  Some (sink_write s (take (Z.to_nat total) tmp)).

Definition stdout_log (enable_buffering color : bool) (s : SinkFile) (level : LogLevel)
    (content : bytes) (len : Z) : option SinkFile :=
  if negb enable_buffering then stdout_write_direct color s level content len
  else
    let total_len := estimate_length color level len in
    let s := if kStdoutCapacity <? cursor_ s ⊕ total_len then flush s else s in
    if kStdoutCapacity <? total_len then stdout_write_direct color s level content len
    else
      '(buffer, cursor) ← build_message color level content len (buffer_ s, cursor_ s);
      Some (set_file s buffer cursor (world s)).

Definition stdout_close (enable_buffering : bool) (s : SinkFile) : SinkFile :=
  if enable_buffering then flush s else s.

(** ** Any sink

    [NullSink] does nothing. *)

(** [sinks_] holds pointers to [SinkBase], and [on_log] is virtual. *)
Inductive AnySink :=
  | AFileSink (s : SinkFile)
  | AJsonLinesSink (enable_buffering : bool) (s : SinkFile)
  | AStdoutSink (enable_buffering color : bool) (s : SinkFile)
  | ANullSink.

Definition any_log (s : AnySink) (level : LogLevel) (timestamp_ns : Z) (content : bytes) (len : Z) :
    option AnySink :=
  match s with
  | AFileSink f => AFileSink <$> file_log f level timestamp_ns content len
  | AJsonLinesSink b f => AJsonLinesSink b <$> json_log b f level timestamp_ns content len
  | AStdoutSink b c f => AStdoutSink b c <$> stdout_log b c f level content len
  | ANullSink => Some ANullSink
  end.

(** [on_log(entry, content, len)] reads the level and the time of the entry. *)
Definition any_on_log (s : AnySink) (mem content : bytes) (len : Z) : option AnySink :=
  level ← entry_level mem; timestamp_ns ← entry_timestamp mem; any_log s level timestamp_ns content len.

(** The destructors. *)
Definition any_close (s : AnySink) : AnySink :=
  match s with
  | AFileSink f => AFileSink (sink_close f)
  | AJsonLinesSink b f => AJsonLinesSink b (json_close b f)
  | AStdoutSink b c f => AStdoutSink b c (stdout_close b f)
  | ANullSink => ANullSink
  end.

(** * Properties *)

(** ** Messages *)

Definition file_line (level : LogLevel) (timestamp_ns : Z) (text : bytes) : bytes :=
  time_text line_time_format timestamp_ns ++ log_level_to_lower_str level ++ kSep ++ text.

Definition json_record (level : LogLevel) (timestamp_ns : Z) (text : bytes) : bytes :=
  json_text timestamp_ns (log_level_to_lower_str level) (escape text).

Definition stdout_message (color : bool) (level : LogLevel) (text : bytes) : bytes :=
  (if bool_decide (level = kRaw) then []
   else (if color then kBold ++ log_level_to_ansi_color level else []) ++
     log_level_to_lower_str level ++ (if color then kReset else []) ++ kSep) ++ text.

(** ** Copying *)

Lemma copy_literal s n st : n = lenZ s -> copy_from (literal s) n st = put_bytes s st.
Proof. intros ->. unfold copy_from, literal. by rewrite mem_load_front. Qed.

Lemma copy_loaded src n d st : mem_load src 0 n = Some d -> copy_from src n st = put_bytes d st.
Proof. unfold copy_from. by intros ->. Qed.

(** ** Buffered files *)

Record sink_ok (cap : Z) (s : SinkFile) : Prop := {
  ok_size : lenZ (buffer_ s) = cap;
  ok_cursor : 0 <= cursor_ s <= cap;
  ok_fd : 0 <= fd_ s;
}.

(** The system takes all of every write to an open file. *)
Definition writes_complete : Prop :=
  forall w fd data n w' path,
    sys_write w fd data = (n, w') -> fd_out w fd = Some path -> n = lenZ data.

(** What writes of these groups of lines left of each: a front, all of it when the system takes
    writes whole. *)
Definition fronts (groups : list (list bytes)) (takes : list bytes) : Prop :=
  Forall2 (λ g t, t `prefix_of` concat g) groups takes /\
  (writes_complete -> takes = (λ g, concat g) <$> groups).

(** The file at [path] got these lines, in order and none in two writes: behind what it held stands
    of every write what the system took of it. When every write is taken whole, and whenever the
    file has grown by the length of the lines, those are the lines. *)
Definition written (w : W) (path old : bytes) (lines : list bytes) : Prop :=
  exists groups takes, concat groups = lines /\ fronts groups takes /\
    content w path = Some (old ++ concat takes) /\
    (lenZ (concat takes) = lenZ (concat lines) -> concat takes = concat lines).

(** What has been given to a sink so far: the file got some of the lines, the buffer has the
    others. *)
Definition holds (s : SinkFile) (path old : bytes) (lines : list bytes) : Prop :=
  fd_out (world s) (fd_ s) = Some path /\
  exists groups takes pend, concat groups ++ pend = lines /\ fronts groups takes /\
    content (world s) path = Some (old ++ concat takes) /\
    take (Z.to_nat (cursor_ s)) (buffer_ s) = concat pend.

Definition room (cap : Z) (s : SinkFile) (n : Z) : SinkFile :=
  if cap <? cursor_ s ⊕ n then flush s else s.

(** [line] was copied into the buffer, which was flushed first if it had no room for [n] bytes. *)
Definition appended (cap n : Z) (s : SinkFile) (line : bytes) (s' : SinkFile) : Prop :=
  let s1 := room cap s n in
  exists buffer cursor, s' = set_file s1 buffer cursor (world s1) /\
    filled cap (take (Z.to_nat (cursor_ s1)) (buffer_ s1) ++ line) (buffer, cursor).

Lemma flush_ok cap s : sink_ok cap s -> sink_ok cap (flush s).
Proof. intros [Hb Hc Hf]. unfold flush. destruct (_ || _); split; simpl; lia. Qed.

Lemma flush_cursor cap s : sink_ok cap s -> cursor_ (flush s) = 0.
Proof.
  intros [Hb Hc Hf]. unfold flush. rewrite (proj2 (Z.ltb_ge (fd_ s) 0)), orb_false_r by lia.
  destruct (Z.eqb_spec (cursor_ s) 0); [done|]. done.
Qed.

Lemma room_ok cap s n :
  sink_ok cap s -> 0 <= n <= cap -> cap < 2 ^ 63 ->
  sink_ok cap (room cap s n) /\ cursor_ (room cap s n) + n <= cap.
Proof.
  intros Hok Hn Hcap. pose proof (ok_cursor _ _ Hok). unfold room.
  rewrite u64_small by lia. destruct (Z.ltb_spec cap (cursor_ s + n)); [|by split].
  split; [by apply flush_ok|]. rewrite (flush_cursor cap) by done. lia.
Qed.

(** Where the buffer starts to be filled. *)
Lemma room_filled cap s n :
  sink_ok cap s -> 0 <= n <= cap -> cap < 2 ^ 63 ->
  let s1 := room cap s n in
  let pre := take (Z.to_nat (cursor_ s1)) (buffer_ s1) in
  filled cap pre (buffer_ s1, cursor_ s1) /\ lenZ pre + n <= cap.
Proof.
  intros Hok Hn Hcap s1 pre. destruct (room_ok cap s n Hok Hn Hcap) as [[Hb Hc _] Hle].
  fold s1 in Hb, Hc, Hle. assert (lenZ pre = cursor_ s1) as Hp.
  { unfold lenZ, pre in *. rewrite length_take. lia. }
  split; [|lia]. exists (drop (Z.to_nat (cursor_ s1)) (buffer_ s1)). simpl. unfold pre.
  rewrite take_drop. fold pre. by rewrite Hp.
Qed.

Lemma appended_ok cap n s line s' :
  sink_ok cap s -> lenZ line <= n <= cap -> cap < 2 ^ 63 -> appended cap n s line s' -> sink_ok cap s'.
Proof.
  intros Hok Hl Hcap (buffer & cursor & -> & rest & Hb & Hp & Hn). simpl in Hb, Hp, Hn.
  assert (0 <= n <= cap) as Hn0 by (pose proof (lenZ_nonneg line); lia).
  destruct (room_ok cap s n Hok Hn0 Hcap) as [[_ _ Hf] _].
  destruct (room_filled cap s n Hok Hn0 Hcap) as [_ Hle].
  split; simpl; [done | | done]. rewrite lenZ_app in Hp. pose proof (lenZ_nonneg line).
  match type of Hp with _ = lenZ ?p + _ => pose proof (lenZ_nonneg p) end. lia.
Qed.

(** The file took [line]: into the buffer, or written at once behind what the buffer held. *)
Definition took (cap : Z) (s : SinkFile) (line : bytes) (s' : SinkFile) : Prop :=
  (exists n, lenZ line <= n <= cap /\ appended cap n s line s') \/ s' = sink_write (flush s) line.

Lemma took_ok cap s line s' : cap < 2 ^ 63 -> sink_ok cap s -> took cap s line s' -> sink_ok cap s'.
Proof.
  intros Hcap Hok [(n & Hl & Ha) | ->].
  - by eapply appended_ok.
  - by destruct (flush_ok cap s Hok).
Qed.

(** A run of log calls. *)
Fixpoint log_all (log : SinkFile -> LogLevel -> Z -> bytes -> Z -> option SinkFile) (s : SinkFile)
    (ms : list (LogLevel * Z * bytes)) : option SinkFile :=
  match ms with
  | [] => Some s
  | (level, ts, text) :: rest => s' ← log s level ts text (lenZ text); log_all log s' rest
  end.

Section streams.
Context {FSL : FileSystemLaws W}.

(** Nothing is missing when the length is right. *)
Lemma fronts_whole groups takes :
  fronts groups takes -> lenZ (concat takes) = lenZ (concat (concat groups)) ->
  concat takes = concat (concat groups).
Proof.
  intros [Hp _] Hl. assert (forall (gs : list (list bytes)) (ts : list bytes), Forall2 (λ g t, t `prefix_of` concat g) gs ts ->
    lenZ (concat ts) <= lenZ (concat (concat gs))) as Hle.
  { clear. induction 1 as [|g t gs ts [rest Hg] _ IH]; [done|]. cbn [concat].
    rewrite concat_app, Hg, !lenZ_app. pose proof (lenZ_nonneg rest). lia. }
  induction Hp as [|g t gs ts [rest Hg] Hp IH]; [done|]. cbn [concat] in *.
  rewrite concat_app, Hg, !lenZ_app in *. specialize (Hle _ _ Hp). pose proof (lenZ_nonneg rest).
  rewrite (lenZ_zero_inv rest), app_nil_r by lia. by rewrite IH by lia.
Qed.

Lemma written_intro w path old groups takes :
  fronts groups takes -> content w path = Some (old ++ concat takes) ->
  written w path old (concat groups).
Proof.
  intros Hf Hc. exists groups, takes. split_and!; [done..|]. by apply fronts_whole.
Qed.

(** When the system takes every write, the lines are there. *)
Lemma written_complete w path old lines :
  writes_complete -> written w path old lines -> content w path = Some (old ++ concat lines).
Proof.
  intros Hw (groups & takes & <- & [_ Ht] & -> & _). rewrite (Ht Hw). do 2 f_equal. clear.
  induction groups as [|g gs IH]; [done|]. csimpl. by rewrite concat_app, IH.
Qed.

(** One more write. *)
Lemma write_group s path old groups takes pend :
  fd_out (world s) (fd_ s) = Some path -> fronts groups takes ->
  content (world s) path = Some (old ++ concat takes) ->
  let s' := sink_write s (concat pend) in
  fd_out (world s') (fd_ s') = Some path /\
  exists t, fronts (groups ++ [pend]) (takes ++ [t]) /\
    content (world s') path = Some (old ++ concat (takes ++ [t])).
Proof.
  intros Hfd [Hp Hw] Hc s'. unfold s', sink_write. simpl.
  destruct (sys_write (world s) (fd_ s) (concat pend)) as [n w'] eqn:E.
  destruct (write_law _ _ _ _ _ _ _ E Hfd Hc) as (_ & Hc' & Hfd'). split; [done|].
  exists (take (Z.to_nat n) (concat pend)). split.
  - split; [apply Forall2_app; [done|]; repeat constructor; apply prefix_take|].
    intros Hall. rewrite (Hw Hall), fmap_app. csimpl. do 2 f_equal.
    rewrite (Hall _ _ _ _ _ _ E Hfd). apply take_ge. unfold lenZ. lia.
  - simpl. rewrite Hc', concat_app. cbn [concat]. by rewrite app_nil_r, app_assoc.
Qed.

Lemma sink_write_holds s path old lines line :
  cursor_ s = 0 -> holds s path old lines -> holds (sink_write s line) path old (lines ++ [line]).
Proof.
  intros H0 (Hfd & groups & takes & pend & <- & Hf & Hc & Hp). rewrite H0, take_0 in Hp.
  assert (line = concat (pend ++ [line])) as Hl
    by (rewrite concat_app, <- Hp; cbn [concat app]; by rewrite app_nil_r).
  rewrite Hl at 1. destruct (write_group s path old groups takes (pend ++ [line]) Hfd Hf Hc)
    as (Hfd' & t & Hf' & Hc').
  split; [done|]. exists (groups ++ [pend ++ [line]]), (takes ++ [t]), []. split_and!; try done.
  - rewrite concat_app. cbn [concat]. by rewrite !app_nil_r, app_assoc.
  - simpl. by rewrite H0, take_0.
Qed.

Lemma flush_holds s path old lines :
  0 <= fd_ s -> holds s path old lines -> holds (flush s) path old lines.
Proof.
  intros Hf Hh. unfold flush. rewrite (proj2 (Z.ltb_ge _ _)), orb_false_r by done.
  destruct (Z.eqb_spec (cursor_ s) 0) as [|Hne]; [done|].
  destruct Hh as (Hfd & groups & takes & pend & <- & Hfr & Hc & ->).
  destruct (write_group s path old groups takes pend Hfd Hfr Hc) as (Hfd' & t & Hf' & Hc').
  split; [done|]. exists (groups ++ [pend]), (takes ++ [t]), []. split_and!; try done.
  rewrite concat_app. cbn [concat]. by rewrite !app_nil_r.
Qed.

Lemma appended_holds cap n s line s' path old lines :
  0 <= fd_ s -> appended cap n s line s' -> holds s path old lines ->
  holds s' path old (lines ++ [line]).
Proof.
  intros Hf (buffer & cursor & -> & rest & Hb & Hp & _) Hh. simpl in Hb, Hp.
  assert (holds (room cap s n) path old lines) as (Hfd & groups & takes & pend & <- & Hfr & Hc & Hpd).
  { unfold room. destruct (_ <? _); [by apply flush_holds | done]. }
  split; [done|]. exists groups, takes, (pend ++ [line]). simpl. split_and!; [by rewrite app_assoc | done..|].
  rewrite concat_app, <- Hpd. cbn [concat]. rewrite app_nil_r. subst. unfold lenZ.
  by rewrite Nat2Z.id, take_app_length.
Qed.

(** With an empty buffer the file got everything. *)
Lemma holds_written s path old lines :
  cursor_ s = 0 -> holds s path old lines -> written (world s) path old lines.
Proof.
  intros H0 (Hfd & groups & takes & pend & <- & Hf & Hc & Hp). rewrite H0, take_0 in Hp.
  (* lines that are empty need no write *)
  replace (concat groups ++ pend) with (concat (groups ++ [pend]))
    by (rewrite concat_app; cbn [concat]; by rewrite app_nil_r).
  apply (written_intro _ _ _ _ (takes ++ [[]])).
  - destruct Hf as [Hf Hw]. split.
    + apply Forall2_app; [done|]. repeat constructor. apply prefix_nil.
    + intros Hall. rewrite (Hw Hall), fmap_app. csimpl. by rewrite <- Hp.
  - rewrite concat_app. cbn [concat app]. by rewrite app_nil_r.
Qed.

Lemma sink_close_written s path old lines :
  0 <= fd_ s -> holds s path old lines -> cursor_ (flush s) = 0 ->
  written (world (sink_close s)) path old lines.
Proof.
  intros Hf Hh H0. apply flush_holds in Hh; [|done]. apply (holds_written _ _ _ _ H0) in Hh.
  unfold sink_close. destruct (_ <? _); [done|]. unfold written in *. simpl. by rewrite close_law.
Qed.

Lemma took_holds cap s line s' path old lines :
  sink_ok cap s -> took cap s line s' -> holds s path old lines -> holds s' path old (lines ++ [line]).
Proof.
  intros Hok [(n & _ & Ha) | ->] Hh; pose proof (ok_fd _ _ Hok).
  - by eapply appended_holds.
  - apply sink_write_holds; [by apply (flush_cursor cap) | by apply flush_holds].
Qed.

(** A sink that takes every message puts them all into its file, in order. *)
Lemma log_all_stream cap log (line : LogLevel * Z * bytes -> bytes) (fits : LogLevel * Z * bytes -> Prop) :
  cap < 2 ^ 63 ->
  (forall s level ts text, sink_ok cap s -> fits (level, ts, text) ->
    exists s', log s level ts text (lenZ text) = Some s' /\ took cap s (line (level, ts, text)) s') ->
  forall ms s path old lines, sink_ok cap s -> holds s path old lines -> Forall fits ms ->
  exists s', log_all log s ms = Some s' /\ sink_ok cap s' /\
    holds s' path old (lines ++ (line <$> ms)) /\
    written (world (sink_close s')) path old (lines ++ (line <$> ms)).
Proof.
  intros Hcap Hlog. induction ms as [|[[level ts] text] ms IH]; intros s path old lines Hok Hh Hms.
  { exists s. csimpl. rewrite app_nil_r. split_and!; try done.
    apply sink_close_written; [by destruct Hok | done | by apply (flush_cursor cap)]. }
  apply Forall_cons in Hms as [Hm Hms].
  destruct (Hlog s level ts text Hok Hm) as (s1 & E & Ht). cbn [log_all]. rewrite E.
  cbn [mbind option_bind].
  destruct (IH s1 path old (lines ++ [line (level, ts, text)])) as (s' & Hr & Hok' & Hh' & Hc).
  - by eapply took_ok.
  - by eapply took_holds.
  - done.
  - exists s'. rewrite <- app_assoc in Hh', Hc. done.
Qed.

End streams.

(** ** FileSink *)

Lemma file_line_length level ts text :
  lenZ (file_line level ts text) =
    lenZ (time_text line_time_format ts) + level_len level + kSepLen + lenZ text.
Proof.
  clear json_text.
  unfold file_line. rewrite !lenZ_app. change (lenZ kSep) with kSepLen. unfold level_len. lia.
Qed.

Lemma level_len_range level : 0 <= level_len level <= 7.
Proof. by destruct level. Qed.

(** The length of a line, as the sink computes it. *)
Lemma file_line_total level ts text :
  lenZ (time_text line_time_format ts) < kTimestampBufSize -> lenZ text < 2 ^ 63 ->
  lenZ (time_text line_time_format ts) ⊕ level_len level ⊕ kSepLen ⊕ lenZ text =
    lenZ (file_line level ts text).
Proof.
  clear json_text.
  intros Ht Hl. rewrite file_line_length. pose proof (level_len_range level).
  unfold kTimestampBufSize, kSepLen in *.
  pose proof (lenZ_nonneg text). pose proof (lenZ_nonneg (time_text line_time_format ts)).
  rewrite u64_add_l, <- Z.add_assoc, u64_add_l, u64_small by lia. lia.
Qed.

Lemma file_log_ok s level ts src text :
  sink_ok kFileCapacity s -> times_fit time_text ->
  mem_load src 0 (lenZ text) = Some text -> lenZ (file_line level ts text) <= kFileCapacity ->
  exists s', file_log s level ts src (lenZ text) = Some s' /\
    took kFileCapacity s (file_line level ts text) s'.
Proof.
  clear json_text.
  intros Hok Ht Hsrc Hl. unfold file_log.
  assert (lenZ (time_text line_time_format ts) < kTimestampBufSize) as Htt by (apply Ht; set_solver).
  destruct (format_timestamp_ok time_text line_time_format ts Htt) as (buf & -> & Hbuf).
  cbn [mbind option_bind].
  assert (lenZ text < 2 ^ 63) as Hlt.
  { rewrite file_line_length in Hl. pose proof (level_len_range level).
    pose proof (lenZ_nonneg (time_text line_time_format ts)). unfold kFileCapacity, kSepLen in *. lia. }
  rewrite file_line_total by done. clear Hlt.
  set (tt := time_text line_time_format ts) in *.
  fold (room kFileCapacity s (lenZ (file_line level ts text))).
  rewrite (proj2 (Z.ltb_ge _ _)) by done.
  destruct (room_filled kFileCapacity s (lenZ (file_line level ts text)) Hok) as [F Hle]; [|done|].
  { pose proof (lenZ_nonneg (file_line level ts text)). lia. }
  unfold appended. set (s1 := room _ _ _) in *. set (pre := take _ (buffer_ s1)) in *.
  rewrite (copy_loaded _ _ _ _ Hbuf). unfold file_line in *. fold tt in F, Hle, Hl |- *.
  autorewrite with femto_size in Hle. pose proof (lenZ_nonneg text). pose proof (lenZ_nonneg kSep).
  pose proof (lenZ_nonneg tt). pose proof (lenZ_nonneg (log_level_to_lower_str level)).
  put_step F. rewrite copy_literal by done. put_step F0. rewrite copy_literal by done. put_step F1.
  rewrite (copy_loaded _ _ _ _ Hsrc). put_step F2. destruct st2 as [buffer cursor].
  eexists. split; [done|]. left. eexists. split; [split; [reflexivity | exact Hl]|]. exists buffer, cursor. split; [done|].
  by rewrite <- !app_assoc in F3.
Qed.


(** A longer line is for [file_write_direct], which puts four pieces into an array of three. *)
Lemma file_log_long s level ts src text :
  0 <= fd_ s -> times_fit time_text -> lenZ text < 2 ^ 63 ->
  kFileCapacity < lenZ (file_line level ts text) -> file_log s level ts src (lenZ text) = None.
Proof.
  clear json_text.
  intros Hfd Ht Hlt Hl. unfold file_log.
  assert (lenZ (time_text line_time_format ts) < kTimestampBufSize) as Htt by (apply Ht; set_solver).
  destruct (format_timestamp_ok time_text line_time_format ts Htt) as (buf & -> & Hbuf).
  cbn [mbind option_bind]. rewrite file_line_total by done.
  rewrite (proj2 (Z.ltb_lt _ (lenZ (file_line level ts text)))) by done.
  unfold file_write_direct. rewrite (proj2 (Z.ltb_ge _ _)).
  - unfold push_iov. rewrite Hbuf. cbn [length Nat.ltb Nat.leb mbind option_bind app].
    destruct (mem_load (literal (log_level_to_lower_str level)) 0 _); [|done].
    cbn [length Nat.ltb Nat.leb mbind option_bind app].
    destruct (mem_load (literal kSep) 0 _); done.
  - destruct (_ <? _); [unfold flush; destruct (_ || _) | ]; done.
Qed.

(** ** StdoutSink *)

Lemma put_bytes_inv d m p m' p' :
  put_bytes d (m, p) = Some (m', p') -> p' = p + lenZ d /\ p' <= lenZ m /\ lenZ m' = lenZ m.
Proof.
  unfold put_bytes. destruct (mem_store m p d) as [m1|] eqn:E; [|done]. cbn [mbind option_bind].
  intros [= <- <-]. pose proof (mem_store_length _ _ _ _ E) as Hl.
  apply mem_store_Some in E as (? & ? & _). unfold lenZ in *. lia.
Qed.

(** The pieces of a message, copied one after the other. *)
Fixpoint put_pieces (ds : list bytes) (st : bytes * Z) : option (bytes * Z) :=
  match ds with [] => Some st | d :: rest => st' ← put_bytes d st; put_pieces rest st' end.

Lemma put_pieces_ok n ds out st :
  filled n out st -> lenZ out + lenZ (concat ds) <= n ->
  exists st', put_pieces ds st = Some st' /\ filled n (out ++ concat ds) st'.
Proof.
  revert out st. induction ds as [|d ds IH]; intros out st F Hl; cbn [concat] in *.
  - exists st. by rewrite app_nil_r.
  - rewrite lenZ_app in Hl. pose proof (lenZ_nonneg (concat ds)). cbn [put_pieces].
    destruct (put_bytes_ok _ _ _ d F ltac:(lia)) as (st1 & -> & F1). cbn [mbind option_bind].
    rewrite app_assoc. apply IH; [done|]. rewrite lenZ_app. lia.
Qed.

Lemma put_pieces_inv ds m p m' p' :
  ds <> [] -> put_pieces ds (m, p) = Some (m', p') ->
  p' = p + lenZ (concat ds) /\ p' <= lenZ m /\ lenZ m' = lenZ m.
Proof.
  intros Hne. revert m p Hne. induction ds as [|d ds IH]; intros m p Hne; [done|].
  cbn [put_pieces]. destruct (put_bytes d (m, p)) as [[m1 p1]|] eqn:E; [|done].
  cbn [mbind option_bind concat]. apply put_bytes_inv in E as (Hp & Hle & Hm).
  rewrite lenZ_app. destruct ds as [|d' ds].
  - intros [= <- <-]. cbn [concat]. rewrite lenZ_nil. lia.
  - intros H'. apply IH in H' as (? & ? & ?); [lia | done].
Qed.

Definition stdout_pieces (color : bool) (level : LogLevel) (text : bytes) : list bytes :=
  (if bool_decide (level = kRaw) then []
   else (if color then [kBold; log_level_to_ansi_color level] else []) ++
     [log_level_to_lower_str level] ++ (if color then [kReset] else []) ++ [kSep]) ++ [text].

Lemma stdout_pieces_concat color level text :
  concat (stdout_pieces color level text) = stdout_message color level text.
Proof.
  unfold stdout_pieces, stdout_message.
  case_bool_decide; destruct color; cbn [concat app]; by rewrite ?app_nil_r, <- ?app_assoc.
Qed.

(** Runs one copy of [build_message] and one of [put_pieces]. *)
Ltac step_piece Hs :=
  cbn [mbind option_bind app put_pieces];
  first [rewrite copy_literal by done | rewrite (copy_loaded _ _ _ _ Hs)];
  match goal with
  | |- context [put_bytes ?d ?st] => destruct (put_bytes d st); cbn [mbind option_bind]; [|done]
  end.

Lemma build_message_pieces color level src text st :
  mem_load src 0 (lenZ text) = Some text ->
  build_message color level src (lenZ text) st = put_pieces (stdout_pieces color level text) st.
Proof.
  intros Hs. unfold build_message, stdout_pieces. case_bool_decide; [by step_piece Hs|].
  destruct color; repeat step_piece Hs; done.
Qed.

Lemma stdout_pieces_nonempty color level text : stdout_pieces color level text <> [].
Proof. unfold stdout_pieces. intros H%app_eq_nil. by destruct H. Qed.

(** The message at the stack buffer of [write_direct]. *)
Lemma stdout_direct_ok color s level src text :
  mem_load src 0 (lenZ text) = Some text ->
  stdout_write_direct color s level src (lenZ text) =
    if decide (lenZ (stdout_message color level text) <= kStdoutCapacity)
    then Some (sink_write s (stdout_message color level text)) else None.
Proof.
  intros Hs. unfold stdout_write_direct. rewrite (build_message_pieces _ _ _ _ _ Hs).
  set (tmp := replicate _ _).
  assert (lenZ tmp = kStdoutCapacity) as Htmp by (unfold lenZ, tmp; by rewrite length_replicate).
  assert (filled kStdoutCapacity [] (tmp, 0)) as F by (by exists tmp).
  rewrite <- stdout_pieces_concat. case_decide as Hl.
  - destruct (put_pieces_ok _ (stdout_pieces color level text) _ _ F) as ([m p] & -> & F').
    { by rewrite lenZ_nil. }
    destruct F' as (rest & Hm & Hp & _). simpl in Hm, Hp. cbn [mbind option_bind]. subst m p.
    unfold lenZ. by rewrite Nat2Z.id, take_app_length.
  - destruct (put_pieces _ _) as [[m p]|] eqn:E; [|done]. exfalso. apply Hl.
    apply put_pieces_inv in E as (-> & Hle & _); [lia | apply stdout_pieces_nonempty].
Qed.

Lemma level_ansi_len_range level : level <> kRaw -> level <> kUnknown -> level_ansi_len level = 5.
Proof. by destruct level. Qed.

Lemma stdout_message_length color level text :
  lenZ (stdout_message color level text) =
    (if bool_decide (level = kRaw) then 0
     else (if color then 8 + level_ansi_len level else 0) + level_len level + 2) + lenZ text.
Proof.
  unfold stdout_message. destruct color, level; cbn [bool_decide decide_rel]; rewrite lenZ_app; done.
Qed.

Lemma estimate_length_eq color level n :
  0 <= n < 2 ^ 63 ->
  estimate_length color level n = n + 2 + (if color then 12 else 0) + level_len level.
Proof.
  intros Hn. pose proof (level_len_range level).
  unfold estimate_length, kSepLen, kAnsiStyleLen, kResetLen.
  rewrite (u64_small (n + 2)) by lia.
  destruct color; [rewrite (u64_small (n + 2 + _)) by lia|]; rewrite u64_small by lia; lia.
Qed.

Lemma stdout_message_text color level text : lenZ text <= lenZ (stdout_message color level text).
Proof.
  rewrite stdout_message_length. unfold level_ansi_len.
  pose proof (lenZ_nonneg (log_level_to_ansi_color level)). pose proof (level_len_range level).
  case_bool_decide; destruct color; lia.
Qed.

(** The buffered sink when the estimate is not too small: without colours, or for a message without
    one. *)
Lemma stdout_buffered_ok color s level src text :
  sink_ok kStdoutCapacity s -> mem_load src 0 (lenZ text) = Some text ->
  (color = true -> level = kRaw \/ level = kUnknown) ->
  lenZ (stdout_message color level text) <= kStdoutCapacity ->
  exists s', stdout_log true color s level src (lenZ text) = Some s' /\
    took kStdoutCapacity s (stdout_message color level text) s'.
Proof.
  intros Hok Hs Hcol Hl. unfold stdout_log. cbn [negb].
  pose proof (lenZ_nonneg text) as H0. pose proof (level_len_range level) as Hlv.
  pose proof (stdout_message_text color level text) as Hle. unfold kStdoutCapacity in *.
  set (est := estimate_length color level (lenZ text)).
  assert (lenZ (stdout_message color level text) <= est < 2 ^ 13) as Hest.
  { unfold est. rewrite estimate_length_eq, stdout_message_length by lia.
    case_bool_decide; destruct color; try lia. destruct (Hcol eq_refl) as [->| ->]; [done|].
    change (level_ansi_len kUnknown) with 0. lia. }
  pose proof (ok_cursor _ _ Hok) as Hc. fold (room 4096 s est).
  destruct (Z.ltb_spec 4096 est) as [Hbig|Hfits].
  - rewrite stdout_direct_ok, decide_True by done. eexists. split; [done|]. right.
    unfold room. rewrite u64_small by lia. by rewrite (proj2 (Z.ltb_lt _ _)) by lia.
  - destruct (room_filled 4096 s est Hok) as [F Hp]; [lia | done |].
    rewrite (build_message_pieces _ _ _ _ _ Hs).
    destruct (put_pieces_ok _ (stdout_pieces color level text) _ _ F) as ([buffer cursor] & -> & F').
    { rewrite stdout_pieces_concat. lia. }
    rewrite stdout_pieces_concat in F'. cbn [mbind option_bind]. eexists. split; [done|]. left.
    exists est. split; [lia|]. by exists buffer, cursor.
Qed.

(** With colours the estimate is short by one byte: a colour has five bytes and four are counted. *)
Lemma stdout_buffered_overrun s level src text :
  sink_ok kStdoutCapacity s -> mem_load src 0 (lenZ text) = Some text ->
  level <> kRaw -> level <> kUnknown ->
  cursor_ s + lenZ (stdout_message true level text) = kStdoutCapacity + 1 ->
  stdout_log true true s level src (lenZ text) = None.
Proof.
  intros Hok Hs Hr Hu Heq. unfold stdout_log. cbn [negb].
  pose proof (lenZ_nonneg text) as H0. pose proof (level_len_range level) as Hlv.
  pose proof (ok_cursor _ _ Hok) as Hc. pose proof (ok_size _ _ Hok) as Hb.
  pose proof (stdout_message_text true level text). unfold kStdoutCapacity in *.
  rewrite (build_message_pieces _ _ _ _ _ Hs), estimate_length_eq by lia.
  rewrite <- stdout_pieces_concat in Heq. pose proof Heq as Hlen.
  rewrite stdout_pieces_concat, stdout_message_length, bool_decide_false, level_ansi_len_range in Hlen
    by done.
  rewrite u64_small by lia. rewrite !(proj2 (Z.ltb_ge 4096 _)) by lia.
  destruct (put_pieces _ _) as [[m p]|] eqn:E; [|done]. exfalso.
  apply put_pieces_inv in E as (-> & Hp & _); [lia | apply stdout_pieces_nonempty].
Qed.

(** ** JsonLinesSink *)

Lemma json_line_front text :
  lenZ text <= kMaxJsonLineSize -> mem_load (json_line text) 0 (lenZ text) = Some text.
Proof.
  intros Hl. unfold json_line. rewrite (take_ge text) by (unfold lenZ in Hl; lia).
  apply mem_load_front.
Qed.

Lemma json_line_long text : kMaxJsonLineSize < lenZ text -> mem_load (json_line text) 0 (lenZ text) = None.
Proof.
  intros Hl. unfold mem_load. rewrite decide_False; [done|]. intros (_ & _ & Hle). revert Hle.
  unfold json_line. rewrite lenZ_app. unfold lenZ, kMaxJsonLineSize in *.
  rewrite length_replicate, length_take. lia.
Qed.

Definition json_cap (enable_buffering : bool) : Z := if enable_buffering then kJsonCapacity else 0.

Lemma flush_empty s : cursor_ s = 0 -> flush s = s.
Proof. intros H0. unfold flush. by rewrite H0. Qed.

Lemma json_raw_ok s text :
  0 <= fd_ s -> lenZ text <= kMaxJsonLineSize ->
  json_write_raw s (json_line text) (lenZ text) = Some (sink_write s text).
Proof.
  intros Hf Hl. unfold json_write_raw. by rewrite (proj2 (Z.ltb_ge _ _)), json_line_front.
Qed.

Lemma json_log_ok b s level ts src text :
  sink_ok (json_cap b) s -> mem_load src 0 (lenZ text) = Some text -> lenZ text < 2 ^ 63 ->
  lenZ (json_record level ts text) <= kMaxJsonLineSize ->
  exists s', json_log b s level ts src (lenZ text) = Some s' /\
    took (json_cap b) s (json_record level ts text) s'.
Proof.
  clear time_text.
  intros Hok Hs Hlt Hl. unfold json_log, encode_escape_ptr. rewrite Hs. cbn [mbind option_bind].
  rewrite encode_escape_spec by done. cbn [mbind option_bind].
  fold (json_record level ts text). pose proof (ok_fd _ _ Hok).
  pose proof (lenZ_nonneg (json_record level ts text)) as H0. destruct b; cbn [negb json_cap] in *.
  - fold (room kJsonCapacity s (lenZ (json_record level ts text))).
    assert (lenZ (json_record level ts text) <= kJsonCapacity) as Hcap
      by (unfold kMaxJsonLineSize, kJsonCapacity in *; lia).
    rewrite (proj2 (Z.ltb_ge _ _)) by done.
    destruct (room_filled kJsonCapacity s (lenZ (json_record level ts text)) Hok) as [F Hle];
      [lia | done |].
    rewrite (copy_loaded _ _ _ _ (json_line_front _ Hl)).
    destruct (put_bytes_ok _ _ _ _ F Hle) as ([buffer cursor] & -> & F'). cbn [mbind option_bind].
    eexists. split; [done|]. left. eexists. split; [split; [reflexivity|done]|]. by exists buffer, cursor.
  - rewrite json_raw_ok by done. eexists. split; [done|]. right.
    rewrite flush_empty; [done|]. destruct Hok as [_ Hc _]. lia.
Qed.

Lemma json_log_long b s level ts src text :
  0 <= fd_ s -> mem_load src 0 (lenZ text) = Some text -> lenZ text < 2 ^ 63 ->
  kMaxJsonLineSize < lenZ (json_record level ts text) ->
  json_log b s level ts src (lenZ text) = None.
Proof.
  clear time_text.
  intros Hf Hs Hlt Hl. unfold json_log, encode_escape_ptr. rewrite Hs. cbn [mbind option_bind].
  rewrite encode_escape_spec by done. cbn [mbind option_bind]. fold (json_record level ts text).
  assert (forall s1, fd_ s1 = fd_ s ->
    json_write_raw s1 (json_line (json_record level ts text)) (lenZ (json_record level ts text)) = None) as Hraw.
  { intros s1 E. unfold json_write_raw. by rewrite E, (proj2 (Z.ltb_ge _ _)), json_line_long. }
  destruct b; cbn [negb]; [|by apply Hraw].
  destruct (kJsonCapacity <? lenZ _).
  - apply Hraw. destruct (_ <? _); [unfold flush; by destruct (_ || _) | done].
  - unfold copy_from. by rewrite json_line_long.
Qed.

(** ** The interface *)

Definition any_ok (s : AnySink) : Prop :=
  match s with
  | AFileSink f => sink_ok kFileCapacity f
  | AJsonLinesSink b f => sink_ok (json_cap b) f
  | AStdoutSink b c f => sink_ok (if b then kStdoutCapacity else 0) f /\ (b = true -> c = false)
  | ANullSink => True
  end.

(** The message fits the buffers of every kind of sink. *)
Definition any_accepts (level : LogLevel) (ts : Z) (text : bytes) : Prop :=
  lenZ text < 2 ^ 63 /\ lenZ (file_line level ts text) <= kFileCapacity /\
  lenZ (json_record level ts text) <= kMaxJsonLineSize /\
  lenZ (stdout_message true level text) <= kStdoutCapacity.

Definition any_sink : SinkBase AnySink := {|
  on_log := any_on_log;
  sink_valid := any_ok;
  sink_accepts := any_accepts;
  sink_deliver s level ts text := default s (any_log s level ts text (lenZ text));
|}.

Lemma any_log_content s level ts a b n :
  mem_load a 0 n = mem_load b 0 n -> any_log s level ts a n = any_log s level ts b n.
Proof.
  intros E. unfold any_log, file_log, file_write_direct, push_iov, json_log, encode_escape_ptr, stdout_log,
    stdout_write_direct, build_message, copy_from. by rewrite E.
Qed.

Lemma stdout_plain_le level text :
  lenZ (stdout_message false level text) <= lenZ (stdout_message true level text).
Proof.
  rewrite !stdout_message_length. unfold level_ansi_len.
  pose proof (lenZ_nonneg (log_level_to_ansi_color level)). case_bool_decide; lia.
Qed.

Definition stdout_cap (enable_buffering : bool) : Z := if enable_buffering then kStdoutCapacity else 0.

Lemma stdout_log_ok b color s level src text :
  sink_ok (stdout_cap b) s -> (b = true -> color = false) ->
  mem_load src 0 (lenZ text) = Some text ->
  lenZ (stdout_message color level text) <= kStdoutCapacity ->
  exists s', stdout_log b color s level src (lenZ text) = Some s' /\
    took (stdout_cap b) s (stdout_message color level text) s'.
Proof.
  intros Hok Hb Hs Hl. destruct b.
  - rewrite (Hb eq_refl) in *. by apply stdout_buffered_ok.
  - unfold stdout_log. cbn [negb]. rewrite stdout_direct_ok, decide_True by done.
    eexists. split; [done|]. right. rewrite flush_empty; [done|]. destruct Hok as [_ Hc _].
    unfold stdout_cap in Hc. lia.
Qed.

Lemma any_sink_laws : times_fit time_text -> @SinkLaws AnySink any_sink.
Proof.
  intros Ht. split.
  intros s mem tid fid level ts payload src text Hok He Hts Hsrc (Hlt & Hfile & Hjson & Hout).
  simpl in *. unfold any_on_log. rewrite (ie_level _ _ _ _ _ _ He), (ie_time _ _ _ _ _ _ He).
  cbn [mbind option_bind].
  rewrite (any_log_content s level ts src text) by (by rewrite mem_load_all).
  pose proof (mem_load_all text) as Hall. destruct s as [f|b f|b c f|]; cbn [any_ok any_log] in *.
  - destruct (file_log_ok f level ts text text Hok Ht Hall Hfile) as (s' & -> & Hk).
    split; [done|]. by eapply took_ok.
  - destruct (json_log_ok b f level ts text text Hok Hall Hlt Hjson) as (s' & -> & Hk).
    split; [done|]. eapply took_ok; [|done..]. by destruct b.
  - destruct Hok as [Hok Hb].
    destruct (stdout_log_ok b c f level text text Hok Hb Hall) as (s' & -> & Hk).
    { destruct c; [done|]. pose proof (stdout_plain_le level text). lia. }
    split; [done|]. split; [|done]. eapply took_ok; [|done..]. by destruct b.
  - done.
Qed.

(** ** What the sinks write *)

Section contracts.
Context {FSL : FileSystemLaws W}.

(** C11. [FileSink], the only writer of its file. Given any messages whose lines have at most 4096
    bytes, the sink puts them into its file in order and once, through its buffer: after the
    destructor every line has gone to the system, none in two writes and in the order of the calls,
    and the file holds what it held before and of every write what the system took; the result of
    [write] is not looked at, so what a short write leaves is lost, but nothing is repeated, mixed
    or out of order, and when every write is taken whole (or the file has grown by the length of
    the lines) the file has exactly one line per message. At every moment the same holds of the file
    and the buffer together. A longer line is undefined behaviour: [write_direct] fills a fourth
    element of an array of three. *)
Theorem file_sink_writes s path old lines ms :
  times_fit time_text -> sink_ok kFileCapacity s -> holds s path old lines ->
  (Forall (fun '(level, ts, text) => lenZ (file_line level ts text) <= kFileCapacity) ms ->
   let lines' := lines ++ ((fun '(level, ts, text) => file_line level ts text) <$> ms) in
   exists s', log_all file_log s ms = Some s' /\ sink_ok kFileCapacity s' /\
     holds s' path old lines' /\ written (world (sink_close s')) path old lines' /\
     (writes_complete -> content (world (sink_close s')) path = Some (old ++ concat lines'))) /\
  (forall level ts text, lenZ text < 2 ^ 63 -> kFileCapacity < lenZ (file_line level ts text) ->
     file_log s level ts text (lenZ text) = None).
Proof.
  clear json_text.
  intros Ht Hok Hh. split.
  - intros Hms lines'. edestruct (log_all_stream kFileCapacity file_log
      (fun '(level, ts, text) => file_line level ts text)) as (s' & H1 & H2 & H3 & H4);
      [done | | exact Hok | exact Hh | exact Hms |].
    { intros s0 level ts text Hok0 Hl. apply file_log_ok; [done..| apply mem_load_all | done]. }
    exists s'. split_and!; [done..|]. intros Hw. by apply written_complete.
  - intros level ts text Hlt Hl. apply file_log_long; [by destruct Hok | done..].
Qed.

(** fmt fills the places of the pattern: a number without newlines, the level and the message. *)
Definition json_layout : Prop :=
  forall ts level message, exists number, (c_nl ∉ number) /\
    json_text ts level message =
      [ch 123; ch 34] ++ bs "timestamp" ++ [ch 34] ++ bs ": " ++ number ++ bs ", " ++
      [ch 34] ++ bs "level" ++ [ch 34] ++ bs ": " ++ [ch 34] ++ level ++ [ch 34] ++ bs ", " ++
      [ch 34] ++ bs "message" ++ [ch 34] ++ bs ": " ++ [ch 34] ++ message ++ [ch 34; ch 125] ++ [c_nl].

Lemma json_record_one_line level ts text :
  json_layout -> exists front, json_record level ts text = front ++ [c_nl] /\ (c_nl ∉ front).
Proof.
  clear time_text.
  intros Hlay. unfold json_record.
  destruct (Hlay ts (log_level_to_lower_str level) (escape text)) as (number & Hn & ->).
  eexists. split; [by rewrite !app_assoc|].
  assert (c_nl ∉ escape text) as He.
  { intros Hin. pose proof (escape_no_control text) as Hf. rewrite Forall_forall in Hf.
    by destruct (Hf _ Hin). }
  assert (c_nl ∉ log_level_to_lower_str level) as Hl
    by (destruct level; apply (bool_decide_unpack _); vm_compute; reflexivity).
  rewrite !not_elem_of_app. split_and!; try done; apply (bool_decide_unpack _); vm_compute; reflexivity.
Qed.

(** C24. [JsonLinesSink], buffered or not, the only writer of its file. Given any messages whose
    records have at most 2048 bytes, after the destructor one record per message has gone to the
    system, in order and none in two writes, and every record is one line: its only newline is its
    last byte, whatever the message. The file holds what it held and of every write what the system
    took (a short write loses the rest of its records), exactly the records when every write is
    taken whole. A longer record is undefined behaviour: the sink reads past the 2048 bytes it
    formatted. *)
Theorem json_sink_writes b s path old lines ms :
  json_layout -> sink_ok (json_cap b) s -> holds s path old lines ->
  (Forall (fun '(level, ts, text) => lenZ text < 2 ^ 63 /\
      lenZ (json_record level ts text) <= kMaxJsonLineSize) ms ->
   exists s' records, log_all (json_log b) s ms = Some s' /\ sink_ok (json_cap b) s' /\
     written (world (sink_close s')) path old (lines ++ records) /\
     (writes_complete ->
      content (world (sink_close s')) path = Some (old ++ concat (lines ++ records))) /\
     Forall2 (fun '(level, ts, text) r => r = json_record level ts text /\
       exists front, r = front ++ [c_nl] /\ (c_nl ∉ front)) ms records) /\
  (forall level ts text, lenZ text < 2 ^ 63 -> kMaxJsonLineSize < lenZ (json_record level ts text) ->
     json_log b s level ts text (lenZ text) = None).
Proof.
  clear time_text.
  intros Hlay Hok Hh. split.
  - intros Hms. edestruct (log_all_stream (json_cap b) (json_log b)
      (fun '(level, ts, text) => json_record level ts text)) as (s' & Hr & Hok' & _ & Hc);
      [by destruct b | | exact Hok | exact Hh | exact Hms |].
    + intros s0 level ts text Hok0 [Hlt Hl]. apply json_log_ok; [done | apply mem_load_all | done..].
    + eexists s', _. split_and!; [exact Hr | exact Hok' | exact Hc | intros Hw; by apply written_complete |].
      clear - Hlay. induction ms as [|[[level ts] text] ms IH]; constructor; [|done].
      split; [done|]. by apply json_record_one_line.
  - intros level ts text Hlt Hl. apply json_log_long; [by destruct Hok | apply mem_load_all | done..].
Qed.

Lemma flush_written cap s path old lines :
  sink_ok cap s -> holds s path old lines -> written (world (flush s)) path old lines.
Proof.
  intros Hok Hh. pose proof (ok_fd _ _ Hok). apply holds_written; [by apply (flush_cursor cap)|].
  by apply flush_holds.
Qed.

(** C25. [StdoutSink], the only writer of standard output. Without buffering, or with buffering and
    without colours, messages of at most 4096 bytes reach standard output in order and once, none in
    two writes: of every write what the system takes (a short write loses the rest), exactly the
    messages when every write is taken whole. Without buffering a longer message is undefined
    behaviour: it is built in an array of 4096 bytes on the stack, whose size nothing is compared
    with. With buffering and colours nothing is promised: a message that ends one byte behind the
    buffer's end is written there, since the colour has five bytes and the estimate counts four. *)
Theorem stdout_sink_writes b color s path old lines ms :
  sink_ok (stdout_cap b) s -> holds s path old lines ->
  ((b = true -> color = false) ->
   Forall (fun '(level, ts, text) => lenZ (stdout_message color level text) <= kStdoutCapacity) ms ->
   let lines' := lines ++ ((fun '(level, ts, text) => stdout_message color level text) <$> ms) in
   exists s', log_all (fun s level _ => stdout_log b color s level) s ms = Some s' /\
     written (world (stdout_close b s')) path old lines' /\
     (writes_complete -> content (world (stdout_close b s')) path = Some (old ++ concat lines'))) /\
  (b = false -> forall level text,
     is_Some (stdout_log b color s level text (lenZ text)) <->
     lenZ (stdout_message color level text) <= kStdoutCapacity) /\
  (b = true -> color = true -> forall level text, level <> kRaw -> level <> kUnknown ->
     cursor_ s + lenZ (stdout_message color level text) = kStdoutCapacity + 1 ->
     stdout_log b color s level text (lenZ text) = None).
Proof.
  intros Hok Hh. split_and!.
  - intros Hb Hms lines'. edestruct (log_all_stream (stdout_cap b)
      (fun s level _ => stdout_log b color s level)
      (fun '(level, ts, text) => stdout_message color level text)) as (s' & Hr & Hok' & Hh' & Hc);
      [by destruct b | | exact Hok | exact Hh | exact Hms |].
    + intros s0 level ts text Hok0 Hl. apply stdout_log_ok; [done..| apply mem_load_all | done].
    + exists s'. split; [done|]. pose proof (flush_written _ _ _ _ _ Hok' Hh') as Hf.
      assert (world (stdout_close b s') = world (flush s')) as ->.
      { destruct b; [done|]. simpl. rewrite flush_empty; [done|]. destruct Hok' as [_ Hcu _].
        unfold stdout_cap in Hcu. lia. }
      split; [done|]. intros Hw. by apply written_complete.
  - intros -> level text. unfold stdout_log. cbn [negb].
    rewrite stdout_direct_ok by apply mem_load_all. case_decide; split; done || by intros [? ?].
  - intros -> -> level text ? ? ?. by apply stdout_buffered_overrun; try apply mem_load_all.
Qed.

End contracts.
End sinks.

(** ** Witnesses *)

#[local] Instance whole : FileSystem MemFs := mem_fs id.
#[local] Instance whole_laws : FileSystemLaws MemFs := mem_fs_laws _.

Lemma whole_complete : writes_complete.
Proof. intros w fd data n w' path. by apply mem_write_complete. Qed.

Definition sink_world : MemFs :=
  {| mf_nodes := [(bs "x.log", FileNode [])]; mf_out := [(1, bs "x.log")]; mf_in := [];
     mf_next := 3 |}.

(** A number is written as a star. *)
Definition starry (ts : Z) (level message : bytes) : bytes :=
  [ch 123; ch 34] ++ bs "timestamp" ++ [ch 34] ++ bs ": " ++ bs "*" ++ bs ", " ++
  [ch 34] ++ bs "level" ++ [ch 34] ++ bs ": " ++ [ch 34] ++ level ++ [ch 34] ++ bs ", " ++
  [ch 34] ++ bs "message" ++ [ch 34] ++ bs ": " ++ [ch 34] ++ message ++ [ch 34; ch 125] ++ [c_nl].

Lemma starry_layout : json_layout starry.
Proof.
  intros ts level message. exists (bs "*"). split; [|done].
  by apply (bool_decide_unpack _); vm_compute.
Qed.

Definition example_messages : list (LogLevel * Z * bytes) :=
  [(kWarn, 7, bs "one"); (kInfo, 8, bs "two" ++ [c_nl])].

Lemma log_sink_ok cap :
  0 <= cap ->
  sink_ok cap {| fd_ := 1; buffer_ := replicate (Z.to_nat cap) Byte.x00; cursor_ := 0;
                 world := sink_world |}.
Proof. intros Hc. split; simpl; [unfold lenZ; rewrite length_replicate|..]; lia. Qed.

Lemma log_sink_holds buffer :
  holds {| fd_ := 1; buffer_ := buffer; cursor_ := 0; world := sink_world |} (bs "x.log") [] [].
Proof. split; [done|]. exists [], [], []. split_and!; [done | split; [constructor | done] | done..]. Qed.

Lemma file_sink_writes_witness :
  exists s', log_all (file_log noon) {| fd_ := 1; buffer_ := replicate (Z.to_nat kFileCapacity) Byte.x00;
      cursor_ := 0; world := sink_world |} example_messages = Some s' /\
    content (world (sink_close s')) (bs "x.log") =
      Some (bs "[12:00:00] warn: one[12:00:00] info: two" ++ [c_nl]).
Proof.
  destruct (file_sink_writes noon _ (bs "x.log") [] [] example_messages noon_fits
    (log_sink_ok kFileCapacity ltac:(done)) (log_sink_holds _)) as [H _].
  destruct H as (s' & Hr & _ & _ & _ & Hc).
  - repeat constructor; vm_compute; discriminate.
  - exists s'. split; [exact Hr | exact (Hc whole_complete)].
Defined.

Lemma json_sink_writes_witness :
  exists s' records, log_all (json_log starry true) {| fd_ := 1;
      buffer_ := replicate (Z.to_nat kJsonCapacity) Byte.x00; cursor_ := 0; world := sink_world |}
      example_messages = Some s' /\
    content (world (sink_close s')) (bs "x.log") = Some (concat records) /\
    length records = 2%nat.
Proof.
  destruct (json_sink_writes starry true _ (bs "x.log") [] [] example_messages
    starry_layout (log_sink_ok kJsonCapacity ltac:(done)) (log_sink_holds _)) as [H _].
  destruct H as (s' & records & Hr & _ & _ & Hc & Hl).
  - repeat constructor; vm_compute; done.
  - exists s', records. split; [exact Hr|]. split; [exact (Hc whole_complete)|].
    symmetry. exact (Forall2_length _ _ _ Hl).
Defined.

Lemma stdout_sink_writes_witness :
  exists s', log_all (fun s level _ => stdout_log false true s level)
      (stdout_sink_new false sink_world) example_messages = Some s' /\
    content (world (stdout_close false s')) (bs "x.log") =
      Some (concat ((fun '(level, _, text) => stdout_message true level text) <$> example_messages)).
Proof.
  destruct (stdout_sink_writes false true (stdout_sink_new false sink_world)
    (bs "x.log") [] [] example_messages (log_sink_ok 0 ltac:(done)) (log_sink_holds [])) as [H _].
  destruct H as (s' & Hr & _ & Hc); [done| |].
  - repeat constructor; vm_compute; discriminate.
  - exists s'. split; [exact Hr | exact (Hc whole_complete)].
Defined.
