(* ===== verification/StdoutConcurrent.v ===== *)
(** * Several sinks on the standard output

    src/src/include/femtolog/sinks/stdout_sink.h: every logger has a worker thread with sinks of its
    own, and the [StdoutSink]s among them write to one descriptor. [flush] and [write_direct] hold a
    mutex around one [write], which the system may carry out in pieces and may end before all is
    written; its result is not looked at. The mutex is a static variable of
    a member function of the class template: each instance of the template has its own. *)

From S2P Require Import Prelude.

(** [StdoutSink<enable_buffering, sync_write>]. *)
Record instance := { enable_buffering : bool; sync_write : bool }.

#[export] Instance instance_eq_dec : EqDecision instance.
Proof. solve_decision. Defined.

(** The next step of a worker thread inside [flush] or [write_direct], with what is left to write. *)
Inductive writer_pc :=
  | WriterIdle
  | WriterLock (data : bytes)       (* lock() *)
  | WriterWrite (rest : bytes)      (* write(kStdOutFd, ...) *)
  | WriterUnlock.                   (* unlock() *)

(** [stdout_mutex i] is the thread that holds the mutex of the instance [i]; [output] is what the
    descriptor was given. [calls] are the calls of [write] in the order they began, with their
    threads, and [shorts] is how many of them ended with a short result. *)
Record shared := {
  stdout_mutex : instance -> option nat;
  writers : list (instance * writer_pc);
  output : bytes;
  calls : list (nat * bytes);
  shorts : nat;
}.

(** [lock()] of thread [t]: [None] when it has to wait. *)
Definition lock (s : shared) (t : nat) (i : instance) : option (instance -> option nat) :=
  if sync_write i then
    match stdout_mutex s i with
    | None => Some (λ j, if decide (j = i) then Some t else stdout_mutex s j)
    | Some _ => None
    end
  else Some (stdout_mutex s).

Definition unlock (s : shared) (i : instance) : instance -> option nat :=
  if sync_write i then λ j, if decide (j = i) then None else stdout_mutex s j else stdout_mutex s.

Definition set_writer (s : shared) (t : nat) (i : instance) (pc : writer_pc) : shared :=
  {| stdout_mutex := stdout_mutex s; writers := <[t := (i, pc)]> (writers s); output := output s; calls := calls s;
     shorts := shorts s |}.

Inductive writer_step : shared -> shared -> Prop :=
  | writer_call s t i data :
      writers s !! t = Some (i, WriterIdle) ->
      writer_step s (set_writer s t i (WriterLock data))
  | writer_lock s t i data m :
      writers s !! t = Some (i, WriterLock data) -> lock s t i = Some m ->
      writer_step s {| stdout_mutex := m; writers := <[t := (i, WriterWrite data)]> (writers s);
                       output := output s; calls := calls s ++ [(t, data)]; shorts := shorts s |}
  | writer_piece s t i piece rest :
      writers s !! t = Some (i, WriterWrite (piece ++ rest)) -> piece <> [] ->
      writer_step s {| stdout_mutex := stdout_mutex s; writers := <[t := (i, WriterWrite rest)]> (writers s);
                       output := output s ++ piece; calls := calls s; shorts := shorts s |}
  | writer_written s t i rest :
      writers s !! t = Some (i, WriterWrite rest) ->
      writer_step s {| stdout_mutex := stdout_mutex s; writers := <[t := (i, WriterUnlock)]> (writers s);
                       output := output s; calls := calls s;
                       shorts := match rest with [] => shorts s | _ => S (shorts s) end |}
  | writer_unlock s t i :
      writers s !! t = Some (i, WriterUnlock) ->
      writer_step s {| stdout_mutex := unlock s i; writers := <[t := (i, WriterIdle)]> (writers s);
                       output := output s; calls := calls s; shorts := shorts s |}.

(** Sinks of the instances [kinds], each in a thread of its own. *)
Definition writers_start (kinds : list instance) : shared :=
  {| stdout_mutex := λ _, None; writers := (λ i, (i, WriterIdle)) <$> kinds; output := []; calls := [];
     shorts := 0 |}.

(** ** One instance *)

Definition in_section (pc : writer_pc) : bool :=
  match pc with WriterWrite _ | WriterUnlock => true | _ => false end.

Definition rest_of (pc : writer_pc) : bytes := match pc with WriterWrite rest => rest | _ => [] end.

(** What the thread that is writing has still to write. *)
Definition unwritten (s : shared) (i : instance) : bytes :=
  match stdout_mutex s i with
  | Some t => match writers s !! t with Some (_, pc) => rest_of pc | None => [] end
  | None => []
  end.

(** The output has of every call a front, one behind the other; only of the last call something may
    still be written. *)
Definition fronts (s : shared) (missing : bytes) : Prop :=
  exists takes, Forall2 (λ c t, t `prefix_of` c.2) (calls s) takes /\ output s = concat takes /\
    (missing <> [] -> exists cs ts t part, calls s = cs ++ [(t, part ++ missing)] /\ takes = ts ++ [part]).

Lemma fronts_stop s s' missing :
  calls s' = calls s -> output s' = output s -> fronts s missing -> fronts s' [].
Proof. intros Hc Ho (takes & Hf & Hout & _). exists takes. by rewrite Hc, Ho. Qed.

(** A call begins. *)
Lemma fronts_begin s s' t data :
  calls s' = calls s ++ [(t, data)] -> output s' = output s -> fronts s [] -> fronts s' data.
Proof.
  intros Hc Ho (takes & Hf & Hout & _). exists (takes ++ [[]]). rewrite Hc, Ho. split_and!.
  - apply Forall2_app; [done|]. repeat constructor. apply prefix_nil.
  - rewrite concat_app, Hout. cbn [concat app]. by rewrite app_nil_r.
  - intros _. by exists (calls s), takes, t, [].
Qed.

(** The system takes a piece of the last call. *)
Lemma fronts_piece s s' piece rest :
  calls s' = calls s -> output s' = output s ++ piece -> piece <> [] ->
  fronts s (piece ++ rest) -> fronts s' rest.
Proof.
  intros Hc Ho Hne (takes & Hf & Hout & Hlast).
  destruct Hlast as (cs & ts & t & part & Hcs & ->); [by destruct piece|].
  exists (ts ++ [part ++ piece]). rewrite Hc, Ho, Hout, Hcs in *. split_and!.
  - apply Forall2_app_inv in Hf as [Hf _]; [|apply Forall2_length in Hf; rewrite !length_app in Hf; simpl in Hf; lia].
    apply Forall2_app; [done|]. repeat constructor. cbn. rewrite app_assoc. by apply prefix_app_r.
  - rewrite !concat_app. cbn [concat]. by rewrite !app_nil_r, app_assoc.
  - intros _. exists cs, ts, t, (part ++ piece). by rewrite <- app_assoc.
Qed.

Section one_instance.
Context (i : instance) (Hsync : sync_write i = true) (kinds : list instance) (His : Forall (eq i) kinds).

(** The mutex is held by the thread inside the section, and by no other. *)
Record exclusive (s : shared) : Prop := {
  ex_instance t j pc : writers s !! t = Some (j, pc) -> j = i;
  ex_holder t pc : writers s !! t = Some (i, pc) -> (in_section pc = true <-> stdout_mutex s i = Some t);
  ex_thread t : stdout_mutex s i = Some t -> is_Some (writers s !! t);
  ex_output : shorts s = 0%nat -> output s ++ unwritten s i = concat (snd <$> calls s);
  ex_fronts : fronts s (unwritten s i);
}.

Lemma exclusive_start : exclusive (writers_start kinds).
Proof.
  constructor; cbn; try done.
  - intros t j pc. rewrite list_lookup_fmap. destruct (kinds !! t) as [j'|] eqn:E; [|done]. cbn. intros [= -> <-].
    symmetry. by apply (proj1 (Forall_lookup _ _) His t).
  - intros t pc. rewrite list_lookup_fmap. destruct (kinds !! t); [|done]. cbn. by intros [= _ <-].
  - exists []. by split_and!.
Qed.

(** A thread moves on outside of the section, or inside of it. *)
Lemma exclusive_moves s t pc pc' :
  exclusive s -> writers s !! t = Some (i, pc) -> in_section pc' = in_section pc ->
  rest_of pc = [] -> rest_of pc' = [] ->
  exclusive (set_writer s t i pc').
Proof.
  intros [Hi Hh Ht Ho Hf] Hpc Hin Hold Hnew. apply lookup_lt_Some in Hpc as Hlt.
  assert (unwritten (set_writer s t i pc') i = unwritten s i) as Hun.
  { unfold unwritten. cbn. destruct (stdout_mutex s i) as [u|]; [|done].
    rewrite list_lookup_insert. case_decide as Hu; [|done]. destruct Hu as [<- _]. by rewrite Hpc, Hold, Hnew. }
  constructor; rewrite ?Hun; try done; cbn.
  - intros u j p. rewrite list_lookup_insert. case_decide; [by intros [= <- _]|apply Hi].
  - intros u p. rewrite list_lookup_insert. case_decide as Hu; [|apply Hh].
    destruct Hu as [<- _]. intros [= <-]. rewrite Hin. by apply Hh.
  - intros u Hu. rewrite list_lookup_insert. case_decide; [by eexists|by apply Ht].
Qed.

Lemma exclusive_step s s' : exclusive s -> writer_step s s' -> exclusive s'.
Proof.
  intros X Hs. pose proof X as [Hi Hh Ht Ho Hf].
  destruct Hs as [s t j data Hpc|s t j data m Hpc Hm|s t j piece rest Hpc Hp|s t j rest Hpc|s t j Hpc];
    pose proof (Hi _ _ _ Hpc) as ->; apply lookup_lt_Some in Hpc as Hlt.
  - by eapply exclusive_moves.
  - unfold lock in Hm. rewrite Hsync in Hm. destruct (stdout_mutex s i) eqn:Em; [done|]. injection Hm as <-.
    constructor; cbn.
    + intros u k p. rewrite list_lookup_insert. case_decide; [by intros [= <- _]|apply Hi].
    + intros u p. rewrite list_lookup_insert, (decide_True (P := i = i)) by done. case_decide as Hu.
      * destruct Hu as [-> _]. intros [= <-]. by split.
      * intros Hup. split; [|by intros [= <-]; destruct Hu]. intros Hin. by apply (Hh u p Hup) in Hin.
    + intros u. rewrite decide_True by done. intros [= <-]. rewrite list_lookup_insert_eq by done. by eexists.
    + intros Hsh. unfold unwritten in *. rewrite Em, app_nil_r in Ho. cbn. rewrite decide_True by done.
      rewrite list_lookup_insert_eq by done. rewrite fmap_app, concat_app, Ho by done. cbn. by rewrite app_nil_r.
    + unfold unwritten in *. rewrite Em in Hf. cbn. rewrite decide_True by done.
      rewrite list_lookup_insert_eq by done. by apply (fronts_begin s _ t).
  - pose proof (proj1 (Hh t _ Hpc) eq_refl) as Em. constructor; cbn.
    + intros u k p. rewrite list_lookup_insert. case_decide; [by intros [= <- _]|apply Hi].
    + intros u p. rewrite list_lookup_insert. case_decide as Hu; [|apply Hh]. destruct Hu as [<- _]. intros [= <-]. by split.
    + intros u Hu. rewrite list_lookup_insert. case_decide; [by eexists|by apply Ht].
    + intros Hsh. unfold unwritten in *. cbn in *. rewrite Em, Hpc in Ho. rewrite Em, list_lookup_insert_eq by done.
      by rewrite <- Ho, <- app_assoc.
    + unfold unwritten in *. cbn in *. rewrite Em, Hpc in Hf. rewrite Em, list_lookup_insert_eq by done.
      by apply (fronts_piece s _ piece).
  - pose proof (proj1 (Hh t _ Hpc) eq_refl) as Em. constructor; cbn.
    + intros u k p. rewrite list_lookup_insert. case_decide; [by intros [= <- _]|apply Hi].
    + intros u p. rewrite list_lookup_insert. case_decide as Hu; [|apply Hh]. destruct Hu as [<- _]. intros [= <-]. by split.
    + intros u Hu. rewrite list_lookup_insert. case_decide; [by eexists|by apply Ht].
    + unfold unwritten in *. cbn in *. rewrite Em, Hpc in Ho. rewrite Em, list_lookup_insert_eq by done.
      destruct rest; [done|]. intros [=].
    + unfold unwritten in *. cbn in *. rewrite Em, Hpc in Hf. rewrite Em, list_lookup_insert_eq by done.
      by apply (fronts_stop s _ rest).
  - pose proof (proj1 (Hh t _ Hpc) eq_refl) as Em. unfold unlock. rewrite Hsync. constructor; cbn.
    + intros u k p. rewrite list_lookup_insert. case_decide; [by intros [= <- _]|apply Hi].
    + intros u p. rewrite list_lookup_insert, (decide_True (P := i = i)) by done. case_decide as Hu.
      * destruct Hu as [<- _]. intros [= <-]. by split.
      * intros Hup. split; [|done]. intros Hin%(Hh u p Hup). rewrite Em in Hin. injection Hin as ->. by destruct Hu.
    + intros u. by rewrite decide_True.
    + unfold unwritten in *. cbn. rewrite Em, Hpc in Ho. by rewrite decide_True.
    + unfold unwritten in *. cbn. rewrite decide_True by done. by apply (fronts_stop s _ _ eq_refl eq_refl Hf).
Qed.
End one_instance.

Inductive writer_exec : shared -> shared -> Prop :=
  | writer_nil s : writer_exec s s
  | writer_snoc s s1 s2 : writer_exec s s1 -> writer_step s1 s2 -> writer_exec s s2.

Lemma exclusive_exec i kinds s :
  sync_write i = true -> Forall (eq i) kinds -> writer_exec (writers_start kinds) s -> exclusive i s.
Proof.
  intros Hi Hk Hx. remember (writers_start kinds) as s0 eqn:E. induction Hx as [s|s s1 s2 Hx IH Hs]; subst.
  - by apply exclusive_start.
  - by eapply exclusive_step; [..|apply IH|].
Qed.

Definition all_idle (s : shared) : Prop := forall t i pc, writers s !! t = Some (i, pc) -> pc = WriterIdle.

(** C26. Lines do not mix on the standard output, as long as all the sinks on it are of one instance of
    the template and synchronise (two instances have two mutexes, and mix: [instances_mix]). However
    many workers have such a sink, and in whatever pieces the system takes what they write: the output
    has of every call of [write] a front, one behind the other in the order of the calls, and never
    two mixed. The fronts are the calls themselves, but for the last while it is being written, as
    long as no call has ended with a short result, which nobody looks at. One thread at most writes,
    and a thread that has to wait waits for one that writes. *)
Theorem stdout_lines_whole i kinds s :
  sync_write i = true -> Forall (eq i) kinds -> writer_exec (writers_start kinds) s ->
  (exists takes, Forall2 (λ c t, t `prefix_of` c.2) (calls s) takes /\ output s = concat takes) /\
  (shorts s = 0%nat -> exists missing, output s ++ missing = concat (snd <$> calls s) /\
     (missing <> [] -> exists t, writers s !! t = Some (i, WriterWrite missing)) /\
     (all_idle s -> missing = [])) /\
  (forall t u pc pc', writers s !! t = Some (i, pc) -> writers s !! u = Some (i, pc') ->
     in_section pc = true -> in_section pc' = true -> t = u) /\
  (forall t, lock s t i = None -> exists u pc, writers s !! u = Some (i, pc) /\ in_section pc = true).
Proof.
  intros Hi Hk Hx. destruct (exclusive_exec i kinds s Hi Hk Hx) as [Xi Xh Xt Xo (takes & Hf & Hout & _)].
  assert (forall t, stdout_mutex s i = Some t -> exists pc, writers s !! t = Some (i, pc) /\ in_section pc = true) as Hheld.
  { intros t Ht. destruct (Xt t Ht) as [[j pc] Hpc]. pose proof (Xi _ _ _ Hpc) as ->. exists pc. split; [done|].
    by apply (Xh _ _ Hpc). }
  split_and!.
  - by exists takes.
  - intros Hsh. exists (unwritten s i). split; [by apply Xo|]. unfold unwritten.
    destruct (stdout_mutex s i) as [t|] eqn:Em; [|done].
    destruct (Hheld t eq_refl) as (pc & Hpc & Hin). rewrite Hpc. split.
    + intros Hne. exists t. destruct pc; done.
    + intros Hidle. by rewrite (Hidle _ _ _ Hpc).
  - intros t u pc pc' Ht Hu H1%(Xh _ _ Ht) H2%(Xh _ _ Hu). congruence.
  - intros t. unfold lock. rewrite Hi. destruct (stdout_mutex s i) as [u|] eqn:Em; [|done]. intros _.
    destruct (Hheld u eq_refl) as (pc & ? & ?). by exists u, pc.
Qed.

(** ** Examples *)

Definition buffered : instance := {| enable_buffering := true; sync_write := true |}.
Definition unbuffered : instance := {| enable_buffering := false; sync_write := true |}.

Lemma writer_cons s s1 s2 : writer_step s s1 -> writer_exec s1 s2 -> writer_exec s s2.
Proof.
  intros Hs Hx. revert Hs. induction Hx as [s1|s1 s2 s3 Hx IH Hs']; intros Hs.
  - eapply writer_snoc; [apply writer_nil | done].
  - eapply writer_snoc; [by apply IH | done].
Qed.

Tactic Notation "writes" uconstr(H) :=
  eapply writer_cons; [eapply H; first [reflexivity | discriminate]|];
  cbn [set_writer stdout_mutex writers output calls shorts insert list_insert app].

(** The first thread has written a part of its line, and the second waits for it. *)
Definition halfway : shared :=
  {| stdout_mutex := λ j, if decide (j = buffered) then Some 0%nat else None;
     writers := [(buffered, WriterWrite (bs "b")); (buffered, WriterLock (bs "cd"))];
     output := bs "a"; calls := [(0%nat, bs "ab")]; shorts := 0 |}.

Lemma halfway_reached : writer_exec (writers_start [buffered; buffered]) halfway.
Proof.
  writes (writer_call _ 0 buffered (bs "ab")). writes (writer_lock _ 0 buffered (bs "ab")).
  writes (writer_call _ 1 buffered (bs "cd")). writes (writer_piece _ 0 buffered (bs "a") (bs "b")).
  apply writer_nil.
Qed.

Lemma stdout_lines_whole_witness :
  writers halfway !! 1%nat = Some (buffered, WriterLock (bs "cd")) /\
  exists u pc, writers halfway !! u = Some (buffered, pc) /\ in_section pc = true.
Proof.
  split; [reflexivity|].
  destruct (stdout_lines_whole buffered [buffered; buffered] halfway eq_refl ltac:(by repeat constructor) halfway_reached)
    as (_ & _ & _ & Hwait).
  apply (Hwait 1%nat). reflexivity.
Defined.

(** Two instances have two mutexes, and their lines mix. *)
Lemma instances_mix : exists s,
  writer_exec (writers_start [buffered; unbuffered]) s /\ all_idle s /\
  calls s = [(0%nat, bs "ab"); (1%nat, bs "cd")] /\ output s = bs "acdb".
Proof.
  eexists. split; [|split].
  - writes (writer_call _ 0 buffered (bs "ab")). writes (writer_lock _ 0 buffered (bs "ab")).
    writes (writer_call _ 1 unbuffered (bs "cd")). writes (writer_lock _ 1 unbuffered (bs "cd")).
    writes (writer_piece _ 0 buffered (bs "a") (bs "b")). writes (writer_piece _ 1 unbuffered (bs "cd") []).
    writes (writer_piece _ 0 buffered (bs "b") []). writes (writer_written _ 0 buffered []).
    writes (writer_written _ 1 unbuffered []). writes (writer_unlock _ 0 buffered). writes (writer_unlock _ 1 unbuffered).
    apply writer_nil.
  - intros [|[|t]] i pc; cbn; by intros [= <- <-].
  - by vm_compute.
Qed.
