(* ===== verification/BackendWorker.v ===== *)
(** * The backend worker

    src/src/include/femtolog/logging/impl/backend_worker.h and
    src/src/logging/impl/backend_worker.cc: the members of [BackendWorker] as a record, its
    operations as functions of it, of the queue behind [queue_] and of the sinks behind [sinks_].
    The queue and the sinks are known by their interfaces only.

    The clock is a parameter that gives the value of every reading in turn, the memory that
    arguments passed by reference point into is [memory], and [eval_order] is the order in which
    the compiler evaluates the arguments of a call. *)

From S2P Require Import Prelude ByteQueue SpscQueue LogEntry Serializer SinkInterface.

Inductive BackendWorkerStatus := kWorkerUninitialized | kIdling | kRunning | kWorkerUnknown.

#[export] Instance BackendWorkerStatus_eq_dec : EqDecision BackendWorkerStatus.
Proof. solve_decision. Defined.

(** [1024 - sizeof(LogEntry)], from internal_logger.h. *)
Definition kMaxPayloadSize : Z := 1024 - sizeof_LogEntry.

(** No code reads it. *)
Inductive ColorMode := kColorAuto | kAlways | kNever.

(** [std::numeric_limits<std::size_t>::max()]: no affinity. *)
Definition kAffinityDisabled : Z := 2 ^ 64 - 1.

Record FemtologOptions := {
  spsc_queue_size : Z;
  backend_format_buffer_size : Z;
  backend_dequeue_buffer_size : Z;
  backend_worker_cpu_affinity : Z;
  color_mode : ColorMode;
  terminate_on_fatal : bool;
}.

Definition default_options : FemtologOptions :=
  {| spsc_queue_size := 1024 * 8; backend_format_buffer_size := 1024 * 2;
     backend_dequeue_buffer_size := 1024 * 4; backend_worker_cpu_affinity := kAffinityDisabled;
     color_mode := kColorAuto; terminate_on_fatal := false |}.

Definition kFastOptions : FemtologOptions :=
  {| spsc_queue_size := 1024 * 1024 * 4; backend_format_buffer_size := 1024 * 64;
     backend_dequeue_buffer_size := 1024 * 64; backend_worker_cpu_affinity := 5;
     color_mode := kColorAuto; terminate_on_fatal := false |}.

Definition kMemorySavingOptions : FemtologOptions :=
  {| spsc_queue_size := 1024; backend_format_buffer_size := 256;
     backend_dequeue_buffer_size := 512; backend_worker_cpu_affinity := kAffinityDisabled;
     color_mode := kColorAuto; terminate_on_fatal := false |}.

(** [char buf[kBufSize]] of [process_log_entry]; its contents are overwritten before they are
    read. *)
Definition local_buf : bytes := replicate (Z.to_nat kMaxPayloadSize) Byte.x00.

Lemma local_buf_size : lenZ local_buf = kMaxPayloadSize.
Proof. unfold lenZ, local_buf. by rewrite length_replicate. Qed.

Section worker.
Context {Q : Type} {BQ : ByteQueue Q} {Sk : Type} {SB : SinkBase Sk} {CI : CodeImage}.
Context {heap : Type} {PM : ProgramMemory heap} (fmt_output : heap -> bytes -> list value -> bytes) (memory : heap).
Context (clock : nat -> Z) (eval_order : nat -> list nat).

(** [clock_reads] counts the calls of [timestamp_ns] so far. *)
Record BackendWorker := {
  dequeue_buffer_ : bytes;
  format_buffer_ : bytes;
  sinks_ : list Sk;
  worker_thread_cpu_affinity_ : Z;
  shutdown_required_ : bool;
  flush_requested_seq_ : Z;
  flush_completed_seq_ : Z;
  idle_iterations_ : Z;
  status_ : BackendWorkerStatus;
  clock_reads : nat;
}.

Definition worker_new : BackendWorker :=
  {| dequeue_buffer_ := []; format_buffer_ := []; sinks_ := [];
     worker_thread_cpu_affinity_ := 5; shutdown_required_ := false;
     flush_requested_seq_ := 0; flush_completed_seq_ := 0; idle_iterations_ := 0;
     status_ := kWorkerUninitialized; clock_reads := 0 |}.

(** Assignments to members. *)
Definition set_buffers (w : BackendWorker) (dq fb : bytes) (sinks : list Sk) (ticks : nat) :=
  {| dequeue_buffer_ := dq; format_buffer_ := fb; sinks_ := sinks;
     worker_thread_cpu_affinity_ := worker_thread_cpu_affinity_ w;
     shutdown_required_ := shutdown_required_ w; flush_requested_seq_ := flush_requested_seq_ w;
     flush_completed_seq_ := flush_completed_seq_ w; idle_iterations_ := idle_iterations_ w;
     status_ := status_ w; clock_reads := ticks |}.

Definition set_flags (w : BackendWorker) (shutdown : bool) (req done : Z) (st : BackendWorkerStatus) :=
  {| dequeue_buffer_ := dequeue_buffer_ w; format_buffer_ := format_buffer_ w;
     sinks_ := sinks_ w; worker_thread_cpu_affinity_ := worker_thread_cpu_affinity_ w;
     shutdown_required_ := shutdown; flush_requested_seq_ := req;
     flush_completed_seq_ := done; idle_iterations_ := idle_iterations_ w; status_ := st;
     clock_reads := clock_reads w |}.

Definition set_idle (w : BackendWorker) (n : Z) :=
  {| dequeue_buffer_ := dequeue_buffer_ w; format_buffer_ := format_buffer_ w;
     sinks_ := sinks_ w; worker_thread_cpu_affinity_ := worker_thread_cpu_affinity_ w;
     shutdown_required_ := shutdown_required_ w;
     flush_requested_seq_ := flush_requested_seq_ w;
     flush_completed_seq_ := flush_completed_seq_ w; idle_iterations_ := n;
     status_ := status_ w; clock_reads := clock_reads w |}.

(** ** Set-up *)

(** The memory of [fmt::memory_buffer] is [format_capacity] bytes after [reserve]. *)
Definition worker_init (w : BackendWorker) (options : FemtologOptions) (format_capacity : Z) :
    BackendWorker :=
  {| dequeue_buffer_ := replicate (Z.to_nat (backend_dequeue_buffer_size options)) Byte.x00;
     format_buffer_ := replicate (Z.to_nat format_capacity) Byte.x00;
     sinks_ := sinks_ w; worker_thread_cpu_affinity_ := backend_worker_cpu_affinity options;
     shutdown_required_ := shutdown_required_ w;
     flush_requested_seq_ := flush_requested_seq_ w;
     flush_completed_seq_ := flush_completed_seq_ w; idle_iterations_ := idle_iterations_ w;
     status_ := kIdling; clock_reads := clock_reads w |}.

Definition register_sink (w : BackendWorker) (s : Sk) : BackendWorker :=
  set_buffers w (dequeue_buffer_ w) (format_buffer_ w) (sinks_ w ++ [s]) (clock_reads w).

Definition clear_sinks (w : BackendWorker) : BackendWorker :=
  set_buffers w (dequeue_buffer_ w) (format_buffer_ w) [] (clock_reads w).

(** [CPU_SET] on a zeroed [cpu_set_t] of 1024 bits, as a number: an id it has no bit for is ignored. *)
Definition cpu_set (cpu : Z) : Z := if cpu <? 1024 then Z.shiftl 1 cpu else 0.

(** The set that [start] asks the system to keep the new thread on, or nothing. *)
Definition set_cpu_affinity (w : BackendWorker) : option Z :=
  if worker_thread_cpu_affinity_ w =? kAffinityDisabled then None
  else Some (cpu_set (worker_thread_cpu_affinity_ w)).

(** A worker that is set up pins its thread to the core of the options and no other; an id that the
    set has no bit for asks for no core at all. *)
Lemma affinity_of_options w options format_capacity :
  set_cpu_affinity (worker_init w options format_capacity) =
    (if decide (backend_worker_cpu_affinity options = kAffinityDisabled) then None
     else if decide (backend_worker_cpu_affinity options < 1024)
     then Some (Z.shiftl 1 (backend_worker_cpu_affinity options)) else Some 0).
Proof.
  unfold set_cpu_affinity, cpu_set. cbn. case_decide as Hd; case_match; try lia; [done|].
  case_decide; case_match; try lia; done.
Qed.

(** ** Polling *)

Inductive pause := BusyLoop | Yield | SleepFor (ns : Z).

Definition apply_polling_strategy (w : BackendWorker) (data_dequeued : bool) :
    BackendWorker * pause :=
  if data_dequeued then (set_idle w 0, BusyLoop)
  else
    let n := u64 (idle_iterations_ w + 1) in
    (set_idle w n,
     if n <=? 2048 then BusyLoop
     else if n <=? 4096 then Yield
     else if n <=? 8192 then SleepFor 32
     else if n <=? 16384 then SleepFor 64
     else if n <=? 32768 then SleepFor 128
     else if n <=? 65536 then SleepFor 256
     else if n <=? 131072 then SleepFor 512
     else if n <=? 262144 then SleepFor 1000
     else if n <=? 524288 then SleepFor 10000
     else SleepFor 100000).

(** ** Processing an entry *)

(** The loop over [sinks_] that calls [on_log] of each. *)
Fixpoint sinks_on_log (sinks : list Sk) (entry content : bytes) (n : Z) : option (list Sk) :=
  match sinks with
  | [] => Some []
  | s :: rest =>
    s' ← on_log s entry content n; rest' ← sinks_on_log rest entry content n; Some (s' :: rest')
  end.

(** The entry lies at the front of the dequeue buffer. *)
Definition process_log_entry (w : BackendWorker) : option BackendWorker :=
  entry ← set_timestamp (dequeue_buffer_ w) (clock (clock_reads w));
  let ticks := S (clock_reads w) in
  format_id ← entry_format_id entry;
  if format_id =? kLiteralLogStringId then
    '(buf1, n) ← copy_raw_payload entry local_buf kMaxPayloadSize;
    buf2 ← mem_store buf1 n [Byte.x00];
    sinks ← sinks_on_log (sinks_ w) entry buf2 n;
    Some (set_buffers w entry (format_buffer_ w) sinks ticks)
  else
    let payload := entry_payload entry in
    format_func ← load_le payload 0 8;
    deserialize_and_format_func ← load_le payload 8 8;
    if (deserialize_and_format_func =? 0) || (format_func =? 0)
    then Some (set_buffers w entry (format_buffer_ w) (sinks_ w) ticks)
    else
      '(fb, size) ← deserialize_and_format fmt_output eval_order memory (format_buffer_ w)
        format_func deserialize_and_format_func (drop 16 payload);
      sinks ← sinks_on_log (sinks_ w) entry fb size;
      Some (set_buffers w entry fb sinks ticks).
(** ** Reading the queue *)

(** The first half of [read_and_process_one]: the peek of the payload length. The result is the
    size of the entry, or [None] inside when there is nothing to read. *)
Definition peek_entry (q : Q) : option (option Z) :=
  '(st, d) ← bq_peek q 2;
  Some (if decide (st = kOk) then Some (u64 (sizeof_LogEntry + le_combine d)) else None).

(** The second half: the bytes are copied to the front of the dequeue buffer, whose size the code
    does not check. *)
Definition dequeue_entry (q : Q) (w : BackendWorker) (total : Z) :
    option (bool * Q * BackendWorker) :=
  '(st, data, q') ← bq_dequeue q total;
  if decide (st = kOk) then
    mem ← mem_store (dequeue_buffer_ w) 0 data;
    w' ← process_log_entry (set_buffers w mem (format_buffer_ w) (sinks_ w) (clock_reads w));
    Some (true, q', w')
  else Some (false, q', w).

Definition read_and_process_one (q : Q) (w : BackendWorker) : option (bool * Q * BackendWorker) :=
  p ← peek_entry q;
  match p with
  | None => Some (false, q, w)
  | Some total => dequeue_entry q w total
  end.

(** [flush_impl]; the fuel counts the turns of the loop. The outer [None] is undefined behaviour,
    the inner one lack of fuel. *)
Fixpoint flush_impl (fuel : nat) (q : Q) (w : BackendWorker) :
    option (option (Q * BackendWorker)) :=
  match fuel with
  | O => Some None
  | S fuel' =>
    '(more, q', w') ← read_and_process_one q w;
    if more : bool then flush_impl fuel' q' w' else Some (Some (q', w'))
  end.

(** ** Messages

    What the front end wants written: a literal text, or a format with its arguments. *)
Inductive body :=
  | Literal (text : bytes)
  | Formatted (format_id : Z) (fmt : bytes) (ref_mode : bool) (types : list arg_type)
      (args : list arg).

Record message := { m_thread : Z; m_level : LogLevel; m_body : body }.

(** The text the sinks are given. *)
Definition text_of (m : message) : bytes :=
  match m_body m with
  | Literal t => t
  | Formatted _ fmt r _ args => fmt_output memory fmt (read_back r <$> args)
  end.

Definition m_format_id (m : message) : Z :=
  match m_body m with Literal _ => kLiteralLogStringId | Formatted id _ _ _ _ => id end.

Definition m_payload (m : message) : bytes :=
  match m_body m with
  | Literal t => t
  | Formatted _ fmt r types args => header r fmt types ++ args_bytes r args
  end.

(** The arguments fit their types and the call site is part of the program. *)
Definition m_typed (m : message) : Prop :=
  match m_body m with
  | Literal t => True
  | Formatted id fmt r types args =>
    0 <= id < kLiteralLogStringId /\ types <> [] /\ Forall2 (passable r) types args /\
    format_linked fmt /\ deserialize_linked r types
  end.

(** The bytes of the record that carries a message. *)
Definition record_of (m : message) (rec : bytes) : Prop :=
  lenZ rec = sizeof_LogEntry + lenZ (m_payload m) /\
  exists ts, is_entry rec (m_thread m) (m_format_id m) (m_level m) ts (m_payload m).

(** What a call by reference points to is still there when the worker reads it: the objects its
    record leads to, and the characters of its strings. *)
Definition m_alive (m : message) : Prop :=
  match m_body m with
  | Literal t => True
  | Formatted _ _ r types args =>
    args_live memory types args = true /\ forallb (value_live memory) (read_back r <$> args) = true
  end.

(** It fits the two buffers of the worker, what it refers to is alive, and the sinks take it at
    any time. *)
Definition deliverable (dequeue_size format_size : Z) (m : message) : Prop :=
  m_typed m /\ m_alive m /\ lenZ (m_payload m) < kMaxPayloadSize /\
  sizeof_LogEntry + lenZ (m_payload m) <= dequeue_size /\
  lenZ (text_of m) <= format_size /\
  forall ts, 0 <= ts < 2 ^ 64 -> sink_accepts (m_level m) ts (text_of m).

(** Every sink is given every message, in order, stamped with the next reading of the clock. *)
Fixpoint deliver_all (sinks : list Sk) (ticks : nat) (ms : list message) : list Sk :=
  match ms with
  | [] => sinks
  | m :: rest =>
    deliver_all ((λ s, sink_deliver s (m_level m) (clock ticks) (text_of m)) <$> sinks)
      (S ticks) rest
  end.

Lemma deliver_all_app sinks ticks ms ms' :
  deliver_all sinks ticks (ms ++ ms') =
    deliver_all (deliver_all sinks ticks ms) (ticks + length ms) ms'.
Proof.
  revert sinks ticks. induction ms as [|m ms IH]; intros; simpl; [by rewrite Nat.add_0_r|].
  rewrite IH. f_equal. lia.
Qed.

(** The worker's buffers are intact and its sinks in order. *)
Record worker_ready (D F : Z) (w : BackendWorker) : Prop := {
  ready_dequeue : lenZ (dequeue_buffer_ w) = D;
  ready_format : lenZ (format_buffer_ w) = F;
  ready_sinks : Forall sink_valid (sinks_ w);
}.

Context {BQL : ByteQueueLaws Q} {SL : SinkLaws Sk} {CIL : CodeImageLaws CI}.
Context (Hclock : forall n, 0 <= clock n < 2 ^ 64).
Context (Horder : forall n, (4 < n)%nat -> eval_order n = seq 0 n).

Lemma sinks_on_log_ok sinks mem tid fid l ts payload content text :
  Forall sink_valid sinks -> is_entry mem tid fid l ts payload -> 0 <= ts < 2 ^ 64 ->
  mem_load content 0 (lenZ text) = Some text -> sink_accepts l ts text ->
  sinks_on_log sinks mem content (lenZ text) =
    Some ((λ s, sink_deliver s l ts text) <$> sinks) /\
  Forall sink_valid ((λ s, sink_deliver s l ts text) <$> sinks).
Proof.
  intros Hv He Hts Hc Ha. induction Hv as [|s sinks Hs Hv [IH1 IH2]]; csimpl; [by split|].
  destruct (sink_on_log s mem tid fid l ts payload content text) as [-> Hs']; [done..|]. simpl.
  rewrite IH1. simpl. split; [done|]. by constructor.
Qed.

(** [w'] differs from [w] in its buffers, sinks and clock only. *)
Definition same_flags (w w' : BackendWorker) : Prop :=
  shutdown_required_ w' = shutdown_required_ w /\
  flush_requested_seq_ w' = flush_requested_seq_ w /\
  flush_completed_seq_ w' = flush_completed_seq_ w /\
  idle_iterations_ w' = idle_iterations_ w /\ status_ w' = status_ w.

(** The order of evaluation matters from five arguments on. *)
Lemma order_any n : (n <= 4)%nat \/ eval_order n = seq 0 n.
Proof. destruct (decide (n <= 4)%nat); [by left | right; apply Horder; lia]. Qed.

(** The call through the pointers of the header, for a message of the program. *)
Lemma dispatch_ok id fmt r types args post fb F :
  m_typed {| m_thread := 0; m_level := kRaw; m_body := Formatted id fmt r types args |} ->
  args_live memory types args = true /\
    forallb (value_live memory) (read_back r <$> args) = true ->
  lenZ (args_bytes r args) < 2 ^ 64 ->
  lenZ fb = F -> lenZ (fmt_output memory fmt (read_back r <$> args)) <= F ->
  exists fb', deserialize_and_format fmt_output eval_order memory fb (format_address fmt)
      (deserialize_address r types) (args_bytes r args ++ post) =
        Some (fb', lenZ (fmt_output memory fmt (read_back r <$> args))) /\
    lenZ fb' = F /\
    mem_load fb' 0 (lenZ (fmt_output memory fmt (read_back r <$> args))) =
      Some (fmt_output memory fmt (read_back r <$> args)).
Proof.
  intros (Hid & Hn & Hargs & Hf & Hd) [Hlive Hviews] Hl <- Hle. unfold deserialize_and_format.
  rewrite format_at_address, deserialize_at_address by done. simpl.
  rewrite deserialize_args by (done || by apply order_any). simpl.
  destruct (format_fits fmt_output memory fmt fb (read_back r <$> args) Hviews Hle) as (fb' & -> & Hfb & Hm).
  exists fb'. unfold lenZ in *. by rewrite Hfb.
Qed.

(** The literal message in the local buffer, with its NUL. *)
Lemma literal_copied mem tid l ts text :
  is_entry mem tid kLiteralLogStringId l ts text -> lenZ text < kMaxPayloadSize ->
  exists buf1 buf2, copy_raw_payload mem local_buf kMaxPayloadSize = Some (buf1, lenZ text) /\
    mem_store buf1 (lenZ text) [Byte.x00] = Some buf2 /\
    mem_load buf2 0 (lenZ text) = Some text.
Proof.
  intros He Hl. pose proof (lenZ_nonneg text). pose proof local_buf_size as Hb.
  assert (kMaxPayloadSize = 1000) as Hk by reflexivity.
  rewrite (copy_raw_payload_spec _ _ _ _ _ _ _ _ He) by lia.
  rewrite take_ge by (unfold lenZ in *; lia).
  destruct (drop (length text) local_buf) as [|b rest] eqn:Hd.
  { apply (f_equal length) in Hd. rewrite length_drop in Hd. unfold lenZ in *. simpl in Hd. lia. }
  do 2 eexists. split; [done|]. rewrite (mem_store_mid text [b] rest) by done.
  split; [done | apply mem_load_front].
Qed.

Lemma process_ok D F w m rec rest :
  worker_ready D F w -> dequeue_buffer_ w = rec ++ rest -> record_of m rec ->
  deliverable D F m ->
  exists w', process_log_entry w = Some w' /\ worker_ready D F w' /\ same_flags w w' /\
    sinks_ w' = deliver_all (sinks_ w) (clock_reads w) [m] /\
    clock_reads w' = S (clock_reads w).
Proof.
  intros [HD HF Hsk] Hrec (Hlen & ts0 & He) (Htyped & Halive & Hmax & Hfit & Htext & Hacc).
  set (ts := clock (clock_reads w)). pose proof (Hclock (clock_reads w)) as Hts. fold ts in Hts.
  specialize (Hacc ts Hts).
  pose proof (entry_app _ _ _ _ _ _ He rest) as Hew. rewrite <- Hrec in Hew.
  destruct (entry_stamp _ _ _ _ _ _ Hew ts Hts) as (mem & Hst & Hem).
  assert (length mem = length (dequeue_buffer_ w)) as Hml
    by exact (mem_store_length _ _ _ _ Hst).
  unfold process_log_entry. fold ts. rewrite Hst. cbn [mbind option_bind].
  rewrite (ie_format _ _ _ _ _ _ Hem). cbn [mbind option_bind].
  destruct m as [tid l [text|id fmt r types args]]; cbn [m_format_id m_body m_thread m_level m_payload text_of] in *.
  - destruct (literal_copied mem tid l ts text Hem) as (buf1 & buf2 & -> & E2 & Hb);
      [done|]. cbn [mbind option_bind].
    change (kLiteralLogStringId =? kLiteralLogStringId) with true. cbv iota beta.
    cbn [mbind option_bind]. rewrite E2. cbn [mbind option_bind].
    destruct (sinks_on_log_ok (sinks_ w) mem tid kLiteralLogStringId l ts text buf2 text)
      as [-> Hv]; [done..|]. cbn [mbind option_bind].
    eexists. split; [done|]. split_and!; try done.
    split; cbn; [unfold lenZ in *; by rewrite Hml | done | done].
  - destruct Htyped as (Hid & Htyped). rewrite (proj2 (Z.eqb_neq _ _)) by lia. cbv zeta.
    destruct (entry_payload_front _ _ _ _ _ _ Hem) as [post Hpost]. rewrite Hpost.
    cbn [m_payload m_body] in *. rewrite lenZ_app, header_length in *.
    unfold sizeof_header, kMaxPayloadSize, sizeof_LogEntry in *.
    rewrite <- app_assoc.
    destruct Htyped as (Hn & Hargs & Hf & Hd).
    pose proof (format_address_range fmt Hf). pose proof (deserialize_address_range r types Hd).
    destruct (header_words r fmt types (args_bytes r args ++ post)) as [-> ->]; [lia..|].
    cbn [mbind option_bind].
    rewrite (proj2 (Z.eqb_neq (deserialize_address r types) 0)),
      (proj2 (Z.eqb_neq (format_address fmt) 0)) by lia. cbn [orb].
    rewrite drop_app_length' by (pose proof (header_length r fmt types);
      unfold sizeof_header, lenZ in *; lia).
    destruct (dispatch_ok id fmt r types args post (format_buffer_ w) F) as (fb & -> & Hfb & Hm);
      [done|done|lia|done|done|]. cbn [mbind option_bind].
    destruct (sinks_on_log_ok (sinks_ w) mem tid id l ts _ fb _ Hsk Hem (Hclock _) Hm Hacc)
      as [-> Hv]. cbn [mbind option_bind].
    eexists. split; [done|]. split_and!; try done.
    split; cbn; [unfold lenZ in *; by rewrite Hml | done | done].
Qed.

(** ** The queue of records *)

(** The waiting bytes are the records of these messages, in order. *)
Definition queued (q : Q) (ms : list message) : Prop :=
  bq_valid q /\ exists recs, Forall2 record_of ms recs /\ bq_contents q = concat recs.

Lemma queued_nil q : queued q [] <-> bq_valid q /\ bq_contents q = [].
Proof.
  split.
  - intros (Hv & recs & Hr & Hc). by inversion Hr; subst.
  - intros [Hv Hc]. split; [done|]. by exists [].
Qed.

(** The length prefix of a record. *)
Lemma record_prefix m rec rest :
  record_of m rec -> lenZ (m_payload m) < kMaxPayloadSize ->
  2 < lenZ rec /\ le_combine (take 2 (rec ++ rest)) = lenZ (m_payload m).
Proof.
  intros (Hl & ts & He) Hm. pose proof (lenZ_nonneg (m_payload m)).
  unfold sizeof_LogEntry in Hl. split; [lia|].
  pose proof (entry_app _ _ _ _ _ _ He rest) as [Hlen _ _ _ _ _].
  unfold entry_payload_len, load_le in Hlen.
  destruct (mem_load (rec ++ rest) off_payload_len (Z.of_nat 2)) as [d|] eqn:E; [|done].
  apply mem_load_Some in E as (_ & _ & _ & ->). by injection Hlen.
Qed.

Lemma peek_empty q : queued q [] -> peek_entry q = Some None.
Proof.
  intros (Hv & Hc)%queued_nil. unfold peek_entry. rewrite bq_peek_short; [done|done|lia|].
  rewrite Hc. rewrite lenZ_nil. lia.
Qed.

Lemma peek_next q m rec recs :
  bq_valid q -> record_of m rec -> lenZ (m_payload m) < kMaxPayloadSize ->
  bq_contents q = rec ++ concat recs ->
  peek_entry q = Some (Some (lenZ rec)).
Proof.
  intros Hv Hr Hm Hc. destruct (record_prefix m rec (concat recs) Hr Hm) as [Hl Hp].
  unfold peek_entry. pose proof (lenZ_nonneg (concat recs)).
  rewrite bq_peek_ok; [|done|rewrite Hc, lenZ_app; lia].
  cbn [mbind option_bind]. rewrite decide_True by done. rewrite Hc.
  change (Z.to_nat 2) with 2%nat. rewrite Hp. destruct Hr as [-> _].
  pose proof (lenZ_nonneg (m_payload m)). assert (kMaxPayloadSize = 1000) by reflexivity.
  unfold sizeof_LogEntry. by rewrite u64_small by lia.
Qed.

Lemma dequeue_next D F q w m rec recs :
  worker_ready D F w -> bq_valid q -> record_of m rec -> deliverable D F m ->
  bq_contents q = rec ++ concat recs ->
  exists q' w', dequeue_entry q w (lenZ rec) = Some (true, q', w') /\
    bq_valid q' /\ bq_contents q' = concat recs /\ bq_capacity q' = bq_capacity q /\
    worker_ready D F w' /\ same_flags w w' /\
    sinks_ w' = deliver_all (sinks_ w) (clock_reads w) [m] /\
    clock_reads w' = S (clock_reads w).
Proof.
  intros Hw Hv Hr Hd Hc. pose proof Hd as (_ & _ & Hm & Hfit & _ & _).
  destruct (record_prefix m rec [] Hr Hm) as [Hl _]. pose proof (lenZ_nonneg (concat recs)).
  unfold dequeue_entry.
  destruct (bq_dequeue_ok q (lenZ rec) Hv) as (q' & -> & Hv' & Hc' & Hcap);
    [rewrite Hc, lenZ_app; lia|].
  cbn [mbind option_bind]. rewrite decide_True by done. rewrite Hc in *.
  unfold lenZ in Hc'. unfold lenZ at 1. rewrite Nat2Z.id in *.
  rewrite take_app_length. rewrite drop_app_length in Hc'.
  pose proof Hw as [HD HF Hsk]. pose proof Hr as (Hlr & _).
  destruct (mem_store (dequeue_buffer_ w) 0 rec) as [mem|] eqn:Est;
    [|by rewrite mem_store_spec in Est by lia].
  cbn [mbind option_bind].
  assert (mem = rec ++ drop (length rec) (dequeue_buffer_ w)) as Hmem.
  { apply mem_store_Some in Est as (_ & Hb & ->).
    rewrite <- (take_drop (length rec) (dequeue_buffer_ w)) at 1.
    apply (list_inserts_mid []). rewrite length_take. unfold lenZ in *. lia. }
  destruct (process_ok D F (set_buffers w mem (format_buffer_ w) (sinks_ w) (clock_reads w))
    m rec (drop (length rec) (dequeue_buffer_ w))) as (w' & -> & Hready & Hflags & Hs & Ht);
    [|done|done|done|].
  - split; cbn; [|done|done]. unfold lenZ in *. by rewrite (mem_store_length _ _ _ _ Est).
  - cbn [mbind option_bind]. exists q', w'. split_and!; try done; apply Hflags.
Qed.

(** One turn: the first message of the queue reaches every sink. *)
Lemma read_one D F q w m ms :
  worker_ready D F w -> queued q (m :: ms) -> deliverable D F m ->
  exists q' w', read_and_process_one q w = Some (true, q', w') /\ queued q' ms /\
    bq_capacity q' = bq_capacity q /\
    worker_ready D F w' /\ same_flags w w' /\
    sinks_ w' = deliver_all (sinks_ w) (clock_reads w) [m] /\
    clock_reads w' = S (clock_reads w).
Proof.
  intros Hw (Hv & recs & Hrecs & Hc) Hd. inversion Hrecs as [|? rec ? recs' Hr Hrs]; subst.
  pose proof Hd as (_ & _ & Hm & _).
  unfold read_and_process_one. rewrite (peek_next q m rec recs') by done.
  cbn [mbind option_bind].
  destruct (dequeue_next D F q w m rec recs' Hw Hv Hr Hd Hc)
    as (q' & w' & -> & Hv' & Hc' & Hcap & Hrest).
  exists q', w'. split; [done|]. split; [split; [done|]; by exists recs'|]. split; [done|]. done.
Qed.

Lemma read_none q w : queued q [] -> read_and_process_one q w = Some (false, q, w).
Proof. intros Hq. unfold read_and_process_one. by rewrite peek_empty. Qed.

Lemma same_flags_trans w1 w2 w3 : same_flags w1 w2 -> same_flags w2 w3 -> same_flags w1 w3.
Proof. unfold same_flags. intuition congruence. Qed.

(** Draining: from a worker whose buffers hold the entries, [flush_impl] terminates after one
    turn per waiting message and one more, leaves the queue empty, and has given every message,
    exactly once and in the order of the queue, to every sink, each stamped with the next clock
    reading; nothing is undefined on the way. *)
Lemma flush_impl_drains D F q w ms fuel :
  worker_ready D F w -> queued q ms -> Forall (deliverable D F) ms -> (length ms < fuel)%nat ->
  exists q' w', flush_impl fuel q w = Some (Some (q', w')) /\
    bq_valid q' /\ bq_contents q' = [] /\ worker_ready D F w' /\ same_flags w w' /\
    sinks_ w' = deliver_all (sinks_ w) (clock_reads w) ms /\
    clock_reads w' = (clock_reads w + length ms)%nat.
Proof.
  intros Hw Hq Hms. revert q w Hw Hq fuel. induction Hms as [|m ms Hm Hms IH];
    intros q w Hw Hq fuel Hf; (destruct fuel as [|fuel]; [simpl in Hf; lia|]); simpl.
  - rewrite read_none by done. simpl. apply queued_nil in Hq as [Hv Hc].
    exists q, w. rewrite Nat.add_0_r. split_and!; done.
  - destruct (read_one D F q w m ms Hw Hq Hm) as (q1 & w1 & -> & Hq1 & _ & Hw1 & Hf1 & Hs1 & Ht1).
    simpl. simpl in Hf.
    destruct (IH q1 w1 Hw1 Hq1 fuel ltac:(lia)) as (q2 & w2 & -> & Hv & Hc & Hw2 & Hf2 & Hs2 & Ht2).
    exists q2, w2. split_and!; try done.
    + by apply (same_flags_trans w w1).
    + rewrite Hs2, Hs1, Ht1. done.
    + rewrite Ht2, Ht1. lia.
Qed.

(** C34. The worker does not compare an entry with its dequeue buffer: a record that is larger than
    [backend_dequeue_buffer_size] is copied past the end of it. Entries may take up to 1023 bytes,
    so the default and the fast options are safe and [kMemorySavingOptions] (512 bytes) is not. *)
Theorem dequeue_buffer_bound q w m ms :
  queued q (m :: ms) -> lenZ (m_payload m) < kMaxPayloadSize ->
  lenZ (dequeue_buffer_ w) < sizeof_LogEntry + lenZ (m_payload m) ->
  read_and_process_one q w = None /\
  sizeof_LogEntry + lenZ (m_payload m) <= backend_dequeue_buffer_size default_options /\
  sizeof_LogEntry + lenZ (m_payload m) <= backend_dequeue_buffer_size kFastOptions /\
  backend_dequeue_buffer_size kMemorySavingOptions < sizeof_LogEntry + kMaxPayloadSize - 1.
Proof.
  intros (Hv & recs & Hrecs & Hc) Hm Hsmall.
  inversion Hrecs as [|? rec ? recs' Hr Hrs]; subst. pose proof Hr as (Hlr & _).
  assert (kMaxPayloadSize = 1000) as Hk by reflexivity. unfold sizeof_LogEntry in *.
  split_and!; try (simpl; lia).
  unfold read_and_process_one. rewrite (peek_next q m rec recs') by done.
  cbn [mbind option_bind]. unfold dequeue_entry.
  pose proof (lenZ_nonneg (concat recs')). pose proof (lenZ_nonneg (m_payload m)).
  destruct (bq_dequeue_ok q (lenZ rec) Hv) as (q' & -> & _);
    [rewrite Hc; simpl; rewrite lenZ_app; lia|].
  cbn [mbind option_bind]. rewrite decide_True by done. unfold mem_store.
  rewrite decide_False; [done|]. rewrite Hc. simpl. unfold lenZ in *. rewrite Nat2Z.id.
  rewrite take_app_length. lia.
Qed.

(** ** Records *)

(** What [LogEntry::create] makes of a message, cut to [total_size], is its record; the payload may
    be the front of a longer object. *)
Lemma create_record m buffer extra :
  m_typed m -> 0 <= m_thread m < 2 ^ 32 -> lenZ (m_payload m) < kMaxPayloadSize ->
  sizeof_LogEntry + kMaxPayloadSize <= lenZ buffer ->
  exists mem, create buffer (m_thread m) (m_format_id m) (m_level m) 0 (m_payload m ++ extra)
      (lenZ (m_payload m)) = Some mem /\ length mem = length buffer /\
    entry_level mem = Some (m_level m) /\
    total_size mem = Some (sizeof_LogEntry + lenZ (m_payload m)) /\
    record_of m (take (Z.to_nat (sizeof_LogEntry + lenZ (m_payload m))) mem).
Proof.
  intros Ht Htid Hp Hb. pose proof (lenZ_nonneg (m_payload m)).
  assert (kMaxPayloadSize = 1000) as Hk by reflexivity.
  assert (0 <= m_format_id m < 2 ^ 16) as Hid.
  { unfold m_typed, m_format_id, kLiteralLogStringId in *. destruct (m_body m); [lia|].
    destruct Ht as [Ht _]. lia. }
  destruct (create_is_entry buffer (m_thread m) (m_format_id m) 0 (m_level m) (m_payload m) extra)
    as (mem & Hc & Hl & He); [done|done|done|lia|lia|].
  exists mem. split_and!; [done|done| apply He | |].
  - rewrite (entry_total _ _ _ _ _ _ He); [done|lia].
  - pose proof (entry_size _ _ _ _ _ _ He). unfold sizeof_LogEntry in *. split.
    + unfold lenZ in *. rewrite length_take. unfold sizeof_LogEntry. lia.
    + exists 0. apply entry_take; [done|]. unfold sizeof_LogEntry. lia.
Qed.

(** Enqueueing a record appends its message, or changes nothing. *)
Lemma queued_enqueue q ms m rec :
  queued q ms -> record_of m rec ->
  exists st q', bq_enqueue q rec = Some (st, q') /\ bq_capacity q' = bq_capacity q /\
    ((st = kOk /\ queued q' (ms ++ [m])) \/ (st = kOverflow /\ queued q' ms)) /\
    (lenZ (bq_contents q) + lenZ rec <= bq_capacity q <-> st = kOk).
Proof.
  intros (Hv & recs & Hrecs & Hc) Hr. pose proof Hr as [Hl _].
  pose proof (lenZ_nonneg (m_payload m)). unfold sizeof_LogEntry in Hl.
  destruct (decide (lenZ (bq_contents q) + lenZ rec <= bq_capacity q)) as [Hfit|Hfit].
  - destruct (bq_enqueue_ok q rec) as (q' & -> & Hv' & Hc' & Hcap); [done|lia|done|].
    exists kOk, q'. split_and!; [done|done| |done]. left. split; [done|]. split; [done|].
    exists (recs ++ [rec]). split; [by apply Forall2_app; [|constructor]|].
    rewrite Hc', Hc, concat_app. simpl. by rewrite app_nil_r.
  - destruct (bq_enqueue_full q rec) as (q' & -> & Hv' & Hc' & Hcap); [done|lia|lia|].
    exists kOverflow, q'. split_and!; [done|done| |done]. right. split; [done|].
    split; [done|]. exists recs. by rewrite Hc'.
Qed.

(** The bytes a message takes in the queue. *)
Definition msg_size (m : message) : Z := sizeof_LogEntry + lenZ (m_payload m).

Lemma queued_size q ms : queued q ms -> lenZ (bq_contents q) = foldr Z.add 0 (msg_size <$> ms).
Proof.
  intros (_ & recs & Hr & ->). induction Hr as [|m rec ms recs [Hl _] Hr IH]; csimpl; [done|].
  by rewrite lenZ_app, IH, Hl.
Qed.

(** The thread id is a [uint32_t], and the logger drops payloads from [kMaxPayloadSize] on. *)
Definition loggable (m : message) : Prop :=
  m_typed m /\ 0 <= m_thread m < 2 ^ 32 /\ lenZ (m_payload m) < kMaxPayloadSize.

(** The two halves of [read_and_process_one] on a queue that is not empty. *)
Lemma peek_queued q m ms D F :
  queued q (m :: ms) -> deliverable D F m -> peek_entry q = Some (Some (msg_size m)).
Proof.
  intros (Hv & recs & Hrecs & Hc) (_ & _ & Hm & _). inversion Hrecs as [|? rec ? recs' Hr Hrs]; subst.
  rewrite (peek_next q m rec recs') by done. by destruct Hr as [-> _].
Qed.

Lemma dequeue_queued D F q w m ms :
  worker_ready D F w -> queued q (m :: ms) -> deliverable D F m ->
  exists q' w', dequeue_entry q w (msg_size m) = Some (true, q', w') /\ queued q' ms /\
    bq_capacity q' = bq_capacity q /\ worker_ready D F w' /\ same_flags w w' /\
    sinks_ w' = deliver_all (sinks_ w) (clock_reads w) [m] /\
    clock_reads w' = S (clock_reads w).
Proof.
  intros Hw Hq Hd. destruct (read_one D F q w m ms Hw Hq Hd) as (q' & w' & Hr & Hrest).
  exists q', w'. split; [|done]. unfold read_and_process_one in Hr.
  by rewrite (peek_queued q m ms D F) in Hr.
Qed.

(** A queue with room can hold any messages. *)
Lemma queue_holds ms : forall q pre,
  queued q pre -> Forall loggable ms ->
  lenZ (bq_contents q) + foldr Z.add 0 (msg_size <$> ms) <= bq_capacity q ->
  exists q', queued q' (pre ++ ms) /\ bq_capacity q' = bq_capacity q.
Proof.
  induction ms as [|m ms IH]; intros q pre Hq Hms Hfit; csimpl in *.
  { exists q. by rewrite app_nil_r. }
  inversion Hms as [|? ? (Ht & Htid & Hp) Hms']; subst.
  assert (0 <= foldr Z.add 0 (msg_size <$> ms)).
  { clear. induction ms as [|m ms IH]; csimpl; [done|]. unfold msg_size at 1, sizeof_LogEntry.
    pose proof (lenZ_nonneg (m_payload m)). lia. }
  destruct (create_record m (replicate (Z.to_nat 1024) Byte.x00) [] Ht Htid Hp)
    as (mem & _ & _ & _ & _ & Hr); [done|].
  destruct (queued_enqueue q pre m _ Hq Hr) as (st & q1 & _ & Hcap & Hcase & Hok).
  pose proof Hr as [Hl _]. unfold msg_size at 1 in Hfit.
  destruct Hcase as [[_ Hq1]|[-> _]]; [|by pose proof (proj1 Hok ltac:(lia))].
  destruct (IH q1 (pre ++ [m]) Hq1 Hms') as (q' & Hq' & Hcap').
  - rewrite (queued_size _ _ Hq1), fmap_app, foldr_app. csimpl.
    rewrite (queued_size _ _ Hq) in Hfit. rewrite Hcap.
    assert (forall l x, foldr Z.add x l = foldr Z.add 0 l + x) as ->.
    { clear. induction l; simpl; intros; [lia|]. rewrite IHl. lia. }
    unfold msg_size at 2. lia.
  - exists q'. rewrite <- app_assoc in Hq'. split; [done|]. congruence.
Qed.

(** ** Backing off *)

Fixpoint idle_turns (k : nat) (w : BackendWorker) : BackendWorker :=
  match k with O => w | S k' => (apply_polling_strategy (idle_turns k' w) false).1 end.

(** How long a turn waits: not at all, a hint to the processor, so many nanoseconds. *)
Definition pause_weight (p : pause) : Z :=
  match p with BusyLoop => 0 | Yield => 1 | SleepFor ns => 2 + ns end.

Lemma idle_turns_count k w :
  idle_iterations_ w = 0 -> Z.of_nat k < 2 ^ 64 -> idle_iterations_ (idle_turns k w) = Z.of_nat k.
Proof.
  intros Hw. induction k as [|k IH]; intros Hk; simpl; [done|].
  rewrite IH by lia. rewrite u64_small by lia. lia.
Qed.

(** The polling strategy backs off and recovers: the longer the run of empty turns, the longer
    the pause, from busy waiting (2048 turns) over a processor hint (up to 4096) to sleeps that
    never exceed 100 microseconds, and one successful turn starts over. *)
Theorem polling_backs_off w i j :
  idle_iterations_ w = 0 -> (i <= j)%nat -> Z.of_nat j < 2 ^ 64 - 1 ->
  let pause_after k := (apply_polling_strategy (idle_turns k w) false).2 in
  pause_weight (pause_after i) <= pause_weight (pause_after j) <= 2 + 100000 /\
  ((i < 2048)%nat -> pause_after i = BusyLoop) /\
  ((2048 <= i < 4096)%nat -> pause_after i = Yield) /\
  apply_polling_strategy (idle_turns j w) true = (set_idle (idle_turns j w) 0, BusyLoop).
Proof.
  intros Hw Hij Hj pause_after.
  assert (forall k, (k <= j)%nat -> idle_iterations_ (idle_turns k w) = Z.of_nat k) as Hidle
    by (intros; apply idle_turns_count; [done|lia]).
  unfold pause_after, apply_polling_strategy. cbn [snd].
  rewrite !Hidle, !u64_small by lia.
  split_and!; [ | | | | done]; intros; repeat case_match; simpl; try lia; try done.
Qed.
End worker.

(** ** Witnesses *)

(** Two messages in a queue of 256 bytes, one recording sink. *)
Definition example_messages : list message :=
  [ {| m_thread := 7; m_level := kInfo; m_body := Literal (bs "up") |};
    {| m_thread := 7; m_level := kWarn;
       m_body := Formatted 300 (bs "{}%") false [TTrivial 1] [ATrivial (bs "Z")] |} ].

Definition example_image : CodeImage := one_site (bs "{}%") false [TTrivial 1].

(** A formatter that puts the values behind each other. *)
Definition show_values (_ : unit) (fmt : bytes) (vs : list value) : bytes :=
  concat ((λ v, match v with VString s => s | VTrivial r => r | _ => [] end) <$> vs).

Lemma example_loggable : Forall (loggable (CI := example_image)) example_messages.
Proof. repeat constructor; simpl; lia || discriminate. Qed.

(** A reserved SPSC queue that holds the two messages. *)
Lemma example_queued :
  exists q : SpscQueue, queued (CI := example_image) q example_messages.
Proof.
  destruct (reserve zero_alloc 256) as [q|] eqn:Hq; [|discriminate Hq].
  destruct (reserve_valid zero_alloc 256 q zero_alloc_sized) as [Hn|(Hv & Hc & Hcap & _)];
    [lia | done | injection Hq as <-; discriminate |].
  destruct (queue_holds (CI := example_image) example_messages q [])
    as (q' & Hq' & _); [by apply queued_nil | apply example_loggable | | by exists q'].
  change (bq_contents q) with (spsc_contents q). rewrite Hc.
  change (bq_capacity q) with (capacity_ q). etransitivity; [|exact Hcap]. by vm_compute.
Qed.

Definition example_worker : BackendWorker (Sk := Recorder) :=
  register_sink (worker_init worker_new default_options 2048) [].

Lemma example_ready : worker_ready (Sk := Recorder) 4096 2048 example_worker.
Proof. split; [reflexivity | reflexivity | repeat constructor]. Qed.

Lemma example_deliverable :
  Forall (deliverable (Sk := Recorder) (CI := example_image) show_values tt 4096 2048)
    example_messages.
Proof.
  pose proof example_loggable as Hl. repeat constructor; simpl; try lia; try discriminate.
Qed.

Lemma dequeue_buffer_bound_witness :
  exists q : SpscQueue, read_and_process_one (Sk := Recorder) (CI := example_image) show_values tt
    (λ _, 0) (seq 0) q worker_new = None.
Proof.
  destruct example_queued as [q Hq]. exists q.
  apply (dequeue_buffer_bound (CI := example_image) show_values tt (λ _, 0) (seq 0))
    with (m := {| m_thread := 7; m_level := kInfo; m_body := Literal (bs "up") |})
         (ms := tl example_messages).
  - exact Hq.
  - reflexivity.
  - reflexivity.
Defined.

Lemma polling_backs_off_witness :
  (apply_polling_strategy (Sk := Recorder) (idle_turns 3 worker_new) false).2 = BusyLoop /\
  pause_weight (apply_polling_strategy (Sk := Recorder) (idle_turns 3 worker_new) false).2 <=
    pause_weight (apply_polling_strategy (Sk := Recorder) (idle_turns 5 worker_new) false).2.
Proof.
  destruct (polling_backs_off (Sk := Recorder) worker_new 3 5) as ((H1 & _) & H2 & _);
    [reflexivity | lia | lia |].
  split; [apply H2; lia | exact H1].
Defined.
