(* ===== verification/BackendConcurrent.v ===== *)
(** * The worker thread and its client

    src/src/logging/impl/backend_worker.cc: [run_loop] as the program of one thread, cut at every
    load and store of a shared variable and at every queue operation, interleaved with the thread
    that owns the logger: it enqueues records, and calls [start], [flush] and [stop]. The queue
    operations are atomic steps, which SpscConcurrent.v justifies, and the shared variables are
    sequentially consistent. *)

From S2P Require Import Prelude ByteQueue SpscQueue LogEntry Serializer SinkInterface BackendWorker.

(** Where [read_and_process_one] was called from. *)
Inductive phase := Turn | InFlush (req : Z) | Final.

(** The next step of [run_loop]. *)
Inductive worker_pc :=
  | WNone                                  (* no thread *)
  | WTop                                   (* load shutdown_required_ *)
  | WLoadReq                               (* load flush_requested_seq_ *)
  | WLoadDone (req : Z)                    (* load flush_completed_seq_ *)
  | WPeek (p : phase)                      (* queue_->peek_bytes *)
  | WDequeue (p : phase) (total : Z)       (* queue_->dequeue_bytes and processing *)
  | WStore (req : Z)                       (* store flush_completed_seq_ *)
  | WPoll (data_dequeued : bool)           (* apply_polling_strategy *)
  | WFinalLoad                             (* load flush_requested_seq_ after the loop *)
  | WFinalStore (req : Z)                  (* store flush_completed_seq_ after the loop *)
  | WExited.

(** The next step of the client: between calls, spinning in [flush], or in [join]. *)
Inductive client_pc := CIdle | CFlushWait (seq : Z) | CJoin.

Section system.
Context {Q : Type} {BQ : ByteQueue Q} {Sk : Type} {SB : SinkBase Sk} {CI : CodeImage}.
Context {heap : Type} {PM : ProgramMemory heap} (fmt_output : heap -> bytes -> list value -> bytes) (memory : heap).
Context (clock : nat -> Z) (eval_order : nat -> list nat).

Abbreviation worker := (BackendWorker (Sk := Sk)).

(** [accepted] is the history of the messages whose enqueue succeeded. *)
Record system := {
  s_queue : Q;
  s_worker : worker;
  s_pc : worker_pc;
  s_client : client_pc;
  accepted : list message;
}.

(** Nothing was read: the call returns false. *)
Definition after_empty (p : phase) : worker_pc :=
  match p with Turn => WPoll false | InFlush req => WStore req | Final => WFinalLoad end.

Definition after_one (p : phase) : worker_pc :=
  match p with Turn => WPoll true | _ => WPeek p end.

Definition complete (w : worker) (req : Z) : worker :=
  set_flags w (shutdown_required_ w) (flush_requested_seq_ w) req (status_ w).

(** One step of the worker thread; [None] when there is no thread left to run, or on undefined
    behaviour. *)
Definition worker_step (q : Q) (w : worker) (pc : worker_pc) : option (Q * worker * worker_pc) :=
  match pc with
  | WNone | WExited => None
  | WTop => Some (q, w, if shutdown_required_ w then WPeek Final else WLoadReq)
  | WLoadReq => Some (q, w, WLoadDone (flush_requested_seq_ w))
  | WLoadDone req =>
    Some (q, w, WPeek (if flush_completed_seq_ w <? req then InFlush req else Turn))
  | WPeek p =>
    r ← peek_entry q;
    Some (q, w, match r with None => after_empty p | Some total => WDequeue p total end)
  | WDequeue p total =>
    '(more, q', w') ← dequeue_entry fmt_output memory clock eval_order q w total;
    Some (q', w', if more : bool then after_one p else after_empty p)
  | WStore req => Some (q, complete w req, WPeek Turn)
  | WPoll b => Some (q, (apply_polling_strategy w b).1, WTop)
  | WFinalLoad => Some (q, w, WFinalStore (flush_requested_seq_ w))
  | WFinalStore req => Some (q, complete w req, WExited)
  end.

Inductive label :=
  | LWorker | LEnqueue (m : message) (st : QueueStatus) | LStart
  | LFlushCall | LFlushReturn | LStopCall | LStopReturn.

(** The client's steps. A log call reaches the queue only while the status is [kRunning]; [start]
    is called on an idle worker, and [flush] and [stop] return at once on one that does not
    run. *)
Inductive sys_step : system -> label -> system -> Prop :=
  | step_worker s q' w' pc' :
      worker_step (s_queue s) (s_worker s) (s_pc s) = Some (q', w', pc') ->
      sys_step s LWorker
        {| s_queue := q'; s_worker := w'; s_pc := pc'; s_client := s_client s;
           accepted := accepted s |}
  | step_enqueue s m rec st q' :
      s_client s = CIdle -> status_ (s_worker s) = kRunning -> record_of m rec ->
      bq_enqueue (s_queue s) rec = Some (st, q') ->
      sys_step s (LEnqueue m st)
        {| s_queue := q'; s_worker := s_worker s; s_pc := s_pc s; s_client := CIdle;
           accepted := if decide (st = kOk) then accepted s ++ [m] else accepted s |}
  | step_start s :
      s_client s = CIdle -> status_ (s_worker s) = kIdling -> s_pc s = WNone ->
      sys_step s LStart
        {| s_queue := s_queue s;
           s_worker := set_flags (s_worker s) (shutdown_required_ (s_worker s))
             (flush_requested_seq_ (s_worker s)) (flush_completed_seq_ (s_worker s)) kRunning;
           s_pc := WTop; s_client := CIdle; accepted := accepted s |}
  | step_flush_call s :
      s_client s = CIdle -> status_ (s_worker s) = kRunning ->
      sys_step s LFlushCall
        {| s_queue := s_queue s;
           s_worker := set_flags (s_worker s) (shutdown_required_ (s_worker s))
             (u64 (flush_requested_seq_ (s_worker s) + 1)) (flush_completed_seq_ (s_worker s))
             (status_ (s_worker s));
           s_pc := s_pc s;
           s_client := CFlushWait (u64 (flush_requested_seq_ (s_worker s) + 1));
           accepted := accepted s |}
  | step_flush_return s seq :
      s_client s = CFlushWait seq -> seq <= flush_completed_seq_ (s_worker s) ->
      sys_step s LFlushReturn
        {| s_queue := s_queue s; s_worker := s_worker s; s_pc := s_pc s; s_client := CIdle;
           accepted := accepted s |}
  | step_stop_call s :
      s_client s = CIdle -> status_ (s_worker s) = kRunning ->
      sys_step s LStopCall
        {| s_queue := s_queue s;
           s_worker := set_flags (s_worker s) true (flush_requested_seq_ (s_worker s))
             (flush_completed_seq_ (s_worker s)) (status_ (s_worker s));
           s_pc := s_pc s; s_client := CJoin; accepted := accepted s |}
  | step_stop_return s :
      s_client s = CJoin -> s_pc s = WExited ->
      sys_step s LStopReturn
        {| s_queue := s_queue s;
           s_worker := set_flags (s_worker s) (shutdown_required_ (s_worker s))
             (flush_requested_seq_ (s_worker s)) (flush_completed_seq_ (s_worker s)) kIdling;
           s_pc := WNone; s_client := CIdle; accepted := accepted s |}.

Inductive exec : system -> list label -> system -> Prop :=
  | exec_nil s : exec s [] s
  | exec_snoc s ls s1 l s2 : exec s ls s1 -> sys_step s1 l s2 -> exec s (ls ++ [l]) s2.

(** ** The invariant *)

(** How often [start] was called. *)
Definition start_count (l : label) : nat := match l with LStart => 1 | _ => 0 end.
Definition starts (ls : list label) : nat := foldr (λ l n, start_count l + n)%nat 0%nat ls.

Lemma starts_snoc ls l : starts (ls ++ [l]) = (starts ls + start_count l)%nat.
Proof. induction ls as [|l' ls IH]; simpl; [lia|]. rewrite IH. lia. Qed.

(** What the position of the worker says, [pend] being the messages waiting in the queue. *)
Definition pc_inv (w : worker) (client : client_pc) (pend : list message) (pc : worker_pc) : Prop :=
  let phase_inv p := match p with
    | Turn => True
    | InFlush req => flush_completed_seq_ w < req /\ req = flush_requested_seq_ w
    | Final => client = CJoin
    end in
  match pc with
  | WNone => client = CIdle /\ pend = [] /\ status_ w = kIdling
  | WTop | WLoadReq | WPoll _ => True
  | WLoadDone req =>
    flush_completed_seq_ w <= req <= flush_requested_seq_ w /\
    (flush_completed_seq_ w < req -> req = flush_requested_seq_ w)
  | WPeek p => phase_inv p
  | WDequeue p total => phase_inv p /\ exists m ms, pend = m :: ms /\ total = msg_size m
  | WStore req => phase_inv (InFlush req) /\ pend = []
  | WFinalLoad => client = CJoin /\ pend = []
  | WFinalStore req => client = CJoin /\ pend = [] /\ req = flush_requested_seq_ w
  | WExited => client = CJoin /\ pend = []
  end.

(** The flush counters; [k] bounds the number of flushes. *)
Definition flush_inv (k : Z) (w : worker) (client : client_pc) : Prop :=
  0 <= flush_completed_seq_ w <= flush_requested_seq_ w /\ flush_requested_seq_ w <= k /\
  match client with
  | CFlushWait seq => seq = flush_requested_seq_ w
  | _ => flush_completed_seq_ w = flush_requested_seq_ w
  end.

(** The life of the worker: not started, running, told to stop, stopped. *)
Definition life_inv (n : nat) (w : worker) (client : client_pc) (pc : worker_pc) : Prop :=
  match n with
  | O => pc = WNone /\ client = CIdle /\ shutdown_required_ w = false /\ status_ w = kIdling
  | S _ =>
    match pc with
    | WNone => shutdown_required_ w = true
    | _ => status_ w = kRunning /\ (shutdown_required_ w = true <-> client = CJoin)
    end
  end.

Context (D F : Z) (sinks0 : list Sk).

(** [done] has been delivered, [pend] is waiting. *)
Record inv (n : nat) (k : Z) (done pend : list message) (s : system) : Prop := {
  inv_accepted : accepted s = done ++ pend;
  inv_queued : queued (s_queue s) pend;
  inv_deliverable : Forall (deliverable (Sk := Sk) fmt_output memory D F) pend;
  inv_ready : worker_ready D F (s_worker s);
  inv_sinks : sinks_ (s_worker s) = deliver_all fmt_output memory clock sinks0 0 done;
  inv_clock : clock_reads (s_worker s) = length done;
  inv_flush : flush_inv k (s_worker s) (s_client s);
  inv_life : life_inv n (s_worker s) (s_client s) (s_pc s);
  inv_pc : pc_inv (s_worker s) (s_client s) pend (s_pc s);
  inv_flushed seq : s_client s = CFlushWait seq -> seq <= flush_completed_seq_ (s_worker s) ->
    pend = [];
}.

(** A log call of the trace carries a message the worker and the sinks can handle. *)
Definition label_ok (l : label) : Prop :=
  match l with LEnqueue m _ => deliverable (Sk := Sk) fmt_output memory D F m | _ => True end.

Context {BQL : ByteQueueLaws Q} {SL : SinkLaws Sk} {CIL : CodeImageLaws CI}.
Context (Hclock : forall n, 0 <= clock n < 2 ^ 64).
Context (Horder : forall n, (4 < n)%nat -> eval_order n = seq 0 n).

Lemma deliver_snoc done m :
  deliver_all fmt_output memory clock sinks0 0 (done ++ [m]) =
    deliver_all fmt_output memory clock
      (deliver_all fmt_output memory clock sinks0 0 done) (length done) [m].
Proof. apply deliver_all_app. Qed.

(** Where the worker is inside the loop, and not at its end. *)
Definition running (pc : worker_pc) : Prop := pc <> WNone /\ pc <> WExited.

(** What a step of the worker from [s] leads to, the client standing still. *)
Definition worker_keeps (n : nat) (k : Z) (done pend : list message) (s : system) : Prop :=
  exists q' w' pc' done' pend',
    worker_step (s_queue s) (s_worker s) (s_pc s) = Some (q', w', pc') /\
    inv (S n) k done' pend' {| s_queue := q'; s_worker := w'; s_pc := pc';
      s_client := s_client s; accepted := accepted s |} /\
    match s_pc s with
    | WDequeue p _ => pc' = after_one p /\ length pend = S (length pend')
    | _ => pend' = pend
    end.

(** The worker moves on and changes nothing. *)
Lemma worker_moves n k done pend q w pc client acc pc' :
  inv (S n) k done pend {| s_queue := q; s_worker := w; s_pc := pc; s_client := client; accepted := acc |} ->
  running pc -> pc' <> WNone -> pc_inv w client pend pc' ->
  inv (S n) k done pend {| s_queue := q; s_worker := w; s_pc := pc'; s_client := client; accepted := acc |}.
Proof. intros [] [Hn _] Hn' Hp. split; try done. cbn in *. by destruct pc, pc'. Qed.

Lemma worker_peek_inv n k done pend s p :
  inv (S n) k done pend s -> s_pc s = WPeek p -> worker_keeps n k done pend s.
Proof.
  intros I Hpc. destruct s as [q w pc client acc]. cbn in Hpc. subst pc. unfold worker_keeps.
  pose proof I as [_ Hq Hd _ _ _ _ _ Hp _]. cbn [s_queue s_worker s_pc s_client accepted worker_step] in *.
  destruct pend as [|m ms].
  - rewrite peek_empty by done. cbn [mbind option_bind]. eexists q, w, _, done, []. split; [done|].
    split; [|done]. eapply worker_moves; [exact I | done | by destruct p | by destruct p].
  - inversion Hd as [|? ? Hdm Hdms]; subst.
    rewrite (peek_queued fmt_output memory q m ms D F) by done. cbn [mbind option_bind].
    eexists q, w, _, done, (m :: ms). split; [done|]. split; [|done].
    eapply worker_moves; [exact I | done..|]. cbn in *. eauto.
Qed.

Lemma worker_dequeue_inv n k done pend s p total :
  inv (S n) k done pend s -> s_pc s = WDequeue p total -> worker_keeps n k done pend s.
Proof.
  intros [Ha Hq Hd Hr Hs Hc Hf Hl Hp Hfd] Hpc. destruct s as [q w pc client acc]. cbn in Hpc. subst pc.
  unfold worker_keeps. cbn [s_queue s_worker s_pc s_client accepted worker_step] in *.
  destruct Hp as (Hp & m & ms & -> & ->). inversion Hd as [|? ? Hdm Hdms]; subst.
  destruct (dequeue_queued fmt_output memory clock eval_order Hclock Horder D F q w m ms Hr Hq Hdm)
    as (q' & w' & -> & Hq' & _ & Hr' & (E1 & E2 & E3 & E4 & E5) & Hs' & Hc').
  cbn [mbind option_bind]. eexists q', w', _, (done ++ [m]), ms. split; [done|].
  split; [|split; [by destruct p | done]]. split; cbn [s_queue s_worker s_pc s_client accepted]; try done.
  - by rewrite <- app_assoc.
  - by rewrite Hs', Hs, Hc, deliver_snoc.
  - rewrite Hc', Hc, length_app. cbn. lia.
  - unfold flush_inv in *. by rewrite E2, E3.
  - destruct p; cbn; rewrite E1, E5; done.
  - destruct p; cbn in *; rewrite ?E2, ?E3; done.
  - intros seq Hsq. rewrite E3. intros Hle. by specialize (Hfd seq Hsq Hle).
Qed.

Lemma worker_step_inv n k done pend s :
  inv (S n) k done pend s -> running (s_pc s) -> worker_keeps n k done pend s.
Proof.
  intros I [Hn1 Hn2]. pose proof I as [Ha Hq Hd Hr Hs Hc Hf Hl Hp Hfd].
  destruct (s_pc s) as [| | |req|p|p total|req|b| |req|] eqn:Epc; try done;
    [| | |by eapply worker_peek_inv|by eapply worker_dequeue_inv| | | |];
    destruct s as [q w pc client acc]; cbn [s_queue s_worker s_pc s_client accepted] in *; subst pc;
    unfold worker_keeps; cbn [s_queue s_worker s_pc s_client accepted worker_step].
  - (* WTop *)
    eexists q, w, _, done, pend. split; [done|]. split; [|done]. destruct Hl as [_ Hsd].
    eapply worker_moves; [exact I | done | by destruct (shutdown_required_ w)|].
    destruct (shutdown_required_ w); cbn; tauto.
  - (* WLoadReq *)
    eexists q, w, _, done, pend. split; [done|]. split; [|done].
    eapply worker_moves; [exact I | done..|]. cbn. destruct Hf as (? & ? & _). lia.
  - (* WLoadDone *)
    eexists q, w, _, done, pend. split; [done|]. split; [|done].
    eapply worker_moves; [exact I | done..|]. cbn in *.
    destruct (Z.ltb_spec (flush_completed_seq_ w) req); cbn; [|done]. tauto.
  - (* WStore *)
    destruct Hp as ((Hp1 & Hp2) & Hp3). eexists q, _, _, done, pend. split; [done|].
    split; [|done]. split; try done.
    + cbn. destruct Hr as [H1 H2 H3]. by split.
    + destruct Hf as (Hf1 & Hf2 & Hf3). subst req. unfold flush_inv, complete. cbn.
      split_and!; [lia | lia | lia |]. destruct client; done.
  - (* WPoll *)
    eexists q, _, WTop, done, pend. split; [done|].
    split; [|done]. destruct b; split; try done; cbn; destruct Hr as [H1 H2 H3]; by split.
  - (* WFinalLoad *)
    eexists q, w, _, done, pend. split; [done|]. split; [|done].
    eapply worker_moves; [exact I | done..|]. cbn in *. tauto.
  - (* WFinalStore *)
    destruct Hp as (Hp1 & Hp2 & Hp3). eexists q, _, _, done, pend. split; [done|].
    split; [|done]. split; try done.
    + cbn. destruct Hr as [H1 H2 H3]. by split.
    + destruct Hf as (Hf1 & Hf2 & Hf3). subst req client. unfold flush_inv, complete. cbn.
      split_and!; lia.
Qed.

Lemma flush_inv_weaken k w client : flush_inv k w client -> flush_inv (k + 1) w client.
Proof. unfold flush_inv. intuition lia. Qed.

(** A worker that runs has been started. *)
Lemma inv_started n k done pend s :
  inv n k done pend s -> status_ (s_worker s) = kRunning -> exists n', n = S n'.
Proof. intros I Hst. destruct n; [|by eexists]. destruct (inv_life _ _ _ _ _ I) as (_ & _ & _ & ?). congruence. Qed.

(** Where the worker is when the client returns from a wait or begins one. *)
Ltac by_worker_pc Hp :=
  match goal with |- context [s_pc ?s] => destruct (s_pc s) end;
  cbn in *; try done; try (destruct Hp as (_ & _ & ?); congruence);
  try (exfalso; intuition (congruence || lia)); try lia;
  match goal with p : phase |- _ => destruct p end; cbn in *; try done; try lia;
  destruct Hp as [? ?]; (split; [done || lia | done]).

Lemma enqueue_step_inv n k done pend s m rec st q' :
  inv n k done pend s -> s_client s = CIdle -> status_ (s_worker s) = kRunning -> record_of m rec ->
  deliverable (Sk := Sk) fmt_output memory D F m -> bq_enqueue (s_queue s) rec = Some (st, q') ->
  exists done' pend', inv n (k + 1) done' pend' {| s_queue := q'; s_worker := s_worker s; s_pc := s_pc s;
    s_client := CIdle; accepted := if decide (st = kOk) then accepted s ++ [m] else accepted s |}.
Proof.
  intros [Ha Hq Hd Hr Hs Hc Hf Hlf Hp Hfd] Hcl Hst Hrec Hl He.
  destruct (queued_enqueue (s_queue s) pend m rec Hq Hrec) as (st1 & q1 & E & _ & Hcase & _).
  rewrite He in E. injection E as <- <-. rewrite Hcl in *. apply flush_inv_weaken in Hf.
  destruct Hcase as [[-> Hq']|[-> Hq']].
  - exists done, (pend ++ [m]). split; cbn; try done.
    + by rewrite decide_True, Ha, app_assoc.
    + apply Forall_app. split; [done|]. by constructor.
    + destruct (s_pc s); cbn in *; try done; try (destruct Hp; done).
      * destruct Hp as (_ & _ & ?). congruence.
      * destruct Hp as (Hp1 & m' & ms & -> & ->). split; [done|]. by exists m', (ms ++ [m]).
      * destruct Hp as ((Hp1 & Hp2) & ->). destruct Hf as (_ & _ & Hf). lia.
  - exists done, pend. by split.
Qed.

Lemma flush_call_inv n k done pend s :
  inv n k done pend s -> s_client s = CIdle -> status_ (s_worker s) = kRunning -> 0 <= k < 2 ^ 64 - 1 ->
  let req := u64 (flush_requested_seq_ (s_worker s) + 1) in
  inv n (k + 1) done pend {| s_queue := s_queue s;
    s_worker := set_flags (s_worker s) (shutdown_required_ (s_worker s)) req (flush_completed_seq_ (s_worker s))
      (status_ (s_worker s));
    s_pc := s_pc s; s_client := CFlushWait req; accepted := accepted s |}.
Proof.
  intros I Hcl Hst Hk req. destruct (inv_started _ _ _ _ _ I Hst) as [n' ->].
  destruct I as [Ha Hq Hd Hr Hs Hc Hf Hlf Hp Hfd]. rewrite Hcl in *. destruct Hf as ((Hf0 & Hf1) & Hf2 & Hf3).
  assert (req = flush_requested_seq_ (s_worker s) + 1) as E by (apply u64_small; lia).
  split; cbn; try done; rewrite ?E.
  - destruct Hr as [H1 H2 H3]. by split.
  - unfold flush_inv. cbn. split_and!; lia.
  - destruct (s_pc s); cbn in *; try done; try (destruct Hp as (_ & _ & ?); congruence);
      intuition congruence.
  - by_worker_pc Hp.
  - intros seq [= <-]. lia.
Qed.

(** Every step of the trace keeps the invariant, as long as the worker is started once. *)
Lemma sys_step_inv n k done pend s l s' :
  inv n k done pend s -> (n + start_count l <= 1)%nat -> label_ok l -> 0 <= k < 2 ^ 64 - 1 ->
  sys_step s l s' ->
  exists done' pend', inv (n + start_count l) (k + 1) done' pend' s'.
Proof.
  intros I Hn Hl Hk Hstep. pose proof I as [Ha Hq Hd Hr Hs Hc Hf Hlf Hp Hfd].
  destruct Hstep as [s q' w' pc' Hw|s m rec st q' Hcl Hst Hrec He|s Hcl Hst Hpc|s Hcl Hst
    |s seq Hcl Hseq|s Hcl Hst|s Hcl Hpc]; cbn [start_count] in *; rewrite ?Nat.add_0_r in *.
  - (* worker *)
    destruct n as [|n]; [destruct Hlf as (Hpc & _); by rewrite Hpc in Hw|].
    assert (running (s_pc s)) as Hrun by (split; intros E; by rewrite E in Hw).
    destruct (worker_step_inv n k done pend s I Hrun) as (q1 & w1 & pc1 & d1 & p1 & E & I1 & _).
    rewrite Hw in E. injection E as <- <- <-. exists d1, p1. destruct I1; split; try done.
    by apply flush_inv_weaken.
  - by eapply enqueue_step_inv.
  - (* start *)
    destruct n as [|n]; [|lia]. destruct Hlf as (_ & _ & Hsd & _).
    exists done, pend. split; cbn; try done.
    + destruct Hr as [H1 H2 H3]. by split.
    + rewrite Hcl in Hf. by apply flush_inv_weaken.
    + by rewrite Hsd.
  - exists done, pend. by apply flush_call_inv.
  - (* flush return *)
    rewrite Hcl in *. destruct Hf as ((Hf0 & Hf1) & Hf2 & Hf3).
    exists done, pend. split; cbn; try done.
    + unfold flush_inv. split_and!; lia.
    + destruct n; [destruct Hlf as (_ & ? & _); done|].
      destruct (s_pc s); cbn in *; try done; intuition congruence.
    + by_worker_pc Hp.
  - (* stop call *)
    destruct (inv_started _ _ _ _ _ I Hst) as [n' ->]. rewrite Hcl in *. exists done, pend. split; cbn; try done.
    + destruct Hr as [H1 H2 H3]. by split.
    + by apply flush_inv_weaken in Hf.
    + destruct (s_pc s); cbn in *; done.
    + by_worker_pc Hp.
  - (* stop return *)
    rewrite Hcl, Hpc in *. exists done, pend. cbn in Hp.
    destruct n; [destruct Hlf as (? & _); done|]. cbn in Hlf.
    split; cbn; try done.
    + destruct Hr as [H1 H2 H3]. by split.
    + by apply flush_inv_weaken in Hf.
    + by apply Hlf.
    + tauto.
Qed.

(** A worker after [init] and [register_sink], in front of an empty queue. *)
Record fresh (s : system) : Prop := {
  fresh_queue : queued (s_queue s) [];
  fresh_ready : worker_ready D F (s_worker s);
  fresh_sinks : sinks_ (s_worker s) = sinks0;
  fresh_clock : clock_reads (s_worker s) = 0%nat;
  fresh_flags : shutdown_required_ (s_worker s) = false /\
    flush_requested_seq_ (s_worker s) = 0 /\ flush_completed_seq_ (s_worker s) = 0 /\
    status_ (s_worker s) = kIdling;
  fresh_threads : s_pc s = WNone /\ s_client s = CIdle /\ accepted s = [];
}.

Lemma fresh_inv s : fresh s -> inv 0 0 [] [] s.
Proof.
  intros [Hq Hr Hs Hc (Hf1 & Hf2 & Hf3 & Hf4) (Ht1 & Ht2 & Ht3)]. split; try done.
  - unfold flush_inv. rewrite Ht2. lia.
  - by rewrite Ht1, Ht2.
Qed.

(** A trace in which the worker is started at most once, of less than 2^64 - 1 steps. *)
Definition trace_ok (ls : list label) : Prop :=
  Forall label_ok ls /\ (starts ls <= 1)%nat /\ Z.of_nat (length ls) < 2 ^ 64 - 1.

Lemma exec_inv s0 ls s :
  fresh s0 -> exec s0 ls s -> trace_ok ls ->
  exists done pend, inv (starts ls) (Z.of_nat (length ls)) done pend s.
Proof.
  intros H0 He (Hok & Hst & Hlen). induction He as [s0|s0 ls s1 l s2 He IH Hstep].
  { exists [], []. by apply fresh_inv. }
  rewrite starts_snoc in *. rewrite length_app in Hlen. simpl in Hlen.
  apply Forall_app in Hok as [Hok Hl]. inversion Hl as [|? ? Hl1 _]; subst.
  destruct (IH H0 Hok ltac:(lia) ltac:(lia)) as (done & pend & I).
  destruct (sys_step_inv _ _ _ _ _ l _ I ltac:(lia) Hl1 ltac:(lia) Hstep) as (d & p & I').
  exists d, p. rewrite length_app. simpl.
  by replace (Z.of_nat (length ls + 1)) with (Z.of_nat (length ls) + 1) by lia.
Qed.

Lemma inv_step_defined n k done pend s :
  inv n k done pend s -> running (s_pc s) -> exists s', sys_step s LWorker s'.
Proof.
  intros I Hrun. destruct n as [|n].
  { destruct I as [_ _ _ _ _ _ _ (Hpc & _) _ _]. by destruct Hrun. }
  destruct (worker_step_inv n k done pend s I Hrun) as (q' & w' & pc' & _ & _ & E & _).
  eexists. by constructor.
Qed.

(** Nothing is waiting: everything accepted is with the sinks. *)
Definition all_delivered (s : system) : Prop :=
  bq_contents (s_queue s) = [] /\
  sinks_ (s_worker s) = deliver_all fmt_output memory clock sinks0 0 (accepted s).

Lemma inv_all_delivered n k done s : inv n k done [] s -> all_delivered s.
Proof.
  intros [Ha Hq _ _ Hs _ _ _ _ _]. rewrite app_nil_r in Ha. apply queued_nil in Hq as [_ Hq].
  split; [done|]. by rewrite Ha.
Qed.

(** C9. Whatever the interleaving of the worker with the thread that logs, flushes and stops: the
    messages accepted so far are those delivered so far, in order, exactly once, to every sink,
    followed by those whose records wait in the queue; and as long as the worker runs, its next
    step is free of undefined behaviour. The conditions are [trace_ok]: only deliverable messages
    (they fit the buffers of worker and sinks, what they refer to is alive) and at most one start of
    the worker; that the arguments of five and more are evaluated from left to right; and that the
    memory is sequentially consistent, the calls of the queue one step each (SpscConcurrent.v cuts
    them up; WorkerMemory.v has the memory orders, under which the peek is a race). *)
Theorem backend_delivers_in_order s0 ls s :
  fresh s0 -> exec s0 ls s -> trace_ok ls ->
  exists done pend, accepted s = done ++ pend /\
    sinks_ (s_worker s) = deliver_all fmt_output memory clock sinks0 0 done /\
    queued (s_queue s) pend /\
    (running (s_pc s) -> exists s', sys_step s LWorker s').
Proof.
  intros H0 He Hok. destruct (exec_inv s0 ls s H0 He Hok) as (done & pend & I).
  exists done, pend. pose proof I as [Ha Hq _ _ Hs _ _ _ _ _].
  split_and!; [done..|]. eauto using inv_step_defined.
Qed.


(** [flush] and [stop] are synchronous: when either returns, every message accepted before is
    with every sink, in order, and the queue is empty. *)
Theorem flush_and_stop_deliver_all s0 ls s l s' :
  fresh s0 -> exec s0 ls s -> trace_ok ls ->
  l = LFlushReturn \/ l = LStopReturn -> sys_step s l s' -> all_delivered s'.
Proof.
  intros H0 He Hok Hl Hstep. destruct (exec_inv s0 ls s H0 He Hok) as (done & pend & I).
  assert (pend = [] -> all_delivered s) as Hall
    by (intros ->; by eapply inv_all_delivered).
  destruct Hl as [-> | ->]; inversion Hstep as [| | | |? seq Hc Hseq| |? Hc Hpc]; subst.
  - apply Hall. by eapply (inv_flushed _ _ _ _ _ I).
  - apply Hall. pose proof (inv_pc _ _ _ _ _ I) as Hp. rewrite Hpc in Hp. apply Hp.
Qed.

(** ** Progress *)

(** The call the client is in may return. *)
Definition returnable (s : system) : bool :=
  match s_client s with
  | CIdle => true
  | CFlushWait seq => seq <=? flush_completed_seq_ (s_worker s)
  | CJoin => match s_pc s with WExited => true | _ => false end
  end.

(** The steps of the worker that are left at most, [P] messages waiting. *)
Definition steps_left (s : system) (P : nat) : nat :=
  match s_client s with
  | CJoin =>
    match s_pc s with
    | WFinalStore _ => 1 | WFinalLoad => 2 | WDequeue Final _ => 2 * P + 2 | WPeek Final => 2 * P + 3
    | WTop => 2 * P + 4 | WPoll _ => 2 * P + 5 | WDequeue _ _ => 2 * P + 6 | WPeek _ => 2 * P + 7
    | WLoadDone _ => 2 * P + 8 | WLoadReq => 2 * P + 9 | _ => 0
    end
  | _ =>
    match s_pc s with
    | WStore _ => 1 | WDequeue (InFlush _) _ => 2 * P + 1 | WPeek (InFlush _) => 2 * P + 2
    | WLoadDone req =>
      if (flush_completed_seq_ (s_worker s) <? req)%Z then 2 * P + 3 else 2 * P + 9
    | WLoadReq => 2 * P + 4 | WTop => 2 * P + 5 | WPoll _ => 2 * P + 6
    | WDequeue _ _ => 2 * P + 7 | WPeek _ => 2 * P + 8 | _ => 0
    end
  end%nat.

Lemma steps_left_bound s P : (steps_left s P <= 2 * P + 9)%nat.
Proof.
  unfold steps_left. destruct (s_client s), (s_pc s) as [| | | |[]|[]| | | | |]; simpl; try lia;
    destruct (_ <? _); lia.
Qed.

Lemma waiting_runs n k done pend s :
  inv (S n) k done pend s -> returnable s = false -> running (s_pc s).
Proof.
  intros [_ _ _ _ _ _ _ _ Hp _] Hr. unfold returnable in Hr.
  split; intros E; rewrite E in *; cbn in Hp.
  - destruct Hp as (Hc & _). by rewrite Hc in Hr.
  - destruct Hp as (Hc & _). by rewrite Hc in Hr.
Qed.

(** While the client waits, every step of the worker brings the return closer. *)
Lemma waiting_step n k done pend s :
  inv (S n) k done pend s -> returnable s = false ->
  exists s' done' pend', sys_step s LWorker s' /\ inv (S n) k done' pend' s' /\
    s_client s' = s_client s /\ accepted s' = accepted s /\
    (returnable s' = true \/ (steps_left s' (length pend') < steps_left s (length pend))%nat).
Proof.
  intros I Hr. pose proof (waiting_runs _ _ _ _ _ I Hr) as Hrun.
  destruct (worker_step_inv n k done pend s I Hrun)
    as (q' & w' & pc' & d' & p' & E & I' & Hpend).
  eexists _, d', p'. split; [by constructor|]. split; [exact I'|]. split; [done|].
  split; [done|].
  destruct I as [_ _ _ _ _ _ (Hf1 & Hf2 & Hf3) Hl Hp _].
  destruct s as [q w pc client acc]. unfold returnable, steps_left, life_inv, pc_inv in *.
  cbn [s_queue s_worker s_pc s_client accepted] in *.
  destruct client as [|seq|]; [done| |].
  - apply Z.leb_gt in Hr. assert (shutdown_required_ w = false) as Hsd.
    { apply not_true_iff_false. intros Ht. destruct pc; try (destruct Hl as (_ & Hl); by apply Hl in Ht).
      by destruct Hp. }
    destruct pc as [| | |req|p|p total|req|bo| |req|]; cbn [worker_step] in E;
      try (by destruct Hp).
    + rewrite Hsd in E. injection E as <- <- <-. rewrite Hpend. right. lia.
    + injection E as <- <- <-. rewrite Hpend. right. cbn.
      rewrite (proj2 (Z.ltb_lt _ _)) by lia. lia.
    + injection E as <- <- <-. rewrite Hpend. right. cbn. destruct (_ <? _); lia.
    + bind_inv E. injection E as <- <- <-. rewrite Hpend. right.
      destruct p, x; cbn; try lia; done.
    + destruct Hpend as [-> ->]. right. destruct p; cbn; lia.
    + injection E as <- <- <-. left. cbn. apply Z.leb_le. lia.
    + injection E as <- <- <-. rewrite Hpend. right. lia.
  - assert (pc <> WNone -> shutdown_required_ w = true) as Hsd
      by (intros Hn; destruct pc; try done; destruct Hl as [_ Hl]; by rewrite Hl).
    destruct pc as [| | |req|p|p total|req|bo| |req|]; cbn [worker_step] in E; try done;
      try (by destruct Hp).
    + rewrite Hsd in E by done. injection E as <- <- <-. rewrite Hpend. right. lia.
    + injection E as <- <- <-. rewrite Hpend. right. lia.
    + injection E as <- <- <-. rewrite Hpend. right.
      rewrite (proj2 (Z.ltb_ge _ _)) by lia. lia.
    + bind_inv E. injection E as <- <- <-. rewrite Hpend. right.
      destruct p, x; cbn in *; try lia.
    + destruct Hpend as [-> ->]. right. destruct p; cbn in *; try lia.
    + destruct Hp as ((? & ?) & _). lia.
    + injection E as <- <- <-. rewrite Hpend. right. lia.
    + injection E as <- <- <-. right. lia.
    + injection E as <- <- <-. by left.
Qed.

(** A run of the worker alone. *)
Inductive worker_run : nat -> system -> system -> Prop :=
  | run_nil s : worker_run 0 s s
  | run_cons k s1 s2 s3 : sys_step s1 LWorker s2 -> worker_run k s2 s3 -> worker_run (S k) s1 s3.

Lemma waiting_returns n k m : forall done pend s,
  inv (S n) k done pend s -> (steps_left s (length pend) <= m)%nat ->
  exists j s', (j <= m + 1)%nat /\ worker_run j s s' /\ returnable s' = true /\
    s_client s' = s_client s /\ accepted s' = accepted s /\
    exists done' pend', inv (S n) k done' pend' s'.
Proof.
  induction m as [|m IH]; intros dn pend s I Hm; destruct (returnable s) eqn:Hr.
  1,3: exists 0%nat, s; split_and!; [lia | apply run_nil | done | done | done | eauto].
  - destruct (waiting_step n k dn pend s I Hr)
      as (s1 & d1 & p1 & Hstep & I1 & Hc1 & Ha1 & [Hr1|Hlt]); [|lia].
    exists 1%nat, s1. split_and!; [lia | | done | done | done | eauto].
    eapply run_cons; [done | apply run_nil].
  - destruct (waiting_step n k dn pend s I Hr)
      as (s1 & d1 & p1 & Hstep & I1 & Hc1 & Ha1 & [Hr1|Hlt]).
    + exists 1%nat, s1. split_and!; [lia | | done | done | done | eauto].
      eapply run_cons; [done | apply run_nil].
    + destruct (IH d1 p1 s1 I1 ltac:(lia)) as (j & s' & Hj & Hrun & Hr' & Hc' & Ha' & Hi').
      exists (S j), s'. split_and!; [lia | by eapply run_cons | done | congruence | congruence | done].
Qed.

(** [flush] and [stop] return: in every reachable state in which the client is inside one of
    them, the worker reaches by its own steps alone, at most two per waiting message and ten more,
    a state in which the call returns; no message is lost or accepted meanwhile. *)
Theorem calls_return s0 ls s :
  fresh s0 -> exec s0 ls s -> trace_ok ls -> s_client s <> CIdle ->
  exists j s', worker_run j s s' /\ accepted s' = accepted s /\
    Z.of_nat j <= 2 * (lenZ (accepted s)) + 10 /\
    ((exists s2, sys_step s' LFlushReturn s2) \/ (exists s2, sys_step s' LStopReturn s2)).
Proof.
  intros H0 He Hok Hcl. destruct (exec_inv s0 ls s H0 He Hok) as (done & pend & I).
  destruct (starts ls) as [|n].
  { destruct (inv_life _ _ _ _ _ I) as (_ & ? & _). done. }
  pose proof (inv_accepted _ _ _ _ _ I) as Ha.
  destruct (waiting_returns n _ (2 * length pend + 9) done pend s I) as (j & s' & Hj & Hrun & Hr & Hc & Hac & _).
  { apply steps_left_bound. }
  exists j, s'. split; [done|]. split; [done|]. split.
  { unfold lenZ. rewrite Ha, length_app. lia. }
  unfold returnable in Hr. rewrite Hc in Hr. destruct (s_client s) as [|seq|] eqn:Ecl; [done| |].
  - left. eexists. eapply (step_flush_return s' seq); [congruence | by apply Z.leb_le].
  - right. eexists. apply step_stop_return; [congruence|]. by destruct (s_pc s').
Qed.

(** ** Restarting *)

(** The state [stop] leaves: no thread, an empty queue, but the shutdown flag still set. *)
Record stopped (s : system) : Prop := {
  stopped_queue : queued (s_queue s) [];
  stopped_threads : s_pc s = WNone /\ s_client s = CIdle;
  stopped_flags : shutdown_required_ (s_worker s) = true /\ status_ (s_worker s) = kIdling;
  stopped_flush : flush_completed_seq_ (s_worker s) = flush_requested_seq_ (s_worker s) /\
    0 <= flush_requested_seq_ (s_worker s) < 2 ^ 64 - 1;
}.

Lemma stop_leaves_stopped s0 ls s s' :
  fresh s0 -> exec s0 ls s -> trace_ok ls -> sys_step s LStopReturn s' -> stopped s'.
Proof.
  intros H0 He Hok Hstep. destruct (exec_inv s0 ls s H0 He Hok) as (dn & pend & I).
  destruct Hok as (_ & _ & Hlen).
  inversion Hstep as [| | | | | |? Hc Hpc]; subst. destruct I as [_ Hq _ _ _ _ Hf Hl Hp _].
  rewrite Hpc, Hc in *. destruct Hp as [_ ->].
  destruct (starts ls) as [|n]; [by destruct Hl|]. destruct Hl as [Hst Hsd].
  destruct Hf as (Hf1 & Hf2 & Hf3). split; cbn; [done | done | | split; [done|lia]].
  split; [by apply Hsd | done].
Qed.

(** A worker started in that state leaves its loop at the first test of the flag. *)
Lemma restart_exits s :
  stopped s ->
  exists ls w, exec s ls {| s_queue := s_queue s; s_worker := w; s_pc := WExited;
      s_client := CIdle; accepted := accepted s |} /\ starts ls = 1%nat /\
    status_ w = kRunning /\ flush_completed_seq_ w = flush_requested_seq_ w /\
    flush_requested_seq_ w = flush_requested_seq_ (s_worker s).
Proof.
  intros [Hq (Hpc & Hcl) (Hsd & Hst) (Hf1 & Hf2)].
  exists ([] ++ [LStart] ++ [LWorker; LWorker; LWorker; LWorker])%list.
  set (w1 := set_flags (s_worker s) (shutdown_required_ (s_worker s))
    (flush_requested_seq_ (s_worker s)) (flush_completed_seq_ (s_worker s)) kRunning).
  pose proof (exec_snoc _ _ _ _ _ (exec_nil s) (step_start s Hcl Hst Hpc)) as E1. fold w1 in E1.
  assert (shutdown_required_ w1 = true /\ status_ w1 = kRunning /\
    flush_requested_seq_ w1 = flush_requested_seq_ (s_worker s)) as (Hw1 & Hw2 & Hw3) by done.
  clearbody w1. exists (complete w1 (flush_requested_seq_ w1)). split; [|by cbn].
  assert (forall w pc w' pc', worker_step (s_queue s) w pc = Some (s_queue s, w', pc') ->
    sys_step
      {| s_queue := s_queue s; s_worker := w; s_pc := pc; s_client := CIdle; accepted := accepted s |}
      LWorker
      {| s_queue := s_queue s; s_worker := w'; s_pc := pc'; s_client := CIdle;
         accepted := accepted s |}) as Hstep
    by (intros w pc w' pc' E; exact (step_worker {| s_queue := s_queue s; s_worker := w;
          s_pc := pc; s_client := CIdle; accepted := accepted s |} _ _ _ E)).
  assert (worker_step (s_queue s) w1 WTop = Some (s_queue s, w1, WPeek Final)) as S1
    by (cbn; by rewrite Hw1).
  assert (worker_step (s_queue s) w1 (WPeek Final) = Some (s_queue s, w1, WFinalLoad)) as S2
    by (cbn; by rewrite peek_empty).
  pose proof (exec_snoc _ _ _ _ _ E1 (Hstep _ _ _ _ S1)) as E2.
  pose proof (exec_snoc _ _ _ _ _ E2 (Hstep _ _ _ _ S2)) as E3.
  pose proof (exec_snoc _ _ _ _ _ E3 (Hstep w1 WFinalLoad _ _ eq_refl)) as E4.
  exact (exec_snoc _ _ _ _ _ E4 (Hstep w1 (WFinalStore _) _ _ eq_refl)).
Qed.

(** C22. A stopped worker cannot be used again: [stop] leaves [shutdown_required_] set, so a worker
    that is started afterwards exits without processing anything, and a [flush] called then spins
    for ever: no step of either thread is possible. *)
Theorem restart_flush_hangs s0 ls s s1 :
  fresh s0 -> exec s0 ls s -> trace_ok ls -> sys_step s LStopReturn s1 ->
  exists ls' s2 seq, exec s1 ls' s2 /\ starts ls' = 1%nat /\
    s_client s2 = CFlushWait seq /\ forall l s3, ~ sys_step s2 l s3.
Proof.
  intros H0 He Hok Hstep. pose proof (stop_leaves_stopped s0 ls s s1 H0 He Hok Hstep) as Hs.
  destruct (restart_exits s1 Hs) as (ls1 & w & E & Hn & Hst & Hf & Hr).
  destruct (stopped_flush _ Hs) as (_ & Hreq).
  exists (ls1 ++ [LFlushCall])%list. eexists _, _. split.
  { eapply exec_snoc; [exact E|]. by apply step_flush_call. }
  split; [rewrite starts_snoc, Hn; reflexivity|]. split; [reflexivity|].
  intros l s3 H. inversion H as [? ? ? ? Hw| | | |? ? Hc Hle| |]; subst; try done.
  cbn in Hc, Hle. injection Hc as <-. rewrite u64_small in Hle; lia.
Qed.
End system.

(** ** Witnesses *)

(** One recording sink, without messages. *)
Definition example_sinks : list Recorder := [[]].

Definition example_system (q : SpscQueue) : system (Sk := Recorder) :=
  {| s_queue := q; s_worker := example_worker; s_pc := WNone; s_client := CIdle; accepted := [] |}.

(** A started and stopped worker in front of an empty SPSC queue of 256 bytes. *)
Lemma example_fresh :
  exists q : SpscQueue, fresh (CI := example_image) 4096 2048 example_sinks (example_system q).
Proof.
  destruct (reserve zero_alloc 256) as [q|] eqn:Hq; [|discriminate Hq].
  destruct (reserve_valid zero_alloc 256 q zero_alloc_sized) as [Hn|(Hv & Hc & _)];
    [lia | done | injection Hq as <-; discriminate |].
  exists q. split; try done; [by apply queued_nil | apply example_ready].
Qed.

Lemma worker_run_exec {Q Sk heap : Type} `{ByteQueue Q} `{SinkBase Sk} `{CodeImage} `{ProgramMemory heap}
    (out : heap -> bytes -> list value -> bytes) mem clock order j (s s' : system (Q := Q) (Sk := Sk)) :
  worker_run out mem clock order j s s' -> forall s0 ls, exec out mem clock order s0 ls s ->
  exec out mem clock order s0 (ls ++ replicate j LWorker) s'.
Proof.
  induction 1 as [s|j s1 s2 s3 Hstep Hrun IH]; intros s0 ls He; simpl; [by rewrite app_nil_r|].
  rewrite (cons_middle LWorker ls). rewrite app_assoc. apply IH. by eapply exec_snoc.
Qed.

Definition ex_clock (n : nat) : Z := Z.of_nat n mod 1000.

#[local] Abbreviation ex_exec := (exec (CI := example_image) show_values tt ex_clock (seq 0)).
#[local] Abbreviation ex_step := (sys_step (CI := example_image) show_values tt ex_clock (seq 0)).
#[local] Abbreviation ex_fresh := (fresh (CI := example_image) 4096 2048 example_sinks).
#[local] Abbreviation ex_ok := (trace_ok (Sk := Recorder) (CI := example_image) show_values tt 4096 2048).

Lemma example_clock n : 0 <= ex_clock n < 2 ^ 64.
Proof. unfold ex_clock. pose proof (Z.mod_pos_bound (Z.of_nat n) 1000 ltac:(lia)). lia. Qed.

Definition example_message : message :=
  {| m_thread := 7; m_level := kInfo; m_body := Literal (bs "up") |}.

(** The worker is started and a message logged. *)
Lemma example_logged q :
  ex_fresh (example_system q) ->
  exists st s, ex_exec (example_system q) [LStart; LEnqueue example_message st] s /\
    ex_ok [LStart; LEnqueue example_message st] /\
    s_client s = CIdle /\ status_ (s_worker s) = kRunning /\ (length (accepted s) <= 1)%nat.
Proof.
  intros H0. pose proof (fresh_queue _ _ _ _ H0) as Hq. cbn in Hq.
  pose proof example_loggable as Hlog. inversion Hlog as [|? ? (T & _) _]; subst.
  destruct (create_record (CI := example_image) example_message (replicate (Z.to_nat 1024) Byte.x00) [])
    as (mem & _ & _ & _ & _ & Hr); [done | done | done | done |].
  destruct (queued_enqueue (CI := example_image) q [] _ _ Hq Hr) as (st & q' & E & _ & _ & _).
  exists st. eexists. split; [|split; [|split; [|split]]].
  - eapply (exec_snoc _ _ _ _ _ [LStart]); [eapply (exec_snoc _ _ _ _ _ []); [apply exec_nil|]|].
    + by apply step_start.
    + by eapply step_enqueue.
  - split; [|split; [simpl; lia | reflexivity]].
    pose proof example_deliverable as Hd. inversion Hd; subst. by repeat constructor.
  - done.
  - done.
  - cbn. case_decide; simpl; lia.
Qed.

(** ... and then flushed or stopped. *)
Lemma example_returns q l :
  ex_fresh (example_system q) -> l = LFlushReturn \/ l = LStopReturn ->
  exists ls s s', ex_exec (example_system q) ls s /\ ex_ok ls /\ ex_step s l s'.
Proof.
  intros H0 Hl. destruct (example_logged q H0) as (st & s & He & (Hok & Hst & Hlen) & Hc & Hrun & Hacc).
  assert (exists call s1, ex_step s call s1 /\ start_count call = 0%nat /\
    label_ok (Sk := Recorder) (CI := example_image) show_values tt 4096 2048 call /\
    accepted s1 = accepted s /\
    forall s', s_client s' = s_client s1 -> returnable s' = true -> exists s2, ex_step s' l s2)
    as (call & s1 & Hcall & Hcount & Hlab & Hacc1 & Hret).
  { destruct Hl as [-> | ->].
    - exists LFlushCall. eexists. split; [by apply step_flush_call|]. split_and!; [done..|].
      intros s' Hs' Hr. unfold returnable in Hr. rewrite Hs' in Hr. cbn in Hr.
      eexists. eapply step_flush_return; [exact Hs' | by apply Z.leb_le].
    - exists LStopCall. eexists. split; [by apply step_stop_call|]. split_and!; [done..|].
      intros s' Hs' Hr. unfold returnable in Hr. rewrite Hs' in Hr. cbn in Hr.
      eexists. apply step_stop_return; [exact Hs' | by destruct (s_pc s')]. }
  set (ls1 := ([LStart; LEnqueue example_message st] ++ [call])%list).
  assert (ex_exec (example_system q) ls1 s1) as He1 by (by eapply exec_snoc).
  assert (starts ls1 = 1%nat) as Hst1 by (unfold ls1; by rewrite starts_snoc, Hcount).
  assert (ex_ok ls1) as Hok1.
  { split; [|split; [by rewrite Hst1 | reflexivity]]. apply Forall_app. split; [done|].
    by constructor. }
  destruct (exec_inv (CIL := one_site_laws _ _ _) show_values tt ex_clock (seq 0) 4096 2048 example_sinks
    example_clock (λ n _, eq_refl) _ ls1 s1 H0 He1 Hok1) as (dn & pend & I).
  rewrite Hst1 in I. pose proof (inv_accepted _ _ _ _ _ _ _ _ _ _ _ I) as Ha.
  assert (length pend <= 1)%nat as Hpend.
  { rewrite Hacc1 in Ha. apply (f_equal length) in Ha. rewrite length_app in Ha. lia. }
  destruct (waiting_returns (CIL := one_site_laws _ _ _) show_values tt ex_clock (seq 0) 4096 2048 example_sinks
    example_clock (λ n _, eq_refl) 0 _ 11 dn pend s1 I) as (j & s' & Hj & Hrun' & Hr & Hc' & _).
  { pose proof (steps_left_bound s1 (length pend)). lia. }
  destruct (Hret s' Hc' Hr) as [s2 Hs2].
  exists (ls1 ++ replicate j LWorker)%list, s', s2.
  split; [by eapply worker_run_exec|]. split; [|done]. destruct Hok1 as (Hf1 & _ & _). split.
  - apply Forall_app. split; [done|]. by apply Forall_replicate.
  - split; [|rewrite length_app, length_replicate; unfold ls1; simpl; lia].
    clear -Hst1. induction j as [|j IH] using nat_ind; [by rewrite app_nil_r, Hst1|].
    rewrite replicate_S_end, app_assoc, starts_snoc. cbn [start_count]. lia.
Qed.

Lemma backend_delivers_in_order_witness :
  exists q ls s dn pend, ex_exec (example_system q) ls s /\ accepted s = (dn ++ pend)%list /\
    sinks_ (s_worker s) = deliver_all show_values tt ex_clock example_sinks 0 dn.
Proof.
  destruct example_fresh as [q H0]. destruct (example_logged q H0) as (st & s & He & Hok & _).
  exists q, [LStart; LEnqueue example_message st], s.
  destruct (backend_delivers_in_order (CIL := one_site_laws _ _ _) show_values tt ex_clock (seq 0) 4096 2048 example_sinks
    example_clock (λ n _, eq_refl) _ _ s H0 He Hok) as (dn & pend & H1 & H2 & _).
  exists dn, pend. split; [exact He|]. split; [exact H1 | exact H2].
Defined.

Lemma flush_and_stop_deliver_all_witness :
  exists q s s', ex_step s LFlushReturn s' /\
    all_delivered show_values tt ex_clock example_sinks s' /\ fresh (CI := example_image) 4096 2048 example_sinks (example_system q).
Proof.
  destruct example_fresh as [q H0].
  destruct (example_returns q LFlushReturn H0 (or_introl eq_refl)) as (ls & s & s' & He & Hok & Hs).
  exists q, s, s'. split; [exact Hs|]. split; [|exact H0].
  exact (flush_and_stop_deliver_all (CIL := one_site_laws _ _ _) show_values tt ex_clock (seq 0) 4096 2048 example_sinks
    example_clock (λ n _, eq_refl) _ ls s LFlushReturn s' H0 He Hok (or_introl eq_refl) Hs).
Defined.

Lemma restart_flush_hangs_witness :
  exists s1 ls' s2 sq, exec (CI := example_image) show_values tt ex_clock (seq 0) s1 ls' s2 /\
    s_client s2 = CFlushWait sq /\ forall l s3, ~ ex_step s2 l s3.
Proof.
  destruct example_fresh as [q H0].
  destruct (example_returns q LStopReturn H0 (or_intror eq_refl)) as (ls & s & s1 & He & Hok & Hs).
  destruct (restart_flush_hangs (CIL := one_site_laws _ _ _) show_values tt ex_clock (seq 0) 4096 2048 example_sinks
    example_clock (λ n _, eq_refl) _ ls s s1 H0 He Hok Hs) as (ls' & s2 & sq & H1 & _ & H2 & H3).
  exists s1, ls', s2, sq. split; [exact H1|]. split; [exact H2 | exact H3].
Defined.

Lemma calls_return_witness :
  exists s j s', s_client s <> CIdle /\
    worker_run (CI := example_image) show_values tt ex_clock (seq 0) j s s' /\
    ((exists s2, ex_step s' LFlushReturn s2) \/ (exists s2, ex_step s' LStopReturn s2)).
Proof.
  destruct example_fresh as [q H0].
  destruct (example_logged q H0) as (st & s & He & (Hok & Hst & Hlen) & Hc & Hrun & _).
  pose proof (exec_snoc _ _ _ _ _ _ _ _ _ He
    (step_flush_call (CI := example_image) show_values tt ex_clock (seq 0) s Hc Hrun)) as He1.
  set (s1 := Build_system _ _ _ _ _) in He1. exists s1.
  destruct (calls_return (CIL := one_site_laws _ _ _) show_values tt ex_clock (seq 0) 4096 2048 example_sinks
    example_clock (λ n _, eq_refl) _ _ s1 H0 He1) as (j & s' & H1 & _ & _ & H2).
  - split; [apply Forall_app; split; [exact Hok | repeat constructor]|].
    split; [rewrite starts_snoc; simpl; lia | reflexivity].
  - discriminate.
  - exists j, s'. split; [discriminate|]. split; [exact H1 | exact H2].
Defined.
