(* ===== verification/WorkerMemory.v ===== *)
(** * The worker and its client in the memory model of C++

    [run_loop], [flush] and [stop] of src/src/logging/impl/backend_worker.cc with the memory orders
    they are written with, over the queue of SpscMemory.v. A store of a flag is a release: it
    carries every access of the buffer and every store of an index that its thread has made. A load
    of a flag may give any value that is not older than what its thread has read from it before, and
    acquires what that store carries. The model begins when [start] has returned and ends when
    [stop] has: a worker that is started again is the subject of BackendConcurrent.v. *)

From S2P Require Import Prelude Ring ByteQueue SpscQueue LogEntry SinkInterface BackendWorker BackendConcurrent.
From S2P Require Import SpscConcurrent SpscMemory.

(** The client is between its calls; [CIdle] is the consumer of the queue between its own. *)
Abbreviation ClientIdle := BackendConcurrent.CIdle.

(** ** Flags *)

(** A store of a flag, with how many accesses of the buffer its thread had made, and the position of
    the newest store of the index that thread owns. *)
Record release := { r_value : Z; r_clock : nat; r_position : nat }.

(** [store(v, std::memory_order_release)], by the owner of the index with the stores [own]. *)
Definition store_release (t : thread) (own : list message) (v : Z) : release :=
  {| r_value := v; r_clock := accesses t; r_position := pred (length own) |}.

(** [load(std::memory_order_acquire)] that reads [r]. *)
Definition acquire (t : thread) (r : release) : thread :=
  {| accesses := accesses t; fenced := fenced t; knows := Nat.max (knows t) (r_clock r);
     seen := Nat.max (seen t) (r_position r) |}.

(** A relaxed load of the other thread's index that reads the [j]-th store. *)
Definition load_relaxed (t : thread) (j : nat) : thread :=
  {| accesses := accesses t; fenced := fenced t; knows := knows t; seen := j |}.

Definition set_producer_thread (w : weak) (t : thread) : weak :=
  {| wq := wq w; heads := heads w; tails := tails w; written := written w; fetched := fetched w;
     producer_thread := t; consumer_thread := consumer_thread w; wp := wp w; wc := wc w |}.

Definition set_consumer_thread (w : weak) (t : thread) : weak :=
  {| wq := wq w; heads := heads w; tails := tails w; written := written w; fetched := fetched w;
     producer_thread := producer_thread w; consumer_thread := t; wp := wp w; wc := wc w |}.

(** ** The two threads

    [shutdown], [requested] and [completed] are the modification orders of [shutdown_required_],
    [flush_requested_seq_] and [flush_completed_seq_], and [at_...] what the thread that does not
    store the flag has read of it. [peeked] has, for every byte of the ring, how many heads had been
    stored when [peek_bytes] last read it, or 0. [sent] and [received] are the records of the calls
    of [enqueue_bytes] and [dequeue_bytes] that succeeded. *)
Record machine := {
  mem : weak; peeked : list nat;
  shutdown : list release; requested : list release; completed : list release;
  at_shutdown : nat; at_requested : nat; at_completed : nat;
  m_worker : worker_pc; m_client : client_pc;
  sent : list bytes; received : list bytes;
}.

Definition put_worker (s : machine) (w : weak) (pk : list nat) (sd rq : nat) (cp : list release)
    (pc : worker_pc) (out : list bytes) : machine :=
  {| mem := w; peeked := pk; shutdown := shutdown s; requested := requested s; completed := cp;
     at_shutdown := sd; at_requested := rq; at_completed := at_completed s;
     m_worker := pc; m_client := m_client s; sent := sent s; received := out |}.

(** Only the memory and the program point change. *)
Definition worker_at (s : machine) (w : weak) (pc : worker_pc) : machine :=
  put_worker s w (peeked s) (at_shutdown s) (at_requested s) (completed s) pc (received s).

Definition put_client (s : machine) (w : weak) (sd rq : list release) (cp : nat) (pc : client_pc)
    (ins : list bytes) : machine :=
  {| mem := w; peeked := peeked s; shutdown := sd; requested := rq; completed := completed s;
     at_shutdown := at_shutdown s; at_requested := at_requested s; at_completed := cp;
     m_worker := m_worker s; m_client := pc; sent := ins; received := received s |}.

Definition newest (order : list release) : Z := from_option r_value 0 (last order).
Arguments newest : simpl never.

(** The worker acquires [r]. *)
Definition worker_acquire (w : weak) (r : release) : weak :=
  set_consumer_thread w (acquire (consumer_thread w) r).

Definition client_acquire (w : weak) (r : release) : weak :=
  set_producer_thread w (acquire (producer_thread w) r).

(** The worker stores [flush_completed_seq_]. *)
Definition completes (s : machine) (req : Z) (pc : worker_pc) : machine :=
  put_worker s (mem s) (peeked s) (at_shutdown s) (at_requested s)
    (completed s ++ [store_release (consumer_thread (mem s)) (heads (mem s)) req]) pc (received s).

(** The two bytes of the payload length are read. *)
Definition mark_peek (s : machine) : list nat :=
  foldr (λ i pk, <[Z.to_nat (ring_addr (mask_ (wq (mem s))) (head_idx_ (wq (mem s))) i) :=
                   length (heads (mem s))]> pk) (peeked s) [0; 1].

(** The next step of the worker; [j] is the store that its load reads, if it has one. *)
Definition weak_worker (s : machine) (j : nat) : option machine :=
  match m_worker s with
  | WNone | WExited => None
  | WTop =>
    r ← shutdown s !! j;
    Some (put_worker s (worker_acquire (mem s) r) (peeked s) j (at_requested s) (completed s)
            (if r_value r =? 0 then WLoadReq else WPeek Final) (received s))
  | WLoadReq =>
    r ← requested s !! j;
    Some (put_worker s (worker_acquire (mem s) r) (peeked s) (at_shutdown s) j (completed s)
            (WLoadDone (r_value r)) (received s))
  | WLoadDone req =>
    Some (worker_at s (mem s) (WPeek (if newest (completed s) <? req then InFlush req else Turn)))
  | WPeek p =>
    '(st, out) ← weak_peek (mem s) 2 j;
    let w := set_consumer_thread (mem s) (load_relaxed (consumer_thread (mem s)) j) in
    Some (if decide (st = kOk)
          then put_worker s w (mark_peek s) (at_shutdown s) (at_requested s) (completed s)
                 (WDequeue p (u64 (sizeof_LogEntry + le_combine out))) (received s)
          else worker_at s w (after_empty p))
  | WDequeue p total =>
    match wc (mem s) with
    | CIdle =>
      Some (worker_at s (put_consumer (mem s) (wq (mem s)) (heads (mem s)) (fetched (mem s))
                           (consumer_thread (mem s)) (CStart total)) (WDequeue p total))
    | _ =>
      '(e, w) ← weak_consumer (mem s) j;
      Some (match e with
            | Tau => worker_at s w (WDequeue p total)
            | Return _ st out =>
              if decide (st = kOk)
              then put_worker s w (peeked s) (at_shutdown s) (at_requested s) (completed s)
                     (after_one p) (received s ++ [out])
              else worker_at s w (after_empty p)
            end)
    end
  | WStore req => Some (completes s req (WPeek Turn))
  | WPoll _ => Some (worker_at s (mem s) WTop)
  | WFinalLoad =>
    r ← requested s !! j;
    Some (put_worker s (worker_acquire (mem s) r) (peeked s) (at_shutdown s) j (completed s)
            (WFinalStore (r_value r)) (received s))
  | WFinalStore req => Some (completes s req WExited)
  end.

(** What that load may read. *)
Definition worker_may_read (s : machine) (j : nat) : Prop :=
  match m_worker s with
  | WTop => (at_shutdown s <= j < length (shutdown s))%nat
  | WLoadReq | WFinalLoad => (at_requested s <= j < length (requested s))%nat
  | _ => may_read (tails (mem s)) (consumer_thread (mem s)) j
  end.

(** The byte that the next step of the producer writes has been peeked at by the worker before the
    store of a head that the producer knows. *)
Definition peek_over (s : machine) : bool :=
  match producer_writes (wq (mem s)) (wp (mem s)) with
  | Some a =>
    match peeked s !! Z.to_nat a with Some n => (n <=? seen (producer_thread (mem s)))%nat | None => false end
  | None => true
  end.

(** The next step of the client inside [enqueue_bytes]. *)
Definition weak_enqueue (s : machine) (j : nat) : option machine :=
  if peek_over s then
    '(e, w) ← weak_producer (mem s) j;
    Some (put_client s w (shutdown s) (requested s) (at_completed s) (m_client s)
            (match e with Return (Fifo.Enqueue data) kOk _ => sent s ++ [data] | _ => sent s end))
  else None.

(** The next step of [flush] that waits for [seq]. *)
Definition weak_wait (s : machine) (seq : Z) (j : nat) : option machine :=
  r ← completed s !! j;
  Some (put_client s (client_acquire (mem s) r) (shutdown s) (requested s) j
          (if r_value r <? seq then CFlushWait seq else ClientIdle) (sent s)).

(** A log entry with its payload, as a log call passes it to the queue. *)
Definition framed (data : bytes) : Prop :=
  exists tid fid level ts payload, is_entry data tid fid level ts payload /\
    lenZ data = sizeof_LogEntry + lenZ payload /\ lenZ payload < kMaxPayloadSize.

Inductive machine_step : machine -> machine -> Prop :=
  | worker_moves s j s' : worker_may_read s j -> weak_worker s j = Some s' -> machine_step s s'
  | client_enqueue s data :
      m_client s = ClientIdle -> m_worker s <> WNone -> wp (mem s) = PIdle -> framed data ->
      machine_step s (put_client s (put_producer (mem s) (wq (mem s)) (tails (mem s)) (written (mem s))
                                      (producer_thread (mem s)) (PStart data))
                        (shutdown s) (requested s) (at_completed s) ClientIdle (sent s))
  | client_moves s j s' :
      wp (mem s) <> PIdle -> may_read (heads (mem s)) (producer_thread (mem s)) j ->
      weak_enqueue s j = Some s' -> machine_step s s'
  | client_flush s :
      m_client s = ClientIdle -> m_worker s <> WNone -> wp (mem s) = PIdle ->
      let seq := u64 (newest (requested s) + 1) in
      machine_step s (put_client s (mem s) (shutdown s)
        (requested s ++ [store_release (producer_thread (mem s)) (tails (mem s)) seq])
        (at_completed s) (CFlushWait seq) (sent s))
  | client_waits s seq j s' :
      m_client s = CFlushWait seq -> (at_completed s <= j < length (completed s))%nat ->
      weak_wait s seq j = Some s' -> machine_step s s'
  | client_stop s :
      m_client s = ClientIdle -> m_worker s <> WNone -> wp (mem s) = PIdle ->
      machine_step s (put_client s (mem s)
        (shutdown s ++ [store_release (producer_thread (mem s)) (tails (mem s)) 1])
        (requested s) (at_completed s) CJoin (sent s))
  | client_join s :
      m_client s = CJoin -> m_worker s = WExited ->
      machine_step s (put_client
        (worker_at s (client_acquire (mem s) (store_release (consumer_thread (mem s)) (heads (mem s)) 0)) WNone)
        (client_acquire (mem s) (store_release (consumer_thread (mem s)) (heads (mem s)) 0))
        (shutdown s) (requested s) (pred (length (completed s))) ClientIdle (sent s)).

Inductive machine_exec : machine -> machine -> Prop :=
  | machine_nil s : machine_exec s s
  | machine_snoc s s1 s2 : machine_exec s s1 -> machine_step s1 s2 -> machine_exec s s2.

(** The threads after [start]: what was done before is known to both. *)
Definition initial : release := {| r_value := 0; r_clock := 0; r_position := 0 |}.

Definition machine_start (q : SpscQueue) : machine :=
  {| mem := weak_start q; peeked := replicate (Z.to_nat (capacity_ q)) 0%nat;
     shutdown := [initial]; requested := [initial]; completed := [initial];
     at_shutdown := 0; at_requested := 0; at_completed := 0;
     m_worker := WTop; m_client := ClientIdle; sent := []; received := [] |}.

(** ** Knowing more

    A thread that acquired a flag knows more than one that only ever loaded the indices; whatever it
    does the other could have done. *)
Record knows_more (t t' : thread) : Prop := {
  km_accesses : accesses t' = accesses t;
  km_fenced : fenced t' = fenced t;
  km_knows : (knows t <= knows t')%nat;
  km_seen : (seen t <= seen t')%nat;
}.

Record boosted (w w' : weak) : Prop := {
  bo_q : wq w' = wq w;
  bo_heads : heads w' = heads w; bo_tails : tails w' = tails w;
  bo_written : written w' = written w; bo_fetched : fetched w' = fetched w;
  bo_wp : wp w' = wp w; bo_wc : wc w' = wc w;
  bo_producer : knows_more (producer_thread w) (producer_thread w');
  bo_consumer : knows_more (consumer_thread w) (consumer_thread w');
}.

Lemma knows_more_refl t : knows_more t t.
Proof. by constructor. Qed.

Lemma boosted_refl w : boosted w w.
Proof. by constructor; try apply knows_more_refl. Qed.

Lemma knows_more_load t t' j m :
  knows_more t t' -> knows_more (load_acquire t j m) (load_acquire t' j m).
Proof. intros []. constructor; cbn; lia || done. Qed.

Lemma knows_more_fence t t' : knows_more t t' -> knows_more (release_fence t) (release_fence t').
Proof. intros []. by constructor. Qed.

Lemma knows_more_access mine theirs t t' a marks u :
  knows_more t t' -> access mine theirs t a = Some (marks, u) ->
  exists u', access mine theirs t' a = Some (marks, u') /\ knows_more u u'.
Proof.
  intros [Ha Hf Hk Hs]. unfold access. destruct (theirs !! Z.to_nat a) as [n|]; [|done]. cbn [mbind option_bind].
  destruct (Nat.ltb_spec (knows t) n); [done|]. intros [= <- <-].
  rewrite (proj2 (Nat.ltb_ge (knows t') n)) by lia. rewrite Ha. eexists. split; [done|]. by constructor; cbn; congruence.
Qed.

(** The case of a bind that is defined. *)
Ltac bound x E := destruct x as [[[? ?] ?]|] eqn:E; [cbn [mbind option_bind]|done].

Lemma boosted_producer w w' j e w1 :
  boosted w w' -> weak_producer w j = Some (e, w1) ->
  exists w1', weak_producer w' j = Some (e, w1') /\ boosted w1 w1'.
Proof.
  intros [Eq Eh Et Ew Ef Ep Ec Bp Bc]. unfold weak_producer. rewrite Eq, Eh, Ep, Ew, Ef.
  destruct (wp w) as [|data|data t|data t i].
  - done.
  - bound (producer_step (wq w) (PStart data)) E. intros [= <- <-]. eexists. split; [done|]. by constructor.
  - destruct (heads w !! j) as [m|]; [cbn [mbind option_bind]|done].
    bound (producer_step (see_head (wq w) (value m)) (PReload data t)) E. intros [= <- <-].
    eexists. split; [done|]. constructor; cbn; try done. by apply knows_more_load.
  - bound (producer_step (wq w) (PCopy data t i)) E. destruct (i <? lenZ data).
    + destruct (access _ _ (producer_thread w) _) as [[marks u]|] eqn:E0; [cbn [mbind option_bind]|done].
      destruct (knows_more_access _ _ _ _ _ _ _ Bp E0) as (u' & -> & Hu). intros [= <- <-].
      eexists. split; [done|]. by constructor.
    + intros [= <- <-]. eexists. split; [done|]. constructor; cbn; try done.
      * rewrite Et. unfold store_relaxed. cbn. by rewrite (km_accesses _ _ Bp).
      * by apply knows_more_fence.
Qed.

Lemma boosted_consumer w w' j e w1 :
  boosted w w' -> weak_consumer w j = Some (e, w1) ->
  exists w1', weak_consumer w' j = Some (e, w1') /\ boosted w1 w1'.
Proof.
  intros [Eq Eh Et Ew Ef Ep Ec Bp Bc]. unfold weak_consumer. rewrite Eq, Et, Ec, Ew, Ef.
  destruct (wc w) as [|n|n h|n h i out].
  - done.
  - bound (consumer_step (wq w) (CStart n)) E. intros [= <- <-]. eexists. split; [done|]. by constructor.
  - destruct (tails w !! j) as [m|]; [cbn [mbind option_bind]|done].
    bound (consumer_step (see_tail (wq w) (value m)) (CReload n h)) E. intros [= <- <-].
    eexists. split; [done|]. constructor; cbn; try done. by apply knows_more_load.
  - bound (consumer_step (wq w) (CCopy n h i out)) E. destruct (i <? n).
    + destruct (access _ _ (consumer_thread w) _) as [[marks u]|] eqn:E0; [cbn [mbind option_bind]|done].
      destruct (knows_more_access _ _ _ _ _ _ _ Bc E0) as (u' & -> & Hu). intros [= <- <-].
      eexists. split; [done|]. by constructor.
    + intros [= <- <-]. eexists. split; [done|]. constructor; cbn; try done.
      * rewrite Eh. unfold store_relaxed. cbn. by rewrite (km_accesses _ _ Bc).
      * by apply knows_more_fence.
Qed.

(** ** What a step of a thread leaves alone *)

(** The record that is being enqueued, and the size asked for. *)
Definition calling (pc : producer_pc) : option bytes :=
  match pc with PIdle => None | PStart d | PReload d _ | PCopy d _ _ => Some d end.

Definition asked (pc : consumer_pc) : option Z :=
  match pc with CIdle => None | CStart n | CReload n _ | CCopy n _ _ _ => Some n end.

Record producer_frame (w w' : weak) (e : event) : Prop := {
  pf_heads : heads w' = heads w; pf_wc : wc w' = wc w; pf_consumer : consumer_thread w' = consumer_thread w;
  pf_tails : tails w `prefix_of` tails w';
  pf_event : match e with
             | Tau => calling (wp w') = calling (wp w)
             | Return o st out => wp w' = PIdle /\ exists d, calling (wp w) = Some d /\ o = Fifo.Enqueue d
             end;
}.

Record consumer_frame (w w' : weak) (e : event) : Prop := {
  cf_tails : tails w' = tails w; cf_wp : wp w' = wp w; cf_producer : producer_thread w' = producer_thread w;
  cf_heads : heads w `prefix_of` heads w';
  cf_event : match e with
             | Tau => asked (wc w') = asked (wc w)
             | Return o st out => wc w' = CIdle /\ exists n, asked (wc w) = Some n /\ o = Fifo.Dequeue n
             end;
}.

Lemma producer_step_event q pc e q' pc' :
  producer_step q pc = Some (e, q', pc') ->
  match e with
  | Tau => calling pc' = calling pc
  | Return o st out => pc' = PIdle /\ exists d, calling pc = Some d /\ o = Fifo.Enqueue d
  end.
Proof. destruct pc; cbn; intros Hs; repeat (bind_inv Hs; case_match); simplify_eq/=; eauto. Qed.

Lemma consumer_step_event q pc e q' pc' :
  consumer_step q pc = Some (e, q', pc') ->
  match e with
  | Tau => asked pc' = asked pc
  | Return o st out => pc' = CIdle /\ exists n, asked pc = Some n /\ o = Fifo.Dequeue n
  end.
Proof. destruct pc; cbn; intros Hs; repeat (bind_inv Hs; case_match); simplify_eq/=; eauto. Qed.

Lemma access_thread mine theirs t a marks u :
  access mine theirs t a = Some (marks, u) -> seen u = seen t /\ knows u = knows t.
Proof. unfold access. intros Ha. bind_inv Ha. case_match; by simplify_eq/=. Qed.

Lemma weak_producer_frame w j e w' :
  weak_producer w j = Some (e, w') -> may_read (heads w) (producer_thread w) j ->
  producer_frame w w' e /\ (seen (producer_thread w') < length (heads w'))%nat.
Proof.
  unfold weak_producer, may_read. destruct (wp w) as [|d|d t|d t i] eqn:Ep; [done| | |]; intros Hs Hj.
  - revert Hs. bound (producer_step (wq w) (PStart d)) E. intros [= <- <-]. apply producer_step_event in E.
    split; [by constructor; rewrite ?Ep|cbn; lia].
  - revert Hs. destruct (heads w !! j) as [m|]; [cbn [mbind option_bind]|done].
    bound (producer_step (see_head (wq w) (value m)) (PReload d t)) E. intros [= <- <-]. apply producer_step_event in E.
    split; [by constructor; rewrite ?Ep|cbn; lia].
  - revert Hs. bound (producer_step (wq w) (PCopy d t i)) E. apply producer_step_event in E. destruct (i <? lenZ d).
    + destruct (access _ _ _ _) as [[marks u]|] eqn:Ha; [cbn [mbind option_bind]|done]. intros [= <- <-].
      apply access_thread in Ha as [Hu _]. split; [by constructor; rewrite ?Ep|cbn; lia].
    + intros [= <- <-]. split; [constructor; rewrite ?Ep; try done; by apply prefix_app_r|cbn; lia].
Qed.

(** The consumer's view of the tails only grows. *)
Lemma weak_consumer_frame w j e w' :
  weak_consumer w j = Some (e, w') -> may_read (tails w) (consumer_thread w) j ->
  consumer_frame w w' e /\ (seen (consumer_thread w) <= seen (consumer_thread w') < length (tails w'))%nat /\
  (knows (consumer_thread w) <= knows (consumer_thread w'))%nat.
Proof.
  unfold weak_consumer, may_read. destruct (wc w) as [|n|n h|n h i out] eqn:Ep; [done| | |]; intros Hs Hj.
  - revert Hs. bound (consumer_step (wq w) (CStart n)) E. intros [= <- <-]. apply consumer_step_event in E.
    split; [by constructor; rewrite ?Ep|cbn; lia].
  - revert Hs. destruct (tails w !! j) as [m|]; [cbn [mbind option_bind]|done].
    bound (consumer_step (see_tail (wq w) (value m)) (CReload n h)) E. intros [= <- <-]. apply consumer_step_event in E.
    split; [by constructor; rewrite ?Ep|cbn; lia].
  - revert Hs. bound (consumer_step (wq w) (CCopy n h i out)) E. apply consumer_step_event in E. destruct (i <? n).
    + destruct (access _ _ _ _) as [[marks u]|] eqn:Ha; [cbn [mbind option_bind]|done]. intros [= <- <-].
      apply access_thread in Ha as [Hu Hk]. split; [by constructor; rewrite ?Ep|cbn; lia].
    + intros [= <- <-]. split; [constructor; rewrite ?Ep; try done; by apply prefix_app_r|cbn; lia].
Qed.

(** ** Peeking *)

Section peek.
Context (k : Z) (buf : bytes) (T H : Z) (hs ts : list (Z * nat)) (s w : weak)
        (I : weak_inv k buf T H hs ts s) (B : boosted s w).

(** The bytes below a tail whose store the thread knows may be read. *)
Lemma known_accesses p v c n : ts !! p = Some (v, c) -> forall t marks i,
  (c <= knows t)%nat -> 0 <= i -> H + i + Z.of_nat n <= v -> is_Some (peek_accesses n w t marks i).
Proof.
  intros Hp. induction n as [|n IH]; intros t marks i Hc Hi Hv; cbn [peek_accesses]; [by eexists|].
  destruct (inv_cap _ _ _ _ _ _ _ I) as [Hk Hcap].
  destruct (inv_counters _ _ _ _ _ _ _ I) as (Hs & Ts & _ & _ & [_ Ho _ _ _] & Hpa & _).
  pose proof (side_newest _ _ _ _ _ _ _ _ _ _ _ (wi_ts I) Hp) as Hn. cbn in Hn.
  rewrite (bo_q _ _ B), (bo_written _ _ B).
  pose proof (sd_ahead _ _ _ _ _ _ _ _ _ (wi_ts I)) as Ha.
  rewrite (wi_head _ _ _ _ _ _ _ I), (inv_addr _ _ _ _ _ _ _ I H i) by lia.
  destruct (side_free (2 ^ k) ltac:(lia) _ _ _ _ _ _ _ _ _ v c (H + i) (wi_ts I) Hp ltac:(lia)) as (m & Hm & Hkn).
  unfold access. rewrite Hm. cbn [mbind option_bind]. rewrite (proj2 (Nat.ltb_ge _ _)) by lia.
  apply IH; cbn; lia.
Qed.

(** What [peek_bytes] gives, the tail it loads being [v] before wrap-around. *)
Lemma weak_peek_eq size j :
  may_read (tails w) (consumer_thread w) j -> 0 < size -> exists v c,
    ts !! j = Some (v, c) /\ v <= T /\
    weak_peek w size j =
      if v - H <? size then Some (kUnderflow, [])
      else _ ← peek_accesses (Z.to_nat size) w (consumer_thread w) (fetched w) 0;
           Some (kOk, take (Z.to_nat size) (spsc_contents (wq w))).
Proof.
  intros Hj Hsize. assert (may_read (tails s) (consumer_thread s) j) as Hj'.
  { rewrite (bo_tails _ _ B) in Hj. pose proof (km_seen _ _ (bo_consumer _ _ B)). unfold may_read in *. lia. }
  destruct (inv_cap _ _ _ _ _ _ _ I) as [Hk Hcap].
  destruct (inv_counters _ _ _ _ _ _ _ I) as (Hs & Ts & _ & _ & [_ Ho Hu _ _] & _).
  rewrite (wi_tails _ _ _ _ _ _ _ I) in Hj'.
  destruct (side_load _ _ _ _ _ _ _ _ _ _ (wi_ts I) Hj') as (v & c & Hm & Hv & _).
  assert (Hjs : is_Some (ts !! j)) by (apply lookup_lt_is_Some; unfold may_read, published in Hj'; rewrite length_fmap in Hj'; lia).
  destruct Hjs as [[v1 c1] Hjs]. pose proof (side_newest _ _ _ _ _ _ _ _ _ _ _ (wi_ts I) Hjs) as Hn. cbn in Hn.
  assert (Hlow : H <= v1).
  { destruct (sd_seen _ _ _ _ _ _ _ _ _ (wi_ts I)) as (v0 & Hv0 & _ & Hl0).
    destruct (sd_sorted _ _ _ _ _ _ _ _ _ (wi_ts I) _ _ _ _ (proj1 Hj') Hv0 Hjs) as [Hle _]. cbn in Hle. lia. }
  assert (tails w !! j = Some {| value := u64 v1; clock := c1 |}) as Hw.
  { rewrite (bo_tails _ _ B), (wi_tails _ _ _ _ _ _ _ I). unfold published. by rewrite list_lookup_fmap, Hjs. }
  exists v1, c1. split; [done|]. split; [lia|].
  unfold weak_peek. rewrite Hw. cbn [mbind option_bind value]. unfold peek_bytes.
  rewrite (bo_q _ _ B). cbn [buffer_ see_tail tail_idx_ head_idx_ mask_]. rewrite (wf_buffer _ _ _ (wi_wf I)).
  assert (u64 v1 ⊖ head_idx_ (wq s) = v1 - H) as ->
    by (rewrite (wi_head _ _ _ _ _ _ _ I); apply u64_sub_counters; lia).
  destruct (Z.eqb_spec size 0); [lia|]. destruct (Z.ltb_spec (v1 - H) size); [done|].
  rewrite (copy_out_front k buf _ (wi_wf I)) by lia. done.
Qed.
End peek.

(** ** The queue of the two threads

    [waiting] are the records in the queue; [hs] and [ts] are the stores of the indices before they
    wrap around. *)
Definition peeked_ok (k T : Z) (hs : list (Z * nat)) (pk : list nat) : Prop :=
  lenZ pk = 2 ^ k /\
  forall a n, pk !! a = Some n -> n = 0%nat \/
    exists x p, hs !! pred n = Some p /\ (0 < n)%nat /\ p.1 <= x < T /\ x mod 2 ^ k = Z.of_nat a.

Definition core (w : weak) (pk : list nat) (waiting : list bytes) : Prop :=
  exists k buf T H hs ts s,
    weak_inv k buf T H hs ts s /\ boosted s w /\ peeked_ok k T hs pk /\
    spsc_contents (wq w) = concat waiting /\ Forall framed waiting /\
    (forall d, calling (wp w) = Some d -> framed d) /\
    (seen (producer_thread w) < length (heads w))%nat /\ (seen (consumer_thread w) < length (tails w))%nat.

Lemma framed_size d : framed d -> 2 < lenZ d.
Proof. intros (? & ? & ? & ? & pl & _ & -> & _). pose proof (lenZ_nonneg pl). unfold sizeof_LogEntry. lia. Qed.

(** The first two bytes give the size of the record. *)
Lemma framed_prefix d rest :
  framed d -> u64 (sizeof_LogEntry + le_combine (take 2 (d ++ rest))) = lenZ d.
Proof.
  intros (tid & fid & l & ts & pl & He & Hl & Hm). pose proof (lenZ_nonneg pl).
  destruct (entry_app _ _ _ _ _ _ He rest) as [Hlen _ _ _ _ _].
  unfold entry_payload_len, load_le in Hlen.
  destruct (mem_load (d ++ rest) off_payload_len (Z.of_nat 2)) as [x|] eqn:E; [|done].
  apply mem_load_Some in E as (_ & _ & _ & ->). injection Hlen as Hlen. change (Z.to_nat off_payload_len) with 0%nat in Hlen.
  change (Z.to_nat (Z.of_nat 2)) with 2%nat in Hlen. rewrite drop_0 in Hlen.
  rewrite Hlen, Hl. apply u64_small. unfold kMaxPayloadSize, sizeof_LogEntry in *. lia.
Qed.

(** A thread that comes to know more. *)
Lemma core_threads w pk waiting p c :
  core w pk waiting -> knows_more (producer_thread w) p -> knows_more (consumer_thread w) c ->
  (seen p < length (heads w))%nat -> (seen c < length (tails w))%nat ->
  core (set_producer_thread (set_consumer_thread w c) p) pk waiting.
Proof.
  intros (k & buf & T & H & hs & ts & s & I & B & Hpk & Hc & Hf & Hd & _ & _) Kp Kc Hp Ht.
  exists k, buf, T, H, hs, ts, s. split; [done|]. split; [|done]. destruct B as [? ? ? ? ? ? ? [] []], Kp, Kc.
  constructor; try done; constructor; cbn; congruence || lia.
Qed.

Lemma core_call_enqueue w pk waiting d :
  core w pk waiting -> wp w = PIdle -> framed d ->
  core (put_producer w (wq w) (tails w) (written w) (producer_thread w) (PStart d)) pk waiting.
Proof.
  intros (k & buf & T & H & hs & ts & s & I & B & Hpk & Hc & Hf & _ & Hp & Ht) Hidle Hd.
  exists k, buf, T, H, hs, ts, (put_producer s (wq s) (tails s) (written s) (producer_thread s) (PStart d)).
  assert (wp s = PIdle) as Hs by (by rewrite <- (bo_wp _ _ B)).
  split; [|split; [|split_and!; try done; by intros ? [= <-]]].
  - pose proof (framed_size d Hd). destruct I. rewrite Hs in *. constructor; try done. cbn. lia.
  - destruct B. by constructor.
Qed.

Lemma core_call_dequeue w pk waiting n :
  core w pk waiting -> wc w = CIdle -> 0 < n ->
  core (put_consumer w (wq w) (heads w) (fetched w) (consumer_thread w) (CStart n)) pk waiting.
Proof.
  intros (k & buf & T & H & hs & ts & s & I & B & Hpk & Hc & Hf & Hd & Hp & Ht) Hidle Hn.
  exists k, buf, T, H, hs, ts, (put_consumer s (wq s) (heads s) (fetched s) (consumer_thread s) (CStart n)).
  assert (wc s = CIdle) as Hs by (by rewrite <- (bo_wc _ _ B)).
  split; [|split; [|by split_and!]].
  - destruct I. rewrite Hs in *. by constructor.
  - destruct B. by constructor.
Qed.

(** The records in the queue after a call that returned. *)
Definition enqueued (e : event) (waiting : list bytes) : list bytes :=
  match e with Return (Fifo.Enqueue d) kOk _ => waiting ++ [d] | _ => waiting end.

(** The byte that the producer writes next is no byte that was peeked at since the head it knows. *)
Lemma core_peek_over k buf T H hs ts s w pk m :
  weak_inv k buf T H hs ts s -> boosted s w -> peeked_ok k T hs pk -> mem m = w -> peeked m = pk ->
  peek_over m = true.
Proof.
  intros I B [Hlen Hpk] <- <-. unfold peek_over. rewrite (bo_q _ _ B), (bo_wp _ _ B).
  destruct (wp s) as [|d|d t|d t i] eqn:Ep; cbn [producer_writes]; try done.
  destruct (Z.ltb_spec i (lenZ d)) as [Hi|]; [|done].
  destruct (inv_cap _ _ _ _ _ _ _ I) as [Hk Hcap].
  destruct (inv_counters _ _ _ _ _ _ _ I) as (Hs & Ts & Eh & _ & [_ Ho _ Hps _] & _).
  pose proof (wi_producer _ _ _ _ _ _ _ I) as HP. rewrite Ep in HP. destruct HP as (Hd & -> & Hi0 & Hfit & _).
  rewrite Hps in Hfit. rewrite (wi_tail _ _ _ _ _ _ _ I), (inv_addr _ _ _ _ _ _ _ I T i) by lia.
  pose proof (Z.mod_pos_bound (T + i) (2 ^ k) ltac:(lia)) as Hmod.
  destruct (lookup_lt_is_Some_2 (peeked m) (Z.to_nat ((T + i) mod 2 ^ k))) as [n Hn]; [unfold lenZ in Hlen; lia|].
  rewrite Hn. apply Nat.leb_le. pose proof (km_seen _ _ (bo_producer _ _ B)) as Hseen.
  destruct (Hpk _ _ Hn) as [->|(x & p & Hp & Hn0 & Hx & Hxa)]; [lia|]. rewrite Z2Nat.id in Hxa by lia.
  assert (x < Hs) as HxH.
  { assert ((T + i - x) mod 2 ^ k = 0) as Hd0 by (by rewrite Zminus_mod, Hxa, Z.sub_diag, Z.mod_0_l by lia).
    apply Z.mod_divide in Hd0 as [c Hc]; [|lia]. assert (1 <= c) by nia. nia. }
  destruct (decide (pred n < seen (producer_thread s))%nat) as [|Hge]; [lia|].
  destruct (sd_sorted _ _ _ _ _ _ _ _ _ (wi_hs I) (seen (producer_thread s)) (pred n) _ _ ltac:(lia) Eh Hp) as [Hle _].
  cbn in Hle. lia.
Qed.

Lemma core_producer w pk waiting j :
  core w pk waiting -> wp w <> PIdle -> may_read (heads w) (producer_thread w) j ->
  (forall m, mem m = w -> peeked m = pk -> peek_over m = true) /\
  exists e w', weak_producer w j = Some (e, w') /\ core w' pk (enqueued e waiting) /\ producer_frame w w' e.
Proof.
  intros (k & buf & T & H & hs & ts & s & I & B & Hpk & Hc & Hf & Hd & Hp & Ht) Hpc Hj.
  split; [by intros; eapply core_peek_over|].
  assert (may_read (heads s) (producer_thread s) j) as Hjs.
  { rewrite (bo_heads _ _ B) in Hj. pose proof (km_seen _ _ (bo_producer _ _ B)). unfold may_read in *. lia. }
  destruct (weak_producer_ok k buf T H hs ts s j I) as (e & s' & buf' & T' & ts' & Hs & I' & HT & He);
    [by rewrite <- (bo_wp _ _ B) | done |].
  destruct (boosted_producer s w j e s' B Hs) as (w' & Hw & B'). exists e, w'. split; [done|].
  destruct (weak_producer_frame w j e w' Hw Hj) as [F Hseen]. split; [|done].
  apply weak_event_stream in He. cbn in He. rewrite <- (bo_q _ _ B), <- (bo_q _ _ B'), Hc in He.
  destruct F as [Fh Fc Fct Ft Fe].
  exists k, buf', T', H, hs, ts', s'. split; [done|]. split; [done|]. split; [|split; [|split; [|split; [|split]]]].
  - destruct Hpk as [Hl Hpk]. split; [done|]. intros a n Hn. destruct (Hpk a n Hn) as [?|(x & p & ? & ? & ? & ?)]; [by left|].
    right. exists x, p. split_and!; done || lia.
  - destruct e as [|[d|n] st out]; cbn in He |- *.
    + by rewrite app_nil_r in He.
    + destruct st; cbn in He |- *; rewrite ?app_nil_r in He; try done. rewrite <- He, concat_app. cbn. by rewrite app_nil_r.
    + by destruct Fe as (_ & ? & _ & ?).
  - destruct e as [|[d|n] st out]; cbn; try done. destruct st; try done. apply Forall_app. split; [done|].
    apply Forall_singleton, Hd. by destruct Fe as (_ & d' & ? & [= ->]).
  - destruct e; cbn in Fe; [by rewrite Fe|]. destruct Fe as [-> _]. done.
  - done.
  - rewrite Fct. apply prefix_length in Ft. lia.
Qed.

(** What [dequeue_bytes] leaves of the records, the oldest of which it was asked for. *)
Definition dequeued (e : event) (waiting waiting' : list bytes) : Prop :=
  match e with
  | Tau => waiting' = waiting
  | Return _ st out => if decide (st = kOk) then waiting = out :: waiting' else waiting' = waiting
  end.

Lemma core_consumer w pk d rest j :
  core w pk (d :: rest) -> asked (wc w) = Some (lenZ d) -> may_read (tails w) (consumer_thread w) j ->
  exists e w' waiting', weak_consumer w j = Some (e, w') /\ core w' pk waiting' /\ dequeued e (d :: rest) waiting' /\
    consumer_frame w w' e /\
    (S j = length (tails w) -> match e with Return _ st _ => st = kOk | Tau => True end).
Proof.
  intros (k & buf & T & H & hs & ts & s & I & B & Hpk & Hc & Hf & Hd & Hp & Ht) Hpc Hj.
  assert (may_read (tails s) (consumer_thread s) j) as Hjs.
  { rewrite (bo_tails _ _ B) in Hj. pose proof (km_seen _ _ (bo_consumer _ _ B)). unfold may_read in *. lia. }
  destruct (weak_consumer_ok k buf T H hs ts s j I) as (e & s' & H' & hs' & Hs & I' & Hpre & He);
    [rewrite <- (bo_wc _ _ B); by intros E; rewrite E in Hpc | done |].
  destruct (boosted_consumer s w j e s' B Hs) as (w' & Hw & B').
  destruct (weak_consumer_frame w j e w' Hw Hj) as (F & Hseen & _).
  exists e, w'. rewrite Hw. cbn in Hc.
  assert (exists waiting', spsc_contents (wq w') = concat waiting' /\ dequeued e (d :: rest) waiting' /\
    Forall framed waiting' /\
    (S j = length (tails w) -> match e with Return _ st _ => st = kOk | Tau => True end)) as (waiting' & Hc' & Hq & Hf' & Hn).
  { pose proof (framed_size d (proj1 (proj1 (Forall_cons _ _ _) Hf))) as Hdz. pose proof (lenZ_nonneg (concat rest)) as Hrz.
    rewrite (bo_q _ _ B'). rewrite (bo_q _ _ B) in Hc.
    destruct F as [_ _ _ _ Fe]. destruct e as [|o st out].
    - exists (d :: rest). apply weak_event_stream in He. cbn in He. rewrite app_nil_r, Hc in He. by rewrite <- He.
    - destruct Fe as (_ & n & Hn & ->). rewrite Hpc in Hn. injection Hn as <-.
      destruct He as [He|(Hnew & Hsame & o & st' & [= <- -> ->] & Hst)]; cbn in He || cbn in Hsame.
      + unfold Fifo.dequeue in He. cbn in He. rewrite Hc, lenZ_app in He. destruct (Z.eqb_spec (lenZ d) 0); [lia|].
        destruct (Z.ltb_spec (lenZ d + lenZ (concat rest)) (lenZ d)); [lia|]. injection He as <- <- _ <-.
        exists rest. unfold lenZ. rewrite Nat2Z.id, take_app_length, drop_app_length. cbn.
        by inversion Hf.
      + exists (d :: rest). injection Hsame as _ Hsame. rewrite Hsame, Hc.
        assert (st' <> kOk) as Hok by (by destruct Hst as [-> | ->]). cbn. rewrite decide_False by done.
        split_and!; try done. intros Hlast. unfold is_newest in Hnew. rewrite bool_decide_eq_false, <- (bo_tails _ _ B) in Hnew. done. }
  exists waiting'. split; [done|]. split; [|by split].
  exists k, buf, T, H', hs', ts, s'. split; [done|]. split; [done|]. split; [|split; [done|split; [done|split; [|split]]]].
  - destruct Hpk as [Hl Hpk]. split; [done|]. intros a n Hna. destruct (Hpk a n Hna) as [?|(x & p & ? & ? & ? & ?)]; [by left|].
    right. exists x, p. split; [by eapply prefix_lookup_Some | done].
  - rewrite (cf_wp _ _ _ F). done.
  - rewrite (cf_producer _ _ _ F). pose proof (prefix_length _ _ (cf_heads _ _ _ F)). lia.
  - lia.
Qed.

(** The worker has acquired everything that the producer did up to the newest tail. *)
Definition caught_up (w : weak) : Prop :=
  S (seen (consumer_thread w)) = length (tails w) /\
  Forall (λ m, (clock m <= knows (consumer_thread w))%nat) (tails w).

(** Two bytes at the head of a record are marked. *)
Lemma core_mark k buf T H hs ts s m :
  weak_inv k buf T H hs ts s -> boosted s (mem m) -> peeked_ok k T hs (peeked m) -> H + 2 <= T ->
  peeked_ok k T hs (mark_peek m).
Proof.
  intros I B Hpk HT. destruct (inv_cap _ _ _ _ _ _ _ I) as [Hk Hcap].
  assert (length (heads (mem m)) = length hs) as Hlen
    by (rewrite (bo_heads _ _ B), (wi_heads _ _ _ _ _ _ _ I); apply length_fmap).
  pose proof (sd_last _ _ _ _ _ _ _ _ _ (wi_hs I)) as Hl. rewrite last_lookup in Hl.
  destruct (hs !! pred (length hs)) as [p|] eqn:Hp; [|done]. injection Hl as Hl.
  assert (0 < length hs)%nat as Hpos by (apply lookup_lt_Some in Hp; lia).
  assert (forall i pk, 0 <= i < 2 -> peeked_ok k T hs pk ->
    peeked_ok k T hs (<[Z.to_nat (ring_addr (mask_ (wq (mem m))) (head_idx_ (wq (mem m))) i) := length (heads (mem m))]> pk))
    as Hone.
  { intros i pk Hi [Hl0 Hpk0]. rewrite (bo_q _ _ B), (wi_head _ _ _ _ _ _ _ I), (inv_addr _ _ _ _ _ _ _ I H i), Hlen by lia.
    pose proof (Z.mod_pos_bound (H + i) (2 ^ k) ltac:(lia)). split; [unfold lenZ in *; by rewrite length_insert|].
    intros a n. rewrite list_lookup_insert. case_decide as Ha; [|apply Hpk0]. intros [= <-]. right.
    exists (H + i), p. split_and!; try done; [lia..|]. destruct Ha as [<- _]. by rewrite Z2Nat.id by lia. }
  unfold mark_peek. cbn [foldr]. apply Hone; [lia|]. by apply Hone.
Qed.

Lemma core_peek m waiting j :
  core (mem m) (peeked m) waiting -> may_read (tails (mem m)) (consumer_thread (mem m)) j ->
  (forall out, weak_peek (mem m) 2 j = Some (kOk, out) ->
     exists d rest, waiting = d :: rest /\ u64 (sizeof_LogEntry + le_combine out) = lenZ d /\
       core (mem m) (mark_peek m) waiting) /\
  (caught_up (mem m) \/ waiting = [] ->
     exists st out, weak_peek (mem m) 2 j = Some (st, out) /\ (st = kOk <-> waiting <> [])).
Proof.
  intros (k & buf & T & H & hs & ts & s & I & B & Hpk & Hc & Hf & Hrest) Hj.
  destruct (weak_peek_eq k buf T H hs ts s (mem m) I B 2 j Hj ltac:(lia)) as (v & c & Hv & HvT & ->).
  destruct (inv_counters _ _ _ _ _ _ _ I) as (Hs & Ts & _ & _ & [_ Ho Hu _ _] & _).
  pose proof (wf_contents_length k buf _ (wi_wf I)) as Hlen. rewrite Hu, <- (bo_q _ _ B), Hc in Hlen.
  assert (T = H <-> waiting = []) as Hempty.
  { destruct waiting as [|d rest]; cbn in Hlen; [change (lenZ []) with 0 in Hlen; split; [done|lia]|]. rewrite lenZ_app in Hlen.
    pose proof (lenZ_nonneg (concat rest)). inversion Hf as [|? ? Hd]; subst. apply framed_size in Hd. split; [lia|done]. }
  split.
  - intros out. destruct (Z.ltb_spec (v - H) 2) as [|Hge]; [done|].
    destruct (peek_accesses _ _ _ _ _); [cbn [mbind option_bind]|done]. intros [= <-]. rewrite Hc.
    destruct waiting as [|d rest]; [exfalso; pose proof (proj2 Hempty eq_refl); lia|].
    exists d, rest. split; [done|]. split; [apply framed_prefix; by inversion Hf|].
    exists k, buf, T, H, hs, ts, s. split; [done|]. split; [done|]. split; [|done].
    apply (core_mark k buf T H hs ts s m I B Hpk). lia.
  - intros Hup. destruct waiting as [|d rest].
    { rewrite (proj2 (Z.ltb_lt _ _)) by (pose proof (proj2 Hempty eq_refl); lia). eexists _, _. split; [done|]. by split. }
    destruct Hup as [[Hseen Hkn]|?]; [|done].
    assert (S j = length ts) as Hjt.
    { rewrite (bo_tails _ _ B), (wi_tails _ _ _ _ _ _ _ I) in *. unfold published, may_read in *. rewrite length_fmap in *. lia. }
    pose proof (sd_last _ _ _ _ _ _ _ _ _ (wi_ts I)) as Hl. rewrite last_lookup, <- Hjt in Hl. cbn [pred] in Hl.
    rewrite Hv in Hl. injection Hl as ->.
    assert (2 < T - H) as Hbig.
    { cbn in Hlen. rewrite lenZ_app in Hlen. pose proof (lenZ_nonneg (concat rest)).
      inversion Hf as [|? ? Hd]; subst. apply framed_size in Hd. lia. }
    destruct (Z.ltb_spec (T - H) 2); [lia|].
    assert (c <= knows (consumer_thread (mem m)))%nat as Hck.
    { apply (proj1 (Forall_lookup _ _) Hkn j {| value := u64 T; clock := c |}).
      rewrite (bo_tails _ _ B), (wi_tails _ _ _ _ _ _ _ I). unfold published. by rewrite list_lookup_fmap, Hv. }
    destruct (known_accesses k buf T H hs ts s (mem m) I B j T c 2 Hv (consumer_thread (mem m)) (fetched (mem m)) 0
      Hck ltac:(lia) ltac:(lia)) as [u Hacc].
    change (Z.to_nat 2) with 2%nat. rewrite Hacc. eexists _, _. split; [done|]. by split.
Qed.

(** ** The invariant *)

(** The store carries everything that the producer did up to the newest tail. *)
Definition fresh (w : weak) (r : release) : Prop :=
  S (r_position r) = length (tails w) /\ Forall (λ m, (clock m <= r_clock r)%nat) (tails w).

Record flags_ok (s : machine) : Prop := {
  fl_requested i r : requested s !! i = Some r ->
    r_value r = Z.of_nat i /\ (r_position r < length (tails (mem s)))%nat;
  fl_completed : Forall (λ r, r_value r <= newest (completed s) /\
    (r_position r < length (heads (mem s)))%nat) (completed s);
  fl_shutdown i r : shutdown s !! i = Some r ->
    (r_value r = 0 <-> i = 0%nat) /\ (r_position r < length (tails (mem s)))%nat;
  fl_at_shutdown : (at_shutdown s < length (shutdown s))%nat;
  fl_at_requested : newest (completed s) <= Z.of_nat (at_requested s) /\ (at_requested s < length (requested s))%nat;
  fl_at_completed : (at_completed s < length (completed s))%nat;
}.

(** No flush is due. *)
Definition settled (s : machine) : Prop := newest (completed s) = newest (requested s).

Definition client_inv (s : machine) (waiting : list bytes) : Prop :=
  match m_client s with
  | ClientIdle => settled s /\ (m_worker s <> WNone -> length (shutdown s) = 1%nat)
  | CFlushWait seq =>
    seq = newest (requested s) /\ seq - 1 <= newest (completed s) /\ length (shutdown s) = 1%nat /\
    wp (mem s) = PIdle /\ (exists r, last (requested s) = Some r /\ fresh (mem s) r) /\
    (seq <= newest (completed s) -> waiting = [])
  | CJoin => settled s /\ wp (mem s) = PIdle /\ exists r0 r, shutdown s = [r0; r] /\ fresh (mem s) r
  end.

Definition phase_inv (s : machine) (p : phase) : Prop :=
  match p with
  | Turn => True
  | InFlush req =>
    newest (completed s) < req /\ req = Z.of_nat (at_requested s) /\ m_client s = CFlushWait req /\ caught_up (mem s)
  | Final => m_client s = CJoin /\ caught_up (mem s)
  end.

Definition worker_inv (s : machine) (waiting : list bytes) : Prop :=
  match m_worker s with
  | WNone => m_client s = ClientIdle /\ wp (mem s) = PIdle /\ waiting = []
  | WTop | WLoadReq | WPoll _ => True
  | WLoadDone req => req = Z.of_nat (at_requested s) /\ (newest (completed s) < req -> phase_inv s (InFlush req))
  | WPeek p => phase_inv s p
  | WDequeue p total => phase_inv s p /\ exists d rest, waiting = d :: rest /\ total = lenZ d
  | WStore req => phase_inv s (InFlush req) /\ waiting = []
  | WFinalLoad => m_client s = CJoin /\ waiting = []
  | WFinalStore req =>
    m_client s = CJoin /\ waiting = [] /\ req = Z.of_nat (at_requested s) /\ req = newest (requested s)
  | WExited => m_client s = CJoin /\ waiting = []
  end.

(** The worker is inside [dequeue_bytes] only there. *)
Definition asks (s : machine) : Prop :=
  match m_worker s with
  | WDequeue _ total => asked (wc (mem s)) = None \/ asked (wc (mem s)) = Some total
  | _ => asked (wc (mem s)) = None
  end.

Record machine_inv (s : machine) (waiting : list bytes) : Prop := {
  mi_core : core (mem s) (peeked s) waiting;
  mi_sent : sent s = received s ++ waiting;
  mi_flags : flags_ok s;
  mi_client : client_inv s waiting;
  mi_worker : worker_inv s waiting;
  mi_asks : asks s;
}.

Lemma newest_requested s : flags_ok s -> newest (requested s) = Z.of_nat (length (requested s)) - 1.
Proof.
  intros F. pose proof (proj2 (fl_at_requested _ F)) as Hlen. unfold newest. rewrite last_lookup.
  destruct (lookup_lt_is_Some_2 (requested s) (pred (length (requested s)))) as [r Hr]; [lia|].
  rewrite Hr. cbn. destruct (fl_requested _ F _ _ Hr) as [-> _]. lia.
Qed.

Lemma newest_snoc order r : newest (order ++ [r]) = r_value r.
Proof. unfold newest. by rewrite last_snoc. Qed.

Lemma asked_idle pc : asked pc = None <-> pc = CIdle.
Proof. by destruct pc. Qed.

Lemma caught_up_more w w' :
  tails w' = tails w -> (seen (consumer_thread w) <= seen (consumer_thread w') < length (tails w))%nat ->
  (knows (consumer_thread w) <= knows (consumer_thread w'))%nat -> caught_up w -> caught_up w'.
Proof.
  intros Ht Hs Hk [Hseen Hkn]. unfold caught_up. rewrite Ht. split; [lia|].
  eapply Forall_impl; [exact Hkn|]. cbn. intros. lia.
Qed.

(** Acquiring a fresh store. *)
Lemma caught_up_acquire w r :
  fresh w r -> (seen (consumer_thread w) < length (tails w))%nat -> caught_up (worker_acquire w r).
Proof.
  intros [Hp Hc] Hs. unfold caught_up, worker_acquire. cbn. split; [lia|].
  eapply Forall_impl; [exact Hc|]. cbn. intros. lia.
Qed.

Lemma core_acquire w pk waiting r :
  core w pk waiting -> (r_position r < length (tails w))%nat -> core (worker_acquire w r) pk waiting.
Proof.
  intros C Hr. pose proof C as (_ & _ & _ & _ & _ & _ & _ & _ & _ & _ & _ & _ & _ & Hp & Hs).
  pose proof (core_threads w pk waiting (producer_thread w) (acquire (consumer_thread w) r) C (knows_more_refl _)) as Hc.
  destruct w. apply Hc; [|done|cbn in *; lia]. constructor; cbn; done || lia.
Qed.

Lemma core_client_acquire w pk waiting r :
  core w pk waiting -> (r_position r < length (heads w))%nat -> core (client_acquire w r) pk waiting.
Proof.
  intros C Hr. pose proof C as (_ & _ & _ & _ & _ & _ & _ & _ & _ & _ & _ & _ & _ & Hp & Hs).
  pose proof (core_threads w pk waiting (acquire (producer_thread w) r) (consumer_thread w) C) as Hc.
  destruct w. apply Hc; [|apply knows_more_refl|cbn in *; lia|done]. constructor; cbn; done || lia.
Qed.

(** A step of the worker that stores no flag. *)
Lemma put_worker_inv s waiting w pk sd rq pc out waiting' :
  machine_inv s waiting -> core w pk waiting' ->
  tails w = tails (mem s) -> wp w = wp (mem s) -> heads (mem s) `prefix_of` heads w ->
  received s ++ waiting = out ++ waiting' -> (waiting = [] -> waiting' = []) ->
  (sd < length (shutdown s))%nat -> newest (completed s) <= Z.of_nat rq -> (rq < length (requested s))%nat ->
  m_worker s <> WNone ->
  worker_inv (put_worker s w pk sd rq (completed s) pc out) waiting' ->
  asks (put_worker s w pk sd rq (completed s) pc out) ->
  machine_inv (put_worker s w pk sd rq (completed s) pc out) waiting'.
Proof.
  intros [C Hs F Hc Hw Ha] C' Ht Hp Hh Hio Hempty Hsd Hrq Hrq' Hn Hw' Ha'. constructor; try done; cbn.
  - by rewrite Hs.
  - destruct F as [F1 F2 F3 F4 F5 F6]. constructor; cbn; rewrite ?Ht; try done.
    eapply Forall_impl; [exact F2|]. intros r [? ?]. apply prefix_length in Hh. split; [done|lia].
  - unfold client_inv, settled, fresh in *. cbn. rewrite Ht, Hp. destruct (m_client s).
    + destruct Hc as [? Hc]. split; [done|]. intros _. by apply Hc.
    + destruct Hc as (? & ? & ? & ? & ? & Hd). split_and!; try done. auto.
    + done.
Qed.

(** ** The steps of the worker *)

(** A step is defined and keeps the invariant, but a peek between the flushes may be a race. *)
Definition worker_ok (s : machine) (j : nat) : Prop :=
  match weak_worker s j with
  | Some s' => exists waiting', machine_inv s' waiting'
  | None => m_worker s = WPeek Turn
  end.

Lemma core_bounds w pk waiting :
  core w pk waiting -> (seen (producer_thread w) < length (heads w))%nat /\ (seen (consumer_thread w) < length (tails w))%nat.
Proof. by intros (_ & _ & _ & _ & _ & _ & _ & _ & _ & _ & _ & _ & _ & Hp & Hs). Qed.

Lemma worker_top s waiting j :
  machine_inv s waiting -> m_worker s = WTop -> worker_may_read s j -> worker_ok s j.
Proof.
  intros M Hpc Hj. pose proof M as [C Hs F Hc Hw Ha]. unfold worker_ok, weak_worker, worker_may_read, asks in *.
  rewrite Hpc in *. destruct (lookup_lt_is_Some_2 (shutdown s) j) as [r Hr]; [lia|]. rewrite Hr. cbn [mbind option_bind].
  destruct (fl_shutdown _ F _ _ Hr) as [Hv Hp]. pose proof (fl_at_requested _ F) as [Hd Hl].
  exists waiting. apply (put_worker_inv s waiting); try done; [by apply core_acquire | lia | by rewrite Hpc | |].
  - unfold worker_inv. cbn. destruct (Z.eqb_spec (r_value r) 0) as [|Hne]; [done|].
    unfold client_inv in Hc. cbn. destruct (m_client s) eqn:Em.
    + destruct Hc as [_ Hc]. specialize (Hc ltac:(by rewrite Hpc)). destruct Hne. apply Hv. lia.
    + destruct Hc as (_ & _ & Hc & _). destruct Hne. apply Hv. lia.
    + destruct Hc as (_ & _ & r0 & r1 & Hsd & Hf). split; [done|]. rewrite Hsd in Hr.
      destruct j as [|[|j]]; [by destruct Hne; apply Hv| |by destruct j]. injection Hr as <-.
      apply caught_up_acquire; [done | by apply (core_bounds _ _ _ C)].
  - unfold asks. cbn. by destruct (r_value r =? 0).
Qed.

Lemma worker_load_req s waiting j :
  machine_inv s waiting -> m_worker s = WLoadReq -> worker_may_read s j -> worker_ok s j.
Proof.
  intros M Hpc Hj. pose proof M as [C Hs F Hc Hw Ha]. unfold worker_ok, weak_worker, worker_may_read, asks in *.
  rewrite Hpc in *. destruct (lookup_lt_is_Some_2 (requested s) j) as [r Hr]; [lia|]. rewrite Hr. cbn [mbind option_bind].
  destruct (fl_requested _ F _ _ Hr) as [Hv Hp]. pose proof (fl_at_requested _ F) as [Hd Hl].
  exists waiting. apply (put_worker_inv s waiting); try done; [by apply core_acquire | apply F | lia | lia | by rewrite Hpc |].
  unfold worker_inv. cbn. split; [done|]. rewrite Hv. intros Hlt. pose proof (newest_requested s F) as Hnew.
  unfold client_inv, settled in Hc. destruct (m_client s) as [|seq|] eqn:Em; [destruct Hc; exfalso; lia| |destruct Hc; exfalso; lia].
  destruct Hc as (-> & ? & _ & _ & (r' & Hlast & Hf) & _). assert (j = pred (length (requested s))) as -> by lia.
  rewrite last_lookup, Hr in Hlast. injection Hlast as <-. split_and!; try done; [f_equal; lia|].
  apply caught_up_acquire; [done | by apply (core_bounds _ _ _ C)].
Qed.

Lemma worker_peek s waiting p j :
  machine_inv s waiting -> m_worker s = WPeek p -> worker_may_read s j -> worker_ok s j.
Proof.
  intros M Hpc Hj. pose proof M as [C Hs F Hc Hw Ha]. unfold worker_ok, weak_worker, worker_may_read, asks, worker_inv in *.
  rewrite Hpc in *. destruct (core_peek s waiting j C Hj) as [Hok Hdef]. pose proof (fl_at_requested _ F) as [Hd Hl].
  assert (p <> Turn -> caught_up (mem s)) as Hup by (destruct p; cbn in Hw; tauto).
  assert (phase_inv (put_worker s (set_consumer_thread (mem s) (load_relaxed (consumer_thread (mem s)) j)) (peeked s)
    (at_shutdown s) (at_requested s) (completed s) (WPeek p) (received s)) p) as Hph.
  { destruct p; cbn in Hw |- *; [done| |]; (split_and!; try tauto);
      (eapply caught_up_more; [..|apply Hup; done]; cbn; unfold may_read in Hj; done || lia). }
  assert (forall pk, core (mem s) pk waiting ->
    core (set_consumer_thread (mem s) (load_relaxed (consumer_thread (mem s)) j)) pk waiting) as Hcore.
  { intros pk C'. destruct (core_bounds _ _ _ C) as [Hb1 Hb2]. unfold may_read in Hj.
    pose proof (core_threads _ pk waiting _ (load_relaxed (consumer_thread (mem s)) j) C' (knows_more_refl _)) as Hct.
    destruct (mem s). apply Hct; [|done|cbn in *; lia]. constructor; cbn in *; done || lia. }
  destruct (weak_peek (mem s) 2 j) as [[st out]|] eqn:Ew; cbn [mbind option_bind].
  - exists waiting. case_decide as Hst.
    + subst st. destruct (Hok out eq_refl) as (d & rest & -> & Hsize & C').
      apply (put_worker_inv s (d :: rest)); try done; [by apply Hcore | apply F | by rewrite Hpc | |].
      * unfold worker_inv. cbn. split; [by destruct p|]. eauto.
      * left. exact Ha.
    + apply (put_worker_inv s waiting); try done; [by apply Hcore | apply F | by rewrite Hpc | |].
      * unfold worker_inv. cbn. destruct p; [done| |]; (destruct Hdef as (st' & out' & [= <- <-] & Hiff); [left; by apply Hup|]);
          (assert (waiting = []) as -> by (destruct waiting; [done|]; by destruct Hst; apply Hiff)); [done|].
        by destruct Hph.
      * unfold asks. cbn. by destruct p.
  - destruct p; [done|exfalso..]; (destruct Hdef as (? & ? & ? & _); [left; by apply Hup | done]).
Qed.

(** Inside [dequeue_bytes]. *)
Lemma weak_worker_inside s p total j :
  m_worker s = WDequeue p total -> wc (mem s) <> CIdle ->
  weak_worker s j =
    '(e, w) ← weak_consumer (mem s) j;
    Some (match e with
          | Tau => worker_at s w (WDequeue p total)
          | Return _ st out =>
            if decide (st = kOk)
            then put_worker s w (peeked s) (at_shutdown s) (at_requested s) (completed s)
                   (after_one p) (received s ++ [out])
            else worker_at s w (after_empty p)
          end).
Proof. intros Hpc Hn. unfold weak_worker. rewrite Hpc. by destruct (wc (mem s)). Qed.

Lemma worker_dequeue_call s waiting p total j :
  machine_inv s waiting -> m_worker s = WDequeue p total -> wc (mem s) = CIdle -> worker_ok s j.
Proof.
  intros M Hpc Hidle. pose proof M as [C Hs F Hc Hw Ha]. unfold worker_ok, weak_worker, worker_inv in *.
  rewrite Hpc, Hidle in *. destruct Hw as (Hph & d & rest & -> & ->). pose proof (fl_at_requested _ F) as [Hd Hl].
  exists (d :: rest). pose proof C as (_ & _ & _ & _ & _ & _ & _ & _ & _ & _ & _ & Hf & _).
  inversion Hf as [|? ? Hdf]; subst. pose proof (framed_size d Hdf).
  apply (put_worker_inv s (d :: rest)); try done; [by apply core_call_dequeue; [..|lia] | apply F | by rewrite Hpc | | by right].
  unfold worker_inv. cbn. split; [by destruct p|]. eauto.
Qed.

Lemma worker_dequeue s waiting p total j :
  machine_inv s waiting -> m_worker s = WDequeue p total -> worker_may_read s j -> worker_ok s j.
Proof.
  intros M Hpc Hj. destruct (decide (asked (wc (mem s)) = None)) as [Hidle%asked_idle|Hask].
  { by eapply worker_dequeue_call. }
  pose proof M as [C Hs F Hc Hw Ha]. unfold worker_may_read, asks, worker_inv in *. rewrite Hpc in *.
  destruct Hw as (Hph & d & rest & -> & ->). pose proof (fl_at_requested _ F) as [Hd Hl].
  destruct Ha as [|Ha]; [done|].
  destruct (core_consumer (mem s) (peeked s) d rest j C Ha Hj) as (e & w & waiting' & Hw & C' & Hq & [Ft Fp Fpt Fh Fe] & Hnew).
  unfold worker_ok. rewrite (weak_worker_inside s p (lenZ d) j Hpc), Hw by (by intros E; rewrite E in Ha).
  destruct (weak_consumer_frame _ _ _ _ Hw Hj) as (_ & Hseen & Hkn). rewrite Ft in Hseen.
  assert (p <> Turn -> caught_up (mem s)) as Hup by (destruct p; cbn in Hph; tauto).
  assert (forall pc pk out, phase_inv (put_worker s w pk (at_shutdown s) (at_requested s) (completed s) pc out) p) as Hph'.
  { intros. destruct p; cbn in Hph |- *; [done| |]; (split_and!; try tauto);
      (eapply caught_up_more; [exact Ft | lia | lia | by apply Hup]). }
  cbn [mbind option_bind]. exists waiting'. destruct e as [|o st out]; cbn in Hq, Fe; [|case_decide as Hst].
  - subst waiting'. apply (put_worker_inv s (d :: rest)); try done; [apply F | by rewrite Hpc | |].
    + unfold worker_inv. cbn. split; [apply Hph' | eauto].
    + right. cbn. by rewrite Fe.
  - injection Hq as -> ->. apply (put_worker_inv s (out :: waiting')); try done; [by rewrite <- app_assoc | apply F | by rewrite Hpc | |].
    + unfold worker_inv. cbn. destruct p; [done | apply Hph'..].
    + unfold asks. cbn. destruct p; cbn; by rewrite (proj1 Fe).
  - subst waiting'. apply (put_worker_inv s (d :: rest)); try done; [apply F | by rewrite Hpc | |].
    + unfold worker_inv. cbn. unfold may_read in Hj.
      destruct p; [done|exfalso..]; (apply Hst, Hnew; destruct Hup as [Hlast _]; [done | lia]).
    + unfold asks. cbn. destruct p; cbn; by rewrite (proj1 Fe).
Qed.

(** [flush_completed_seq_] is stored. *)
Lemma completes_inv s waiting req pc :
  machine_inv s waiting -> newest (completed s) <= req <= Z.of_nat (at_requested s) ->
  (m_client s = CFlushWait req /\ waiting = [] \/ m_client s = CJoin /\ req = newest (requested s)) ->
  m_worker s <> WNone -> worker_inv (completes s req pc) waiting -> asks (completes s req pc) ->
  machine_inv (completes s req pc) waiting.
Proof.
  intros [C Hs F Hc Hw Ha] Hreq Hcl Hn Hw' Ha'. destruct (core_bounds _ _ _ C) as [Hb _]. constructor; try done.
  - destruct F as [F1 F2 F3 F4 F5 F6]. constructor; try done.
    + cbn. rewrite newest_snoc. apply Forall_app. split; [|apply Forall_singleton; cbn; lia].
      eapply Forall_impl; [exact F2|]. cbn. intros r [? ?]. lia.
    + cbn. rewrite newest_snoc. cbn. lia.
    + cbn. rewrite length_app. cbn. lia.
  - unfold client_inv, settled in *. cbn. rewrite newest_snoc. cbn. destruct Hcl as [[Em Hempty]|[Em Hr]]; rewrite Em in *.
    + destruct Hc as (? & ? & ? & ? & ? & ?). split_and!; try done. lia.
    + destruct Hc as [_ Hc]. by split.
Qed.

Lemma worker_store s waiting req j :
  machine_inv s waiting -> m_worker s = WStore req \/ m_worker s = WFinalStore req -> worker_ok s j.
Proof.
  intros M Hpc. pose proof M as [C Hs F Hc Hw Ha]. unfold worker_ok, weak_worker, asks, worker_inv in *.
  destruct Hpc as [Hpc|Hpc]; rewrite Hpc in *; exists waiting.
  - destruct Hw as [(? & ? & ? & ?) ?]. apply completes_inv; try done; [lia | by left | by rewrite Hpc].
  - destruct Hw as (Hcl & Hempty & ? & Hr). apply completes_inv; try done; [|by right|by rewrite Hpc].
    unfold client_inv, settled in Hc. rewrite Hcl in Hc. destruct Hc as [Hc _]. lia.
Qed.

Lemma worker_final_load s waiting j :
  machine_inv s waiting -> m_worker s = WFinalLoad -> worker_may_read s j -> worker_ok s j.
Proof.
  intros M Hpc Hj. pose proof M as [C Hs F Hc Hw Ha]. unfold worker_ok, weak_worker, worker_may_read, asks, worker_inv in *.
  rewrite Hpc in *. destruct (lookup_lt_is_Some_2 (requested s) j) as [r Hr]; [lia|]. rewrite Hr. cbn [mbind option_bind].
  destruct (fl_requested _ F _ _ Hr) as [Hv Hp]. pose proof (fl_at_requested _ F) as [Hd Hl]. destruct Hw as [Hcl Hempty].
  exists waiting. apply (put_worker_inv s waiting); try done; [by apply core_acquire | apply F | lia | lia | by rewrite Hpc |].
  unfold worker_inv. cbn. pose proof (newest_requested s F) as Hnew. unfold client_inv, settled in Hc. rewrite Hcl in Hc.
  destruct Hc as [Hc _]. split_and!; done || lia.
Qed.

Lemma worker_local s waiting j :
  machine_inv s waiting -> (exists req, m_worker s = WLoadDone req) \/ (exists b, m_worker s = WPoll b) -> worker_ok s j.
Proof.
  intros M Hpc. pose proof M as [C Hs F Hc Hw Ha]. unfold worker_ok, weak_worker, asks, worker_inv in *.
  pose proof (fl_at_requested _ F) as [Hd Hl]. destruct Hpc as [[req Hpc]|[b Hpc]]; rewrite Hpc in *; exists waiting;
    apply (put_worker_inv s waiting); try done; try apply F; try (by rewrite Hpc).
  unfold worker_inv. cbn. destruct (Z.ltb_spec (newest (completed s)) req); [|done]. by apply Hw.
Qed.

Lemma weak_worker_ok s waiting j :
  machine_inv s waiting -> m_worker s <> WNone -> m_worker s <> WExited -> worker_may_read s j -> worker_ok s j.
Proof.
  intros M Hn Hx Hj. destruct (m_worker s) as [| | |req|p|p total|req|b| |req|] eqn:Hpc; try done;
    eauto using worker_top, worker_load_req, worker_peek, worker_dequeue, worker_store, worker_final_load, worker_local.
Qed.

(** ** The steps of the client *)

(** Between the calls of its client the worker is not in a flush. *)
Lemma idle_worker s s' waiting more :
  m_client s = ClientIdle -> m_worker s <> WNone -> worker_inv s waiting ->
  m_worker s' = m_worker s -> at_requested s' = at_requested s -> completed s' = completed s ->
  worker_inv s' (waiting ++ more).
Proof.
  unfold worker_inv. intros Hcl Hn Hw -> Hrq Hcp. rewrite <- Hrq, <- Hcp in *.
  destruct (m_worker s) as [| | |req|p|p total|req|b| |req|]; try done.
  - destruct Hw as [? Hd]. split; [done|]. intros Hlt. destruct (Hd Hlt) as (_ & _ & ? & _). congruence.
  - destruct p; [done|..]; cbn in *; intuition congruence.
  - destruct Hw as (Hph & d & rest & -> & ->). split; [|by exists d, (rest ++ more)].
    destruct p; [done|..]; cbn in *; intuition congruence.
  - destruct Hw as [(_ & _ & ? & _) _]. congruence.
  - destruct Hw. congruence.
  - destruct Hw. congruence.
  - destruct Hw. congruence.
Qed.

Lemma asks_same s s' : m_worker s' = m_worker s -> wc (mem s') = wc (mem s) -> asks s -> asks s'.
Proof. unfold asks. by intros -> ->. Qed.

Lemma enqueue_call_inv s waiting d :
  machine_inv s waiting -> m_client s = ClientIdle -> m_worker s <> WNone -> wp (mem s) = PIdle -> framed d ->
  machine_inv (put_client s (put_producer (mem s) (wq (mem s)) (tails (mem s)) (written (mem s))
    (producer_thread (mem s)) (PStart d)) (shutdown s) (requested s) (at_completed s) ClientIdle (sent s)) waiting.
Proof.
  intros [C Hs F Hc Hw Ha] Hcl Hn Hp Hd. constructor; try done.
  - by apply core_call_enqueue.
  - destruct F. by constructor.
  - unfold client_inv in *. by rewrite Hcl in Hc.
  - rewrite <- (app_nil_r waiting). by eapply idle_worker.
Qed.

Lemma enqueue_inv s waiting j :
  machine_inv s waiting -> wp (mem s) <> PIdle -> may_read (heads (mem s)) (producer_thread (mem s)) j ->
  exists s' waiting', weak_enqueue s j = Some s' /\ machine_inv s' waiting'.
Proof.
  intros [C Hs F Hc Hw Ha] Hp Hj.
  destruct (core_producer (mem s) (peeked s) waiting j C Hp Hj) as (Hpk & e & w & Hstep & C' & [Fh Fc Fct Ft Fe]).
  unfold weak_enqueue. rewrite (Hpk s eq_refl eq_refl), Hstep. cbn [mbind option_bind].
  eexists _, (enqueued e waiting). split; [done|].
  assert (m_client s = ClientIdle) as Hcl.
  { unfold client_inv in Hc. destruct (m_client s); [done|..]; tauto. }
  assert (m_worker s <> WNone) as Hn.
  { intros Hn. unfold worker_inv in Hw. rewrite Hn in Hw. tauto. }
  assert (exists more, enqueued e waiting = waiting ++ more /\
    (match e with Return (Fifo.Enqueue d) kOk _ => sent s ++ [d] | _ => sent s end) = sent s ++ more) as (more & He & He').
  { destruct e as [|[d|n] st out]; [|destruct st|]; try (exists []; by rewrite !app_nil_r). by exists [d]. }
  rewrite He in C' |- *. rewrite He'. apply prefix_length in Ft as Hlen. constructor; try done; cbn.
  - by rewrite Hs, app_assoc.
  - destruct F as [F1 F2 F3 F4 F5 F6]. constructor; cbn; rewrite ?Fh; try done.
    + intros i r Hr. destruct (F1 i r Hr). split; [done|lia].
    + intros i r Hr. destruct (F3 i r Hr). split; [done|lia].
  - unfold client_inv in *. cbn. by rewrite Hcl in *.
  - by eapply idle_worker.
  - by apply (asks_same s).
Qed.

(** The store of a flag between two calls carries everything. *)
Lemma store_release_fresh w pk waiting v :
  core w pk waiting -> wp w = PIdle -> fresh w (store_release (producer_thread w) (tails w) v).
Proof.
  intros (k & buf & T & H & hs & ts & s & I & B & _ & _ & _ & _ & _ & Ht) Hp. unfold fresh, store_release. cbn.
  split; [lia|]. rewrite (bo_tails _ _ B), (wi_tails _ _ _ _ _ _ _ I), (km_accesses _ _ (bo_producer _ _ B)).
  unfold published. apply Forall_fmap, Forall_lookup. intros j p Hj. cbn.
  apply (sd_clocks _ _ _ _ _ _ _ _ _ (wi_ts I) _ _ Hj).
Qed.

Lemma flush_inv_ok s waiting :
  machine_inv s waiting -> m_client s = ClientIdle -> m_worker s <> WNone -> wp (mem s) = PIdle ->
  Z.of_nat (S (length (requested s))) <= 2 ^ 64 ->
  let seq := u64 (newest (requested s) + 1) in
  machine_inv (put_client s (mem s) (shutdown s)
    (requested s ++ [store_release (producer_thread (mem s)) (tails (mem s)) seq])
    (at_completed s) (CFlushWait seq) (sent s)) waiting.
Proof.
  intros [C Hs F Hc Hw Ha] Hcl Hn Hp Hlen seq. pose proof (newest_requested s F) as Hnew.
  assert (seq = Z.of_nat (length (requested s))) as Hseq by (unfold seq; rewrite u64_small; lia).
  pose proof (store_release_fresh _ _ _ seq C Hp) as Hf. constructor; try done.
  - destruct F as [F1 F2 F3 F4 F5 F6]. constructor; try done; cbn.
    + intros i r [Hr|[Hi Hr]]%lookup_app_Some; [by apply F1|].
      destruct (i - length (requested s))%nat as [|n] eqn:En; [|by destruct n]. injection Hr as <-. cbn.
      split; [lia|]. destruct (core_bounds _ _ _ C). lia.
    + rewrite length_app. cbn. lia.
  - unfold client_inv, settled in *. rewrite Hcl in Hc. cbn. rewrite newest_snoc. cbn. destruct Hc as [Hc Hsd].
    split_and!; try done; [lia | by apply Hsd | eexists; by rewrite last_snoc | lia].
  - rewrite <- (app_nil_r waiting). by eapply idle_worker.
Qed.

Lemma stop_inv s waiting :
  machine_inv s waiting -> m_client s = ClientIdle -> m_worker s <> WNone -> wp (mem s) = PIdle ->
  machine_inv (put_client s (mem s)
    (shutdown s ++ [store_release (producer_thread (mem s)) (tails (mem s)) 1])
    (requested s) (at_completed s) CJoin (sent s)) waiting.
Proof.
  intros [C Hs F Hc Hw Ha] Hcl Hn Hp. pose proof (store_release_fresh _ _ _ 1 C Hp) as Hf.
  unfold client_inv in Hc. rewrite Hcl in Hc. destruct Hc as [Hc Hsd]. specialize (Hsd Hn). constructor; try done.
  - destruct F as [F1 F2 F3 F4 F5 F6]. constructor; try done; cbn.
    + intros i r [Hr|[Hi Hr]]%lookup_app_Some; [by apply F3|].
      destruct (i - length (shutdown s))%nat as [|n] eqn:En; [|by destruct n]. injection Hr as <-. cbn.
      destruct (core_bounds _ _ _ C). split; [|lia]. split; [done | lia].
    + rewrite length_app. cbn. lia.
  - unfold client_inv. cbn. destruct (shutdown s) as [|r0 [|]]; try done. split_and!; try done. by eexists _, _.
  - rewrite <- (app_nil_r waiting). by eapply idle_worker.
Qed.

Lemma wait_inv s waiting seq j :
  machine_inv s waiting -> m_client s = CFlushWait seq -> (at_completed s <= j < length (completed s))%nat ->
  exists r, completed s !! j = Some r /\ (seq <= r_value r -> waiting = []) /\
    exists s', weak_wait s seq j = Some s' /\ machine_inv s' waiting.
Proof.
  intros [C Hs F Hc Hw Ha] Hcl Hj. destruct (lookup_lt_is_Some_2 (completed s) j) as [r Hr]; [lia|].
  unfold client_inv, settled in Hc. rewrite Hcl in Hc. destruct Hc as (Hseq & Hd1 & Hsd & Hp & Hf & Hempty).
  destruct (proj1 (Forall_lookup _ _) (fl_completed _ F) _ _ Hr) as [Hv Hpos].
  exists r. split; [done|]. split; [intros; apply Hempty; lia|].
  unfold weak_wait. rewrite Hr. cbn [mbind option_bind]. eexists. split; [done|].
  pose proof (fl_at_requested _ F) as [Hd Hl]. pose proof (newest_requested s F) as Hnew.
  constructor; try done.
  - by apply core_client_acquire.
  - destruct F as [F1 F2 F3 F4 F5 F6]. constructor; try done; cbn. lia.
  - unfold client_inv, settled. cbn. destruct (Z.ltb_spec (r_value r) seq); [by split_and!|]. split; [lia|done].
  - unfold worker_inv in *. cbn. destruct (m_worker s) as [| | |req|p|p total|req|b| |req|]; try done;
      try (destruct Hw; congruence); cbn in *; rewrite ?Hcl in *.
    + destruct Hw as [? Hw]. split; [done|]. intros Hlt. destruct (Hw Hlt) as (_ & _ & [= <-] & Hup).
      rewrite (proj2 (Z.ltb_lt _ _)) by lia. by split_and!.
    + destruct p; [done| |]; cbn in *; rewrite ?Hcl in *; [|by destruct Hw].
      destruct Hw as (? & ? & [= <-] & ?). rewrite (proj2 (Z.ltb_lt _ _)) by lia. by split_and!.
    + destruct Hw as [Hw ?]. split; [|done]. destruct p; [done| |]; cbn in *; rewrite ?Hcl in *; [|by destruct Hw].
      destruct Hw as (? & ? & [= <-] & ?). rewrite (proj2 (Z.ltb_lt _ _)) by lia. by split_and!.
    + destruct Hw as [(? & ? & [= <-] & ?) ?]. rewrite (proj2 (Z.ltb_lt _ _)) by lia. by split_and!.
Qed.

Lemma join_inv s waiting :
  machine_inv s waiting -> m_client s = CJoin -> m_worker s = WExited ->
  let r := store_release (consumer_thread (mem s)) (heads (mem s)) 0 in
  machine_inv (put_client (worker_at s (client_acquire (mem s) r) WNone) (client_acquire (mem s) r)
    (shutdown s) (requested s) (pred (length (completed s))) ClientIdle (sent s)) waiting.
Proof.
  intros [C Hs F Hc Hw Ha] Hcl Hx r. destruct (core_bounds _ _ _ C) as [Hb _].
  unfold client_inv, settled, worker_inv, asks in *. rewrite Hcl, Hx in *. destruct Hc as (Hc & Hp & _), Hw as [_ Hempty].
  constructor; try done.
  - apply core_client_acquire; [done|]. cbn. lia.
  - destruct F as [F1 F2 F3 F4 F5 F6]. constructor; try done; cbn. lia.
Qed.

(** ** Executions *)

Lemma weak_worker_requested s j s' : weak_worker s j = Some s' -> requested s' = requested s.
Proof.
  unfold weak_worker. destruct (m_worker s); intros Hs; try done; repeat (bind_inv Hs; case_match);
    simplify_eq/=; try done; bind_inv Hs; repeat case_match; by simplify_eq/=.
Qed.

Lemma weak_worker_lives s j s' : weak_worker s j = Some s' -> m_worker s <> WNone /\ m_worker s <> WExited.
Proof. unfold weak_worker. by destruct (m_worker s). Qed.

Lemma machine_step_requested s s' : machine_step s s' -> (length (requested s) <= length (requested s'))%nat.
Proof.
  intros Hs. destruct Hs as [s j s' _ Hs| |s j s' _ _ Hs| |s seq j s' _ _ Hs| |]; cbn; try done.
  - by rewrite (weak_worker_requested _ _ _ Hs).
  - unfold weak_enqueue in Hs. case_match; [|done]. bind_inv Hs. case_match. by simplify_eq/=.
  - rewrite length_app. lia.
  - unfold weak_wait in Hs. bind_inv Hs. by simplify_eq/=.
Qed.

Lemma machine_step_inv s s' waiting :
  machine_inv s waiting -> machine_step s s' -> Z.of_nat (length (requested s')) <= 2 ^ 64 ->
  exists waiting', machine_inv s' waiting'.
Proof.
  intros M Hs Hlen. destruct Hs as [s j s' Hj Hs|s d Hcl Hn Hp Hd|s j s' Hp Hj Hs|s Hcl Hn Hp seq|s seq j s' Hcl Hj Hs
    |s Hcl Hn Hp|s Hcl Hx].
  - destruct (weak_worker_lives _ _ _ Hs) as [H1 H2].
    pose proof (weak_worker_ok s waiting j M H1 H2 Hj) as Hok. unfold worker_ok in Hok. by rewrite Hs in Hok.
  - exists waiting. by apply enqueue_call_inv.
  - destruct (enqueue_inv s waiting j M Hp Hj) as (s1 & waiting' & Hs1 & M'). rewrite Hs in Hs1. injection Hs1 as <-.
    by exists waiting'.
  - exists waiting. cbn in Hlen. rewrite length_app in Hlen. cbn in Hlen. apply flush_inv_ok; done || lia.
  - destruct (wait_inv s waiting seq j M Hcl Hj) as (r & _ & _ & s1 & Hs1 & M'). rewrite Hs in Hs1. injection Hs1 as <-.
    by exists waiting.
  - exists waiting. by apply stop_inv.
  - exists waiting. by apply join_inv.
Qed.

Lemma machine_start_inv q : rested q -> spsc_contents q = [] -> machine_inv (machine_start q) [].
Proof.
  intros Hr Hc. destruct (weak_start_ok q Hr) as (k & buf & T & H & hs & ts & I). constructor; try done.
  - exists k, buf, T, H, hs, ts, (weak_start q). split; [done|]. split; [apply boosted_refl|].
    split; [|split_and!; try done; cbn; lia]. pose proof (wf_capacity _ _ _ (wi_wf I)) as Hcap. cbn in Hcap |- *.
    destruct (inv_cap _ _ _ _ _ _ _ I) as [_ Hc2]. split.
    + unfold lenZ. rewrite length_replicate, Hcap. lia.
    + intros a n [-> _]%lookup_replicate. by left.
  - constructor; cbn; try lia.
    + intros [|i] r Hi; [|by destruct i]. injection Hi as <-. cbn. lia.
    + apply Forall_singleton. cbn. split; [done|lia].
    + intros [|i] r Hi; [|by destruct i]. injection Hi as <-. cbn. lia.
    + split; [done|lia].
Qed.

Lemma machine_exec_inv q s :
  rested q -> spsc_contents q = [] -> machine_exec (machine_start q) s ->
  Z.of_nat (length (requested s)) <= 2 ^ 64 -> exists waiting, machine_inv s waiting.
Proof.
  intros Hr Hc Hx. remember (machine_start q) as s0 eqn:E. induction Hx as [s|s s1 s2 Hx IH Hs]; intros Hlen; subst.
  - exists []. by apply machine_start_inv.
  - pose proof (machine_step_requested _ _ Hs) as Hle. destruct (IH eq_refl ltac:(lia)) as [waiting M].
    by apply (machine_step_inv s1 s2 waiting M Hs Hlen).
Qed.

(** The newest store is always there to be read. *)
Lemma worker_reads s waiting : machine_inv s waiting -> exists j, worker_may_read s j.
Proof.
  intros [C _ F _ _ _]. destruct (core_bounds _ _ _ C) as [_ Ht]. pose proof (fl_at_shutdown _ F).
  pose proof (fl_at_requested _ F) as [_ ?]. unfold worker_may_read, may_read.
  destruct (m_worker s); by eexists.
Qed.

(** ** Properties *)

Section properties.
Context (alloc : Z -> option bytes) (n : Z) (q : SpscQueue).
Context (Ha : alloc_sized alloc) (Hn : 0 <= n <= 2 ^ 63) (Hr : reserve alloc n = Some q) (Hb : buffer_ q <> None).

(** C5. The memory orders of the worker suffice for [flush] and [stop]. Whatever old values of the
    indices and of the flags the loads of the two threads give: the records that [dequeue_bytes] took
    are the first of those that [enqueue_bytes] put in, and the others wait; a thread that has a next
    step can take it, whatever it reads, with one exception; a [flush] that reads the number it waits
    for, and a worker that has exited, leave no record in the queue. The exception is the peek of a
    turn of the loop outside the flushes, which may be a data race; within a flush, and after the
    shutdown is seen, the peek cannot be one, because the flag that the worker has acquired carries
    every tail that it looks at. *)
Theorem worker_release_acquire s :
  machine_exec (machine_start q) s -> Z.of_nat (length (requested s)) <= 2 ^ 64 ->
  (exists waiting, sent s = received s ++ waiting /\ spsc_contents (wq (mem s)) = concat waiting) /\
  (m_worker s <> WNone -> m_worker s <> WExited -> m_worker s <> WPeek Turn ->
     (exists j, worker_may_read s j) /\ forall j, worker_may_read s j -> is_Some (weak_worker s j)) /\
  (forall j, wp (mem s) <> PIdle -> may_read (heads (mem s)) (producer_thread (mem s)) j -> is_Some (weak_enqueue s j)) /\
  (forall seq j r, m_client s = CFlushWait seq -> (at_completed s <= j)%nat -> completed s !! j = Some r ->
     seq <= r_value r -> received s = sent s) /\
  (m_worker s = WExited \/ m_worker s = WNone -> received s = sent s).
Proof.
  intros Hx Hlen. destruct (reserve_rested alloc n q Ha Hn Hr Hb) as [Hrest Hc].
  destruct (machine_exec_inv q s Hrest Hc Hx Hlen) as [waiting M]. pose proof M as [C Hs F Hcl Hw _].
  assert (waiting = [] -> received s = sent s) as Hempty by (intros ->; by rewrite Hs, app_nil_r).
  split_and!.
  - exists waiting. split; [done|]. by destruct C as (? & ? & ? & ? & ? & ? & ? & _ & _ & _ & ? & _).
  - intros H1 H2 H3. split; [by eapply worker_reads|]. intros j Hj.
    pose proof (weak_worker_ok s waiting j M H1 H2 Hj) as Hok. unfold worker_ok in Hok. by destruct (weak_worker s j).
  - intros j Hp Hj. destruct (enqueue_inv s waiting j M Hp Hj) as (s' & _ & -> & _). by eexists.
  - intros seq j r Hf Hj Hr0 Hle. apply Hempty.
    destruct (wait_inv s waiting seq j M Hf) as (r' & Hr' & Hd & _); [split; [done | by eapply lookup_lt_Some]|].
    rewrite Hr0 in Hr'. injection Hr' as <-. auto.
  - unfold worker_inv in Hw. intros [E|E]; rewrite E in Hw; apply Hempty; tauto.
Qed.
End properties.

(** ** Examples *)

(** A schedule: the worker, or the client inside a call, loads store number [j]. *)
Inductive turn := Work (j : nat) | Client (j : nat) | Enqueue | Flush | Wait (j : nat) | Stop.

Definition among (lo hi j : nat) : bool := (lo <=? j)%nat && (j <? hi)%nat.

Definition worker_may_read_b (s : machine) (j : nat) : bool :=
  match m_worker s with
  | WTop => among (at_shutdown s) (length (shutdown s)) j
  | WLoadReq | WFinalLoad => among (at_requested s) (length (requested s)) j
  | _ => among (seen (consumer_thread (mem s))) (length (tails (mem s))) j
  end.

Definition free_client (s : machine) : bool :=
  match m_client s, m_worker s, wp (mem s) with
  | ClientIdle, WNone, _ => false
  | ClientIdle, _, PIdle => true
  | _, _, _ => false
  end.

Section play.
Context (d : bytes) (Hd : framed d).

Definition play_turn (s : machine) (t : turn) : option machine :=
  match t with
  | Work j => if worker_may_read_b s j then weak_worker s j else None
  | Client j =>
    match calling (wp (mem s)) with
    | Some _ =>
      if among (seen (producer_thread (mem s))) (length (heads (mem s))) j then weak_enqueue s j else None
    | None => None
    end
  | Enqueue =>
    if free_client s
    then Some (put_client s (put_producer (mem s) (wq (mem s)) (tails (mem s)) (written (mem s))
                               (producer_thread (mem s)) (PStart d))
                 (shutdown s) (requested s) (at_completed s) ClientIdle (sent s))
    else None
  | Flush =>
    let seq := u64 (newest (requested s) + 1) in
    if free_client s
    then Some (put_client s (mem s) (shutdown s)
                 (requested s ++ [store_release (producer_thread (mem s)) (tails (mem s)) seq])
                 (at_completed s) (CFlushWait seq) (sent s))
    else None
  | Wait j =>
    match m_client s with
    | CFlushWait seq => if among (at_completed s) (length (completed s)) j then weak_wait s seq j else None
    | _ => None
    end
  | Stop =>
    if free_client s
    then Some (put_client s (mem s) (shutdown s ++ [store_release (producer_thread (mem s)) (tails (mem s)) 1])
                 (requested s) (at_completed s) CJoin (sent s))
    else None
  end.

Fixpoint play (s : machine) (ts : list turn) : option machine :=
  match ts with [] => Some s | t :: ts => s' ← play_turn s t; play s' ts end.

Lemma among_spec lo hi j : among lo hi j = true -> (lo <= j < hi)%nat.
Proof. unfold among. rewrite andb_true_iff, Nat.leb_le, Nat.ltb_lt. lia. Qed.

Lemma free_client_spec s :
  free_client s = true -> m_client s = ClientIdle /\ m_worker s <> WNone /\ wp (mem s) = PIdle.
Proof. unfold free_client. by destruct (m_client s), (m_worker s), (wp (mem s)). Qed.

Lemma worker_may_read_spec s j : worker_may_read_b s j = true -> worker_may_read s j.
Proof.
  unfold worker_may_read, worker_may_read_b. intros E. by destruct (m_worker s); apply among_spec in E.
Qed.

Lemma play_turn_step s t s' : play_turn s t = Some s' -> machine_step s s'.
Proof.
  destruct t as [j|j| | |j|]; cbn; intros Hs.
  - destruct (worker_may_read_b s j) eqn:E; [|done]. apply (worker_moves s j); [|done].
    by apply worker_may_read_spec.
  - destruct (calling (wp (mem s))) eqn:Ec; [|done]. destruct (among _ _ j) eqn:E; [|done]. apply among_spec in E.
    apply (client_moves s j); [|done..]. by intros Hp; rewrite Hp in Ec.
  - destruct (free_client s) eqn:E; [|done]. apply free_client_spec in E as (? & ? & ?). injection Hs as <-.
    by apply client_enqueue.
  - destruct (free_client s) eqn:E; [|done]. apply free_client_spec in E as (? & ? & ?). injection Hs as <-.
    by apply client_flush.
  - destruct (m_client s) as [|seq|] eqn:Em; try done. destruct (among _ _ j) eqn:E; [|done]. apply among_spec in E.
    by eapply client_waits.
  - destruct (free_client s) eqn:E; [|done]. apply free_client_spec in E as (? & ? & ?). injection Hs as <-.
    by apply client_stop.
Qed.

Lemma play_exec s0 s ts s' : machine_exec s0 s -> play s ts = Some s' -> machine_exec s0 s'.
Proof.
  revert s. induction ts as [|t ts IH]; cbn; intros s Hx Hp; [by injection Hp as <-|].
  destruct (play_turn s t) as [s1|] eqn:E; [|done]. cbn in Hp. apply (IH s1); [|done].
  eapply machine_snoc; [exact Hx | by eapply play_turn_step].
Qed.
End play.

(** A queue for two records, and an entry with one byte of payload. *)
Definition small_ring : SpscQueue := default spsc_new (reserve zero_alloc 64).

Definition small_entry : bytes :=
  default [] (create (replicate 25 Byte.x00) 7 kLiteralLogStringId kInfo 5 (bs "x") 1).

Lemma small_entry_framed : framed small_entry.
Proof.
  exists 7, kLiteralLogStringId, kInfo, 5, (bs "x"). split; [|split; [reflexivity | done]].
  constructor; try reflexivity. exists (take 24 small_entry), []. split; reflexivity.
Qed.

(** The record is enqueued and a flush requested; the worker still reads that nothing is. *)
Definition flush_schedule : list turn :=
  Enqueue :: repeat (Client 0) 27 ++ Flush :: [Work 0; Work 0; Work 0].

(** Then it looks again: it finds the request, dequeues the record and completes the flush. *)
Definition drain_schedule : list turn :=
  [Work 0; Work 0; Work 0; Work 1; Work 1] ++ repeat (Work 1) 32.

Lemma small_play ts s : play small_entry (machine_start small_ring) ts = Some s -> machine_exec (machine_start small_ring) s.
Proof. apply (play_exec small_entry small_entry_framed). apply machine_nil. Qed.

Definition reached (ts : list turn) : machine :=
  default (machine_start small_ring) (play small_entry (machine_start small_ring) ts).

(** Between the flushes a peek that finds the new record is a data race: nothing was acquired. *)
Lemma turn_peek_races : exists s,
  machine_exec (machine_start small_ring) s /\ m_worker s = WPeek Turn /\ worker_may_read s 1 /\ weak_worker s 1 = None.
Proof.
  exists (reached flush_schedule). split; [apply (small_play flush_schedule); vm_compute; reflexivity|].
  split; [vm_compute; reflexivity|]. split; [apply worker_may_read_spec; vm_compute; reflexivity | vm_compute; reflexivity].
Qed.

Definition drained : machine := reached (flush_schedule ++ drain_schedule).

Lemma drained_reached : machine_exec (machine_start small_ring) drained.
Proof. apply (small_play (flush_schedule ++ drain_schedule)). vm_compute. reflexivity. Qed.

Lemma drained_completed : exists r, completed drained !! 1%nat = Some r /\ r_value r = 1.
Proof. eexists. split; vm_compute; reflexivity. Qed.

Lemma worker_release_acquire_witness :
  m_client drained = CFlushWait 1 /\ received drained = [small_entry] /\ received drained = sent drained.
Proof.
  split; [vm_compute; reflexivity|]. split; [vm_compute; reflexivity|].
  destruct (worker_release_acquire zero_alloc 64 small_ring zero_alloc_sized ltac:(lia) ltac:(reflexivity)
    ltac:(discriminate) drained drained_reached ltac:(vm_compute; discriminate)) as (_ & _ & _ & Hflush & _).
  destruct drained_completed as (r & Hr & Hv).
  apply (Hflush 1 1%nat r); [vm_compute; reflexivity | vm_compute; lia | exact Hr | by rewrite Hv].
Defined.
