(* ===== verification/InternalLogger.v ===== *)
(** * The logger

    src/src/include/femtolog/logging/impl/internal_logger.h, src/src/logging/impl/internal_logger.cc
    and the facade src/src/include/femtolog/logger.h: a log call filters by level, builds an entry
    in [entry_buffer_] from the literal or from the serialized arguments, and enqueues it. The
    template arguments of a call site (level, format, argument types) are arguments here. *)

From S2P Require Import Prelude ByteQueue SpscQueue LogEntry StringRegistry Serializer.
From S2P Require Import SinkInterface BackendWorker.

Section logger.
Context {Q : Type} {BQ : ByteQueue Q} {Sk : Type} {SB : SinkBase Sk} {CI : CodeImage}.

(** The capacity of [ArgsSerializer<>]. *)
Definition kSerializerCapacity : Z := 2048.

Record InternalLogger := {
  level_ : LogLevel;
  thread_id_ : Z;
  enqueued_count_ : Z;
  dropped_count_ : Z;
  string_registry_ : StringRegistry;
  serializer_args : bytes;
  queue_ : Q;
  entry_buffer_ : bytes;
  backend_worker_ : BackendWorker (Sk := Sk);
  terminate_on_fatal_ : bool;
}.

(** A log call returns, or ends the program after stopping the worker. *)
Inductive outcome := Returned (l : InternalLogger) | Terminated (l : InternalLogger).

Definition after (o : outcome) : InternalLogger := match o with Returned l | Terminated l => l end.

(** ** Set-up *)

(** [static_cast<uint32_t>(hash_val) | 1]. *)
Definition current_thread_id (hash_val : Z) : Z := Z.lor (u32 hash_val) 1.

Definition logger_new (thread_hash : Z) (q : Q) (args entry : bytes) : InternalLogger :=
  {| level_ := kInfo; thread_id_ := current_thread_id thread_hash; enqueued_count_ := 0;
     dropped_count_ := 0; string_registry_ := registry_new; serializer_args := args; queue_ := q;
     entry_buffer_ := entry; backend_worker_ := worker_new; terminate_on_fatal_ := true |}.

(** [reserve] is that of the queue class. *)
Definition logger_init (reserve : Z -> option Q) (l : InternalLogger) (options : FemtologOptions)
    (format_capacity : Z) : option InternalLogger :=
  q ← reserve (spsc_queue_size options);
  Some {| level_ := level_ l; thread_id_ := thread_id_ l; enqueued_count_ := enqueued_count_ l;
     dropped_count_ := dropped_count_ l; string_registry_ := string_registry_ l;
     serializer_args := serializer_args l; queue_ := q; entry_buffer_ := entry_buffer_ l;
     backend_worker_ :=
       if decide (status_ (backend_worker_ l) = kWorkerUninitialized)
       then worker_init (backend_worker_ l) options format_capacity else backend_worker_ l;
     terminate_on_fatal_ := terminate_on_fatal options |}.

Definition set_counts (l : InternalLogger) (enq drop : Z) : InternalLogger :=
  {| level_ := level_ l; thread_id_ := thread_id_ l; enqueued_count_ := enq;
     dropped_count_ := drop; string_registry_ := string_registry_ l;
     serializer_args := serializer_args l; queue_ := queue_ l; entry_buffer_ := entry_buffer_ l;
     backend_worker_ := backend_worker_ l; terminate_on_fatal_ := terminate_on_fatal_ l |}.

Definition set_memory (l : InternalLogger) (registry : StringRegistry) (args : bytes) (q : Q)
    (entry : bytes) : InternalLogger :=
  {| level_ := level_ l; thread_id_ := thread_id_ l; enqueued_count_ := enqueued_count_ l;
     dropped_count_ := dropped_count_ l; string_registry_ := registry;
     serializer_args := args; queue_ := q; entry_buffer_ := entry;
     backend_worker_ := backend_worker_ l; terminate_on_fatal_ := terminate_on_fatal_ l |}.

Definition set_level (l : InternalLogger) (lv : LogLevel) : InternalLogger :=
  {| level_ := lv; thread_id_ := thread_id_ l; enqueued_count_ := enqueued_count_ l;
     dropped_count_ := dropped_count_ l; string_registry_ := string_registry_ l;
     serializer_args := serializer_args l; queue_ := queue_ l; entry_buffer_ := entry_buffer_ l;
     backend_worker_ := backend_worker_ l; terminate_on_fatal_ := terminate_on_fatal_ l |}.

Definition reset_count (l : InternalLogger) : InternalLogger := set_counts l 0 0.

(** [Logger::level(const char* )]. *)
Definition set_level_by_name (l : InternalLogger) (str : bytes) : option InternalLogger :=
  new_level ← log_level_from_string str;
  Some (if decide (new_level <> kUnknown) then set_level l new_level else l).

(** ** Logging *)

(** [entry] is the memory of [entry_buffer_]. *)
Definition enqueue_log_entry (l : InternalLogger) (entry : bytes) : option outcome :=
  entry_size ← total_size entry;
  data ← mem_load entry 0 entry_size;
  '(result, q) ← bq_enqueue (queue_ l) data;
  let l1 := set_memory l (string_registry_ l) (serializer_args l) q entry in
  let l2 :=
    if decide (result = kOk)
    then set_counts l1 (u64 (enqueued_count_ l1 + 1)) (dropped_count_ l1)
    else set_counts l1 (enqueued_count_ l1) (u64 (dropped_count_ l1 + 1)) in
  lv ← entry_level entry;
  Some (if bool_decide (lv = kFatal) && terminate_on_fatal_ l2 then Terminated l2 else Returned l2).

Definition drop_call (l : InternalLogger) : InternalLogger :=
  set_counts l (enqueued_count_ l) (u64 (dropped_count_ l + 1)).

Definition log_literal (l : InternalLogger) (level : LogLevel) (text : bytes) : option outcome :=
  if kMaxPayloadSize <=? lenZ text then Some (Returned (drop_call l))
  else
    entry ← create (entry_buffer_ l) (thread_id_ l) kLiteralLogStringId level 0 text (lenZ text);
    enqueue_log_entry l entry.

Definition log_serialized (l : InternalLogger) (level : LogLevel) (format_id : Z)
    (serialized : bytes) (size : Z) : option outcome :=
  if (kMaxPayloadSize <=? size) || (size =? 0) then Some (Returned (drop_call l))
  else
    entry ← create (entry_buffer_ l) (thread_id_ l) format_id level 0 serialized size;
    enqueue_log_entry l entry.

Definition log (level : LogLevel) (fmt : bytes) (ref_mode : bool) (types : list arg_type)
    (l : InternalLogger) (args : list arg) : option outcome :=
  if level_value (level_ l) <? level_value level then Some (Returned l)
  else if decide (status_ (backend_worker_ l) <> kRunning) then Some (Returned l)
  else if decide (types = []) then log_literal l level fmt
  else
    let format_id := get_string_id fmt in
    let l1 := set_memory l (register_string (string_registry_ l) format_id fmt)
      (serializer_args l) (queue_ l) (entry_buffer_ l) in
    '(buffer, size) ← serialize kSerializerCapacity ref_mode fmt types (serializer_args l1) args;
    let l2 := set_memory l1 (string_registry_ l1) buffer (queue_ l1) (entry_buffer_ l1) in
    log_serialized l2 level format_id buffer size.

(** ** The facade *)

Definition logger_log (level : LogLevel) (fmt : bytes) := log level fmt false.
Definition logger_log_ref (level : LogLevel) (fmt : bytes) := log level fmt true.
Definition logger_raw := logger_log kRaw.
Definition logger_fatal := logger_log kFatal.
Definition logger_error := logger_log kError.
Definition logger_warn := logger_log kWarn.
Definition logger_info := logger_log kInfo.
Definition logger_debug := logger_log kDebug.
Definition logger_trace := logger_log kTrace.

(** The compiler refuses [raw_ref] without arguments ([static_assert]). *)
Definition logger_raw_ref := logger_log_ref kRaw.
Definition logger_fatal_ref := logger_log_ref kFatal.
Definition logger_error_ref := logger_log_ref kError.
Definition logger_warn_ref := logger_log_ref kWarn.
Definition logger_info_ref := logger_log_ref kInfo.
Definition logger_debug_ref := logger_log_ref kDebug.
Definition logger_trace_ref := logger_log_ref kTrace.

(** ** What a call means *)

Record call := {
  c_level : LogLevel; c_fmt : bytes; c_ref : bool; c_types : list arg_type; c_args : list arg;
}.

Definition run_call (l : InternalLogger) (c : call) : option outcome :=
  log (c_level c) (c_fmt c) (c_ref c) (c_types c) l (c_args c).

Definition message_of (tid : Z) (c : call) : message :=
  {| m_thread := tid; m_level := c_level c;
     m_body := if decide (c_types c = []) then Literal (c_fmt c)
               else Formatted (get_string_id (c_fmt c)) (c_fmt c) (c_ref c) (c_types c) (c_args c) |}.

(** What the compiler guarantees of a call site: the arguments have the types, each of them can be
    passed in the mode, the static part fits the serializer ([static_assert]), and the two
    function instances are linked. *)
Definition call_compiles (c : call) : Prop :=
  Forall2 (passable (c_ref c)) (c_types c) (c_args c) /\
  calculate_min_serialized_size (c_ref c) (c_types c) <= kSerializerCapacity /\
  lenZ (args_bytes (c_ref c) (c_args c)) < 2 ^ 63 /\
  (c_types c <> [] -> format_linked (c_fmt c) /\ deserialize_linked (c_ref c) (c_types c)).

(** The buffers have their sizes and the queue holds the records of these messages. *)
Record logger_ok (ms : list message) (l : InternalLogger) : Prop := {
  ok_thread : 0 <= thread_id_ l < 2 ^ 32;
  ok_args : lenZ (serializer_args l) = kSerializerCapacity;
  ok_entry : lenZ (entry_buffer_ l) = sizeof_LogEntry + kMaxPayloadSize;
  ok_queue : queued (queue_ l) ms;
}.

(** The call passes the level and finds a running worker. *)
Definition enabled (l : InternalLogger) (c : call) : Prop :=
  level_value (c_level c) <= level_value (level_ l) /\ status_ (backend_worker_ l) = kRunning.
End logger.

(** ** Correctness *)

Section correctness.
Context {Q : Type} {BQ : ByteQueue Q} {Sk : Type} {SB : SinkBase Sk} {CI : CodeImage}.
Context {BQL : ByteQueueLaws Q}.
Abbreviation logger := (InternalLogger (Q := Q) (Sk := Sk)).

(** Everything a log call leaves alone. *)
Definition same_settings (l l' : logger) : Prop :=
  level_ l' = level_ l /\ thread_id_ l' = thread_id_ l /\
  backend_worker_ l' = backend_worker_ l /\ terminate_on_fatal_ l' = terminate_on_fatal_ l /\
  bq_capacity (queue_ l') = bq_capacity (queue_ l).

(** The message was accepted, or dropped and counted. *)
Definition accepted_by (m : message) (ms : list message) (l l' : logger) : Prop :=
  enqueued_count_ l' = u64 (enqueued_count_ l + 1) /\ dropped_count_ l' = dropped_count_ l /\
  logger_ok (ms ++ [m]) l'.

Definition dropped_by (ms : list message) (l l' : logger) : Prop :=
  enqueued_count_ l' = enqueued_count_ l /\ dropped_count_ l' = u64 (dropped_count_ l + 1) /\
  logger_ok ms l'.

Definition fits_queue (l : logger) (m : message) : Prop :=
  lenZ (bq_contents (queue_ l)) + msg_size m <= bq_capacity (queue_ l).

(** The call is one enqueue of the message's record, counted when the queue takes it. *)
Definition enqueues (m : message) (l l' : logger) : Prop :=
  exists rec st, record_of m rec /\ bq_enqueue (queue_ l) rec = Some (st, queue_ l') /\
    enqueued_count_ l' = if decide (st = kOk) then u64 (enqueued_count_ l + 1) else enqueued_count_ l.

(** The call does not touch the queue. *)
Definition stays_out (l l' : logger) : Prop :=
  queue_ l' = queue_ l /\ enqueued_count_ l' = enqueued_count_ l.

Lemma drop_call_ok ms (l : logger) :
  logger_ok ms l -> dropped_by ms l (drop_call l) /\ same_settings l (drop_call l).
Proof. intros [H1 H2 H3 H4]. split; [split_and!; [done..|by split] | done]. Qed.

(** A message that is small enough, built in [entry_buffer_] and enqueued. *)
Lemma enqueue_created ms l m extra :
  logger_ok ms l -> m_typed m -> m_thread m = thread_id_ l -> lenZ (m_payload m) < kMaxPayloadSize ->
  exists l', (entry ← create (entry_buffer_ l) (thread_id_ l) (m_format_id m) (m_level m) 0
        (m_payload m ++ extra) (lenZ (m_payload m));
      enqueue_log_entry l entry) =
    Some (if bool_decide (m_level m = kFatal) && terminate_on_fatal_ l then Terminated l'
          else Returned l') /\
    same_settings l l' /\
    (fits_queue l m -> accepted_by m ms l l') /\ (~ fits_queue l m -> dropped_by ms l l') /\
    enqueues m l l'.
Proof.
  intros [Htid Ha He Hq] Ht Hth Hp. rewrite <- Hth in *.
  destruct (create_record m (entry_buffer_ l) extra Ht Htid Hp) as (mem & -> & Hl & Hlv & Htot & Hr);
    [lia|]. cbn [mbind option_bind]. unfold enqueue_log_entry. rewrite Htot.
  cbn [mbind option_bind]. pose proof (lenZ_nonneg (m_payload m)).
  rewrite mem_load_spec by (unfold sizeof_LogEntry, lenZ in *; lia).
  change (Z.to_nat 0) with 0%nat. rewrite drop_0. cbn [mbind option_bind].
  pose proof Hr as [Hlr _].
  destruct (queued_enqueue (queue_ l) ms m _ Hq Hr) as (st & q' & Henq & Hcap & Hcase & Hok).
  rewrite Henq. cbn [mbind option_bind]. rewrite Hlv. cbn [mbind option_bind].
  set (l1 := set_memory l (string_registry_ l) (serializer_args l) q' mem).
  assert (forall ms', queued q' ms' -> logger_ok ms' l1) as Hok1.
  { intros ms' Hq'. split; cbn; [by rewrite Hth in Htid | done | unfold lenZ in *; by rewrite Hl | done]. }
  destruct Hcase as [[-> Hq']|[-> Hq']].
  - rewrite decide_True by done. eexists. split; [done|]. split; [by split_and!|].
    split; [intros Hf | split; [intros Hf | by eexists _, kOk]].
    + split_and!; [done..|]. destruct (Hok1 _ Hq'). by split.
    + exfalso. apply Hf. unfold fits_queue, msg_size. rewrite <- Hlr. by apply Hok.
  - rewrite decide_False by done. eexists. split; [done|]. split; [by split_and!|].
    split; [intros Hf | split; [intros Hf | by eexists _, _]].
    + unfold fits_queue, msg_size in Hf. rewrite <- Hlr in Hf. by apply Hok in Hf.
    + split_and!; [done..|]. destruct (Hok1 _ Hq'). by split.
Qed.

(** What the serializer leaves for a formatted call: header and arguments in the buffer with their
    size, or size 0 when they do not fit. *)
Lemma serialized_call c (l : logger) :
  Forall2 (passable (c_ref c)) (c_types c) (c_args c) ->
  calculate_min_serialized_size (c_ref c) (c_types c) <= kSerializerCapacity ->
  lenZ (args_bytes (c_ref c) (c_args c)) < 2 ^ 63 ->
  lenZ (serializer_args l) = kSerializerCapacity ->
  exists buffer size,
    serialize kSerializerCapacity (c_ref c) (c_fmt c) (c_types c) (serializer_args l) (c_args c) =
      Some (buffer, size) /\ lenZ buffer = kSerializerCapacity /\
    ((size = sizeof_header + lenZ (args_bytes (c_ref c) (c_args c)) /\
      exists rest, buffer =
        (header (c_ref c) (c_fmt c) (c_types c) ++ args_bytes (c_ref c) (c_args c)) ++ rest) \/
     (size = 0 /\ kMaxPayloadSize <= sizeof_header + lenZ (args_bytes (c_ref c) (c_args c)))).
Proof.
  intros Hargs Hmin Hsz Ha. destruct (decide (sizeof_header +
    lenZ (args_bytes (c_ref c) (c_args c)) <= kSerializerCapacity - (if c_ref c then 0 else 1)))
    as [Hfit|Hbig].
  - destruct (serialize_fits kSerializerCapacity (c_ref c) (c_fmt c) (c_types c) (serializer_args l)
      (c_args c) Hargs Ha ltac:(done) Hfit) as (rest & E & Hl).
    eexists _, _. split; [exact E|]. split; [exact Hl|]. left. split; [done|].
    exists rest. by rewrite app_assoc.
  - assert (sizeof_header = 16 /\ kMaxPayloadSize = 1000 /\ kSerializerCapacity = 2048)
      as (K1 & K2 & K3) by done.
    destruct (c_ref c) eqn:Hr.
    + exfalso. pose proof (lenZ_nonneg (args_bytes true (c_args c))).
      rewrite (min_size_spec true (c_types c) (c_args c)) in Hmin by (done || lia).
      pose proof (args_bytes_sum true (c_types c) (c_args c) Hargs) as (Hsum & _). lia.
    + exists (serializer_args l), 0. rewrite (serialize_too_big _ _ _ _ _ Hargs Hsz) by lia.
      split; [done|]. split; [done|]. right. split; [done|]. lia.
Qed.

(** A call that passes the filter: the payload it makes, and what becomes of it. *)
(** A call that is let through: what it returns, and whether its message is in the queue then. *)
Definition call_handled (ms : list message) (l : logger) (c : call) : Prop :=
  exists l', run_call l c =
    Some (if bool_decide (c_level c = kFatal) && terminate_on_fatal_ l &&
             (lenZ (m_payload (message_of (thread_id_ l) c)) <? kMaxPayloadSize)
          then Terminated l' else Returned l') /\
    same_settings l l' /\
    (let m := message_of (thread_id_ l) c in
     (lenZ (m_payload m) < kMaxPayloadSize /\ fits_queue l m -> accepted_by m ms l l') /\
     (~ (lenZ (m_payload m) < kMaxPayloadSize /\ fits_queue l m) -> dropped_by ms l l') /\
     if lenZ (m_payload m) <? kMaxPayloadSize then enqueues m l l' else stays_out l l').

Lemma literal_handled ms l c :
  logger_ok ms l -> call_compiles c -> enabled l c -> c_types c = [] -> call_handled ms l c.
Proof.
  intros Hok (Hargs & Hmin & Hsz & Hlinked) (Hlv & Hst) Hnil. pose proof Hok as [Htid Ha He Hq].
  unfold call_handled, run_call, log. rewrite (proj2 (Z.ltb_ge _ _)) by lia. rewrite decide_False by tauto.
  destruct (drop_call_ok ms l Hok) as [Hdrop Hset]. rewrite decide_True by done.
  set (m := message_of (thread_id_ l) c).
  assert (m_body m = Literal (c_fmt c)) as Hb by (unfold m, message_of; cbn; by rewrite decide_True).
  assert (m_payload m = c_fmt c) as Hp by (unfold m_payload; by rewrite Hb).
  unfold log_literal. rewrite Hp. destruct (Z.leb_spec kMaxPayloadSize (lenZ (c_fmt c))) as [Hbig|Hsmall].
  - rewrite (proj2 (Z.ltb_ge _ _)), andb_false_r by done. exists (drop_call l).
    split_and!; [done|done|intros [? _]; lia|done|by split].
  - rewrite (proj2 (Z.ltb_lt _ _)), andb_true_r by done.
    destruct (enqueue_created ms l m [] Hok) as (l' & Hl' & Hs' & Hacc & Hdr & Henq).
    { unfold m_typed. by rewrite Hb. } { done. } { by rewrite Hp. }
    assert (m_format_id m = kLiteralLogStringId) as Hid by (unfold m_format_id; by rewrite Hb).
    rewrite app_nil_r, Hp, Hid in Hl'. exists l'. split; [exact Hl'|]. split; [done|].
    split; [intros H; apply Hacc, H|]. split; [intros H; apply Hdr; tauto | exact Henq].
Qed.

Lemma formatted_handled ms l c :
  logger_ok ms l -> call_compiles c -> enabled l c -> c_types c <> [] -> call_handled ms l c.
Proof.
  intros Hok (Hargs & Hmin & Hsz & Hlinked) (Hlv & Hst) Hnil. pose proof Hok as [Htid Ha He Hq].
  unfold call_handled, run_call, log. rewrite (proj2 (Z.ltb_ge _ _)) by lia. rewrite decide_False by tauto.
  rewrite decide_False by done.
  destruct (Hlinked Hnil) as [Hf Hd].
  set (m := message_of (thread_id_ l) c).
  assert (m_body m = Formatted (get_string_id (c_fmt c)) (c_fmt c) (c_ref c) (c_types c) (c_args c))
    as Hb by (unfold m, message_of; cbn; by rewrite decide_False).
  assert (m_payload m = header (c_ref c) (c_fmt c) (c_types c) ++ args_bytes (c_ref c) (c_args c))
    as Hp by (unfold m_payload; by rewrite Hb).
  assert (lenZ (m_payload m) = sizeof_header + lenZ (args_bytes (c_ref c) (c_args c))) as Hlen
    by (by rewrite Hp, lenZ_app, header_length).
  pose proof (lenZ_nonneg (args_bytes (c_ref c) (c_args c))) as Hpos.
  assert (sizeof_header = 16 /\ kMaxPayloadSize = 1000 /\ kSerializerCapacity = 2048)
    as (K1 & K2 & K3) by done.
  assert (forall buffer, lenZ buffer = kSerializerCapacity ->
    let l2 := set_memory l (register_string (string_registry_ l) (get_string_id (c_fmt c)) (c_fmt c))
      buffer (queue_ l) (entry_buffer_ l) in
    logger_ok ms l2 /\ same_settings l l2) as Hl2 by (intros b Hb'; split; [by split | done]).
  cbv zeta. cbn [serializer_args set_memory].
  destruct (serialized_call c l Hargs Hmin Hsz Ha) as (buffer & size & -> & Hbl & Hsize).
  cbn [mbind option_bind]. unfold log_serialized.
  destruct (Hl2 buffer Hbl) as [Hok2 Hset2]. fold m in Hsize. rewrite <- Hp, <- Hlen in Hsize.
  destruct (decide (lenZ (m_payload m) < kMaxPayloadSize)) as [Hsmall|Hbig].
  - destruct Hsize as [[-> (rest & ->)]|[-> Hbad]]; [|lia].
    rewrite (proj2 (Z.leb_gt _ _)), (proj2 (Z.eqb_neq _ _)), (proj2 (Z.ltb_lt _ _)), andb_true_r
      by lia. cbn [orb].
    destruct (enqueue_created ms _ m rest Hok2) as (l' & Hl' & Hs' & Hacc & Hdr & Henq).
    { unfold m_typed. rewrite Hb. by pose proof (string_id_range (c_fmt c)). } { done. } { done. }
    assert (m_format_id m = get_string_id (c_fmt c)) as Hid by (unfold m_format_id; by rewrite Hb).
    rewrite Hid in Hl'. exists l'. split; [exact Hl'|]. split; [exact Hs'|].
    split; [intros H; apply Hacc, H | split; [intros H; apply Hdr; tauto | exact Henq]].
  - rewrite (proj2 (Z.ltb_ge _ _)), andb_false_r by lia.
    assert ((kMaxPayloadSize <=? size) || (size =? 0) = true) as ->.
    { destruct Hsize as [[-> _]|[-> _]]; [by rewrite (proj2 (Z.leb_le _ _)) by lia | done]. }
    exists (drop_call (set_memory l (register_string (string_registry_ l)
      (get_string_id (c_fmt c)) (c_fmt c)) buffer (queue_ l) (entry_buffer_ l))).
    destruct (drop_call_ok ms _ Hok2) as [Hdrop2 Hset3].
    split; [done|]. split; [done|]. split; [tauto | by split].
Qed.

Lemma run_call_enabled ms l c :
  logger_ok ms l -> call_compiles c -> enabled l c -> call_handled ms l c.
Proof.
  intros. destruct (decide (c_types c = [])); [by apply literal_handled | by apply formatted_handled].
Qed.

Lemma run_call_disabled (l : logger) c : ~ enabled l c -> run_call l c = Some (Returned l).
Proof.
  intros He. unfold run_call, log, enabled in *.
  destruct (Z.ltb_spec (level_value (level_ l)) (level_value (c_level c))); [done|].
  rewrite decide_True; [done|]. tauto.
Qed.

(** C8. What one log call does, whatever its level, format, mode and arguments. Below the level or
    without a running worker it changes nothing. Otherwise it is counted exactly once: as enqueued,
    with its record behind those already waiting, when its payload is under 1000 bytes and the
    queue has room for the record, and as dropped, with the queue unchanged, when not. A fatal call
    ends the program, if that is asked for, as soon as its payload is small enough to be tried -
    even when the queue was full and the message is lost. *)
Theorem log_call_effect ms (l : logger) c :
  logger_ok ms l -> call_compiles c ->
  (~ enabled l c -> run_call l c = Some (Returned l)) /\
  (enabled l c ->
   let m := message_of (thread_id_ l) c in
   let small := lenZ (m_payload m) <? kMaxPayloadSize in
   exists l', run_call l c =
     Some (if bool_decide (c_level c = kFatal) && terminate_on_fatal_ l && small
           then Terminated l' else Returned l') /\
   same_settings l l' /\
   (small = true /\ fits_queue l m -> accepted_by m ms l l') /\
   (~ (small = true /\ fits_queue l m) -> dropped_by ms l l')).
Proof.
  intros Hok Hc. split; [apply run_call_disabled|]. intros He m small.
  destruct (run_call_enabled ms l c Hok Hc He) as (l' & Hr & Hs & Hacc & Hdrop & _).
  exists l'. unfold small. rewrite Z.ltb_lt. split_and!; [exact Hr | done | exact Hacc | exact Hdrop].
Qed.

(** A sequence of calls; it ends where a fatal call ends the program. *)
Fixpoint run_calls (l : logger) (cs : list call) : option logger :=
  match cs with
  | [] => Some l
  | c :: rest =>
    o ← run_call l c;
    match o with Returned l' => run_calls l' rest | Terminated l' => Some l' end
  end.

Lemma run_calls_ok cs : forall ms (l : logger),
  logger_ok ms l -> Forall call_compiles cs ->
  0 <= enqueued_count_ l -> enqueued_count_ l + lenZ cs < 2 ^ 64 ->
  exists l' ms', run_calls l cs = Some l' /\ logger_ok (ms ++ ms') l' /\
    ms' `sublist_of` (message_of (thread_id_ l) <$> cs) /\
    enqueued_count_ l' = enqueued_count_ l + lenZ ms' /\ backend_worker_ l' = backend_worker_ l.
Proof.
  induction cs as [|c cs IH]; intros ms l Hok Hcs H0 Hlt.
  { exists l, []. rewrite app_nil_r, lenZ_nil, Z.add_0_r. done. }
  inversion Hcs as [|? ? Hc Hcs']; subst. rewrite lenZ_cons in Hlt. pose proof (lenZ_nonneg cs).
  cbn [run_calls]. destruct (decide (level_value (c_level c) <= level_value (level_ l) /\
    status_ (backend_worker_ l) = kRunning)) as [He|He].
  2:{ rewrite run_call_disabled by done. cbn [mbind option_bind].
      destruct (IH ms l Hok Hcs' H0 ltac:(lia)) as (l' & ms' & Hr & Hok' & Hsub & Hrest).
      exists l', ms'. split_and!; try done; try apply Hrest. csimpl. by apply sublist_cons. }
  destruct (run_call_enabled ms l c Hok Hc He) as (l1 & -> & Hs & Hacc & Hdrop & _).
  cbn [mbind option_bind]. destruct Hs as (Hs1 & Hs2 & Hs3 & _).
  set (m := message_of (thread_id_ l) c) in *.
  assert (exists ms1, logger_ok (ms ++ ms1) l1 /\ ms1 `sublist_of` [m] /\
    enqueued_count_ l1 = enqueued_count_ l + lenZ ms1) as (ms1 & Hok1 & Hsub1 & He1).
  { destruct (decide (lenZ (m_payload m) < kMaxPayloadSize /\
      lenZ (bq_contents (queue_ l)) + msg_size m <= bq_capacity (queue_ l))) as [Hf|Hf].
    - destruct (Hacc Hf) as (E & _ & Hok1). exists [m]. rewrite E, u64_small by lia. done.
    - destruct (Hdrop Hf) as (E & _ & Hok1). exists []. rewrite app_nil_r, E, lenZ_nil, Z.add_0_r.
      split_and!; [done| apply sublist_nil_l | done]. }
  pose proof (sublist_length _ _ Hsub1) as Hlen1. simpl in Hlen1.
  destruct (bool_decide _ && _ && _).
  - exists l1, ms1. split_and!; try done. csimpl.
    transitivity [m]; [done|]. apply sublist_skip, sublist_nil_l.
  - destruct (IH _ l1 Hok1 Hcs') as (l' & ms' & -> & Hok' & Hsub & He' & Hw');
      [pose proof (lenZ_nonneg ms1); lia | unfold lenZ in *; lia |].
    exists l', (ms1 ++ ms'). rewrite app_assoc, lenZ_app, He', He1, Hw', Hs3.
    split_and!; [done|done| |lia|done]. csimpl.
    rewrite Hs2 in Hsub. fold m. change (?x :: ?y) with ([x] ++ y). by apply sublist_app.
Qed.

Context {heap : Type} {PM : ProgramMemory heap} (fmt_output : heap -> bytes -> list value -> bytes) (memory : heap).
Context (clock : nat -> Z) (eval_order : nat -> list nat).
Context {SL : SinkLaws Sk} {CIL : CodeImageLaws CI}.
Context (Hclock : forall n, 0 <= clock n < 2 ^ 64) (Horder : forall n, (4 < n)%nat -> eval_order n = seq 0 n).

(** From the call to the sink: after any sequence of log calls on a logger with an empty queue,
    the calls counted as enqueued are a subsequence of the calls made, and one flush of the worker
    hands exactly these messages, with the text their format and arguments give, in the order of
    the calls, to every sink, and leaves the queue empty. *)
Theorem logged_is_delivered (l : logger) cs D F fuel :
  logger_ok [] l -> Forall call_compiles cs -> 0 <= enqueued_count_ l ->
  enqueued_count_ l + lenZ cs < 2 ^ 64 -> worker_ready D F (backend_worker_ l) ->
  Forall (λ c, deliverable fmt_output memory D F (message_of (thread_id_ l) c)) cs ->
  (length cs < fuel)%nat ->
  exists l' ms q' w', run_calls l cs = Some l' /\
    ms `sublist_of` (message_of (thread_id_ l) <$> cs) /\
    enqueued_count_ l' = enqueued_count_ l + lenZ ms /\
    flush_impl fmt_output memory clock eval_order fuel (queue_ l') (backend_worker_ l') =
      Some (Some (q', w')) /\
    bq_contents q' = [] /\
    sinks_ w' = deliver_all fmt_output memory clock (sinks_ (backend_worker_ l))
      (clock_reads (backend_worker_ l)) ms.
Proof.
  intros Hok Hcs H0 Hlt Hw Hd Hfuel.
  destruct (run_calls_ok cs [] l Hok Hcs H0 Hlt) as (l' & ms & Hr & Hok' & Hsub & He & Hbw).
  assert (Forall (deliverable fmt_output memory D F) ms) as Hms
    by (eapply sublist_Forall; [exact Hsub | by apply Forall_fmap]).
  pose proof (sublist_length _ _ Hsub) as Hlen. rewrite length_fmap in Hlen.
  rewrite <- Hbw in Hw. destruct (flush_impl_drains fmt_output memory clock eval_order Hclock Horder
    D F (queue_ l') (backend_worker_ l') ms fuel Hw (ok_queue _ _ Hok') Hms ltac:(lia))
    as (q' & w' & Hf & _ & Hc & _ & _ & Hs & _).
  exists l', ms, q', w'. rewrite <- Hbw. by split_and!.
Qed.
End correctness.

(** ** Witnesses *)

Definition example_call : call :=
  {| c_level := kWarn; c_fmt := bs "{}%"; c_ref := false; c_types := [TTrivial 1];
     c_args := [ATrivial (bs "Z")] |}.

Definition example_literal : call :=
  {| c_level := kInfo; c_fmt := bs "up"; c_ref := false; c_types := []; c_args := [] |}.

Lemma example_compiles : Forall (call_compiles (CI := example_image)) [example_literal; example_call].
Proof.
  constructor; [|constructor; [|constructor]];
    (split; [simpl; repeat constructor | split_and!; vm_compute; done]).
Qed.

(** A logger over a reserved SPSC queue, its worker running with a recording sink. *)
Definition example_logger (q : SpscQueue) : InternalLogger (Sk := Recorder) :=
  {| level_ := kInfo; thread_id_ := 7; enqueued_count_ := 0; dropped_count_ := 0;
     string_registry_ := registry_new; serializer_args := replicate (Z.to_nat 2048) Byte.x00;
     queue_ := q; entry_buffer_ := replicate (Z.to_nat 1024) Byte.x00;
     backend_worker_ := set_flags example_worker false 0 0 kRunning; terminate_on_fatal_ := false |}.

Lemma example_logger_ok :
  exists q, logger_ok (CI := example_image) [] (example_logger q) /\ spsc_contents q = [] /\
    256 <= capacity_ q.
Proof.
  destruct (reserve zero_alloc 256) as [q|] eqn:Hq; [|discriminate Hq].
  destruct (reserve_valid zero_alloc 256 q zero_alloc_sized) as [Hn|(Hv & Hc & Hcap & _)];
    [lia | done | injection Hq as <-; discriminate |].
  exists q. split; [|done]. split; [done | done | done | by apply queued_nil].
Qed.

Lemma log_call_effect_witness :
  exists q l', run_call (CI := example_image) (example_logger q) example_call = Some (Returned l') /\
    enqueued_count_ l' = 1 /\ dropped_count_ l' = 0.
Proof.
  destruct example_logger_ok as (q & Hok & Hc & Hcap).
  destruct (log_call_effect (CI := example_image) [] (example_logger q) example_call Hok) as [_ H].
  - pose proof example_compiles as He. inversion_clear He. inversion_clear H0. assumption.
  - destruct H as (l' & Hr & _ & Hacc & _).
    + split; [vm_compute; congruence | reflexivity].
    + destruct Hacc as (H1 & H2 & _).
      * split; [reflexivity|]. unfold fits_queue.
        change (bq_contents (queue_ (example_logger q))) with (spsc_contents q). rewrite Hc.
        change (bq_capacity (queue_ (example_logger q))) with (capacity_ q).
        apply (Z.le_trans _ 256); [vm_compute; congruence | exact Hcap].
      * exists q, l'. split; [exact Hr|]. split; [rewrite H1; reflexivity | exact H2].
Defined.

Lemma logged_is_delivered_witness :
  exists q l' ms q' w',
    run_calls (CI := example_image) (example_logger q) [example_literal; example_call] = Some l' /\
    flush_impl (CI := example_image) show_values tt (λ _, 5) (seq 0) 3 (queue_ l')
      (backend_worker_ l') = Some (Some (q', w')) /\
    sinks_ w' = deliver_all show_values tt (λ _, 5) [[] : Recorder] 0 ms.
Proof.
  destruct example_logger_ok as (q & Hok & _ & _).
  destruct (logged_is_delivered (CI := example_image) (CIL := one_site_laws _ _ _) show_values tt
    (λ _, 5) (seq 0)) with (l := example_logger q) (cs := [example_literal; example_call])
    (D := 4096) (F := 2048) (fuel := 3%nat) as (l' & ms & q' & w' & H1 & _ & _ & H2 & _ & H3).
  - intros n. split; [discriminate | reflexivity].
  - intros n. reflexivity.
  - exact Hok.
  - exact example_compiles.
  - discriminate.
  - reflexivity.
  - split; [reflexivity | reflexivity | repeat constructor].
  - repeat constructor; vm_compute; congruence.
  - vm_compute; repeat constructor.
  - exists q, l', ms, q', w'. split; [exact H1|]. split; [exact H2 | exact H3].
Defined.
