(* ===== verification/LoggerConcurrent.v ===== *)
(** * The logger and its worker thread

    The whole logger (src/src/include/femtolog/logging/impl/internal_logger.h) while the worker
    thread of its [backend_worker_] runs: one thread makes log calls, changes the level, flushes,
    starts and stops the worker; the other is [run_loop]. Both work on [queue_] and
    [backend_worker_]. A log call is one step: of what the threads share it reads [status_], which
    only its own thread writes, and does one operation of the queue. The theorems are those of
    BackendConcurrent.v, carried over by a simulation. *)

From S2P Require Import Prelude ByteQueue SpscQueue LogEntry StringRegistry Serializer.
From S2P Require Import SinkInterface BackendWorker BackendConcurrent InternalLogger.

(** Where the thread that uses the logger is: between calls, in [flush], in [stop], which a fatal log
    call ends with [std::terminate], or at its end. *)
Inductive user_pc := Idle | Flushing (seq : Z) | Stopping (terminating : bool) | Ended.

Section program.
Context {Q : Type} {BQ : ByteQueue Q} {Sk : Type} {SB : SinkBase Sk} {CI : CodeImage}.
Context {heap : Type} {PM : ProgramMemory heap} (fmt_output : heap -> bytes -> list value -> bytes) (memory : heap).
Context (clock : nat -> Z) (eval_order : nat -> list nat).

Abbreviation logger := (InternalLogger (Q := Q) (Sk := Sk)).
Abbreviation worker := (BackendWorker (Sk := Sk)).

Record program := { p_logger : logger; p_worker_pc : worker_pc; p_user : user_pc }.

(** The logger with other contents of what the threads share. *)
Definition put_shared (l : logger) (q : Q) (w : worker) : logger :=
  {| level_ := level_ l; thread_id_ := thread_id_ l; enqueued_count_ := enqueued_count_ l;
     dropped_count_ := dropped_count_ l; string_registry_ := string_registry_ l;
     serializer_args := serializer_args l; queue_ := q; entry_buffer_ := entry_buffer_ l;
     backend_worker_ := w; terminate_on_fatal_ := terminate_on_fatal_ l |}.

Definition put_worker (l : logger) (w : worker) : logger := put_shared l (queue_ l) w.

(** What [start], [flush] and [stop] store before they wait, and [stop] after it. *)
Definition store_started (w : worker) : worker :=
  set_flags w (shutdown_required_ w) (flush_requested_seq_ w) (flush_completed_seq_ w) kRunning.
Definition store_request (w : worker) : worker :=
  set_flags w (shutdown_required_ w) (u64 (flush_requested_seq_ w + 1)) (flush_completed_seq_ w) (status_ w).
Definition store_shutdown (w : worker) : worker :=
  set_flags w true (flush_requested_seq_ w) (flush_completed_seq_ w) (status_ w).
Definition store_stopped (w : worker) : worker :=
  set_flags w (shutdown_required_ w) (flush_requested_seq_ w) (flush_completed_seq_ w) kIdling.

(** [~InternalLogger] and [~BackendWorker] stop a worker that runs, as [UStop] and [UStopReturn] do; then
    the sinks are closed. *)
Definition destructor_stops (w : worker) : bool := bool_decide (status_ w = kRunning).

Inductive user_label :=
  | UWorker | ULog (c : call) | ULevel (level : LogLevel) | UStart
  | UFlush | UFlushReturn | UStop | UStopReturn.

Inductive program_step : program -> user_label -> program -> Prop :=
  | prog_worker p q' w' pc' :
      worker_step fmt_output memory clock eval_order (queue_ (p_logger p)) (backend_worker_ (p_logger p))
        (p_worker_pc p) = Some (q', w', pc') ->
      program_step p UWorker
        {| p_logger := put_shared (p_logger p) q' w'; p_worker_pc := pc'; p_user := p_user p |}
  | prog_log p c l' :
      p_user p = Idle -> run_call (p_logger p) c = Some (Returned l') ->
      program_step p (ULog c) {| p_logger := l'; p_worker_pc := p_worker_pc p; p_user := Idle |}
  | prog_log_fatal p c l' :
      p_user p = Idle -> run_call (p_logger p) c = Some (Terminated l') ->
      program_step p (ULog c)
        {| p_logger := put_worker l' (store_shutdown (backend_worker_ l'));
           p_worker_pc := p_worker_pc p; p_user := Stopping true |}
  | prog_level p level :
      p_user p = Idle ->
      program_step p (ULevel level)
        {| p_logger := set_level (p_logger p) level; p_worker_pc := p_worker_pc p; p_user := Idle |}
  | prog_start p :
      p_user p = Idle -> status_ (backend_worker_ (p_logger p)) = kIdling -> p_worker_pc p = WNone ->
      program_step p UStart
        {| p_logger := put_worker (p_logger p) (store_started (backend_worker_ (p_logger p)));
           p_worker_pc := WTop; p_user := Idle |}
  | prog_flush p :
      p_user p = Idle -> status_ (backend_worker_ (p_logger p)) = kRunning ->
      program_step p UFlush
        {| p_logger := put_worker (p_logger p) (store_request (backend_worker_ (p_logger p)));
           p_worker_pc := p_worker_pc p;
           p_user := Flushing (u64 (flush_requested_seq_ (backend_worker_ (p_logger p)) + 1)) |}
  | prog_flush_idle p :
      p_user p = Idle -> status_ (backend_worker_ (p_logger p)) <> kRunning -> program_step p UFlush p
  | prog_flush_return p seq :
      p_user p = Flushing seq -> seq <= flush_completed_seq_ (backend_worker_ (p_logger p)) ->
      program_step p UFlushReturn
        {| p_logger := p_logger p; p_worker_pc := p_worker_pc p; p_user := Idle |}
  | prog_stop p :
      p_user p = Idle -> status_ (backend_worker_ (p_logger p)) = kRunning ->
      program_step p UStop
        {| p_logger := put_worker (p_logger p) (store_shutdown (backend_worker_ (p_logger p)));
           p_worker_pc := p_worker_pc p; p_user := Stopping false |}
  | prog_stop_idle p :
      p_user p = Idle -> status_ (backend_worker_ (p_logger p)) <> kRunning -> program_step p UStop p
  | prog_stop_return p terminating :
      p_user p = Stopping terminating -> p_worker_pc p = WExited ->
      program_step p UStopReturn
        {| p_logger := put_worker (p_logger p) (store_stopped (backend_worker_ (p_logger p)));
           p_worker_pc := WNone; p_user := if terminating then Ended else Idle |}.

Inductive program_exec : program -> list user_label -> program -> Prop :=
  | pexec_nil p : program_exec p [] p
  | pexec_snoc p uls p1 ul p2 :
      program_exec p uls p1 -> program_step p1 ul p2 -> program_exec p (uls ++ [ul]) p2.

(** The messages of the log calls of a run. *)
Definition call_of (ul : user_label) : option call := match ul with ULog c => Some c | _ => None end.
Definition calls (uls : list user_label) : list call := omap call_of uls.
Definition is_start (ul : user_label) : nat := match ul with UStart => 1 | _ => 0 end.
Definition start_calls (uls : list user_label) : nat := foldr (fun ul n => is_start ul + n)%nat 0%nat uls.

(** ** The simulation *)

Definition client_of (u : user_pc) : client_pc :=
  match u with Idle | Ended => CIdle | Flushing seq => CFlushWait seq | Stopping _ => CJoin end.

(** The worker thread and its client, as BackendConcurrent.v has them. *)
Definition system_of (p : program) (acc : list message) : system (Q := Q) (Sk := Sk) :=
  {| s_queue := queue_ (p_logger p); s_worker := backend_worker_ (p_logger p);
     s_pc := p_worker_pc p; s_client := client_of (p_user p); accepted := acc |}.

Record logger_sizes (l : logger) : Prop := {
  ls_thread : 0 <= thread_id_ l < 2 ^ 32;
  ls_args : lenZ (serializer_args l) = kSerializerCapacity;
  ls_entry : lenZ (entry_buffer_ l) = sizeof_LogEntry + kMaxPayloadSize;
}.

Abbreviation sys_exec := (exec fmt_output memory clock eval_order).

Context {BQL : ByteQueueLaws Q} {SL : SinkLaws Sk} {CIL : CodeImageLaws CI}.

Lemma sizes_ok ms l : logger_sizes l -> queued (queue_ l) ms -> logger_ok ms l.
Proof. intros [] Hq. by split. Qed.

Lemma ok_sizes ms l : logger_ok ms l -> logger_sizes l.
Proof. intros []. by split. Qed.

Lemma enabled_dec (l : logger) c : Decision (enabled l c).
Proof. unfold enabled. apply _. Qed.

(** What a log call can do to what the threads share. *)
Lemma run_call_shared ms l c :
  logger_ok ms l -> call_compiles c -> exists l',
  (run_call l c = Some (Returned l') \/
   run_call l c = Some (Terminated l') /\ status_ (backend_worker_ l) = kRunning) /\
  logger_sizes l' /\ thread_id_ l' = thread_id_ l /\ backend_worker_ l' = backend_worker_ l /\
  (stays_out l l' \/
   status_ (backend_worker_ l) = kRunning /\ enqueues (message_of (thread_id_ l) c) l l').
Proof.
  intros Hok Hc. destruct (enabled_dec l c) as [He|He].
  2: { exists l. rewrite run_call_disabled by done. split_and!; try done; [by left | by eapply ok_sizes | by left]. }
  pose proof He as [_ Hst].
  destruct (run_call_enabled ms l c Hok Hc He) as (l' & Hr & (_ & Ht & Hw & _) & Hacc & Hdrop & Henq).
  exists l'. split_and!; [| |done|done|].
  - rewrite Hr. destruct (_ && _ && _); [by right | by left].
  - destruct (decide (lenZ (m_payload (message_of (thread_id_ l) c)) < kMaxPayloadSize /\
      lenZ (bq_contents (queue_ l)) + msg_size (message_of (thread_id_ l) c) <= bq_capacity (queue_ l))) as [Hf|Hf].
    + by eapply ok_sizes, (Hacc Hf).
    + by eapply ok_sizes, (Hdrop Hf).
  - destruct (_ <? _); [by right | by left].
Qed.

Lemma exec_one s l s' : sys_step fmt_output memory clock eval_order s l s' -> sys_exec s [l] s'.
Proof. intros H. eapply (exec_snoc _ _ _ _ _ []); [apply exec_nil | done]. Qed.

Lemma exec_app s ls s1 ls' s2 : sys_exec s ls s1 -> sys_exec s1 ls' s2 -> sys_exec s (ls ++ ls') s2.
Proof.
  intros H1 H2. induction H2 as [|s1 ls' s3 l s2 H2 IH Hstep]; [by rewrite app_nil_r|].
  rewrite app_assoc. eapply exec_snoc; [by apply IH | done].
Qed.

Context (D F : Z) (sinks0 : list Sk).
Abbreviation deliv := (deliverable (Sk := Sk) fmt_output memory D F).

(** The log calls of a run: they compile, and the worker and the sinks can handle their messages. *)
Definition call_fine (tid : Z) (ul : user_label) : Prop :=
  match ul with ULog c => call_compiles c /\ deliv (message_of tid c) | _ => True end.

(** What a log call does to the queue, as steps of the client. *)
Lemma log_sim ms (l l' : logger) c pc acc :
  logger_sizes l -> queued (queue_ l) ms -> 0 <= enqueued_count_ l < 2 ^ 64 ->
  deliv (message_of (thread_id_ l) c) ->
  stays_out l l' \/
    status_ (backend_worker_ l) = kRunning /\ enqueues (message_of (thread_id_ l) c) l l' ->
  exists ls new, sys_exec
      {| s_queue := queue_ l; s_worker := backend_worker_ l; s_pc := pc; s_client := CIdle; accepted := acc |} ls
      {| s_queue := queue_ l'; s_worker := backend_worker_ l; s_pc := pc; s_client := CIdle;
         accepted := acc ++ new |} /\
    new `sublist_of` [message_of (thread_id_ l) c] /\
    enqueued_count_ l' = u64 (enqueued_count_ l + lenZ new) /\
    Forall (label_ok (Sk := Sk) fmt_output memory D F) ls /\ starts ls = 0%nat /\ (length ls <= 1)%nat.
Proof.
  intros Hsz Hq Hn Hd [[Hsq Hse]|(Hst & rec & st & Hrec & Henq & Hcount)].
  - exists [], []. rewrite app_nil_r, Hsq, Hse, lenZ_nil, Z.add_0_r, u64_small by done.
    split_and!; [apply exec_nil | apply sublist_nil_l | done | done | done | simpl; lia].
  - exists [LEnqueue (message_of (thread_id_ l) c) st],
      (if decide (st = kOk) then [message_of (thread_id_ l) c] else []).
    split; [|split; [|split; [|split; [by constructor | split; [done | simpl; lia]]]]].
    + apply exec_one. pose proof (step_enqueue fmt_output memory clock eval_order
        {| s_queue := queue_ l; s_worker := backend_worker_ l; s_pc := pc; s_client := CIdle;
           accepted := acc |} _ rec st (queue_ l') eq_refl Hst Hrec Henq) as Hs.
      cbn [s_worker s_pc accepted] in Hs. case_decide; [done | by rewrite app_nil_r].
    + case_decide; [done | apply sublist_nil_l].
    + rewrite Hcount. case_decide; [done|]. by rewrite lenZ_nil, Z.add_0_r, u64_small.
Qed.

(** A step of the program is simulated when at most two steps of the worker and its client lead
    from one state to the other, the messages that were accepted on the way being counted. *)
Definition simulated (p : program) (ul : user_label) (p' : program) (acc : list message) : Prop :=
  exists ls new, sys_exec (system_of p acc) ls (system_of p' (acc ++ new)) /\
    new `sublist_of` (message_of (thread_id_ (p_logger p)) <$> calls [ul]) /\
    enqueued_count_ (p_logger p') = u64 (enqueued_count_ (p_logger p) + lenZ new) /\
    logger_sizes (p_logger p') /\ thread_id_ (p_logger p') = thread_id_ (p_logger p) /\
    Forall (label_ok (Sk := Sk) fmt_output memory D F) ls /\ starts ls = is_start ul /\ (length ls <= 2)%nat.

(** A step that is one step of the worker or of its client, without a message. *)
Lemma one_simulated p ul p' acc l :
  sys_step fmt_output memory clock eval_order (system_of p acc) l (system_of p' acc) ->
  label_ok (Sk := Sk) fmt_output memory D F l -> start_count l = is_start ul ->
  0 <= enqueued_count_ (p_logger p) < 2 ^ 64 -> logger_sizes (p_logger p') ->
  enqueued_count_ (p_logger p') = enqueued_count_ (p_logger p) ->
  thread_id_ (p_logger p') = thread_id_ (p_logger p) -> simulated p ul p' acc.
Proof.
  intros Hs Hl Hst Hn Hsz Hc Ht. exists [l], []. rewrite app_nil_r, lenZ_nil, Z.add_0_r, u64_small by done.
  split_and!; [by apply exec_one | apply sublist_nil_l | done | done | done | by constructor | | simpl; lia].
  simpl. lia.
Qed.

(** A step the worker and its client do not notice. *)
Lemma none_simulated p ul p' acc :
  system_of p' acc = system_of p acc -> is_start ul = 0%nat ->
  0 <= enqueued_count_ (p_logger p) < 2 ^ 64 -> logger_sizes (p_logger p') ->
  enqueued_count_ (p_logger p') = enqueued_count_ (p_logger p) ->
  thread_id_ (p_logger p') = thread_id_ (p_logger p) -> simulated p ul p' acc.
Proof.
  intros Hs Hst Hn Hsz Hc Ht. exists [], []. rewrite app_nil_r, lenZ_nil, Z.add_0_r, u64_small by done.
  rewrite Hs. split_and!; try done; [apply exec_nil | apply sublist_nil_l | simpl; lia].
Qed.

Lemma put_sizes l q w : logger_sizes l -> logger_sizes (put_shared l q w).
Proof. intros []. by split. Qed.

Lemma log_simulated ms p c p' acc :
  program_step p (ULog c) p' -> logger_sizes (p_logger p) -> queued (queue_ (p_logger p)) ms ->
  0 <= enqueued_count_ (p_logger p) < 2 ^ 64 -> call_fine (thread_id_ (p_logger p)) (ULog c) ->
  simulated p (ULog c) p' acc.
Proof.
  intros Hstep Hsz Hq Hn [Hc Hd].
  destruct (run_call_shared ms (p_logger p) c (sizes_ok _ _ Hsz Hq) Hc)
    as (l' & Hcase & Hsz' & Ht & Hw & Hshared).
  destruct (log_sim ms (p_logger p) l' c (p_worker_pc p) acc Hsz Hq Hn Hd Hshared)
    as (ls & new & He & Hnew & Hcount & Hl & Hs & Hlen).
  inversion Hstep as [|p0 c0 l1 Hu Hr|p0 c0 l1 Hu Hr| | | | | | | |]; subst; rewrite Hr in Hcase.
  - destruct Hcase as [[= ->]|[[=] _]]. exists ls, new. cbn [p_logger]. unfold system_of at 1.
    rewrite Hu. split_and!; try done; [by unfold system_of; cbn; rewrite Hw | lia].
  - destruct Hcase as [[=]|[[= ->] Hst]]. exists (ls ++ [LStopCall])%list, new. cbn [p_logger].
    split; [|split; [exact Hnew|split; [exact Hcount | split; [by apply put_sizes | split; [exact Ht|]]]]].
    + eapply exec_snoc; [unfold system_of at 1; rewrite Hu; exact He|].
      pose proof (step_stop_call fmt_output memory clock eval_order {| s_queue := queue_ l';
        s_worker := backend_worker_ (p_logger p); s_pc := p_worker_pc p; s_client := CIdle;
        accepted := acc ++ new |} eq_refl Hst) as H. unfold system_of. cbn in *. by rewrite Hw.
    + split; [apply Forall_app; split; [done | by repeat constructor]|].
      rewrite starts_snoc, length_app, Hs. split; [done | simpl; lia].
Qed.

(** Every step of the program is simulated. *)
Lemma program_step_sim ms p ul p' acc :
  program_step p ul p' -> logger_sizes (p_logger p) -> queued (queue_ (p_logger p)) ms ->
  0 <= enqueued_count_ (p_logger p) < 2 ^ 64 -> call_fine (thread_id_ (p_logger p)) ul ->
  simulated p ul p' acc.
Proof.
  intros Hstep Hsz Hq Hn Hfine. pose proof (fun q w => put_sizes (p_logger p) q w Hsz) as Hput.
  destruct ul as [|c|level| | | | |].
  2: { by eapply log_simulated. }
  all: inversion Hstep as [p0 q' w' pc' Hw| | |p0 lv Hu|p0 Hu Hst Hpc|p0 Hu Hst|p0 Hu Hst
    |p0 sq Hu Hsq|p0 Hu Hst|p0 Hu Hst|p0 t Hu Hpc]; subst.
  - apply (one_simulated p _ _ acc LWorker); try done; [|by apply Hput].
    exact (step_worker fmt_output memory clock eval_order (system_of p acc) q' w' pc' Hw).
  - apply none_simulated; try done; [|by destruct Hsz]. unfold system_of. by rewrite Hu.
  - apply (one_simulated p _ _ acc LStart); try done; [|by apply Hput].
    assert (s_client (system_of p acc) = CIdle) as Hcl by (unfold system_of; cbn; by rewrite Hu).
    exact (step_start fmt_output memory clock eval_order (system_of p acc) Hcl Hst Hpc).
  - apply (one_simulated p _ _ acc LFlushCall); try done; [|by apply Hput].
    assert (s_client (system_of p acc) = CIdle) as Hcl by (unfold system_of; cbn; by rewrite Hu).
    exact (step_flush_call fmt_output memory clock eval_order (system_of p acc) Hcl Hst).
  - by apply none_simulated.
  - apply (one_simulated p _ _ acc LFlushReturn); try done.
    assert (s_client (system_of p acc) = CFlushWait sq) as Hcl by (unfold system_of; cbn; by rewrite Hu).
    exact (step_flush_return fmt_output memory clock eval_order (system_of p acc) sq Hcl Hsq).
  - apply (one_simulated p _ _ acc LStopCall); try done; [|by apply Hput].
    assert (s_client (system_of p acc) = CIdle) as Hcl by (unfold system_of; cbn; by rewrite Hu).
    exact (step_stop_call fmt_output memory clock eval_order (system_of p acc) Hcl Hst).
  - by apply none_simulated.
  - apply (one_simulated p _ _ acc LStopReturn); try done; [|by apply Hput].
    assert (s_client (system_of p acc) = CJoin) as Hcl by (unfold system_of; cbn; by rewrite Hu).
    pose proof (step_stop_return fmt_output memory clock eval_order (system_of p acc) Hcl Hpc) as H.
    unfold system_of in *. by destruct t.
Qed.

(** ** Runs *)

Context (Hclock : forall n, 0 <= clock n < 2 ^ 64) (Horder : forall n, (4 < n)%nat -> eval_order n = seq 0 n).

Definition messages (tid : Z) (uls : list user_label) : list message := message_of tid <$> calls uls.

(** A logger after [init] and the registration of its sinks. *)
Record fresh_program (p : program) : Prop := {
  fp_worker : fresh (Sk := Sk) D F sinks0 (system_of p []);
  fp_sizes : logger_sizes (p_logger p);
  fp_count : enqueued_count_ (p_logger p) = 0;
  fp_user : p_user p = Idle;
}.

(** The worker is started at most once, and the run is shorter than the counters of the flushes. *)
Definition run_ok (tid : Z) (uls : list user_label) : Prop :=
  Forall (call_fine tid) uls /\ (start_calls uls <= 1)%nat /\ 2 * lenZ uls < 2 ^ 64 - 1.

Lemma start_calls_snoc uls ul : start_calls (uls ++ [ul]) = (start_calls uls + is_start ul)%nat.
Proof. induction uls as [|u uls IH]; simpl; [lia|]. rewrite IH. lia. Qed.

Lemma starts_app ls ls' : starts (ls ++ ls') = (starts ls + starts ls')%nat.
Proof. induction ls as [|l ls IH]; simpl; [done|]. rewrite IH. lia. Qed.

Lemma run_ok_snoc tid uls ul : run_ok tid (uls ++ [ul]) -> run_ok tid uls /\ call_fine tid ul.
Proof.
  intros (Hf & Hs & Hl). apply Forall_app in Hf as [Hf Hu]. rewrite start_calls_snoc in Hs.
  rewrite lenZ_app in Hl. change (lenZ [ul]) with 1 in Hl. inversion Hu; subst.
  split; [split_and!; [done | lia | lia] | done].
Qed.

(** A run of the program, as one of the worker and its client. *)
Record simulation (p0 : program) (uls : list user_label) (p : program) (ls : list label)
    (acc : list message) : Prop := {
  sim_exec : sys_exec (system_of p0 []) ls (system_of p acc);
  sim_labels : Forall (label_ok (Sk := Sk) fmt_output memory D F) ls;
  sim_starts : starts ls = start_calls uls;
  sim_length : (length ls <= 2 * length uls)%nat;
  sim_accepted : acc `sublist_of` messages (thread_id_ (p_logger p0)) uls;
  sim_count : enqueued_count_ (p_logger p) = lenZ acc;
  sim_sizes : logger_sizes (p_logger p);
  sim_thread : thread_id_ (p_logger p) = thread_id_ (p_logger p0);
}.

Lemma simulation_trace p0 uls p ls acc :
  simulation p0 uls p ls acc -> run_ok (thread_id_ (p_logger p0)) uls ->
  trace_ok (Sk := Sk) fmt_output memory D F ls.
Proof.
  intros [] (_ & Hs & Hl). unfold lenZ in Hl. split_and!; [done | lia | lia].
Qed.

Lemma messages_length tid uls : (length (messages tid uls) <= length uls)%nat.
Proof.
  unfold messages. rewrite length_fmap. unfold calls.
  induction uls as [|ul uls IH]; [done|]. cbn [omap list_omap]. destruct (call_of ul); cbn [length]; lia.
Qed.

Lemma messages_deliverable tid uls : Forall (call_fine tid) uls -> Forall deliv (messages tid uls).
Proof.
  unfold messages, calls. induction 1 as [|ul uls Hu Huls IH]; [constructor|].
  cbn [omap list_omap]. destruct ul; try exact IH. cbn [call_of fmap list_fmap]. constructor; [apply Hu | exact IH].
Qed.

Lemma program_simulation p0 uls p :
  fresh_program p0 -> program_exec p0 uls p -> run_ok (thread_id_ (p_logger p0)) uls ->
  exists ls acc, simulation p0 uls p ls acc.
Proof.
  intros H0 He. induction He as [p0|p0 uls p1 ul p2 He IH Hstep]; intros Hok.
  { exists [], []. destruct H0 as [_ Hsz Hc _]. split; try done. apply exec_nil. }
  pose proof (run_ok_snoc _ _ _ Hok) as [Hok1 Hul]. destruct (IH H0 Hok1) as (ls & acc & S).
  pose proof S as [Hex Hlab Hst Hlen Hacc Hcount Hsz Ht].
  destruct (exec_inv fmt_output memory clock eval_order D F sinks0 Hclock Horder (system_of p0 []) ls
    (system_of p1 acc) (fp_worker _ H0) Hex (simulation_trace _ _ _ _ _ S Hok1)) as (done & pend & I).
  pose proof (inv_queued _ _ _ _ _ _ _ _ _ _ _ I) as Hq. cbn [system_of s_queue] in Hq.
  pose proof (sublist_length _ _ Hacc) as Hal.
  pose proof (messages_length (thread_id_ (p_logger p0)) uls) as Hml.
  destruct Hok as (_ & _ & Hlz). rewrite lenZ_app in Hlz. change (lenZ [ul]) with 1 in Hlz.
  destruct (program_step_sim pend p1 ul p2 acc Hstep Hsz Hq) as (ls' & new & Hex' & Hnew & Hc' & Hsz' & Ht' & Hl' & Hs' & Hlen').
  { rewrite Hcount. unfold lenZ in *. lia. }
  { by rewrite Ht. }
  exists (ls ++ ls'), (acc ++ new). rewrite Ht in Hnew. split.
  - by eapply exec_app.
  - by apply Forall_app.
  - by rewrite starts_app, start_calls_snoc, Hst, Hs'.
  - rewrite !length_app. simpl. lia.
  - unfold messages, calls. rewrite omap_app, fmap_app. by apply sublist_app.
  - pose proof (sublist_length _ _ Hnew) as Hnl. rewrite length_fmap in Hnl.
    assert (length (calls [ul]) <= 1)%nat by (unfold calls; simpl; destruct (call_of ul); simpl; lia).
    rewrite Hc', Hcount, lenZ_app, u64_small; [done|]. unfold lenZ in *. lia.
  - done.
  - by rewrite Ht'.
Qed.

(** Every state a program can reach has the invariant of the worker and its client. *)
Lemma program_invariant p0 uls p :
  fresh_program p0 -> program_exec p0 uls p -> run_ok (thread_id_ (p_logger p0)) uls ->
  exists ls acc done pend, simulation p0 uls p ls acc /\
    inv (Sk := Sk) fmt_output memory clock D F sinks0 (starts ls) (Z.of_nat (length ls)) done pend
      (system_of p acc).
Proof.
  intros H0 He Hok. destruct (program_simulation p0 uls p H0 He Hok) as (ls & acc & S).
  destruct (exec_inv fmt_output memory clock eval_order D F sinks0 Hclock Horder (system_of p0 []) ls
    (system_of p acc) (fp_worker _ H0) (sim_exec _ _ _ _ _ S) (simulation_trace _ _ _ _ _ S Hok))
    as (done & pend & I).
  by exists ls, acc, done, pend.
Qed.

(** When a call of the user's thread returns, nothing is waiting. *)
Lemma return_empties n k done pend p acc ul p' :
  inv (Sk := Sk) fmt_output memory clock D F sinks0 n k done pend (system_of p acc) ->
  ul = UFlushReturn \/ ul = UStopReturn -> program_step p ul p' -> pend = [].
Proof.
  intros I Hul Hstep.
  destruct Hul as [-> | ->]; inversion Hstep as [| | | | | | |? sq Hu Hle| | |? t Hu Hpc]; subst.
  - apply (inv_flushed _ _ _ _ _ _ _ _ _ _ _ I sq); [|done]. cbn. by rewrite Hu.
  - pose proof (inv_pc _ _ _ _ _ _ _ _ _ _ _ I) as Hp. cbn in Hp. rewrite Hpc in Hp. apply Hp.
Qed.

(** [~InternalLogger] stops the worker first if it runs, and [~BackendWorker] after it once more; a
    worker that does not run has left nothing. *)
Lemma destructor_empties n k done pend p acc :
  inv (Sk := Sk) fmt_output memory clock D F sinks0 n k done pend (system_of p acc) ->
  destructor_stops (backend_worker_ (p_logger p)) = false -> pend = [].
Proof.
  intros I Hst%bool_decide_eq_false.
  pose proof (inv_life _ _ _ _ _ _ _ _ _ _ _ I) as Hl. pose proof (inv_pc _ _ _ _ _ _ _ _ _ _ _ I) as Hp.
  cbn [system_of s_pc s_worker s_client] in Hl, Hp. assert (p_worker_pc p = WNone) as Hpc.
  { destruct n; cbn in Hl; [tauto|]. destruct (p_worker_pc p); [done|..]; by destruct Hst, Hl. }
  rewrite Hpc in Hp. apply Hp.
Qed.

(** Steps of the worker alone. *)
Inductive worker_runs : nat -> program -> program -> Prop :=
  | wr_nil p : worker_runs 0 p p
  | wr_cons k p p1 p2 : program_step p UWorker p1 -> worker_runs k p1 p2 -> worker_runs (S k) p p2.

Lemma worker_lift p acc s' :
  sys_step fmt_output memory clock eval_order (system_of p acc) LWorker s' ->
  exists p', program_step p UWorker p' /\ s' = system_of p' acc /\ p_user p' = p_user p.
Proof.
  intros H. inversion H as [? q' w' pc' Hw| | | | | |]; subst. cbn [system_of s_queue s_worker s_pc s_client accepted] in *.
  eexists. split; [by eapply prog_worker | done].
Qed.

Lemma worker_runs_lift j s s' :
  worker_run fmt_output memory clock eval_order j s s' -> forall p acc, s = system_of p acc ->
  exists p', worker_runs j p p' /\ s' = system_of p' acc /\ p_user p' = p_user p.
Proof.
  induction 1 as [s|j s s1 s2 Hstep Hrun IH]; intros p acc ->.
  - exists p. split; [apply wr_nil | done].
  - destruct (worker_lift p acc s1 Hstep) as (p1 & Hp1 & -> & Hu1).
    destruct (IH p1 acc eq_refl) as (p' & Hr & -> & Hu). exists p'.
    split; [by eapply wr_cons | split; [done | congruence]].
Qed.

(** ** Properties *)

(** C2. The logger and the worker thread, every interleaving of log calls, level changes, flushes, the
    start and the stop of the worker with the steps of its loop: the messages counted as enqueued
    are a subsequence of the log calls; the first of them are with every sink, in the order of the
    calls, once each, and the others wait in the queue; nothing waits when a flush, a stop or the
    stop in a fatal call returns; and no log call and no step of the worker is undefined. All this
    under conditions: every message can be delivered (its record fits the dequeue buffer, its text
    the format buffer and the sinks, and what a call by reference leads to is alive; without the
    first of these the worker is undefined, [dequeue_buffer_bound]); the worker is started at most
    once; the arguments of five and more are evaluated from left to right; the run is shorter than
    2 ^ 63 steps of the user; and the memory is sequentially consistent: for the memory orders of
    C++ see SpscMemory.v and WorkerMemory.v, where the worker's peek in an ordinary turn is a data
    race. *)
Theorem program_delivers p0 uls p :
  fresh_program p0 -> program_exec p0 uls p -> run_ok (thread_id_ (p_logger p0)) uls ->
  exists done pend,
    (done ++ pend) `sublist_of` messages (thread_id_ (p_logger p0)) uls /\
    enqueued_count_ (p_logger p) = lenZ (done ++ pend) /\
    sinks_ (backend_worker_ (p_logger p)) = deliver_all fmt_output memory clock sinks0 0 done /\
    queued (queue_ (p_logger p)) pend /\
    (forall ul p', ul = UFlushReturn \/ ul = UStopReturn -> program_step p ul p' -> pend = []) /\
    (running (p_worker_pc p) -> exists p', program_step p UWorker p') /\
    (p_user p = Idle -> forall c, call_compiles c -> exists p', program_step p (ULog c) p').
Proof.
  intros H0 He Hok. destruct (program_invariant p0 uls p H0 He Hok) as (ls & acc & done & pend & S & I).
  pose proof I as [Ha Hq _ _ Hs _ _ _ _ _]. cbn [system_of accepted s_queue s_worker] in Ha, Hq, Hs.
  exists done, pend. rewrite <- Ha. split_and!; [apply S | apply S | exact Hs | exact Hq | | |].
  - intros ul p' Hul Hstep. by eapply return_empties.
  - intros Hrun. destruct (inv_step_defined fmt_output memory clock eval_order D F sinks0 Hclock Horder
      _ _ _ _ _ I Hrun) as [s' Hs']. destruct (worker_lift p acc s' Hs') as (p' & Hp' & _). by exists p'.
  - intros Hu c Hc. destruct (run_call_shared pend (p_logger p) c (sizes_ok _ _ (sim_sizes _ _ _ _ _ S) Hq) Hc)
      as (l' & [Hr|[Hr _]] & _); eexists; [by apply prog_log | by apply prog_log_fatal].
Qed.

(** C3. Flushing and stopping end, and a fatal message is not lost with the program: from every state in
    which the user's thread waits, the worker brings the call to its return by steps of its own, at
    most two per accepted message and ten more; then every message counted as enqueued is with every
    sink and the queue is empty; and a log call that is to terminate the program gets there. The
    states are those of the runs of [program_delivers], with the same conditions: deliverable
    messages, evaluation from left to right, sequential consistency, and at most one start - after a
    second one a flush never returns, [restart_flush_hangs]. *)
Theorem program_calls_return p0 uls p :
  fresh_program p0 -> program_exec p0 uls p -> run_ok (thread_id_ (p_logger p0)) uls ->
  p_user p <> Idle -> p_user p <> Ended ->
  exists j p1 ul p2 ms, worker_runs j p p1 /\ Z.of_nat j <= 2 * enqueued_count_ (p_logger p) + 10 /\
    (ul = UFlushReturn \/ ul = UStopReturn) /\ program_step p1 ul p2 /\
    ms `sublist_of` messages (thread_id_ (p_logger p0)) uls /\ enqueued_count_ (p_logger p) = lenZ ms /\
    sinks_ (backend_worker_ (p_logger p2)) = deliver_all fmt_output memory clock sinks0 0 ms /\
    bq_contents (queue_ (p_logger p2)) = [] /\
    (p_user p = Stopping true -> p_user p2 = Ended).
Proof.
  intros H0 He Hok Hu1 Hu2. destruct (program_invariant p0 uls p H0 He Hok) as (ls & acc & done & pend & S & I).
  assert (client_of (p_user p) <> CIdle) as Hcl by (by destruct (p_user p)).
  destruct (starts ls) as [|n]; [destruct (inv_life _ _ _ _ _ _ _ _ _ _ _ I) as (_ & ? & _); done|].
  pose proof (inv_accepted _ _ _ _ _ _ _ _ _ _ _ I) as Ha. cbn [system_of accepted] in Ha.
  destruct (waiting_returns fmt_output memory clock eval_order D F sinks0 Hclock Horder n _
    (2 * length pend + 9) done pend _ I) as (j & s' & Hj & Hrun & Hr & Hc & Hac & d' & p' & I').
  { apply steps_left_bound. }
  destruct (worker_runs_lift _ _ _ Hrun p acc eq_refl) as (p1 & Hr1 & -> & Hu). cbn in Hac.
  assert (p' = [] -> all_delivered fmt_output memory clock sinks0 (system_of p1 acc)) as Hall
    by (intros ->; by eapply inv_all_delivered).
  assert (Z.of_nat j <= 2 * enqueued_count_ (p_logger p) + 10) as Hjle.
  { rewrite (sim_count _ _ _ _ _ S), Ha. unfold lenZ. rewrite length_app. lia. }
  pose proof I' as [_ _ _ _ _ _ _ _ Hp' Hfl']. unfold returnable in Hr. cbn in Hr, Hp', Hfl'. rewrite Hu in *.
  destruct (p_user p) as [|sq|t|] eqn:Eu; try done; cbn [client_of] in *.
  - apply Z.leb_le in Hr. destruct (Hall (Hfl' sq eq_refl Hr)) as [Hq Hs].
    exists j, p1, UFlushReturn. eexists _, acc. split_and!; [exact Hr1 | done | by left | | apply S | apply S | | |].
    + by eapply prog_flush_return.
    + exact Hs.
    + exact Hq.
    + done.
  - assert (p_worker_pc p1 = WExited) as Hpc by (by destruct (p_worker_pc p1)). rewrite Hpc in Hp'.
    destruct (Hall (proj2 Hp')) as [Hq Hs].
    exists j, p1, UStopReturn. eexists _, acc. split_and!; [exact Hr1 | done | by right | | apply S | apply S | | |].
    + by eapply prog_stop_return.
    + exact Hs.
    + exact Hq.
    + by intros [= ->].
Qed.
End program.

(** ** Witnesses *)

(** The logger of InternalLogger.v before its worker is started. *)
Definition example_program (q : SpscQueue) : program (Sk := Recorder) :=
  {| p_logger := put_worker (example_logger q) example_worker; p_worker_pc := WNone; p_user := Idle |}.

#[local] Abbreviation ex_fresh := (fresh_program (CI := example_image) 4096 2048 [[] : Recorder]).
#[local] Abbreviation ex_step :=
  (program_step (CI := example_image) show_values tt (λ _, 5) (seq 0)).
#[local] Abbreviation ex_exec :=
  (program_exec (CI := example_image) show_values tt (λ _, 5) (seq 0)).

Lemma five_o_clock (n : nat) : 0 <= 5 < 2 ^ 64.
Proof. lia. Qed.

Lemma example_program_fresh : exists q, ex_fresh (example_program q).
Proof.
  destruct example_logger_ok as (q & Hok & Hc & _). exists q.
  destruct Hok as [H1 H2 H3 H4]. split; try done. split; try done. apply example_ready.
Qed.

Lemma example_call_fine : call_fine (Sk := Recorder) (CI := example_image) show_values tt 4096 2048 7 (ULog example_literal).
Proof.
  pose proof example_compiles as Hc. inversion_clear Hc. split; [done|].
  repeat constructor; vm_compute; congruence.
Qed.

Lemma example_started q :
  ex_fresh (example_program q) -> exists p1, ex_exec (example_program q) [UStart] p1 /\ p_user p1 = Idle /\
  status_ (backend_worker_ (p_logger p1)) = kRunning.
Proof.
  intros H0. eexists. split; [|split].
  - eapply (pexec_snoc _ _ _ _ _ []); [apply pexec_nil|]. by apply prog_start.
  - done.
  - done.
Qed.

Lemma program_delivers_witness :
  exists q p dn pend, ex_exec (example_program q) [UStart] p /\
    sinks_ (backend_worker_ (p_logger p)) = deliver_all show_values tt (λ _, 5) [[] : Recorder] 0 dn /\
    queued (CI := example_image) (queue_ (p_logger p)) pend /\
    exists p', ex_step p (ULog example_literal) p'.
Proof.
  destruct example_program_fresh as [q H0]. destruct (example_started q H0) as (p1 & He & Hu & _).
  destruct (program_delivers (CIL := one_site_laws _ _ _) show_values tt (λ _, 5) (seq 0) 4096 2048 [[] : Recorder]
    five_o_clock (λ n _, eq_refl) (example_program q) [UStart] p1 H0 He)
    as (dn & pend & _ & _ & Hs & Hq & _ & _ & Hlog).
  - split; [repeat constructor | split; [simpl; lia | reflexivity]].
  - exists q, p1, dn, pend. split; [exact He|]. split; [exact Hs|]. split; [exact Hq|].
    apply (Hlog Hu). apply example_call_fine.
Defined.

Lemma program_calls_return_witness :
  exists q p j p1 ul p2, ex_exec (example_program q) [UStart; UFlush] p /\
    worker_runs (CI := example_image) show_values tt (λ _, 5) (seq 0) j p p1 /\ ex_step p1 ul p2.
Proof.
  destruct example_program_fresh as [q H0]. destruct (example_started q H0) as (p1 & He & Hu & Hst).
  pose proof (pexec_snoc _ _ _ _ _ _ _ _ _ He
    (prog_flush (CI := example_image) show_values tt (λ _, 5) (seq 0) p1 Hu Hst)) as He1.
  set (p2 := Build_program _ _ _) in He1. exists q, p2.
  destruct (program_calls_return (CIL := one_site_laws _ _ _) show_values tt (λ _, 5) (seq 0) 4096 2048 [[] : Recorder]
    five_o_clock (λ n _, eq_refl) (example_program q) [UStart; UFlush] p2 H0 He1)
    as (j & p' & ul & p'' & ms & Hr & _ & _ & Hs & _).
  - split; [repeat constructor | split; [simpl; lia | reflexivity]].
  - discriminate.
  - discriminate.
  - exists j, p', ul, p''. split; [exact He1|]. split; [exact Hr | exact Hs].
Defined.
