(* ===== verification/Facade.v ===== *)
(** * Setting a logger up

    src/src/include/femtolog/logger.h, src/src/femtolog/logger.cc and the delegating members of
    src/src/logging/impl/internal_logger.cc: the loggers of a process, and what they are after the
    calls that a program makes before it logs. [Logger] holds a pointer to an [InternalLogger] and
    nothing else, so its members are functions of that. *)

From stdpp Require Import gmap.
From S2P Require Import Prelude Ring ByteQueue SpscQueue LogEntry StringRegistry Serializer SinkInterface.
From S2P Require Import Diagnostics BackendWorker BackendConcurrent InternalLogger LoggerConcurrent.

Section facade.
Context {Sk : Type} {SB : SinkBase Sk} {CI : CodeImage}.
Abbreviation logger := (InternalLogger (Q := SpscQueue) (Sk := Sk)).

(** [InternalLogger::register_sink] and [clear_sinks]. *)
Definition logger_register_sink (l : logger) (sink : Sk) : logger :=
  put_worker l (register_sink (backend_worker_ l) sink).

Definition logger_clear_sinks (l : logger) : logger := put_worker l (clear_sinks (backend_worker_ l)).

(** [Logger::init]: the logger, and the handlers of the process. [format_capacity] is what
    [fmt::memory_buffer::reserve] makes of the size asked for. *)
Definition logger_facade_init (alloc : Z -> option bytes) (is_debug : bool) (l : logger) (p : process)
    (options : FemtologOptions) (format_capacity : Z) : option (logger * process) :=
  l' ← logger_init (reserve alloc) l options format_capacity;
  Some (l', (register_exception_handlers is_debug p).1).

(** [Logger::create_logger]: the memory of the new object is [args] and [entry]. *)
Definition create_logger (thread_hash : Z) (args entry : bytes) : logger :=
  logger_new thread_hash spsc_new args entry.

(** ** The loggers of a process

    [Logger::logger] has one object per thread, [Logger::global_logger] one for all; each is made
    by the first call. *)
Record loggers := { per_thread : gmap Z logger; global : option logger }.

Definition logger_of_thread (create : logger) (thread : Z) (ls : loggers) : logger * loggers :=
  match per_thread ls !! thread with
  | Some l => (l, ls)
  | None => (create, {| per_thread := <[thread := create]> (per_thread ls); global := global ls |})
  end.

Definition global_logger (create : logger) (ls : loggers) : logger * loggers :=
  match global ls with
  | Some l => (l, ls)
  | None => (create, {| per_thread := per_thread ls; global := Some create |})
  end.

(** [InternalLogger::is_ansi_sequence_available] on POSIX asks the system once. *)
Definition is_ansi_sequence_available (isatty : bool) (result : option bool) : bool * option bool :=
  match result with Some b => (b, result) | None => (isatty, Some isatty) end.

(** ** A program before it logs *)

(** A logger is made, set up, and given its sinks. *)
Definition set_up (alloc : Z -> option bytes) (is_debug : bool) (thread_hash : Z) (args entry : bytes)
    (p : process) (options : FemtologOptions) (format_capacity : Z) (sinks : list Sk) :
    option (program (Q := SpscQueue) (Sk := Sk) * process) :=
  '(l, p') ← logger_facade_init alloc is_debug (create_logger thread_hash args entry) p options format_capacity;
  Some ({| p_logger := fold_left logger_register_sink sinks l; p_worker_pc := WNone; p_user := Idle |}, p').

Lemma registered sinks : forall l : logger,
  fold_left logger_register_sink sinks l =
    put_worker l (set_buffers (backend_worker_ l) (dequeue_buffer_ (backend_worker_ l))
      (format_buffer_ (backend_worker_ l)) (sinks_ (backend_worker_ l) ++ sinks) (clock_reads (backend_worker_ l))).
Proof.
  induction sinks as [|s sinks IH]; intros [lv t e d r a q b [dq fb sk aff sh rq cp idl st tk] tf]; cbn [fold_left].
  - cbn. by rewrite app_nil_r.
  - rewrite IH. cbn. by rewrite <- app_assoc.
Qed.

Lemma thread_id_range h : 0 <= current_thread_id h < 2 ^ 32 /\ Z.odd (current_thread_id h) = true.
Proof.
  unfold current_thread_id. pose proof (Z.mod_pos_bound h (2 ^ 32) ltac:(lia)) as Hm. fold (u32 h) in Hm.
  assert (0 <= Z.lor (u32 h) 1) as H0 by (apply Z.lor_nonneg; lia). split.
  - split; [done|]. destruct (Z.eq_dec (Z.lor (u32 h) 1) 0) as [->|Hne]; [done|].
    apply Z.log2_lt_pow2; [lia|]. rewrite Z.log2_lor by lia. apply Z.max_lub_lt; [|done].
    destruct (Z.eq_dec (u32 h) 0) as [->|Hz]; [done|]. apply Z.log2_lt_pow2; lia.
  - rewrite <- Z.bit0_odd, Z.lor_spec. apply orb_true_r.
Qed.

(** Set-up. When the memory for the queue is there, a logger that is made, set up with any options and
    given its sinks is what the theorems on logging start from: idle, with an empty queue of at
    least the size asked for, buffers of the sizes of the options, exactly these sinks in this
    order, an odd thread id, and nothing counted; and a crash of the process is reported from then
    on. *)
Theorem set_up_is_fresh alloc is_debug thread_hash args entry p options format_capacity sinks :
  alloc_sized alloc -> (forall n, alloc n <> None) ->
  0 <= spsc_queue_size options <= 2 ^ 63 -> 0 <= backend_dequeue_buffer_size options ->
  0 <= backend_format_buffer_size options <= format_capacity ->
  lenZ args = kSerializerCapacity -> lenZ entry = sizeof_LogEntry + kMaxPayloadSize ->
  Forall sink_valid sinks -> initialized p = false ->
  exists prog p', set_up alloc is_debug thread_hash args entry p options format_capacity sinks = Some (prog, p') /\
    fresh_program (backend_dequeue_buffer_size options) format_capacity sinks prog /\
    spsc_queue_size options <= capacity_ (queue_ (p_logger prog)) /\
    level_ (p_logger prog) = kInfo /\ Z.odd (thread_id_ (p_logger prog)) = true /\
    dropped_count_ (p_logger prog) = 0 /\
    terminate_on_fatal_ (p_logger prog) = terminate_on_fatal options /\
    initialized p' = true /\ on_terminate p' = Handler.
Proof.
  intros Ha Hmem Hq Hd Hf Hargs Hentry Hsinks Hp.
  destruct (thread_id_range thread_hash) as [Hid Hodd].
  destruct (next_power_of_2_spec (spsc_queue_size options) Hq) as (k & Hk & Hpow & _).
  assert (exists q, reserve alloc (spsc_queue_size options) = Some q /\ buffer_ q <> None) as (q & Er & Hb).
  { unfold reserve. rewrite Hpow. cbn [mbind option_bind].
    destruct (alloc _) as [b|] eqn:Eb; [by eexists | by apply Hmem in Eb]. }
  destruct (reserve_valid alloc _ q Ha Hq Er) as [?|(Hv & Hc & Hcap & _)]; [done|].
  unfold set_up, logger_facade_init, create_logger, logger_init. rewrite Er. cbn [mbind option_bind].
  eexists _, _. split; [reflexivity|]. cbn [p_logger]. rewrite registered. cbn.
  rewrite decide_True by done. cbn. split; [|split_and!; try done].
  - assert (0 <= format_capacity) as Hf0 by lia. split; try done. split; try done.
    + by apply queued_nil.
    + split; cbn; [unfold lenZ; rewrite length_replicate; lia..| done].
  - unfold register_exception_handlers. by rewrite Hp.
  - unfold register_exception_handlers. rewrite Hp. by destruct is_debug.
Qed.
End facade.

(** ** Witness *)

Lemma set_up_is_fresh_witness :
  exists prog p', set_up (Sk := Recorder) zero_alloc false 0 (replicate (Z.to_nat 2048) Byte.x00)
      (replicate (Z.to_nat 1024) Byte.x00) quiet default_options 2048 [[]] = Some (prog, p') /\
    fresh_program (CI := example_image) 4096 2048 [[] : Recorder] prog.
Proof.
  destruct (set_up_is_fresh (Sk := Recorder) (CI := example_image) zero_alloc false 0
    (replicate (Z.to_nat 2048) Byte.x00) (replicate (Z.to_nat 1024) Byte.x00) quiet default_options 2048 [[]])
    as (prog & p' & E & H & _).
  - exact zero_alloc_sized.
  - discriminate.
  - split; vm_compute; discriminate.
  - vm_compute; discriminate.
  - split; vm_compute; discriminate.
  - reflexivity.
  - reflexivity.
  - repeat constructor.
  - reflexivity.
  - exists prog, p'. split; [exact E | exact H].
Defined.
