(* ===== verification/EndToEnd.v ===== *)
(** * From the log call to the file

    The parts together: a logger (InternalLogger.v) over any queue that keeps its promise, the
    backend worker (BackendWorker.v), and one of its sinks a [FileSink] over any file system that
    keeps its promise (Sinks.v, FileSystem.v). *)

From S2P Require Import Prelude ByteQueue SpscQueue FileSystem LogFile LogEntry.
From S2P Require Import StringRegistry Serializer SinkInterface Sinks BackendWorker.
From S2P Require Import BackendConcurrent InternalLogger LoggerConcurrent.

Section end_to_end.
Context {Q : Type} {BQ : ByteQueue Q} {BQL : ByteQueueLaws Q}.
Context {W : Type} {FS : FileSystem W} {FSL : FileSystemLaws W}.
Context {CI : CodeImage} {CIL : CodeImageLaws CI}.
Context (time_text : bytes -> Z -> bytes) (json_text : Z -> bytes -> bytes -> bytes).
Context (Htimes : times_fit time_text).
Context {heap : Type} {PM : ProgramMemory heap} (fmt_output : heap -> bytes -> list value -> bytes) (memory : heap).
Context (clock : nat -> Z) (eval_order : nat -> list nat).
Context (Hclock : forall n, 0 <= clock n < 2 ^ 64) (Horder : forall n, (4 < n)%nat -> eval_order n = seq 0 n).

#[local] Instance all_sinks : SinkBase (AnySink (W := W)) := any_sink time_text json_text.
#[local] Instance all_sinks_laws : SinkLaws (AnySink (W := W)) := any_sink_laws time_text json_text Htimes.

Abbreviation text := (text_of fmt_output memory).

(** The messages as the sinks get them: stamped with the readings of the clock. *)
Fixpoint stamped (ticks : nat) (ms : list message) : list (LogLevel * Z * bytes) :=
  match ms with
  | [] => []
  | m :: rest => (m_level m, clock ticks, text m) :: stamped (S ticks) rest
  end.

(** What the messages are in the file. *)
Definition file_lines (ticks : nat) (ms : list message) : list bytes :=
  (fun '(level, ts, t) => file_line time_text level ts t) <$> stamped ticks ms.

(** A file sink among the sinks of the worker goes through the log calls of its own messages,
    whatever the other sinks are. *)
Lemma deliver_all_file ms : forall sinks i f ticks f',
  sinks !! i = Some (AFileSink f) ->
  log_all (file_log time_text) f (stamped ticks ms) = Some f' ->
  deliver_all fmt_output memory clock sinks ticks ms !! i = Some (AFileSink f').
Proof.
  induction ms as [|m ms IH]; intros sinks i f ticks f' Hi; cbn [stamped log_all deliver_all].
  { by intros [= <-]. }
  destruct (file_log _ _ _ _ _ _) as [f1|] eqn:E; [|done]. cbn [mbind option_bind].
  apply IH. rewrite list_lookup_fmap, Hi. cbn. by rewrite E.
Qed.

(** The messages a worker delivers fit a line of the file. *)
Lemma deliverable_lines D F ms : forall ticks,
  Forall (deliverable fmt_output memory D F) ms ->
  Forall (fun '(level, ts, t) => lenZ (file_line time_text level ts t) <= kFileCapacity)
    (stamped ticks ms).
Proof.
  induction ms as [|m ms IH]; intros ticks Hms; [constructor|].
  apply Forall_cons in Hms as [(_ & _ & _ & _ & _ & Hacc) Hms]. constructor; [|by apply IH].
  apply (Hacc (clock ticks) (Hclock ticks)).
Qed.

(** What a file sink among the sinks has put into its file. *)
Lemma delivered_to_file D F ms sinks i f ticks path old lines :
  sinks !! i = Some (AFileSink f) -> Forall sink_valid sinks -> holds f path old lines ->
  Forall (deliverable fmt_output memory D F) ms ->
  let lines' := lines ++ file_lines ticks ms in
  exists f', deliver_all fmt_output memory clock sinks ticks ms !! i = Some (AFileSink f') /\
    holds f' path old lines' /\ written (world (sink_close f')) path old lines'.
Proof.
  intros Hi Hv Hh Hms lines'. rewrite Forall_lookup in Hv. pose proof (Hv i _ Hi) as Hf.
  destruct (log_all_stream kFileCapacity (file_log time_text)
    (fun '(level, ts, t) => file_line time_text level ts t)
    (fun '(level, ts, t) => lenZ (file_line time_text level ts t) <= kFileCapacity))
    with (ms := stamped ticks ms) (s := f) (path := path) (old := old) (lines := lines)
    as (f' & Hlog & _ & Hh' & Hc); [done | | exact Hf | done | by eapply deliverable_lines |].
  { intros s level ts t Hs0 Hl. apply file_log_ok; [done..| apply mem_load_all | done]. }
  exists f'. split_and!; [by eapply deliver_all_file | done..].
Qed.

(** One thread: any log calls on a logger with an empty queue, a flush of the worker, and the sink
    closed. The file holds what it held, and behind it the lines of the messages that were counted
    as enqueued, in the order of the calls and once each, as far as the system takes the writes. *)
Theorem logged_reaches_file (l : InternalLogger (Q := Q) (Sk := AnySink (W := W))) cs D F fuel i f
    path old lines :
  logger_ok [] l -> Forall call_compiles cs -> 0 <= enqueued_count_ l ->
  enqueued_count_ l + lenZ cs < 2 ^ 64 -> worker_ready D F (backend_worker_ l) ->
  Forall (fun c => deliverable fmt_output memory D F (message_of (thread_id_ l) c)) cs ->
  (length cs < fuel)%nat ->
  sinks_ (backend_worker_ l) !! i = Some (AFileSink f) -> holds f path old lines ->
  exists l' ms q' w' f', run_calls l cs = Some l' /\
    ms `sublist_of` (message_of (thread_id_ l) <$> cs) /\
    enqueued_count_ l' = enqueued_count_ l + lenZ ms /\
    flush_impl fmt_output memory clock eval_order fuel (queue_ l') (backend_worker_ l') =
      Some (Some (q', w')) /\
    sinks_ w' !! i = Some (AFileSink f') /\
    written (world (sink_close f')) path old
      (lines ++ file_lines (clock_reads (backend_worker_ l)) ms).
Proof.
  intros Hok Hcs H0 Hlt Hw Hd Hfuel Hi Hh.
  destruct (run_calls_ok cs [] l Hok Hcs H0 Hlt) as (l' & ms & Hr & Hok' & Hsub & He & Hbw).
  assert (Forall (deliverable fmt_output memory D F) ms) as Hms
    by (eapply sublist_Forall; [exact Hsub | by apply Forall_fmap]).
  pose proof (sublist_length _ _ Hsub) as Hlen. rewrite length_fmap in Hlen.
  rewrite <- Hbw in Hw.
  destruct (flush_impl_drains fmt_output memory clock eval_order Hclock Horder
    D F (queue_ l') (backend_worker_ l') ms fuel Hw (ok_queue _ _ Hok') Hms ltac:(lia))
    as (q' & w' & Hfl & _ & _ & _ & _ & Hs & _).
  rewrite Hbw in Hs, Hw.
  destruct (delivered_to_file D F ms _ i f (clock_reads (backend_worker_ l)) path old lines Hi
    (ready_sinks _ _ _ Hw) Hh Hms) as (f' & Hf' & _ & Hc).
  exists l', ms, q', w', f'. split_and!; try done. by rewrite Hs.
Qed.

(** C1. The whole path. The user's thread makes log calls, changes the level, flushes, stops and - at
    most once - starts the worker, the worker's thread runs its loop, and the steps of the two
    interleave in any way of a sequentially consistent memory. Conditions: the messages can be
    delivered (they fit the buffers of worker and sinks, what they refer to is alive), the arguments
    of a call of five or more are evaluated from left to right, the run has fewer than 2 ^ 63 steps
    of the user, and the sink is the only writer of
    its file. Then at every moment a file sink among the worker's sinks has been given, in the order
    of the calls and once each, the lines of the first [k] of the messages counted as enqueued, each
    made of the time of delivery, the level's name and the text the format gives on the call's
    arguments; they are in its file or still in its buffer, and were the sink closed at that moment
    (only then, or when its buffer is full, is the buffer written: a flush of the logger does not),
    the file would have them behind what it held: of every write what the system takes, exactly the
    lines if every write is taken whole. [k] is all of the messages when a flush, a stop or a fatal
    call is about to return, and when the destructor of the logger, which stops a worker that runs
    before it closes the sinks, has none to stop. *)
Theorem program_reaches_file (p0 : program (Q := Q) (Sk := AnySink (W := W))) uls p D F sinks0 i f
    path old lines :
  fresh_program D F sinks0 p0 -> program_exec fmt_output memory clock eval_order p0 uls p ->
  run_ok fmt_output memory D F (thread_id_ (p_logger p0)) uls ->
  sinks0 !! i = Some (AFileSink f) -> holds f path old lines ->
  exists ms k f', ms `sublist_of` messages (thread_id_ (p_logger p0)) uls /\
    enqueued_count_ (p_logger p) = lenZ ms /\
    sinks_ (backend_worker_ (p_logger p)) !! i = Some (AFileSink f') /\
    (let lines' := lines ++ file_lines 0 (take k ms) in
     holds f' path old lines' /\ written (world (sink_close f')) path old lines' /\
     (writes_complete -> content (world (sink_close f')) path = Some (old ++ concat lines'))) /\
    (forall ul p', ul = UFlushReturn \/ ul = UStopReturn ->
      program_step fmt_output memory clock eval_order p ul p' -> take k ms = ms) /\
    (destructor_stops (backend_worker_ (p_logger p)) = false -> take k ms = ms).
Proof.
  intros H0 He Hok Hi Hh.
  destruct (program_invariant fmt_output memory clock eval_order D F sinks0 Hclock Horder p0 uls p H0 He Hok)
    as (ls & acc & done & pend & S & I).
  pose proof (inv_accepted _ _ _ _ _ _ _ _ _ _ _ I) as Ha. cbn in Ha. subst acc.
  pose proof (inv_sinks _ _ _ _ _ _ _ _ _ _ _ I) as Hs. cbn in Hs.
  pose proof (sim_accepted _ _ _ _ _ _ _ _ _ _ _ S) as Hsub.
  assert (Forall (deliverable fmt_output memory D F) (done ++ pend)) as Hms.
  { eapply sublist_Forall; [exact Hsub|]. apply messages_deliverable, Hok. }
  apply Forall_app in Hms as [Hms _].
  pose proof (fp_worker _ _ _ _ H0) as Hw. pose proof (fresh_ready _ _ _ _ Hw) as Hr.
  pose proof (fresh_sinks _ _ _ _ Hw) as Hs0. pose proof (ready_sinks _ _ _ Hr) as Hv. rewrite Hs0 in Hv.
  destruct (delivered_to_file D F done sinks0 i f 0 path old lines Hi Hv Hh Hms) as (f' & Hf' & Hh' & Hc).
  exists (done ++ pend), (length done), f'. rewrite take_app_length.
  split; [exact Hsub|]. split; [apply S|]. split; [by rewrite Hs|]. split; [split_and!; [exact Hh' | exact Hc | intros; by apply written_complete]|]. split.
  - intros ul p' Hul Hstep. rewrite (return_empties _ _ _ _ _ _ _ _ _ _ _ _ _ _ _ I Hul Hstep). by rewrite app_nil_r.
  - intros Hst. rewrite (destructor_empties _ _ _ _ _ _ _ _ _ _ _ _ I Hst). by rewrite app_nil_r.
Qed.
End end_to_end.

(** ** Witness *)

#[local] Instance memory_files : FileSystem MemFs := mem_fs id.
#[local] Instance memory_files_laws : FileSystemLaws MemFs := mem_fs_laws _.
#[local] Instance noon_sinks : SinkBase (AnySink (W := MemFs)) := any_sink noon starry.

Definition example_file : SinkFile :=
  {| fd_ := 1; buffer_ := replicate (Z.to_nat kFileCapacity) Byte.x00; cursor_ := 0;
     world := sink_world |}.

(** A worker with a null sink and a file sink, and the logger of InternalLogger.v with it. *)
Definition file_worker : BackendWorker (Sk := AnySink (W := MemFs)) :=
  register_sink (register_sink (worker_init worker_new default_options 2048) ANullSink)
    (AFileSink example_file).

Definition file_logger (q : SpscQueue) : InternalLogger (Sk := AnySink (W := MemFs)) :=
  {| level_ := kInfo; thread_id_ := 7; enqueued_count_ := 0; dropped_count_ := 0;
     string_registry_ := registry_new; serializer_args := replicate (Z.to_nat 2048) Byte.x00;
     queue_ := q; entry_buffer_ := replicate (Z.to_nat 1024) Byte.x00;
     backend_worker_ := set_flags file_worker false 0 0 kRunning;
     terminate_on_fatal_ := false |}.

Lemma file_logger_ok :
  exists q, logger_ok (CI := example_image) [] (file_logger q) /\
    worker_ready 4096 2048 (backend_worker_ (file_logger q)).
Proof.
  destruct example_logger_ok as (q & Hok & _). exists q. split.
  - destruct Hok. by split.
  - split; [done..|]. by repeat constructor.
Qed.

Lemma example_calls_deliverable :
  Forall (fun c => deliverable (CI := example_image) show_values tt 4096 2048 (message_of 7 c))
    [example_literal; example_call].
Proof.
  repeat constructor; try (vm_compute; congruence).
Qed.

Lemma logged_reaches_file_witness :
  exists q l' ms q' w' f',
    run_calls (CI := example_image) (file_logger q) [example_literal; example_call] = Some l' /\
    flush_impl (CI := example_image) show_values tt (λ _, 5) (seq 0) 3 (queue_ l')
      (backend_worker_ l') = Some (Some (q', w')) /\
    sinks_ w' !! 1%nat = Some (AFileSink f') /\
    content (world (sink_close f')) (bs "x.log") =
      Some (concat (file_lines noon show_values tt (λ _, 5) 0 ms)).
Proof.
  destruct file_logger_ok as (q & Hok & Hw).
  destruct (logged_reaches_file (CI := example_image) (CIL := one_site_laws _ _ _) noon starry
    noon_fits show_values tt (λ _, 5) (seq 0)) with (l := file_logger q)
    (cs := [example_literal; example_call]) (D := 4096) (F := 2048) (fuel := 3%nat) (i := 1%nat)
    (f := example_file) (path := bs "x.log") (old := @nil Init.Byte.byte) (lines := @nil bytes)
    as (l' & ms & q' & w' & f' & H1 & _ & _ & H2 & H3 & H4).
  - intros n. split; [discriminate | reflexivity].
  - reflexivity.
  - exact Hok.
  - exact example_compiles.
  - discriminate.
  - reflexivity.
  - exact Hw.
  - exact example_calls_deliverable.
  - vm_compute; repeat constructor.
  - reflexivity.
  - apply log_sink_holds.
  - exists q, l', ms, q', w', f'. split; [exact H1|]. split; [exact H2|]. split; [exact H3|].
    exact (written_complete _ _ _ _ whole_complete H4).
Defined.

Definition file_program (q : SpscQueue) : program (Sk := AnySink (W := MemFs)) :=
  {| p_logger := put_worker (file_logger q) file_worker; p_worker_pc := WNone; p_user := Idle |}.

Lemma file_program_fresh :
  exists q, fresh_program (CI := example_image) 4096 2048 [ANullSink; AFileSink example_file] (file_program q).
Proof.
  destruct file_logger_ok as (q & [H1 H2 H3 H4] & [H5 H6 H7]). exists q. by split.
Qed.

(** The worker is started and a message logged. *)
Lemma file_program_logs q :
  fresh_program (CI := example_image) 4096 2048 [ANullSink; AFileSink example_file] (file_program q) ->
  exists p, program_exec (CI := example_image) show_values tt (λ _, 5) (seq 0) (file_program q)
    [UStart; ULog example_literal] p.
Proof.
  intros H0. pose proof (fresh_queue _ _ _ _ (fp_worker _ _ _ _ H0)) as Hq.
  set (l := put_worker (file_logger q) (store_started file_worker)).
  destruct (run_call_shared (CI := example_image) [] l example_literal) as (l' & Hr & _).
  - by destruct file_logger_ok as (q' & [H1 H2 H3 _] & _).
  - pose proof example_compiles as Hc. by inversion_clear Hc.
  - destruct Hr as [Hr|[Hr _]]; eexists;
      (eapply (pexec_snoc _ _ _ _ _ [UStart]); [eapply (pexec_snoc _ _ _ _ _ []); [apply pexec_nil | by apply prog_start]|]);
      [by apply prog_log | by apply prog_log_fatal].
Qed.

Lemma program_reaches_file_witness :
  exists q p ms k f', program_exec (CI := example_image) show_values tt (λ _, 5) (seq 0) (file_program q)
      [UStart; ULog example_literal] p /\
    enqueued_count_ (p_logger p) = lenZ ms /\
    sinks_ (backend_worker_ (p_logger p)) !! 1%nat = Some (AFileSink f') /\
    content (world (sink_close f')) (bs "x.log") = Some (concat (file_lines noon show_values tt (λ _, 5) 0 (take k ms))).
Proof.
  destruct file_program_fresh as [q H0]. destruct (file_program_logs q H0) as [p He].
  destruct (program_reaches_file (CI := example_image) (CIL := one_site_laws _ _ _) noon starry
    noon_fits show_values tt (λ _, 5) (seq 0)) with (p0 := file_program q)
    (uls := [UStart; ULog example_literal]) (p := p) (D := 4096) (F := 2048)
    (sinks0 := [ANullSink; AFileSink example_file]) (i := 1%nat)
    (f := example_file) (path := bs "x.log") (old := @nil Init.Byte.byte) (lines := @nil bytes)
    as (ms & k & f' & _ & Hn & Hf & (_ & _ & Hc) & _).
  - intros n. split; [discriminate | reflexivity].
  - reflexivity.
  - exact H0.
  - exact He.
  - split; [|split; [simpl; lia | reflexivity]]. constructor; [exact I|]. constructor; [|constructor].
    split; [|exact (Forall_inv example_calls_deliverable)]. exact (Forall_inv example_compiles).
  - reflexivity.
  - apply log_sink_holds.
  - exists q, p, ms, k, f'. split; [exact He|]. split; [exact Hn|]. split; [exact Hf | exact (Hc whole_complete)].
Defined.
