(* ===== verification/Benchmark.v ===== *)
(** * Loops that measure

    What the benchmarks under src/src/ ask of Google Benchmark, which is not part of the source: the
    state a benchmark is run with, and the loop [for (auto _ : state)], which runs its body as often
    as the library says. The rules for such loops are proved here once. *)

From S2P Require Import Prelude.

(** [benchmark::State]: how often the loop runs, and the argument [range(0)]. *)
Record State := { max_iterations : nat; range_0 : Z }.

Section times.
Context {S A : Type}.

(** A body run [n] times, with what it gives each time; [None] is undefined behaviour. *)
Fixpoint times (n : nat) (body : S -> option (A * S)) (s : S) : option (list A * S) :=
  match n with
  | O => Some ([], s)
  | Datatypes.S n => '(a, s1) ← body s; '(l, s2) ← times n body s1; Some (a :: l, s2)
  end.

(** [for (auto _ : state)]; the results are what [DoNotOptimize] is given. *)
Definition timed (st : State) (body : S -> option (A * S)) (s : S) : option (list A * S) :=
  times (max_iterations st) body s.

Lemma times_app n m body s l1 s1 l2 s2 :
  times n body s = Some (l1, s1) -> times m body s1 = Some (l2, s2) ->
  times (n + m) body s = Some (l1 ++ l2, s2).
Proof.
  revert s l1. induction n as [|n IH]; intros s l1 H1 H2; simpl in *; [by simplify_eq|].
  destruct (body s) as [[a s']|]; [|done]. simpl in *.
  destruct (times n body s') as [[l s3]|] eqn:E; [|done]. simplify_eq/=. by rewrite (IH _ _ E H2).
Qed.

(** The rule of invariants: a body that gives [a] from every state of [I n], and leaves a state of
    [I (n + 1)], gives [a] every time. *)
Lemma times_invariant (I : nat -> S -> Prop) (a : A) body n : forall i s,
  I i s -> (forall j s, (i <= j < i + n)%nat -> I j s -> exists s', body s = Some (a, s') /\ I (Datatypes.S j) s') ->
  exists s', times n body s = Some (replicate n a, s') /\ I (i + n)%nat s'.
Proof.
  induction n as [|n IH]; intros i s Hi Hb; simpl.
  { exists s. by rewrite Nat.add_0_r. }
  destruct (Hb i s ltac:(lia) Hi) as (s1 & -> & H1). simpl.
  destruct (IH (Datatypes.S i) s1 H1) as (s2 & -> & H2).
  { intros j s' Hj. apply Hb. lia. }
  simpl. exists s2. split; [done|]. by rewrite <- plus_n_Sm.
Qed.

(** A body that gives the same from the same states. *)
Lemma times_constant (I : S -> Prop) (a : A) body n s :
  I s -> (forall s, I s -> exists s', body s = Some (a, s') /\ I s') ->
  exists s', times n body s = Some (replicate n a, s') /\ I s'.
Proof.
  intros Hs Hb. apply (times_invariant (λ _, I) a body n 0 s Hs). intros j s' _. apply Hb.
Qed.

(** A body that gives [a] until the [k]-th time, and [b] from then on. *)
Lemma times_exhaust (I : nat -> S -> Prop) (a b : A) body k n s :
  I 0%nat s ->
  (forall j s, (j < k)%nat -> I j s -> exists s', body s = Some (a, s') /\ I (Datatypes.S j) s') ->
  (forall s, I k s -> exists s', body s = Some (b, s') /\ I k s') ->
  exists s', times n body s = Some (replicate (n `min` k) a ++ replicate (n - k) b, s') /\ I (n `min` k)%nat s'.
Proof.
  intros H0 Ha Hb.
  destruct (times_invariant I a body (n `min` k) 0 s H0) as (s1 & E1 & H1); [intros; apply Ha; [lia|done]|].
  destruct (decide (n <= k)%nat) as [Hn|Hn].
  - exists s1. rewrite Nat.min_l in * by done. replace (n - k)%nat with 0%nat by lia. by rewrite app_nil_r.
  - rewrite Nat.min_r in * by lia.
    destruct (times_constant (I k) b body (n - k) s1 H1 Hb) as (s2 & E2 & H2).
    exists s2. split; [|done]. replace n with (k + (n - k))%nat at 1 by lia. by eapply times_app.
Qed.
End times.

(** A body without a state that it changes. *)
Definition timed_calls {A : Type} (st : State) (body : option A) : option (list A) :=
  fst <$> timed st (λ _ : unit, a ← body; Some (a, tt)) tt.

Lemma timed_calls_spec {A : Type} st (a : A) : timed_calls st (Some a) = Some (replicate (max_iterations st) a).
Proof.
  unfold timed_calls, timed. destruct (times_constant (λ _ : unit, True) a
    (λ _, a0 ← Some a; Some (a0, tt)) (max_iterations st) tt I) as (s' & -> & _); [|done].
  intros [] _. by exists tt.
Qed.

(** [BENCHMARK(run)->Range(args)]: without a range the argument is not looked at. *)
Record registered (Q : Type) := {
  run : (Z -> option bytes) -> State -> option Q;
  args : option (Z * Z);
}.
Arguments Build_registered {Q}. Arguments run {Q}. Arguments args {Q}.

Definition in_range {Q : Type} (b : registered Q) (st : State) : Prop :=
  match args b with None => True | Some (low, high) => low <= range_0 st <= high end.

(** What a benchmark leaves: the results of the timed calls, and what it says the number of bytes it
    worked on is, the product of [state.iterations()] and a [std::size_t]. *)
Definition report (A : Type) : Type := list A * Z.

Definition set_bytes_processed {A : Type} (st : State) (results : list A) (size : Z) : report A :=
  (results, u64 (Z.of_nat (max_iterations st) * size)).

(** Every timed call gives [a], and the benchmark reports [size] bytes for each. *)
Definition gives {A : Type} (st : State) (b : option (report A)) (a : A) (size : Z) : Prop :=
  b = Some (replicate (max_iterations st) a, u64 (Z.of_nat (max_iterations st) * size)).

Lemma gives_calls {A : Type} st (call : option A) (a : A) (size : Z) :
  call = Some a -> gives st (results ← timed_calls st call; Some (set_bytes_processed st results size)) a size.
Proof. intros ->. by rewrite timed_calls_spec. Qed.

(** A loop over a state that is again in [I] after every turn. *)
Lemma gives_timed {S A : Type} (I : S -> Prop) st (body : S -> option (A * S)) (a : A) (size : Z) s :
  (forall s, I s -> exists s', body s = Some (a, s') /\ I s') -> I s ->
  gives st ('(results, _) ← timed st body s; Some (set_bytes_processed st results size)) a size.
Proof.
  intros Hb Hs. destruct (times_constant I a body (max_iterations st) s Hs Hb) as (s' & E & _).
  unfold timed. by rewrite E.
Qed.
