(* ===== verification/QueueBench.v ===== *)
(** * The benchmarks of the queues

    src/src/logging/impl/spsc_queue_bench.cc and spmc_queue_bench.cc: what the calls inside the timed
    loops return, for any number of iterations, any argument of the registered range and any
    allocator; and the object that the benchmarks with two threads share. *)

From S2P Require Import Prelude Ring ByteQueue SpscQueue SpmcQueue Benchmark.

Definition kDefaultQueueCapacity : Z := 1024 * 4.
Definition kMediumQueueCapacity : Z := 1024 * 64.
Definition kLargeQueueCapacity : Z := 1024 * 1024 * 2.

(** What a benchmark is said to measure: calls that fill a queue and take nothing out, calls that
    empty a queue filled before the loop, or calls that do both. *)
Inductive kind := Fills | Drains | Passes.

Record measure := { m_capacity : Z; m_size : Z; m_kind : kind }.

(** ** spsc_queue_bench.cc *)

Definition spsc_queue_enqueue_1_byte (alloc : Z -> option bytes) (st : State) :=
  queue ← reserve alloc kDefaultQueueCapacity;
  let data : bytes := [ch 0xAA] in
  timed st (λ queue, enqueue_object queue data) queue.

Definition spsc_queue_dequeue_1_byte (alloc : Z -> option bytes) (st : State) :=
  queue ← reserve alloc kDefaultQueueCapacity;
  let data : bytes := [ch 0xAA] in
  '(_, queue) ← times (Z.to_nat (range_0 st)) (λ queue, enqueue_object queue data) queue;
  '(results, (queue, _)) ← timed st (λ '(queue, data),
      '(status, data, queue) ← dequeue_object queue data; Some (status, (queue, data))) (queue, data);
  Some (results, queue).

Definition spsc_queue_enqueue_16_bytes (alloc : Z -> option bytes) (st : State) :=
  queue ← reserve alloc kDefaultQueueCapacity;
  let data : bytes := replicate 16 Byte.x00 in
  timed st (λ queue, enqueue_bytes queue data) queue.

Definition spsc_queue_dequeue_16_bytes (alloc : Z -> option bytes) (st : State) :=
  queue ← reserve alloc kDefaultQueueCapacity;
  let data : bytes := replicate 16 Byte.x00 in
  '(_, queue) ← times (Z.to_nat (u64 (range_0 st) / 16)) (λ queue, enqueue_bytes queue data) queue;
  '(results, (queue, _)) ← timed st (λ '(queue, data),
      '(status, out, queue) ← dequeue_bytes queue 16; Some (status, (queue, fill data out))) (queue, data);
  Some (results, queue).

Definition spsc_queue_enqueue_64_bytes (alloc : Z -> option bytes) (st : State) :=
  queue ← reserve alloc kDefaultQueueCapacity;
  let data : bytes := replicate 64 Byte.x00 in
  timed st (λ queue, enqueue_bytes queue data) queue.

Definition spsc_queue_dequeue_64_bytes (alloc : Z -> option bytes) (st : State) :=
  queue ← reserve alloc kDefaultQueueCapacity;
  let data : bytes := replicate 64 Byte.x00 in
  '(_, queue) ← times (Z.to_nat (u64 (range_0 st) / 64)) (λ queue, enqueue_bytes queue data) queue;
  '(results, (queue, _)) ← timed st (λ '(queue, data),
      '(status, out, queue) ← dequeue_bytes queue 64; Some (status, (queue, fill data out))) (queue, data);
  Some (results, queue).

Definition spsc_queue_enqueue_peek_dequeue_16_bytes (alloc : Z -> option bytes) (st : State) :=
  queue ← reserve alloc kDefaultQueueCapacity;
  let data_in : bytes := replicate 16 Byte.x00 in
  let data_out : bytes := replicate 16 Byte.x00 in
  '(results, (queue, _)) ← timed st (λ '(queue, data_out),
      '(_, queue) ← enqueue_bytes queue data_in;
      '(_, out) ← peek_bytes queue 16;
      let data_out := fill data_out out in
      '(status, out, queue) ← dequeue_bytes queue 16;
      Some (status, (queue, fill data_out out))) (queue, data_out);
  Some (results, queue).

Definition spsc_queue_enqueue_1_byte_medium_capacity (alloc : Z -> option bytes) (st : State) :=
  queue ← reserve alloc kMediumQueueCapacity;
  let data : bytes := [ch 0xAA] in
  timed st (λ queue, enqueue_object queue data) queue.

Definition spsc_queue_dequeue_1_byte_medium_capacity (alloc : Z -> option bytes) (st : State) :=
  queue ← reserve alloc kMediumQueueCapacity;
  let data : bytes := [ch 0xAA] in
  '(_, queue) ← times (Z.to_nat (range_0 st)) (λ queue, enqueue_object queue data) queue;
  '(results, (queue, _)) ← timed st (λ '(queue, data),
      '(status, data, queue) ← dequeue_object queue data; Some (status, (queue, data))) (queue, data);
  Some (results, queue).

Definition spsc_queue_enqueue_64_bytes_medium_capacity (alloc : Z -> option bytes) (st : State) :=
  queue ← reserve alloc kMediumQueueCapacity;
  let data : bytes := replicate 64 Byte.x00 in
  timed st (λ queue, enqueue_bytes queue data) queue.

Definition spsc_queue_dequeue_64_bytes_medium_capacity (alloc : Z -> option bytes) (st : State) :=
  queue ← reserve alloc kMediumQueueCapacity;
  let data : bytes := replicate 64 Byte.x00 in
  '(_, queue) ← times (Z.to_nat (u64 (range_0 st) / 64)) (λ queue, enqueue_bytes queue data) queue;
  '(results, (queue, _)) ← timed st (λ '(queue, data),
      '(status, out, queue) ← dequeue_bytes queue 64; Some (status, (queue, fill data out))) (queue, data);
  Some (results, queue).

Definition spsc_queue_enqueue_1_byte_large_capacity (alloc : Z -> option bytes) (st : State) :=
  queue ← reserve alloc kLargeQueueCapacity;
  let data : bytes := [ch 0xAA] in
  timed st (λ queue, enqueue_object queue data) queue.

Definition spsc_queue_dequeue_1_byte_large_capacity (alloc : Z -> option bytes) (st : State) :=
  queue ← reserve alloc kLargeQueueCapacity;
  let data : bytes := [ch 0xAA] in
  '(_, queue) ← times (Z.to_nat (range_0 st)) (λ queue, enqueue_object queue data) queue;
  '(results, (queue, _)) ← timed st (λ '(queue, data),
      '(status, data, queue) ← dequeue_object queue data; Some (status, (queue, data))) (queue, data);
  Some (results, queue).

Definition spsc_queue_enqueue_64_bytes_large_capacity (alloc : Z -> option bytes) (st : State) :=
  queue ← reserve alloc kLargeQueueCapacity;
  let data : bytes := replicate 64 Byte.x00 in
  timed st (λ queue, enqueue_bytes queue data) queue.

Definition spsc_queue_dequeue_64_bytes_large_capacity (alloc : Z -> option bytes) (st : State) :=
  queue ← reserve alloc kLargeQueueCapacity;
  let data : bytes := replicate 64 Byte.x00 in
  '(_, queue) ← times (Z.to_nat (u64 (range_0 st) / 64)) (λ queue, enqueue_bytes queue data) queue;
  '(results, (queue, _)) ← timed st (λ '(queue, data),
      '(status, out, queue) ← dequeue_bytes queue 64; Some (status, (queue, fill data out))) (queue, data);
  Some (results, queue).

(** The [BENCHMARK] lines. *)
Definition spsc_queue_benchmarks : list (registered (list QueueStatus * SpscQueue)) := [
  Build_registered spsc_queue_enqueue_1_byte None;
  Build_registered spsc_queue_dequeue_1_byte (Some (8, kDefaultQueueCapacity / 2));
  Build_registered spsc_queue_enqueue_16_bytes None;
  Build_registered spsc_queue_dequeue_16_bytes (Some (32, kDefaultQueueCapacity / 2));
  Build_registered spsc_queue_enqueue_64_bytes None;
  Build_registered spsc_queue_dequeue_64_bytes (Some (128, kDefaultQueueCapacity / 2));
  Build_registered spsc_queue_enqueue_peek_dequeue_16_bytes None;
  Build_registered spsc_queue_enqueue_1_byte_medium_capacity None;
  Build_registered spsc_queue_dequeue_1_byte_medium_capacity (Some (8, kMediumQueueCapacity / 2));
  Build_registered spsc_queue_enqueue_64_bytes_medium_capacity None;
  Build_registered spsc_queue_dequeue_64_bytes_medium_capacity (Some (128, kMediumQueueCapacity / 2));
  Build_registered spsc_queue_enqueue_1_byte_large_capacity None;
  Build_registered spsc_queue_dequeue_1_byte_large_capacity (Some (8, kLargeQueueCapacity / 2));
  Build_registered spsc_queue_enqueue_64_bytes_large_capacity None;
  Build_registered spsc_queue_dequeue_64_bytes_large_capacity (Some (128, kLargeQueueCapacity / 2)) ].

Definition spsc_queue_measures : list measure := [
  {| m_capacity := kDefaultQueueCapacity; m_size := 1; m_kind := Fills |};
  {| m_capacity := kDefaultQueueCapacity; m_size := 1; m_kind := Drains |};
  {| m_capacity := kDefaultQueueCapacity; m_size := 16; m_kind := Fills |};
  {| m_capacity := kDefaultQueueCapacity; m_size := 16; m_kind := Drains |};
  {| m_capacity := kDefaultQueueCapacity; m_size := 64; m_kind := Fills |};
  {| m_capacity := kDefaultQueueCapacity; m_size := 64; m_kind := Drains |};
  {| m_capacity := kDefaultQueueCapacity; m_size := 16; m_kind := Passes |};
  {| m_capacity := kMediumQueueCapacity; m_size := 1; m_kind := Fills |};
  {| m_capacity := kMediumQueueCapacity; m_size := 1; m_kind := Drains |};
  {| m_capacity := kMediumQueueCapacity; m_size := 64; m_kind := Fills |};
  {| m_capacity := kMediumQueueCapacity; m_size := 64; m_kind := Drains |};
  {| m_capacity := kLargeQueueCapacity; m_size := 1; m_kind := Fills |};
  {| m_capacity := kLargeQueueCapacity; m_size := 1; m_kind := Drains |};
  {| m_capacity := kLargeQueueCapacity; m_size := 64; m_kind := Fills |};
  {| m_capacity := kLargeQueueCapacity; m_size := 64; m_kind := Drains |} ].

(** ** spmc_queue_bench.cc *)

Definition spmc_queue_enqueue_1_byte (alloc : Z -> option bytes) (st : State) :=
  queue ← spmc_reserve alloc kDefaultQueueCapacity;
  let data : bytes := [ch 0xAA] in
  timed st (λ queue, spmc_enqueue_object queue data) queue.

Definition spmc_queue_dequeue_1_byte (alloc : Z -> option bytes) (st : State) :=
  queue ← spmc_reserve alloc kDefaultQueueCapacity;
  let data : bytes := [ch 0xAA] in
  '(_, queue) ← times (Z.to_nat (range_0 st)) (λ queue, spmc_enqueue_object queue data) queue;
  '(results, (queue, _)) ← timed st (λ '(queue, data),
      '(status, data, queue) ← spmc_dequeue_object queue data; Some (status, (queue, data))) (queue, data);
  Some (results, queue).

Definition spmc_queue_enqueue_16_bytes (alloc : Z -> option bytes) (st : State) :=
  queue ← spmc_reserve alloc kDefaultQueueCapacity;
  let data : bytes := replicate 16 Byte.x00 in
  timed st (λ queue, spmc_enqueue_bytes queue data) queue.

Definition spmc_queue_dequeue_16_bytes (alloc : Z -> option bytes) (st : State) :=
  queue ← spmc_reserve alloc kDefaultQueueCapacity;
  let data : bytes := replicate 16 Byte.x00 in
  '(_, queue) ← times (Z.to_nat (u64 (range_0 st) / 16)) (λ queue, spmc_enqueue_bytes queue data) queue;
  '(results, (queue, _)) ← timed st (λ '(queue, data),
      '(status, out, queue) ← spmc_dequeue_bytes queue 16; Some (status, (queue, fill data out))) (queue, data);
  Some (results, queue).

Definition spmc_queue_enqueue_64_bytes (alloc : Z -> option bytes) (st : State) :=
  queue ← spmc_reserve alloc kDefaultQueueCapacity;
  let data : bytes := replicate 64 Byte.x00 in
  timed st (λ queue, spmc_enqueue_bytes queue data) queue.

Definition spmc_queue_dequeue_64_bytes (alloc : Z -> option bytes) (st : State) :=
  queue ← spmc_reserve alloc kDefaultQueueCapacity;
  let data : bytes := replicate 64 Byte.x00 in
  '(_, queue) ← times (Z.to_nat (u64 (range_0 st) / 64)) (λ queue, spmc_enqueue_bytes queue data) queue;
  '(results, (queue, _)) ← timed st (λ '(queue, data),
      '(status, out, queue) ← spmc_dequeue_bytes queue 64; Some (status, (queue, fill data out))) (queue, data);
  Some (results, queue).

Definition spmc_queue_enqueue_1_byte_medium_capacity (alloc : Z -> option bytes) (st : State) :=
  queue ← spmc_reserve alloc kMediumQueueCapacity;
  let data : bytes := [ch 0xAA] in
  timed st (λ queue, spmc_enqueue_object queue data) queue.

Definition spmc_queue_dequeue_1_byte_medium_capacity (alloc : Z -> option bytes) (st : State) :=
  queue ← spmc_reserve alloc kMediumQueueCapacity;
  let data : bytes := [ch 0xAA] in
  '(_, queue) ← times (Z.to_nat (range_0 st)) (λ queue, spmc_enqueue_object queue data) queue;
  '(results, (queue, _)) ← timed st (λ '(queue, data),
      '(status, data, queue) ← spmc_dequeue_object queue data; Some (status, (queue, data))) (queue, data);
  Some (results, queue).

Definition spmc_queue_enqueue_64_bytes_medium_capacity (alloc : Z -> option bytes) (st : State) :=
  queue ← spmc_reserve alloc kMediumQueueCapacity;
  let data : bytes := replicate 64 Byte.x00 in
  timed st (λ queue, spmc_enqueue_bytes queue data) queue.

Definition spmc_queue_dequeue_64_bytes_medium_capacity (alloc : Z -> option bytes) (st : State) :=
  queue ← spmc_reserve alloc kMediumQueueCapacity;
  let data : bytes := replicate 64 Byte.x00 in
  '(_, queue) ← times (Z.to_nat (u64 (range_0 st) / 64)) (λ queue, spmc_enqueue_bytes queue data) queue;
  '(results, (queue, _)) ← timed st (λ '(queue, data),
      '(status, out, queue) ← spmc_dequeue_bytes queue 64; Some (status, (queue, fill data out))) (queue, data);
  Some (results, queue).

Definition spmc_queue_enqueue_1_byte_large_capacity (alloc : Z -> option bytes) (st : State) :=
  queue ← spmc_reserve alloc kLargeQueueCapacity;
  let data : bytes := [ch 0xAA] in
  timed st (λ queue, spmc_enqueue_object queue data) queue.

Definition spmc_queue_dequeue_1_byte_large_capacity (alloc : Z -> option bytes) (st : State) :=
  queue ← spmc_reserve alloc kLargeQueueCapacity;
  let data : bytes := [ch 0xAA] in
  '(_, queue) ← times (Z.to_nat (range_0 st)) (λ queue, spmc_enqueue_object queue data) queue;
  '(results, (queue, _)) ← timed st (λ '(queue, data),
      '(status, data, queue) ← spmc_dequeue_object queue data; Some (status, (queue, data))) (queue, data);
  Some (results, queue).

Definition spmc_queue_enqueue_64_bytes_large_capacity (alloc : Z -> option bytes) (st : State) :=
  queue ← spmc_reserve alloc kLargeQueueCapacity;
  let data : bytes := replicate 64 Byte.x00 in
  timed st (λ queue, spmc_enqueue_bytes queue data) queue.

Definition spmc_queue_dequeue_64_bytes_large_capacity (alloc : Z -> option bytes) (st : State) :=
  queue ← spmc_reserve alloc kLargeQueueCapacity;
  let data : bytes := replicate 64 Byte.x00 in
  '(_, queue) ← times (Z.to_nat (u64 (range_0 st) / 64)) (λ queue, spmc_enqueue_bytes queue data) queue;
  '(results, (queue, _)) ← timed st (λ '(queue, data),
      '(status, out, queue) ← spmc_dequeue_bytes queue 64; Some (status, (queue, fill data out))) (queue, data);
  Some (results, queue).

(** The [BENCHMARK] lines. *)
Definition spmc_queue_benchmarks : list (registered (list QueueStatus * SpmcQueue)) := [
  Build_registered spmc_queue_enqueue_1_byte None;
  Build_registered spmc_queue_dequeue_1_byte (Some (8, kDefaultQueueCapacity / 2));
  Build_registered spmc_queue_enqueue_16_bytes None;
  Build_registered spmc_queue_dequeue_16_bytes (Some (32, kDefaultQueueCapacity / 2));
  Build_registered spmc_queue_enqueue_64_bytes None;
  Build_registered spmc_queue_dequeue_64_bytes (Some (128, kDefaultQueueCapacity / 2));
  Build_registered spmc_queue_enqueue_1_byte_medium_capacity None;
  Build_registered spmc_queue_dequeue_1_byte_medium_capacity (Some (8, kMediumQueueCapacity / 2));
  Build_registered spmc_queue_enqueue_64_bytes_medium_capacity None;
  Build_registered spmc_queue_dequeue_64_bytes_medium_capacity (Some (128, kMediumQueueCapacity / 2));
  Build_registered spmc_queue_enqueue_1_byte_large_capacity None;
  Build_registered spmc_queue_dequeue_1_byte_large_capacity (Some (8, kLargeQueueCapacity / 2));
  Build_registered spmc_queue_enqueue_64_bytes_large_capacity None;
  Build_registered spmc_queue_dequeue_64_bytes_large_capacity (Some (128, kLargeQueueCapacity / 2)) ].

Definition spmc_queue_measures : list measure := [
  {| m_capacity := kDefaultQueueCapacity; m_size := 1; m_kind := Fills |};
  {| m_capacity := kDefaultQueueCapacity; m_size := 1; m_kind := Drains |};
  {| m_capacity := kDefaultQueueCapacity; m_size := 16; m_kind := Fills |};
  {| m_capacity := kDefaultQueueCapacity; m_size := 16; m_kind := Drains |};
  {| m_capacity := kDefaultQueueCapacity; m_size := 64; m_kind := Fills |};
  {| m_capacity := kDefaultQueueCapacity; m_size := 64; m_kind := Drains |};
  {| m_capacity := kMediumQueueCapacity; m_size := 1; m_kind := Fills |};
  {| m_capacity := kMediumQueueCapacity; m_size := 1; m_kind := Drains |};
  {| m_capacity := kMediumQueueCapacity; m_size := 64; m_kind := Fills |};
  {| m_capacity := kMediumQueueCapacity; m_size := 64; m_kind := Drains |};
  {| m_capacity := kLargeQueueCapacity; m_size := 1; m_kind := Fills |};
  {| m_capacity := kLargeQueueCapacity; m_size := 1; m_kind := Drains |};
  {| m_capacity := kLargeQueueCapacity; m_size := 64; m_kind := Fills |};
  {| m_capacity := kLargeQueueCapacity; m_size := 64; m_kind := Drains |} ].

(** ** Loops over a queue *)

(** The statuses of [n] calls of which at most the first [k] succeed. *)
Definition statuses (n k : nat) (failing : QueueStatus) : list QueueStatus :=
  replicate (n `min` k) kOk ++ replicate (n - k) failing.

(** What the timed calls return when there is memory for the queue. *)
Definition expected (m : measure) (st : State) : list QueueStatus :=
  let n := max_iterations st in
  match m_kind m with
  | Fills => statuses n (Z.to_nat (m_capacity m / m_size m)) kOverflow
  | Drains => statuses n (Z.to_nat (range_0 st / m_size m)) kUnderflow
  | Passes => replicate n kOk
  end.

Section loops.
Context {Q : Type} {BQ : ByteQueue Q} {BQL : ByteQueueLaws Q}.

Definition holding (cap len : Z) (q : Q) : Prop :=
  bq_valid q /\ bq_capacity q = cap /\ lenZ (bq_contents q) = len.

(** A queue whose memory was not given. *)
Definition absent (q : Q) : Prop :=
  (forall d, bq_enqueue q d = Some (kUninitialized, q)) /\
  (forall n, bq_dequeue q n = Some (kUninitialized, [], q)) /\
  (forall n, bq_peek q n = Some (kUninitialized, [])).

(** Nothing is taken out: the calls succeed until the room is used up. *)
Lemma enqueue_times d n cap len q :
  holding cap len q -> 0 < lenZ d ->
  let room := Z.to_nat ((cap - len) / lenZ d) in
  exists q', times n (λ q, bq_enqueue q d) q = Some (statuses n room kOverflow, q') /\
    holding cap (len + Z.of_nat (n `min` room) * lenZ d) q'.
Proof.
  intros Hq Hd room. assert (0 <= cap - len) as Hle.
  { destruct Hq as (Hv & <- & <-). pose proof (bq_bounded q Hv). lia. }
  pose proof (Z.mul_div_le (cap - len) (lenZ d) Hd). pose proof (Z.mul_succ_div_gt (cap - len) (lenZ d) Hd).
  pose proof (Z.div_pos (cap - len) (lenZ d) Hle Hd).
  apply (times_exhaust (λ j, holding cap (len + Z.of_nat j * lenZ d))).
  - by rewrite Z.mul_0_l, Z.add_0_r.
  - intros j s Hj (Hv & Hc & Hl). destruct (bq_enqueue_ok s d Hv Hd) as (s' & -> & Hv' & Hl' & Hc').
    + assert (Z.of_nat j + 1 <= (cap - len) / lenZ d) by lia. nia.
    + exists s'. split; [done|]. split; [done|]. rewrite Hc', Hl', lenZ_app, Hl. split; [done|lia].
  - intros s (Hv & Hc & Hl). destruct (bq_enqueue_full s d Hv Hd) as (s' & -> & Hv' & Hl' & Hc').
    + unfold room in Hl. rewrite Z2Nat.id in Hl by done. nia.
    + exists s'. split; [done|]. split; [done|]. by rewrite Hc', Hl'.
Qed.

Lemma enqueue_times_absent d n q :
  absent q -> times n (λ q, bq_enqueue q d) q = Some (replicate n kUninitialized, q).
Proof.
  intros [He _]. destruct (times_constant (eq q) kUninitialized (λ q, bq_enqueue q d) n q eq_refl)
    as (q' & -> & <-); [|done]. intros ? <-. by exists q.
Qed.

(** A call that takes [m] bytes out into an object of that size. *)
Definition dequeue_into (m : Z) (s : Q * bytes) : option (QueueStatus * (Q * bytes)) :=
  '(status, out, q) ← bq_dequeue s.1 m; Some (status, (q, fill s.2 out)).

Lemma fill_length object out : lenZ out <= lenZ object -> lenZ (fill object out) = lenZ object.
Proof. unfold fill, lenZ. rewrite length_app, length_drop. lia. Qed.

Lemma dequeue_times m body n cap len s :
  (forall s, lenZ s.2 = m -> body s = dequeue_into m s) ->
  holding cap len s.1 -> lenZ s.2 = m -> 0 < m ->
  exists s', times n body s = Some (statuses n (Z.to_nat (len / m)) kUnderflow, s').
Proof.
  intros Hbody Hq Hs Hm. assert (0 <= len) as Hle by (destruct Hq as (_ & _ & <-); apply lenZ_nonneg).
  pose proof (Z.mul_div_le len m Hm). pose proof (Z.mul_succ_div_gt len m Hm). pose proof (Z.div_pos len m Hle Hm).
  edestruct (times_exhaust (λ j s, holding cap (len - Z.of_nat j * m) s.1 /\ lenZ s.2 = m) kOk kUnderflow
    body (Z.to_nat (len / m)) n s) as (s' & E & _);
    [ | | | exists s'; exact E].
  - by rewrite Z.mul_0_l, Z.sub_0_r.
  - intros j [q b] Hj ((Hv & Hc & Hl) & Hb). rewrite Hbody by done. unfold dequeue_into. cbn [fst snd] in *.
    assert (Z.of_nat j + 1 <= len / m) by lia. assert (m <= lenZ (bq_contents q)) by nia.
    destruct (bq_dequeue_ok q m Hv) as (q' & -> & Hv' & Hl' & Hc'); [lia|]. cbn [mbind option_bind].
    eexists. split; [done|].
    split; [split_and!; cbn [fst snd]; [done | congruence | rewrite Hl'; unfold lenZ in *; rewrite length_drop; lia]|].
    cbn [snd]. rewrite fill_length; unfold lenZ in *; rewrite ?length_take; lia.
  - intros [q b] ((Hv & Hc & Hl) & Hb). rewrite Hbody by done. unfold dequeue_into. cbn [fst snd] in *.
    destruct (bq_dequeue_short q m Hv Hm) as (q' & -> & Hv' & Hl' & Hc').
    + rewrite Z2Nat.id in Hl by done. nia.
    + cbn [mbind option_bind]. eexists. split; [done|].
      split; [split_and!; cbn [fst snd]; congruence | by cbn [snd]].
Qed.

Lemma dequeue_times_absent m body n s :
  (forall s, lenZ s.2 = m -> body s = dequeue_into m s) -> absent s.1 -> lenZ s.2 = m ->
  exists s', times n body s = Some (replicate n kUninitialized, s').
Proof.
  intros Hbody Hq Hs. destruct (times_constant (eq s) kUninitialized body n s eq_refl) as (s' & E & _); [|by exists s'].
  intros ? <-. rewrite Hbody by done. unfold dequeue_into. destruct Hq as (_ & -> & _). cbn. exists s. by destruct s.
Qed.

(** ** Benchmarks over any queue *)

Context (reserve_queue : (Z -> option bytes) -> Z -> option Q).

Definition reserves (cap : Z) : Prop :=
  forall alloc, alloc_sized alloc -> exists q, reserve_queue alloc cap = Some q /\
    match alloc (cap ⊕ kCacheSize) with Some _ => holding cap 0 q | None => absent q end.

(** For every allocator, argument and number of iterations the benchmark is defined, and its timed
    calls return what the measure says. *)
Definition measures (b : registered (list QueueStatus * Q)) (m : measure) : Prop :=
  forall alloc st, alloc_sized alloc -> in_range b st ->
    exists q, run b alloc st =
      Some (match alloc (m_capacity m ⊕ kCacheSize) with
            | Some _ => expected m st
            | None => replicate (max_iterations st) kUninitialized
            end, q).

Lemma fills_measured cap d :
  reserves cap -> 0 < lenZ d ->
  measures (Build_registered (λ alloc st,
      queue ← reserve_queue alloc cap; timed st (λ queue, bq_enqueue queue d) queue) None)
    {| m_capacity := cap; m_size := lenZ d; m_kind := Fills |}.
Proof.
  intros Hr Hd alloc st Ha _. destruct (Hr alloc Ha) as (q & E & Hq). cbn. rewrite E. cbn.
  destruct (alloc _); [|exists q; by apply enqueue_times_absent].
  destruct (enqueue_times d (max_iterations st) cap 0 q Hq Hd) as (q' & E' & _).
  rewrite Z.sub_0_r in E'. by exists q'.
Qed.

Lemma drains_measured cap low d m count body :
  reserves cap -> 0 < lenZ d -> m = lenZ d -> 0 <= low -> 0 <= cap < 2 ^ 64 ->
  (forall st, low <= range_0 st <= cap / 2 -> count st = range_0 st / m) ->
  (forall s, lenZ s.2 = m -> body s = dequeue_into m s) ->
  measures (Build_registered (λ alloc st,
      queue ← reserve_queue alloc cap;
      '(_, queue) ← times (Z.to_nat (count st)) (λ queue, bq_enqueue queue d) queue;
      '(results, (queue, _)) ← timed st body (queue, d);
      Some (results, queue)) (Some (low, cap / 2)))
    {| m_capacity := cap; m_size := m; m_kind := Drains |}.
Proof.
  intros Hr Hd -> Hlow Hcap Hcount Hbody alloc st Ha Hst. cbn in Hst.
  destruct (Hr alloc Ha) as (q & E & Hq). cbn. rewrite E. cbn. rewrite Hcount by done.
  pose proof (Z.mul_div_le (range_0 st) (lenZ d) Hd). pose proof (Z.div_pos (range_0 st) (lenZ d) ltac:(lia) Hd).
  pose proof (Z.mul_div_le cap 2 ltac:(lia)).
  destruct (alloc _).
  - destruct (enqueue_times d (Z.to_nat (range_0 st / lenZ d)) cap 0 q Hq Hd) as (q1 & -> & Hq1). cbn.
    assert (range_0 st / lenZ d <= cap / lenZ d) by (apply Z.div_le_mono; lia).
    rewrite Z.sub_0_r, Nat.min_l, Z2Nat.id in Hq1 by lia.
    destruct (dequeue_times (lenZ d) body (max_iterations st) cap _ (q1, d) Hbody Hq1 eq_refl Hd) as ((q2 & d2) & E2).
    unfold timed. rewrite E2. cbn. exists q2. unfold expected. cbn.
    by rewrite Z.add_0_l, Z.div_mul by lia.
  - rewrite enqueue_times_absent by done. cbn.
    destruct (dequeue_times_absent (lenZ d) body (max_iterations st) (q, d) Hbody Hq eq_refl) as ((q2 & d2) & E2).
    unfold timed. rewrite E2. by exists q2.
Qed.
End loops.

(** ** The registered benchmarks *)

Lemma spsc_reserves cap : 0 <= cap <= 2 ^ 63 -> next_power_of_2 cap = Some cap -> reserves reserve cap.
Proof.
  intros Hc Hp alloc Ha. unfold reserve at 1. rewrite Hp. cbn [mbind option_bind].
  destruct (alloc (cap ⊕ kCacheSize)) as [buf|] eqn:E; eexists; (split; [reflexivity|]).
  - destruct (reserve_valid alloc cap _ Ha Hc ltac:(unfold reserve; rewrite Hp; cbn; rewrite E; reflexivity))
      as [?|(Hv & Hcont & _)]; [done|]. split; [exact Hv|]. split; [done|]. cbn [bq_contents spsc_byte_queue].
    by rewrite Hcont.
  - by split_and!.
Qed.

Lemma spmc_reserves cap : 0 <= cap <= 2 ^ 63 -> next_power_of_2 cap = Some cap -> reserves spmc_reserve cap.
Proof.
  intros Hc Hp alloc Ha. unfold spmc_reserve at 1, spmc_next_power_of_2. rewrite Hp. cbn [mbind option_bind].
  destruct (alloc (cap ⊕ kCacheSize)) as [buf|] eqn:E; eexists; (split; [reflexivity|]).
  - destruct (spmc_reserve_valid alloc cap _ Ha Hc
      ltac:(unfold spmc_reserve, spmc_next_power_of_2; rewrite Hp; cbn; rewrite E; reflexivity))
      as [?|(Hv & Hcont & _)]; [done|]. split; [exact Hv|]. split; [done|]. cbn [bq_contents spmc_byte_queue].
    by rewrite Hcont.
  - by split_and!.
Qed.

Lemma capacities_reserved cap :
  In cap [kDefaultQueueCapacity; kMediumQueueCapacity; kLargeQueueCapacity] ->
  reserves reserve cap /\ reserves spmc_reserve cap.
Proof.
  intros [<-|[<-|[<-|[]]]]; (split; [apply spsc_reserves | apply spmc_reserves]);
    try reflexivity; (split; vm_compute; discriminate).
Qed.

(** One record in and out again. *)
Lemma passes_measured : measures (Build_registered spsc_queue_enqueue_peek_dequeue_16_bytes None)
  {| m_capacity := kDefaultQueueCapacity; m_size := 16; m_kind := Passes |}.
Proof.
  intros alloc st Ha _. cbn [run m_capacity].
  destruct (proj1 (capacities_reserved kDefaultQueueCapacity ltac:(by left)) alloc Ha) as (q & E & Hq).
  unfold spsc_queue_enqueue_peek_dequeue_16_bytes. rewrite E. cbn [mbind option_bind].
  match goal with |- context [timed st ?b (q, ?d)] => set (body := b); set (data := d) end.
  assert (forall (I : SpscQueue * bytes -> Prop) a, I (q, data) ->
    (forall s, I s -> exists s', body s = Some (a, s') /\ I s') ->
    exists q', ('(results, (queue, _)) ← timed st body (q, data); Some (results, queue)) =
      Some (replicate (max_iterations st) a, q')) as Hloop.
  { intros I a H0 Hs. unfold timed. destruct (times_constant I a body (max_iterations st) (q, data) H0 Hs)
      as ([q' d'] & -> & _). by exists q'. }
  destruct (alloc _); [apply (Hloop (λ s, holding kDefaultQueueCapacity 0 s.1)) | apply (Hloop (eq (q, data)))]; try done.
  - intros [p b] (Hv & Hc & Hl). cbn [fst] in *. unfold body.
    change enqueue_bytes with (bq_enqueue (Q := SpscQueue)). change peek_bytes with (bq_peek (Q := SpscQueue)).
    change dequeue_bytes with (bq_dequeue (Q := SpscQueue)).
    destruct (bq_enqueue_ok p (replicate 16 Byte.x00) Hv) as (p1 & -> & Hv1 & Hc1 & Hcap1);
      [done | rewrite Hc, Hl; vm_compute; discriminate |]. cbn [mbind option_bind].
    assert (lenZ (bq_contents p1) = 16) as H16 by (rewrite Hc1, lenZ_app, Hl; reflexivity).
    rewrite (bq_peek_ok p1 16 Hv1) by lia. cbn [mbind option_bind].
    destruct (bq_dequeue_ok p1 16 Hv1) as (p2 & -> & Hv2 & Hc2 & Hcap2); [lia|]. cbn [mbind option_bind].
    eexists. split; [done|]. split_and!; cbn [fst]; [done | congruence |].
    rewrite Hc2. unfold lenZ in *. rewrite length_drop. lia.
  - intros ? <-. unfold body, data. destruct Hq as (He & Hd & Hp).
    change enqueue_bytes with (bq_enqueue (Q := SpscQueue)). change peek_bytes with (bq_peek (Q := SpscQueue)).
    change dequeue_bytes with (bq_dequeue (Q := SpscQueue)).
    rewrite He. cbn [mbind option_bind]. rewrite Hp. cbn [mbind option_bind]. rewrite Hd. by eexists.
Qed.

(** The objects that the benchmarks move. *)
Definition object_of (size : Z) : bytes :=
  if size =? 1 then [ch 0xAA] else replicate (Z.to_nat size) Byte.x00.

Lemma take_object q (m : Z) (d : bytes) :
  lenZ d = m -> ('(status, data, queue) ← dequeue_object q d; Some (status, (queue, data))) = dequeue_into m (q, d).
Proof.
  intros Hd. unfold dequeue_object, dequeue_into. rewrite Hd. cbn [fst snd bq_dequeue spsc_byte_queue].
  by destruct (dequeue_bytes q m) as [[[s o] q']|].
Qed.

Lemma spmc_take_object q (m : Z) (d : bytes) :
  lenZ d = m ->
  ('(status, data, queue) ← spmc_dequeue_object q d; Some (status, (queue, data))) = dequeue_into m (q, d).
Proof.
  intros Hd. unfold spmc_dequeue_object, dequeue_into. rewrite Hd. cbn [fst snd bq_dequeue spmc_byte_queue].
  by destruct (spmc_dequeue_bytes q m) as [[[s o] q']|].
Qed.

Ltac measured reserve_queue :=
  match goal with
  | |- measures _ {| m_kind := Passes |} => exact passes_measured
  | |- measures _ {| m_capacity := ?c; m_size := ?m; m_kind := Fills |} =>
    refine (fills_measured reserve_queue c (object_of m) _ _);
    [apply capacities_reserved; simpl; tauto | vm_compute; reflexivity]
  | |- measures {| run := _; args := Some (?low, _) |} {| m_capacity := ?c; m_size := ?m; m_kind := Drains |} =>
    refine (drains_measured reserve_queue c low (object_of m) m _ _ _ _ _ _ _ _ _);
    [ apply capacities_reserved; simpl; tauto | vm_compute; reflexivity | reflexivity | lia
    | split; [vm_compute; discriminate | reflexivity]
    | intros st Hst; assert (c / 2 < 2 ^ 64) by reflexivity; rewrite ?Z.div_1_r, ?u64_small by lia; reflexivity
    | intros [q d] Hd; first [reflexivity | by apply take_object | by apply spmc_take_object] ]
  end.

(** C38. What the benchmarks of the queues measure. With every allocator, every argument of the range it is
    registered with and every number of iterations, each of the 29 benchmarks that run on one thread
    is defined and its timed calls return what its row of the table says: a benchmark of
    [enqueue_bytes] never takes anything out, so that only the first calls, as many records as the
    queue has room for, succeed and all others are refused; a benchmark of [dequeue_bytes] gets the
    records that were put in before the loop and finds the queue empty from then on; one record in
    and out again always succeeds. Without memory for the queue every call reports
    [kUninitialized]. *)
Theorem queue_benchmarks_measure :
  Forall2 measures spsc_queue_benchmarks spsc_queue_measures /\
  Forall2 measures spmc_queue_benchmarks spmc_queue_measures.
Proof.
  split; unfold spsc_queue_benchmarks, spsc_queue_measures, spmc_queue_benchmarks, spmc_queue_measures;
    repeat (apply List.Forall2_cons; [|]); try apply List.Forall2_nil;
    first [measured reserve | measured spmc_reserve].
Qed.

Lemma queue_benchmarks_measure_witness :
  exists b q, spsc_queue_benchmarks !! 2%nat = Some b /\
    run b zero_alloc {| max_iterations := 300; range_0 := 0 |} = Some (statuses 300 256 kOverflow, q).
Proof.
  destruct queue_benchmarks_measure as [H _].
  assert (exists b, spsc_queue_benchmarks !! 2%nat = Some b /\
    in_range b {| max_iterations := 300; range_0 := 0 |}) as (b & Hb & Hr) by (eexists; split; [reflexivity | exact I]).
  pose proof (Forall2_lookup_lr _ _ _ 2%nat _ _ H Hb eq_refl) as Hm.
  destruct (Hm zero_alloc _ zero_alloc_sized Hr) as (q & E). exists b, q. split; [exact Hb|].
  rewrite E. vm_compute. reflexivity.
Defined.
