(* ===== verification/BusyBench.v ===== *)
(** * The benchmarks of the queues with two threads

    The eight benchmarks of src/src/logging/impl/spsc_queue_bench.cc and spmc_queue_bench.cc in which
    a second thread keeps the queue busy. Both threads name the same variable [data]: the producer
    as what it enqueues, the consumer as where it dequeues to. *)

From stdpp Require Import gmap.
From S2P Require Import Prelude Ring ByteQueue SpmcQueue SpscQueue Benchmark QueueBench.
From S2P Require SpscConcurrent SpmcConcurrent SpmcMemory.

(** A thread on one side of a queue: it enqueues or it dequeues. *)
Inductive side := Producing | Consuming.

Definition other (x : side) : side := match x with Producing => Consuming | Consuming => Producing end.

(** The steps of a queue with a thread on each side, [bytes] being the object that a call is given:
    whether the thread is between two calls, how it begins one, how it goes on with it, and whether
    its next step reads the object or writes to it. *)
Class Threads (M : Type) := {
  idle : side -> M -> Prop;
  begins : side -> M -> bytes -> M -> Prop;
  goes_on : side -> M -> bytes -> M -> bytes -> Prop;
  reading : M -> Prop;
  writing : M -> Prop;
}.

Section busy.
Context {M : Type} {T : Threads M}.

(** [helper] is the side of the thread that the benchmark starts; the thread of the timed loop is on
    the other one. [left] is how many iterations of the loop are left. *)
Record busy := { helper : side; machine : M; data : bytes; running : bool; left : nat }.

(** The helper calls as long as it reads [running] as true; the other thread calls as often as the
    library says, then stores false and joins the helper, which ends when it is idle. *)
Inductive busy_step : busy -> busy -> Prop :=
  | helper_calls b m :
      idle (helper b) (machine b) -> running b = true -> begins (helper b) (machine b) (data b) m ->
      busy_step b {| helper := helper b; machine := m; data := data b; running := running b; left := left b |}
  | loop_calls b m n :
      idle (other (helper b)) (machine b) -> left b = S n ->
      begins (other (helper b)) (machine b) (data b) m ->
      busy_step b {| helper := helper b; machine := m; data := data b; running := running b; left := n |}
  | goes x b m d :
      goes_on x (machine b) (data b) m d ->
      busy_step b {| helper := helper b; machine := m; data := d; running := running b; left := left b |}
  | loop_ends b :
      idle (other (helper b)) (machine b) -> left b = 0%nat ->
      busy_step b {| helper := helper b; machine := machine b; data := data b; running := false; left := 0 |}.

Definition busy_steps : busy -> busy -> Prop := rtc busy_step.

(** Two accesses of the variable, one of them a write, by different threads with nothing between
    them. *)
Definition race_on_data (b : busy) : Prop := reading (machine b) /\ writing (machine b).

(** A step of the machine alone. *)
Definition machine_step (m m' : M) (d : bytes) : Prop := exists x, goes_on x m d m' d.

Lemma machine_steps h m m' d r n :
  rtc (λ m m', machine_step m m' d) m m' ->
  busy_steps {| helper := h; machine := m; data := d; running := r; left := n |}
    {| helper := h; machine := m'; data := d; running := r; left := n |}.
Proof.
  intros H. induction H as [m|m m1 m2 [x Hx] _ IH]; [apply rtc_refl|].
  eapply rtc_l; [|exact IH]. exact (goes x {| helper := h; machine := m; data := d; running := r; left := n |} m1 d Hx).
Qed.

(** A producer that has put a record in and begins the next call, and a consumer that begins its
    first, reach the race. *)
Lemma busy_race h m0 m1 m2 m3 m4 m5 d n :
  idle Producing m0 -> begins Producing m0 d m1 -> rtc (λ m m', machine_step m m' d) m1 m2 ->
  idle Producing m2 -> begins Producing m2 d m3 -> rtc (λ m m', machine_step m m' d) m3 m4 ->
  idle Consuming m4 -> begins Consuming m4 d m5 ->
  forall m6, rtc (λ m m', machine_step m m' d) m5 m6 -> reading m6 -> writing m6 ->
  (match h with Producing => 1 | Consuming => 2 end <= n)%nat ->
  exists b, busy_steps {| helper := h; machine := m0; data := d; running := true; left := n |} b /\ race_on_data b.
Proof.
  intros I0 B0 R1 I2 B2 R3 I4 B4 m6 R5 Hr Hw Hn.
  set (st := λ m n, {| helper := h; machine := m; data := d; running := true; left := n |}).
  assert (forall m m' k, idle Producing m -> begins Producing m d m' ->
    (match h with Producing => 0 | Consuming => 1 end <= k)%nat ->
    busy_step (st m k) (st m' (k - match h with Producing => 0 | Consuming => 1 end)%nat)) as Hprod.
  { intros m m' k Hi Hb Hk. unfold st. destruct h.
    - rewrite Nat.sub_0_r. by apply (helper_calls {| helper := Producing; machine := m; data := d; running := true; left := k |}).
    - by apply (loop_calls {| helper := Consuming; machine := m; data := d; running := true; left := k |});
        [| cbn; lia |]. }
  assert (forall m m' k, idle Consuming m -> begins Consuming m d m' ->
    (match h with Producing => 1 | Consuming => 0 end <= k)%nat ->
    busy_step (st m k) (st m' (k - match h with Producing => 1 | Consuming => 0 end)%nat)) as Hcons.
  { intros m m' k Hi Hb Hk. unfold st. destruct h.
    - by apply (loop_calls {| helper := Producing; machine := m; data := d; running := true; left := k |});
        [| cbn; lia |].
    - rewrite Nat.sub_0_r. by apply (helper_calls {| helper := Consuming; machine := m; data := d; running := true; left := k |}). }
  eexists (st m6 _). split; [|by split]. unfold busy_steps. fold (st m0 n).
  eapply rtc_l; [apply (Hprod m0 m1 n I0 B0); destruct h; lia|].
  etransitivity; [by apply machine_steps|].
  eapply rtc_l; [apply (Hprod m2 m3 _ I2 B2); destruct h; lia|].
  etransitivity; [by apply machine_steps|].
  eapply rtc_l; [apply (Hcons m4 m5 _ I4 B4); destruct h; lia|].
  by apply machine_steps.
Qed.
End busy.
Arguments busy : clear implicits.

(** ** The single-consumer queue *)

Definition put_front (pc : SpscConcurrent.consumer_pc) (d : bytes) : bytes :=
  match pc with SpscConcurrent.CCopy _ _ _ out => fill d out | _ => d end.

(** [enqueue_bytes(&data)] and [dequeue_bytes(&data)] by the steps of SpscConcurrent.v. The copy of a
    consumer goes to [data] byte by byte. *)
#[export] Instance spsc_threads : Threads SpscConcurrent.config := {
  idle x m :=
    match x with
    | Producing => SpscConcurrent.producer m = SpscConcurrent.PIdle
    | Consuming => SpscConcurrent.consumer m = SpscConcurrent.CIdle
    end;
  begins x m d m' :=
    match x with
    | Producing => m' = {| SpscConcurrent.queue := SpscConcurrent.queue m;
        SpscConcurrent.producer := SpscConcurrent.PStart d; SpscConcurrent.consumer := SpscConcurrent.consumer m |}
    | Consuming => m' = {| SpscConcurrent.queue := SpscConcurrent.queue m;
        SpscConcurrent.producer := SpscConcurrent.producer m; SpscConcurrent.consumer := SpscConcurrent.CStart (lenZ d) |}
    end;
  goes_on x m d m' d' :=
    match x with
    | Producing => exists e q p,
        SpscConcurrent.producer_step (SpscConcurrent.queue m) (SpscConcurrent.producer m) = Some (e, q, p) /\
        m' = {| SpscConcurrent.queue := q; SpscConcurrent.producer := p;
                SpscConcurrent.consumer := SpscConcurrent.consumer m |} /\ d' = d
    | Consuming => exists e q c,
        SpscConcurrent.consumer_step (SpscConcurrent.queue m) (SpscConcurrent.consumer m) = Some (e, q, c) /\
        m' = {| SpscConcurrent.queue := q; SpscConcurrent.producer := SpscConcurrent.producer m;
                SpscConcurrent.consumer := c |} /\ d' = put_front c d
    end;
  reading m :=
    match SpscConcurrent.producer m with SpscConcurrent.PCopy d _ i => i < lenZ d | _ => False end;
  writing m :=
    match SpscConcurrent.consumer m with SpscConcurrent.CCopy n _ i _ => i < n | _ => False end;
}.

Definition spsc_busy (capacity : Z) (helper : side) (alloc : Z -> option bytes) (st : State) :
    option (busy SpscConcurrent.config) :=
  queue ← reserve alloc capacity;
  Some {| helper := helper;
          machine := {| SpscConcurrent.queue := queue; SpscConcurrent.producer := SpscConcurrent.PIdle;
                        SpscConcurrent.consumer := SpscConcurrent.CIdle |};
          data := [ch 0xAA]; running := true; left := max_iterations st |}.

Definition spsc_queue_medium_consumer_bench_with_busy_producer := spsc_busy kMediumQueueCapacity Producing.
Definition spsc_queue_medium_producer_bench_with_busy_consumer := spsc_busy kMediumQueueCapacity Consuming.
Definition spsc_queue_large_consumer_bench_with_busy_producer := spsc_busy kLargeQueueCapacity Producing.
Definition spsc_queue_large_producer_bench_with_busy_consumer := spsc_busy kLargeQueueCapacity Consuming.

(** A step of one side that leaves the object as it is. *)
Lemma spsc_producer_goes q p c e q' p' d :
  SpscConcurrent.producer_step q p = Some (e, q', p') ->
  machine_step {| SpscConcurrent.queue := q; SpscConcurrent.producer := p; SpscConcurrent.consumer := c |}
    {| SpscConcurrent.queue := q'; SpscConcurrent.producer := p'; SpscConcurrent.consumer := c |} d.
Proof. intros H. exists Producing, e, q', p'. by split_and!. Qed.

Lemma spsc_consumer_goes q p c e q' c' d :
  SpscConcurrent.consumer_step q c = Some (e, q', c') -> put_front c' d = d ->
  machine_step {| SpscConcurrent.queue := q; SpscConcurrent.producer := p; SpscConcurrent.consumer := c |}
    {| SpscConcurrent.queue := q'; SpscConcurrent.producer := p; SpscConcurrent.consumer := c' |} d.
Proof. intros H Hd. exists Consuming, e, q', c'. by rewrite Hd. Qed.

Lemma spsc_busy_race cap helper alloc st buf :
  next_power_of_2 cap = Some cap -> 2 <= cap <= 2 ^ 62 ->
  alloc (cap ⊕ kCacheSize) = Some buf -> lenZ buf = cap ⊕ kCacheSize -> (2 <= max_iterations st)%nat ->
  exists b b', spsc_busy cap helper alloc st = Some b /\ busy_steps b b' /\ race_on_data b'.
Proof.
  intros Hp Hc Ha Hl Hn. unfold spsc_busy, reserve. rewrite Hp. cbn [mbind option_bind]. rewrite Ha. cbn [mbind option_bind].
  unfold kCacheSize in Hl. rewrite u64_small in Hl by lia.
  set (q := {| buffer_ := Some buf; capacity_ := cap; mask_ := cap ⊖ 1; tail_idx_ := 0; tail_cached_ := 0;
    head_cached_snapshot_ := 0; head_idx_ := 0; head_cached_ := 0; tail_cached_snapshot_ := 0;
    allocation_size_ := cap ⊕ kCacheSize |}%Z : SpscQueue).
  assert (u64 (cap - 1) = cap - 1) as Hmask by (apply u64_small; lia).
  assert (ring_addr (cap ⊖ 1) 0 0 = 0) as Haddr.
  { unfold ring_addr. rewrite Z.land_0_l, Hmask, (u64_small (cap - 1 + 1)), u64_small by lia.
    by rewrite (proj2 (Z.ltb_lt _ _)) by lia. }
  destruct (mem_store buf 0 [ch 0xAA]) as [buf'|] eqn:Hs;
    [|rewrite mem_store_spec in Hs by (rewrite ?Hl; change (lenZ [ch 0xAA]) with 1; lia); discriminate].
  set (q1 := SpscConcurrent.set_buffer q buf'). set (q2 := publish q1 buf' 1).
  set (conf := λ q p c, {| SpscConcurrent.queue := q; SpscConcurrent.producer := p; SpscConcurrent.consumer := c |}).
  set (d := [ch 0xAA]). eexists. enough (exists b', busy_steps _ b' /\ race_on_data b') as (b' & Hb) by (exists b'; split; [reflexivity | exact Hb]).
  apply (busy_race helper (conf q SpscConcurrent.PIdle SpscConcurrent.CIdle)
    (conf q (SpscConcurrent.PStart d) SpscConcurrent.CIdle) (conf q2 SpscConcurrent.PIdle SpscConcurrent.CIdle)
    (conf q2 (SpscConcurrent.PStart d) SpscConcurrent.CIdle) (conf q2 (SpscConcurrent.PCopy d 1 0) SpscConcurrent.CIdle)
    (conf q2 (SpscConcurrent.PCopy d 1 0) (SpscConcurrent.CStart 1))
    d (max_iterations st)) with (m6 := conf (set_tail_snapshot q2 1) (SpscConcurrent.PCopy d 1 0)
      (SpscConcurrent.CCopy 1 0 0 [])); try done; try (destruct helper; lia).
  - apply (rtc_l _ _ (conf q (SpscConcurrent.PCopy d 0 0) SpscConcurrent.CIdle)); [|].
    { apply spsc_producer_goes with (e := SpscConcurrent.Tau). cbn. change (lenZ d) with 1.
      rewrite (u64_small (0 - 0)), u64_small by lia. by rewrite (proj2 (Z.ltb_ge _ _)) by lia. }
    apply (rtc_l _ _ (conf q1 (SpscConcurrent.PCopy d 0 1) SpscConcurrent.CIdle)); [|].
    { apply spsc_producer_goes with (e := SpscConcurrent.Tau). change (lenZ d) with 1.
      cbn [SpscConcurrent.producer_step]. change (SpscQueue.buffer_ q) with (Some buf). change (SpscQueue.mask_ q) with (cap ⊖ 1).
      cbn [mbind option_bind]. rewrite Haddr. change (d !! Z.to_nat 0) with (Some (ch 0xAA)). cbn [mbind option_bind].
      rewrite Hs. reflexivity. }
    apply rtc_once. by apply spsc_producer_goes with (e := SpscConcurrent.Return (Fifo.Enqueue d) kOk []).
  - apply rtc_once. apply spsc_producer_goes with (e := SpscConcurrent.Tau). cbn. change (lenZ d) with 1.
    rewrite (u64_small (1 - 0)), u64_small by lia. by rewrite (proj2 (Z.ltb_ge _ _)) by lia.
  - apply (rtc_l _ _ (conf q2 (SpscConcurrent.PCopy d 1 0) (SpscConcurrent.CReload 1 0))); [|apply rtc_once].
    + by apply spsc_consumer_goes with (e := SpscConcurrent.Tau).
    + by apply spsc_consumer_goes with (e := SpscConcurrent.Tau).
Qed.

(** ** The multiple-consumer queue *)

Module Spmc.
Import SpmcQueue SpmcMemory.

(** The last call of the one consumer. *)
Definition last_call (m : weak) : nat := pred (length (calls m)).

Definition put_copied (m m' : weak) (d : bytes) : bytes :=
  match c_pc <$> calls m !! last_call m, c_pc <$> calls m' !! last_call m with
  | Some (CCopy _ _), Some (CCommit _ _ out) => fill d (concat out)
  | _, _ => d
  end.

(** [enqueue_bytes(&data)] and [dequeue_bytes(&data)] by the steps of SpmcMemory.v. *)
#[export] Instance spmc_threads : Threads weak := {
  idle x m :=
    match x with
    | Producing => wp m = PIdle
    | Consuming => forall c, last (calls m) = Some c -> returned (c_pc c) = true
    end;
  begins x m d m' :=
    match x with
    | Producing => weak_step m (Enqueue d) = Some m'
    | Consuming => weak_step m (Dequeue (match calls m with [] => None | _ => Some (last_call m) end) (lenZ d)) = Some m'
    end;
  goes_on x m d m' d' :=
    match x with
    | Producing => exists j, allowed m (Producer j) /\ weak_step m (Producer j) = Some m' /\ d' = d
    | Consuming => exists j, allowed m (Consumer (last_call m) j) /\
        weak_step m (Consumer (last_call m) j) = Some m' /\ d' = put_copied m m' d
    end;
  reading m := match wp m with PCopy _ => True | _ => False end;
  writing m := match c_pc <$> last (calls m) with Some (CCopy _ _) => True | _ => False end;
}.

Definition spmc_busy (capacity : Z) (helper : side) (alloc : Z -> option bytes) (st : State) : option (busy weak) :=
  queue ← spmc_reserve alloc capacity;
  Some {| helper := helper; machine := weak_start queue; data := [ch 0xAA]; running := true;
          left := max_iterations st |}.

Definition spmc_queue_medium_consumer_bench_with_busy_producer := spmc_busy kMediumQueueCapacity Producing.
Definition spmc_queue_medium_producer_bench_with_busy_consumer := spmc_busy kMediumQueueCapacity Consuming.
Definition spmc_queue_large_consumer_bench_with_busy_producer := spmc_busy kLargeQueueCapacity Producing.
Definition spmc_queue_large_producer_bench_with_busy_consumer := spmc_busy kLargeQueueCapacity Consuming.

Lemma producer_goes m m' d j :
  (commit_seen m <= j < length (commits m))%nat -> weak_producer m j = Some m' -> machine_step m m' d.
Proof.
  intros Hj H. exists Producing, j. split_and!; [|exact H | done]. split; [|done]. intros Hi. cbn in H.
  unfold weak_producer in H. rewrite Hi in H. discriminate.
Qed.

(** What the steps of the two threads are on a queue with room and with a byte. *)
Lemma start_step s d j m :
  wp s = PStart d -> commits s !! j = Some m -> no_space (see_commit (wq s) (value m)) (lenZ d) = false ->
  weak_producer s j = Some (put_producer s (wq s) (tails s) (written s) (PCopy d)
    (view_join (producer_view s) (carried m)) j (stream s)).
Proof. intros Hp Hm Hs. unfold weak_producer. rewrite Hp, Hm. cbn [mbind option_bind]. by rewrite Hs. Qed.

Lemma copy_step s d j buf buf' :
  wp s = PCopy d -> reads_known (fetched s) (producer_view s) (addresses (wq s) (tail_idx_ (wq s)) (lenZ d)) = true ->
  buffer_ (wq s) = Some buf -> ring_copy_in buf (mask_ (wq s)) (tail_idx_ (wq s)) d = Some buf' ->
  weak_producer s j = Some (put_producer s (set_tail (wq s) buf' (tail_idx_ (wq s))) (tails s)
    (written s ++ addresses (wq s) (tail_idx_ (wq s)) (lenZ d)) (PStore d)
    {| writes := writes (producer_view s) + lenZ d; tail_seen := tail_seen (producer_view s);
       reads := reads (producer_view s) |} (commit_seen s) (stream s ++ d)).
Proof. intros Hp Hk Hb Hr. unfold weak_producer. rewrite Hp, Hk, Hb. cbn [mbind option_bind]. by rewrite Hr. Qed.

Lemma consumer_goes m m' d j c :
  calls m !! last_call m = Some c -> returned (c_pc c) = false ->
  (tail_seen (c_view c) <= j < length (tails m))%nat ->
  weak_consumer m (last_call m) j = Some m' -> put_copied m m' d = d -> machine_step m m' d.
Proof. intros Hc Hr Hj H Hd. exists Consuming, j. rewrite Hd. split_and!; [by exists c | exact H | done]. Qed.

Lemma ticket_step s i j c size :
  calls s !! i = Some c -> c_pc c = CStart size ->
  weak_consumer s i j = Some (put_call s i
    (move c (asked s) (CTicket size (head_idx_ (wq s))) (view_join (c_view c) (head_view s)))
    (set_indices (wq s) (head_idx_ (wq s) ⊕ size) (commit_idx_ (wq s))) (commits s)
    (view_join (c_view c) (head_view s)) (fetched s) (asked s + size)).
Proof. intros Hc Hp. unfold weak_consumer. rewrite Hc. cbn [mbind option_bind]. by rewrite Hp. Qed.

Lemma available_step s i j c size ticket m :
  calls s !! i = Some c -> c_pc c = CTicket size ticket -> tails s !! j = Some m ->
  (value m ⊖ ticket <? size) = false ->
  weak_consumer s i j = Some (put_call s i
    (move c (c_first c) (CCopy size ticket) (view_join (c_view c) (carried m)))
    (wq s) (commits s) (head_view s) (fetched s) (asked s)).
Proof.
  intros Hc Hp Hm Hs. unfold weak_consumer. rewrite Hc. cbn [mbind option_bind]. rewrite Hp, Hm.
  cbn [mbind option_bind consumer_step]. cbn [see_tail tail_idx_]. by rewrite Hs.
Qed.

Lemma spmc_busy_race cap helper alloc st buf :
  next_power_of_2 cap = Some cap -> 2 <= cap <= 2 ^ 62 ->
  alloc (cap ⊕ kCacheSize) = Some buf -> lenZ buf = cap ⊕ kCacheSize -> (2 <= max_iterations st)%nat ->
  exists b b', spmc_busy cap helper alloc st = Some b /\ busy_steps b b' /\ race_on_data b'.
Proof.
  intros Hp Hc Ha Hl Hn. unfold spmc_busy, spmc_reserve, spmc_next_power_of_2. rewrite Hp. cbn [mbind option_bind].
  rewrite Ha. cbn [mbind option_bind]. unfold kCacheSize in Hl. rewrite u64_small in Hl by lia.
  set (q := {| buffer_ := Some buf; capacity_ := cap; mask_ := cap ⊖ 1; tail_idx_ := 0; head_idx_ := 0;
    commit_idx_ := 0; allocation_size_ := cap ⊕ kCacheSize |}%Z : SpmcQueue).
  set (d := [ch 0xAA]). eexists.
  enough (exists b', busy_steps _ b' /\ race_on_data b') as (b' & Hb) by (exists b'; split; [reflexivity | exact Hb]).
  assert (forall q' t, capacity_ q' = cap -> tail_idx_ q' = t -> 0 <= t <= 1 ->
    no_space (see_commit q' 0) (lenZ d) = false) as Hroom.
  { intros q' t Hcap Ht Hr. unfold no_space. cbn. change (lenZ d) with 1. rewrite Hcap, Ht, (u64_small (t - 0)), u64_small by lia.
    apply Z.ltb_ge. lia. }
  assert (exists buf', ring_copy_in buf (cap ⊖ 1) 0 d = Some buf') as [buf' Hbuf].
  { unfold ring_copy_in. rewrite Z.land_0_l, (u64_small (cap - 1)), (u64_small (cap - 1 + 1)), u64_small by lia.
    change (lenZ d) with 1. rewrite (proj2 (Z.leb_le _ _)) by lia. unfold mem_store.
    rewrite decide_True; [by eexists|]. change (lenZ d) with 1. lia. }
  set (m0 := weak_start q).
  set (m1 := put_producer m0 q (tails m0) [] (PStart d) fresh_view 0 []).
  set (a1 := put_producer m1 q (tails m1) [] (PCopy d) fresh_view 0 []).
  set (a2 := put_producer a1 (set_tail q buf' 0) (tails m1) (addresses q 0 1) (PStore d)
    {| writes := 1; tail_seen := 0; reads := ∅ |} 0 d).
  set (v := {| writes := 1; tail_seen := 1; reads := ∅ |}).
  set (q1 := set_tail q buf' 1).
  set (ts := [{| value := 0; carried := fresh_view |}; {| value := 1; carried := v |}]).
  set (m2 := put_producer a2 q1 ts (addresses q 0 1) PIdle v 0 d).
  set (m3 := put_producer m2 q1 ts (addresses q 0 1) (PStart d) v 0 d).
  set (m4 := put_producer m3 q1 ts (addresses q 0 1) (PCopy d) v 0 d).
  set (c1 := {| c_size := 1; c_first := 0; c_pc := CStart 1; c_view := fresh_view |}).
  set (m5 := {| wq := q1; tails := ts; commits := commits m4; head_view := fresh_view; written := addresses q 0 1;
    fetched := []; wp := PCopy d; producer_view := v; commit_seen := 0; calls := [c1]; stream := d; asked := 0 |}).
  set (b1 := put_call m5 0 (move c1 0 (CTicket 1 0) fresh_view) (set_indices q1 1 0) (commits m4) fresh_view [] 1).
  set (m6 := put_call b1 0 (move c1 0 (CCopy 1 0) v) (set_indices q1 1 0) (commits m4) fresh_view [] 1).
  apply (busy_race helper m0 m1 m2 m3 m4 m5 d (max_iterations st)) with (m6 := m6); try (destruct helper; lia);
    try reflexivity; try exact I.
  - apply (rtc_l _ _ a1); [|apply (rtc_l _ _ a2)]; [| |apply rtc_once]; apply (producer_goes _ _ _ 0);
      try (cbn; lia).
    + refine (eq_trans (start_step m1 d 0 _ eq_refl eq_refl _) _); [by apply (Hroom q 0) | reflexivity].
    + refine (eq_trans (copy_step a1 d 0 buf buf' eq_refl _ eq_refl Hbuf) _); reflexivity.
    + reflexivity.
  - apply rtc_once, (producer_goes _ _ _ 0); [cbn; lia|].
    refine (eq_trans (start_step m3 d 0 _ eq_refl eq_refl _) _); [by apply (Hroom q1 1) | reflexivity].
  - intros c Hcall. discriminate.
  - apply (rtc_l _ _ b1); [apply (consumer_goes _ _ _ 0 c1) | apply rtc_once, (consumer_goes _ _ _ 1 (move c1 0 (CTicket 1 0) fresh_view))];
      try reflexivity; try (cbn; lia).
Qed.
End Spmc.

#[export] Existing Instance Spmc.spmc_threads.

(** ** The race *)

Definition spsc_busy_benchmarks := [
  spsc_queue_medium_consumer_bench_with_busy_producer; spsc_queue_medium_producer_bench_with_busy_consumer;
  spsc_queue_large_consumer_bench_with_busy_producer; spsc_queue_large_producer_bench_with_busy_consumer ].

Definition spmc_busy_benchmarks := [
  Spmc.spmc_queue_medium_consumer_bench_with_busy_producer; Spmc.spmc_queue_medium_producer_bench_with_busy_consumer;
  Spmc.spmc_queue_large_consumer_bench_with_busy_producer; Spmc.spmc_queue_large_producer_bench_with_busy_consumer ].

(** The benchmark can come to a state in which both threads are about to access [data]. *)
Definition races {M : Type} {T : Threads M} (alloc : Z -> option bytes) (st : State)
    (bench : (Z -> option bytes) -> State -> option (busy M)) : Prop :=
  exists b b', bench alloc st = Some b /\ busy_steps b b' /\ race_on_data b'.

(** C39. The benchmarks with two threads race. In each of the eight, if there is memory for the queue
    and the timed loop runs at least twice, the two threads can come to a point where the next step of
    the producer reads the shared variable [data] inside [enqueue_bytes] and the next step of the
    consumer writes it inside [dequeue_bytes]: a data race, with nothing undefined before it. The
    queue orders a record before the call that takes it out, not the next call that puts one in. *)
Theorem busy_benchmarks_race alloc st :
  alloc_sized alloc -> (forall n, is_Some (alloc n)) -> (2 <= max_iterations st)%nat ->
  Forall (races alloc st) spsc_busy_benchmarks /\ Forall (races alloc st) spmc_busy_benchmarks.
Proof.
  intros Ha Hmem Hn.
  assert (forall cap, In cap [kMediumQueueCapacity; kLargeQueueCapacity] ->
    next_power_of_2 cap = Some cap /\ 2 <= cap <= 2 ^ 62 /\
    exists buf, alloc (cap ⊕ kCacheSize) = Some buf /\ lenZ buf = cap ⊕ kCacheSize) as Hcap.
  { intros cap Hin. destruct (Hmem (cap ⊕ kCacheSize)) as [buf Hb].
    pose proof (Ha _ _ (proj1 (u64_range _)) Hb) as Hl.
    destruct Hin as [<-|[<-|[]]]; (split; [reflexivity|]; split; [split; vm_compute; discriminate | by exists buf]). }
  assert (forall cap h, In cap [kMediumQueueCapacity; kLargeQueueCapacity] ->
    races alloc st (spsc_busy cap h) /\ races alloc st (Spmc.spmc_busy cap h)) as Hrace.
  { intros cap h (Hp & Hc & buf & Hb & Hl)%Hcap.
    split; [by apply (spsc_busy_race cap h alloc st buf) | by apply (Spmc.spmc_busy_race cap h alloc st buf)]. }
  split; repeat constructor; apply Hrace; simpl; auto.
Qed.

Lemma busy_benchmarks_race_witness :
  exists b b', spsc_queue_medium_consumer_bench_with_busy_producer zero_alloc {| max_iterations := 2; range_0 := 0 |} = Some b /\
    busy_steps b b' /\ race_on_data b'.
Proof.
  destruct (busy_benchmarks_race zero_alloc {| max_iterations := 2; range_0 := 0 |} zero_alloc_sized) as [H _].
  - intros n. eexists. reflexivity.
  - apply le_n.
  - inversion_clear H. assumption.
Defined.
