(* ===== verification/SerializerBench.v ===== *)
(** * The benchmarks of the argument serializer

    src/src/logging/impl/args_serializer_bench.cc and args_deserializer_bench.cc: the calls of
    Serializer.v that the timed loops make. *)

From S2P Require Import Prelude LogEntry Serializer Benchmark.

(** The arguments; [address] is where the characters of a string are, and a [double] its bytes. *)
Section arguments.
Context (address : bytes -> Z).

Definition an_int (i : Z) : arg := ATrivial (le_split 4 i).
Definition a_bool (b : bool) : arg := ATrivial [if b then ch 1 else ch 0].
Definition a_double (bits : Z) : arg := ATrivial (le_split 8 bits).
Definition a_string (s : bytes) : arg := AString (Some (address s, s)).

Definition ints_types : list arg_type := replicate 5 (TTrivial 4).
Definition ints : list arg := [an_int 1; an_int 2; an_int 3; an_int 4; an_int 5].
Definition strings_types : list arg_type := [TString; TString].
Definition strings : list arg := [a_string (bs "hello"); a_string (bs "world!")].
Definition mixed_types : list arg_type := [TTrivial 4; TTrivial 1; TString; TTrivial 8].

(** 3.14 *)
Definition mixed : list arg := [an_int 42; a_bool true; a_string (bs "mixed"); a_double 0x40091EB851EB851F].

Definition x_y_z_fmt : bytes := bs "x={}, y={}, z={}".
Definition x_y_z_types : list arg_type := [TTrivial 4; TString; TTrivial 8].

(** 9.99 *)
Definition x_y_z : list arg := [an_int 100; a_string (bs "benchmark"); a_double 0x4023FAE147AE147B].
End arguments.

Definition kDefaultCapacity : Z := 2048.

Section benchmarks.
Context {CI : CodeImage} (address : bytes -> Z).

(** What [args()] is after each call: [size()] bytes from [data()] on. The buffer of the new serializer is
    not initialised. *)
Definition serialize_loop (types : list arg_type) (args : list arg) (buffer : bytes) (st : State) :
    option (list bytes * bytes) :=
  timed st (λ buffer,
    '(buffer, size) ← serialize kDefaultCapacity false [] types buffer args;
    Some (take (Z.to_nat size) buffer, buffer)) buffer.

Definition args_serializer_serialize_ints := serialize_loop ints_types ints.
Definition args_serializer_serialize_strings := serialize_loop strings_types (strings address).
Definition args_serializer_serialize_mixed := serialize_loop mixed_types (mixed address).

(** The two pointers are read from the bytes of the serializer, and what they point to is called. *)
Definition args_deserializer_deserialize_and_format {heap : Type} {PM : ProgramMemory heap}
    (fmt_output : heap -> bytes -> list value -> bytes) (eval_order : nat -> list nat) (h : heap)
    (buffer buf : bytes) (st : State) : option (list Z) :=
  '(args, size) ← serialize 256 false x_y_z_fmt x_y_z_types buffer (x_y_z address);
  format_func ← load_le args 0 8;
  deserialize_func ← load_le args 8 8;
  let payload := drop 16 args in
  '(results, _) ← timed st (λ buf,
    '(buf, n) ← deserialize_and_format fmt_output eval_order h buf format_func deserialize_func payload;
    Some (n, buf)) buf;
  Some results.
End benchmarks.

(** ** What they measure *)

Section measured.
Context {CI : CodeImage} {CIL : CodeImageLaws CI} (address : bytes -> Z).
Context (Haddress : forall s, 0 <= address s < 2 ^ 64).

Lemma passable_args :
  Forall2 (passable false) ints_types ints /\ Forall2 (passable false) strings_types (strings address) /\
  Forall2 (passable false) mixed_types (mixed address) /\ Forall2 (passable false) x_y_z_types (x_y_z address).
Proof. repeat constructor; cbn; try done; apply Haddress. Qed.

Lemma serialize_loop_gives types args buffer st :
  Forall2 (passable false) types args -> lenZ buffer = kDefaultCapacity ->
  sizeof_header + lenZ (args_bytes false args) < kDefaultCapacity ->
  exists b, serialize_loop types args buffer st =
    Some (replicate (max_iterations st) (header false [] types ++ args_bytes false args), b).
Proof.
  intros Hp Hb Hs. unfold serialize_loop.
  edestruct (times_constant (λ b : bytes, lenZ b = kDefaultCapacity) (header false [] types ++ args_bytes false args))
    as (b & E & _); [exact Hb| |exists b; exact E].
  intros b Hl. destruct (serialize_fits kDefaultCapacity false [] types b args Hp Hl) as (rest & -> & Hl'); [done|lia|].
  cbn [mbind option_bind]. eexists. split; [|exact Hl']. do 2 f_equal. rewrite app_assoc.
  rewrite take_app_length'; [done|]. pose proof (header_length false [] types) as Hh. rewrite length_app.
  pose proof (lenZ_nonneg (args_bytes false args)). unfold sizeof_header, lenZ in *. lia.
Qed.

(** What the benchmarks of the serializer measure: every call fits, and leaves the two pointers
    and the arguments, 36, 43 and 42 bytes; the pointers lead back to the values, whose text is
    formatted as often as the loop runs. *)
Theorem serializer_benchmarks_measure {heap : Type} {PM : ProgramMemory heap} (fmt_output : heap -> bytes -> list value -> bytes)
    eval_order (h : heap) buffer buffer256 buf st :
  lenZ buffer = kDefaultCapacity -> lenZ buffer256 = 256 ->
  format_linked x_y_z_fmt -> deserialize_linked false x_y_z_types ->
  let n := max_iterations st in
  (exists b data, args_serializer_serialize_ints buffer st = Some (replicate n data, b) /\ lenZ data = 36) /\
  (exists b data, args_serializer_serialize_strings address buffer st = Some (replicate n data, b) /\ lenZ data = 43) /\
  (exists b data, args_serializer_serialize_mixed address buffer st = Some (replicate n data, b) /\ lenZ data = 42) /\
  args_deserializer_deserialize_and_format address fmt_output eval_order h buffer256 buf st =
    Some (replicate n (lenZ (fmt_output h x_y_z_fmt
      [VTrivial (le_split 4 100); VString (bs "benchmark"); VTrivial (le_split 8 0x4023FAE147AE147B)]))).
Proof.
  intros Hb Hb256 Hf Hd n. destruct passable_args as (P1 & P2 & P3 & P4). split_and!.
  - destruct (serialize_loop_gives _ _ buffer st P1 Hb) as (b & E); [done|]. eexists b, _. split; [exact E|].
    rewrite lenZ_app, header_length. done.
  - destruct (serialize_loop_gives _ _ buffer st P2 Hb) as (b & E); [done|]. eexists b, _. split; [exact E|].
    rewrite lenZ_app, header_length. done.
  - destruct (serialize_loop_gives _ _ buffer st P3 Hb) as (b & E); [done|]. eexists b, _. split; [exact E|].
    rewrite lenZ_app, header_length. done.
  - unfold args_deserializer_deserialize_and_format.
    destruct (serialize_fits 256 false x_y_z_fmt x_y_z_types buffer256 _ P4 Hb256) as (rest & -> & _); [done|done|].
    cbn [mbind option_bind]. destruct (header_words false x_y_z_fmt x_y_z_types (args_bytes false (x_y_z address) ++ rest))
      as [-> ->]; [pose proof (format_address_range _ Hf); lia|pose proof (deserialize_address_range _ _ Hd); lia|].
    cbn [mbind option_bind]. rewrite drop_app_length' by (pose proof (header_length false x_y_z_fmt x_y_z_types); unfold sizeof_header, lenZ in *; lia).
    unfold timed. edestruct (times_constant (S := bytes) (A := Z) (λ _, True)) as (b & E & _); [exact I| |by rewrite E].
    intros b _. unfold deserialize_and_format. rewrite (format_at_address _ Hf), (deserialize_at_address _ _ Hd).
    cbn [mbind option_bind]. rewrite deserialize_args by (done || (left; cbn; lia)). cbn [mbind option_bind].
    assert (forallb (value_live h) (read_back false <$> x_y_z address) = true) as Hlive by done.
    destruct (format_size fmt_output h x_y_z_fmt b (read_back false <$> x_y_z address) Hlive) as (b' & -> & _).
    cbn [mbind option_bind]. by exists b'.
Qed.
End measured.
