(* ===== verification/LoggerBench.v ===== *)
(** * The benchmarks of the logger

    src/src/bench/femtolog_bench.cc: fourteen benchmarks that share one logger, and the benchmarks of
    src/src/logging/impl/ with a logger or worker of their own. Each of the fourteen starts its
    worker, logs the same message as often as Google Benchmark says, reports the two counters, and
    stops the worker. The steps are those of LoggerConcurrent.v; the sleep after the start is any
    number of steps of the worker. *)

From S2P Require Import Prelude Ring ByteQueue SpscQueue LogEntry StringRegistry Serializer SinkInterface.
From S2P Require Import Diagnostics BackendWorker BackendConcurrent InternalLogger LoggerConcurrent Facade Benchmark.

Section bench.
Context {Sk : Type} {SB : SinkBase Sk} {CI : CodeImage}.
Context {heap : Type} {PM : ProgramMemory heap} (fmt_output : heap -> bytes -> list value -> bytes) (memory : heap).
Context (clock : nat -> Z) (eval_order : nat -> list nat).

Abbreviation logger := (InternalLogger (Q := SpscQueue) (Sk := Sk)).
Abbreviation program := (program (Q := SpscQueue) (Sk := Sk)).
Abbreviation program_step := (program_step fmt_output memory clock eval_order).
Abbreviation program_exec := (program_exec fmt_output memory clock eval_order).

(** The static variable of [setup_logger], the handlers of the process, the logger of the thread and
    its worker thread. *)
Record session := { initialized : bool; handlers : process; prog : program }.

(** [null_sink] is the [NullSink]. *)
Context (null_sink : Sk) (alloc : Z -> option bytes) (is_debug : bool) (format_capacity : Z).

Definition with_logger (p : program) (l : logger) : program :=
  {| p_logger := l; p_worker_pc := p_worker_pc p; p_user := p_user p |}.

Definition setup_init (s : session) : option session :=
  if initialized s then Some s
  else
    '(l, h) ← logger_facade_init alloc is_debug (p_logger (prog s)) (handlers s) kFastOptions format_capacity;
    Some {| initialized := true; handlers := h; prog := with_logger (prog s) (logger_register_sink l null_sink) |}.

(** The thread that runs the benchmarks does [actions]; the worker thread steps in between. *)
Definition own (ul : user_label) : bool := match ul with UWorker => false | _ => true end.

Definition user_runs (p : program) (actions : list user_label) (p' : program) : Prop :=
  exists uls, program_exec p uls p' /\ List.filter own uls = actions.

Definition setup_logger (s s' : session) : Prop :=
  exists s1 p, setup_init s = Some s1 /\ user_runs (prog s1) [UStart] p /\
    s' = {| initialized := initialized s1; handlers := handlers s1; prog := p |}.

(** "enqueued count" and "dropped count". *)
Definition summarize_result (l : logger) : Z * Z := (enqueued_count_ l, dropped_count_ l).

Definition teardown_logger (s s' : session) : Prop :=
  exists p, user_runs (prog s) [UStop; UStopReturn] p /\
    s' = {| initialized := initialized s; handlers := handlers s; prog := with_logger p (reset_count (p_logger p)) |}.

(** A benchmark that logs [c]: [s1] is the state at the start of the timed loop and [s2] that at its end. *)
Definition benchmark (c : call) (st : State) (s s1 s2 : session) (counters : Z * Z) (s' : session) : Prop :=
  setup_logger s s1 /\
  (exists p, user_runs (prog s1) (replicate (max_iterations st) (ULog c)) p /\
     s2 = {| initialized := initialized s1; handlers := handlers s1; prog := p |}) /\
  counters = summarize_result (p_logger (prog s2)) /\
  teardown_logger s2 s'.

(** ** The fourteen calls

    [address] is where the characters of a string are. *)
Context (address : bytes -> Z).

Definition nl : bytes := [ch 10].
Definition an_int (i : Z) : arg := ATrivial (le_split 4 i).
Definition a_string (s : bytes) : arg := AString (Some (address s, s)).

Definition info (c_fmt : bytes) (c_types : list arg_type) (c_args : list arg) : call :=
  {| c_level := kInfo; c_fmt := c_fmt; c_ref := false; c_types := c_types; c_args := c_args |}.

Definition by_ref (c : call) : call :=
  {| c_level := c_level c; c_fmt := c_fmt c; c_ref := true; c_types := c_types c; c_args := c_args c |}.

(** The messages; the second half of the benchmarks logs them by reference. *)
Definition literal := info (bs "Benchmark test message" ++ nl) [] [].
Definition format_int := info (bs "Value: {}" ++ nl) [TTrivial 4] [an_int 123].
Definition format_multi_int :=
  info (bs "A: {}, B: {}, C: {}" ++ nl) [TTrivial 4; TTrivial 4; TTrivial 4] [an_int 1; an_int 2; an_int 3].
Definition format_small_string :=
  let name := bs "benchmark_user" in info (bs "User: {}" ++ nl) [TString] [a_string name].
Definition format_small_string_view :=
  let sv := bs "benchmark_view" in info (bs "View: {}" ++ nl) [TString] [a_string sv].
Definition format_mixed :=
  let user := bs "user42" in
  let op := bs "login" in
  let success := ATrivial [ch 1] in
  let id := ATrivial (le_split 8 9876543210) in
  info (bs "User: {}, Op: {}, Success: {}, ID: {}" ++ nl) [TString; TString; TTrivial 1; TTrivial 8]
    [a_string user; a_string op; success; id].
Definition format_large_string :=
  let long_str := replicate 512 "X"%byte in info (bs "Payload: {}" ++ nl) [TString] [a_string long_str].

Definition femtolog_info_literal := benchmark literal.
Definition femtolog_info_format_int := benchmark format_int.
Definition femtolog_info_format_multi_int := benchmark format_multi_int.
Definition femtolog_info_format_small_string := benchmark format_small_string.
Definition femtolog_info_format_small_string_view := benchmark format_small_string_view.
Definition femtolog_info_format_mixed := benchmark format_mixed.
Definition femtolog_info_format_large_string := benchmark format_large_string.
Definition femtolog_info_ref_literal := benchmark (by_ref literal).
Definition femtolog_info_ref_format_int := benchmark (by_ref format_int).
Definition femtolog_info_ref_format_multi_int := benchmark (by_ref format_multi_int).
Definition femtolog_info_ref_format_small_string := benchmark (by_ref format_small_string).
Definition femtolog_info_ref_format_small_string_view := benchmark (by_ref format_small_string_view).
Definition femtolog_info_ref_format_mixed := benchmark (by_ref format_mixed).
Definition femtolog_info_ref_format_large_string := benchmark (by_ref format_large_string).

(** bench_main.cc registers the handlers of the process before it runs the benchmarks. *)
Definition bench_main (h : process) : process :=
  femtolog_register_stack_trace_handler
    (femtolog_register_terminate_handler (femtolog_register_signal_handlers is_debug h)).

(** ** A logger or a worker of its own

    internal_logger_bench.cc and backend_worker_bench.cc; [thread_hash], [args] and [entry] are the
    hash of the thread and the memory of the new logger. *)

Definition new_program (thread_hash : Z) (args entry : bytes) : program :=
  {| p_logger := logger_new thread_hash spsc_new args entry; p_worker_pc := WNone;
     p_user := LoggerConcurrent.Idle |}.

Definition with_new_logger (c : call) (thread_hash : Z) (args entry : bytes) (st : State) (p' : program) : Prop :=
  let p := new_program thread_hash args entry in
  exists l, logger_init (reserve alloc) (p_logger p) default_options format_capacity = Some l /\
    user_runs (with_logger p (logger_register_sink l null_sink))
      (UStart :: replicate (max_iterations st) (ULog c) ++ [UStop; UStopReturn]) p'.

Definition internal_logger_literal_log := with_new_logger (info (bs "Benchmark literal") [] []).
Definition internal_logger_formatted_log :=
  let str := bs "times" in
  with_new_logger (info (bs "Benchmark {} {}") [TTrivial 4; TString] [an_int 42; a_string str]).

(** The options of the worker; its queue is not reserved, and it is started and stopped in every
    iteration. *)
Definition run_loop_options : FemtologOptions :=
  {| spsc_queue_size := spsc_queue_size default_options; backend_format_buffer_size := 4096;
     backend_dequeue_buffer_size := 4096; backend_worker_cpu_affinity := kAffinityDisabled;
     color_mode := color_mode default_options; terminate_on_fatal := terminate_on_fatal default_options |}.

Definition backend_worker_run_loop (thread_hash : Z) (args entry : bytes) (st : State) (p' : program) : Prop :=
  let p := new_program thread_hash args entry in
  let worker := register_sink (worker_init worker_new run_loop_options format_capacity) null_sink in
  user_runs (with_logger p (put_worker (p_logger p) worker))
    (concat (replicate (max_iterations st) [UStart; UStop; UStopReturn])) p'.

Definition messages_logged : list call := [literal; format_int; format_multi_int; format_small_string;
  format_small_string_view; format_mixed; format_large_string].

(** The bytes of the records, and with them how many calls of a loop a queue of [kFastOptions] takes. *)
Lemma record_sizes tid :
  (λ c, msg_size (message_of tid c)) <$> messages_logged = [47; 44; 52; 62; 62; 76; 560] /\
  (λ c, msg_size (message_of tid (by_ref c))) <$> messages_logged = [47; 44; 52; 56; 56; 81; 56].
Proof. split; vm_compute; reflexivity. Qed.

Lemma most_taken : Forall (λ n, spsc_queue_size kFastOptions / n <= 95325) [47; 44; 52; 62; 62; 76; 560; 56; 81].
Proof. repeat constructor; vm_compute; discriminate. Qed.

(** ** A worker that is started again *)

Context {SL : SinkLaws Sk} {CIL : CodeImageLaws CI}.
Context (Hclock : forall n, 0 <= clock n < 2 ^ 64) (Horder : forall n, (4 < n)%nat -> eval_order n = seq 0 n).
Context (D F : Z) (sinks0 : list Sk).

Abbreviation inv := (inv (Q := SpscQueue) (Sk := Sk) fmt_output memory clock D F sinks0).
Abbreviation deliv := (deliverable (Sk := Sk) fmt_output memory D F).

(** To a worker whose shutdown is asked for it makes no difference whether its client waits in [join]. *)
Definition joined (p : program) (acc : list message) : system (Q := SpscQueue) (Sk := Sk) :=
  {| s_queue := queue_ (p_logger p); s_worker := backend_worker_ (p_logger p); s_pc := p_worker_pc p;
     s_client := CJoin; accepted := acc |}.

(** What the worker leaves alone. *)
Definition same_rest (l l' : logger) : Prop :=
  level_ l' = level_ l /\ thread_id_ l' = thread_id_ l /\ enqueued_count_ l' = enqueued_count_ l /\
  dropped_count_ l' = dropped_count_ l /\ serializer_args l' = serializer_args l /\
  entry_buffer_ l' = entry_buffer_ l /\ bq_capacity (queue_ l') = bq_capacity (queue_ l).

(** A logger whose worker was stopped: the messages [hist] are with the sinks, and [ms] in the queue. *)
Record spent (hist ms : list message) (p : program) : Prop := {
  sp_idle : p_user p = Idle /\ p_worker_pc p = WNone;
  sp_flags : shutdown_required_ (backend_worker_ (p_logger p)) = true /\
    status_ (backend_worker_ (p_logger p)) = kIdling;
  sp_flush : flush_completed_seq_ (backend_worker_ (p_logger p)) = flush_requested_seq_ (backend_worker_ (p_logger p)) /\
    0 <= flush_requested_seq_ (backend_worker_ (p_logger p));
  sp_ready : worker_ready D F (backend_worker_ (p_logger p));
  sp_sinks : sinks_ (backend_worker_ (p_logger p)) = deliver_all fmt_output memory clock sinks0 0 hist;
  sp_clock : clock_reads (backend_worker_ (p_logger p)) = length hist;
  sp_sizes : logger_sizes (p_logger p);
  sp_queue : queued (queue_ (p_logger p)) ms;
  sp_deliverable : Forall deliv ms;
  sp_counts : enqueued_count_ (p_logger p) = 0 /\ dropped_count_ (p_logger p) = 0;
  sp_level : level_ (p_logger p) = kInfo;
}.

(** The worker between its second start and its end. *)
Definition finishing (hist : list message) (p0 p : program) : Prop :=
  exists k done pend, inv 1 k done pend (joined p (done ++ pend)) /\ done ++ pend = hist /\
    same_rest (p_logger p0) (p_logger p) /\ p_user p = Idle.

Lemma same_rest_trans l1 l2 l3 : same_rest l1 l2 -> same_rest l2 l3 -> same_rest l1 l3.
Proof. unfold same_rest. intuition congruence. Qed.

(** A step of the worker keeps the capacity of the queue. *)
Lemma worker_step_capacity n k done pend s q' w' pc' :
  inv n k done pend s -> worker_step fmt_output memory clock eval_order (s_queue s) (s_worker s) (s_pc s) = Some (q', w', pc') ->
  bq_capacity q' = bq_capacity (s_queue s).
Proof.
  intros I E. destruct (s_pc s) as [| | |req|ph|ph total|req|b| |req|] eqn:Epc; cbn [worker_step] in E; try by simplify_eq.
  - destruct (peek_entry _) as [r|]; [|done]. by simplify_eq/=.
  - pose proof (inv_pc _ _ _ _ _ _ _ _ _ _ _ I) as Hp. rewrite Epc in Hp. destruct Hp as (_ & m & ms & -> & ->).
    pose proof (inv_deliverable _ _ _ _ _ _ _ _ _ _ _ I) as Hd. inversion Hd as [|? ? Hm _]; subst.
    destruct (dequeue_queued fmt_output memory clock eval_order Hclock Horder D F (s_queue s) (s_worker s) m ms
      (inv_ready _ _ _ _ _ _ _ _ _ _ _ I) (inv_queued _ _ _ _ _ _ _ _ _ _ _ I) Hm) as (q1 & w1 & E1 & _ & Hc & _).
    rewrite E1 in E. by simplify_eq/=.
Qed.

Lemma finishing_step hist p0 p p' :
  finishing hist p0 p -> program_step p UWorker p' -> finishing hist p0 p'.
Proof.
  intros (k & dn & pend & I & Hh & Hr & Hu) Hstep.
  inversion Hstep as [? q' w' pc' Hw| | | | | | | | | |]; subst.
  assert (running (p_worker_pc p)) as Hrun by (split; intros E; by rewrite E in Hw).
  destruct (worker_step_inv fmt_output memory clock eval_order D F sinks0 Hclock Horder 0 k dn pend _ I Hrun)
    as (q1 & w1 & pc1 & d1 & p1 & E & I1 & _). cbn [joined s_queue s_worker s_pc s_client accepted] in *.
  rewrite Hw in E. injection E as <- <- <-.
  pose proof (worker_step_capacity _ _ _ _ _ _ _ _ I Hw) as Hcap.
  pose proof (inv_accepted _ _ _ _ _ _ _ _ _ _ _ I1) as Ha. cbn [accepted] in Ha.
  exists k, d1, p1. split; [|split; [done|split; [|done]]].
  - unfold joined. cbn. by rewrite <- Ha.
  - eapply same_rest_trans; [exact Hr|]. by split_and!.
Qed.

(** The start of the worker, from such a state. *)
Lemma spent_start hist ms p p' :
  spent hist ms p -> program_step p UStart p' -> finishing (hist ++ ms) p p' /\ p_worker_pc p' = WTop.
Proof.
  intros S Hstep. destruct S as [[Hu Hpc] [Hsd Hst] [Hf Hf0] Hrd Hs Hc Hsz Hq Hd _ _].
  inversion Hstep as [| | | |? Hu' Hst' Hpc'| | | | | |]; subst. split; [|done].
  exists (flush_requested_seq_ (backend_worker_ (p_logger p))), hist, ms.
  split; [|split; [done|split; [by split_and!|done]]].
  split; cbn; try done.
  - by destruct Hrd.
  - unfold flush_inv. cbn. lia.
Qed.

(** ** One benchmark *)

Lemma own_snoc uls ul acts :
  List.filter own (uls ++ [ul]) = acts ->
  (ul = UWorker /\ List.filter own uls = acts) \/ (own ul = true /\ acts = List.filter own uls ++ [ul]).
Proof.
  rewrite List.filter_app. cbn [List.filter]. destruct ul; cbn; intros <-; [left; by rewrite app_nil_r|right; by split..].
Qed.

(** A worker that is not there takes no step. *)
Lemma no_worker_step p p' : ~ running (p_worker_pc p) -> ~ program_step p UWorker p'.
Proof.
  intros Hn Hstep. inversion Hstep as [? q' w' pc' Hw| | | | | | | | | |]; subst.
  apply Hn. split; intros E; by rewrite E in Hw.
Qed.

Lemma start_runs hist ms p p' :
  spent hist ms p -> user_runs p [UStart] p' -> finishing (hist ++ ms) p p'.
Proof.
  intros S (uls & He & Hf).
  enough ((List.filter own uls = [] -> p' = p) /\ (List.filter own uls = [UStart] -> finishing (hist ++ ms) p p')) as [_ H] by auto.
  clear Hf. induction He as [p|p uls p1 ul p2 He IH Hstep]; [by split|]. destruct (IH S) as [IH0 IH1].
  split; intros Hf; destruct (own_snoc _ _ _ Hf) as [[-> Hf']|[Ho Hf']].
  - rewrite (IH0 Hf') in Hstep. apply no_worker_step in Hstep; [done|].
    destruct (sp_idle _ _ _ S) as [_ ->]. by intros [? _].
  - by destruct (List.filter own uls).
  - eapply finishing_step; [by apply IH1 | done].
  - destruct (List.filter own uls) as [|? [|]] eqn:E; [|done..]. injection Hf' as <-.
    rewrite (IH0 eq_refl) in Hstep. by apply spent_start.
Qed.

Section one_call.
Context (c : call) (Hc : call_compiles c) (Hlevel : c_level c = kInfo).

(** How many records of the message the queue has room for. *)
Definition room (l : logger) : nat :=
  Z.to_nat (bq_capacity (queue_ l) / msg_size (message_of (thread_id_ l) c)).

(** After [j] of the calls, the worker having ended before the first. *)
Record logged (p1 : program) (j : nat) (p : program) : Prop := {
  lg_threads : p_worker_pc p = WExited /\ p_user p = Idle;
  lg_settings : same_settings (p_logger p1) (p_logger p);
  lg_ok : logger_ok (replicate (j `min` room (p_logger p1)) (message_of (thread_id_ (p_logger p1)) c)) (p_logger p);
  lg_enqueued : enqueued_count_ (p_logger p) = Z.of_nat (j `min` room (p_logger p1));
  lg_dropped : dropped_count_ (p_logger p) = Z.of_nat (j - room (p_logger p1));
}.

Lemma replicate_size m j : foldr Z.add 0 (msg_size <$> replicate j m) = Z.of_nat j * msg_size m.
Proof. induction j as [|j IH]; [done|]. cbn [replicate fmap list_fmap foldr]. rewrite IH. lia. Qed.

Lemma msg_size_pos m : 0 < msg_size m.
Proof. unfold msg_size, sizeof_LogEntry. pose proof (lenZ_nonneg (m_payload m)). lia. Qed.

Lemma logged_step p1 j p p' :
  level_ (p_logger p1) = kInfo -> status_ (backend_worker_ (p_logger p1)) = kRunning ->
  deliv (message_of (thread_id_ (p_logger p1)) c) -> Z.of_nat j + 1 < 2 ^ 64 ->
  logged p1 j p -> program_step p (ULog c) p' -> logged p1 (S j) p'.
Proof.
  intros Hlv Hrun (_ & _ & Hsmall & _) Hj [[Hpc Hu] Hset Hok He Hd] Hstep.
  pose proof Hset as (Hs1 & Hs2 & Hs3 & Hs4 & Hs5). set (m := message_of (thread_id_ (p_logger p1)) c) in *.
  destruct (run_call_enabled _ (p_logger p) c Hok Hc) as (l' & Hr & Hsame & Hacc & Hdrop & _).
  { split; [rewrite Hlevel, Hs1, Hlv; done | by rewrite Hs3]. }
  rewrite bool_decide_eq_false_2 in Hr by (by rewrite Hlevel). cbn [andb] in Hr.
  rewrite Hs2 in Hacc, Hdrop. fold m in Hacc, Hdrop.
  assert (p' = {| p_logger := l'; p_worker_pc := WExited; p_user := Idle |}) as ->.
  { inversion Hstep as [| ? ? l1 _ E | ? ? l1 _ E | | | | | | | |]; subst; rewrite Hr in E; [|done].
    injection E as ->. by rewrite Hpc. }
  assert (same_settings (p_logger p1) l') as Hset'.
  { unfold same_settings in *. intuition congruence. }
  assert (fits_queue (p_logger p) m <-> (j < room (p_logger p1))%nat) as Hfits.
  { unfold fits_queue. rewrite (queued_size _ _ (ok_queue _ _ Hok)), replicate_size, Hs5.
    pose proof (msg_size_pos m) as Hp. unfold room. fold m.
    set (cap := bq_capacity (queue_ (p_logger p1))) in *.
    assert (0 <= cap) as Hcap.
    { rewrite <- Hs5. destruct (ok_queue _ _ Hok) as (Hv & _). pose proof (bq_bounded _ Hv).
      pose proof (lenZ_nonneg (bq_contents (queue_ (p_logger p)))). lia. }
    pose proof (Z.mul_div_le cap (msg_size m) Hp). pose proof (Z.mul_succ_div_gt cap (msg_size m) Hp).
    pose proof (Z.div_pos cap (msg_size m) Hcap Hp). split; intros H'; [|nia].
    apply Nat.nle_gt. intros Hle. nia. }
  destruct (decide (j < room (p_logger p1))%nat) as [Hlt|Hge].
  - destruct Hacc as (Ha1 & Ha2 & Ha3); [split; [done | by apply Hfits]|].
    constructor; cbn [p_logger p_worker_pc p_user]; [done | done | | |].
    + rewrite Nat.min_l by lia. rewrite Nat.min_l in Ha3 by lia. by rewrite replicate_S_end.
    + rewrite Ha1, He, u64_small by lia. lia.
    + rewrite Ha2, Hd. lia.
  - destruct Hdrop as (Ha1 & Ha2 & Ha3); [intros [_ Hf%Hfits]; lia|].
    constructor; cbn [p_logger p_worker_pc p_user]; [done | done | | |].
    + rewrite Nat.min_r by lia. rewrite Nat.min_r in Ha3 by lia. done.
    + rewrite Ha1, He. lia.
    + rewrite Ha2, Hd, u64_small by lia. lia.
Qed.

Lemma logs_run p1 n p :
  level_ (p_logger p1) = kInfo -> status_ (backend_worker_ (p_logger p1)) = kRunning ->
  deliv (message_of (thread_id_ (p_logger p1)) c) -> Z.of_nat n < 2 ^ 64 ->
  logged p1 0 p1 -> user_runs p1 (replicate n (ULog c)) p -> logged p1 n p.
Proof.
  intros Hlv Hrun Hd Hn H0 (uls & He & Hf). revert n Hn Hf.
  induction He as [p1|p1 uls p2 ul p He IH Hstep]; intros n Hn Hf.
  { by destruct n. }
  destruct (own_snoc _ _ _ Hf) as [[-> Hf']|[Ho Hf']].
  - pose proof (IH Hlv Hrun Hd H0 n Hn Hf') as L. apply no_worker_step in Hstep; [done|].
    destruct (lg_threads _ _ _ L) as [-> _]. by intros [_ ?].
  - destruct n as [|n]; [by destruct (List.filter own uls)|].
    rewrite replicate_S_end in Hf'. apply app_inj_tail in Hf' as [Hf' <-].
    eapply logged_step; [done..| | |exact Hstep]; [lia|]. apply IH; try done. lia.
Qed.

(** The worker has ended, and the loop begins. *)
Lemma ended_logged hist ms p0 p1 :
  spent hist ms p0 -> finishing (hist ++ ms) p0 p1 -> p_worker_pc p1 = WExited ->
  logged p1 0 p1 /\ level_ (p_logger p1) = kInfo /\ status_ (backend_worker_ (p_logger p1)) = kRunning /\
  shutdown_required_ (backend_worker_ (p_logger p1)) = true /\
  sinks_ (backend_worker_ (p_logger p1)) = deliver_all fmt_output memory clock sinks0 0 (hist ++ ms) /\
  clock_reads (backend_worker_ (p_logger p1)) = length (hist ++ ms) /\
  worker_ready D F (backend_worker_ (p_logger p1)) /\
  flush_completed_seq_ (backend_worker_ (p_logger p1)) = flush_requested_seq_ (backend_worker_ (p_logger p1)) /\
  0 <= flush_requested_seq_ (backend_worker_ (p_logger p1)).
Proof.
  intros S (k & dn & pend & I & Hh & (Hr1 & Hr2 & Hr3 & Hr4 & Hr5 & Hr6 & Hr7) & Hu) Hpc.
  destruct I as [_ Hq _ Hrd Hs Hck Hf Hl Hp _]. unfold joined in *. cbn in *. rewrite Hpc in Hl, Hp. cbn in Hl, Hp.
  destruct Hp as [_ ->]. rewrite app_nil_r in Hh. subst dn. destruct Hl as [Hst Hsd].
  destruct Hf as ((? & ?) & _ & Hfl). destruct (sp_sizes _ _ _ S) as [Z1 Z2 Z3]. destruct (sp_counts _ _ _ S) as [C1 C2].
  assert (logged p1 0 p1); [|split_and!; try done; [by rewrite Hr1, (sp_level _ _ _ S) | by apply Hsd | lia..]].
  constructor; [done | by split_and! | | by rewrite Hr3 | by rewrite Hr4].
  split; [by rewrite Hr2 | by rewrite Hr5 | by rewrite Hr6 | done].
Qed.

Definition stopped_program (p : program) : program :=
  {| p_logger := put_worker (p_logger p) (store_stopped (store_shutdown (backend_worker_ (p_logger p))));
     p_worker_pc := WNone; p_user := LoggerConcurrent.Idle |}.

Lemma stop_runs p p' :
  p_worker_pc p = WExited -> p_user p = LoggerConcurrent.Idle -> status_ (backend_worker_ (p_logger p)) = kRunning ->
  user_runs p [UStop; UStopReturn] p' -> p' = stopped_program p.
Proof.
  intros Hpc Hu Hst (uls & He & Hf).
  set (mid := {| p_logger := put_worker (p_logger p) (store_shutdown (backend_worker_ (p_logger p)));
    p_worker_pc := WExited; p_user := Stopping false |} : program).
  enough ((List.filter own uls = [] -> p' = p) /\ (List.filter own uls = [UStop] -> p' = mid) /\
    (List.filter own uls = [UStop; UStopReturn] -> p' = stopped_program p)) as (_ & _ & H) by auto.
  clear Hf. induction He as [p|p uls p1 ul p2 He IH Hstep]; [by split_and!|].
  destruct (IH Hpc Hu Hst) as (IH0 & IH1 & IH2).
  split_and!; intros Hf; destruct (own_snoc _ _ _ Hf) as [[-> Hf']|[Ho Hf']].
  - rewrite (IH0 Hf') in Hstep. apply no_worker_step in Hstep; [done|]. rewrite Hpc. by intros [_ ?].
  - by destruct (List.filter own uls).
  - rewrite (IH1 Hf') in Hstep. apply no_worker_step in Hstep; [done|]. by intros [_ ?].
  - destruct (List.filter own uls) as [|? [|]] eqn:E; [|done..]. injection Hf' as <-. rewrite (IH0 eq_refl) in Hstep.
    inversion Hstep; subst; [|congruence]. unfold mid. by rewrite Hpc.
  - rewrite (IH2 Hf') in Hstep. apply no_worker_step in Hstep; [done|]. by intros [? _].
  - destruct (List.filter own uls) as [|? [|? [|]]] eqn:E; [done| |done..]. injection Hf' as <- <-.
    rewrite (IH1 eq_refl) in Hstep. inversion Hstep as [| | | | | | | | | |? t Ht Hw]; subst. cbn in Ht. by injection Ht as <-.
Qed.

(** The benchmark whose worker has returned before the loop. *)
Lemma ended_benchmark hist ms st s s1 s2 counters s' :
  initialized s = true -> spent hist ms (prog s) ->
  deliv (message_of (thread_id_ (p_logger (prog s))) c) -> Z.of_nat (max_iterations st) < 2 ^ 64 ->
  benchmark c st s s1 s2 counters s' -> p_worker_pc (prog s1) = WExited ->
  let n := max_iterations st in
  let taken := (n `min` room (p_logger (prog s)))%nat in
  counters = (Z.of_nat taken, Z.of_nat (n - taken)) /\
  sinks_ (backend_worker_ (p_logger (prog s1))) = deliver_all fmt_output memory clock sinks0 0 (hist ++ ms) /\
  sinks_ (backend_worker_ (p_logger (prog s2))) = sinks_ (backend_worker_ (p_logger (prog s1))) /\
  initialized s' = true /\
  spent (hist ++ ms) (replicate taken (message_of (thread_id_ (p_logger (prog s))) c)) (prog s').
Proof.
  intros Hi S Hd Hn (Hset & (p2 & Hlog & ->) & -> & (p3 & Hstop & ->)) Hpc n taken.
  destruct Hset as (s0 & p1 & Hinit & Hrun & ->). unfold setup_init in Hinit. rewrite Hi in Hinit. injection Hinit as <-.
  cbn [prog initialized] in *. pose proof (start_runs _ _ _ _ S Hrun) as Hfin.
  pose proof Hfin as (_ & _ & _ & _ & _ & (_ & Htid & _ & _ & _ & _ & Hcap) & _).
  destruct (ended_logged _ _ _ _ S Hfin Hpc) as (H0 & Hlv & Hst & Hsd & Hs & Hck & Hrd & Hf & Hf0).
  assert (room (p_logger p1) = room (p_logger (prog s))) as Hroom by (unfold room; by rewrite Htid, Hcap).
  rewrite <- Htid in Hd.
  pose proof (logs_run p1 n p2 Hlv Hst Hd Hn H0 Hlog) as [[Hp2 Hu2] Hset2 Hok2 He2 Hd2].
  pose proof Hset2 as (E1 & E2 & E3 & E4 & E5). rewrite Hroom, Htid in *. fold taken in Hok2, He2.
  rewrite (stop_runs p2 p3 Hp2 Hu2 ltac:(by rewrite E3) Hstop). unfold summarize_result.
  split_and!; [rewrite He2, Hd2; f_equal; lia | exact Hs | by rewrite E3 | done |].
  destruct Hok2 as [O1 O2 O3 O4].
  split; cbn; rewrite ?E3; try done.
  - by destruct Hrd.
  - by apply Forall_replicate.
  - by rewrite E1.
Qed.

(** *** The restarted worker ends *)

Lemma user_runs_snoc p acts p1 ul p2 :
  user_runs p acts p1 -> program_step p1 ul p2 ->
  user_runs p (acts ++ if own ul then [ul] else []) p2.
Proof.
  intros (uls & He & <-) Hs. exists (uls ++ [ul]). split; [by eapply pexec_snoc|].
  rewrite List.filter_app. cbn [List.filter]. by destruct (own ul).
Qed.

Lemma joined_lift p acc s' :
  sys_step fmt_output memory clock eval_order (joined p acc) LWorker s' ->
  exists p', program_step p UWorker p' /\ s' = joined p' acc.
Proof.
  intros H. inversion H as [? q' w' pc' Hw| | | | | |]; subst. cbn [joined s_queue s_worker s_pc s_client accepted] in *.
  eexists. split; [by eapply prog_worker | done].
Qed.

Lemma worker_ends j s s' : worker_run fmt_output memory clock eval_order j s s' ->
  forall p0 acts p acc, s = joined p acc -> user_runs p0 acts p -> exists p', user_runs p0 acts p' /\ s' = joined p' acc.
Proof.
  induction 1 as [s|j s1 s2 s3 Hstep Hrun IH]; intros p0 acts p acc -> Hp; [by exists p|].
  destruct (joined_lift _ _ _ Hstep) as (p1 & Hs1 & ->).
  pose proof (user_runs_snoc _ _ _ _ _ Hp Hs1) as Hp1. cbn in Hp1. rewrite app_nil_r in Hp1. by eapply IH.
Qed.

Lemma user_runs_app p acts p1 acts' p2 :
  user_runs p acts p1 -> user_runs p1 acts' p2 -> user_runs p (acts ++ acts') p2.
Proof.
  intros Hp (uls & He & <-). revert Hp. induction He as [p1|p1 uls p2 ul p3 He IH Hstep]; intros Hp.
  { by rewrite app_nil_r. }
  pose proof (user_runs_snoc _ _ _ _ _ (IH Hp) Hstep) as H. rewrite List.filter_app.
  cbn [List.filter]. by rewrite app_assoc.
Qed.

Lemma finishing_runs hist p0 p p' :
  finishing hist p0 p -> user_runs p [] p' -> finishing hist p0 p'.
Proof.
  intros Hfin (uls & He & Hf). revert Hf. induction He as [p|p uls p1 ul p2 He IH Hstep]; intros Hf; [done|].
  destruct (own_snoc _ _ _ Hf) as [[-> Hf']|[_ Hf']]; [|by destruct (List.filter own uls)].
  eapply finishing_step; [by apply IH | done].
Qed.

(** Left to itself it hands what was in the queue to the sinks, and returns. *)
Lemma restart_ends hist ms p0 p :
  spent hist ms p0 -> finishing (hist ++ ms) p0 p ->
  exists p', user_runs p [] p' /\ p_worker_pc p' = WExited /\ finishing (hist ++ ms) p0 p'.
Proof.
  intros S Hfin. pose proof Hfin as (k & dn & pend & I & _ & _ & _).
  destruct (waiting_returns fmt_output memory clock eval_order D F sinks0 Hclock Horder 0 k
    (steps_left (joined p (dn ++ pend)) (length pend)) dn pend _ I ltac:(done)) as (j & s' & _ & Hrun & Hret & _).
  assert (user_runs p [] p) as H0 by (exists []; split; [apply pexec_nil | done]).
  destruct (worker_ends _ _ _ Hrun _ _ _ _ eq_refl H0) as (p1 & Hp1 & ->).
  exists p1. split; [done|]. split; [|by eapply finishing_runs].
  unfold returnable in Hret. cbn in Hret. by destruct (p_worker_pc p1).
Qed.


(** ** The benchmark does come to its end *)

(** A benchmark that starts the worker again can be run to its end, its worker ending before the loop. *)
Lemma restarted_benchmark_runs hist ms st s :
  initialized s = true -> spent hist ms (prog s) ->
  deliv (message_of (thread_id_ (p_logger (prog s))) c) -> Z.of_nat (max_iterations st) < 2 ^ 64 ->
  exists s1 s2 counters s', benchmark c st s s1 s2 counters s' /\ p_worker_pc (prog s1) = WExited.
Proof.
  intros Hi S Hd Hn. destruct (sp_idle _ _ _ S) as [Hu Hpc]. destruct (sp_flags _ _ _ S) as [_ Hst].
  destruct (spent_start hist ms _ _ S (prog_start _ _ _ _ (prog s) Hu Hst Hpc)) as [Hfin Htop].
  set (q0 := {| p_logger := _; p_worker_pc := WTop; p_user := _ |}) in *.
  assert (user_runs (prog s) [UStart] q0) as Hq0.
  { exists [UStart]. split; [|done]. apply (pexec_snoc _ _ _ _ _ [] (prog s)); [apply pexec_nil|]. by apply prog_start. }
  destruct (restart_ends _ _ _ _ S Hfin) as (p1 & Hp1 & Hex & Hfin1).
  apply (user_runs_app _ _ _ _ _ Hq0) in Hp1. cbn [app] in Hp1. clear Hfin. rename Hfin1 into Hfin.
  pose proof Hfin as (_ & _ & _ & _ & _ & (_ & Htid & _) & _).
  destruct (ended_logged _ _ _ _ S Hfin Hex) as (H0 & Hlv & Hst1 & _). rewrite <- Htid in Hd.
  assert (forall n, Z.of_nat n < 2 ^ 64 -> exists p2, user_runs p1 (replicate n (ULog c)) p2) as Hlogs.
  { induction n as [|n IH]; intros Hlt; [exists p1, []; by split; [apply pexec_nil|]|].
    destruct (IH ltac:(lia)) as (p2 & Hp2).
    pose proof (logs_run p1 n p2 Hlv Hst1 Hd ltac:(lia) H0 Hp2) as [[Hpc2 Hu2] Hset Hok _ _].
    destruct Hset as (E1 & E2 & E3 & _).
    destruct (run_call_enabled _ (p_logger p2) c Hok Hc) as (l' & Hr & _).
    { split; [by rewrite Hlevel, E1, Hlv | by rewrite E3]. }
    rewrite bool_decide_eq_false_2 in Hr by (by rewrite Hlevel). cbn [andb] in Hr.
    exists {| p_logger := l'; p_worker_pc := p_worker_pc p2; p_user := LoggerConcurrent.Idle |}.
    rewrite replicate_S_end. apply (user_runs_snoc _ _ _ (ULog c) _ Hp2). by apply prog_log. }
  destruct (Hlogs _ Hn) as (p2 & Hp2).
  pose proof (logs_run p1 _ p2 Hlv Hst1 Hd Hn H0 Hp2) as [[Hpc2 Hu2] (_ & _ & E3 & _) _ _ _].
  set (mk := λ p, {| initialized := true; handlers := handlers s; prog := p |}).
  exists (mk p1), (mk p2), (summarize_result (p_logger p2)). eexists. split; [|done].
  split; [|split; [by exists p2|split; [done|]]].
  - exists s, p1. unfold setup_init. rewrite Hi. split; [done|]. split; [exact Hp1 | done].
  - eexists. split; [|reflexivity].
    apply (user_runs_snoc _ [UStop] {| p_logger := put_worker (p_logger p2) (store_shutdown (backend_worker_ (p_logger p2)));
      p_worker_pc := p_worker_pc p2; p_user := Stopping false |} UStopReturn); [|by apply prog_stop_return].
    apply (user_runs_snoc _ [] p2 UStop); [exists []; by split; [apply pexec_nil|]|].
    apply prog_stop; [done | cbn; by rewrite E3].
Qed.
End one_call.

(** What the first benchmark leaves. *)
Lemma first_benchmark_spent p0 uls p p' :
  fresh_program D F sinks0 p0 -> program_exec p0 uls p ->
  run_ok (Sk := Sk) fmt_output memory D F (thread_id_ (p_logger p0)) uls ->
  program_step p UStopReturn p' -> p_user p' = LoggerConcurrent.Idle -> level_ (p_logger p') = kInfo ->
  exists hist, spent hist [] (with_logger p' (reset_count (p_logger p'))).
Proof.
  intros H0 He Hok Hstep Hidle Hlv.
  destruct (program_invariant fmt_output memory clock eval_order D F sinks0 Hclock Horder p0 uls p H0 He Hok)
    as (ls & acc & dn & pend & S & I).
  pose proof (return_empties fmt_output memory clock eval_order D F sinks0 _ _ _ _ _ _ _ _ I (or_intror eq_refl) Hstep) as ->.
  exists dn. inversion Hstep as [| | | | | | | | | |? t Ht Hw]; subst. destruct t; [done|].
  destruct I as [_ Hq _ Hrd Hs Hck Hf Hl Hp _]. unfold system_of in *. cbn in *. rewrite Ht, Hw in *. cbn in *.
  destruct Hf as ((? & ?) & ? & Hf). destruct (starts ls); [by destruct Hl|]. destruct Hl as [_ Hsd].
  destruct (sim_sizes _ _ _ _ _ _ _ _ _ _ _ S) as [].
  assert (shutdown_required_ (backend_worker_ (p_logger p)) = true) by by apply Hsd.
  destruct Hrd. split; cbn; try done. lia.
Qed.
End bench.

(** ** Witness *)

Definition spent_program (q : SpscQueue) : program (Sk := Recorder) :=
  {| p_logger := put_worker (example_logger q) (set_flags example_worker true 0 0 kIdling);
     p_worker_pc := WNone; p_user := LoggerConcurrent.Idle |}.

Lemma spent_example : exists q, capacity_ q = 256 /\
  spent (CI := example_image) show_values tt (λ _, 5) 4096 2048 [[] : Recorder] [] [] (spent_program q).
Proof.
  destruct (reserve zero_alloc 256) as [q|] eqn:Hq; [|discriminate Hq].
  destruct (reserve_valid zero_alloc 256 q zero_alloc_sized) as [Hn|(Hv & Hc & Hcap & Hleast)];
    [lia | done | injection Hq as <-; discriminate |].
  exists q. split; [pose proof (Hleast 8 ltac:(lia) ltac:(lia)); lia|].
  split; try done; [by destruct example_ready | by apply queued_nil].
Qed.

