(* ===== verification/StringBench.v ===== *)
(** * The benchmarks of the string utilities

    src/src/core/base/string_util_bench.cc: what the functions of StringUtil.v give on the inputs of the
    benchmarks, however often the timed loops run. *)

From S2P Require Import Prelude StringUtil LogFile Benchmark.

(** ** The inputs *)

Definition a_quote : bytes := [ch 34].

Definition kShortString : bytes := bs "hello world".
Definition kMediumString : bytes := bs "The quick brown fox jumps over the lazy dog.".
Definition kLongString : bytes := concat (replicate 1000 (bs "A very long string for benchmarking purposes. ")).
Definition kStringWithEscape : bytes := bs "hello world\n\t\r\" ++ a_quote ++ bs "test\'".
Definition kUtf8String : bytes := bs "こんにちは世界🌍".
Definition kSplitString : bytes := bs "one,two,three,four,five".
Definition kBracketString : bytes := bs "(abc)[def]{ghi}".
Definition kFormatString : bytes := bs "Value: {}, Text: {}".
Definition kPrefixString : bytes := bs "prefix_test_string".

(** The memory at a [const char*] to one of them. *)
Definition c_str (s : bytes) : bytes := s ++ [Byte.x00].

(** [safe_strlen] of such a pointer. *)
Definition strlen (s : bytes) : option Z := Z.of_nat <$> safe_strlen (Some (c_str s)).

(** The default of the parameter [max_nest_size]. *)
Definition kMaxNest : nat := 32.

Section benchmarks.
(** The memory that [new char[n]] gives, which is not initialised; the positions that the random
    number generator picks; and the text of [write_format] for a format string and arguments. *)
Context (fresh : Z -> bytes) (picks : list nat) (format_text : bytes -> list bytes -> bytes).

Definition charset : bytes := bs "0123456789ABCDEFGHIJKLMNOPQRSTUVWXYZabcdefghijklmnopqrstuvwxyz".

Definition generate_random_string (length : nat) : bytes :=
  (λ pick, nth (pick mod 62) charset Byte.x00) <$> take length picks.

(** ** The benchmarks *)

Definition string_util_encode_escape_short (st : State) : option (report bytes) :=
  results ← timed_calls st (encode_escape kStringWithEscape);
  size ← strlen kStringWithEscape;
  Some (set_bytes_processed st results size).

Definition long_escape_string : bytes := kLongString ++ concat (replicate 1000 (bs "\n")).

Definition string_util_encode_escape_long (st : State) : option (report bytes) :=
  results ← timed_calls st (encode_escape long_escape_string);
  Some (set_bytes_processed st results (lenZ long_escape_string)).

Definition string_util_decode_escape_short (st : State) : option (report bytes) :=
  encoded ← encode_escape kStringWithEscape;
  results ← timed_calls st (decode_escape encoded);
  Some (set_bytes_processed st results (lenZ encoded)).

Definition string_util_decode_escape_long (st : State) : option (report bytes) :=
  encoded ← encode_escape long_escape_string;
  results ← timed_calls st (decode_escape encoded);
  Some (set_bytes_processed st results (lenZ encoded)).

(** The four benchmarks that change the case in a buffer from [new char[]], which [write_raw] fills
    without the terminating NUL. *)
Definition case_in_buffer (change : option bytes -> option (option bytes)) (st : State) : option (report bytes) :=
  '(buf, _) ← write_raw (fresh (lenZ kLongString + 1)) 0 (c_str kLongString) (lenZ kLongString);
  '(results, _) ← timed st (λ buf,
      changed ← change (Some buf);
      changed ← changed;
      '(buf, _) ← write_raw changed 0 (c_str kLongString) (lenZ kLongString);
      Some (changed, buf)) buf;
  Some (set_bytes_processed st results (lenZ kLongString)).

Definition string_util_to_lower_char_ptr := case_in_buffer to_lower_cstr.
Definition string_util_to_lower_char_ptr_w_len := case_in_buffer (λ buf, to_lower_buf buf (length kLongString)).
Definition string_util_to_upper_char_ptr := case_in_buffer to_upper_cstr.
Definition string_util_to_upper_char_ptr_w_len := case_in_buffer (λ buf, to_upper_buf buf (length kLongString)).

Definition string_util_to_lower_string_ptr (st : State) : option (report bytes) :=
  '(results, _) ← timed st (λ s, s ← to_lower_string_ptr (Some s); Some (s, kLongString)) kLongString;
  Some (set_bytes_processed st results (lenZ kLongString)).

Definition string_util_to_lower_const_string_ref (st : State) : option (report bytes) :=
  results ← timed_calls st (to_lower_string kLongString);
  Some (set_bytes_processed st results (lenZ kLongString)).

Definition string_util_to_upper_string_ptr (st : State) : option (report bytes) :=
  '(results, _) ← timed st (λ s, s ← to_upper_string_ptr (Some s); Some (s, kLongString)) kLongString;
  Some (set_bytes_processed st results (lenZ kLongString)).

Definition string_util_to_upper_const_string_ref (st : State) : option (report bytes) :=
  results ← timed_calls st (to_upper_string kLongString);
  Some (set_bytes_processed st results (lenZ kLongString)).

Definition string_util_utf8_char_length (st : State) : option (report (list nat)) :=
  let lead_byte_ascii := "A"%byte in
  let lead_byte_2byte := ch 0xC2 in
  let lead_byte_3byte := ch 0xE2 in
  let lead_byte_4byte := ch 0xF0 in
  results ← timed_calls st (Some [utf8_char_length lead_byte_ascii; utf8_char_length lead_byte_2byte;
    utf8_char_length lead_byte_3byte; utf8_char_length lead_byte_4byte]);
  Some (set_bytes_processed st results (1 + 2 + 3 + 4)).

Definition string_util_utf8_truncate_no_truncate (st : State) : option (report bytes) :=
  results ← timed_calls st (Some (utf8_truncate kUtf8String 20));
  size ← strlen kUtf8String;
  Some (set_bytes_processed st results size).

Definition string_util_utf8_truncate_truncate_mid (st : State) : option (report bytes) :=
  results ← timed_calls st (Some (utf8_truncate kUtf8String 5));
  size ← strlen kUtf8String;
  Some (set_bytes_processed st results size).

Definition long_utf8_string : bytes := kLongString ++ kUtf8String ++ kUtf8String.

Definition string_util_utf8_truncate_long_string (st : State) : option (report bytes) :=
  results ← timed_calls st (Some (utf8_truncate long_utf8_string (length long_utf8_string / 2)));
  Some (results, u64 (Z.of_nat (max_iterations st) * lenZ long_utf8_string) / 2).

Definition string_util_split_string_comma (st : State) : option (report (list bytes)) :=
  results ← timed_calls st (Some (split_string kSplitString (bs ",")));
  size ← strlen kSplitString;
  Some (set_bytes_processed st results size).

(** [pop_back] takes the last comma away. *)
Definition long_split_string : bytes :=
  let s := concat ((λ i, bs "item" ++ to_string i ++ bs ",") <$> seq 0 1000) in take (length s - 1) s.

Definition string_util_split_string_long (st : State) : option (report (list bytes)) :=
  results ← timed_calls st (Some (split_string long_split_string (bs ",")));
  Some (set_bytes_processed st results (lenZ long_split_string)).

Definition string_util_remove_bracket_simple (st : State) : option (report bytes) :=
  results ← timed_calls st (remove_bracket kBracketString kMaxNest);
  size ← strlen kBracketString;
  Some (set_bytes_processed st results size).

Definition string_util_remove_bracket_no_bracket (st : State) : option (report bytes) :=
  results ← timed_calls st (remove_bracket kShortString kMaxNest);
  size ← strlen kShortString;
  Some (set_bytes_processed st results size).

Definition string_util_remove_bracket_no_bracket_long (st : State) : option (report bytes) :=
  results ← timed_calls st (remove_bracket kLongString kMaxNest);
  Some (set_bytes_processed st results (lenZ kLongString)).

Definition long_bracket_string : bytes := kLongString ++ bs "(extra){brackets}[here]".

Definition string_util_remove_bracket_long (st : State) : option (report bytes) :=
  results ← timed_calls st (remove_bracket long_bracket_string kMaxNest);
  Some (set_bytes_processed st results (lenZ long_bracket_string)).

Definition string_util_safe_strlen (st : State) : option (report nat) :=
  results ← timed_calls st (safe_strlen (Some (c_str kLongString)));
  size ← strlen kLongString;
  Some (set_bytes_processed st results size).

Definition string_util_safe_strlen_short (st : State) : option (report nat) :=
  results ← timed_calls st (safe_strlen (Some (c_str kShortString)));
  size ← strlen kShortString;
  Some (set_bytes_processed st results size).

Definition zeros (n : nat) : bytes := replicate n Byte.x00.

Definition string_util_padding (st : State) : option (report Z) :=
  '(results, _) ← timed st (λ buffer,
      '(buffer, cursor) ← padding buffer 0 1024 50 8; Some (cursor, buffer)) (zeros 1024);
  Some (set_bytes_processed st results 1024).

Definition string_util_write_raw (st : State) : option (report Z) :=
  source_len ← strlen kMediumString;
  '(results, _) ← timed st (λ buffer,
      '(buffer, n) ← write_raw buffer 0 (c_str kMediumString) source_len; Some (n, buffer)) (zeros 1024);
  Some (set_bytes_processed st results 1024).

Definition string_util_write_raw_long (st : State) : option (report Z) :=
  let buffer_size := (length kLongString + 100)%nat in
  '(results, _) ← timed st (λ buffer,
      '(buffer, n) ← write_raw buffer 0 (c_str kLongString) (lenZ kLongString); Some (n, buffer)) (zeros buffer_size);
  Some (set_bytes_processed st results (Z.of_nat buffer_size)).

Definition string_util_write_format_int_string (st : State) : option (report Z) :=
  '(results, _) ← timed st (λ buffer,
      '(buffer, _, n) ← write_format buffer 0 256 (format_text kFormatString [le_split 4 123; bs "benchmark"]);
      Some (n, buffer)) (zeros 256);
  Some (set_bytes_processed st results 256).

Definition string_util_write_format_long_output (st : State) : option (report Z) :=
  let long_text_arg := generate_random_string 500 in
  '(results, _) ← timed st (λ buffer,
      '(buffer, _, n) ← write_format buffer 0 1024 (format_text (bs "Long text: {}") [long_text_arg]);
      Some (n, buffer)) (zeros 1024);
  Some (set_bytes_processed st results 1024).

Definition string_util_starts_with_match (st : State) : option (report bool) :=
  results ← timed_calls st (starts_with kPrefixString (bs "prefix") 0);
  size ← strlen kPrefixString;
  Some (set_bytes_processed st results size).

Definition string_util_starts_with_no_match (st : State) : option (report bool) :=
  results ← timed_calls st (starts_with kPrefixString (bs "nomatch") 0);
  size ← strlen kPrefixString;
  Some (set_bytes_processed st results size).

Definition string_util_starts_with_long_string_match (st : State) : option (report bool) :=
  results ← timed_calls st (starts_with kLongString (take 100 kLongString) 0);
  Some (set_bytes_processed st results (lenZ kLongString)).

Definition string_util_starts_with_long_string_no_match (st : State) : option (report bool) :=
  results ← timed_calls st (starts_with kLongString (take 99 kLongString ++ bs "X") 0);
  Some (set_bytes_processed st results (lenZ kLongString)).
End benchmarks.

(** ** What the inputs are *)

Lemma Forall_checked {A} (p : A -> bool) (l : list A) : forallb p l = true -> Forall p l.
Proof.
  rewrite forallb_forall. intros H. apply Forall_forall. intros x Hx. by apply Is_true_true, H, list_elem_of_In.
Qed.

(** Text that no function but those of the case looks at: no control character, backslash, bracket,
    comma or NUL, and every byte below 128. *)
Definition plain (c : Init.Byte.byte) : bool :=
  (32 <=? byte.unsigned c) && (byte.unsigned c <? 127) && (bracket_map c =? 0) &&
  negb (bool_decide (c = c_backslash)) && negb (bool_decide (c = ","%byte)).

Lemma kLongString_plain : Forall plain kLongString.
Proof. apply Forall_checked. vm_compute. reflexivity. Qed.

Lemma kLongString_size : lenZ kLongString = 46000.
Proof. vm_compute. reflexivity. Qed.

Lemma kLongString_nonempty : kLongString <> [].
Proof. intros E. pose proof kLongString_size as H. by rewrite E in H. Qed.

Lemma plain_below c : plain c -> byte.unsigned c < 128.
Proof. unfold plain. rewrite Is_true_true, !andb_true_iff. intros H. lia. Qed.

Lemma plain_no_bracket c : plain c -> bracket_map c = 0.
Proof. unfold plain. rewrite Is_true_true, !andb_true_iff. intros H. lia. Qed.

Lemma plain_not_nul c : plain c -> c <> Byte.x00.
Proof. by intros H ->. Qed.

Lemma not_nul s : Forall plain s -> Byte.x00 ∉ s.
Proof. intros H Hin. rewrite Forall_forall in H. by apply (plain_not_nul _ (H _ Hin)). Qed.

Lemma escape_plain s : Forall plain s -> escape s = s.
Proof.
  intros H. unfold escape. induction H as [|c s Hc _ IH]; [done|]. cbn [flat_map]. rewrite IH.
  unfold esc. repeat case_decide; subst; done.
Qed.

Lemma escape_app s t : escape (s ++ t) = escape s ++ escape t.
Proof. apply flat_map_app. Qed.

Lemma balanced_plain_app s t out : Forall plain s -> balanced t out -> balanced (s ++ t) (s ++ out).
Proof. induction 1; intros Hb; simpl; [done|]. constructor; auto using plain_no_bracket. Qed.

Lemma c_strlen_no_nul s : Byte.x00 ∉ s -> c_strlen (c_str s) = Some (length s).
Proof.
  unfold c_str. induction s as [|c s IH]; intros H; [done|].
  apply not_elem_of_cons in H as [Hc Hs]. cbn. rewrite decide_False by congruence. by rewrite IH.
Qed.

(** Text of one byte for every character is cut at the number of characters. *)
Lemma utf8_loop_single s max : forall fuel i, Forall (λ c, byte.unsigned c < 128) (take max s) ->
  (i <= max)%nat -> (max <= i + fuel)%nat -> (max <= length s)%nat -> utf8_loop s max i i fuel = max.
Proof.
  induction fuel as [|fuel IH]; intros i Hs Hi Hf Hl; simpl; [lia|].
  destruct (decide (i < max)%nat) as [Hlt|Hge].
  - destruct (lookup_lt_is_Some_2 s i ltac:(lia)) as [c Hc]. rewrite Hc.
    assert (utf8_char_length c = 1%nat) as ->.
    { rewrite Forall_lookup in Hs. specialize (Hs i c). rewrite lookup_take_lt in Hs by done.
      unfold utf8_char_length. by rewrite (proj2 (Z.ltb_lt _ _) (Hs Hc)). }
    rewrite decide_False by lia. replace (i + 1)%nat with (S i) by lia. apply IH; (done || lia).
  - replace i with max by lia. repeat case_match; (done || lia).
Qed.

Lemma utf8_truncate_single s max : Forall (λ c, byte.unsigned c < 128) (take max s) ->
  (max <= length s)%nat -> utf8_truncate s max = take max s.
Proof.
  intros Hs Hl. unfold utf8_truncate. repeat case_decide; subst; [done|by destruct max|].
  by rewrite utf8_loop_single by (done || lia).
Qed.

(** [split_string] cuts what [join] put together, when no piece has the delimiter in it and the
    last one is not empty. *)
Lemma find_delimiter c t rest : c ∉ t -> find_from [c] (t ++ c :: rest) = Some (length t).
Proof.
  induction t as [|x t IH]; intros Hc; cbn.
  - by rewrite bool_decide_eq_true_2.
  - apply not_elem_of_cons in Hc as [Hx Ht]. rewrite bool_decide_eq_false_2 by done. cbn. by rewrite IH.
Qed.

Lemma find_no_delimiter c t : c ∉ t -> find_from [c] t = None.
Proof.
  induction t as [|x t IH]; intros Hc; cbn; [done|].
  apply not_elem_of_cons in Hc as [Hx Ht]. rewrite bool_decide_eq_false_2 by done. cbn. by rewrite IH.
Qed.

Lemma join_nonempty c t u ts : join [c] (t :: u :: ts) = t ++ c :: join [c] (u :: ts).
Proof. done. Qed.

Lemma split_loop_join c s ts : Forall (λ t, c ∉ t) ts -> (exists t, last ts = Some t /\ t <> []) ->
  forall pos result fuel, drop pos s = join [c] ts -> (length s <= pos + fuel)%nat ->
  split_loop s [c] pos result fuel = result ++ ts.
Proof.
  intros Hts. induction Hts as [|t ts Ht Hts IH]; intros (t' & Hlast & Hne) pos result fuel Hs Hf; [done|].
  assert (pos < length s)%nat as Hlt.
  { apply Nat.nle_gt. intros Hle. rewrite drop_ge in Hs by lia. destruct ts as [|u ts].
    - simpl in *. simplify_eq. - rewrite join_nonempty in Hs. by destruct t. }
  destruct fuel as [|fuel]; [lia|]. cbn [split_loop]. rewrite decide_True by done. unfold str_find. rewrite Hs.
  destruct ts as [|u ts].
  - cbn [join]. by rewrite find_no_delimiter.
  - rewrite join_nonempty, find_delimiter by done. cbn [fmap option_fmap option_map].
    replace (pos + length t - pos)%nat with (length t) by lia.
    rewrite take_app_length, (IH ltac:(eauto)).
    + by rewrite <- app_assoc.
    + rewrite <- Nat.add_assoc, <- drop_drop, Hs, join_nonempty, cons_middle, app_assoc.
      apply drop_app_length'. by rewrite length_app.
    + cbn [length]. lia.
Qed.

Lemma split_string_inverts_join c ts : Forall (λ t, c ∉ t) ts -> (exists t, last ts = Some t /\ t <> []) ->
  split_string (join [c] ts) [c] = ts.
Proof.
  intros Hts Hl. unfold split_string. cbn. by rewrite (split_loop_join c (join [c] ts) ts) by (done || lia).
Qed.

(** Each piece with a comma after it, and the last comma taken away. *)
Lemma concat_then_pop c ts : ts <> [] -> concat ((λ t, t ++ [c]) <$> ts) = join [c] ts ++ [c].
Proof.
  induction ts as [|t [|u ts] IH]; intros H; [done| |].
  - cbn. by rewrite app_nil_r.
  - rewrite join_nonempty. rewrite fmap_cons, concat_cons, IH by done. by rewrite <- !app_assoc.
Qed.

Definition items : list bytes := (λ i, bs "item" ++ to_string i) <$> seq 0 1000.

Lemma split_long_split_string : split_string long_split_string (bs ",") = items.
Proof.
  assert (long_split_string = join (bs ",") items) as ->.
  { unfold long_split_string.
    replace ((λ i, bs "item" ++ to_string i ++ bs ",") <$> seq 0 1000)
      with ((λ t, t ++ [","%byte]) <$> items).
    - rewrite concat_then_pop by done. rewrite length_app. cbn [length].
      rewrite Nat.add_sub. apply take_app_length.
    - unfold items. rewrite <- list_fmap_compose. apply list_fmap_ext. intros _ i _. unfold compose.
      by rewrite <- app_assoc. }
  apply split_string_inverts_join.
  - unfold items. apply Forall_fmap, Forall_forall. intros i _ Hin. apply elem_of_app in Hin as [Hin|Hin].
    + revert Hin. by apply (bool_decide_unpack _); vm_compute.
    + revert Hin. apply to_string_digits. by apply (bool_decide_unpack _); vm_compute.
  - exists (bs "item" ++ to_string 999). split; [|done]. unfold items. by rewrite fmap_last.
Qed.

(** ** What the benchmarks measure *)

Lemma strlen_no_nul s : Byte.x00 ∉ s -> strlen s = Some (lenZ s).
Proof. intros H. unfold strlen, safe_strlen. by rewrite c_strlen_no_nul. Qed.

Lemma gives_calls_strlen {A : Type} st (call : option A) (a : A) (s : bytes) :
  call = Some a -> Byte.x00 ∉ s ->
  gives st (results ← timed_calls st call; size ← strlen s; Some (set_bytes_processed st results size)) a (lenZ s).
Proof. intros -> H. by rewrite timed_calls_spec, strlen_no_nul. Qed.

Lemma write_raw_fits n s mem : Z.of_nat n = lenZ s -> (n <= length mem)%nat ->
  exists mem', write_raw mem 0 (c_str s) (Z.of_nat n) = Some (mem', Z.of_nat n) /\ length mem' = length mem.
Proof.
  intros Hn Hl. unfold write_raw. case_match; [exists mem; split; [do 2 f_equal; lia|done]|].
  unfold c_str. rewrite Hn, mem_load_front. cbn. rewrite mem_store_spec by (unfold lenZ in *; lia). cbn.
  eexists. split; [done|]. apply length_inserts.
Qed.

Lemma write_format_fits n text mem : (0 < n)%nat -> length mem = n ->
  exists mem' cur, write_format mem 0 (Z.of_nat n) text = Some (mem', cur, Z.min (Z.of_nat n - 1) (lenZ text)) /\
    length mem' = n.
Proof.
  intros Hn Hl. unfold write_format. rewrite Z.sub_0_r, (proj2 (Z.leb_gt _ _)) by lia. cbv zeta.
  set (out := take (Z.to_nat (Z.of_nat n - 1)) text).
  assert (lenZ out = Z.min (Z.of_nat n - 1) (lenZ text)) as Ho.
  { unfold out, lenZ. rewrite length_take. lia. }
  rewrite mem_store_spec by (unfold lenZ in *; lia). cbn [mbind option_bind].
  rewrite mem_store_spec; [|unfold lenZ; lia|].
  - eexists _, _. split; [by rewrite <- Ho|]. by rewrite !length_inserts.
  - unfold lenZ in *. rewrite length_inserts. cbn. lia.
Qed.

Lemma padding_long_enough mem end_ current align_len : align_len <= current -> 0 <= end_ < 2 ^ 64 ->
  padding mem 0 end_ current align_len = Some (mem, 0).
Proof.
  intros H He. unfold padding. rewrite (proj2 (Z.ltb_ge _ _)) by lia.
  rewrite Z.min_l by apply u64_range. change (replicate (Z.to_nat 0) " "%byte) with (@nil Init.Byte.byte).
  pose proof (lenZ_nonneg mem). by rewrite mem_store_spec.
Qed.

Lemma encode_gives s e : lenZ s < 2 ^ 63 -> escape s = e -> encode_escape s = Some e.
Proof. intros Hs <-. by apply encode_escape_spec. Qed.

Lemma decode_gives s : decode_escape (escape s) = Some s.
Proof. by rewrite (proj1 (decode_escape_spec _)), unescape_escape. Qed.

Lemma starts_with_prefix s n : (n <= length s)%nat -> starts_with s (take n s) 0 = Some true.
Proof.
  intros H. unfold starts_with. rewrite length_take, Nat.min_l, !decide_True by lia.
  by rewrite drop_0, bool_decide_eq_true_2.
Qed.

Lemma starts_with_other s p : (length p <= length s)%nat -> take (length p) s <> p -> starts_with s p 0 = Some false.
Proof.
  intros H Hne. unfold starts_with. rewrite !decide_True by lia. by rewrite drop_0, bool_decide_eq_false_2.
Qed.

(** The sizes and the text of the longer inputs, found once. *)
Lemma long_sizes :
  lenZ long_escape_string = 48000 /\ lenZ (escape long_escape_string) = 49000 /\
  lenZ long_split_string = 7889 /\ lenZ long_bracket_string = 46023 /\ lenZ long_utf8_string = 46050.
Proof. by vm_compute. Qed.

Lemma escape_long : escape long_escape_string = kLongString ++ concat (replicate 1000 (bs "\\n")).
Proof.
  unfold long_escape_string. rewrite escape_app, (escape_plain _ kLongString_plain). f_equal.
Qed.


Lemma truncate_long :
  utf8_truncate long_utf8_string (length long_utf8_string / 2) = take (Z.to_nat 23025) kLongString.
Proof.
  pose proof kLongString_size as Hn. pose proof long_sizes as (_ & _ & _ & _ & S5).
  assert (length long_utf8_string / 2 = Z.to_nat 23025)%nat as ->.
  { unfold lenZ in S5. apply Nat2Z.inj. rewrite Nat2Z.inj_div, S5, Z2Nat.id by lia. done. }
  set (n := Z.to_nat 23025). assert (n <= length kLongString)%nat as Hl by (unfold lenZ, n in *; lia).
  assert (take n long_utf8_string = take n kLongString) as Ht.
  { unfold long_utf8_string. by rewrite take_app_le. }
  rewrite utf8_truncate_single; [done| |unfold lenZ, n in *; lia].
  rewrite Ht. apply Forall_take. eapply Forall_impl; [apply kLongString_plain|apply plain_below].
Qed.

Lemma balanced_pair o s c t out : 0 < bracket_map o -> bracket_map c = - bracket_map o -> Forall plain s ->
  balanced t out -> balanced (o :: s ++ c :: t) out.
Proof.
  intros Ho Hc Hs Ht. apply (balanced_group o s s c t out Ho Hc); [|done].
  rewrite <- (app_nil_r s) at 1 2. apply balanced_plain_app; [done|constructor].
Qed.

Lemma brackets_kept : remove_bracket kLongString kMaxNest = Some kLongString.
Proof.
  apply remove_bracket_balanced. rewrite <- (app_nil_r kLongString) at 1 2.
  apply balanced_plain_app; [apply kLongString_plain|constructor].
Qed.

Lemma brackets_removed : remove_bracket long_bracket_string kMaxNest = Some kLongString.
Proof.
  apply remove_bracket_balanced. rewrite <- (app_nil_r kLongString).
  apply balanced_plain_app; [apply kLongString_plain|].
  apply (balanced_pair "("%byte (bs "extra") ")"%byte (bs "{brackets}[here]")); [done..|by apply Forall_checked|].
  apply (balanced_pair "{"%byte (bs "brackets") "}"%byte (bs "[here]")); [done..|by apply Forall_checked|].
  apply (balanced_pair "["%byte (bs "here") "]"%byte []); [done..|by apply Forall_checked|]. constructor.
Qed.

Lemma not_a_prefix : starts_with kLongString (take 99 kLongString ++ bs "X") 0 = Some false.
Proof.
  apply starts_with_other.
  - rewrite length_app, length_take. pose proof kLongString_size. unfold lenZ in *. cbn [length bs]. change (length (bs "X")) with 1%nat. lia.
  - by apply (bool_decide_unpack _); vm_compute.
Qed.

#[local] Opaque kLongString long_escape_string long_split_string long_bracket_string long_utf8_string.

(** What the benchmarks of the string utilities measure, whatever number of iterations: each is
    defined and its timed call gives the same every time. Escaped text has its backslashes doubled
    and decodes to itself; the case is changed in a copy and in a string in place; text is cut at the number of characters, which is more than the eight of
    [kUtf8String] in one benchmark; the pieces that were joined come back; what is outside of the
    brackets is left; [write_format] stops a byte before the end of its buffer. The benchmark of
    [padding] starts from a length above the one it asks for and pads nothing. The four benchmarks in
    a buffer of [new char[]] are the subject of [char_ptr_benchmarks_read_uninitialised]. *)
Theorem string_benchmarks_measure st picks format_text :
  (gives st (string_util_encode_escape_short st) (bs "hello world\\n\\t\\r\\" ++ a_quote ++ bs "test\\'") 25 /\
   gives st (string_util_encode_escape_long st) (kLongString ++ concat (replicate 1000 (bs "\\n"))) 48000 /\
   gives st (string_util_decode_escape_short st) kStringWithEscape 30 /\
   gives st (string_util_decode_escape_long st) (kLongString ++ concat (replicate 1000 (bs "\n"))) 49000) /\
  (gives st (string_util_to_lower_string_ptr st) (to_lower_char <$> kLongString) 46000 /\
   gives st (string_util_to_lower_const_string_ref st) (to_lower_char <$> kLongString) 46000 /\
   gives st (string_util_to_upper_string_ptr st) (to_upper_char <$> kLongString) 46000 /\
   gives st (string_util_to_upper_const_string_ref st) (to_upper_char <$> kLongString) 46000) /\
  (gives st (string_util_utf8_char_length st) [1; 2; 3; 4]%nat 10 /\
   gives st (string_util_utf8_truncate_no_truncate st) kUtf8String 25 /\
   gives st (string_util_utf8_truncate_truncate_mid st) (bs "こんにちは") 25 /\
   string_util_utf8_truncate_long_string st =
     Some (replicate (max_iterations st) (take (Z.to_nat 23025) kLongString), u64 (Z.of_nat (max_iterations st) * 46050) / 2)) /\
  (gives st (string_util_split_string_comma st) [bs "one"; bs "two"; bs "three"; bs "four"; bs "five"] 23 /\
   gives st (string_util_split_string_long st) items 7889) /\
  (gives st (string_util_remove_bracket_simple st) [] 15 /\
   gives st (string_util_remove_bracket_no_bracket st) kShortString 11 /\
   gives st (string_util_remove_bracket_no_bracket_long st) kLongString 46000 /\
   gives st (string_util_remove_bracket_long st) kLongString 46023) /\
  (gives st (string_util_safe_strlen st) (length kLongString) 46000 /\
   gives st (string_util_safe_strlen_short st) 11%nat 11 /\
   gives st (string_util_padding st) 0 1024 /\
   gives st (string_util_write_raw st) 44 1024 /\
   gives st (string_util_write_raw_long st) 46000 46100) /\
  (gives st (string_util_write_format_int_string format_text st)
     (Z.min 255 (lenZ (format_text kFormatString [le_split 4 123; bs "benchmark"]))) 256 /\
   gives st (string_util_write_format_long_output picks format_text st)
     (Z.min 1023 (lenZ (format_text (bs "Long text: {}") [generate_random_string picks 500]))) 1024) /\
  (gives st (string_util_starts_with_match st) true 18 /\
   gives st (string_util_starts_with_no_match st) false 18 /\
   gives st (string_util_starts_with_long_string_match st) true 46000 /\
   gives st (string_util_starts_with_long_string_no_match st) false 46000).
Proof.
  pose proof kLongString_plain as Hp. pose proof kLongString_size as Hn.
  pose proof long_sizes as (S1 & S2 & S3 & S4 & S5).
  split_and!.
  - apply (gives_calls_strlen _ _ _ kStringWithEscape); [by vm_compute|by apply (bool_decide_unpack _); vm_compute].
  - rewrite <- S1, <- escape_long. apply gives_calls, encode_gives; [by rewrite S1|done].
  - unfold string_util_decode_escape_short. rewrite encode_escape_spec by done.
    apply (gives_calls _ _ _ 30). apply decode_gives.
  - unfold string_util_decode_escape_long. rewrite encode_escape_spec by (by rewrite S1).
    cbn [mbind option_bind]. rewrite S2. apply gives_calls, decode_gives.
  - rewrite <- Hn. apply (gives_timed (eq kLongString)); [|done]. intros s <-. eauto.
  - rewrite <- Hn. apply gives_calls, map_into_all.
  - rewrite <- Hn. apply (gives_timed (eq kLongString)); [|done]. intros s <-. eauto.
  - rewrite <- Hn. apply gives_calls, map_into_all.
  - by apply gives_calls.
  - apply (gives_calls_strlen _ _ _ kUtf8String); [by vm_compute|by apply (bool_decide_unpack _); vm_compute].
  - apply (gives_calls_strlen _ _ _ kUtf8String); [by vm_compute|by apply (bool_decide_unpack _); vm_compute].
  - unfold string_util_utf8_truncate_long_string. rewrite timed_calls_spec, S5.
    rewrite truncate_long. done.
  - apply (gives_calls_strlen _ _ _ kSplitString); [by vm_compute|by apply (bool_decide_unpack _); vm_compute].
  - rewrite <- S3, <- split_long_split_string. by apply gives_calls.
  - apply (gives_calls_strlen _ _ _ kBracketString); [by vm_compute|by apply (bool_decide_unpack _); vm_compute].
  - apply (gives_calls_strlen _ _ _ kShortString); [by vm_compute|by apply (bool_decide_unpack _); vm_compute].
  - rewrite <- Hn. apply gives_calls, brackets_kept.
  - rewrite <- S4. apply gives_calls, brackets_removed.
  - unfold string_util_safe_strlen, safe_strlen. rewrite c_strlen_no_nul by (by apply not_nul).
    rewrite timed_calls_spec, strlen_no_nul by (by apply not_nul). by rewrite Hn.
  - apply (gives_calls_strlen _ _ _ kShortString); [by vm_compute|by apply (bool_decide_unpack _); vm_compute].
  - apply (gives_timed (λ s, True)); [|done]. intros s _. rewrite padding_long_enough by lia. eauto.
  - unfold string_util_write_raw. rewrite strlen_no_nul by (by apply (bool_decide_unpack _); vm_compute). cbn [mbind option_bind].
    apply (gives_timed (λ s, length s = 1024%nat)); [|done]. intros s Hs.
    destruct (write_raw_fits 44 kMediumString s) as (s' & E & Hs'); [done|lia|].
    change (lenZ kMediumString) with (Z.of_nat 44). rewrite E. eauto with congruence.
  - unfold string_util_write_raw_long. replace 46100 with (Z.of_nat (length kLongString + 100)) by (unfold lenZ in Hn; lia).
    apply (gives_timed (λ s, length s = (length kLongString + 100)%nat)); [|apply length_replicate]. intros s Hs.
    destruct (write_raw_fits (length kLongString) kLongString s) as (s' & E & Hs'); [done|lia|].
    fold (lenZ kLongString) in E. rewrite E, Hn. eauto with congruence.
  - unfold string_util_write_format_int_string. apply (gives_timed (λ s, length s = 256%nat)); [|done]. intros s Hs.
    destruct (write_format_fits 256 (format_text kFormatString [le_split 4 123; bs "benchmark"]) s)
      as (s' & cur & E & Hs'); [lia|done|]. change 256 with (Z.of_nat 256). rewrite E. eauto.
  - unfold string_util_write_format_long_output. apply (gives_timed (λ s, length s = 1024%nat)); [|done]. intros s Hs.
    destruct (write_format_fits 1024 (format_text (bs "Long text: {}") [generate_random_string picks 500]) s)
      as (s' & cur & E & Hs'); [lia|done|]. change 1024 with (Z.of_nat 1024). rewrite E. eauto.
  - apply (gives_calls_strlen _ _ _ kPrefixString); [by vm_compute|by apply (bool_decide_unpack _); vm_compute].
  - apply (gives_calls_strlen _ _ _ kPrefixString); [by vm_compute|by apply (bool_decide_unpack _); vm_compute].
  - rewrite <- Hn. apply gives_calls, starts_with_prefix. unfold lenZ in Hn. lia.
  - rewrite <- Hn. apply gives_calls, not_a_prefix.
Qed.

(** ** The buffers of [new char[]] *)

(** [write_raw] of a text into memory of one byte more. *)
Lemma write_raw_over pre b s : length pre = length s -> s <> [] ->
  write_raw (pre ++ [b]) 0 (c_str s) (lenZ s) = Some (s ++ [b], lenZ s).
Proof.
  intros Hl Hs. unfold write_raw. rewrite (proj2 (Z.eqb_neq _ _)).
  - unfold c_str. rewrite mem_load_front. cbn [mbind option_bind]. by rewrite (mem_store_mid [] pre [b] s) by done.
  - intros H%lenZ_zero_inv. done.
Qed.

(** Without a NUL the loop over a C string leaves the object. *)
Lemma map_cstr_runs_out f mem : forall fuel i, Byte.x00 ∉ drop i mem -> map_cstr f mem i fuel = None.
Proof.
  intros fuel. revert mem. induction fuel as [|fuel IH]; intros mem i H; [done|]. cbn.
  destruct (mem !! i) as [c|] eqn:Hc; [|done]. cbn. rewrite (drop_S _ _ _ Hc), not_elem_of_cons in H.
  destruct H as [Hn H]. rewrite decide_False by congruence. apply IH. by rewrite drop_insert_lt by lia.
Qed.

Lemma map_cstr_terminated f s : f Byte.x00 = Byte.x00 -> Byte.x00 ∉ s ->
  map_cstr f (s ++ [Byte.x00]) 0 (length (s ++ [Byte.x00])) = Some ((f <$> s) ++ [Byte.x00]).
Proof. intros Hf Hs. apply (map_cstr_spec f s [] Hf Hs []). rewrite length_app. cbn. lia. Qed.

Section buffers.
Context (fresh : Z -> bytes) (f : Init.Byte.byte -> Init.Byte.byte) (b : Init.Byte.byte) (pre : bytes) (st : State).
Hypothesis fresh_buffer : fresh (lenZ kLongString + 1) = pre ++ [b].
Hypothesis fresh_length : length pre = length kLongString.

(** One that gives the changed text and the byte after it. *)
Lemma case_in_buffer_defined change :
  change (Some (kLongString ++ [b])) = Some (Some ((f <$> kLongString) ++ [b])) ->
  gives st (case_in_buffer fresh change st) ((f <$> kLongString) ++ [b]) 46000.
Proof.
  intros Hc. unfold case_in_buffer. rewrite fresh_buffer, write_raw_over by (done || apply kLongString_nonempty). cbn [mbind option_bind].
  rewrite <- kLongString_size. apply (gives_timed (eq (kLongString ++ [b]))); [|done]. intros s <-.
  rewrite Hc. cbn [mbind option_bind]. rewrite write_raw_over by (apply kLongString_nonempty || by rewrite length_fmap). eauto.
Qed.

Lemma case_in_buffer_undefined change :
  (0 < max_iterations st)%nat -> change (Some (kLongString ++ [b])) = None -> case_in_buffer fresh change st = None.
Proof.
  intros Hn Hc. unfold case_in_buffer. rewrite fresh_buffer, write_raw_over by (done || apply kLongString_nonempty). cbn [mbind option_bind].
  unfold timed. destruct (max_iterations st); [lia|]. cbn [times]. by rewrite Hc.
Qed.
End buffers.

(** The four benchmarks that change the case in a buffer copy the text without its NUL, so the
    last byte of [new char[]] is never written, and what those without a length do is up to it: where
    it happens to be zero every iteration gives the changed text and that byte; where it is anything
    else they leave the buffer at the first iteration. The two that pass the length are defined either way. *)
Theorem char_ptr_benchmarks_read_uninitialised fresh st b :
  lenZ (fresh (lenZ kLongString + 1)) = lenZ kLongString + 1 ->
  last (fresh (lenZ kLongString + 1)) = Some b ->
  (gives st (string_util_to_lower_char_ptr_w_len fresh st) ((to_lower_char <$> kLongString) ++ [b]) 46000 /\
   gives st (string_util_to_upper_char_ptr_w_len fresh st) ((to_upper_char <$> kLongString) ++ [b]) 46000) /\
  (b = Byte.x00 ->
   gives st (string_util_to_lower_char_ptr fresh st) ((to_lower_char <$> kLongString) ++ [b]) 46000 /\
   gives st (string_util_to_upper_char_ptr fresh st) ((to_upper_char <$> kLongString) ++ [b]) 46000) /\
  (b <> Byte.x00 -> (0 < max_iterations st)%nat ->
   string_util_to_lower_char_ptr fresh st = None /\ string_util_to_upper_char_ptr fresh st = None).
Proof.
  intros Hl [pre Hb]%last_Some. pose proof (not_nul _ kLongString_plain) as Hn.
  assert (length pre = length kLongString) as Hpre.
  { rewrite Hb, lenZ_app in Hl. unfold lenZ in Hl. cbn [length] in Hl. lia. }
  assert (forall f, map_range f (kLongString ++ [b]) 0 (length kLongString) = Some ((f <$> kLongString) ++ [b])) as Hrange.
  { intros f. rewrite map_range_spec by (rewrite length_app; lia). cbn [take].
    by rewrite drop_0, take_app_length, Nat.add_0_l, drop_app_length. }
  unfold string_util_to_lower_char_ptr_w_len, string_util_to_upper_char_ptr_w_len,
    string_util_to_lower_char_ptr, string_util_to_upper_char_ptr.
  split_and!.
  - apply (case_in_buffer_defined fresh _ b pre st Hb Hpre). unfold to_lower_buf. by rewrite Hrange.
  - apply (case_in_buffer_defined fresh _ b pre st Hb Hpre). unfold to_upper_buf. by rewrite Hrange.
  - intros ->. split; apply (case_in_buffer_defined fresh _ _ pre st Hb Hpre); unfold to_lower_cstr, to_upper_cstr.
    + by rewrite (map_cstr_terminated _ _ to_lower_char_zero Hn).
    + by rewrite (map_cstr_terminated _ _ to_upper_char_zero Hn).
  - intros Hb0 Hit. assert (Byte.x00 ∉ drop 0 (kLongString ++ [b])) as Hnone.
    { rewrite drop_0, not_elem_of_app, list_elem_of_singleton. split; [done|]. by intros <-. }
    split; apply (case_in_buffer_undefined fresh b pre st Hb Hpre _ Hit);
      unfold to_lower_cstr, to_upper_cstr; rewrite map_cstr_runs_out by exact Hnone; reflexivity.
Qed.

(** Memory that happens to be full of one byte. *)
Definition full_of (c : Init.Byte.byte) (n : Z) : bytes := replicate (Z.to_nat n) c.

Lemma full_of_length c n : 0 <= n -> lenZ (full_of c n) = n.
Proof. intros H. unfold lenZ, full_of. rewrite length_replicate. lia. Qed.

Lemma full_of_last c n : 0 < n -> last (full_of c n) = Some c.
Proof.
  intros H. unfold full_of. destruct (Z.to_nat n) as [|k] eqn:E; [lia|].
  rewrite replicate_S_end. apply last_snoc.
Qed.

Lemma char_ptr_benchmarks_read_uninitialised_witness :
  let st := {| max_iterations := 1; range_0 := 0 |} in
  string_util_to_lower_char_ptr (full_of "z"%byte) st = None.
Proof.
  intros st. pose proof kLongString_size as Hn.
  refine (proj1 (proj2 (proj2 (char_ptr_benchmarks_read_uninitialised (full_of "z"%byte) st "z"%byte _ _)) _ _)).
  - apply full_of_length. lia.
  - apply full_of_last. lia.
  - discriminate.
  - exact (Nat.lt_0_succ 0).
Defined.
