(* ===== verification/FileBench.v ===== *)
(** * The benchmarks of the file utilities

    src/src/core/base/file_util_bench.cc and src/src/bench/benchmark_util.h: the functions of
    FileUtil.v on temporary files, on a text of a thousand lines, and on the lines of a [File]. *)

From S2P Require Import Prelude StringUtil FileSystem FileUtil LogFile Benchmark.

(** ** Temporary files *)

Section files.
Context {W : Type} {FS : FileSystem W}.

Definition get_benchmark_log_path (w : W) (filename : bytes) : bytes :=
  join_path [exe_dir w; bs "benchmark_logs"; filename].

(** The file is there while [fn] runs; [picks] are the draws of the name. *)
Definition with_temp_file {A : Type} (w : W) (picks : list nat) (content : bytes)
    (fn : W -> bytes -> option (A * W)) : option (A * W) :=
  let '(tmp, w1) := temp_file_new w (bs "temp_file_for_bench") content picks in
  '(a, w2) ← fn w1 (temp_path_ tmp); Some (a, temp_file_delete w2 tmp).

Definition with_temp_dir {A : Type} (w : W) (picks : list nat) (fn : W -> bytes -> option (A * W)) : option (A * W) :=
  let '(tmp, w1) := temp_dir_new w (bs "tmp_dir_") picks in
  '(a, w2) ← fn w1 (temp_path_ tmp); Some (a, temp_dir_delete w2 tmp).

Definition file_util_file_exists (w : W) (picks : list nat) (st : State) : option (list bool * W) :=
  with_temp_file w picks (bs "hello") (λ w path, timed st (λ w, Some (file_exists w path, w)) w).

Definition file_util_dir_exists (w : W) (picks : list nat) (st : State) : option (list bool * W) :=
  with_temp_dir w picks (λ w path, timed st (λ w, Some (dir_exists w path, w)) w).

Definition file_util_exe_path (w : W) (st : State) : option (list bytes) :=
  timed_calls st (Some (exe_path w)).

Definition file_util_exe_dir (w : W) (st : State) : option (list bytes) :=
  timed_calls st (Some (exe_dir w)).

(** The two loops over [i < 10] of [file_util_list_files]. *)
Definition bench_file (dir : bytes) (i : nat) : bytes := join_path [dir; bs "file" ++ to_string i].

Definition make_files (w : W) (dir : bytes) : W :=
  fold_left (λ w i, let path := bench_file dir i in
    let '(_, w) := create_file w path in let '(_, w) := write_file w path (bs "test") in w) (seq 0 10) w.

Definition remove_files (w : W) (dir : bytes) : W :=
  fold_left (λ w i, let '(_, w) := remove_file w (bench_file dir i) in w) (seq 0 10) w.

Definition file_util_list_files (w : W) (picks : list nat) (st : State) : option (list (list bytes) * W) :=
  with_temp_dir w picks (λ w dir,
    let w := make_files w dir in
    '(results, w) ← timed st (λ w, Some (list_files w dir, w)) w;
    Some (results, remove_files w dir)).

Definition file_util_write_binary_to_file (w : W) (picks : list nat) (st : State) : option (list Z * W) :=
  with_temp_file w picks [] (λ w path,
    let data := replicate 4096 "A"%byte in
    timed st (λ w, Some (write_binary_to_file w (Some data) path)) w).

Definition file_util_file_extension (st : State) : option (list bytes) :=
  let path := bs "/path/to/file.name.ext" in timed_calls st (Some (file_extension path)).

Definition file_util_sanitize_component (st : State) : option (list bytes) :=
  let path := bs "/foo/bar/" in timed_calls st (Some (sanitize_component path false)).

Definition file_util_remove_file (w : W) (picks : list nat) (st : State) : option (list Z * W) :=
  let tmp := temp_path w (bs "temp_bench_remove_file") picks in
  timed st (λ w,
    let '(_, w) := create_file w tmp in
    let '(_, w) := write_file w tmp (bs "test") in
    Some (remove_file w tmp)) w.

(** One draw of a name for every iteration; the results of the last two calls are kept. *)
Definition file_util_rename_file (w : W) (picks : nat -> list nat) (st : State) : option (list (Z * Z) * W) :=
  let temp_dir := temp_directory w in
  let new_name := join_path [temp_dir; bs "tmp_new_name.txt"] in
  '(results, (w, _)) ← timed st (λ '(w, i),
    let old_name := temp_path w (bs "temp_bench_rename_file") (picks i) in
    let '(_, w) := create_file w old_name in
    let '(_, w) := write_file w old_name (bs "test") in
    let '(renamed, w) := rename_file w old_name new_name in
    let '(removed, w) := remove_file w new_name in
    Some ((renamed, removed), (w, S i))) (w, 0%nat);
  Some (results, w).

Definition file_util_create_directory (w : W) (picks : list nat) (st : State) : option (list (Z * Z) * W) :=
  with_temp_dir w picks (λ w temp_dir,
    let dir := join_path [temp_dir; bs "temp_bench_create_directory"] in
    timed st (λ w,
      let '(created, w) := create_directory w dir in
      let '(removed, w) := remove_directory w dir in
      Some ((created, removed), w)) w).
End files.

(** ** Lines *)

Definition num_lines : nat := 1000.
Definition line_length : nat := 80.

(** One turn of the outer loop, without the newline. *)
Definition generated_line (line_length : nat) : bytes := (λ j, ch (97 + Z.of_nat (j mod 26))) <$> seq 0 line_length.

Definition generate_large_content (num_lines line_length : nat) : bytes :=
  concat (replicate num_lines (generated_line line_length ++ [nl])).

Section lines.
(** The build: with AVX2 or without, debug or not. *)
Context (enable_avx2 is_debug : bool).

Definition large_content : bytes := generate_large_content num_lines line_length.

Definition file_util_read_lines_internal (use_avx : bool) (st : State) : option (report (list bytes)) :=
  results ← timed_calls st (Some (read_lines enable_avx2 use_avx large_content));
  Some (set_bytes_processed st results (lenZ large_content)).

Definition file_util_read_lines_default := file_util_read_lines_internal false.
Definition file_util_read_lines_with_avx2 := file_util_read_lines_internal true.

Definition test_file : bytes := bs "test_file.txt".

Definition file_util_file_constructor (st : State) : option (report File) :=
  results ← timed_calls st (Some (file_of_source enable_avx2 test_file large_content));
  Some (set_bytes_processed st results (u64 (lenZ test_file + lenZ large_content))).

(** [gen] are the draws of [std::uniform_int_distribution<>(1, num_lines)]. *)
Definition distrib (gen : nat -> nat) (i : nat) : Z := 1 + Z.of_nat (gen i mod num_lines).

Definition file_util_file_line_access_random (gen : nat -> nat) (st : State) : option (report bytes) :=
  let f := file_of_source enable_avx2 test_file large_content in
  '(results, _) ← timed st (λ i, line ← file_line is_debug f (distrib gen i); Some (line, S i)) 0%nat;
  Some (set_bytes_processed st results (Z.of_nat line_length)).

Definition file_util_file_line_access_sequential (st : State) : option (report bytes) :=
  let f := file_of_source enable_avx2 test_file large_content in
  '(results, _) ← timed st (λ current_line,
    line ← file_line is_debug f current_line;
    let current_line := current_line ⊕ 1 in
    let current_line := if Z.of_nat num_lines <? current_line then 1 else current_line in
    Some (line, current_line)) 1;
  Some (set_bytes_processed st results (Z.of_nat line_length)).

Definition file_util_file_source_access (st : State) : option (report bytes) :=
  let f := file_of_source enable_avx2 test_file large_content in
  results ← timed_calls st (Some (source_ f));
  Some (set_bytes_processed st results (lenZ large_content)).

Definition file_util_file_name_access (st : State) : option (report bytes) :=
  let f := file_of_source enable_avx2 test_file [] in
  results ← timed_calls st (Some (file_name_ f));
  Some (set_bytes_processed st results (lenZ test_file)).
End lines.

(** ** What the benchmarks of the lines measure *)

Definition a_line : bytes := bs "abcdefghijklmnopqrstuvwxyzabcdefghijklmnopqrstuvwxyzabcdefghijklmnopqrstuvwxyzab".

Lemma generated_a_line : generated_line line_length = a_line.
Proof. vm_compute. reflexivity. Qed.

(** Lines without a newline or a carriage return come back. *)
Lemma lines_of_generated line n : nl ∉ line -> cr ∉ line ->
  lines_of [] (concat (replicate n (line ++ [nl]))) = replicate n line.
Proof.
  intros Hnl Hcr. induction n as [|n IH]; [done|]. cbn [replicate concat].
  rewrite <- app_assoc, lines_of_app by done. cbn [app]. rewrite lines_of_nl, strip_cr_none by done.
  by rewrite IH.
Qed.

Lemma large_lines enable_avx2 use_avx : read_lines enable_avx2 use_avx large_content = replicate num_lines a_line.
Proof.
  unfold read_lines. rewrite read_lines_avx2_spec, read_lines_default_spec.
  unfold large_content, generate_large_content. rewrite generated_a_line, lines_of_generated.
  - by destruct (_ && _).
  - by apply (bool_decide_unpack _); vm_compute.
  - by apply (bool_decide_unpack _); vm_compute.
Qed.

Lemma large_content_size : lenZ large_content = 81000.
Proof. vm_compute. reflexivity. Qed.

Lemma large_file_line enable_avx2 is_debug k : 1 <= k <= 1000 ->
  file_line is_debug (file_of_source enable_avx2 test_file large_content) k = Some a_line.
Proof.
  intros Hk. unfold file_line. cbn [lines_ file_of_source]. rewrite large_lines.
  assert (lenZ (replicate num_lines a_line) = 1000) as -> by (unfold lenZ; by rewrite length_replicate).
  rewrite (proj2 (Z.eqb_neq k 0)), (proj2 (Z.ltb_ge 1000 k)) by lia. rewrite andb_false_r.
  rewrite u64_small by lia. apply lookup_replicate_2. unfold num_lines. lia.
Qed.

(** What the benchmarks of the lines measure, in a build with AVX2 or without, in debug mode or
    not, whatever the generator draws: reading the text gives its thousand lines, and both ways of
    accessing a [File] line by line stay inside it (the sequential one starts over after the last
    line), so every access gives a line of the 80 bytes it reports. The two benchmarks of path
    functions give the last extension and the component without its separators. *)
Theorem line_benchmarks_measure enable_avx2 is_debug gen st :
  let lines := replicate num_lines a_line in
  let f := {| file_name_ := test_file; source_ := large_content; lines_ := lines |} in
  gives st (file_util_read_lines_default enable_avx2 st) lines 81000 /\
  gives st (file_util_read_lines_with_avx2 enable_avx2 st) lines 81000 /\
  gives st (file_util_file_constructor enable_avx2 st) f 81013 /\
  gives st (file_util_file_line_access_random enable_avx2 is_debug gen st) a_line 80 /\
  gives st (file_util_file_line_access_sequential enable_avx2 is_debug st) a_line 80 /\
  gives st (file_util_file_source_access enable_avx2 st) large_content 81000 /\
  gives st (file_util_file_name_access enable_avx2 st) test_file 13 /\
  file_util_file_extension st = Some (replicate (max_iterations st) (bs "ext")) /\
  file_util_sanitize_component st = Some (replicate (max_iterations st) (bs "foo/bar")).
Proof.
  intros lines f. pose proof large_content_size as Hs. split_and!.
  - rewrite <- Hs. apply gives_calls. by rewrite large_lines.
  - rewrite <- Hs. apply gives_calls. by rewrite large_lines.
  - unfold file_util_file_constructor. rewrite Hs. apply gives_calls. unfold file_of_source. by rewrite large_lines.
  - apply (gives_timed (λ _, True)); [|done]. intros i _. rewrite large_file_line; [eauto|].
    unfold distrib. pose proof (Nat.mod_upper_bound (gen i) num_lines). unfold num_lines in *. lia.
  - apply (gives_timed (λ k, 1 <= k <= 1000)); [|lia]. intros k Hk. rewrite large_file_line by done.
    cbn [mbind option_bind]. eexists. split; [done|]. rewrite u64_small by lia.
    change (Z.of_nat num_lines) with 1000. destruct (Z.ltb_spec 1000 (k + 1)); lia.
  - rewrite <- Hs. by apply gives_calls.
  - by apply (gives_calls _ _ _ 13).
  - apply (timed_calls_spec st (bs "ext")).
  - apply (timed_calls_spec st (bs "foo/bar")).
Qed.
